(* ===== verification/_CoqProject ===== *)
-Q . S2P
Prelude.v
ByteOrder.v
CLib.v
Queue.v
Kvtree.v
KvtreeSpec.v
KvtreeMap.v
KvtreeMerge.v
Pack.v
Io.v
Persist.v
LockFile.v
Locked.v
LockedSpec.v
LockedAtomic.v
Format.v
Sort.v
Util.v
Paths.v
Gather.v
GatherSpec.v
ScatterSpec.v
Net.v
Mpi.v
Exchange.v
Bruck.v
ExchangeSpec.v
Writers.v
Items.v
World.v
Frames.v
MpiIo.v
LevelFile.v
Levels.v
CollectiveWrite.v
CollectiveRead.v
Collective.v
SepLogic.v
Memory.v
Heap.v
HeapSpec.v
HeapOps.v
HeapPack.v
HeapFile.v
HeapPrograms.v
HeapSort.v
FilePrograms.v
QueueSpec.v
QueueChain.v
QueueSingle.v
QueueTail.v
QueueCircle.v
QueueKinds.v
TvDisplay.v
TvTree.v
Print.v
PrintTool.v
Programs.v
