(* ===== verification/Prelude.v ===== *)
(** * KVTree: a verification development

    KVTree ([src/]) is a C library for nested key/value data.  A kvtree is a list
    of elements, each with a string key and another kvtree as its value.  The
    library builds and merges such trees, packs them into buffers, stores them in
    files with a header and a checksum, locks those files, and moves trees
    between MPI processes.  This library models that code as executable Rocq
    functions and proves what it does.

    ** Parts

    Each file models one part and requires the parts it calls; in order:

    - [Prelude] (this file): outcomes of C code, machine integers, bytes,
      C strings, memory blocks, the shared lemmas, hint databases and tactics.
    - [ByteOrder]: [kvtree_byteswap.h], the byte-order macros of [kvtree_io.h],
      [kvtree_malloc] and the pack and unpack functions for integers of
      [kvtree_helpers.c].  Class [Host] is the machine: its byte order, the
      contents of fresh memory and the largest block [malloc] gives.
    - [CLib]: the functions of the C library the code calls (strings, printing
      and reading integers), and class [Qsort], what [qsort] promises.
    - [Queue]: the [LIST_*] macros of [queue.h] on a heap of pointers, refined by
      functional lists.
    - [Kvtree]: the data of [kvtree.h] and the core of [kvtree.c] up to
      [kvtree_merge], the key/value shortcuts and the element functions.  A
      tree is the list of its elements, newest first; [kvtree_f] models the
      function of that name and returns the tree after the call.
    - [KvtreeSpec]: the invariant [wf] (keys are C strings, different at each
      level), the children and the paths of a tree, and what every core operation
      does to them.  [KvtreeMap]: one level refines a finite map.  [KvtreeMerge]:
      equivalence of trees, merging as union, pairs of keys.
    - [Pack]: [kvtree_pack_size], [kvtree_pack], [kvtree_unpack].
    - [Io]: [kvtree_io.c] over a model of the POSIX calls it makes: files,
      descriptors, locks and a script of replies (success, short counts,
      interruptions, errors) that the theorems quantify over.  Class
      [LockConfig] is the build's choice of lock.
    - [Persist]: the file format, writing and reading files.  Class [Zlib] is
      [crc32].  [LockFile]: the calls that work under the file's lock.
    - [Locked]: the functions of [Io], [Persist] and [LockFile] that these calls
      use once more, as programs that stop at every system call ([prog]); running
      one without a break is the function it was written after.  Several processes
      share the files and take turns, one system call at a time ([tstep]).
      [LockedSpec]: the specification, a hash that all share, and the phases of a
      process before, inside and after the lock.  [LockedAtomic]: the invariant of
      all interleavings and the theorems.
    - [Format]: [kvtree_setf] and [kvtree_getf].  Class [Libc] is the text of
      doubles and pointers.  [Util]: the typed getters and setters of
      [kvtree_util.c] and [kvtree_atod], which are clients of [Format].
    - [Sort]: [kvtree_sort], [kvtree_sort_int] and [kvtree_list_int].
    - [Paths]: what the calls do to the set of paths of a tree ([adds], [graft]);
      the proofs about exchanged and gathered trees are about paths.
    - [Gather]: [kvtree_write_to_gather] and [kvtree_read_scatter_single], which
      spread a tree over part files and read it back.  Classes [Directory] and
      [Regex] are directory listings and POSIX regular expressions.  [GatherSpec]:
      what is written; [ScatterSpec]: what is read back.
    - [Net]: processes, the messages between them and what MPI documents about
      them, a step relation; a run to the end decides every run.  Class
      [MpiBuffers] is what MPI buffers.
    - [Mpi]: [kvtree_send], [kvtree_recv], [kvtree_sendrecv] and [kvtree_bcast] of
      [kvtree_mpi.c].  Class [MpiConst] is [MPI_PROC_NULL].
    - [Exchange]: [kvtree_exchange_sendq], [kvtree_exchange_direction] and
      [kvtree_exchange].  [Bruck]: the algorithm, hop by hop; [ExchangeSpec]: the
      calls on all processes.
    - [Writers]: [pick_writer] and [kvtree_alltrue] of [kvtree_mpi_io.c].
    - [World]: processes that send messages and work on files, a process of [Net]
      that stops with an operation of [Io] or with its result; [wstep] interleaves
      the messages with the operations on the shared files.  When each file has one
      process that works on it, a run to the end decides every run ([owned_always]).
      [Frames]: the calls of [Io] and [Persist] depend on their own file only.
    - [MpiIo]: [kvtree_write_gather] and [kvtree_read_scatter] of [kvtree_mpi_io.c],
      with the recursion over the maps of file names.  [Items]: an exchange of trees
      between some of the processes; [LevelFile]: what [write_save] stores and
      [read_at] finds; [Levels]: the names and files of the levels;
      [CollectiveWrite] and [CollectiveRead]: a round of all processes after the
      other; [Collective]: the properties of the two calls.
    - [SepLogic]: code that reads and writes the places of a store, and a separation
      logic for it, an instance of the logic of Iris.  [Memory]: its use for blocks
      that are allocated and freed.  Class [Allocator] is the choice of addresses.
      [Heap]: the functions of [Kvtree] again, with the
      lists of [queue.h], on memory, as the code has them; [HeapSpec] and [HeapOps]:
      each does to the tree at a pointer what its counterpart of [Kvtree] does to
      the value; [HeapPack] and [HeapFile]: the same for packing, writing and
      reading files, with the buffers; [HeapSort]: sorting, with the array of
      addresses; [HeapPrograms]: what a program leaves in memory; [FilePrograms]:
      the same for programs that use files.
    - [QueueSpec]: an interface to sets of list macros and programs that use it; the
      other macros of [queue.h] keep its promises: [QueueSingle] the singly linked
      lists and the two kinds of tail queues that are singly linked, [QueueTail] the
      tail queues, [QueueCircle] the rings; [QueueChain]: what the first three
      share; [QueueKinds]: the theorem about all.  No code of the library uses them.
    - [TvDisplay]: the buffer of [tv_data_display.c] in which the TotalView debugger
      finds the rows of a hash; [TvTree]: [TV_ttf_display_type] of [kvtree.c], which
      adds them.
    - [Print]: [kvtree_print], [kvtree_print_mode], [kvtree_log] and the messages of
      [kvtree_err.c].  Class [Identity] is [gethostname].  [PrintTool]: the
      utility of [kvtree_print.c].  Class [Getopt] is [getopt_long].
    - [Programs]: the programs that use the library, as sequences of calls.

    The classes are the interfaces to what is outside [src/]: the theorems hold
    for every instance, and each has an instance on which the witnesses evaluate
    ([host_le], [qsort_insertion], [lock_flock], [fresh_allocator], [zlib_sum], [libc_sample],
    [dir_of_files], [regex_part], [mpi_sample], [mpi_rendezvous], [sample_identity],
    [getopt_sample]).

    ** How C is modelled

    A function that may call [kvtree_abort], touch memory it must not, or loop is
    a computation in [outcome] (below); one that calls the system is in [Io.io],
    which threads the state of the system through [outcome]; one that calls MPI is a
    process, [Net.proc], which stops or waits for MPI.  A pointer argument
    that may be NULL is an [option].  A pointer into a tree is the path of keys
    to it ([Kvtree.at_ptr] writes through it, so a change made through a pointer
    is a change of the tree).  An [int] is a [Z], wrapped where the code can
    leave the range ([i32], [u32], [u64]), as are the sizes and positions that the
    functions of [kvtree_helpers.c] are given; other sizes and positions in buffers
    are [nat]s, which [Pack] argues cannot wrap.  Messages (but for [Print]) and pauses are left out.
    Freeing has no effect on values and is left out, but in the files on memory ([Heap]
    to [FilePrograms]), where every pointer is an address, a freed block is gone and
    using it is undefined.

    Loops over lists are structural.  The others take fuel: [Pack.unpack_fuel]
    (a step consumes at least one byte, so the length of the buffer is enough),
    [Io.attempt_fuel] (a step moves bytes, uses a reply of the script or spends
    one of the ten retries), [Exchange.hop_fuel] (a number doubles from 1 up to the
    number of processes, an [int]: 32 steps) and the number of elements in
    [Gather.parts_loop] (a part takes one at least; when it takes none the loop of
    the code does not end, which is the one theorem about [NoFuel]).  The levels of
    maps of [MpiIo] take 2: a process starts a segment about every megabyte and an
    entry of a map packs to at most 256 bytes, so that two levels lead from the files
    of up to 2^20 processes to a single map.  All other theorems never end in
    [NoFuel]: the loops stop.

    ** Theorems

    - The data structure: sequences of calls refine a finite map; merging is a
      union of paths, hence idempotent, commutative and associative; the
      key/value calls are a map of pairs; the pointer lists under all that refine
      lists; sorting permutes and orders; [kvtree_setf] changes one path.
    - Programs: whatever calls a program makes and whatever its files hold, its hashes
      stay well-formed, but for what it unpacks from bytes it has not packed.
    - Round trips: integers, packing, files, files under a lock, typed values, part
      files.  Packing reverses every level, and reading a file restores the order.
    - Processes: every run of the MPI calls ends, however the processes are
      scheduled and whatever MPI buffers, and every tree arrives where it was sent;
      [kvtree_exchange] delivers all items with as many hops as it counted;
      [pick_writer] cuts the processes into segments.
    - Locked files: readers, writers and updates of one file by several processes
      take effect one at a time, in the order of their locks, whatever the order of
      the system calls; every run ends.  Without locks an update can be lost.
    - Collective files: every run of [kvtree_write_gather] ends, whatever the system
      replies, and all processes report the same; when they report success the trees
      are in the files.  Every run of [kvtree_read_scatter] by the same number of
      processes ends, and success means that each has its tree back.
    - Memory: a program in which every tree has one owner never touches a block that
      is not allocated, computes what [Kvtree] computes, and loses no block; so does one
      that reads and writes files, on every error path, when its files are damaged only
      in ways the checks notice ([Persist.sound_file]).  Sorting moves the elements,
      frees its array and changes nothing else.
    - The list macros that kvtrees do not use implement lists, in both directions.
    - The debugger sees the rows of a hash, each with the address of what it shows, when
      they fit in its buffer and the keys have neither tabs nor newlines.
    - Errors: reading a damaged or short file changes nothing; writing reports
      success only when the whole file is written, whatever the system replies;
      lookups of missing keys fail; format errors abort; without the top map, or
      with more processes than wrote, [kvtree_read_scatter] fails on every process
      and none of them hangs.
    - Bounds: packing writes [kvtree_pack_size] bytes exactly; unpacking
      arbitrary bytes stops; the check of the integer packing functions is right but for
      positions near [SIZE_MAX], where its sum wraps around; integer comparisons are right exactly when the
      difference does not overflow; printing is right exactly when the tree is not
      too deep for the block that holds the indentation; a row of the debugger that
      does not fit its buffer is written past the end.

    ** Not modelled

    [kvtree_unpack] does not know the size of its buffer: bytes that are no packed hash
    make it undefined, or give a hash with a key twice.  The theorems about files on
    memory and about programs say which bytes they are about.
    The theorems about [kvtree_write_gather] assume that the packed trees fit an
    [int] together.  What [kvtree_read_scatter] makes of files that are damaged, or
    of fewer processes than wrote them, is not stated.  The calls on files of
    [World] are whole: MPI processes are not interleaved within a call of [Io], as
    the processes of [Locked] are.  These use one file under its lock, with one of the
    two kinds of lock, get no errors from the system and do not die while they hold
    the lock.  On memory there are the functions up to the
    element functions, sorting (where [qsort] works on the contents of the array),
    packing and whole files; [kvtree_setf], printing, the locked files, part files
    and MPI work on values only, and what they free is not checked.  [malloc] and [strdup] do
    not fail (the code aborts then).  What [#if 0] leaves out, the code that is there
    for the compiler only, and tests, documentation and build files are no part of
    the program. *)

From Stdlib Require Export ZArith Lia Strings.Byte Strings.String.
From coqutil Require Export Byte.
From stdpp Require Export base tactics list gmap numbers countable.

Close Scope string_scope.
#[global] Open Scope Z_scope.
#[global] Open Scope list_scope.

(** ** Outcomes of C code

    [Ok]: the code ran to its end.  [Abort]: [kvtree_abort] was called, which
    ends the process.  [Undef]: the code performed an access the C standard
    leaves undefined (an out-of-bounds read or write, a NULL dereference).
    [NoFuel]: the fuel of a model loop ran out; every loop comes with a theorem
    that its fuel is enough. *)
Inductive outcome (A : Type) : Type :=
| Ok (a : A)
| Abort
| Undef
| NoFuel.
Arguments Ok {A} a.
Arguments Abort {A}.
Arguments Undef {A}.
Arguments NoFuel {A}.

Definition obind {A B} (m : outcome A) (f : A -> outcome B) : outcome B :=
  match m with
  | Ok a => f a
  | Abort => Abort
  | Undef => Undef
  | NoFuel => NoFuel
  end.

Declare Scope outcome_scope.
Delimit Scope outcome_scope with outcome.
Notation "'let*' x ':=' m 'in' k" := (obind m (fun x => k))
  (at level 10, x pattern, m at level 100, k at level 200) : outcome_scope.
#[global] Open Scope outcome_scope.

Definition is_ok {A} (m : outcome A) : bool :=
  match m with Ok _ => true | _ => false end.

Lemma obind_ok {A B} (m : outcome A) (f : A -> outcome B) b :
  obind m f = Ok b <-> exists a, m = Ok a /\ f a = Ok b.
Proof. destruct m; simpl; naive_solver. Qed.

Lemma obind_assoc {A B C} (m : outcome A) (f : A -> outcome B) (g : B -> outcome C) :
  obind (obind m f) g = obind m (fun a => obind (f a) g).
Proof. by destruct m. Qed.

(** ** Return codes *)
Definition KVTREE_SUCCESS : Z := 0.
Definition KVTREE_FAILURE : Z := 1.

(** ** Machine integers, as [Z] with their wrap-around *)
Definition u16 (z : Z) : Z := z mod 2 ^ 16.
Definition u32 (z : Z) : Z := z mod 2 ^ 32.
Definition u64 (z : Z) : Z := z mod 2 ^ 64.
Definition i32 (z : Z) : Z := (z + 2 ^ 31) mod 2 ^ 32 - 2 ^ 31.
Definition i64 (z : Z) : Z := (z + 2 ^ 63) mod 2 ^ 64 - 2 ^ 63.

Definition INT_MAX : Z := 2 ^ 31 - 1.
Definition INT_MIN : Z := - 2 ^ 31.

Definition is_int (z : Z) : Prop := INT_MIN <= z <= INT_MAX.
Definition is_u32 (z : Z) : Prop := 0 <= z < 2 ^ 32.
Definition is_u64 (z : Z) : Prop := 0 <= z < 2 ^ 64.
Definition is_i64 (z : Z) : Prop := - 2 ^ 63 <= z < 2 ^ 63.

Ltac int_unfold :=
  unfold is_int, is_u32, is_u64, is_i64, INT_MIN, INT_MAX, u16, u32, u64, i32, i64 in *.

(** [lia] after unfolding the integer ranges, with the quotient and remainder
    equations of constant divisors. *)
Ltac int_lia :=
  int_unfold; Z.div_mod_to_equations; lia.

Lemma i32_id z : is_int z -> i32 z = z.
Proof. int_lia. Qed.
Lemma i64_id z : is_i64 z -> i64 z = z.
Proof. int_lia. Qed.
Lemma u32_id z : is_u32 z -> u32 z = z.
Proof. int_lia. Qed.
Lemma u64_id z : is_u64 z -> u64 z = z.
Proof. int_lia. Qed.
Lemma u32_range z : is_u32 (u32 z).
Proof. int_lia. Qed.
Lemma u64_range z : is_u64 (u64 z).
Proof. int_lia. Qed.
Lemma i32_range z : is_int (i32 z).
Proof. int_lia. Qed.

Create HintDb cint.
#[export] Hint Resolve u32_range u64_range i32_range : cint.
#[export] Hint Rewrite i32_id i64_id u32_id u64_id using (first [assumption | int_lia]) : cint.

(** ** Bytes and C strings

    A C string is the list of its bytes without the terminating NUL; a list
    that does hold a NUL reads, as in C, up to the first one ([c_str]). *)
Notation byte := Init.Byte.byte.
Notation NUL := Init.Byte.x00.
Notation cstring := (list byte).

#[export] Instance byte_eq_dec : EqDecision byte := Byte.byte_eq_dec.

#[export] Program Instance byte_countable : Countable byte :=
  inj_countable Byte.to_N Byte.of_N _.
Next Obligation. exact Byte.of_to_N. Qed.

Definition str (s : string) : cstring := list_byte_of_string s.

Fixpoint c_str (s : list byte) : cstring :=
  match s with
  | [] => []
  | b :: s => if Byte.eqb b NUL then [] else b :: c_str s
  end.

Definition nul_free (s : list byte) : Prop := NUL ∉ s.

Lemma byte_eqb_spec (a b : byte) : reflect (a = b) (Byte.eqb a b).
Proof.
  destruct (Byte.eqb a b) eqn:E; constructor.
  - by apply Byte.byte_dec_bl.
  - intros ->. by rewrite Byte.byte_dec_lb in E.
Qed.

Lemma c_str_nul_free s : nul_free (c_str s).
Proof.
  unfold nul_free. induction s as [|b s IH]; simpl.
  - apply not_elem_of_nil.
  - destruct (byte_eqb_spec b NUL); [apply not_elem_of_nil|].
    rewrite not_elem_of_cons. split; auto.
Qed.

Lemma c_str_id s : nul_free s -> c_str s = s.
Proof.
  unfold nul_free. induction s as [|b s IH]; simpl; [done|].
  rewrite not_elem_of_cons. intros [Hb Hs].
  destruct (byte_eqb_spec b NUL); [congruence|]. by rewrite IH.
Qed.

Lemma c_str_idem s : c_str (c_str s) = c_str s.
Proof. apply c_str_id, c_str_nul_free. Qed.

Lemma c_str_app_nul s rest : nul_free s -> c_str (s ++ NUL :: rest) = s.
Proof.
  unfold nul_free. induction s as [|b s IH]; simpl; [done|].
  rewrite not_elem_of_cons. intros [Hb Hs].
  destruct (byte_eqb_spec b NUL); [congruence|]. by rewrite IH.
Qed.

Create HintDb kvtree.
#[export] Hint Resolve c_str_nul_free : kvtree.
#[export] Hint Rewrite c_str_idem : kvtree.

(** ** Memory blocks

    A block is the list of its bytes; [mem_write] is [memcpy] into it and
    [mem_read] is [memcpy] out of it.  Both are undefined when they leave the
    block. *)
Definition mem_write (buf : list byte) (pos : nat) (src : list byte) : outcome (list byte) :=
  if decide (pos + length src <= length buf)%nat
  then Ok (take pos buf ++ src ++ drop (pos + length src) buf)
  else Undef.

Definition mem_read (buf : list byte) (pos n : nat) : outcome (list byte) :=
  if decide (pos + n <= length buf)%nat
  then Ok (take n (drop pos buf))
  else Undef.

(** The C string that starts at [pos]: undefined when no NUL follows. *)
Definition mem_cstr (buf : list byte) (pos : nat) : outcome cstring :=
  if decide (NUL ∈ drop pos buf) then Ok (c_str (drop pos buf)) else Undef.

Lemma mem_write_split a b c src :
  length src = length b ->
  mem_write (a ++ b ++ c) (length a) src = Ok (a ++ src ++ c).
Proof.
  intros Hlen. unfold mem_write. rewrite decide_True by (rewrite !length_app; lia).
  f_equal. rewrite take_app_length, Hlen, drop_app_add, drop_app_length. done.
Qed.

Lemma mem_write_length buf pos src buf' :
  mem_write buf pos src = Ok buf' -> length buf' = length buf.
Proof.
  unfold mem_write. case_decide; [|done]. intros [= <-].
  rewrite !length_app, length_take, length_drop. lia.
Qed.

Lemma mem_write_Ok buf pos src buf' :
  mem_write buf pos src = Ok buf' ->
  buf' = take pos buf ++ src ++ drop (pos + length src) buf /\
  (pos + length src <= length buf)%nat.
Proof. unfold mem_write. case_decide; [|done]. by intros [= <-]. Qed.

(** Two adjacent writes are one write. *)
Lemma mem_write_app buf pos s1 s2 :
  (let* b := mem_write buf pos s1 in mem_write b (pos + length s1) s2)
    = mem_write buf pos (s1 ++ s2).
Proof.
  destruct (mem_write buf pos s1) as [b| | |] eqn:E; unfold mem_write in E |- *;
    rewrite length_app; case_decide; try done.
  - injection E as <-. simpl. unfold mem_write.
    rewrite !length_app, length_take, length_drop. repeat case_decide; try done; try lia.
    f_equal. rewrite !drop_app, !take_app, length_take, !drop_drop, !take_take.
    rewrite (drop_ge (take pos buf)) by (rewrite length_take; lia).
    rewrite (drop_ge s1) by lia. rewrite (take_ge s1) by lia.
    replace (_ `min` pos)%nat with pos by lia.
    replace (pos + length s1 - pos `min` length buf - length s1)%nat with 0%nat by lia.
    rewrite take_0, app_nil_r, <- !app_assoc, !app_nil_l. do 4 f_equal. lia.
  - simpl. case_decide; [lia|done].
Qed.

Lemma mem_write_nil buf pos : (pos <= length buf)%nat -> mem_write buf pos [] = Ok buf.
Proof.
  intros H. unfold mem_write. rewrite decide_True by (simpl; lia). f_equal.
  simpl. rewrite Nat.add_0_r. apply take_drop.
Qed.

Lemma drop_stream (buf : list byte) pos s rest :
  drop pos buf = s ++ rest -> drop (pos + length s) buf = rest.
Proof. intros E. by rewrite <- drop_drop, E, drop_app_length. Qed.

Lemma mem_read_stream buf pos s rest :
  drop pos buf = s ++ rest -> s <> [] -> mem_read buf pos (length s) = Ok s.
Proof.
  intros E Hs. unfold mem_read. rewrite E, take_app_length, decide_True; [done|].
  apply (f_equal length) in E. rewrite length_drop, length_app in E.
  destruct s; [done|]. simpl in *. lia.
Qed.

Lemma mem_cstr_stream buf pos s rest :
  drop pos buf = s ++ NUL :: rest -> nul_free s -> mem_cstr buf pos = Ok s.
Proof.
  intros E Hs. unfold mem_cstr. rewrite E, decide_True by set_solver.
  by rewrite c_str_app_nul.
Qed.

Lemma mem_read_split a b c :
  mem_read (a ++ b ++ c) (length a) (length b) = Ok b.
Proof.
  unfold mem_read. rewrite decide_True by (rewrite !length_app; lia).
  by rewrite drop_app_length, take_app_length.
Qed.

Lemma mem_cstr_split a s c :
  nul_free s -> mem_cstr (a ++ s ++ NUL :: c) (length a) = Ok s.
Proof.
  intros Hs. unfold mem_cstr. rewrite drop_app_length, c_str_app_nul by done.
  rewrite decide_True; [done|]. set_solver.
Qed.

(** ** Lists *)
Fixpoint list_extract {A} (p : A -> bool) (l : list A) : option (A * list A) :=
  match l with
  | [] => None
  | x :: l =>
      if p x then Some (x, l)
      else match list_extract p l with
           | Some (y, l') => Some (y, x :: l')
           | None => None
           end
  end.

Lemma list_extract_Some {A} (p : A -> bool) l x l' :
  list_extract p l = Some (x, l') ->
  exists l1 l2, l = l1 ++ x :: l2 /\ l' = l1 ++ l2 /\ p x = true /\
                Forall (fun y => p y = false) l1.
Proof.
  revert x l'. induction l as [|y l IH]; intros x l'; simpl; [done|].
  destruct (p y) eqn:Hy.
  - intros [= -> ->]. by exists [], l'.
  - destruct (list_extract p l) as [[z l'']|]; [|done].
    intros [= -> <-]. destruct (IH _ _ eq_refl) as (l1 & l2 & -> & -> & Hp & HF).
    exists (y :: l1), l2. repeat split; auto.
Qed.

Lemma list_extract_None {A} (p : A -> bool) l :
  list_extract p l = None <-> Forall (fun y => p y = false) l.
Proof.
  induction l as [|y l IH]; simpl; [split; auto|].
  rewrite Forall_cons_iff. destruct (p y) eqn:Hy.
  - naive_solver.
  - destruct (list_extract p l) as [[z l'']|] eqn:E.
    + split; [done|]. intros [_ H]. by apply IH in H.
    + split; [|done]. intros _. split; [done|]. by apply IH.
Qed.
