(* ===== verification/ByteOrder.v ===== *)
(** Byte order and fixed-width integers in buffers: [src/src/kvtree_byteswap.h],
    the byte-order macros of [src/src/kvtree_io.h] and the pack and unpack
    functions of [src/src/kvtree_helpers.c].

    A [uint32_t] variable of the program is a [Z]; its object representation
    depends on the host ([mem_of]).  [kvtree_hton32] is a swap or the identity
    according to the host, and the theorems show that the bytes that reach a
    buffer are big-endian on either host. *)

From S2P Require Import Prelude.
From coqutil Require Import Word.LittleEndianList Z.prove_Zeq_bitwise Z.bitblast.

(** ** The host *)
Inductive byte_order := LittleEndian | BigEndian.

(** What the code takes from the machine it runs on: the byte order, the bytes
    of memory that was not written yet, and the largest block [malloc] can
    return, which is less than [2^63] because no object is larger than
    [PTRDIFF_MAX]. *)
Class Host := {
  host_order : byte_order;
  uninit : nat -> byte;
  malloc_max : Z;
  malloc_max_range : 0 <= malloc_max < 2 ^ 63
}.

(** [kvtree_malloc]: NULL for size 0, [kvtree_abort] when the allocation fails. *)
Definition kvtree_malloc `{Host} (size : Z) : outcome (option Z) :=
  if 0 <? size then
    if size <=? malloc_max then Ok (Some size) else Abort
  else Ok None.

(** A block of [n] bytes that was not written yet. *)
Definition fresh_block `{Host} (n : nat) : list byte := map uninit (seq 0 n).

Lemma fresh_block_length `{Host} n : length (fresh_block n) = n.
Proof. unfold fresh_block. by rewrite length_map, length_seq. Qed.

(** The object representation of an [n]-byte unsigned integer, and its inverse. *)
Definition mem_of `{Host} (n : nat) (v : Z) : list byte :=
  match host_order with
  | LittleEndian => le_split n v
  | BigEndian => rev (le_split n v)
  end.

Definition mem_to `{Host} (bs : list byte) : Z :=
  match host_order with
  | LittleEndian => le_combine bs
  | BigEndian => le_combine (rev bs)
  end.

(** ** Swapping bytes (kvtree_byteswap.h) *)
Definition bswap_16 (x : Z) : Z :=
  Z.lor (Z.land (Z.shiftr x 8) 0xff) (Z.shiftl (Z.land x 0xff) 8).

Definition bswap_32 (x : Z) : Z :=
  Z.lor (Z.lor (Z.shiftr (Z.land x 0xff000000) 24) (Z.shiftr (Z.land x 0x00ff0000) 8))
        (Z.lor (Z.shiftl (Z.land x 0x0000ff00) 8) (Z.shiftl (Z.land x 0x000000ff) 24)).

Definition bswap_constant_64 (x : Z) : Z :=
  Z.lor (Z.lor (Z.lor (Z.shiftr (Z.land x 0xff00000000000000) 56)
                      (Z.shiftr (Z.land x 0x00ff000000000000) 40))
               (Z.lor (Z.shiftr (Z.land x 0x0000ff0000000000) 24)
                      (Z.shiftr (Z.land x 0x000000ff00000000) 8)))
        (Z.lor (Z.lor (Z.shiftl (Z.land x 0x00000000ff000000) 8)
                      (Z.shiftl (Z.land x 0x0000000000ff0000) 24))
               (Z.lor (Z.shiftl (Z.land x 0x000000000000ff00) 40)
                      (Z.shiftl (Z.land x 0x00000000000000ff) 56))).

(** The 64-bit macro goes through a union of the value and two 32-bit words:
    [__l[0]] is the low word of the little-endian host it is used on. *)
Definition bswap_64 (x : Z) : Z :=
  let w0 := Z.land x 0xffffffff in
  let w1 := Z.shiftr x 32 in
  let r0 := bswap_32 w1 in
  let r1 := bswap_32 w0 in
  Z.lor r0 (Z.shiftl r1 32).

(** ** Host to network order (kvtree_io.h) *)
Section order.
Context `{Host}.

Definition kvtree_hton16 (x : Z) : Z :=
  match host_order with LittleEndian => bswap_16 x | BigEndian => x end.
Definition kvtree_hton32 (x : Z) : Z :=
  match host_order with LittleEndian => bswap_32 x | BigEndian => x end.
Definition kvtree_hton64 (x : Z) : Z :=
  match host_order with LittleEndian => bswap_64 x | BigEndian => x end.
Definition kvtree_ntoh16 (x : Z) : Z :=
  match host_order with LittleEndian => bswap_16 x | BigEndian => x end.
Definition kvtree_ntoh32 (x : Z) : Z :=
  match host_order with LittleEndian => bswap_32 x | BigEndian => x end.
Definition kvtree_ntoh64 (x : Z) : Z :=
  match host_order with LittleEndian => bswap_64 x | BigEndian => x end.

(** ** Packing and unpacking integers (kvtree_helpers.c)

    The arguments are the pointers of the C functions: a NULL buffer or a NULL
    position pointer is [None].  The result is the return code with the buffer
    and the position after the call.  Sizes and positions are [size_t]s: the sum
    [pos_final] wraps around. *)
Definition pack_uint (n : nat) (hton : Z -> Z) (buf : option (list byte)) (buf_size : Z)
    (buf_pos : option Z) (val : Z) : outcome (Z * option (list byte) * option Z) :=
  match buf, buf_pos with
  | Some b, Some pos =>
      let pos_final := u64 (pos + Z.of_nat n) in
      if buf_size <? pos_final then Ok (KVTREE_FAILURE, buf, buf_pos)
      else
        let val_network := hton val in
        let* b' := mem_write b (Z.to_nat pos) (mem_of n val_network) in
        Ok (KVTREE_SUCCESS, Some b', Some pos_final)
  | _, _ => Ok (KVTREE_FAILURE, buf, buf_pos)
  end.

Definition kvtree_pack_uint16_t := pack_uint 2 kvtree_hton16.
Definition kvtree_pack_uint32_t := pack_uint 4 kvtree_hton32.
Definition kvtree_pack_uint64_t := pack_uint 8 kvtree_hton64.

Definition unpack_uint (n : nat) (ntoh : Z -> Z) (buf : option (list byte)) (buf_size : Z)
    (buf_pos : option Z) (val : option Z) : outcome (Z * option Z * option Z) :=
  match buf, buf_pos, val with
  | Some b, Some pos, Some _ =>
      let pos_final := u64 (pos + Z.of_nat n) in
      if buf_size <? pos_final then Ok (KVTREE_FAILURE, buf_pos, val)
      else
        let* bs := mem_read b (Z.to_nat pos) n in
        let val_network := mem_to bs in
        Ok (KVTREE_SUCCESS, Some pos_final, Some (ntoh val_network))
  | _, _, _ => Ok (KVTREE_FAILURE, buf_pos, val)
  end.

Definition kvtree_unpack_uint16_t := unpack_uint 2 kvtree_ntoh16.
Definition kvtree_unpack_uint32_t := unpack_uint 4 kvtree_ntoh32.
Definition kvtree_unpack_uint64_t := unpack_uint 8 kvtree_ntoh64.

End order.

(** ** The network representation: the bytes of [v], most significant first *)
Definition be_split (n : nat) (v : Z) : list byte := rev (le_split n v).
Definition be_combine (bs : list byte) : Z := le_combine (rev bs).
#[global] Arguments be_split : simpl never.
#[global] Arguments be_combine : simpl never.

Lemma be_split_length n v : length (be_split n v) = n.
Proof. unfold be_split. by rewrite length_rev, length_le_split. Qed.

Lemma be_split_mod n v : be_split n (v mod 2 ^ (Z.of_nat n * 8)) = be_split n v.
Proof. unfold be_split. by rewrite <- le_split_mod. Qed.

Lemma be_combine_split n v : be_combine (be_split n v) = v mod 2 ^ (Z.of_nat n * 8).
Proof. unfold be_combine, be_split. by rewrite rev_involutive, le_combine_split. Qed.

Lemma be_combine_range bs : 0 <= be_combine bs < 2 ^ (8 * Z.of_nat (length bs)).
Proof.
  unfold be_combine. pose proof (le_combine_bound (rev bs)) as Hb.
  by rewrite length_rev in Hb.
Qed.

Lemma be_split_combine bs : be_split (length bs) (be_combine bs) = bs.
Proof.
  unfold be_combine, be_split.
  rewrite <- (length_rev bs), split_le_combine. apply rev_involutive.
Qed.

(** ** The swaps reverse the bytes *)
Lemma byte_of_Z_bits a b :
  (forall i, 0 <= i < 8 -> Z.testbit a i = Z.testbit b i) -> byte.of_Z a = byte.of_Z b.
Proof.
  intros E. apply byte.unsigned_inj. rewrite !byte.unsigned_of_Z. unfold byte.wrap.
  rewrite <- !Z.land_ones by lia. apply Z.bits_inj'. intros i Hi.
  rewrite !Z.land_spec, Z.testbit_ones_nonneg by lia.
  destruct (Z.ltb_spec i 8); [|by rewrite !andb_false_r].
  rewrite E by lia. done.
Qed.
(** Bit [i] of a masked value, for concrete [i] and mask. *)
Ltac eval_bits :=
  repeat (rewrite ?Z.lor_spec, ?Z.shiftr_spec, ?Z.shiftl_spec, ?Z.land_spec by lia);
  repeat match goal with
  | |- context [Z.testbit (Zpos ?p) ?n] =>
      let b := eval vm_compute in (Z.testbit (Zpos p) n) in
      change (Z.testbit (Zpos p) n) with b
  end;
  repeat match goal with
  | |- context [Z.testbit ?x (?a + ?b)] =>
      let n := eval vm_compute in (a + b) in change (a + b) with n
  | |- context [Z.testbit ?x (?a - ?b)] =>
      let n := eval vm_compute in (a - b) in change (a - b) with n
  end;
  repeat (rewrite (Z.testbit_neg_r _ (Zneg _)) by lia);
  rewrite ?andb_false_r, ?andb_true_r, ?orb_false_r, ?orb_false_l.

(** Two lists of bytes of the same word, compared byte by byte and bit by bit. *)
Ltac bswap_bits :=
  unfold le_split; cbn [rev app];
  repeat (apply (f_equal2 cons); [apply byte_of_Z_bits; intros i Hi;
    assert (i = 0 \/ i = 1 \/ i = 2 \/ i = 3 \/ i = 4 \/ i = 5 \/ i = 6 \/ i = 7) as Hc by lia;
    clear Hi; destruct_or! Hc; subst i; eval_bits; reflexivity |]); reflexivity.


Lemma le_split_bswap_16 v : le_split 2 (bswap_16 v) = rev (le_split 2 v).
Proof. unfold bswap_16. bswap_bits. Qed.

Lemma le_split_bswap_32 v : le_split 4 (bswap_32 v) = rev (le_split 4 v).
Proof. unfold bswap_32. bswap_bits. Qed.

Lemma le_split_bswap_constant_64 v : le_split 8 (bswap_constant_64 v) = rev (le_split 8 v).
Proof. unfold bswap_constant_64. bswap_bits. Qed.

Lemma lor_bound n a b :
  0 <= n -> 0 <= a < 2 ^ n -> 0 <= b < 2 ^ n -> 0 <= Z.lor a b < 2 ^ n.
Proof.
  intros Hn Ha Hb. rewrite <- (Z.mod_small a (2 ^ n)), <- (Z.mod_small b (2 ^ n)) by lia.
  rewrite <- !Z.land_ones, <- Z.land_lor_distr_l, Z.land_ones by lia.
  apply Z.mod_pos_bound. lia.
Qed.

Lemma land_mask_bound x m : 0 <= m -> 0 <= Z.land x m <= m.
Proof.
  intros Hm. split; [apply Z.land_nonneg; auto|].
  assert (E : m = Z.land x m + Z.land (Z.lnot x) m).
  { rewrite Z.add_nocarry_lor.
    - by rewrite <- Z.land_lor_distr_l, Z.lor_lnot_diag, Z.land_m1_l.
    - apply Z.bits_inj'. intros i Hi. rewrite !Z.land_spec, Z.lnot_spec, Z.bits_0 by lia.
      by destruct (Z.testbit x i), (Z.testbit m i). }
  assert (0 <= Z.land (Z.lnot x) m) by (apply Z.land_nonneg; auto). lia.
Qed.

Lemma bswap_32_range v : 0 <= bswap_32 v < 2 ^ 32.
Proof.
  unfold bswap_32. rewrite !Z.shiftr_div_pow2, !Z.shiftl_mul_pow2 by lia.
  pose proof (land_mask_bound v 0xff000000). pose proof (land_mask_bound v 0x00ff0000).
  pose proof (land_mask_bound v 0x0000ff00). pose proof (land_mask_bound v 0x000000ff).
  repeat apply lor_bound; Z.div_mod_to_equations; lia.
Qed.

Lemma bswap_32_combine v : bswap_32 v = le_combine (rev (le_split 4 v)).
Proof.
  rewrite <- le_split_bswap_32, le_combine_split. symmetry.
  apply Z.mod_small, bswap_32_range.
Qed.

Lemma le_split_land_ones n v :
  le_split n (Z.land v (Z.ones (Z.of_nat n * 8))) = le_split n v.
Proof. rewrite Z.land_ones by lia. by rewrite <- le_split_mod. Qed.

Lemma le_split_app n m v :
  le_split (n + m) v = le_split n v ++ le_split m (Z.shiftr v (8 * Z.of_nat n)).
Proof.
  rewrite <- (take_drop n (le_split (n + m) v)). f_equal.
  - apply le_combine_inj.
    + rewrite length_take, !length_le_split. lia.
    + rewrite le_combine_firstn, !le_combine_split.
      rewrite Z.mod_mod_divide; [f_equal; f_equal; lia|].
      exists (2 ^ (Z.of_nat m * 8)). rewrite <- Z.pow_add_r by lia. f_equal. lia.
  - apply (skipn_le_split' n m v).
Qed.

Lemma le_split_bswap_64 v : le_split 8 (bswap_64 v) = rev (le_split 8 v).
Proof.
  unfold bswap_64. rewrite !bswap_32_combine.
  change 0xffffffff with (Z.ones (Z.of_nat 4 * 8)). rewrite le_split_land_ones.
  set (r0 := rev (le_split 4 (Z.shiftr v 32))). set (r1 := rev (le_split 4 v)).
  assert (length r0 = 4%nat) as Hr by (unfold r0; by rewrite length_rev, length_le_split).
  assert (length r1 = 4%nat) as Hr1 by (unfold r1; by rewrite length_rev, length_le_split).
  change 32 with (Z.of_nat 4 * 8). rewrite <- Hr at 1.
  rewrite <- le_combine_app, split_le_combine' by (rewrite length_app; lia).
  unfold r0, r1. rewrite <- rev_app_distr.
  exact (f_equal (@rev _) (eq_sym (le_split_app 4 4 v))).
Qed.

Lemma bswap_16_range v : is_u64 v -> v < 2 ^ 16 -> 0 <= bswap_16 v < 2 ^ 16.
Proof.
  int_unfold. intros Hv Hv'. unfold bswap_16.
  rewrite Z.shiftl_mul_pow2 by lia.
  pose proof (land_mask_bound (Z.shiftr v 8) 0xff). pose proof (land_mask_bound v 0xff).
  apply lor_bound; lia.
Qed.

Lemma bswap_64_range v : 0 <= bswap_64 v < 2 ^ 64.
Proof.
  unfold bswap_64. rewrite Z.shiftl_mul_pow2 by lia.
  pose proof (bswap_32_range (Z.shiftr v 32)).
  pose proof (bswap_32_range (Z.land v 0xffffffff)).
  apply lor_bound; lia.
Qed.

Lemma bswap_le_combine n swap bs :
  length bs = n ->
  le_split n (swap (le_combine bs)) = rev (le_split n (le_combine bs)) ->
  0 <= swap (le_combine bs) < 2 ^ (Z.of_nat n * 8) ->
  swap (le_combine bs) = be_combine bs.
Proof.
  intros Hlen Hs Hr. unfold be_combine.
  rewrite (split_le_combine' bs n) in Hs by done.
  apply (f_equal le_combine) in Hs. rewrite le_combine_split in Hs.
  by rewrite Z.mod_small in Hs by lia.
Qed.

(** ** Network order

    [NetworkOrder n hton ntoh]: storing [hton v] leaves the big-endian bytes of
    [v] in memory, and [ntoh] of a value loaded from memory is the big-endian
    value of those bytes, whatever the host. *)
Class NetworkOrder `{Host} (n : nat) (hton ntoh : Z -> Z) : Prop := {
  hton_bytes v : mem_of n (hton v) = be_split n v;
  ntoh_bytes bs : length bs = n -> ntoh (mem_to bs) = be_combine bs
}.

Section network_order.
Context `{Host}.

Lemma network_order_host n hton ntoh swap :
  (forall v, hton v = match host_order with LittleEndian => swap v | BigEndian => v end) ->
  (forall v, ntoh v = match host_order with LittleEndian => swap v | BigEndian => v end) ->
  (forall v, le_split n (swap v) = rev (le_split n v)) ->
  (forall bs, length bs = n -> 0 <= swap (le_combine bs) < 2 ^ (Z.of_nat n * 8)) ->
  NetworkOrder n hton ntoh.
Proof.
  intros Hh Hn Hs Hr. split; intros; rewrite ?Hh, ?Hn; unfold mem_of, mem_to, be_split;
    destruct host_order.
  - apply Hs.
  - done.
  - eapply bswap_le_combine; eauto.
  - done.
Qed.

#[export] Instance network_order_16 : NetworkOrder 2 kvtree_hton16 kvtree_ntoh16.
Proof.
  apply (network_order_host _ _ _ bswap_16); try done; [apply le_split_bswap_16|].
  intros bs Hl. pose proof (le_combine_bound bs) as Hb. rewrite Hl in Hb.
  apply bswap_16_range; int_lia.
Qed.

#[export] Instance network_order_32 : NetworkOrder 4 kvtree_hton32 kvtree_ntoh32.
Proof.
  apply (network_order_host _ _ _ bswap_32); try done; [apply le_split_bswap_32|].
  intros. apply bswap_32_range.
Qed.

#[export] Instance network_order_64 : NetworkOrder 8 kvtree_hton64 kvtree_ntoh64.
Proof.
  apply (network_order_host _ _ _ bswap_64); try done; [apply le_split_bswap_64|].
  intros. apply bswap_64_range.
Qed.

(** What both calls find out about the room. *)
Lemma pos_final_room n pos size :
  is_u64 pos -> pos + Z.of_nat n < 2 ^ 64 ->
  (size <? u64 (pos + Z.of_nat n)) = negb (bool_decide (pos + Z.of_nat n <= size)).
Proof.
  intros Hp Hn. rewrite u64_id by int_lia. case_bool_decide; cbn [negb];
    [apply Z.ltb_ge|apply Z.ltb_lt]; lia.
Qed.

(** A position so near the end of the range that the sum wraps. *)
Lemma pos_final_wraps n pos :
  is_u64 pos -> 2 ^ 64 <= pos + Z.of_nat n -> Z.of_nat n < 2 ^ 64 ->
  u64 (pos + Z.of_nat n) = pos + Z.of_nat n - 2 ^ 64.
Proof.
  intros Hp Hn Hn'. unfold is_u64, u64 in *. symmetry. apply (Z.mod_unique_pos _ _ 1); lia.
Qed.

Lemma pack_uint_spec n hton ntoh `{!NetworkOrder n hton ntoh} buf size pos v :
  size <= Z.of_nat (length buf) -> is_u64 pos -> pos + Z.of_nat n < 2 ^ 64 ->
  pack_uint n hton (Some buf) size (Some pos) v =
    if decide (pos + Z.of_nat n <= size)
    then Ok (KVTREE_SUCCESS,
             Some (take (Z.to_nat pos) buf ++ be_split n v ++ drop (Z.to_nat pos + n) buf),
             Some (pos + Z.of_nat n))
    else Ok (KVTREE_FAILURE, Some buf, Some pos).
Proof.
  intros Hs Hp Hn. unfold pack_uint. rewrite hton_bytes, pos_final_room by done.
  pose proof (proj1 Hp). case_decide; [rewrite bool_decide_true by done|by rewrite bool_decide_false].
  cbn [negb]. unfold mem_write. rewrite be_split_length, decide_True by lia. cbn [obind].
  by rewrite u64_id by int_lia.
Qed.

Lemma unpack_uint_spec n hton ntoh `{!NetworkOrder n hton ntoh} buf size pos v0 :
  size <= Z.of_nat (length buf) -> is_u64 pos -> pos + Z.of_nat n < 2 ^ 64 ->
  unpack_uint n ntoh (Some buf) size (Some pos) (Some v0) =
    if decide (pos + Z.of_nat n <= size)
    then Ok (KVTREE_SUCCESS, Some (pos + Z.of_nat n),
             Some (be_combine (take n (drop (Z.to_nat pos) buf))))
    else Ok (KVTREE_FAILURE, Some pos, Some v0).
Proof.
  intros Hs Hp Hn. unfold unpack_uint. rewrite pos_final_room by done.
  pose proof (proj1 Hp). case_decide; [rewrite bool_decide_true by done|by rewrite bool_decide_false].
  cbn [negb]. unfold mem_read. rewrite decide_True by lia. cbn [obind].
  rewrite u64_id by int_lia. rewrite ntoh_bytes; [done|]. rewrite length_take, length_drop. lia.
Qed.

(** When the sum wraps the room is believed to be there, if the buffer is as large
    as what the sum wraps to: the bytes are outside of the buffer. *)
Lemma pack_uint_wraps n hton ntoh `{!NetworkOrder n hton ntoh} buf size pos v :
  Z.of_nat (length buf) < 2 ^ 63 -> is_u64 pos -> 2 ^ 64 <= pos + Z.of_nat n -> Z.of_nat n < 2 ^ 63 ->
  pack_uint n hton (Some buf) size (Some pos) v =
    if decide (pos + Z.of_nat n - 2 ^ 64 <= size) then Undef
    else Ok (KVTREE_FAILURE, Some buf, Some pos).
Proof.
  intros Hb Hp Hn Hn'. unfold pack_uint. rewrite hton_bytes, pos_final_wraps by (done || lia).
  case_decide; [rewrite (proj2 (Z.ltb_ge _ _)) by lia|by rewrite (proj2 (Z.ltb_lt _ _)) by lia].
  unfold mem_write. by rewrite be_split_length, decide_False by lia.
Qed.

Lemma unpack_uint_wraps n ntoh buf size pos v0 :
  Z.of_nat (length buf) < 2 ^ 63 -> is_u64 pos -> 2 ^ 64 <= pos + Z.of_nat n -> Z.of_nat n < 2 ^ 63 ->
  unpack_uint n ntoh (Some buf) size (Some pos) (Some v0) =
    if decide (pos + Z.of_nat n - 2 ^ 64 <= size) then Undef
    else Ok (KVTREE_FAILURE, Some pos, Some v0).
Proof.
  intros Hb Hp Hn Hn'. unfold unpack_uint. rewrite pos_final_wraps by (done || lia).
  case_decide; [rewrite (proj2 (Z.ltb_ge _ _)) by lia|by rewrite (proj2 (Z.ltb_lt _ _)) by lia].
  unfold mem_read. by rewrite decide_False by lia.
Qed.

End network_order.

(** ** Properties *)

(** The three widths of the interface of kvtree_helpers.h. *)
Inductive uint_width := W16 | W32 | W64.

Definition width_bytes (w : uint_width) : nat :=
  match w with W16 => 2 | W32 => 4 | W64 => 8 end.

Definition kvtree_pack_uint `{Host} (w : uint_width) :=
  match w with
  | W16 => kvtree_pack_uint16_t
  | W32 => kvtree_pack_uint32_t
  | W64 => kvtree_pack_uint64_t
  end.

Definition kvtree_unpack_uint `{Host} (w : uint_width) :=
  match w with
  | W16 => kvtree_unpack_uint16_t
  | W32 => kvtree_unpack_uint32_t
  | W64 => kvtree_unpack_uint64_t
  end.

Section properties.
Context `{Host}.

(** The three widths are instances of one another's body. *)
Lemma kvtree_pack_uint_cases w :
  exists hton ntoh, NetworkOrder (width_bytes w) hton ntoh /\
    kvtree_pack_uint w = pack_uint (width_bytes w) hton /\
    kvtree_unpack_uint w = unpack_uint (width_bytes w) ntoh.
Proof.
  destruct w; [exists kvtree_hton16, kvtree_ntoh16|exists kvtree_hton32, kvtree_ntoh32
    |exists kvtree_hton64, kvtree_ntoh64]; (split; [apply _|done]).
Qed.

Lemma width_bytes_range w : 2 <= Z.of_nat (width_bytes w) <= 8.
Proof. destruct w; cbn; lia. Qed.

(** C26. On either host and for each of the three widths: packing a value that
    fits in the room left stores its big-endian bytes at the position, touches
    no other byte of the buffer and advances the position by the width, and
    unpacking at the old position gives the value back.  When there is no room
    the call fails and leaves the buffer and the position as they were, but for
    positions less than the width below [2^64]: there the sum of the check wraps
    around, and both calls access memory outside of the buffer if it is at
    least as large as what the sum wraps to. *)
Theorem pack_unpack_uint_roundtrip w buf size pos v v0 :
  0 <= size <= Z.of_nat (length buf) -> Z.of_nat (length buf) < 2 ^ 63 ->
  0 <= pos < 2 ^ 64 -> 0 <= v < 2 ^ (Z.of_nat (width_bytes w) * 8) ->
  let n := Z.of_nat (width_bytes w) in
  if decide (pos + n <= size) then
    exists buf',
      kvtree_pack_uint w (Some buf) size (Some pos) v
        = Ok (KVTREE_SUCCESS, Some buf', Some (pos + n)) /\
      buf' = take (Z.to_nat pos) buf ++ be_split (width_bytes w) v ++
             drop (Z.to_nat pos + width_bytes w) buf /\
      kvtree_unpack_uint w (Some buf') size (Some pos) (Some v0)
        = Ok (KVTREE_SUCCESS, Some (pos + n), Some v)
  else if decide (pos + n < 2 ^ 64 \/ size < pos + n - 2 ^ 64) then
    kvtree_pack_uint w (Some buf) size (Some pos) v = Ok (KVTREE_FAILURE, Some buf, Some pos) /\
    kvtree_unpack_uint w (Some buf) size (Some pos) (Some v0)
      = Ok (KVTREE_FAILURE, Some pos, Some v0)
  else
    kvtree_pack_uint w (Some buf) size (Some pos) v = Undef /\
    kvtree_unpack_uint w (Some buf) size (Some pos) (Some v0) = Undef.
Proof.
  intros Hs Hb Hp Hv n. subst n. pose proof (width_bytes_range w) as Hw.
  destruct (kvtree_pack_uint_cases w) as (hton & ntoh & Hno & -> & ->).
  case_decide as Hd; [|case_decide as Hd2].
  - eexists. rewrite (pack_uint_spec _ hton ntoh), decide_True by (done || lia).
    split; [done|]. split; [done|].
    rewrite (unpack_uint_spec _ hton ntoh), decide_True
      by (rewrite ?length_app, ?be_split_length, ?length_take, ?length_drop; done || lia).
    do 3 f_equal.
    rewrite drop_app_length' by (rewrite length_take; lia).
    rewrite take_app_length' by (by rewrite be_split_length).
    rewrite be_combine_split. by apply Z.mod_small.
  - destruct (decide (pos + Z.of_nat (width_bytes w) < 2 ^ 64)) as [Hn|Hn].
    + by rewrite (pack_uint_spec _ hton ntoh), (unpack_uint_spec _ hton ntoh), !decide_False
        by (done || lia).
    + by rewrite (pack_uint_wraps _ hton ntoh), unpack_uint_wraps, !decide_False by (done || lia).
  - by rewrite (pack_uint_wraps _ hton ntoh), unpack_uint_wraps, !decide_True by (done || lia).
Qed.

End properties.

(** A little-endian host, on which the witnesses evaluate. *)
Program Definition host_le : Host :=
  {| host_order := LittleEndian; uninit := fun _ => Init.Byte.xaa; malloc_max := 2 ^ 40 |}.
Next Obligation. lia. Qed.

#[local] Existing Instance host_le.

(** A value that fits, and a position at which the check wraps around. *)
Lemma pack_unpack_uint_roundtrip_witness :
  (exists buf',
    kvtree_pack_uint W32 (Some (repeat NUL 8)) 8 (Some 2) 0x951fc3f5
      = Ok (KVTREE_SUCCESS, Some buf', Some 6) /\
    buf' = take 2 (repeat NUL 8) ++ be_split 4 0x951fc3f5 ++ drop 6 (repeat NUL 8) /\
    kvtree_unpack_uint W32 (Some buf') 8 (Some 2) (Some 0)
      = Ok (KVTREE_SUCCESS, Some 6, Some 0x951fc3f5)) /\
  kvtree_pack_uint W32 (Some (repeat NUL 8)) 8 (Some (2 ^ 64 - 3)) 0 = Undef /\
  kvtree_unpack_uint W32 (Some (repeat NUL 8)) 8 (Some (2 ^ 64 - 3)) (Some 0) = Undef.
Proof.
  split.
  - apply (pack_unpack_uint_roundtrip W32 (repeat NUL 8) 8 2 0x951fc3f5 0); simpl; lia.
  - apply (pack_unpack_uint_roundtrip W32 (repeat NUL 8) 8 (2 ^ 64 - 3) 0 0); simpl; lia.
Defined.
