(* ===== verification/CLib.v ===== *)
(** The pieces of the C library the program calls: [strcmp], [strdup],
    [strtok_r], [snprintf], the integer conversions [%d], [%lu], [%lld] and
    [%#x], [atoi], [strtoul] and [strtoll] with base 0, and [qsort].

    They model the C standard library (and glibc where the standard leaves the
    result of an overflowing [atoi] open), not code of the repository. *)

From stdpp Require Import sorting.
From S2P Require Import Prelude.

(** ** Strings *)
Definition strlen (s : cstring) : nat := length (c_str s).
Definition strdup (s : cstring) : cstring := c_str s.

Fixpoint bytes_compare (a b : list byte) : comparison :=
  match a, b with
  | [], [] => Eq
  | [], _ :: _ => Lt
  | _ :: _, [] => Gt
  | x :: a, y :: b =>
      match Z.compare (byte.unsigned x) (byte.unsigned y) with
      | Eq => bytes_compare a b
      | c => c
      end
  end.

Definition strcmp (a b : cstring) : Z :=
  match bytes_compare (c_str a) (c_str b) with Lt => -1 | Eq => 0 | Gt => 1 end.

Lemma bytes_compare_refl a : bytes_compare a a = Eq.
Proof. induction a as [|x a IH]; simpl; [done|]. by rewrite Z.compare_refl. Qed.

Lemma bytes_compare_eq a b : bytes_compare a b = Eq <-> a = b.
Proof.
  split; [|intros ->; apply bytes_compare_refl].
  revert b. induction a as [|x a IH]; intros [|y b]; simpl; try done.
  destruct (Z.compare_spec (byte.unsigned x) (byte.unsigned y)) as [E| |]; try done.
  intros Hc. apply byte.unsigned_inj in E as ->. by rewrite (IH b).
Qed.

Lemma bytes_compare_opp a b : bytes_compare b a = CompOpp (bytes_compare a b).
Proof.
  revert b. induction a as [|x a IH]; intros [|y b]; simpl; try done.
  rewrite (Z.compare_antisym (byte.unsigned x)).
  destruct (Z.compare (byte.unsigned x) (byte.unsigned y)); simpl; auto.
Qed.

Lemma bytes_compare_trans a b c :
  bytes_compare a b <> Gt -> bytes_compare b c <> Gt -> bytes_compare a c <> Gt.
Proof.
  revert b c. induction a as [|x a IH]; intros [|y b] [|z c]; simpl; try done.
  destruct (Z.compare_spec (byte.unsigned x) (byte.unsigned y));
    destruct (Z.compare_spec (byte.unsigned y) (byte.unsigned z)); try done;
    destruct (Z.compare_spec (byte.unsigned x) (byte.unsigned z)); try done; try lia.
  apply IH.
Qed.

Lemma strcmp_eq0 a b : (strcmp a b =? 0) = bool_decide (c_str a = c_str b).
Proof.
  unfold strcmp. case_bool_decide as E.
  - by rewrite (proj2 (bytes_compare_eq _ _) E).
  - destruct (bytes_compare _ _) eqn:C; [|done..]. by apply bytes_compare_eq in C.
Qed.

(** ** Tokens: [strtok_r] with a single delimiter byte *)
Fixpoint skip_delim (d : byte) (s : cstring) : cstring :=
  match s with
  | b :: s' => if Byte.eqb b d then skip_delim d s' else s
  | [] => []
  end.

(** The bytes up to the delimiter, and what follows it. *)
Fixpoint span_delim (d : byte) (s : cstring) : cstring * cstring :=
  match s with
  | [] => ([], [])
  | b :: s' =>
      if Byte.eqb b d then ([], s')
      else let '(t, r) := span_delim d s' in (b :: t, r)
  end.

(** One call: the token and the new rest, or NULL. *)
Definition strtok_r (d : byte) (rest : cstring) : option (cstring * cstring) :=
  match skip_delim d rest with
  | [] => None
  | s => Some (span_delim d s)
  end.

Fixpoint tokens_loop (fuel : nat) (d : byte) (rest : cstring) : list cstring :=
  match fuel with
  | O => []
  | S fuel =>
      match strtok_r d rest with
      | None => []
      | Some (t, rest) => t :: tokens_loop fuel d rest
      end
  end.

(** The successive tokens of a string; each call consumes a byte, so the length
    is fuel enough ([tokens_fuel]). *)
Definition tokens (d : byte) (s : cstring) : list cstring :=
  tokens_loop (S (length (c_str s))) d (c_str s).

Lemma skip_delim_length d s : (length (skip_delim d s) <= length s)%nat.
Proof. induction s as [|b s IH]; simpl; [done|]. destruct (Byte.eqb b d); simpl; lia. Qed.

Lemma span_delim_length d s : (length (span_delim d s).2 <= length s)%nat.
Proof.
  induction s as [|b s IH]; simpl; [done|]. destruct (Byte.eqb b d); simpl; [lia|].
  destruct (span_delim d s); simpl in *. lia.
Qed.

Lemma strtok_r_length d s t r : strtok_r d s = Some (t, r) -> (length r < length s)%nat.
Proof.
  unfold strtok_r. pose proof (skip_delim_length d s) as Hl.
  destruct (skip_delim d s) as [|b s'] eqn:E; [done|].
  assert (Byte.eqb b d = false) as Hb.
  { clear Hl. induction s as [|c s IH]; simpl in E; [done|].
    destruct (Byte.eqb c d) eqn:Hc; [auto|]. congruence. }
  simpl. rewrite Hb. pose proof (span_delim_length d s') as Hs.
  destruct (span_delim d s'). intros [= <- <-]. simpl in *. lia.
Qed.

Lemma tokens_loop_stable d f s :
  (length s <= f)%nat -> tokens_loop (S f) d s = tokens_loop f d s.
Proof.
  revert s. induction f as [|f IH]; intros s Hs.
  - destruct s; [done|simpl in Hs; lia].
  - simpl. destruct (strtok_r d s) as [[t r]|] eqn:E; [|done].
    apply strtok_r_length in E. f_equal. apply IH. lia.
Qed.

Lemma tokens_fuel d s f :
  (length (c_str s) <= f)%nat -> tokens_loop f d (c_str s) = tokens d s.
Proof.
  intros Hf. unfold tokens.
  rewrite (tokens_loop_stable d (length (c_str s))) by done.
  induction Hf as [|f Hf IH]; [done|]. rewrite tokens_loop_stable by done. exact IH.
Qed.

(** ** Printing integers *)
Definition digit_byte (d : Z) : byte :=
  if d <? 10 then byte.of_Z (48 + d) else byte.of_Z (87 + d).

Fixpoint digits (fuel : nat) (base n : Z) (acc : cstring) : cstring :=
  match fuel with
  | O => acc
  | S fuel =>
      let acc := digit_byte (n mod base) :: acc in
      if n <? base then acc else digits fuel base (n / base) acc
  end.

(** 64 digits are enough for every value below [2^64] in every base from 2. *)
Definition print_unsigned (base n : Z) : cstring := digits 64 base n [].

Definition minus : byte := Init.Byte.x2d.
Definition plus : byte := Init.Byte.x2b.
Definition chr_0 : byte := Init.Byte.x30.
Definition chr_x : byte := Init.Byte.x78.
Definition chr_X : byte := Init.Byte.x58.

(** [%d] and [%lld]; [%lu] and [%llu]; [%#x] and [%#lx]. *)
Definition fmt_signed (n : Z) : cstring :=
  if n <? 0 then minus :: print_unsigned 10 (- n) else print_unsigned 10 n.
Definition fmt_unsigned (n : Z) : cstring := print_unsigned 10 n.
Definition fmt_hex (n : Z) : cstring :=
  if n =? 0 then [chr_0] else chr_0 :: chr_x :: print_unsigned 16 n.

(** ** Reading integers *)
Definition digit_val (b : byte) : option Z :=
  let c := byte.unsigned b in
  if (48 <=? c) && (c <=? 57) then Some (c - 48)
  else if (97 <=? c) && (c <=? 122) then Some (c - 87)
  else if (65 <=? c) && (c <=? 90) then Some (c - 55)
  else None.

Definition isspace (b : byte) : bool :=
  let c := byte.unsigned b in (c =? 32) || ((9 <=? c) && (c <=? 13)).

Fixpoint skip_spaces (s : cstring) : cstring :=
  match s with
  | b :: s' => if isspace b then skip_spaces s' else s
  | [] => []
  end.

Fixpoint parse_digits (base acc : Z) (s : cstring) : Z :=
  match s with
  | [] => acc
  | b :: s =>
      match digit_val b with
      | Some d => if d <? base then parse_digits base (acc * base + d) s else acc
      | None => acc
      end
  end.

Definition parse_sign (s : cstring) : bool * cstring :=
  match s with
  | b :: s' =>
      if Byte.eqb b minus then (true, s')
      else if Byte.eqb b plus then (false, s') else (false, s)
  | [] => (false, [])
  end.

Definition is_hex_digit (b : byte) : bool :=
  match digit_val b with Some d => d <? 16 | None => false end.

(** Base 0: a [0x] prefix selects base 16, a leading [0] base 8. *)
Definition parse_magnitude_0 (s : cstring) : Z :=
  match s with
  | z :: x :: h :: s' =>
      if Byte.eqb z chr_0 then
        if (Byte.eqb x chr_x || Byte.eqb x chr_X) && is_hex_digit h
        then parse_digits 16 0 (h :: s')
        else parse_digits 8 0 s
      else parse_digits 10 0 s
  | z :: _ => if Byte.eqb z chr_0 then parse_digits 8 0 s else parse_digits 10 0 s
  | [] => 0
  end.

Definition strtol_10 (s : cstring) : Z :=
  let '(neg, s) := parse_sign (skip_spaces (c_str s)) in
  let v := parse_digits 10 0 s in
  let v := if neg then - v else v in
  Z.max (- 2 ^ 63) (Z.min (2 ^ 63 - 1) v).

Definition atoi (s : cstring) : Z := i32 (strtol_10 s).

Definition strtoul_0 (s : cstring) : Z :=
  let '(neg, s) := parse_sign (skip_spaces (c_str s)) in
  let v := parse_magnitude_0 s in
  if 2 ^ 64 - 1 <? v then 2 ^ 64 - 1
  else if neg then u64 (- v) else v.

Definition strtoll_0 (s : cstring) : Z :=
  let '(neg, s) := parse_sign (skip_spaces (c_str s)) in
  let v := parse_magnitude_0 s in
  let v := if neg then - v else v in
  Z.max (- 2 ^ 63) (Z.min (2 ^ 63 - 1) v).

(** ** Printing and reading back *)
Ltac digit_cases d :=
  assert (d = 0 \/ d = 1 \/ d = 2 \/ d = 3 \/ d = 4 \/ d = 5 \/ d = 6 \/ d = 7 \/
          d = 8 \/ d = 9 \/ d = 10 \/ d = 11 \/ d = 12 \/ d = 13 \/ d = 14 \/ d = 15)
    as Hcases by lia;
  destruct_or! Hcases; subst d.

Lemma digit_val_byte d : 0 <= d < 16 -> digit_val (digit_byte d) = Some d.
Proof. intros Hd. digit_cases d; reflexivity. Qed.

Lemma digit_byte_nonul d : 0 <= d < 16 -> digit_byte d <> NUL.
Proof. intros Hd. digit_cases d; done. Qed.

(** A digit other than [0] starts no prefix, sign or white space. *)
Lemma digit_byte_plain d : 1 <= d < 16 ->
  Byte.eqb (digit_byte d) chr_0 = false /\ Byte.eqb (digit_byte d) minus = false /\
  Byte.eqb (digit_byte d) plus = false /\ isspace (digit_byte d) = false.
Proof. intros Hd. digit_cases d; try lia; done. Qed.

Lemma parse_digits_print base f n tl :
  2 <= base <= 16 -> 0 <= n < base ^ Z.of_nat f -> (0 < f)%nat ->
  parse_digits base 0 (digits f base n tl) = parse_digits base n tl.
Proof.
  intros Hb. revert n tl. induction f as [|f IH]; intros n tl Hn Hf; [lia|].
  simpl digits. pose proof (Z.mod_pos_bound n base ltac:(lia)) as Hm.
  destruct (Z.ltb_spec n base) as [Hlt|Hge].
  - simpl. rewrite digit_val_byte by lia.
    rewrite (Z.mod_small n base) by lia.
    destruct (Z.ltb_spec n base); [|lia]. done.
  - assert (0 <= n / base < base ^ Z.of_nat f) as Hq.
    { split; [apply Z.div_pos; lia|]. apply Z.div_lt_upper_bound; [lia|].
      rewrite <- Z.pow_succ_r by lia. rewrite <- Nat2Z.inj_succ; lia. }
    rewrite IH; [| exact Hq |].
    + simpl. rewrite digit_val_byte by lia.
      destruct (Z.ltb_spec (n mod base) base); [|lia].
      f_equal. rewrite (Z.div_mod n base) at 3; lia.
    + destruct f; [|lia]. rewrite Z.pow_0_r in Hq.
      assert (1 <= n / base) by (apply Z.div_le_lower_bound; lia). lia.
Qed.

Lemma digits_nul_free base f n tl :
  2 <= base <= 16 -> nul_free tl -> nul_free (digits f base n tl).
Proof.
  intros Hb. revert n tl. induction f as [|f IH]; intros n tl Htl; simpl; [done|].
  pose proof (Z.mod_pos_bound n base ltac:(lia)).
  assert (nul_free (digit_byte (n mod base) :: tl)).
  { unfold nul_free. rewrite not_elem_of_cons. split; [|done].
    intros E. symmetry in E. revert E. apply digit_byte_nonul. lia. }
  destruct (n <? base); auto.
Qed.

(** The most significant digit comes first, and is 0 only for 0. *)
Lemma digits_head base f n tl :
  2 <= base <= 16 -> 0 < n < base ^ Z.of_nat f ->
  exists d s, digits f base n tl = digit_byte d :: s /\ 1 <= d < base.
Proof.
  intros Hb. revert n tl. induction f as [|f IH]; intros n tl Hn.
  { rewrite Z.pow_0_r in Hn. lia. }
  simpl. destruct (Z.ltb_spec n base).
  - eexists _, _. split; [done|]. rewrite Z.mod_small; lia.
  - apply IH. split; [apply Z.div_str_pos; lia|].
    apply Z.div_lt_upper_bound; [lia|].
    rewrite <- Z.pow_succ_r by lia. rewrite <- Nat2Z.inj_succ; lia.
Qed.

Lemma print_unsigned_range base n : 2 <= base -> n < 2 ^ 64 -> n < base ^ Z.of_nat 64.
Proof.
  intros Hb Hn. apply Z.lt_le_trans with (2 ^ 64); [done|].
  change (Z.of_nat 64) with 64. apply Z.pow_le_mono_l. lia.
Qed.

Lemma print_unsigned_nul_free base n : 2 <= base <= 16 -> nul_free (print_unsigned base n).
Proof. intros Hb. apply digits_nul_free; [done|]. apply not_elem_of_nil. Qed.

Lemma fmt_unsigned_nul_free n : nul_free (fmt_unsigned n).
Proof. by apply print_unsigned_nul_free. Qed.

Lemma fmt_signed_nul_free n : nul_free (fmt_signed n).
Proof.
  unfold fmt_signed. destruct (n <? 0); [|by apply print_unsigned_nul_free].
  unfold nul_free. rewrite not_elem_of_cons. split; [done|].
  by apply print_unsigned_nul_free.
Qed.

Lemma fmt_hex_nul_free n : nul_free (fmt_hex n).
Proof.
  unfold fmt_hex, nul_free. destruct (n =? 0).
  - by rewrite list_elem_of_singleton.
  - rewrite !not_elem_of_cons. split_and!; [done..|]. by apply print_unsigned_nul_free.
Qed.

(** Decimal digits. *)
Definition is_digit (c : byte) : bool := (48 <=? byte.unsigned c) && (byte.unsigned c <=? 57).

Lemma decimal_digit d : 0 <= d < 10 -> is_digit (digit_byte d) = true.
Proof.
  intros Hd. assert (d = 0 \/ d = 1 \/ d = 2 \/ d = 3 \/ d = 4 \/ d = 5 \/ d = 6 \/ d = 7 \/ d = 8 \/ d = 9)
    as Hc by lia. by repeat (destruct Hc as [->|Hc]; [done|]); subst d.
Qed.

Lemma digits_decimal f : forall n tl,
  Forall (fun c => is_digit c = true) tl -> Forall (fun c => is_digit c = true) (digits f 10 n tl).
Proof.
  induction f as [|f IH]; intros n tl Htl; [done|]. cbn [digits].
  assert (is_digit (digit_byte (n mod 10)) = true) by (apply decimal_digit, Z.mod_pos_bound; lia).
  destruct (n <? 10); [by constructor|]. apply IH. by constructor.
Qed.

Lemma digits_nonempty f : forall base n tl, tl <> [] -> digits f base n tl <> [].
Proof.
  induction f as [|f IH]; intros base n tl Htl; [done|]. cbn [digits]. destruct (n <? base); [done|].
  by apply IH.
Qed.

Lemma digits_S_nonempty f base n tl : digits (S f) base n tl <> [].
Proof. cbn [digits]. destruct (n <? base); [done|]. by apply digits_nonempty. Qed.

(** A number that is not negative prints as decimal digits. *)
Lemma fmt_signed_digits n :
  0 <= n -> fmt_signed n <> [] /\ Forall (fun c => is_digit c = true) (fmt_signed n).
Proof.
  intros Hn. unfold fmt_signed. rewrite (proj2 (Z.ltb_ge _ _)) by lia. split.
  - apply (digits_S_nonempty 63).
  - by apply digits_decimal.
Qed.

Lemma digits_length base f n tl : (length (digits f base n tl) <= f + length tl)%nat.
Proof.
  revert n tl. induction f as [|f IH]; intros n tl; simpl; [lia|].
  destruct (n <? base); simpl; [lia|]. etrans; [apply IH|]. simpl. lia.
Qed.

(** A number below [base ^ k] has [k] digits at most. *)
Lemma digits_length_le f base : 2 <= base -> forall k n acc,
  0 <= n < base ^ Z.of_nat (S k) -> (length (digits f base n acc) <= S k + length acc)%nat.
Proof.
  intros Hb. induction f as [|f IH]; intros k n acc Hn; cbn [digits]; [lia|].
  destruct (Z.ltb_spec n base) as [Hlt|Hge]; [cbn; lia|].
  destruct k as [|k]; [rewrite Z.pow_1_r in Hn; lia|].
  etrans; [apply (IH k)|cbn; lia]. rewrite (Nat2Z.inj_succ (S k)), Z.pow_succ_r in Hn by lia.
  split; [apply Z.div_pos; lia|apply Z.div_lt_upper_bound; lia].
Qed.

Lemma print_unsigned_16_length n : 0 <= n < 2 ^ 64 -> (length (print_unsigned 16 n) <= 16)%nat.
Proof. intros Hn. apply (digits_length_le 64 16 ltac:(lia) 15 n []). lia. Qed.

Lemma print_unsigned_length base n : (length (print_unsigned base n) <= 64)%nat.
Proof. etrans; [apply digits_length|]. apply Nat.le_refl. Qed.

(** Every printed integer fits the [char tmp\[100\]] buffers of the program. *)
Lemma fmt_signed_length n : (length (fmt_signed n) <= 65)%nat.
Proof.
  unfold fmt_signed. destruct (n <? 0); [simpl length; apply le_n_S|];
    (etrans; [apply print_unsigned_length|lia]).
Qed.

Lemma fmt_unsigned_length n : (length (fmt_unsigned n) <= 64)%nat.
Proof. apply print_unsigned_length. Qed.

Lemma fmt_hex_length n : (length (fmt_hex n) <= 66)%nat.
Proof.
  unfold fmt_hex. destruct (n =? 0); [simpl; lia|].
  simpl length. do 2 apply le_n_S. apply print_unsigned_length.
Qed.

Lemma parse_print base n :
  2 <= base <= 16 -> 0 <= n < 2 ^ 64 -> parse_digits base 0 (print_unsigned base n) = n.
Proof.
  intros Hb Hn. unfold print_unsigned. rewrite parse_digits_print; [done|done| |lia].
  split; [lia|]. apply print_unsigned_range; lia.
Qed.

Lemma print_unsigned_0 base : 2 <= base -> print_unsigned base 0 = [chr_0].
Proof.
  intros Hb. unfold print_unsigned.
  change 64%nat with (S 63). cbn [digits]. rewrite Z.mod_0_l by lia.
  destruct (Z.ltb_spec 0 base); [done|lia].
Qed.

Lemma print_unsigned_head base n :
  2 <= base <= 16 -> 0 < n < 2 ^ 64 ->
  exists d s, print_unsigned base n = digit_byte d :: s /\ 1 <= d < base.
Proof.
  intros Hb Hn. apply digits_head; [done|]. split; [lia|].
  apply print_unsigned_range; lia.
Qed.

#[global] Opaque print_unsigned.

Lemma skip_spaces_digit d s :
  1 <= d < 16 -> skip_spaces (digit_byte d :: s) = digit_byte d :: s.
Proof. intros Hd. simpl. by destruct (digit_byte_plain d Hd) as (_ & _ & _ & ->). Qed.

Lemma parse_sign_digit d s :
  1 <= d < 16 -> parse_sign (digit_byte d :: s) = (false, digit_byte d :: s).
Proof. intros Hd. simpl. by destruct (digit_byte_plain d Hd) as (_ & -> & -> & _). Qed.

(** White space and sign are absent from a printed unsigned number. *)
Lemma parse_sign_print n :
  0 <= n < 2 ^ 64 ->
  parse_sign (skip_spaces (print_unsigned 10 n)) = (false, print_unsigned 10 n).
Proof.
  intros Hn. destruct (decide (n = 0)) as [->|Hnz]; [by rewrite print_unsigned_0 by lia|].
  destruct (print_unsigned_head 10 n) as (d & s & E & Hd); [lia|lia|].
  rewrite E, skip_spaces_digit, parse_sign_digit by lia. done.
Qed.

Lemma parse_magnitude_0_print n :
  0 <= n < 2 ^ 64 -> parse_magnitude_0 (print_unsigned 10 n) = n.
Proof.
  intros Hn. destruct (decide (n = 0)) as [->|Hnz]; [by rewrite print_unsigned_0 by lia|].
  destruct (print_unsigned_head 10 n) as (d & s & E & Hd); [lia|lia|].
  transitivity (parse_digits 10 0 (print_unsigned 10 n)); [|by apply parse_print].
  rewrite E. unfold parse_magnitude_0.
  destruct (digit_byte_plain d) as (H0 & _); [lia|].
  destruct s as [|x [|h s]]; by rewrite H0.
Qed.

Lemma is_hex_digit_byte d : 0 <= d < 16 -> is_hex_digit (digit_byte d) = true.
Proof.
  intros Hd. unfold is_hex_digit. rewrite digit_val_byte by done.
  apply Z.ltb_lt. lia.
Qed.

Lemma parse_magnitude_0_hex n :
  0 <= n < 2 ^ 64 -> parse_magnitude_0 (fmt_hex n) = n.
Proof.
  intros Hn. unfold fmt_hex. destruct (Z.eqb_spec n 0) as [->|Hnz]; [done|].
  destruct (print_unsigned_head 16 n) as (d & s & E & Hd); [lia|lia|].
  transitivity (parse_digits 16 0 (print_unsigned 16 n)); [|apply parse_print; lia].
  rewrite E. unfold parse_magnitude_0.
  by rewrite is_hex_digit_byte by lia.
Qed.

Lemma strtoul_fmt_unsigned n : is_u64 n -> strtoul_0 (fmt_unsigned n) = n.
Proof.
  intros Hn. unfold strtoul_0.
  rewrite c_str_id by apply fmt_unsigned_nul_free. unfold fmt_unsigned.
  rewrite parse_sign_print, parse_magnitude_0_print by int_lia.
  destruct (Z.ltb_spec (2 ^ 64 - 1) n); int_lia.
Qed.

Lemma strtoul_fmt_hex n : is_u64 n -> strtoul_0 (fmt_hex n) = n.
Proof.
  intros Hn. unfold strtoul_0.
  rewrite c_str_id by apply fmt_hex_nul_free.
  assert (parse_sign (skip_spaces (fmt_hex n)) = (false, fmt_hex n)) as ->.
  { unfold fmt_hex. by destruct (n =? 0). }
  rewrite parse_magnitude_0_hex by int_lia.
  destruct (Z.ltb_spec (2 ^ 64 - 1) n); int_lia.
Qed.

Lemma parse_sign_fmt_signed n :
  is_i64 n ->
  parse_sign (skip_spaces (fmt_signed n)) = (n <? 0, print_unsigned 10 (Z.abs n)).
Proof.
  intros Hn. unfold fmt_signed. destruct (Z.ltb_spec n 0).
  - rewrite Z.abs_neq by lia. done.
  - rewrite Z.abs_eq by lia. apply parse_sign_print. int_lia.
Qed.

Lemma strtoll_fmt_signed n : is_i64 n -> strtoll_0 (fmt_signed n) = n.
Proof.
  intros Hn. unfold strtoll_0.
  rewrite c_str_id by apply fmt_signed_nul_free.
  rewrite parse_sign_fmt_signed, parse_magnitude_0_print by (done || int_lia).
  destruct (Z.ltb_spec n 0); int_lia.
Qed.

Lemma atoi_fmt_signed n : is_int n -> atoi (fmt_signed n) = n.
Proof.
  intros Hn. unfold atoi, strtol_10.
  rewrite c_str_id by apply fmt_signed_nul_free.
  rewrite parse_sign_fmt_signed, parse_print by int_lia.
  destruct (Z.ltb_spec n 0); int_lia.
Qed.

#[export] Hint Resolve fmt_signed_nul_free fmt_unsigned_nul_free fmt_hex_nul_free : kvtree.
#[export] Hint Rewrite strtoul_fmt_unsigned strtoul_fmt_hex strtoll_fmt_signed atoi_fmt_signed
  using done : kvtree.

(** ** [qsort]

    The C standard specifies [qsort] only when the comparison function orders
    the elements of the array consistently; the order of elements that compare
    equal is open.  The program's sorts are verified for every function with
    these two properties. *)
Definition cmp_le {A} (cmp : A -> A -> Z) (x y : A) : Prop := cmp x y <= 0.

Record consistent {A} (cmp : A -> A -> Z) (l : list A) : Prop := {
  cmp_flip x y : x ∈ l -> y ∈ l -> (0 < cmp x y <-> cmp y x < 0);
  cmp_trans x y z : x ∈ l -> y ∈ l -> z ∈ l ->
    cmp_le cmp x y -> cmp_le cmp y z -> cmp_le cmp x z
}.

Class Qsort := {
  qsort : forall {A : Type}, (A -> A -> Z) -> list A -> list A;
  qsort_perm : forall {A : Type} (cmp : A -> A -> Z) l,
    consistent cmp l -> Permutation (qsort cmp l) l;
  qsort_sorted : forall {A : Type} (cmp : A -> A -> Z) l,
    consistent cmp l -> StronglySorted (cmp_le cmp) (qsort cmp l)
}.

(** The interface is inhabited: insertion sort. *)
Module InsertionSort.

Fixpoint insert {A} (cmp : A -> A -> Z) (x : A) (l : list A) : list A :=
  match l with
  | [] => [x]
  | y :: l' => if cmp x y <=? 0 then x :: l else y :: insert cmp x l'
  end.

Definition sort {A} (cmp : A -> A -> Z) (l : list A) : list A :=
  foldr (insert cmp) [] l.

Lemma insert_perm {A} (cmp : A -> A -> Z) x l : Permutation (insert cmp x l) (x :: l).
Proof.
  induction l as [|y l IH]; simpl; [done|].
  destruct (cmp x y <=? 0); [done|]. rewrite IH. apply Permutation_swap.
Qed.

Lemma sort_perm {A} (cmp : A -> A -> Z) l : Permutation (sort cmp l) l.
Proof. induction l as [|x l IH]; simpl; [done|]. by rewrite insert_perm, IH. Qed.

Lemma consistent_perm {A} (cmp : A -> A -> Z) l l' :
  Permutation l l' -> consistent cmp l -> consistent cmp l'.
Proof.
  intros HP [Hf Ht].
  assert (forall x, x ∈ l' -> x ∈ l) as Hin by (intros x; by rewrite HP).
  split; eauto.
Qed.

Lemma consistent_cons {A} (cmp : A -> A -> Z) x l : consistent cmp (x :: l) -> consistent cmp l.
Proof. intros [Hf Ht]. split; intros; [apply Hf|eapply Ht; eauto]; by right. Qed.

Lemma insert_sorted {A} (cmp : A -> A -> Z) x l :
  consistent cmp (x :: l) -> StronglySorted (cmp_le cmp) l ->
  StronglySorted (cmp_le cmp) (insert cmp x l).
Proof.
  intros Hc Hs. induction Hs as [|y l Hs IH Hy]; simpl; [repeat constructor|].
  assert (consistent cmp (x :: l)) as Hc'.
  { eapply consistent_cons, (consistent_perm _ (x :: y :: l)); [apply Permutation_swap|done]. }
  destruct (Z.leb_spec (cmp x y) 0) as [Hle|Hgt].
  - constructor; [by constructor|]. constructor; [done|].
    rewrite list.Forall_forall in Hy |- *. intros z Hz.
    apply (cmp_trans _ _ Hc x y z); [by rewrite !elem_of_cons; auto..|done|]. by apply Hy.
  - constructor; [auto|]. rewrite list.Forall_forall in Hy |- *. intros z Hz.
    rewrite (insert_perm cmp x l) in Hz.
    apply elem_of_cons in Hz as [->|Hz].
    + unfold cmp_le. apply (cmp_flip _ _ Hc x y) in Hgt;
        [lia|by rewrite !elem_of_cons; auto..].
    + by apply Hy.
Qed.

Lemma sort_sorted {A} (cmp : A -> A -> Z) l :
  consistent cmp l -> StronglySorted (cmp_le cmp) (sort cmp l).
Proof.
  induction l as [|x l IH]; intros Hc; simpl; [constructor|].
  apply insert_sorted; [|eauto using consistent_cons].
  eapply consistent_perm; [|exact Hc]. by rewrite (sort_perm cmp l).
Qed.

Definition qsort_insertion : Qsort := {|
  qsort := @sort;
  qsort_perm A cmp l _ := sort_perm cmp l;
  qsort_sorted := @sort_sorted
|}.

End InsertionSort.
