(* ===== verification/Queue.v ===== *)
(** The doubly linked lists of [src/src/queue.h] on an explicit heap, and the
    proof that they implement functional lists.

    A kvtree is a list head and its elements are linked through the [pointers]
    field by the [LIST_*] macros.  Here the macros run on a heap of pointer
    cells: [le_prev] points to the cell that points to the element, which is
    the head's [lh_first] or the previous element's [le_next].  The other files
    use plain lists for the chains; the theorems of this file are what allows
    it. *)

From S2P Require Import Prelude.

Notation addr := positive.

(** The address of a cell that holds a [struct elem*]: the [lh_first] field of a
    head or the [le_next] field of an element. *)
Inductive cell := HeadFirst (head : addr) | ElemNext (elm : addr).

#[export] Instance cell_eq_dec : EqDecision cell.
Proof. solve_decision. Defined.

(** The heap: the fields of every allocated head and element.  An address
    without an entry is not allocated (or its field not yet initialised). *)
Record heap := mkHeap {
  lh_first : gmap addr (option addr);
  le_next : gmap addr (option addr);
  le_prev : gmap addr cell
}.

Definition load {A} (o : option A) : outcome A :=
  match o with Some a => Ok a | None => Undef end.

Definition read_cell (h : heap) (c : cell) : option (option addr) :=
  match c with
  | HeadFirst a => lh_first h !! a
  | ElemNext e => le_next h !! e
  end.

(** [*c = v]: writing through a pointer to a cell. *)
Definition write_cell (h : heap) (c : cell) (v : option addr) : heap :=
  match c with
  | HeadFirst a => mkHeap (<[a := v]> (lh_first h)) (le_next h) (le_prev h)
  | ElemNext e => mkHeap (lh_first h) (<[e := v]> (le_next h)) (le_prev h)
  end.

Definition set_prev (h : heap) (e : addr) (c : cell) : heap :=
  mkHeap (lh_first h) (le_next h) (<[e := c]> (le_prev h)).

#[global] Arguments read_cell : simpl never.
#[global] Arguments write_cell : simpl never.
#[global] Arguments set_prev : simpl never.

(** ** The macros *)
Definition LIST_INIT (head : addr) (h : heap) : heap := write_cell h (HeadFirst head) None.

Definition LIST_FIRST (head : addr) (h : heap) : outcome (option addr) :=
  load (read_cell h (HeadFirst head)).
Definition LIST_NEXT (elm : addr) (h : heap) : outcome (option addr) :=
  load (read_cell h (ElemNext elm)).
Definition LIST_EMPTY (head : addr) (h : heap) : outcome bool :=
  let* f := LIST_FIRST head h in Ok (match f with None => true | Some _ => false end).

Definition LIST_INSERT_HEAD (head elm : addr) (h : heap) : outcome heap :=
  let* first := load (read_cell h (HeadFirst head)) in
  let h := write_cell h (ElemNext elm) first in
  let h := match first with
           | Some f => set_prev h f (ElemNext elm)
           | None => h
           end in
  let h := write_cell h (HeadFirst head) (Some elm) in
  Ok (set_prev h elm (HeadFirst head)).

Definition LIST_INSERT_AFTER (listelm elm : addr) (h : heap) : outcome heap :=
  let* next := load (read_cell h (ElemNext listelm)) in
  let h := write_cell h (ElemNext elm) next in
  let h := match next with
           | Some n => set_prev h n (ElemNext elm)
           | None => h
           end in
  let h := write_cell h (ElemNext listelm) (Some elm) in
  Ok (set_prev h elm (ElemNext listelm)).

Definition LIST_INSERT_BEFORE (listelm elm : addr) (h : heap) : outcome heap :=
  let* prev := load (le_prev h !! listelm) in
  let h := set_prev h elm prev in
  let h := write_cell h (ElemNext elm) (Some listelm) in
  let h := write_cell h prev (Some elm) in
  Ok (set_prev h listelm (ElemNext elm)).

Definition LIST_REMOVE (elm : addr) (h : heap) : outcome heap :=
  let* next := load (le_next h !! elm) in
  let* prev := load (le_prev h !! elm) in
  let h := match next with
           | Some n => set_prev h n prev
           | None => h
           end in
  Ok (write_cell h prev next).

(** [LIST_FOREACH], collecting the elements it visits. *)
Fixpoint foreach_from (fuel : nat) (var : option addr) (h : heap) : outcome (list addr) :=
  match var with
  | None => Ok []
  | Some e =>
      match fuel with
      | O => NoFuel
      | S fuel =>
          let* next := LIST_NEXT e h in
          let* rest := foreach_from fuel next h in
          Ok (e :: rest)
      end
  end.

Definition LIST_FOREACH (fuel : nat) (head : addr) (h : heap) : outcome (list addr) :=
  let* first := LIST_FIRST head h in foreach_from fuel first h.

(** ** Representation *)

(** [chain h c l]: cell [c] starts a chain that visits exactly [l], and every
    element points back to the cell that points to it. *)
Fixpoint chain (h : heap) (c : cell) (l : list addr) : Prop :=
  match l with
  | [] => read_cell h c = Some None
  | e :: l =>
      read_cell h c = Some (Some e) /\ le_prev h !! e = Some c /\ chain h (ElemNext e) l
  end.

Definition list_rep (h : heap) (head : addr) (l : list addr) : Prop :=
  chain h (HeadFirst head) l /\ NoDup l.

(** The cells of a chain: two heaps that agree on them have the same chain. *)
Lemma chain_agree h h' c l :
  read_cell h' c = read_cell h c ->
  (forall e, e ∈ l -> le_next h' !! e = le_next h !! e /\ le_prev h' !! e = le_prev h !! e) ->
  chain h c l -> chain h' c l.
Proof.
  revert c. induction l as [|e l IH]; intros c Hc Hl; simpl.
  - by rewrite Hc.
  - intros (H1 & H2 & H3). destruct (Hl e) as [Hn Hp]; [by left|].
    split_and!; [congruence|congruence|].
    apply IH; [done| |done]. intros e' He'. apply Hl. by right.
Qed.

Lemma chain_read h c l : chain h c l -> read_cell h c = Some (head l).
Proof. destruct l; simpl; [done|]. by intros (H & _). Qed.

(** What an operation on the chain [l] that starts at [c] leaves alone. *)
Definition same_outside (h h' : heap) (c : cell) (l : list addr) : Prop :=
  (forall c', c' <> c -> (forall y, y ∈ l -> c' <> ElemNext y) ->
              read_cell h' c' = read_cell h c') /\
  (forall y, y ∉ l -> le_prev h' !! y = le_prev h !! y).

Lemma read_write_cell h c v c' :
  read_cell (write_cell h c v) c' = if decide (c = c') then Some v else read_cell h c'.
Proof.
  destruct c as [a|e], c' as [a'|e']; case_decide; unfold read_cell, write_cell; simpl; try congruence;
    rewrite lookup_insert; case_decide; congruence.
Qed.

Lemma read_set_prev h e c c' : read_cell (set_prev h e c) c' = read_cell h c'.
Proof. by destruct c'. Qed.

Lemma prev_write_cell h c v : le_prev (write_cell h c v) = le_prev h.
Proof. by destruct c. Qed.

Lemma prev_set_prev h e c y :
  le_prev (set_prev h e c) !! y = if decide (e = y) then Some c else le_prev h !! y.
Proof. unfold set_prev. simpl. rewrite lookup_insert. by repeat case_decide. Qed.

Create HintDb queue.
#[export] Hint Rewrite read_write_cell read_set_prev prev_write_cell prev_set_prev : queue.

Ltac queue_simpl :=
  repeat first [progress autorewrite with queue | case_decide]; simpl; try congruence; try done.

Lemma remove_chain h c l1 e l2 :
  chain h c (l1 ++ e :: l2) -> NoDup (l1 ++ e :: l2) ->
  (forall y, y ∈ l1 ++ e :: l2 -> c <> ElemNext y) ->
  exists h', LIST_REMOVE e h = Ok h' /\ chain h' c (l1 ++ l2) /\
             same_outside h h' c (l1 ++ e :: l2).
Proof.
  revert c. induction l1 as [|x l1 IH]; intros c Hch Hnd Hc; simpl in *.
  - destruct Hch as (Hr & Hp & Hch). apply list.NoDup_cons in Hnd as [He Hnd].
    pose proof (chain_read _ _ _ Hch) as Hn. unfold LIST_REMOVE.
    change (le_next h !! e) with (read_cell h (ElemNext e)). rewrite Hn, Hp. simpl. eexists; split; [done|].
    destruct l2 as [|n l2]; simpl in *.
    + split; [queue_simpl|]. split; intros; queue_simpl.
    + destruct Hch as (_ & _ & Hch). apply list.NoDup_cons in Hnd as [Hnl Hnd]. split.
      * split_and!; [queue_simpl..|].
        eapply chain_agree; [| |exact Hch].
        -- queue_simpl. exfalso. eapply (Hc n); [set_solver|done].
        -- intros y Hy. change (le_next ?h !! y) with (read_cell h (ElemNext y)). split.
           ++ queue_simpl. exfalso. eapply (Hc y); [set_solver|done].
           ++ queue_simpl.
      * split; intros; queue_simpl; exfalso; set_solver.
  - destruct Hch as (Hr & Hp & Hch). apply list.NoDup_cons in Hnd as [Hx Hnd].
    destruct (IH (ElemNext x)) as (h' & E & Hch' & Hs1 & Hs2); [done..| |].
    { intros y Hy [= ->]. done. }
    exists h'. split; [done|]. split.
    + split_and!; [|by rewrite Hs2|done].
      rewrite Hs1; [done|apply Hc; by left|]. intros y Hy. apply Hc. by right.
    + split.
      * intros c' Hne Hy. apply Hs1; [apply Hy; by left|]. intros y Hy'. apply Hy. by right.
      * intros y Hy. apply Hs2. set_solver.
Qed.

(** A chain disjoint from what an operation touches is not affected. *)
Lemma chain_frame h h' c l a k :
  same_outside h h' c l ->
  c <> HeadFirst a -> (forall e, c = ElemNext e -> e ∉ k) -> (forall e, e ∈ k -> e ∉ l) ->
  chain h (HeadFirst a) k -> chain h' (HeadFirst a) k.
Proof.
  intros [Hs1 Hs2] Hc Hck Hkl. apply chain_agree.
  - apply Hs1; congruence.
  - intros e He. split; [|apply Hs2; auto].
    change (read_cell h' (ElemNext e) = read_cell h (ElemNext e)). apply Hs1.
    + intros <-. by eapply Hck.
    + intros y Hy [= ->]. by eapply Hkl.
Qed.

(** The heap after an insertion of [e] at cell [c], in front of [l]. *)
Definition inserted (h h' : heap) (c : cell) (e : addr) (l : list addr) : Prop :=
  (forall c', read_cell h' c' = if decide (c = c') then Some (Some e)
                                else if decide (ElemNext e = c') then Some (head l)
                                else read_cell h c') /\
  (forall y, le_prev h' !! y = if decide (e = y) then Some c
                               else if decide (head l = Some y) then Some (ElemNext e)
                               else le_prev h !! y).

Lemma insert_chain h h' c e l :
  chain h c l -> NoDup (e :: l) -> (forall y, y ∈ e :: l -> c <> ElemNext y) ->
  inserted h h' c e l ->
  chain h' c (e :: l) /\ same_outside h h' c (e :: l).
Proof.
  intros Hch Hnd Hc [Hr Hp]. apply list.NoDup_cons in Hnd as [He Hnd]. split.
  - cbn [chain]. rewrite Hr, Hp, !decide_True by done. split_and!; [done..|].
    pose proof (Hc e (list_elem_of_here _ _)) as Hce.
    destruct l as [|n l]; cbn [chain list.head] in *.
    { by rewrite Hr, decide_False, decide_True. }
    destruct Hch as (_ & _ & Hch). apply list.NoDup_cons in Hnd as [Hn Hnd].
    rewrite Hr, Hp, (decide_False (P := c = _)), (decide_True (P := ElemNext e = _)) by done.
    rewrite decide_False, decide_True by set_solver. split_and!; [done..|].
    eapply chain_agree; [| |exact Hch].
    + rewrite Hr, !decide_False; [done|set_solver|apply Hc; set_solver].
    + intros y Hy. change (le_next ?h !! y) with (read_cell h (ElemNext y)).
      rewrite Hr, Hp, !decide_False; set_solver.
  - split.
    + intros c' Hne Hy. rewrite Hr, !decide_False; [done| |congruence]. intros <-.
      eapply Hy; [by left|done].
    + intros y Hy. rewrite Hp, !decide_False; [done| |set_solver].
      destruct l; [done|]. cbn [list.head]. set_solver.
Qed.

(** A change of what follows [x] inside a chain. *)
Lemma chain_local h h' l1 x l2 l2' t : forall c,
  chain h c (l1 ++ x :: l2) -> NoDup (l1 ++ [x]) ->
  (forall y, y ∈ l1 ++ [x] -> y ∉ t) ->
  (forall y, y ∈ (l1 ++ [x]) ++ t -> c <> ElemNext y) ->
  chain h' (ElemNext x) l2' -> same_outside h h' (ElemNext x) t ->
  chain h' c (l1 ++ x :: l2') /\ same_outside h h' c ((l1 ++ [x]) ++ t).
Proof.
  induction l1 as [|a l1 IH]; intros c Hch Hnd Ht Hc Hch' Hs; cbn [app chain] in *.
  - destruct Hs as [Hs1 Hs2], Hch as (Hr & Hp & _).
    split; [split_and!; [|rewrite Hs2; [done|set_solver]|done]|split].
    + rewrite Hs1; [done|apply Hc; set_solver|]. intros y Hy. apply Hc. set_solver.
    + intros c' Hne Hy. apply Hs1; [apply Hy; set_solver|]. intros y Hy'. apply Hy. set_solver.
    + intros y Hy. apply Hs2. set_solver.
  - destruct Hch as (Hr & Hp & Hch). apply list.NoDup_cons in Hnd as [Ha Hnd].
    destruct (IH (ElemNext a)) as [Hch2 [Hs1 Hs2]]; [done|done|set_solver| |done|done|].
    { intros y Hy [= ->]. set_solver. }
    split; [split_and!; [|rewrite Hs2; [done|set_solver]|done]|split].
    + rewrite Hs1; [done|apply Hc; set_solver|]. intros y Hy. apply Hc. set_solver.
    + intros c' Hne Hy. apply Hs1; [apply Hy; set_solver|]. intros y Hy'. apply Hy. set_solver.
    + intros y Hy. apply Hs2. set_solver.
Qed.

Lemma insert_head_rep h a e l :
  list_rep h a l -> e ∉ l ->
  exists h', LIST_INSERT_HEAD a e h = Ok h' /\ list_rep h' a (e :: l) /\
             same_outside h h' (HeadFirst a) (e :: l).
Proof.
  intros [Hch Hnd] He. unfold LIST_INSERT_HEAD.
  rewrite (chain_read _ _ _ Hch). cbn [obind]. eexists; split; [done|].
  assert (NoDup (e :: l)) as Hnd' by (by apply list.NoDup_cons).
  edestruct insert_chain as [H1 H2]; [exact Hch|exact Hnd'|done| |by split; [split|]].
  split; intros; destruct l; cbn [list.head]; queue_simpl.
Qed.

Lemma NoDup_middle {A} (l1 : list A) x e l2 :
  NoDup (l1 ++ x :: l2) -> e ∉ l1 ++ x :: l2 ->
  NoDup (l1 ++ [x]) /\ NoDup (e :: l2) /\ NoDup (l1 ++ x :: e :: l2) /\
  (forall y, y ∈ l1 ++ [x] -> y ∉ e :: l2).
Proof.
  intros Hnd He. split_and!.
  - apply list.NoDup_app in Hnd as (H1 & H2 & _). apply list.NoDup_app. split_and!; [done| |].
    + intros y Hy ->%list_elem_of_singleton. eapply H2; [done|by left].
    + apply NoDup_singleton.
  - apply list.NoDup_app in Hnd as (_ & _ & H3). apply list.NoDup_cons in H3 as [_ H3].
    apply list.NoDup_cons. set_solver.
  - change (x :: e :: l2) with ([x] ++ e :: l2). rewrite app_assoc, <- Permutation_middle, <- app_assoc.
    by apply list.NoDup_cons.
  - apply list.NoDup_app in Hnd as (_ & H2 & H3). apply list.NoDup_cons in H3 as [Hx _].
    intros y Hy. set_unfold. naive_solver.
Qed.

(** Inserting [e] behind [x], by whichever macro. *)
Lemma insert_behind_rep h h' a l1 x e l2 :
  list_rep h a (l1 ++ x :: l2) -> e ∉ l1 ++ x :: l2 -> inserted h h' (ElemNext x) e l2 ->
  list_rep h' a (l1 ++ x :: e :: l2) /\ same_outside h h' (HeadFirst a) ((l1 ++ [x]) ++ e :: l2).
Proof.
  intros [Hch Hnd] He Hi. destruct (NoDup_middle _ _ _ _ Hnd He) as (H1 & H2 & H3 & H4).
  assert (chain h (ElemNext x) l2) as Hch2.
  { clear -Hch. revert Hch. generalize (HeadFirst a). induction l1 as [|b l1 IH]; intros c; [by intros (_ & _ & ?)|].
    intros (_ & _ & Hch). eauto. }
  edestruct insert_chain as [Hc' Hs]; [exact Hch2|exact H2| |exact Hi|].
  { intros y Hy [= <-]. eapply H4; [|exact Hy]. set_solver. }
  destruct (chain_local h h' l1 x l2 (e :: l2) (e :: l2) (HeadFirst a)) as [Hc2 Hs2]; [done..|].
  by split; [split|].
Qed.

Lemma insert_after_rep h a l1 x e l2 :
  list_rep h a (l1 ++ x :: l2) -> e ∉ l1 ++ x :: l2 ->
  exists h', LIST_INSERT_AFTER x e h = Ok h' /\ list_rep h' a (l1 ++ x :: e :: l2) /\
             same_outside h h' (HeadFirst a) ((l1 ++ [x]) ++ e :: l2).
Proof.
  intros Hrep He. unfold LIST_INSERT_AFTER.
  assert (read_cell h (ElemNext x) = Some (head l2)) as Hr.
  { destruct Hrep as [Hch _]. revert Hch. generalize (HeadFirst a).
    induction l1 as [|b l1 IH]; intros c (Hc1 & Hc2 & Hch); [by eapply chain_read|].
    eapply IH; [set_solver|exact Hch]. }
  rewrite Hr. cbn [obind]. eexists; split; [done|]. apply insert_behind_rep; [done..|].
  split; intros; destruct l2; cbn [list.head]; queue_simpl.
Qed.

Lemma insert_before_rep h a l1 x e l2 :
  list_rep h a (l1 ++ x :: l2) -> e ∉ l1 ++ x :: l2 ->
  exists h', LIST_INSERT_BEFORE x e h = Ok h' /\ list_rep h' a (l1 ++ e :: x :: l2) /\
             same_outside h h' (HeadFirst a) (l1 ++ e :: x :: l2).
Proof.
  intros Hrep He. unfold LIST_INSERT_BEFORE. destruct l1 as [|b l1 _] using rev_ind.
  - pose proof Hrep as [(Hr & Hp & Hch) Hnd]. rewrite Hp. cbn [obind]. eexists; split; [done|].
    assert (NoDup (e :: x :: l2)) as Hnd' by (by apply list.NoDup_cons).
    edestruct (insert_chain h) as [H1 H2]; [exact (proj1 Hrep)|exact Hnd'|done| |by split; [split|]].
    split; intros; cbn [list.head]; queue_simpl; set_solver.
  - rewrite <- app_assoc in *. cbn [app] in *.
    assert (le_prev h !! x = Some (ElemNext b)) as ->.
    { destruct Hrep as [Hch _]. revert Hch. generalize (HeadFirst a). clear.
      induction l1 as [|d l1 IH]; intros c; [by intros (_ & _ & _ & ? & _)|].
      intros (_ & _ & Hch). eauto. }
    cbn [obind]. eexists; split; [done|].
    change (e :: x :: l2) with ([] ++ e :: x :: l2).
    edestruct (insert_behind_rep h) as [H1 H2]; [exact Hrep|exact He| |split; [exact H1|]].
    + split; intros; cbn [list.head]; queue_simpl; set_solver.
    + rewrite <- app_assoc in H2. exact H2.
Qed.

Lemma remove_rep h a l1 e l2 :
  list_rep h a (l1 ++ e :: l2) ->
  exists h', LIST_REMOVE e h = Ok h' /\ list_rep h' a (l1 ++ l2) /\
             same_outside h h' (HeadFirst a) (l1 ++ e :: l2).
Proof.
  intros [Hch Hnd].
  destruct (remove_chain _ _ _ _ _ Hch Hnd) as (h' & E & Hch' & Hs); [done|].
  exists h'. split_and!; [done| |done]. split; [done|].
  apply list.NoDup_app in Hnd as (H1 & Hd & H2). apply list.NoDup_cons in H2 as [_ H2].
  apply list.NoDup_app. split_and!; [done| |done].
  intros x Hx Hx2. by apply (Hd x Hx); right.
Qed.

Lemma foreach_rep h c l fuel :
  chain h c l -> (length l <= fuel)%nat -> foreach_from fuel (head l) h = Ok l.
Proof.
  revert c fuel. induction l as [|e l IH]; intros c fuel; simpl; [by destruct fuel|].
  intros (_ & _ & Hch) Hf. destruct fuel as [|fuel]; [lia|]. simpl.
  pose proof (chain_read _ _ _ Hch) as Hr. unfold LIST_NEXT. rewrite Hr. simpl.
  rewrite (IH (ElemNext e)) by (done || lia). done.
Qed.

(** ** Refinement

    The specification: every head has a list of elements, an element is in at
    most one of them. *)
Module spec.

Inductive op :=
| Init (a : addr)
| InsertHead (a e : addr)
| InsertAfter (x e : addr)
| InsertBefore (x e : addr)
| Remove (e : addr).

Inductive step : op -> gmap addr (list addr) -> gmap addr (list addr) -> Prop :=
| step_init a m :
    m !! a = None -> step (Init a) m (<[a := []]> m)
| step_insert a e l m :
    m !! a = Some l -> (forall b k, m !! b = Some k -> e ∉ k) ->
    step (InsertHead a e) m (<[a := e :: l]> m)
| step_insert_after a x e l1 l2 m :
    m !! a = Some (l1 ++ x :: l2) -> (forall b k, m !! b = Some k -> e ∉ k) ->
    step (InsertAfter x e) m (<[a := l1 ++ x :: e :: l2]> m)
| step_insert_before a x e l1 l2 m :
    m !! a = Some (l1 ++ x :: l2) -> (forall b k, m !! b = Some k -> e ∉ k) ->
    step (InsertBefore x e) m (<[a := l1 ++ e :: x :: l2]> m)
| step_remove a e l1 l2 m :
    m !! a = Some (l1 ++ e :: l2) ->
    step (Remove e) m (<[a := l1 ++ l2]> m).

Inductive steps : list op -> gmap addr (list addr) -> gmap addr (list addr) -> Prop :=
| steps_nil m : steps [] m m
| steps_cons o os m1 m2 m3 : step o m1 m2 -> steps os m2 m3 -> steps (o :: os) m1 m3.

End spec.

Definition run_op (o : spec.op) (h : heap) : outcome heap :=
  match o with
  | spec.Init a => Ok (LIST_INIT a h)
  | spec.InsertHead a e => LIST_INSERT_HEAD a e h
  | spec.InsertAfter x e => LIST_INSERT_AFTER x e h
  | spec.InsertBefore x e => LIST_INSERT_BEFORE x e h
  | spec.Remove e => LIST_REMOVE e h
  end.

Fixpoint run_ops (os : list spec.op) (h : heap) : outcome heap :=
  match os with
  | [] => Ok h
  | o :: os => let* h := run_op o h in run_ops os h
  end.

Record sim (h : heap) (m : gmap addr (list addr)) : Prop := {
  sim_rep a l : m !! a = Some l -> list_rep h a l;
  sim_disjoint a b l k e : m !! a = Some l -> m !! b = Some k -> a <> b -> e ∈ l -> e ∉ k
}.

(** One list changes from [l] to [l'], and the touched elements [t] are disjoint
    from every other list. *)
Lemma sim_update h h' m a l' t :
  sim h m -> list_rep h' a l' ->
  same_outside h h' (HeadFirst a) t ->
  (forall e, e ∈ l' -> e ∈ t) ->
  (forall b k e, m !! b = Some k -> a <> b -> e ∈ k -> e ∉ t) ->
  sim h' (<[a := l']> m).
Proof.
  intros [Hrep Hdis] Hl' Hs Hsub Ht. split.
  - intros b k. rewrite lookup_insert. case_decide as Hab; [by intros [= <-]; subst|].
    intros Hk. destruct (Hrep _ _ Hk) as [Hch Hnd]. split; [|done].
    eapply chain_frame; [exact Hs|congruence|done|eauto|done].
  - intros b c k1 k2 e. rewrite !lookup_insert. do 2 case_decide; try congruence.
    + intros [= <-] Hk2 _ He He2. by eapply Ht; [exact Hk2| |exact He2|auto].
    + intros Hk1 [= <-] _ He He2. by eapply Ht; [exact Hk1| |exact He|auto].
    + eauto.
Qed.

Lemma sim_step o h m m' :
  sim h m -> spec.step o m m' -> exists h', run_op o h = Ok h' /\ sim h' m'.
Proof.
  intros Hsim Hstep. pose proof Hsim as [Hrep Hdis].
  destruct Hstep as [a m Ha|a e l m Ha He|a x e l1 l2 m Ha He|a x e l1 l2 m Ha He|a e l1 l2 m Ha]; simpl.
  - eexists; split; [done|]. eapply (sim_update _ _ _ _ _ []); [done| | |done|set_solver].
    + split; [|constructor]. cbn [chain]. unfold LIST_INIT. queue_simpl.
    + split; [|done]. intros c' Hc _. unfold LIST_INIT. queue_simpl.
  - destruct (insert_head_rep h a e l) as (h' & E & Hr & Hs); [eauto..|].
    exists h'. split; [done|]. eapply sim_update; [done..|].
    intros b k y Hk Hab Hy. rewrite not_elem_of_cons. split.
    + intros ->. by eapply He.
    + by eapply (Hdis b a).
  - destruct (insert_after_rep h a l1 x e l2) as (h' & E & Hr & Hs); [eauto..|].
    exists h'. split; [done|]. eapply sim_update; [done..|set_solver|].
    intros b k y Hk Hab Hy. pose proof (Hdis b a _ _ y Hk Ha) as Hd. pose proof (He _ _ Hk).
    set_unfold. naive_solver.
  - destruct (insert_before_rep h a l1 x e l2) as (h' & E & Hr & Hs); [eauto..|].
    exists h'. split; [done|]. eapply sim_update; [done..|].
    intros b k y Hk Hab Hy. pose proof (Hdis b a _ _ y Hk Ha) as Hd. pose proof (He _ _ Hk).
    set_unfold. naive_solver.
  - destruct (remove_rep h a l1 e l2) as (h' & E & Hr & Hs); [eauto|].
    exists h'. split; [done|]. eapply sim_update; [done..|set_solver|].
    intros b k y Hk Hab Hy. by eapply (Hdis b a).
Qed.

Lemma sim_steps os h m m' :
  sim h m -> spec.steps os m m' -> exists h', run_ops os h = Ok h' /\ sim h' m'.
Proof.
  intros Hsim Hsteps. revert h Hsim.
  induction Hsteps as [m|o os m1 m2 m3 Ho Hos IH]; intros h Hsim; simpl; [eauto|].
  destruct (sim_step _ _ _ _ Hsim Ho) as (h1 & -> & Hsim1). simpl. eauto.
Qed.

Definition empty_heap : heap := mkHeap ∅ ∅ ∅.

(** C12. The [LIST_*] macros implement functional lists: every sequence of
    initialisations, insertions at the head, behind or before an element, and
    removals that the specification allows runs on the heap without touching an unallocated field, and afterwards
    [LIST_FOREACH] over each head visits exactly the elements of its list, in
    order, and stops. *)
Theorem queue_refinement os m :
  spec.steps os ∅ m ->
  exists h, run_ops os empty_heap = Ok h /\
    forall a l, m !! a = Some l -> LIST_FOREACH (length l) a h = Ok l.
Proof.
  intros Hsteps. destruct (sim_steps os empty_heap ∅ m) as (h & E & [Hrep _]); [|done|].
  { split; intros *; rewrite lookup_empty; done. }
  exists h. split; [done|]. intros a l Hl. destruct (Hrep _ _ Hl) as [Hch _].
  unfold LIST_FOREACH, LIST_FIRST. rewrite (chain_read _ _ _ Hch). simpl.
  eapply foreach_rep; [done|lia].
Qed.

(** A head with the elements 2, 3, 4 and the middle one removed, then 5 and 6
    around the last. *)
Definition sample_ops : list spec.op :=
  [spec.Init 1; spec.InsertHead 1 4; spec.InsertHead 1 3; spec.InsertHead 1 2; spec.Remove 3;
   spec.InsertAfter 4 5; spec.InsertBefore 4 6]%positive.

(** The specification's steps leave the other lists alone: one head suffices. *)
Lemma one_head_fresh (l : list addr) (e : addr) b k :
  e ∉ l -> (<[1%positive := l]> ∅ : gmap addr (list addr)) !! b = Some k -> e ∉ k.
Proof. rewrite lookup_insert. by case_decide; [intros ? [= <-]|]. Qed.

Lemma queue_refinement_witness :
  let m : gmap addr (list addr) := <[1%positive := [2; 6; 4; 5]%positive]> ∅ in
  exists h, run_ops sample_ops empty_heap = Ok h /\
    forall a l, m !! a = Some l -> LIST_FOREACH (length l) a h = Ok l.
Proof.
  apply queue_refinement.
  assert (forall o os (m1 m2 m3 m4 : gmap addr (list addr)), spec.step o m1 m2 ->
            m2 = m3 -> spec.steps os m3 m4 -> spec.steps (o :: os) m1 m4) as Hcons.
  { intros * H1 -> H2. by eapply spec.steps_cons. }
  eapply (Hcons _ _ _ _ (<[1%positive := []]> ∅)); [apply spec.step_init; reflexivity|done|].
  eapply (Hcons _ _ _ _ (<[1%positive := [4]%positive]> ∅));
    [apply spec.step_insert; [reflexivity|by intros b k; apply one_head_fresh; set_solver]
    |by rewrite insert_insert_eq|].
  eapply (Hcons _ _ _ _ (<[1%positive := [3; 4]%positive]> ∅));
    [apply spec.step_insert; [reflexivity|by intros b k; apply one_head_fresh; set_solver]
    |by rewrite insert_insert_eq|].
  eapply (Hcons _ _ _ _ (<[1%positive := [2; 3; 4]%positive]> ∅));
    [apply spec.step_insert; [reflexivity|by intros b k; apply one_head_fresh; set_solver]
    |by rewrite insert_insert_eq|].
  eapply (Hcons _ _ _ _ (<[1%positive := [2; 4]%positive]> ∅));
    [apply (spec.step_remove 1 3 [2%positive] [4%positive]); reflexivity
    |by rewrite insert_insert_eq|].
  eapply (Hcons _ _ _ _ (<[1%positive := [2; 4; 5]%positive]> ∅));
    [apply (spec.step_insert_after 1 4 5 [2%positive] []);
       [reflexivity|by intros b k; apply one_head_fresh; set_solver]
    |by rewrite insert_insert_eq|].
  eapply (Hcons _ _ _ _ (<[1%positive := [2; 6; 4; 5]%positive]> ∅));
    [apply (spec.step_insert_before 1 4 6 [2%positive] [5%positive]);
       [reflexivity|by intros b k; apply one_head_fresh; set_solver]
    |by rewrite insert_insert_eq|].
  apply spec.steps_nil.
Defined.
