(* ===== verification/Kvtree.v ===== *)
(** The kvtree data structure and its core operations: [src/src/kvtree.c],
    allocation, size, get, set, unset, merge, the key/value shortcuts and the
    element functions.

    A kvtree is the list of its elements, most recently inserted first (Queue
    justifies reading the linked list as a list).  A [kvtree*] argument is an
    [option kvtree], [None] for NULL; a function that changes a tree returns the
    tree after the call.  A pointer the C code returns into a tree is a path of
    keys from the tree's root ([tree_ptr]): writing through it is [at_ptr]. *)

From S2P Require Import Prelude CLib.

(** ** Data *)
Inductive kvtree := KVTree (lh_first : list kvtree_elem)
with kvtree_elem := Elem (key : option cstring) (hash : option kvtree).

Definition lh_first (t : kvtree) : list kvtree_elem := let 'KVTree l := t in l.
Definition key (e : kvtree_elem) : option cstring := let 'Elem k _ := e in k.
Definition hash (e : kvtree_elem) : option kvtree := let 'Elem _ h := e in h.

(** Induction over a tree, with the hypothesis for every child. *)
Section kvtree_ind.
Variable P : kvtree -> Prop.
Hypothesis P_tree : forall l,
  Forall (fun e => match hash e with Some t => P t | None => True end) l -> P (KVTree l).

Fixpoint kvtree_rect' (t : kvtree) : P t :=
  match t with
  | KVTree l =>
      P_tree l ((fix go (l : list kvtree_elem) :
                   Forall (fun e => match hash e with Some t => P t | None => True end) l :=
         match l with
         | [] => Forall_nil _
         | Elem k h :: l =>
             Forall_cons _ (Elem k h) l
               (match h as h0
                  return (match h0 with Some t => P t | None => True end) with
                | Some t => kvtree_rect' t
                | None => I
                end) (go l)
         end) l)
  end.
End kvtree_ind.

(** A pointer to an element is the chain from that element on; NULL is [[]]. *)
Notation cursor := (list kvtree_elem).

(** A pointer to a hash inside a tree: the keys from the root; NULL is [None]. *)
Notation tree_ptr := (option (list cstring)).

(** ** Linked list operations on the chain *)
Definition list_insert_head (t : kvtree) (e : kvtree_elem) : kvtree :=
  KVTree (e :: lh_first t).

(** [LIST_REMOVE] of the element [elem] points to: by address, that is by its
    position in the chain. *)
Definition list_remove (t : kvtree) (elem : cursor) : kvtree :=
  let l := lh_first t in
  KVTree (take (length l - length elem) l ++ tail elem).

(** ** Allocation *)
Definition kvtree_new : kvtree := KVTree [].

Definition kvtree_elem_new : kvtree_elem := Elem None None.

Definition kvtree_elem_init (elem : option kvtree_elem) (key : option cstring)
    (hash : option kvtree) : option kvtree_elem :=
  match elem with
  | Some _ =>
      match key with
      | Some k => Some (Elem (Some (strdup k)) hash)
      | None => Some (Elem None hash)
      end
  | None => None
  end.

(** ** Elements *)
Definition kvtree_elem_first (hash : option kvtree) : cursor :=
  match hash with None => [] | Some t => lh_first t end.

Definition kvtree_elem_next (elem : cursor) : cursor :=
  match elem with [] => [] | _ :: next => next end.

Definition kvtree_elem_key (elem : cursor) : option cstring :=
  match elem with [] => None | e :: _ => key e end.

Definition kvtree_elem_key_int (elem : cursor) : outcome Z :=
  match elem with
  | [] => Ok 0
  | e :: _ => match key e with Some k => Ok (atoi k) | None => Undef end
  end.

Definition kvtree_elem_hash (elem : cursor) : option kvtree :=
  match elem with [] => None | e :: _ => hash e end.

(** The [LIST_FOREACH] of [kvtree_elem_get]. *)
Definition elem_matches (k : cstring) (e : kvtree_elem) : bool :=
  match key e with Some k' => strcmp k' k =? 0 | None => false end.

Fixpoint elem_get_loop (k : cstring) (elem : cursor) : cursor :=
  match elem with
  | [] => []
  | e :: next => if elem_matches k e then elem else elem_get_loop k next
  end.

Definition kvtree_elem_get (hash : option kvtree) (key : option cstring) : cursor :=
  match hash, key with
  | Some t, Some k => elem_get_loop k (lh_first t)
  | _, _ => []
  end.

Definition kvtree_elem_extract_by_addr (hash : kvtree) (elem : cursor) : kvtree * cursor :=
  (list_remove hash elem, elem).

Definition kvtree_elem_extract (hash : option kvtree) (key : option cstring)
    : option kvtree * option kvtree_elem :=
  let elem := kvtree_elem_get hash key in
  match elem with
  | e :: _ => ((fun t => list_remove t elem) <$> hash, Some e)
  | [] => (hash, None)
  end.

Definition kvtree_elem_extract_int (hash : option kvtree) (key : Z)
    : option kvtree * option kvtree_elem :=
  let tmp := fmt_signed key in
  let elem := kvtree_elem_get hash (Some tmp) in
  match elem with
  | e :: _ => ((fun t => list_remove t elem) <$> hash, Some e)
  | [] => (hash, None)
  end.

(** ** Size, get, set, unset *)
Fixpoint size_loop (elem : cursor) (count : Z) : Z :=
  match elem with
  | [] => count
  | _ :: next => size_loop next (i32 (count + 1))
  end.

Definition kvtree_size (hash : option kvtree) : Z :=
  match hash with None => 0 | Some t => size_loop (lh_first t) 0 end.

Definition kvtree_get (hash : option kvtree) (key : option cstring) : option kvtree :=
  let elem := kvtree_elem_get hash key in
  match elem with
  | [] => None
  | e :: _ => Kvtree.hash e
  end.

(** The pointer [kvtree_get] returns. *)
Definition get_ptr (hash : option kvtree) (key : option cstring) : tree_ptr :=
  match kvtree_get hash key, key with Some _, Some k => Some [k] | _, _ => None end.

Definition kvtree_set (hash : option kvtree) (key : option cstring) (hash_value : option kvtree)
    : option kvtree * tree_ptr :=
  match hash, key with
  | Some _, Some k =>
      let '(hash, elem) := kvtree_elem_extract hash key in
      let elem :=
        match elem with
        | None => kvtree_elem_init (Some kvtree_elem_new) key hash_value
        | Some (Elem k0 _) => Some (Elem k0 hash_value)
        end in
      match hash, elem with
      | Some t, Some e =>
          (Some (list_insert_head t e),
           match Kvtree.hash e with Some _ => Some [k] | None => None end)
      | _, _ => (hash, None)
      end
  | _, _ => (hash, None)
  end.

Definition kvtree_extract (hash : option kvtree) (key : option cstring)
    : option kvtree * option kvtree :=
  match hash with
  | None => (None, None)
  | Some _ =>
      let '(hash, elem) := kvtree_elem_extract hash key in
      match elem with
      | Some e => (hash, Kvtree.hash e)
      | None => (hash, None)
      end
  end.

Definition kvtree_unset (hash : option kvtree) (key : option cstring) : option kvtree * Z :=
  match hash with
  | None => (None, KVTREE_SUCCESS)
  | Some _ =>
      let '(hash, _) := kvtree_elem_extract hash key in
      (hash, KVTREE_SUCCESS)
  end.

(** The loop of [kvtree_unset_all]: [elem] is the next element to remove. *)
Fixpoint unset_all_loop (elem : cursor) (hash : kvtree) : kvtree :=
  match elem with
  | [] => hash
  | _ :: next =>
      let tmp := elem in
      let '(hash, _) := kvtree_elem_extract_by_addr hash tmp in
      unset_all_loop next hash
  end.

Definition kvtree_unset_all (hash : option kvtree) : option kvtree * Z :=
  ((fun t => unset_all_loop (kvtree_elem_first (Some t)) t) <$> hash, KVTREE_SUCCESS).

(** ** Pointers into a tree *)
Fixpoint kvtree_deref (t : kvtree) (p : list cstring) : option kvtree :=
  match p with
  | [] => Some t
  | k :: p =>
      match kvtree_get (Some t) (Some k) with
      | Some c => kvtree_deref c p
      | None => None
      end
  end.

(** Overwrite the hash of the first element with key [k], where it stands. *)
Fixpoint elems_store (k : cstring) (c : kvtree) (l : list kvtree_elem) : list kvtree_elem :=
  match l with
  | [] => []
  | e :: l => if elem_matches k e then Elem (key e) (Some c) :: l else e :: elems_store k c l
  end.

Fixpoint kvtree_store (t : kvtree) (p : list cstring) (v : kvtree) : kvtree :=
  match p with
  | [] => v
  | k :: p =>
      match kvtree_get (Some t) (Some k) with
      | Some c => KVTree (elems_store k (kvtree_store c p v) (lh_first t))
      | None => t
      end
  end.

(** Call [f] on the hash that [p] points to; its changes are made in place. *)
Definition at_ptr {A} (hash : option kvtree) (p : tree_ptr)
    (f : option kvtree -> option kvtree * A) : option kvtree * A :=
  match hash, p with
  | Some t, Some path =>
      let '(c, r) := f (kvtree_deref t path) in
      (Some (match c with Some c => kvtree_store t path c | None => t end), r)
  | _, _ => let '(_, r) := f None in (hash, r)
  end.

Definition ptr_app (p q : tree_ptr) : tree_ptr :=
  match p, q with Some p, Some q => Some (p ++ q) | _, _ => None end.

(** ** Merge *)
Fixpoint merge_tree (hash1 hash2 : kvtree) {struct hash2} : option kvtree * Z :=
  match hash2 with
  | KVTree l2 =>
      (fix loop (elem : cursor) (hash1 : option kvtree) (rc : Z) {struct elem}
           : option kvtree * Z :=
         match elem with
         | [] => (hash1, rc)
         | Elem key key_hash2 :: next =>
             let '(hash1, key_hash1) :=
               match kvtree_get hash1 key with
               | None => kvtree_set hash1 key (Some kvtree_new)
               | Some _ => (hash1, get_ptr hash1 key)
               end in
             let '(hash1, r) :=
               at_ptr hash1 key_hash1 (fun key_hash1 =>
                 match key_hash1, key_hash2 with
                 | None, _ => (None, KVTREE_FAILURE)
                 | Some h1, None => (Some h1, KVTREE_SUCCESS)
                 | Some h1, Some h2 => merge_tree h1 h2
                 end) in
             loop next hash1 (if r =? KVTREE_SUCCESS then rc else KVTREE_FAILURE)
         end) l2 (Some hash1) KVTREE_SUCCESS
  end.

Definition kvtree_merge (hash1 hash2 : option kvtree) : option kvtree * Z :=
  match hash1, hash2 with
  | None, _ => (None, KVTREE_FAILURE)
  | Some h1, None => (Some h1, KVTREE_SUCCESS)
  | Some h1, Some h2 => merge_tree h1 h2
  end.

(** The loop over the elements of [hash2], by name. *)
Fixpoint merge_loop (elem : cursor) (hash1 : option kvtree) (rc : Z) : option kvtree * Z :=
  match elem with
  | [] => (hash1, rc)
  | Elem key key_hash2 :: next =>
      let '(hash1, key_hash1) :=
        match kvtree_get hash1 key with
        | None => kvtree_set hash1 key (Some kvtree_new)
        | Some _ => (hash1, get_ptr hash1 key)
        end in
      let '(hash1, r) := at_ptr hash1 key_hash1 (fun h1 => kvtree_merge h1 key_hash2) in
      merge_loop next hash1 (if r =? KVTREE_SUCCESS then rc else KVTREE_FAILURE)
  end.

(** ** Key/value shortcuts *)
Definition kvtree_set_kv (hash : option kvtree) (key val : option cstring)
    : option kvtree * tree_ptr :=
  match hash with
  | None => (None, None)
  | Some _ =>
      let '(hash, k) :=
        match kvtree_get hash key with
        | None => kvtree_set hash key (Some kvtree_new)
        | Some _ => (hash, get_ptr hash key)
        end in
      let '(hash, v) :=
        at_ptr hash k (fun k =>
          match kvtree_get k val with
          | None => kvtree_set k val (Some kvtree_new)
          | Some _ => (k, get_ptr k val)
          end) in
      (hash, ptr_app k v)
  end.

Definition kvtree_set_kv_int (hash : option kvtree) (key : option cstring) (val : Z) :=
  let tmp := fmt_signed val in
  kvtree_set_kv hash key (Some tmp).

Definition kvtree_get_kv (hash : option kvtree) (key val : option cstring) : option kvtree :=
  match hash with
  | None => None
  | Some _ =>
      match kvtree_get hash key with
      | None => None
      | Some k =>
          match kvtree_get (Some k) val with
          | None => None
          | Some v => Some v
          end
      end
  end.

Definition kvtree_get_kv_int (hash : option kvtree) (key : option cstring) (val : Z) :=
  let tmp := fmt_signed val in
  kvtree_get_kv hash key (Some tmp).

Definition kvtree_unset_kv (hash : option kvtree) (key val : option cstring)
    : option kvtree * Z :=
  match hash with
  | None => (None, KVTREE_SUCCESS)
  | Some _ =>
      let v := get_ptr hash key in
      let '(hash, rc_size) :=
        at_ptr hash v (fun v =>
          let '(v, rc) := kvtree_unset v val in (v, (rc, kvtree_size v))) in
      let '(rc, size) := rc_size in
      if size =? 0 then kvtree_unset hash key else (hash, rc)
  end.

Definition kvtree_unset_kv_int (hash : option kvtree) (key : option cstring) (val : Z) :=
  let tmp := fmt_signed val in
  kvtree_unset_kv hash key (Some tmp).

(** ** Reading the single value of a key *)
Definition kvtree_elem_get_first_val (hash : option kvtree) (key : option cstring)
    : option cstring :=
  match kvtree_get hash key with
  | Some h =>
      match kvtree_elem_first (Some h) with
      | [] => None
      | e => kvtree_elem_key e
      end
  | None => None
  end.

Definition kvtree_get_val (hash : option kvtree) (key : option cstring) : option cstring :=
  match kvtree_get hash key with
  | Some key_hash =>
      let size := kvtree_size (Some key_hash) in
      if size =? 1 then kvtree_elem_key (kvtree_elem_first (Some key_hash)) else None
  | None => None
  end.
