(* ===== verification/KvtreeSpec.v ===== *)
(** What a kvtree promises, and the proof that the core operations of
    [Kvtree.v] keep the promise.

    - [wf]: at every level the keys are non-NULL C strings and pairwise
      different.  Every operation of the API preserves it.
    - [child t k]: the hash of the element with key [k] ([None]: no element,
      [Some None]: an element with a NULL hash).  Each operation is specified by
      what it does to [child].
    - [has_path t p]: the tree has the keys of [p] nested in each other.  A NULL
      hash and an empty one have the same paths, as the documentation says.
      Two trees with the same paths are equivalent ([≡]). *)

From S2P Require Import Prelude CLib Kvtree.

(** ** Well-formed trees *)
Definition nonnull_free (k : option cstring) : Prop :=
  match k with Some k => nul_free k | None => False end.

Inductive wf : kvtree -> Prop :=
| wf_tree l : NoDup (map key l) -> Forall wf_elem l -> wf (KVTree l)
with wf_elem : kvtree_elem -> Prop :=
| wf_elem_null k : nul_free k -> wf_elem (Elem (Some k) None)
| wf_elem_some k t : nul_free k -> wf t -> wf_elem (Elem (Some k) (Some t)).

Definition wf_opt (h : option kvtree) : Prop :=
  match h with Some t => wf t | None => True end.

Lemma wf_elem_iff e : wf_elem e <-> nonnull_free (key e) /\ wf_opt (hash e).
Proof.
  split.
  - intros []; simpl; auto.
  - destruct e as [[k|] [t|]]; simpl; intros []; try done; eauto using wf_elem.
Qed.


Lemma wf_iff t : wf t <-> NoDup (map key (lh_first t)) /\ Forall wf_elem (lh_first t).
Proof. split; [by intros []|]. destruct t; intros []; by constructor. Qed.

Lemma wf_elem_in t e : wf t -> e ∈ lh_first t -> wf_elem e.
Proof. rewrite wf_iff. intros [_ H] He. by eapply list.Forall_forall in H. Qed.

Lemma wf_new : wf kvtree_new.
Proof. constructor; constructor. Qed.

Lemma list_remove_app l1 x l2 : list_remove (KVTree (l1 ++ x :: l2)) (x :: l2) = KVTree (l1 ++ l2).
Proof.
  unfold list_remove. cbn. rewrite length_app. cbn.
  replace (length l1 + S (length l2) - S (length l2))%nat with (length l1) by lia.
  by rewrite take_app_length.
Qed.

(** ** Children *)
Definition child (t : kvtree) (k : cstring) : option (option kvtree) :=
  match elem_get_loop k (lh_first t) with [] => None | e :: _ => Some (hash e) end.

Definition is_key (k : cstring) (e : kvtree_elem) : Prop := key e = Some (c_str k).
#[export] Instance is_key_dec k e : Decision (is_key k e) := decide (key e = Some (c_str k)).

Lemma elem_matches_key k e :
  wf_elem e -> elem_matches k e = bool_decide (is_key k e).
Proof.
  rewrite wf_elem_iff. intros [Hk _]. destruct e as [[k'|] h]; simpl in Hk; [|done].
  unfold elem_matches. simpl. rewrite strcmp_eq0, (c_str_id k') by done.
  apply bool_decide_ext. unfold is_key. simpl. naive_solver.
Qed.

(** The chain without the element of key [k]. *)
Definition without (k : cstring) (t : kvtree) : list kvtree_elem :=
  filter (fun e => ~ is_key k e) (lh_first t).

Lemma elem_of_without k t e : e ∈ without k t <-> ~ is_key k e /\ e ∈ lh_first t.
Proof. unfold without. by rewrite list_elem_of_filter. Qed.

Lemma elem_get_loop_spec k l :
  Forall wf_elem l ->
  match elem_get_loop k l with
  | [] => Forall (fun e => ~ is_key k e) l
  | e :: next =>
      exists l1, l = l1 ++ e :: next /\ is_key k e /\ Forall (fun e => ~ is_key k e) l1
  end.
Proof.
  induction l as [|e l IH]; simpl; [by constructor|].
  rewrite Forall_cons_iff. intros [He Hl]. rewrite elem_matches_key by done.
  case_bool_decide as Hk; [by exists []|].
  specialize (IH Hl). destruct (elem_get_loop k l) as [|e' next].
  - by constructor.
  - destruct IH as (l1 & -> & Hk' & HF). exists (e :: l1). split_and!; [done..|by constructor].
Qed.

Lemma filter_id k l : Forall (fun e => ~ is_key k e) l -> filter (fun e => ~ is_key k e) l = l.
Proof.
  induction 1 as [|e l He _ IH]; [done|]. rewrite filter_cons_True by done. by rewrite IH.
Qed.

(** In a well-formed tree the first match is the only one. *)
Lemma elem_get_cases t k :
  wf t ->
  match kvtree_elem_get (Some t) (Some k) with
  | [] => child t k = None /\ Forall (fun e => ~ is_key k e) (lh_first t)
  | e :: next =>
      e = Elem (Some (c_str k)) (hash e) /\ child t k = Some (hash e) /\
      e ∈ lh_first t /\ list_remove t (e :: next) = KVTree (without k t)
  end.
Proof.
  intros Hwf. apply wf_iff in Hwf as [Hnd Hl]. unfold child. simpl.
  pose proof (elem_get_loop_spec k _ Hl) as H.
  destruct (elem_get_loop k (lh_first t)) as [|e next]; [done|].
  destruct H as (l1 & E & Hk & HF). split_and!; [|done| |].
  - destruct e as [k' h]. unfold is_key in Hk. simpl in *. congruence.
  - rewrite E. set_solver.
  - unfold list_remove, without. rewrite E. f_equal.
    rewrite length_app. replace (length l1 + _ - _)%nat with (length l1) by (simpl; lia).
    rewrite take_app_length. simpl.
    rewrite list.filter_app, filter_cons_False by auto. rewrite filter_id by done. f_equal.
    symmetry. apply filter_id. rewrite E, map_app in Hnd. simpl in Hnd.
    apply list.NoDup_app in Hnd as (_ & _ & Hnd). apply list.NoDup_cons in Hnd as [Hn _].
    apply list.Forall_forall. intros x Hx Hkx. apply Hn.
    unfold is_key in *. rewrite Hk, <- Hkx. by apply list_elem_of_fmap_2.
Qed.

Lemma child_elem t k h :
  wf t -> child t k = Some h <-> Elem (Some (c_str k)) h ∈ lh_first t.
Proof.
  intros Hwf. pose proof (elem_get_cases t k Hwf) as H.
  destruct (kvtree_elem_get (Some t) (Some k)) as [|e next].
  - destruct H as [-> HF]. split; [done|]. intros Hin.
    by eapply list.Forall_forall in HF; [|exact Hin].
  - destruct H as (E & -> & Hin & _). rewrite E in Hin. split; [intros [= <-]; done|].
    intros Hin'. apply wf_iff in Hwf as [Hnd _].
    apply list_elem_of_lookup in Hin as [i Hi], Hin' as [j Hj].
    assert (i = j) as ->.
    { eapply (NoDup_lookup (map key (lh_first t))); [done| |].
      - change (map key) with (fmap (M := list) key). rewrite list_lookup_fmap, Hi. done.
      - change (map key) with (fmap (M := list) key). rewrite list_lookup_fmap, Hj. done. }
    congruence.
Qed.

(** ** Extraction, set and unset *)
Lemma child_get t k : kvtree_get (Some t) (Some k) = mjoin (child t k).
Proof. unfold kvtree_get, child. simpl. by destruct (elem_get_loop k (lh_first t)). Qed.

Lemma child_proper t k k' : c_str k = c_str k' -> child t k = child t k'.
Proof.
  intros E. unfold child. replace (elem_get_loop k' (lh_first t)) with (elem_get_loop k (lh_first t)).
  { done. }
  induction (lh_first t) as [|e l IH]; simpl; [done|]. unfold elem_matches, strcmp.
  rewrite E. destruct (key e); [|done]. by case_match.
Qed.

Lemma child_None t k :
  wf t -> child t k = None -> Forall (fun e => ~ is_key k e) (lh_first t).
Proof.
  intros Hwf Hc. pose proof (elem_get_cases t k Hwf) as H.
  destruct (kvtree_elem_get (Some t) (Some k)); [by destruct H|].
  destruct H as (_ & E & _). congruence.
Qed.

Lemma extract_spec t k :
  wf t ->
  kvtree_elem_extract (Some t) (Some k) =
    match child t k with
    | None => (Some t, None)
    | Some h => (Some (KVTree (without k t)), Some (Elem (Some (c_str k)) h))
    end.
Proof.
  intros Hwf. pose proof (elem_get_cases t k Hwf) as H. unfold kvtree_elem_extract.
  destruct (kvtree_elem_get (Some t) (Some k)) as [|e next].
  - by destruct H as [-> _].
  - destruct H as (E & -> & _ & Hr). simpl. rewrite Hr. by rewrite E at 1.
Qed.

Lemma without_absent t k : wf t -> child t k = None -> KVTree (without k t) = t.
Proof.
  intros Hwf Hc. unfold without. rewrite filter_id by (by apply child_None).
  by destruct t.
Qed.

Lemma wf_without t k : wf t -> wf (KVTree (without k t)).
Proof.
  rewrite !wf_iff. intros [Hnd Hl]. simpl. split.
  - unfold without. clear Hl. induction (lh_first t) as [|e l IH]; [constructor|].
    simpl in Hnd. apply list.NoDup_cons in Hnd as [Hn Hnd].
    rewrite filter_cons. case_decide; simpl; [|auto].
    apply list.NoDup_cons. split; [|auto]. intros Hin. apply Hn.
    apply list_elem_of_fmap in Hin as (e' & -> & Hin).
    apply list_elem_of_filter in Hin as [_ Hin]. by apply list_elem_of_fmap_2.
  - apply list.Forall_forall. intros e [_ He]%elem_of_without.
    by eapply list.Forall_forall in Hl.
Qed.

Lemma option_eq_Some_iff {A} (o1 o2 : option A) :
  (forall x, o1 = Some x <-> o2 = Some x) -> o1 = o2.
Proof.
  intros H. destruct o1 as [x|]; [symmetry; by apply H|].
  destruct o2 as [y|]; [|done]. by apply H.
Qed.

Lemma child_without t k k' :
  wf t ->
  child (KVTree (without k t)) k' = if decide (c_str k = c_str k') then None else child t k'.
Proof.
  intros Hwf. apply option_eq_Some_iff. intros h.
  rewrite child_elem by (by apply wf_without). simpl. rewrite elem_of_without.
  case_decide as E; unfold is_key; simpl.
  - rewrite E. split; [|done]. intros [H _]. by destruct H.
  - rewrite child_elem by done. naive_solver congruence.
Qed.

(** Inserting an element with a new key in front. *)
Definition insert_child (k : cstring) (v : option kvtree) (t : kvtree) : kvtree :=
  KVTree (Elem (Some (c_str k)) v :: without k t).

Lemma wf_insert_child t k v : wf t -> wf_opt v -> wf (insert_child k v t).
Proof.
  intros Hwf Hv. pose proof (wf_without t k Hwf) as [Hnd Hl]%wf_iff. simpl in *.
  apply wf_iff. simpl. split.
  - apply list.NoDup_cons. split; [|done]. intros Hin.
    apply list_elem_of_fmap in Hin as (e & E & [He _]%elem_of_without). by apply He.
  - apply Forall_cons_iff. split; [|done].
    apply wf_elem_iff. simpl. auto with kvtree.
Qed.

Lemma child_insert_child t k v k' :
  wf t -> wf_opt v ->
  child (insert_child k v t) k' = if decide (c_str k = c_str k') then Some v else child t k'.
Proof.
  intros Hwf Hv. apply option_eq_Some_iff. intros h.
  rewrite child_elem by (by apply wf_insert_child). simpl.
  rewrite elem_of_cons, elem_of_without. case_decide as E; unfold is_key; simpl.
  - rewrite <- E. split.
    + intros [[= <-]|[H _]]; [done|by destruct H].
    + intros [= <-]. by left.
  - rewrite child_elem by done. naive_solver congruence.
Qed.

Lemma set_spec t k v :
  wf t ->
  kvtree_set (Some t) (Some k) v =
    (Some (insert_child k v t), match v with Some _ => Some [k] | None => None end).
Proof.
  intros Hwf. unfold kvtree_set. rewrite extract_spec by done.
  destruct (child t k) as [h|] eqn:Hc; simpl.
  - by destruct v.
  - unfold insert_child, list_insert_head, strdup.
    rewrite <- (without_absent t k) at 1 by done. by destruct v.
Qed.

Lemma unset_spec t k :
  wf t -> kvtree_unset (Some t) (Some k) = (Some (KVTree (without k t)), KVTREE_SUCCESS).
Proof.
  intros Hwf. unfold kvtree_unset. rewrite extract_spec by done.
  destruct (child t k) eqn:Hc; [done|]. by rewrite without_absent.
Qed.

Lemma kvtree_extract_spec t k :
  wf t ->
  kvtree_extract (Some t) (Some k) = (Some (KVTree (without k t)), mjoin (child t k)).
Proof.
  intros Hwf. unfold kvtree_extract. rewrite extract_spec by done.
  destruct (child t k) eqn:Hc; [done|]. by rewrite without_absent.
Qed.

Lemma wf_opt_Some t : wf t -> wf_opt (Some t).
Proof. done. Qed.
Lemma wf_opt_None : wf_opt None.
Proof. done. Qed.

#[export] Hint Resolve wf_new wf_without wf_insert_child wf_opt_Some wf_opt_None : kvtree.

Lemma wf_child t k h : wf t -> child t k = Some h -> wf_opt h.
Proof.
  intros Hwf Hc. apply child_elem in Hc; [|done].
  apply wf_elem_in in Hc; [|done]. by apply wf_elem_iff in Hc as [_ Hc].
Qed.

Lemma wf_get t k c : wf t -> kvtree_get (Some t) (Some k) = Some c -> wf c.
Proof.
  intros Hwf. rewrite child_get. destruct (child t k) as [h|] eqn:E; [|done].
  simpl. intros ->. by eapply (wf_child t k (Some c)).
Qed.

(** ** Writing through a pointer *)
Definition put_child (k : cstring) (c : kvtree) (t : kvtree) : kvtree :=
  KVTree (elems_store k c (lh_first t)).

Lemma elems_store_keys k c l : map key (elems_store k c l) = map key l.
Proof. induction l as [|e l IH]; simpl; [done|]. destruct (elem_matches k e); simpl; congruence. Qed.

Lemma elems_store_wf k c l : Forall wf_elem l -> wf c -> Forall wf_elem (elems_store k c l).
Proof.
  intros Hl Hc. induction Hl as [|e l He Hl IH]; simpl; [constructor|].
  destruct (elem_matches k e); constructor; auto.
  apply wf_elem_iff in He as [Hk _]. by apply wf_elem_iff.
Qed.

Lemma wf_put_child t k c : wf t -> wf c -> wf (put_child k c t).
Proof.
  intros [Hnd Hl]%wf_iff Hc. apply wf_iff. simpl.
  rewrite elems_store_keys. split; [done|by apply elems_store_wf].
Qed.

Lemma child_put_child t k c k' :
  wf t -> is_Some (child t k) ->
  child (put_child k c t) k' = if decide (c_str k = c_str k') then Some (Some c) else child t k'.
Proof.
  intros [_ Hl]%wf_iff. unfold child, put_child. simpl.
  induction Hl as [|e l He Hl IH]; simpl; [by intros []|].
  destruct (elem_matches k e) eqn:Hm.
  - intros _. simpl. assert (elem_matches k' (Elem (key e) (Some c)) = elem_matches k' e) as -> by done.
    rewrite elem_matches_key in Hm |- * by done.
    apply bool_decide_eq_true in Hm.
    case_bool_decide as Hk; unfold is_key in *; case_decide; simpl; congruence.
  - intros Hs. simpl. rewrite elem_matches_key in Hm |- * by done.
    apply bool_decide_eq_false in Hm. case_bool_decide as Hk; [|auto].
    rewrite decide_False; [done|]. unfold is_key in *. congruence.
Qed.

Lemma at_ptr_child {A} t k c (f : option kvtree -> option kvtree * A) c' r :
  kvtree_get (Some t) (Some k) = Some c -> f (Some c) = (Some c', r) ->
  at_ptr (Some t) (Some [k]) f = (Some (put_child k c' t), r).
Proof.
  intros Hg Hf. unfold at_ptr. cbn [kvtree_deref kvtree_store].
  by rewrite Hg, Hf.
Qed.

(** Looking a key up and inserting an empty hash when it is missing: the first
    step of [kvtree_merge], [kvtree_set_kv] and [kvtree_setf]. *)
Definition get_or_new (hash : option kvtree) (key : option cstring) : option kvtree * tree_ptr :=
  match kvtree_get hash key with
  | None => kvtree_set hash key (Some kvtree_new)
  | Some _ => (hash, get_ptr hash key)
  end.

Definition ensure_child (k : cstring) (t : kvtree) : kvtree :=
  match kvtree_get (Some t) (Some k) with
  | None => insert_child k (Some kvtree_new) t
  | Some _ => t
  end.

Lemma get_or_new_spec t k :
  wf t ->
  get_or_new (Some t) (Some k) = (Some (ensure_child k t), Some [k]) /\
  wf (ensure_child k t) /\
  kvtree_get (Some (ensure_child k t)) (Some k)
    = Some (default kvtree_new (kvtree_get (Some t) (Some k))) /\
  forall k', c_str k <> c_str k' -> child (ensure_child k t) k' = child t k'.
Proof.
  intros Hwf. unfold get_or_new, ensure_child, get_ptr.
  destruct (kvtree_get (Some t) (Some k)) as [c|] eqn:Hg.
  - done.
  - rewrite set_spec by done. split_and!; [done|auto with kvtree| |].
    + rewrite child_get, child_insert_child, decide_True by (done || apply wf_new). done.
    + intros k' Hk. by rewrite child_insert_child, decide_False by (done || apply wf_new).
Qed.

(** [get_or_new] followed by a change of the hash it points to. *)
Lemma update_child t k {A} (f : option kvtree -> option kvtree * A) c' r :
  wf t -> wf c' ->
  f (Some (default kvtree_new (kvtree_get (Some t) (Some k)))) = (Some c', r) ->
  exists t',
    (let '(h, p) := get_or_new (Some t) (Some k) in at_ptr h p f) = (Some t', r) /\
    wf t' /\
    forall k', child t' k' = if decide (c_str k = c_str k') then Some (Some c') else child t k'.
Proof.
  intros Hwf Hc' Hf. destruct (get_or_new_spec t k Hwf) as (-> & Hwf' & Hg & Hch).
  exists (put_child k c' (ensure_child k t)).
  split; [by apply (at_ptr_child _ _ _ _ _ _ Hg)|].
  split; [by apply wf_put_child|]. intros k'.
  rewrite child_put_child; [|done|].
  - case_decide; auto.
  - rewrite child_get in Hg. destruct (child (ensure_child k t) k); [done|discriminate].
Qed.

(** ** Paths *)
Fixpoint has_path (t : kvtree) (p : list cstring) {struct p} : bool :=
  match p with
  | [] => true
  | k :: p =>
      existsb (fun e => elem_matches k e &&
                        match hash e with
                        | Some c => has_path c p
                        | None => match p with [] => true | _ => false end
                        end) (lh_first t)
  end.

Definition has_path_opt (h : option kvtree) (p : list cstring) : bool :=
  match h with
  | Some c => has_path c p
  | None => match p with [] => true | _ => false end
  end.

Lemma has_path_nil t : has_path t [] = true.
Proof. done. Qed.
Lemma has_path_opt_nil h : has_path_opt h [] = true.
Proof. by destruct h. Qed.
Lemma has_path_new p : has_path kvtree_new p = has_path_opt None p.
Proof. by destruct p. Qed.

Lemma has_path_elem e l k p :
  has_path (KVTree (e :: l)) (k :: p)
    = (elem_matches k e && has_path_opt (hash e) p) || has_path (KVTree l) (k :: p).
Proof. done. Qed.

Lemma has_path_child t k p :
  wf t ->
  has_path t (k :: p) = match child t k with Some h => has_path_opt h p | None => false end.
Proof.
  intros Hwf. apply eq_true_iff_eq. simpl. rewrite existsb_exists. split.
  - intros (e & He & [Hm Hp]%andb_true_iff). apply list_elem_of_In in He.
    rewrite elem_matches_key in Hm by (by eapply wf_elem_in).
    apply bool_decide_eq_true in Hm. destruct e as [k' h]. unfold is_key in Hm. simpl in *.
    subst k'. by rewrite (proj2 (child_elem t k h Hwf) He).
  - destruct (child t k) as [h|] eqn:Hc; [|done]. intros Hp.
    apply child_elem in Hc; [|done]. exists (Elem (Some (c_str k)) h).
    rewrite <- list_elem_of_In, elem_matches_key by (by eapply wf_elem_in).
    rewrite bool_decide_true by done. done.
Qed.

(** ** Merge

    [keys_ok]: no element below has a NULL key, the one thing that makes
    [kvtree_merge] fail. *)
Fixpoint keys_ok (t : kvtree) : bool :=
  match t with
  | KVTree l =>
      forallb (fun e => match e with
                        | Elem None _ => false
                        | Elem (Some _) None => true
                        | Elem (Some _) (Some c) => keys_ok c
                        end) l
  end.

Lemma wf_keys_ok t : wf t -> keys_ok t = true.
Proof.
  induction t as [l IH] using kvtree_rect'. intros [_ Hl]%wf_iff. simpl in *.
  apply forallb_forall. intros e He%list_elem_of_In.
  eapply list.Forall_forall in IH; [|exact He]. eapply list.Forall_forall in Hl; [|exact He].
  by destruct Hl; auto.
Qed.

Lemma merge_loop_eq t1 l2 :
  kvtree_merge (Some t1) (Some (KVTree l2)) = merge_loop l2 (Some t1) KVTREE_SUCCESS.
Proof. reflexivity. Qed.

(** A merge keeps its first hash. *)
Lemma kvtree_merge_some t1 h2 : exists t' rc, kvtree_merge (Some t1) h2 = (Some t', rc).
Proof.
  destruct h2 as [[l]|]; [|by do 2 eexists]. rewrite merge_loop_eq.
  enough (forall t1 rc, exists t' rc', merge_loop l (Some t1) rc = (Some t', rc')) as H; [apply H|].
  clear t1. induction l as [|[k h] l IH]; intros t1 rc; [by do 2 eexists|]. cbn [merge_loop].
  destruct (match kvtree_get (Some t1) k with Some _ => _ | None => _ end) as [[t|] path] eqn:E.
  - unfold at_ptr. destruct path as [path|].
    + destruct (kvtree_merge (kvtree_deref t path) h) as [c r]. apply IH.
    + destruct (kvtree_merge None h) as [c r]. apply IH.
  - exfalso. destruct (kvtree_get (Some t1) k); [done|]. unfold kvtree_set, kvtree_elem_extract in E.
    destruct k; [|done]. destruct (kvtree_elem_get _ _) as [|[? ?] ?]; done.
Qed.

Definition rc_of (b : bool) : Z := if b then KVTREE_SUCCESS else KVTREE_FAILURE.

(** The effect of one iteration of the loop. *)
Lemma merge_step t1 k h2 c' ok :
  wf t1 -> wf c' ->
  kvtree_merge (Some (default kvtree_new (kvtree_get (Some t1) (Some k)))) h2
    = (Some c', rc_of ok) ->
  (forall p, has_path c' p
     = has_path (default kvtree_new (kvtree_get (Some t1) (Some k))) p || has_path_opt h2 p) ->
  exists t,
    (let '(h, p) := get_or_new (Some t1) (Some k) in
     at_ptr h p (fun h1 => kvtree_merge h1 h2)) = (Some t, rc_of ok) /\
    wf t /\
    forall p, has_path t p = has_path t1 p || has_path (KVTree [Elem (Some k) h2]) p.
Proof.
  intros Hwf Hc' Hm Hp.
  destruct (update_child t1 k (fun h1 => kvtree_merge h1 h2) c' (rc_of ok) Hwf Hc' Hm)
    as (t & E & Ht & Hch).
  exists t. split; [done|]. split; [done|]. intros [|k' p]; [done|].
  rewrite has_path_elem, !has_path_child, Hch by done.
  unfold elem_matches. simpl. rewrite strcmp_eq0, orb_false_r.
  case_decide as Ek; [rewrite bool_decide_true by done|rewrite bool_decide_false by done].
  - simpl. rewrite Hp, child_get, (child_proper _ _ _ Ek).
    destruct (child t1 k') as [[c|]|]; simpl; [done|by rewrite has_path_new|].
    rewrite has_path_new. destruct p; [|done]. by destruct h2.
  - simpl. by rewrite orb_false_r.
Qed.

Lemma merge_loop_rc l2 t1 rc :
  merge_loop l2 t1 rc =
    ((merge_loop l2 t1 KVTREE_SUCCESS).1,
     if (merge_loop l2 t1 KVTREE_SUCCESS).2 =? KVTREE_SUCCESS then rc else KVTREE_FAILURE).
Proof.
  revert t1 rc. induction l2 as [|[k h2] l2 IH]; intros t1 rc; [done|].
  cbn [merge_loop].
  destruct (match kvtree_get t1 k with Some _ => _ | None => _ end) as [h p].
  destruct (at_ptr h p _) as [t r].
  rewrite (IH t (if r =? KVTREE_SUCCESS then rc else KVTREE_FAILURE)).
  rewrite (IH t (if r =? KVTREE_SUCCESS then KVTREE_SUCCESS else KVTREE_FAILURE)).
  destruct (merge_loop l2 t KVTREE_SUCCESS) as [t' r'] eqn:E. simpl.
  by destruct (r =? KVTREE_SUCCESS), (r' =? KVTREE_SUCCESS).
Qed.

Lemma merge_spec t2 : forall t1,
  wf t1 ->
  exists t, kvtree_merge (Some t1) (Some t2) = (Some t, rc_of (keys_ok t2)) /\ wf t /\
            forall p, has_path t p = has_path t1 p || has_path t2 p.
Proof.
  induction t2 as [l2 IH] using kvtree_rect'. intros t1. rewrite merge_loop_eq. revert t1.
  induction IH as [|[[k|] h2] l2 He Hl IHl]; intros t1 Hwf.
  - exists t1. split_and!; [done..|]. intros [|k p]; [done|]. simpl. by rewrite orb_false_r.
  - set (c0 := default kvtree_new (kvtree_get (Some t1) (Some k))).
    assert (wf c0) as Hc0.
    { unfold c0. destruct (kvtree_get _ _) eqn:Hg; simpl; eauto using wf_get with kvtree. }
    assert (exists c', kvtree_merge (Some c0) h2
                = (Some c', rc_of (match h2 with Some c => keys_ok c | None => true end)) /\ wf c' /\
              forall p, has_path c' p = has_path c0 p || has_path_opt h2 p)
      as (c' & Hm & Hc' & Hp).
    { destruct h2 as [c2|]; [by apply He|]. exists c0. split_and!; [done..|].
      intros [|]; simpl; by rewrite ?orb_false_r. }
    destruct (merge_step _ _ _ _ _ Hwf Hc' Hm Hp) as (t & E & Ht & Hpt).
    destruct (IHl t Ht) as (t' & E' & Ht' & Hpt').
    exists t'. cbn [merge_loop]. fold (get_or_new (Some t1) (Some k)).
    destruct (get_or_new (Some t1) (Some k)) as [h q]. rewrite E.
    split_and!; [|done|].
    + rewrite merge_loop_rc. simpl in E'. rewrite E'. simpl.
      destruct h2 as [c2|]; simpl; [destruct (keys_ok c2); simpl|]; by destruct (forallb _ l2).
    + intros p. rewrite Hpt', Hpt. destruct p as [|k' p]; [done|].
      rewrite !has_path_elem. simpl. by rewrite orb_false_r, orb_assoc.
  - destruct (IHl t1 Hwf) as (t' & E' & Ht' & Hpt').
    exists t'. cbn [merge_loop]. simpl in E' |- *.
    rewrite merge_loop_rc, E'. simpl. split_and!; [by destruct (forallb _ l2)|done|].
    intros p. rewrite Hpt'. by destruct p.
Qed.

(** ** Deciding well-formedness, for concrete trees *)
Fixpoint wfb (t : kvtree) : bool :=
  match t with
  | KVTree l =>
      bool_decide (NoDup (map key l)) &&
      forallb (fun e => match e with
                        | Elem None _ => false
                        | Elem (Some k) None => bool_decide (NUL ∉ k)
                        | Elem (Some k) (Some c) => bool_decide (NUL ∉ k) && wfb c
                        end) l
  end.

Lemma wfb_wf t : wfb t = true -> wf t.
Proof.
  induction t as [l IH] using kvtree_rect'. simpl. rewrite andb_true_iff, bool_decide_eq_true.
  intros [Hnd Hl]. constructor; [done|]. apply list.Forall_forall. intros e He.
  eapply list.Forall_forall in IH; [|exact He].
  rewrite forallb_forall in Hl. apply list_elem_of_In, Hl in He.
  destruct e as [[k|] [c|]]; simpl in *; try done.
  - apply andb_true_iff in He as [Hk%bool_decide_eq_true Hc]. constructor; auto.
  - apply bool_decide_eq_true in He. by constructor.
Qed.

Ltac wf_check := apply wfb_wf; vm_compute; reflexivity.
