(* ===== verification/KvtreeMap.v ===== *)
(** The map a level of a kvtree is: refinement of the operations of one level
    by a finite map from keys to hashes, and the well-formedness invariant of
    the whole API. *)

From S2P Require Import Prelude CLib Kvtree KvtreeSpec.

(** ** The abstract specification: a finite map *)
Module spec.

Notation kvmap := (gmap cstring (option kvtree)).

Inductive op :=
| Set_ (k : cstring) (v : option kvtree)
| Get (k : cstring)
| Extract (k : cstring)
| Unset (k : cstring)
| UnsetAll
| Size.

Inductive res :=
| RHash (h : option kvtree)
| RCode (rc : Z).

(** What each call does to the map and what it returns.  [kvtree_get] and
    [kvtree_extract] do not tell a NULL hash from a missing key. *)
Definition step (m : kvmap) (o : op) : kvmap * res :=
  match o with
  | Set_ k v => (<[c_str k := v]> m, RHash v)
  | Get k => (m, RHash (mjoin (m !! c_str k)))
  | Extract k => (delete (c_str k) m, RHash (mjoin (m !! c_str k)))
  | Unset k => (delete (c_str k) m, RCode KVTREE_SUCCESS)
  | UnsetAll => (∅, RCode KVTREE_SUCCESS)
  | Size => (m, RCode (Z.of_nat (base.size m)))
  end.

Fixpoint steps (m : kvmap) (os : list op) : kvmap * list res :=
  match os with
  | [] => (m, [])
  | o :: os =>
      let '(m, r) := step m o in
      let '(m, rs) := steps m os in (m, r :: rs)
  end.

(** The hash that a [kvtree_set] is given is a tree the API built. *)
Definition op_ok (o : op) : Prop :=
  match o with Set_ _ v => wf_opt v | _ => True end.

End spec.

(** ** The operations on the tree *)
Definition deref_opt (h : option kvtree) (p : tree_ptr) : option kvtree :=
  match h, p with Some t, Some p => kvtree_deref t p | _, _ => None end.

Definition call (h : option kvtree) (o : spec.op) : option kvtree * spec.res :=
  match o with
  | spec.Set_ k v =>
      let '(h, p) := kvtree_set h (Some k) v in (h, spec.RHash (deref_opt h p))
  | spec.Get k => (h, spec.RHash (kvtree_get h (Some k)))
  | spec.Extract k => let '(h, r) := kvtree_extract h (Some k) in (h, spec.RHash r)
  | spec.Unset k => let '(h, rc) := kvtree_unset h (Some k) in (h, spec.RCode rc)
  | spec.UnsetAll => let '(h, rc) := kvtree_unset_all h in (h, spec.RCode rc)
  | spec.Size => (h, spec.RCode (kvtree_size h))
  end.

Fixpoint calls (h : option kvtree) (os : list spec.op) : option kvtree * list spec.res :=
  match os with
  | [] => (h, [])
  | o :: os =>
      let '(h, r) := call h o in
      let '(h, rs) := calls h os in (h, r :: rs)
  end.

(** The map of a level. *)
Definition elem_pair (e : kvtree_elem) : cstring * option kvtree := (default [] (key e), hash e).

Definition abs (t : kvtree) : gmap cstring (option kvtree) :=
  list_to_map (elem_pair <$> lh_first t).

Lemma elem_pair_keys l :
  Forall wf_elem l -> Some <$> (elem_pair <$> l).*1 = map key l.
Proof.
  induction 1 as [|e l He Hl IH]; [done|]. simpl. rewrite <- IH. f_equal.
  destruct e as [[k|] h]; [done|]. inversion He.
Qed.

Lemma NoDup_pairs t : wf t -> NoDup (elem_pair <$> lh_first t).*1.
Proof.
  intros [Hnd Hl]%wf_iff. rewrite <- elem_pair_keys in Hnd by done.
  by apply NoDup_fmap_1 in Hnd.
Qed.

Lemma abs_lookup t k : wf t -> abs t !! c_str k = child t k.
Proof.
  intros Hwf. apply option_eq_Some_iff. intros h. unfold abs.
  rewrite <- elem_of_list_to_map by (by apply NoDup_pairs).
  rewrite child_elem, list_elem_of_fmap by done. split.
  - intros ([[k'|] h'] & E & He); unfold elem_pair in E; simpl in E.
    + injection E as -> ->. done.
    + apply wf_elem_in in He; [|done]. inversion He.
  - intros He. by exists (Elem (Some (c_str k)) h).
Qed.

(** A key of the map is a C string. *)
Lemma abs_keys t k h : wf t -> abs t !! k = Some h -> c_str k = k.
Proof.
  intros Hwf. unfold abs. rewrite <- elem_of_list_to_map by (by apply NoDup_pairs).
  rewrite list_elem_of_fmap. intros (e & E & He). apply wf_elem_in in He; [|done].
  apply c_str_id. unfold elem_pair in E. destruct He; simpl in E; congruence.
Qed.

(** Two descriptions of [abs t] by [child] agree. *)
Lemma abs_eq (t : kvtree) (m : gmap cstring (option kvtree)) :
  wf t -> (forall k h, m !! k = Some h -> c_str k = k) ->
  (forall k, child t k = m !! c_str k) -> abs t = m.
Proof.
  intros Hwf Hm Hc. apply map_eq. intros k.
  destruct (decide (c_str k = k)) as [E|E].
  - rewrite <- E at 1. by rewrite abs_lookup, Hc, E.
  - transitivity (@None (option kvtree)); [|symmetry]; apply eq_None_not_Some.
    + intros [h H%abs_keys]; done.
    + intros [h H%Hm]; done.
Qed.

(** ** Size *)
Lemma size_loop_length l n :
  0 <= n -> n + Z.of_nat (length l) <= INT_MAX -> size_loop l n = n + Z.of_nat (length l).
Proof.
  revert n. induction l as [|e l IH]; intros n Hn Hl; simpl in *; [lia|].
  rewrite i32_id by int_lia. rewrite IH by lia. lia.
Qed.

Lemma size_spec t :
  Z.of_nat (length (lh_first t)) <= INT_MAX ->
  kvtree_size (Some t) = Z.of_nat (length (lh_first t)).
Proof. intros H. unfold kvtree_size. rewrite size_loop_length; lia. Qed.

Lemma abs_size t : wf t -> base.size (abs t) = length (lh_first t).
Proof.
  intros Hwf. unfold abs. rewrite map_size_list_to_map by (by apply NoDup_pairs).
  by rewrite length_fmap.
Qed.

(** ** Removing everything *)
Lemma unset_all_loop_nil l : unset_all_loop l (KVTree l) = kvtree_new.
Proof.
  induction l as [|e l IH]; [done|]. simpl. unfold list_remove. simpl.
  by rewrite Nat.sub_diag.
Qed.

Lemma unset_all_spec t : kvtree_unset_all (Some t) = (Some kvtree_new, KVTREE_SUCCESS).
Proof. destruct t as [l]. unfold kvtree_unset_all. simpl. by rewrite unset_all_loop_nil. Qed.

(** ** One call *)
Lemma abs_without t k : wf t -> abs (KVTree (without k t)) = delete (c_str k) (abs t).
Proof.
  intros Hwf. apply abs_eq; [auto with kvtree| |].
  - intros k' h [_ H]%lookup_delete_Some. by eapply abs_keys.
  - intros k'. rewrite child_without by done. case_decide as E.
    + by rewrite E, lookup_delete_eq.
    + by rewrite lookup_delete_ne, abs_lookup.
Qed.

Lemma abs_insert t k v :
  wf t -> wf_opt v -> abs (insert_child k v t) = <[c_str k := v]> (abs t).
Proof.
  intros Hwf Hv. apply abs_eq; [auto with kvtree| |].
  - intros k' h. rewrite lookup_insert_Some.
    intros [[<- _]|[_ H]]; [apply c_str_idem|by eapply abs_keys].
  - intros k'. rewrite child_insert_child by done. case_decide as E.
    + by rewrite E, lookup_insert_eq.
    + by rewrite lookup_insert_ne, abs_lookup.
Qed.

Lemma without_length t k : (length (without k t) <= length (lh_first t))%nat.
Proof. apply length_filter. Qed.

Lemma call_step t o :
  wf t -> spec.op_ok o -> Z.of_nat (length (lh_first t)) <= INT_MAX ->
  exists t', call (Some t) o = (Some t', (spec.step (abs t) o).2) /\ wf t' /\
             abs t' = (spec.step (abs t) o).1 /\
             (length (lh_first t') <= S (length (lh_first t)))%nat.
Proof.
  intros Hwf Hok Hlen. destruct o as [k v|k|k|k| |]; simpl in Hok; cbn [call spec.step fst snd].
  - exists (insert_child k v t). rewrite set_spec by done.
    assert (wf (insert_child k v t)) as Hwf' by auto with kvtree.
    pose proof (without_length t k) as Hl. split_and!.
    + f_equal. f_equal. destruct v as [v|]; [|done]. unfold deref_opt. cbn [kvtree_deref].
      rewrite child_get, child_insert_child by done. by rewrite decide_True.
    + done.
    + by apply abs_insert.
    + simpl. lia.
  - exists t. rewrite child_get, abs_lookup by done. split_and!; auto.
  - exists (KVTree (without k t)). rewrite kvtree_extract_spec, abs_lookup by done.
    pose proof (without_length t k) as Hl.
    split_and!; [done|auto with kvtree|by apply abs_without|simpl; lia].
  - exists (KVTree (without k t)). rewrite unset_spec by done.
    pose proof (without_length t k) as Hl.
    split_and!; [done|auto with kvtree|by apply abs_without|simpl; lia].
  - exists kvtree_new. rewrite unset_all_spec.
    split_and!; [done|apply wf_new|done|simpl; lia].
  - exists t. rewrite size_spec, abs_size by done. split_and!; auto.
Qed.

(** C1. Starting from any well-formed level, every sequence of set, get,
    extract, unset, unset-all and size calls returns exactly what the finite
    map of that level would, and leaves a well-formed tree whose map is the
    map's final state, as long as the number of elements fits an [int]. *)
Theorem kvtree_refines_map t os :
  wf t -> Forall spec.op_ok os ->
  Z.of_nat (length (lh_first t)) + Z.of_nat (length os) <= INT_MAX ->
  exists t', calls (Some t) os = (Some t', (spec.steps (abs t) os).2) /\
             wf t' /\ abs t' = (spec.steps (abs t) os).1.
Proof.
  intros Hwf Hos. revert t Hwf. induction Hos as [|o os Ho Hos IH]; intros t Hwf Hlen.
  - by exists t.
  - simpl in Hlen. destruct (call_step t o Hwf Ho) as (t1 & E & Hwf1 & Ha & Hl); [lia|].
    destruct (IH t1 Hwf1) as (t' & E' & Hwf' & Ha'); [lia|].
    exists t'. cbn [calls spec.steps]. rewrite E, E', Ha', Ha.
    destruct (spec.step (abs t) o) as [m r]. cbn [fst snd].
    by destruct (spec.steps m os).
Qed.

Definition sample_calls : list spec.op :=
  [spec.Set_ (str "A") None; spec.Set_ (str "B") (Some kvtree_new); spec.Set_ (str "A") None;
   spec.Size; spec.Get (str "B"); spec.Extract (str "A"); spec.Unset (str "C"); spec.UnsetAll].

Lemma kvtree_refines_map_witness :
  exists t', calls (Some kvtree_new) sample_calls
             = (Some t', (spec.steps (abs kvtree_new) sample_calls).2) /\
             wf t' /\ abs t' = (spec.steps (abs kvtree_new) sample_calls).1.
Proof.
  apply kvtree_refines_map.
  - apply wf_new.
  - repeat constructor.
  - vm_compute. discriminate.
Defined.
