(* ===== verification/KvtreeMerge.v ===== *)
(** Laws of the operations that work on several levels of a kvtree: merge is a
    union of paths, and the key/value shortcuts behave as a set of pairs. *)

From S2P Require Import Prelude CLib Kvtree KvtreeSpec KvtreeMap.

(** ** Equivalence of trees: the same paths

    It does not see the order of the elements nor the difference between a NULL
    and an empty hash. *)
#[export] Instance kvtree_equiv : Equiv kvtree :=
  fun t1 t2 => forall p, has_path t1 p = has_path t2 p.

#[export] Instance kvtree_equivalence : Equivalence (≡@{kvtree}).
Proof.
  split.
  - by intros t p.
  - by intros t1 t2 H p.
  - intros t1 t2 t3 H1 H2 p. by rewrite (H1 p).
Qed.

#[export] Instance has_path_proper : Proper ((≡) ==> (=) ==> (=)) has_path.
Proof. by intros t1 t2 Ht p _ <-. Qed.

(** ** Merge *)
Definition merged (t1 t2 : kvtree) : kvtree :=
  default t1 (kvtree_merge (Some t1) (Some t2)).1.

Lemma merged_path t1 t2 p :
  wf t1 -> has_path (merged t1 t2) p = has_path t1 p || has_path t2 p.
Proof. intros Hwf. unfold merged. by destruct (merge_spec t2 t1 Hwf) as (t & -> & _ & ->). Qed.

Lemma merged_wf t1 t2 : wf t1 -> wf (merged t1 t2).
Proof. intros Hwf. unfold merged. by destruct (merge_spec t2 t1 Hwf) as (t & -> & ? & _). Qed.

#[export] Hint Resolve merged_wf : kvtree.

(** The C call on a tree and on a tree or [NULL]. *)
Lemma merge_merged t1 o :
  wf t1 -> exists rc, kvtree_merge (Some t1) o = (Some (merged t1 (default kvtree_new o)), rc).
Proof.
  intros Hwf. unfold merged. destruct (merge_spec (default kvtree_new o) t1 Hwf) as (t & E & _).
  rewrite E. destruct o as [t2|]; cbn [default] in *; [by eexists|].
  destruct t1 as [l]. injection E as <-. by eexists.
Qed.
#[export] Hint Rewrite merged_path using auto with kvtree : kvtree.

(** Both sides of a path equation by the merges they are made of. *)
Ltac path_solver :=
  intros; autorewrite with kvtree; repeat match goal with |- context [has_path ?t ?p] =>
    destruct (has_path t p) end; done.

(** C7. Merging any tree into a well-formed one leaves a well-formed tree that
    has exactly the paths of both; the call returns success unless the second
    tree has an element with a NULL key somewhere, and then it still merges
    every other element. *)
Theorem merge_union t1 t2 :
  wf t1 ->
  exists t, kvtree_merge (Some t1) (Some t2)
              = (Some t, if keys_ok t2 then KVTREE_SUCCESS else KVTREE_FAILURE) /\
            wf t /\ forall p, has_path t p = has_path t1 p || has_path t2 p.
Proof. apply merge_spec. Qed.

Definition sample_tree (k v : string) (t : kvtree) : kvtree :=
  KVTree [Elem (Some (str k)) (Some (KVTree [Elem (Some (str v)) (Some t)]))].

Lemma merge_union_witness :
  wf (sample_tree "A" "1" kvtree_new) /\
  exists t, kvtree_merge (Some (sample_tree "A" "1" kvtree_new)) (Some (KVTree [Elem None None]))
              = (Some t, KVTREE_FAILURE) /\
            wf t /\ forall p, has_path t p = has_path (sample_tree "A" "1" kvtree_new) p
                                             || has_path (KVTree [Elem None None]) p.
Proof.
  assert (wf (sample_tree "A" "1" kvtree_new)) as Hwf by wf_check.
  split; [exact Hwf|].
  exact (merge_union (sample_tree "A" "1" kvtree_new) (KVTree [Elem None None]) Hwf).
Defined.

(** C25. Up to the order of elements, merging is an idempotent, commutative and
    associative operation on well-formed trees, whose unit is the new tree, and
    it is compatible with equivalence. *)
Theorem merge_semilattice t1 t2 t3 :
  wf t1 -> wf t2 -> wf t3 ->
  merged t1 t1 ≡ t1 /\ merged t1 t2 ≡ merged t2 t1 /\
  merged (merged t1 t2) t3 ≡ merged t1 (merged t2 t3) /\
  merged t1 kvtree_new ≡ t1 /\ merged kvtree_new t1 ≡ t1 /\
  (t2 ≡ t3 -> merged t1 t2 ≡ merged t1 t3).
Proof.
  pose proof wf_new. intros H1 H2 H3. split_and!; try (intros p; path_solver).
  - intros p. autorewrite with kvtree. destruct p; simpl; by rewrite ?orb_false_r.
  - intros p. autorewrite with kvtree. by destruct p; destruct t1.
  - intros E p. autorewrite with kvtree. by rewrite (E p).
Qed.

Lemma merge_semilattice_witness :
  let a := sample_tree "A" "1" kvtree_new in
  let b := sample_tree "A" "2" kvtree_new in
  let c := sample_tree "B" "1" a in
  merged a a ≡ a /\ merged a b ≡ merged b a /\
  merged (merged a b) c ≡ merged a (merged b c) /\
  merged a kvtree_new ≡ a /\ merged kvtree_new a ≡ a /\
  (b ≡ c -> merged a b ≡ merged a c).
Proof. apply merge_semilattice; wf_check. Defined.

(** ** Key/value pairs *)
Definition pair_tree (k v : cstring) : kvtree :=
  KVTree [Elem (Some k) (Some (KVTree [Elem (Some v) (Some kvtree_new)]))].

Lemma has_path_insert_child t k h p :
  wf t -> wf_opt h -> child t k = None \/ mjoin (child t k) = None /\ h = Some kvtree_new ->
  has_path (insert_child k h t) p = has_path t p || has_path (KVTree [Elem (Some k) h]) p.
Proof.
  intros Hwf Hh Hc. destruct p as [|k' p]; [done|].
  rewrite has_path_elem, !has_path_child, child_insert_child by auto with kvtree.
  unfold elem_matches. simpl. rewrite strcmp_eq0, orb_false_r.
  case_decide as E; [rewrite bool_decide_true by done|rewrite bool_decide_false by done]; simpl.
  - rewrite <- (child_proper t k k' E). destruct Hc as [->|[Hc ->]]; [done|].
    destruct (child t k) as [[c|]|]; simpl in Hc; [done| |done]. simpl.
    rewrite has_path_new. by destruct p.
  - by rewrite orb_false_r.
Qed.

(** [get_or_new] adds exactly the one-key path. *)
Lemma get_or_new_path t k p :
  wf t ->
  has_path (ensure_child k t) p
    = has_path t p || has_path (KVTree [Elem (Some k) (Some kvtree_new)]) p.
Proof.
  intros Hwf. unfold ensure_child. rewrite child_get.
  destruct (mjoin (child t k)) as [c|] eqn:Hc.
  - destruct p as [|k' p]; [done|]. rewrite has_path_elem, has_path_child by done.
    unfold elem_matches. simpl. rewrite strcmp_eq0, orb_false_r.
    case_bool_decide as E; simpl; [|by rewrite orb_false_r].
    rewrite <- (child_proper t k k' E). destruct (child t k) as [h|]; simpl in Hc; [|done].
    subst h. simpl. rewrite has_path_new. destruct p; [|by rewrite orb_false_r]. by rewrite orb_true_r.
  - apply has_path_insert_child; auto with kvtree.
Qed.

(** What [kvtree_set_kv] does to a well-formed tree. *)
Lemma set_kv_spec t k v :
  wf t ->
  exists t', kvtree_set_kv (Some t) (Some k) (Some v) = (Some t', Some [k; v]) /\ wf t' /\
    forall k', child t' k' =
      if decide (c_str k = c_str k')
      then Some (Some (ensure_child v (default kvtree_new (kvtree_get (Some t) (Some k)))))
      else child t k'.
Proof.
  intros Hwf. set (c0 := default kvtree_new (kvtree_get (Some t) (Some k))).
  assert (wf c0) as Hc0.
  { unfold c0. destruct (kvtree_get _ _) eqn:Hg; simpl; eauto using wf_get with kvtree. }
  destruct (get_or_new_spec c0 v Hc0) as (E & Hwf' & _ & _).
  destruct (update_child t k (fun h => get_or_new h (Some v)) _ _ Hwf Hwf' E)
    as (t' & E' & Ht' & Hch).
  exists t'. split; [|done]. unfold kvtree_set_kv.
  fold (get_or_new (Some t) (Some k)).
  destruct (get_or_new_spec t k Hwf) as (E1 & _). rewrite E1 in E' |- *.
  unfold get_or_new in E'. by rewrite E'.
Qed.

(** What [kvtree_unset_kv] does: the pair goes, and the key with its last
    value. *)
Definition unset_kv_child (v : cstring) (h : option (option kvtree)) : option (option kvtree) :=
  match mjoin h with
  | None => None
  | Some c => match without v c with [] => None | _ => Some (Some (KVTree (without v c))) end
  end.

Definition narrow (t : kvtree) : Prop :=
  forall k c, kvtree_get (Some t) (Some k) = Some c ->
              Z.of_nat (length (lh_first c)) <= INT_MAX.

Lemma size_zero t :
  Z.of_nat (length (lh_first t)) <= INT_MAX ->
  (kvtree_size (Some t) =? 0) = match lh_first t with [] => true | _ => false end.
Proof.
  intros H. rewrite size_spec by done. by destruct (lh_first t).
Qed.

Lemma unset_kv_spec t k v :
  wf t -> narrow t ->
  exists t', kvtree_unset_kv (Some t) (Some k) (Some v) = (Some t', KVTREE_SUCCESS) /\ wf t' /\
    forall k', child t' k' =
      if decide (c_str k = c_str k') then unset_kv_child v (child t k) else child t k'.
Proof.
  intros Hwf Hn. unfold kvtree_unset_kv, get_ptr.
  destruct (kvtree_get (Some t) (Some k)) as [c|] eqn:Hg.
  - pose proof (wf_get _ _ _ Hwf Hg) as Hc. pose proof (Hn _ _ Hg) as Hlen.
    pose proof (without_length c v) as Hl.
    rewrite (at_ptr_child _ _ c _ (KVTree (without v c))
               (KVTREE_SUCCESS, kvtree_size (Some (KVTree (without v c)))));
      [|done|by rewrite unset_spec].
    rewrite size_zero by (simpl; lia). rewrite child_get in Hg.
    assert (is_Some (child t k)) as Hs by (destruct (child t k); done).
    assert (wf (put_child k (KVTree (without v c)) t)) as Hwf'
      by (apply wf_put_child; auto with kvtree).
    unfold unset_kv_child. rewrite Hg. simpl lh_first.
    destruct (without v c) as [|e l] eqn:Hw.
    + rewrite unset_spec by done. eexists. split; [done|]. split; [auto with kvtree|].
      intros k'. rewrite child_without, child_put_child by done. by case_decide.
    + eexists. split; [done|]. split; [done|]. intros k'. by rewrite child_put_child.
  - change (at_ptr (Some t) None _) with (Some t, (KVTREE_SUCCESS, 0)).
    cbv beta iota. rewrite Z.eqb_refl, unset_spec by done.
    eexists. split; [done|]. split; [auto with kvtree|].
    intros k'. rewrite child_without by done. rewrite child_get in Hg.
    unfold unset_kv_child. by rewrite Hg.
Qed.

Lemma get_kv_child t k v :
  kvtree_get_kv (Some t) (Some k) (Some v)
    = match mjoin (child t k) with Some c => mjoin (child c v) | None => None end.
Proof.
  unfold kvtree_get_kv. rewrite child_get. destruct (mjoin (child t k)) as [c|]; [|done].
  rewrite child_get. by destruct (mjoin (child c v)).
Qed.

(** C19. The key/value calls treat a well-formed tree as a map of pairs: setting
    a pair returns the pointer to its hash, which is the hash the pair had or a
    new one, and no other pair changes; unsetting a pair succeeds, removes that
    pair only, and removes the key when no value is left; asking for a pair that
    was unset gives NULL.  (Every level fits an [int].) *)
Theorem kv_pairs t k v :
  wf t -> narrow t ->
  (exists t', kvtree_set_kv (Some t) (Some k) (Some v) = (Some t', Some [k; v]) /\ wf t' /\
     kvtree_get_kv (Some t') (Some k) (Some v)
       = Some (default kvtree_new (kvtree_get_kv (Some t) (Some k) (Some v))) /\
     forall k2 v2, (c_str k, c_str v) <> (c_str k2, c_str v2) ->
       kvtree_get_kv (Some t') (Some k2) (Some v2) = kvtree_get_kv (Some t) (Some k2) (Some v2)) /\
  (exists t', kvtree_unset_kv (Some t) (Some k) (Some v) = (Some t', KVTREE_SUCCESS) /\ wf t' /\
     kvtree_get_kv (Some t') (Some k) (Some v) = None /\
     (forall k2 v2, (c_str k, c_str v) <> (c_str k2, c_str v2) ->
       kvtree_get_kv (Some t') (Some k2) (Some v2) = kvtree_get_kv (Some t) (Some k2) (Some v2)) /\
     forall c, kvtree_get (Some t') (Some k) = Some c -> lh_first c <> []).
Proof.
  intros Hwf Hn. split.
  - destruct (set_kv_spec t k v Hwf) as (t' & E & Hwf' & Hch). exists t'.
    set (c0 := default kvtree_new (kvtree_get (Some t) (Some k))) in *.
    assert (wf c0) as Hc0.
    { unfold c0. destruct (kvtree_get _ _) eqn:Hg; simpl; eauto using wf_get with kvtree. }
    destruct (get_or_new_spec c0 v Hc0) as (_ & _ & Hgv & Hcv).
    assert (forall v2, mjoin (child c0 v2)
        = match mjoin (child t k) with Some c => mjoin (child c v2) | None => None end) as Hc.
    { intros v2. unfold c0. rewrite child_get. by destruct (mjoin (child t k)). }
    split_and!; [done|done| |].
    + rewrite !get_kv_child, <- Hc, Hch, decide_True by done.
      rewrite !child_get in Hgv. exact Hgv.
    + intros k2 v2 Hne. rewrite !get_kv_child, Hch. case_decide as Ek; [|done]. simpl.
      rewrite Hcv, Hc by congruence. by rewrite (child_proper t k k2 Ek).
  - destruct (unset_kv_spec t k v Hwf Hn) as (t' & E & Hwf' & Hch). exists t'.
    assert (forall v2, (match mjoin (unset_kv_child v (child t k)) with
         | Some c => mjoin (child c v2) | None => None end)
      = if decide (c_str v = c_str v2) then None
        else match mjoin (child t k) with Some c => mjoin (child c v2) | None => None end) as Hc.
    { intros v2. unfold unset_kv_child.
      destruct (mjoin (child t k)) as [c|] eqn:Hg; simpl; [|by case_decide].
      rewrite <- child_get in Hg. pose proof (child_without c v v2 (wf_get _ _ _ Hwf Hg)) as Hw.
      destruct (without v c) as [|e l]; simpl; [|rewrite Hw; by case_decide].
      case_decide; [done|]. unfold child at 1 in Hw. simpl in Hw. by rewrite <- Hw. }
    split_and!; [done|done| | |].
    + by rewrite get_kv_child, Hch, decide_True, Hc, decide_True by done.
    + intros k2 v2 Hne. rewrite !get_kv_child, Hch. case_decide as Ek; [|done].
      rewrite Hc, decide_False by congruence. by rewrite (child_proper t k k2 Ek).
    + intros c. rewrite child_get, Hch, decide_True by done. unfold unset_kv_child.
      destruct (mjoin (child t k)) as [c1|]; [|done].
      destruct (without v c1); [done|]. by intros [= <-].
Qed.

Lemma narrow_forallb t :
  wf t ->
  forallb (fun e => match hash e with
                    | Some c => Z.of_nat (length (lh_first c)) <=? INT_MAX
                    | None => true
                    end) (lh_first t) = true -> narrow t.
Proof.
  intros Hwf H k c. rewrite child_get. destruct (child t k) as [h|] eqn:Hc; [|done].
  simpl. intros ->. apply child_elem in Hc; [|done].
  rewrite forallb_forall in H. apply list_elem_of_In, H in Hc. simpl in Hc. lia.
Qed.

Lemma kv_pairs_witness :
  let t := sample_tree "A" "1" kvtree_new in
  (exists t', kvtree_set_kv (Some t) (Some (str "A")) (Some (str "2"))
                = (Some t', Some [str "A"; str "2"]) /\ wf t' /\
     kvtree_get_kv (Some t') (Some (str "A")) (Some (str "2"))
       = Some (default kvtree_new (kvtree_get_kv (Some t) (Some (str "A")) (Some (str "2")))) /\
     forall k2 v2, (c_str (str "A"), c_str (str "2")) <> (c_str k2, c_str v2) ->
       kvtree_get_kv (Some t') (Some k2) (Some v2) = kvtree_get_kv (Some t) (Some k2) (Some v2)) /\
  (exists t', kvtree_unset_kv (Some t) (Some (str "A")) (Some (str "2"))
                = (Some t', KVTREE_SUCCESS) /\ wf t' /\
     kvtree_get_kv (Some t') (Some (str "A")) (Some (str "2")) = None /\
     (forall k2 v2, (c_str (str "A"), c_str (str "2")) <> (c_str k2, c_str v2) ->
       kvtree_get_kv (Some t') (Some k2) (Some v2) = kvtree_get_kv (Some t) (Some k2) (Some v2)) /\
     forall c, kvtree_get (Some t') (Some (str "A")) = Some c -> lh_first c <> []).
Proof.
  apply kv_pairs; [wf_check|]. apply narrow_forallb; [wf_check|]. vm_compute. reflexivity.
Defined.
