(* ===== verification/Pack.v ===== *)
(** Packing a kvtree into a buffer and unpacking it: [kvtree_pack_size],
    [kvtree_pack] and [kvtree_unpack] of [src/src/kvtree.c].

    The wire format of a hash is the number of its elements as a big-endian
    [uint32_t], then each element as its key, a NUL and the format of its hash;
    a NULL hash is written as an empty one.  A [char*] into a buffer is the
    buffer with an offset.

    Packed sizes are natural numbers: a [size_t] cannot wrap here, because an
    element takes more bytes in memory (its struct and its copy of the key) than
    in the buffer.  The [uint32_t] count and the [int] index of [kvtree_unpack]
    do wrap and overflow as in C. *)

From S2P Require Import Prelude CLib ByteOrder Kvtree KvtreeSpec KvtreeMap KvtreeMerge.

(** ** Size *)
Fixpoint tree_pack_size (hash : kvtree) : nat :=
  match hash with
  | KVTree l =>
      (fix loop (elem : cursor) (size : nat) : nat :=
         match elem with
         | [] => size
         | e :: next => loop next (size + tree_elem_pack_size e)%nat
         end) l 4%nat
  end
with tree_elem_pack_size (elem : kvtree_elem) : nat :=
  match elem with
  | Elem key hash =>
      (match key with Some k => strlen k + 1 | None => 1 end
       + match hash with Some h => tree_pack_size h | None => 4 end)%nat
  end.

Definition kvtree_pack_size (hash : option kvtree) : nat :=
  match hash with Some t => tree_pack_size t | None => 4 end.

Definition kvtree_elem_pack_size (elem : option kvtree_elem) : nat :=
  match elem with
  | Some e => tree_elem_pack_size e
  | None => 1 + kvtree_pack_size None
  end.

Section pack.
Context `{Host}.

(** ** Pack *)
Definition pack_count (count : Z) : list byte := mem_of 4 (kvtree_hton32 count).

Fixpoint count_loop (elem : cursor) (count : Z) : Z :=
  match elem with
  | [] => count
  | _ :: next => count_loop next (u32 (count + 1))
  end.

Fixpoint tree_pack (buf : list byte) (pos : nat) (hash : kvtree) {struct hash}
    : outcome (list byte * nat) :=
  match hash with
  | KVTree l =>
      let count := count_loop l 0 in
      let* buf := mem_write buf pos (pack_count count) in
      (fix loop (elem : cursor) (buf : list byte) (size : nat) : outcome (list byte * nat) :=
         match elem with
         | [] => Ok (buf, size)
         | e :: next =>
             let* (buf, n) := tree_elem_pack buf (pos + size) e in
             loop next buf (size + n)%nat
         end) l buf 4%nat
  end
with tree_elem_pack (buf : list byte) (pos : nat) (elem : kvtree_elem) {struct elem}
    : outcome (list byte * nat) :=
  match elem with
  | Elem key hash =>
      let* (buf, size) :=
        match key with
        | Some k =>
            let* buf := mem_write buf pos (c_str k ++ [NUL]) in Ok (buf, strlen k + 1)%nat
        | None => let* buf := mem_write buf pos [NUL] in Ok (buf, 1)%nat
        end in
      let* (buf, n) :=
        match hash with
        | Some h => tree_pack buf (pos + size) h
        | None => let* buf := mem_write buf (pos + size) (pack_count 0) in Ok (buf, 4%nat)
        end in
      Ok (buf, size + n)%nat
  end.

Definition kvtree_pack (buf : list byte) (pos : nat) (hash : option kvtree)
    : outcome (list byte * nat) :=
  match hash with
  | Some t => tree_pack buf pos t
  | None => let* buf := mem_write buf pos (pack_count 0) in Ok (buf, 4%nat)
  end.

Definition kvtree_elem_pack (buf : list byte) (pos : nat) (elem : option kvtree_elem)
    : outcome (list byte * nat) :=
  match elem with
  | Some e => tree_elem_pack buf pos e
  | None =>
      let* buf := mem_write buf pos [NUL] in
      let* (buf, n) := kvtree_pack buf (pos + 1) None in
      Ok (buf, 1 + n)%nat
  end.

(** ** Unpack

    The fuel bounds the iterations and the depth of the calls: each takes at
    least one byte of the buffer, so the length of the buffer is enough
    ([unpack_fuel]). *)
Definition unpack_count (buf : list byte) (pos : nat) : outcome Z :=
  let* count_network := mem_read buf pos 4 in
  Ok (kvtree_ntoh32 (mem_to count_network)).

Fixpoint tree_unpack (fuel : nat) (buf : list byte) (pos : nat) (hash : kvtree)
    : outcome (nat * kvtree) :=
  match fuel with
  | O => NoFuel
  | S fuel =>
      let* count := unpack_count buf pos in
      unpack_loop fuel buf pos count 0 4 hash
  end
with unpack_loop (fuel : nat) (buf : list byte) (pos : nat) (count i : Z) (size : nat)
    (hash : kvtree) : outcome (nat * kvtree) :=
  match fuel with
  | O => NoFuel
  | S fuel =>
      if u32 i <? count then
        let* (n, elem) := tree_elem_unpack fuel buf (pos + size) kvtree_elem_new in
        let hash := list_insert_head hash elem in
        if i =? INT_MAX then Undef
        else unpack_loop fuel buf pos count (i + 1) (size + n)%nat hash
      else Ok (size, hash)
  end
with tree_elem_unpack (fuel : nat) (buf : list byte) (pos : nat) (elem : kvtree_elem)
    : outcome (nat * kvtree_elem) :=
  match fuel with
  | O => NoFuel
  | S fuel =>
      let* key := mem_cstr buf pos in
      let size := (strlen key + 1)%nat in
      let* (n, hash) := tree_unpack fuel buf (pos + size) kvtree_new in
      match kvtree_elem_init (Some elem) (Some key) (Some hash) with
      | Some elem => Ok (size + n, elem)%nat
      | None => Undef
      end
  end.

Definition unpack_fuel (buf : list byte) : nat := S (length buf).

Definition kvtree_unpack (buf : list byte) (pos : nat) (hash : option kvtree)
    : outcome (nat * option kvtree) :=
  match hash with
  | None => Ok (0%nat, None)
  | Some t => let* (n, t) := tree_unpack (unpack_fuel buf) buf pos t in Ok (n, Some t)
  end.

Definition kvtree_elem_unpack (buf : list byte) (pos : nat) (elem : option kvtree_elem)
    : outcome (nat * option kvtree_elem) :=
  match elem with
  | None => Ok (0%nat, None)
  | Some e =>
      let* (n, e) := tree_elem_unpack (unpack_fuel buf) buf pos e in Ok (n, Some e)
  end.

End pack.

(** ** The wire format *)
Fixpoint encode (t : kvtree) : list byte :=
  match t with
  | KVTree l => be_split 4 (Z.of_nat (length l)) ++ concat (map encode_elem l)
  end
with encode_elem (e : kvtree_elem) : list byte :=
  match e with
  | Elem key hash =>
      (c_str (default [] key) ++ [NUL]) ++
      match hash with Some h => encode h | None => be_split 4 0 end
  end.

Definition encode_opt (h : option kvtree) : list byte :=
  match h with Some t => encode t | None => be_split 4 0 end.

Lemma encode_elem_eq k h :
  encode_elem (Elem k h) = (c_str (default [] k) ++ [NUL]) ++ encode_opt h.
Proof. done. Qed.

Lemma encode_eq l :
  encode (KVTree l) = be_split 4 (Z.of_nat (length l)) ++ concat (map encode_elem l).
Proof. done. Qed.

(** The loops of the code, by name. *)
Definition pack_size_loop : cursor -> nat -> nat :=
  fix loop (elem : cursor) (size : nat) : nat :=
    match elem with
    | [] => size
    | e :: next => loop next (size + tree_elem_pack_size e)%nat
    end.

Lemma tree_pack_size_eq l : tree_pack_size (KVTree l) = pack_size_loop l 4.
Proof. done. Qed.

Lemma tree_pack_size_encode t : tree_pack_size t = length (encode t).
Proof.
  induction t as [l IH] using kvtree_rect'. rewrite tree_pack_size_eq.
  rewrite encode_eq, length_app, be_split_length. generalize 4%nat.
  induction IH as [|[k h] l He _ IHl]; intros n; simpl; [lia|].
  rewrite IHl, !length_app. unfold strlen.
  destruct k, h; simpl in *; rewrite ?He, ?be_split_length; lia.
Qed.

Lemma pack_size_encode h : kvtree_pack_size h = length (encode_opt h).
Proof. destruct h; [apply tree_pack_size_encode|]. symmetry. apply be_split_length. Qed.

(** What unpacking gives back: the elements of each level in the opposite
    order, an empty key for a NULL one and an empty hash for a NULL one. *)
Fixpoint unpacked (t : kvtree) : kvtree :=
  match t with
  | KVTree l =>
      KVTree (rev (map (fun e => match e with
                                 | Elem k (Some h) => Elem (Some (c_str (default [] k))) (Some (unpacked h))
                                 | Elem k None => Elem (Some (c_str (default [] k))) (Some kvtree_new)
                                 end) l))
  end.

Definition unpacked_opt (h : option kvtree) : kvtree :=
  match h with Some t => unpacked t | None => kvtree_new end.

Definition unpacked_elem (e : kvtree_elem) : kvtree_elem :=
  Elem (Some (c_str (default [] (key e)))) (Some (unpacked_opt (hash e))).

Lemma unpacked_eq l : unpacked (KVTree l) = KVTree (rev (map unpacked_elem l)).
Proof. simpl. do 2 f_equal. apply map_ext. by intros [k [h|]]. Qed.

(** No level has more elements than an [int] can count. *)
Fixpoint small (t : kvtree) : bool :=
  match t with
  | KVTree l =>
      (Z.of_nat (length l) <=? INT_MAX) &&
      forallb (fun e => match e with Elem _ (Some h) => small h | Elem _ None => true end) l
  end.

Definition small_opt (h : option kvtree) : bool :=
  match h with Some t => small t | None => true end.

Lemma small_eq l :
  small (KVTree l) = (Z.of_nat (length l) <=? INT_MAX) && forallb (fun e => small_opt (hash e)) l.
Proof. simpl. f_equal. induction l as [|[k [h|]] l IH]; simpl; congruence. Qed.

Section correctness.
Context `{Host}.

Definition pack_loop (pos : nat) : cursor -> list byte -> nat -> outcome (list byte * nat) :=
  fix loop (elem : cursor) (buf : list byte) (size : nat) : outcome (list byte * nat) :=
    match elem with
    | [] => Ok (buf, size)
    | e :: next =>
        let* (buf, n) := tree_elem_pack buf (pos + size) e in
        loop next buf (size + n)%nat
    end.

Lemma tree_pack_eq buf pos l :
  tree_pack buf pos (KVTree l)
    = let* buf := mem_write buf pos (pack_count (count_loop l 0)) in pack_loop pos l buf 4.
Proof. done. Qed.

Lemma count_loop_length l n : is_u32 n -> count_loop l n = u32 (n + Z.of_nat (length l)).
Proof.
  revert n. induction l as [|e l IH]; intros n Hn; simpl count_loop; simpl length.
  - rewrite u32_id; int_lia.
  - rewrite IH by apply u32_range. int_lia.
Qed.

Lemma pack_count_level l :
  pack_count (count_loop l 0) = be_split 4 (Z.of_nat (length l)).
Proof.
  unfold pack_count. rewrite hton_bytes, count_loop_length by int_lia.
  apply (be_split_mod 4).
Qed.

Lemma pack_count_0 : pack_count 0 = be_split 4 0.
Proof. unfold pack_count. by rewrite hton_bytes. Qed.

(** [write_all buf pos s]: all the bytes [s] are written at [pos], or the
    access is undefined. *)
Definition write_all (buf : list byte) (pos : nat) (s : list byte) (size : nat)
    : outcome (list byte * nat) :=
  let* b := mem_write buf pos s in Ok (b, size + length s)%nat.

Lemma write_all_app buf pos s1 s2 d :
  (let* b := mem_write buf pos s1 in write_all b (pos + length s1) s2 (d + length s1))
    = write_all buf pos (s1 ++ s2) d.
Proof.
  unfold write_all. rewrite <- mem_write_app, obind_assoc.
  destruct (mem_write buf pos s1); simpl; [|done..].
  by rewrite length_app, Nat.add_assoc.
Qed.

Lemma kvtree_pack_write h :
  match h with Some t => forall buf pos, tree_pack buf pos t = write_all buf pos (encode t) 0
             | None => True end ->
  forall buf pos, kvtree_pack buf pos h = write_all buf pos (encode_opt h) 0.
Proof.
  intros Hh buf pos. destruct h as [t|]; [apply Hh|].
  unfold kvtree_pack, write_all. cbn [encode_opt]. by rewrite pack_count_0, be_split_length.
Qed.

Lemma elem_pack_write e :
  match hash e with Some t => forall buf pos, tree_pack buf pos t = write_all buf pos (encode t) 0
                  | None => True end ->
  forall buf pos, tree_elem_pack buf pos e = write_all buf pos (encode_elem e) 0.
Proof.
  destruct e as [k h]. intros Hh buf pos.
  transitivity (let* b := mem_write buf pos (c_str (default [] k) ++ [NUL]) in
                let* (b, n) := kvtree_pack b (pos + length (c_str (default [] k) ++ [NUL])) h in
                Ok (b, length (c_str (default [] k) ++ [NUL]) + n)%nat).
  - simpl. rewrite length_app. unfold strlen.
    destruct k as [k|]; simpl; destruct (mem_write buf pos _); simpl; by destruct h.
  - rewrite encode_elem_eq, <- write_all_app. destruct (mem_write buf pos _); simpl; [|done..].
    rewrite kvtree_pack_write by done. unfold write_all.
    by destruct (mem_write a _ _).
Qed.

Lemma tree_pack_write t : forall buf pos, tree_pack buf pos t = write_all buf pos (encode t) 0.
Proof.
  induction t as [l IH] using kvtree_rect'. intros buf pos.
  rewrite tree_pack_eq, pack_count_level, encode_eq, <- write_all_app, be_split_length.
  destruct (mem_write buf pos _) as [b| | |] eqn:E; [|done..]. cbn [obind].
  apply mem_write_Ok in E as E'. destruct E' as [_ Hle]. apply mem_write_length in E.
  rewrite be_split_length, <- E in Hle. clear E buf. simpl (0 + 4)%nat.
  revert b Hle. generalize 4%nat. generalize (length l) as len. intros _.
  induction IH as [|e l He _ IHl]; intros size buf Hle.
  - unfold write_all. cbn [concat map pack_loop]. rewrite mem_write_nil by done.
    simpl. by rewrite Nat.add_0_r.
  - cbn [pack_loop concat map].
    rewrite <- write_all_app, (elem_pack_write e He). unfold write_all at 1.
    destruct (mem_write buf (pos + size) _) as [b| | |] eqn:E; [|done..]. cbn [obind].
    apply mem_write_Ok in E as E'. destruct E' as [_ Hle']. apply mem_write_length in E.
    rewrite IHl by lia. by rewrite Nat.add_assoc.
Qed.

(** ** Unpacking what was packed *)
Lemma unpack_count_stream buf pos n rest :
  drop pos buf = be_split 4 n ++ rest -> is_u32 n -> unpack_count buf pos = Ok n.
Proof.
  intros E Hn. unfold unpack_count.
  rewrite <- (be_split_length 4 n) at 1.
  rewrite (mem_read_stream _ _ _ _ E) by (intros Ho; by apply (f_equal length) in Ho).
  cbn [obind]. rewrite ntoh_bytes, be_combine_split by apply be_split_length.
  f_equal. apply Z.mod_small. int_lia.
Qed.

Lemma unpack_elem_stream e fuel buf pos rest :
  (forall fuel buf pos rest,
     drop pos buf = encode_opt (hash e) ++ rest -> (length (encode_opt (hash e)) < fuel)%nat ->
     tree_unpack fuel buf pos kvtree_new
       = Ok (length (encode_opt (hash e)), unpacked_opt (hash e))) ->
  drop pos buf = encode_elem e ++ rest -> (length (encode_elem e) < fuel)%nat ->
  tree_elem_unpack fuel buf pos kvtree_elem_new = Ok (length (encode_elem e), unpacked_elem e).
Proof.
  destruct e as [k h]. simpl hash. rewrite encode_elem_eq. intros Hh E Hf.
  rewrite <- app_assoc in E. destruct fuel as [|fuel]; [lia|].
  rewrite !length_app in *. cbn [tree_elem_unpack length] in *.
  pose proof (drop_stream _ _ _ _ E) as E2. rewrite length_app in E2. cbn [length] in E2.
  rewrite <- app_assoc in E.
  rewrite (mem_cstr_stream _ _ _ _ E) by auto with kvtree. cbn [obind].
  unfold strlen. rewrite c_str_idem, (Hh _ _ _ _ E2) by lia. cbn [obind kvtree_elem_init].
  unfold unpacked_elem, strdup. by rewrite c_str_idem.
Qed.

Lemma encode_elem_pos e : (0 < length (encode_elem e))%nat.
Proof. destruct e. rewrite encode_elem_eq, !length_app. simpl. lia. Qed.

Definition unpacks (t : kvtree) : Prop :=
  forall fuel buf pos rest l0,
  small t = true ->
  drop pos buf = encode t ++ rest -> (length (encode t) < fuel)%nat ->
  tree_unpack fuel buf pos (KVTree l0)
    = Ok (length (encode t), KVTree (lh_first (unpacked t) ++ l0)).

Lemma unpacks_opt h fuel buf pos rest :
  match h with Some t => unpacks t | None => True end -> small_opt h = true ->
  drop pos buf = encode_opt h ++ rest -> (length (encode_opt h) < fuel)%nat ->
  tree_unpack fuel buf pos kvtree_new = Ok (length (encode_opt h), unpacked_opt h).
Proof.
  destruct h as [t|]; intros Hh Hs E Hf.
  - unfold kvtree_new. rewrite (Hh _ _ _ _ _ Hs E Hf). simpl. rewrite app_nil_r.
    by destruct (unpacked t).
  - simpl encode_opt in *. rewrite be_split_length in *.
    destruct fuel as [|[|fuel]]; [lia..|]. cbn [tree_unpack].
    by rewrite (unpack_count_stream _ _ _ _ E) by int_lia.
Qed.

Lemma unpack_loop_stream l :
  Forall (fun e => match hash e with Some t => unpacks t | None => True end) l ->
  forall fuel buf pos i size rest l0,
  0 <= i -> i + Z.of_nat (length l) <= INT_MAX ->
  forallb (fun e => small_opt (hash e)) l = true ->
  drop (pos + size) buf = concat (map encode_elem l) ++ rest ->
  (S (length (concat (map encode_elem l))) < fuel)%nat ->
  unpack_loop fuel buf pos (i + Z.of_nat (length l)) i size (KVTree l0)
    = Ok ((size + length (concat (map encode_elem l)))%nat,
          KVTree (rev (map unpacked_elem l) ++ l0)).
Proof.
  induction 1 as [|e l He _ IH]; intros fuel buf pos i size rest l0 Hi Hlen Hs E Hf;
    (destruct fuel as [|fuel]; [lia|]); cbn [unpack_loop map concat length] in *;
    rewrite (u32_id i) by int_lia.
  - rewrite (proj2 (Z.ltb_ge _ _)) by lia. by rewrite Nat.add_0_r.
  - rewrite (proj2 (Z.ltb_lt _ _)) by lia. simpl forallb in Hs.
    apply andb_true_iff in Hs as [Hse Hs]. rewrite <- app_assoc in E.
    rewrite length_app in Hf. pose proof (encode_elem_pos e).
    erewrite (unpack_elem_stream e fuel buf); [|eauto using unpacks_opt|exact E|lia].
    cbn [obind]. rewrite (proj2 (Z.eqb_neq _ _)) by lia.
    apply drop_stream in E. rewrite <- Nat.add_assoc in E.
    replace (i + Z.of_nat (S (length l))) with (i + 1 + Z.of_nat (length l)) by lia.
    unfold list_insert_head. cbn [lh_first].
    rewrite (IH _ _ _ _ _ rest) by (done || lia).
    cbn [rev]. rewrite length_app, <- app_assoc. f_equal. f_equal. lia.
Qed.

Lemma tree_unpack_stream t : unpacks t.
Proof.
  induction t as [l IH] using kvtree_rect'. intros fuel buf pos rest l0.
  rewrite small_eq, unpacked_eq, encode_eq, length_app, be_split_length, andb_true_iff.
  intros [Hlen%Z.leb_le Hs] E Hf. destruct fuel as [|fuel]; [lia|].
  rewrite <- app_assoc in E. cbn [tree_unpack].
  rewrite (unpack_count_stream _ _ _ _ E) by int_lia. cbn [obind].
  apply drop_stream in E. rewrite be_split_length in E.
  by apply (unpack_loop_stream l IH fuel buf pos 0 4 rest l0); [lia..| | |lia].
Qed.

End correctness.

(** ** Unpacking arbitrary bytes *)

(** The code stops with a result in [P] or at an undefined access, never for
    lack of fuel. *)
Definition stops {A} (P : A -> Prop) (m : outcome A) : Prop :=
  match m with Ok a => P a | Undef => True | _ => False end.

Lemma stops_bind {A B} (P : A -> Prop) (Q : B -> Prop) m (f : A -> outcome B) :
  stops P m -> (forall a, P a -> stops Q (f a)) -> stops Q (obind m f).
Proof. destruct m; simpl; auto. Qed.

Lemma keys_ok_cons k h l :
  keys_ok (KVTree (Elem (Some k) h :: l))
    = match h with Some t => keys_ok t | None => true end && keys_ok (KVTree l).
Proof. simpl. by destruct h. Qed.

Section arbitrary_bytes.
Context `{Host}.
Variable buf : list byte.

Definition unpack_post (pos : nat) (r : nat * kvtree) : Prop :=
  (4 <= r.1)%nat /\ (pos + r.1 <= length buf)%nat /\ keys_ok r.2 = true.

Definition elem_post (pos : nat) (r : nat * kvtree_elem) : Prop :=
  (1 <= r.1)%nat /\ (pos + r.1 <= length buf)%nat /\ keys_ok (KVTree [r.2]) = true.

Lemma mem_cstr_stops pos :
  stops (fun k => pos + length k + 1 <= length buf /\ nul_free k)%nat (mem_cstr buf pos).
Proof.
  unfold mem_cstr. case_decide as E; [|done]. simpl. split; [|apply c_str_nul_free].
  assert (length (c_str (drop pos buf)) < length (drop pos buf))%nat as Hl.
  { induction (drop pos buf) as [|b s IH]; [by apply not_elem_of_nil in E|]. simpl.
    destruct (byte_eqb_spec b NUL); simpl; [lia|]. rewrite elem_of_cons in E.
    assert (NUL ∈ s) as Hs by naive_solver. specialize (IH Hs). lia. }
  rewrite length_drop in Hl. lia.
Qed.

Lemma unpack_count_stops pos :
  stops (fun n => pos + 4 <= length buf)%nat (unpack_count buf pos).
Proof. unfold unpack_count, mem_read. by case_decide. Qed.

Lemma unpack_stops fuel :
  (forall pos t, (length buf - pos < fuel)%nat -> keys_ok t = true ->
     stops (unpack_post pos) (tree_unpack fuel buf pos t)) /\
  (forall pos count i size t,
     (length buf - (pos + size) + 2 < fuel)%nat -> keys_ok t = true ->
     (4 <= size)%nat -> (pos + size <= length buf)%nat ->
     stops (unpack_post pos) (unpack_loop fuel buf pos count i size t)) /\
  (forall pos, (length buf - pos + 1 < fuel)%nat ->
     stops (elem_post pos) (tree_elem_unpack fuel buf pos kvtree_elem_new)).
Proof.
  induction fuel as [|fuel (IHt & IHl & IHe)]; [split_and!; intros; lia|].
  split_and!.
  - intros pos t Hf Ht. cbn [tree_unpack]. eapply stops_bind; [apply unpack_count_stops|].
    intros n Hn. simpl in Hn. apply IHl; auto; lia.
  - intros pos count i size t Hf Ht Hs Hp. cbn [unpack_loop].
    destruct (u32 i <? count); [|by split_and!].
    eapply stops_bind; [apply IHe; lia|]. intros [n e] (Hn & Hp' & He).
    cbn [fst snd] in Hn, Hp', He.
    destruct (i =? INT_MAX); [done|]. apply IHl; try lia.
    destruct t as [l], e as [[k|] h]; [|done]. unfold list_insert_head. simpl lh_first.
    rewrite keys_ok_cons in He |- *. apply andb_true_iff in He as [-> _].
    exact Ht.
  - intros pos Hf. cbn [tree_elem_unpack].
    eapply stops_bind; [apply mem_cstr_stops|]. intros k [Hk Hnul].
    unfold strlen. rewrite c_str_id by done.
    eapply stops_bind; [apply IHt; [lia|done]|]. intros [n t] (Hn & Hp & Ht).
    simpl in Hn, Hp, Ht. unfold elem_post. simpl. split_and!; [lia..|]. by rewrite Ht.
Qed.

End arbitrary_bytes.

(** ** The unpacked tree *)
Lemma existsb_rev {A} (f : A -> bool) l : existsb f (rev l) = existsb f l.
Proof.
  apply eq_true_iff_eq. rewrite !existsb_exists.
  split; intros (x & Hx & Hf); exists x; by rewrite <- in_rev in *.
Qed.

Lemma existsb_map {A B} (f : B -> bool) (g : A -> B) l :
  existsb f (map g l) = existsb (fun x => f (g x)) l.
Proof. induction l as [|x l IH]; simpl; congruence. Qed.

Lemma existsb_ext_in {A} (f g : A -> bool) l :
  Forall (fun x => f x = g x) l -> existsb f l = existsb g l.
Proof. induction 1; simpl; congruence. Qed.

Lemma has_path_eq l k p :
  has_path (KVTree l) (k :: p)
    = existsb (fun e => elem_matches k e && has_path_opt (hash e) p) l.
Proof. done. Qed.

Lemma unpacked_path t p : wf t -> has_path (unpacked t) p = has_path t p.
Proof.
  revert t. induction p as [|k p IH]; intros [l] [_ Hl]%wf_iff; [done|].
  rewrite unpacked_eq, !has_path_eq, existsb_rev, existsb_map.
  apply existsb_ext_in. simpl in Hl. revert Hl. apply Forall_impl.
  intros e He. destruct He as [k' Hk|k' t Hk Ht]; unfold unpacked_elem, elem_matches; simpl;
    rewrite c_str_id by done; f_equal; [apply has_path_new|auto].
Qed.

Lemma map_key_unpacked l :
  Forall wf_elem l -> map key (map unpacked_elem l) = map key l.
Proof.
  induction 1 as [|e l He _ IH]; [done|]. simpl. rewrite IH. f_equal.
  destruct He; simpl; by rewrite c_str_id.
Qed.

Lemma unpacked_wf t : wf t -> wf (unpacked t).
Proof.
  induction t as [l IH] using kvtree_rect'. rewrite unpacked_eq, wf_iff. simpl.
  intros [Hnd Hl]. apply wf_iff. simpl. split.
  - rewrite map_rev, map_key_unpacked by done. by rewrite <- Permutation_rev.
  - apply Forall_rev, List.Forall_map, list.Forall_forall. intros e He.
    eapply list.Forall_forall in IH; [|exact He]. eapply list.Forall_forall in Hl; [|exact He].
    apply wf_elem_iff in Hl as [_ Hh]. apply wf_elem_iff. unfold unpacked_elem. simpl.
    split; [auto with kvtree|]. destruct (hash e); simpl; [auto|apply wf_new].
Qed.

#[export] Hint Resolve unpacked_wf : kvtree.

(** Unpacking twice restores the order. *)
Fixpoint no_null_hash (t : kvtree) : bool :=
  match t with
  | KVTree l =>
      forallb (fun e => match e with Elem _ (Some h) => no_null_hash h | Elem _ None => false end) l
  end.

Lemma unpacked_twice t :
  wf t -> no_null_hash t = true -> unpacked (unpacked t) = t.
Proof.
  induction t as [l IH] using kvtree_rect'. rewrite !unpacked_eq, wf_iff. simpl.
  intros [_ Hl] Hn. f_equal. rewrite map_rev, rev_involutive, map_map.
  rewrite <- (map_id l) at 2. apply map_ext_in. intros e He%list_elem_of_In.
  rewrite forallb_forall in Hn. eapply list.Forall_forall in IH; [|exact He].
  eapply list.Forall_forall in Hl; [|exact He]. apply list_elem_of_In, Hn in He.
  destruct Hl as [k Hk|k t Hk Ht]; [done|]. unfold unpacked_elem. simpl in *.
  by rewrite c_str_idem, c_str_id, IH.
Qed.

(** ** Merging into an empty tree also reverses each level *)
Lemma child_absent acc k :
  wf (KVTree acc) -> nul_free k -> Some k ∉ map key acc -> child (KVTree acc) k = None.
Proof.
  intros Hwf Hk Hn. destruct (child (KVTree acc) k) as [h|] eqn:E; [|done].
  apply child_elem in E; [|done]. rewrite c_str_id in E by done.
  exfalso. apply Hn. by apply (list_elem_of_fmap_2 key) in E.
Qed.

Lemma merge_new_loop l :
  Forall (fun e => match hash e with
                   | Some t => wf t -> kvtree_merge (Some kvtree_new) (Some t)
                                         = (Some (unpacked t), KVTREE_SUCCESS)
                   | None => True
                   end) l ->
  forall acc, Forall wf_elem l -> NoDup (map key l ++ map key acc) -> wf (KVTree acc) ->
  merge_loop l (Some (KVTree acc)) KVTREE_SUCCESS
    = (Some (KVTree (rev (map unpacked_elem l) ++ acc)), KVTREE_SUCCESS).
Proof.
  induction 1 as [|e l He _ IH]; intros acc Hl Hnd Hacc; [done|].
  apply Forall_cons_iff in Hl as [Hwe Hl]. destruct e as [k h].
  pose proof (proj1 (wf_elem_iff _) Hwe) as [Hk Hh]. destruct k as [k|]; [|done].
  simpl in Hk, Hh, He, Hnd. apply list.NoDup_cons in Hnd as [Hn Hnd].
  rewrite elem_of_app in Hn.
  assert (child (KVTree acc) k = None) as Hc by (apply child_absent; naive_solver).
  assert (kvtree_merge (Some kvtree_new) h = (Some (unpacked_opt h), KVTREE_SUCCESS)) as Hm
    by (destruct h; simpl; auto).
  assert (wf (unpacked_opt h)) as Hwu by (destruct h; simpl; auto with kvtree).
  cbn [merge_loop map rev]. fold (get_or_new (Some (KVTree acc)) (Some k)).
  destruct (get_or_new_spec (KVTree acc) k Hacc) as (-> & Hwf & Hg & _).
  rewrite (child_get (KVTree acc)), Hc in Hg. simpl default in Hg.
  rewrite (at_ptr_child _ _ _ _ _ _ Hg Hm). cbn [Z.eqb KVTREE_SUCCESS].
  assert (put_child k (unpacked_opt h) (ensure_child k (KVTree acc))
          = KVTree (unpacked_elem (Elem (Some k) h) :: acc)) as E.
  { unfold ensure_child. rewrite child_get, Hc. simpl mjoin. unfold insert_child.
    pose proof (without_absent _ _ Hacc Hc) as [= ->].
    unfold put_child. simpl. unfold elem_matches. simpl. rewrite strcmp_eq0, c_str_idem.
    by rewrite bool_decide_true. }
  pose proof (wf_put_child _ k _ Hwf Hwu) as Hwf'. rewrite E in Hwf' |- *.
  rewrite <- app_assoc. apply IH; [done| |done].
  simpl. rewrite c_str_id by done. rewrite <- Permutation_middle.
  apply list.NoDup_cons. split; [by rewrite elem_of_app|done].
Qed.

Lemma merge_new t :
  wf t -> kvtree_merge (Some kvtree_new) (Some t) = (Some (unpacked t), KVTREE_SUCCESS).
Proof.
  induction t as [l IH] using kvtree_rect'. intros Hwf. rewrite merge_loop_eq.
  pose proof Hwf as [Hnd Hl]%wf_iff. rewrite unpacked_eq, <- (app_nil_r (rev _)).
  apply merge_new_loop; [done|done| |apply wf_new]. simpl. by rewrite app_nil_r.
Qed.

(** ** Properties *)
Section properties.
Context `{Host}.

(** C14. [kvtree_pack] writes exactly [kvtree_pack_size] bytes, returns that
    number and touches no other byte of the buffer, for every tree and on
    either host; with less room than that it overruns the buffer. *)
Theorem pack_bounds buf pos h :
  kvtree_pack buf pos h =
    if decide (pos + kvtree_pack_size h <= length buf)%nat
    then Ok (take pos buf ++ encode_opt h ++ drop (pos + kvtree_pack_size h) buf,
             kvtree_pack_size h)
    else Undef.
Proof.
  rewrite kvtree_pack_write, pack_size_encode by (destruct h; auto using tree_pack_write).
  unfold write_all, mem_write. by case_decide.
Qed.

(** C8. Packing a well-formed tree at any position of a buffer with room for it
    and unpacking from there consumes the bytes that were written and gives a
    well-formed tree with the same paths, whose elements are in the opposite
    order at every level. *)
Theorem pack_unpack_roundtrip buf pos t :
  wf t -> small t = true -> (pos + kvtree_pack_size (Some t) <= length buf)%nat ->
  exists buf', kvtree_pack buf pos (Some t) = Ok (buf', kvtree_pack_size (Some t)) /\
    length buf' = length buf /\
    kvtree_unpack buf' pos (Some kvtree_new)
      = Ok (kvtree_pack_size (Some t), Some (unpacked t)) /\
    wf (unpacked t) /\ unpacked t ≡ t /\
    (no_null_hash t = true -> unpacked (unpacked t) = t).
Proof.
  intros Hwf Hs Hroom. unfold kvtree_pack. rewrite tree_pack_write.
  rewrite pack_size_encode in *. cbn [encode_opt] in *.
  unfold write_all, mem_write. rewrite decide_True by done. eexists. split; [done|].
  split_and!.
  - rewrite !length_app, length_take, length_drop. lia.
  - unfold kvtree_unpack, kvtree_new.
    erewrite (tree_unpack_stream t _ _ _ _ []); [|done| |].
    + cbn [obind]. rewrite app_nil_r. by destruct (unpacked t).
    + rewrite drop_app_length' by (rewrite length_take; lia). done.
    + unfold unpack_fuel. rewrite !length_app. lia.
  - auto with kvtree.
  - intros p. by apply unpacked_path.
  - by apply unpacked_twice.
Qed.

Lemma unpack_stops_at buf pos :
  match kvtree_unpack buf pos (Some kvtree_new) with
  | Ok (n, Some t) => (4 <= n)%nat /\ (pos + n <= length buf)%nat /\ keys_ok t = true
  | Undef => True
  | _ => False
  end.
Proof.
  unfold kvtree_unpack. destruct (unpack_stops buf (unpack_fuel buf)) as (Ht & _ & _).
  specialize (Ht pos kvtree_new). unfold unpack_fuel in *.
  destruct (tree_unpack _ buf pos kvtree_new) as [[n t]| | |]; simpl in *; apply Ht; done || lia.
Qed.

(** C24. Unpacking arbitrary bytes always stops: either at an access outside the
    buffer or the overflow of the [int] index, or with a result that was read
    inside the buffer, took at least four bytes and has no NULL key. *)
Theorem unpack_stops_inside buf pos :
  match kvtree_unpack buf pos (Some kvtree_new) with
  | Ok (n, Some t) => (4 <= n)%nat /\ (pos + n <= length buf)%nat /\ keys_ok t = true
  | Undef => True
  | _ => False
  end.
Proof. apply unpack_stops_at. Qed.

End properties.

Definition sample_hash : kvtree :=
  KVTree [Elem (Some (str "RANK")) (Some (KVTree
            [Elem (Some (str "1")) (Some kvtree_new); Elem (Some (str "0")) (Some kvtree_new)]));
          Elem (Some (str "RANKS")) (Some (KVTree [Elem (Some (str "2")) (Some kvtree_new)]))].

Lemma pack_unpack_roundtrip_witness :
  exists buf', @kvtree_pack host_le (repeat NUL 60) 3 (Some sample_hash)
                 = Ok (buf', kvtree_pack_size (Some sample_hash)) /\
    length buf' = length (repeat NUL 60) /\
    @kvtree_unpack host_le buf' 3 (Some kvtree_new)
      = Ok (kvtree_pack_size (Some sample_hash), Some (unpacked sample_hash)) /\
    wf (unpacked sample_hash) /\ unpacked sample_hash ≡ sample_hash /\
    (no_null_hash sample_hash = true -> unpacked (unpacked sample_hash) = sample_hash).
Proof.
  apply pack_unpack_roundtrip.
  - wf_check.
  - vm_compute. reflexivity.
  - vm_compute. lia.
Defined.
