(* ===== verification/Io.v ===== *)
(** File operations: [src/src/kvtree_io.c], over a model of the POSIX calls it
    makes.

    The state [os] holds the files, the open descriptors, the locks, the umask
    and the replies the system will give: each call takes the next reply of the
    script, and a call past its end succeeds.  A reply says whether the call
    succeeds, moves fewer bytes than asked, is interrupted or fails.  Theorems
    quantify over the state, so over all scripts.

    Messages printed through [kvtree_err] and [kvtree_dbg] and the pauses of
    [usleep] are left out: they change no state the program reads. *)

From S2P Require Import Prelude.

(** ** The system *)
Inductive errno_val := EINTR | EAGAIN | EOTHER.

(** [Full]: the call succeeds.  [Short n]: it succeeds with [n] bytes moved at
    most.  [Fails e]: it returns its error value and sets [errno]. *)
Inductive reply := Full | Short (n : nat) | Fails (e : errno_val).

#[export] Instance errno_val_eq_dec : EqDecision errno_val.
Proof. solve_decision. Defined.
#[export] Instance reply_eq_dec : EqDecision reply.
Proof. solve_decision. Defined.

Record desc := Desc { d_file : cstring; d_pos : nat }.

Record os := Os {
  files : gmap cstring (list byte);
  modes : gmap cstring Z;
  fds : gmap nat desc;
  locks : gmap nat bool;
  next_fd : nat;
  mask : Z;
  script : list reply;
  errno : errno_val
}.

Definition set_files (f : gmap cstring (list byte)) (s : os) : os :=
  Os f (modes s) (fds s) (locks s) (next_fd s) (mask s) (script s) (errno s).
Definition set_modes (m : gmap cstring Z) (s : os) : os :=
  Os (files s) m (fds s) (locks s) (next_fd s) (mask s) (script s) (errno s).
Definition set_fds (f : gmap nat desc) (s : os) : os :=
  Os (files s) (modes s) f (locks s) (next_fd s) (mask s) (script s) (errno s).
Definition set_locks (l : gmap nat bool) (s : os) : os :=
  Os (files s) (modes s) (fds s) l (next_fd s) (mask s) (script s) (errno s).
Definition set_next (n : nat) (s : os) : os :=
  Os (files s) (modes s) (fds s) (locks s) n (mask s) (script s) (errno s).
Definition set_mask (m : Z) (s : os) : os :=
  Os (files s) (modes s) (fds s) (locks s) (next_fd s) m (script s) (errno s).
Definition set_script (r : list reply) (s : os) : os :=
  Os (files s) (modes s) (fds s) (locks s) (next_fd s) (mask s) r (errno s).
Definition set_errno (e : errno_val) (s : os) : os :=
  Os (files s) (modes s) (fds s) (locks s) (next_fd s) (mask s) (script s) e.

(** ** Code that calls the system: a state and outcome monad *)
Definition io (A : Type) : Type := os -> outcome (A * os).

Definition io_ret {A} (a : A) : io A := fun s => Ok (a, s).
Definition io_bind {A B} (m : io A) (f : A -> io B) : io B :=
  fun s => let* (a, s) := m s in f a s.
Definition io_lift {A} (m : outcome A) : io A := fun s => let* a := m in Ok (a, s).

Declare Scope io_scope.
Delimit Scope io_scope with io.
Notation "'do*' x ':=' m 'in' k" := (io_bind m (fun x => k))
  (at level 10, x pattern, m at level 100, k at level 200) : io_scope.
Notation "'lift*' x ':=' m 'in' k" := (io_bind (io_lift m) (fun x => k))
  (at level 10, x pattern, m at level 100, k at level 200) : io_scope.
#[global] Open Scope io_scope.

Definition take_reply : io reply :=
  fun s => match script s with
           | [] => Ok (Full, s)
           | r :: rs => Ok (r, set_script rs s)
           end.

(** The next reply, with [errno] set when it is a failure. *)
Definition syscall : io reply :=
  do* r := take_reply in
  match r with
  | Fails e => fun s => Ok (r, set_errno e s)
  | _ => io_ret r
  end.

Definition get_errno : io errno_val := fun s => Ok (errno s, s).

(** *** Flags of [open] (the values of Linux) *)
Definition O_RDONLY : Z := 0.
Definition O_WRONLY : Z := 1.
Definition O_RDWR : Z := 2.
Definition O_CREAT : Z := 64.
Definition O_TRUNC : Z := 512.
Definition has_flag (flags f : Z) : bool := negb (Z.land flags f =? 0).

(** [open] fails for a missing file without [O_CREAT]; otherwise it creates or
    truncates the file and returns a new descriptor at its start. *)
Definition can_open (file : cstring) (flags : Z) (s : os) : bool :=
  match files s !! file with Some _ => true | None => has_flag flags O_CREAT end.

Definition open_state (file : cstring) (flags mode : Z) (s : os) : os :=
  Os (match files s !! file with
      | Some _ => if has_flag flags O_TRUNC then <[file := []]> (files s) else files s
      | None => <[file := []]> (files s)
      end)
     (match files s !! file with Some _ => modes s | None => <[file := mode]> (modes s) end)
     (<[next_fd s := Desc file 0]> (fds s)) (locks s) (S (next_fd s)) (mask s)
     (script s) (errno s).

Definition open_file (file : cstring) (flags mode : Z) : io Z :=
  fun s =>
    if can_open file flags s
    then Ok (Z.of_nat (next_fd s), open_state file flags mode s)
    else Ok (-1, set_errno EOTHER s).

Definition sys_open (file : cstring) (flags mode : Z) : io Z :=
  do* r := syscall in
  match r with
  | Fails _ => io_ret (-1)
  | _ => open_file file flags mode
  end.

(** A descriptor number of the C code; [EBADF] for a closed one. *)
Definition with_fd {A} (fd : Z) (bad : A) (k : nat -> desc -> list byte -> io A) : io A :=
  fun s =>
    if fd <? 0 then Ok (bad, set_errno EOTHER s)
    else match fds s !! Z.to_nat fd with
         | None => Ok (bad, set_errno EOTHER s)
         | Some d => k (Z.to_nat fd) d (default [] (files s !! d_file d)) s
         end.

Definition set_pos (n : nat) (d : desc) (pos : nat) (s : os) : os :=
  set_fds (<[n := Desc (d_file d) pos]> (fds s)) s.

(** Linux moves at most this many bytes in one call. *)
Definition RW_MAX : Z := 0x7ffff000.

Definition rw_count (r : reply) (least n : nat) : nat :=
  let lim := match r with Short m => Nat.max least m | _ => n end in
  Z.to_nat (Z.min (Z.of_nat (Nat.min n lim)) RW_MAX).

(** [read]: the bytes come back with the count.  Zero bytes mean end of file. *)
Definition sys_read (fd : Z) (n : nat) : io (Z * list byte) :=
  do* r := syscall in
  with_fd fd (-1, []) (fun fdn d c =>
    match r with
    | Fails _ => io_ret (-1, [])
    | _ =>
        let bs := take (rw_count r 1 n) (drop (d_pos d) c) in
        fun s => Ok ((Z.of_nat (length bs), bs), set_pos fdn d (d_pos d + length bs) s)
    end).

(** Overwrite [c] from [pos] on; a gap past its end reads as zeros. *)
Definition splice (c : list byte) (pos : nat) (bs : list byte) : list byte :=
  match bs with
  | [] => c
  | _ => take pos c ++ replicate (pos - length c) NUL ++ bs ++ drop (pos + length bs) c
  end.

Definition sys_write (fd : Z) (bs : list byte) : io Z :=
  do* r := syscall in
  with_fd fd (-1) (fun fdn d c =>
    match r with
    | Fails _ => io_ret (-1)
    | _ =>
        let bs := take (rw_count r 0 (length bs)) bs in
        fun s => Ok (Z.of_nat (length bs),
                     set_pos fdn d (d_pos d + length bs)
                       (set_files (<[d_file d := splice c (d_pos d) bs]> (files s)) s))
    end).

Definition sys_fsync (fd : Z) : io Z :=
  do* r := syscall in match r with Fails _ => io_ret (-1) | _ => io_ret 0 end.

(** [close] releases the descriptor and its lock, also when it reports an
    error. *)
Definition sys_close (fd : Z) : io Z :=
  do* r := syscall in
  with_fd fd (-1) (fun fdn d c s =>
    Ok (match r with Fails _ => -1 | _ => 0 end,
        set_locks (delete fdn (locks s)) (set_fds (delete fdn (fds s)) s))).

(** [lseek] with [SEEK_SET], the only use of the program. *)
Definition sys_lseek (fd : Z) (pos : nat) : io Z :=
  do* r := syscall in
  with_fd fd (-1) (fun fdn d c =>
    match r with
    | Fails _ => io_ret (-1)
    | _ => fun s => Ok (Z.of_nat pos, set_pos fdn d pos s)
    end).

Definition sys_ftruncate (fd : Z) (len : nat) : io Z :=
  do* r := syscall in
  with_fd fd (-1) (fun fdn d c =>
    match r with
    | Fails _ => io_ret (-1)
    | _ => fun s =>
        Ok (0, set_files (<[d_file d := take len c ++ replicate (len - length c) NUL]> (files s)) s)
    end).

(** Taking a lock blocks until it is granted; [None] releases it. *)
Definition sys_lock (fd : Z) (op : option bool) : io Z :=
  do* r := syscall in
  with_fd fd (-1) (fun fdn d c =>
    match r with
    | Fails _ => io_ret (-1)
    | _ => fun s =>
        Ok (0, set_locks (match op with Some ex => <[fdn := ex]> (locks s)
                                      | None => delete fdn (locks s) end) s)
    end).

Definition sys_access (file : cstring) : io Z :=
  do* r := syscall in
  match r with
  | Fails _ => io_ret (-1)
  | _ => fun s =>
      match files s !! file with
      | Some _ => Ok (0, s)
      | None => Ok (-1, set_errno EOTHER s)
      end
  end.

Definition sys_umask (m : Z) : io Z := fun s => Ok (mask s, set_mask (Z.land m 511) s).

(** ** The functions of kvtree_io.c *)
Definition S_IRUSR : Z := 256.
Definition S_IRGRP : Z := 32.
Definition S_IROTH : Z := 4.
Definition S_IWUSR : Z := 128.
Definition S_IWGRP : Z := 16.
Definition S_IWOTH : Z := 2.
Definition S_IXUSR : Z := 64.
Definition S_IXGRP : Z := 8.
Definition S_IXOTH : Z := 1.

Definition kvtree_getmode (read write execute : bool) : io Z :=
  do* old_mask := sys_umask (Z.lor S_IWGRP S_IWOTH) in
  do* _ := sys_umask old_mask in
  let bits := 0 in
  let bits := if read then Z.lor bits (Z.lor S_IRUSR (Z.lor S_IRGRP S_IROTH)) else bits in
  let bits := if write then Z.lor bits (Z.lor S_IWUSR (Z.lor S_IWGRP S_IWOTH)) else bits in
  let bits := if execute then Z.lor bits (Z.lor S_IXUSR (Z.lor S_IXGRP S_IXOTH)) else bits in
  let mode := Z.land (Z.land bits (Z.lnot old_mask)) 511 in
  io_ret mode.

Definition KVTREE_OPEN_TRIES : nat := 5.

(** The retries: [tries] is the number left. *)
Fixpoint open_loop (file : cstring) (flags mode : Z) (tries : nat) (fd : Z) : io Z :=
  match tries with
  | O => io_ret fd
  | S tries =>
      if fd <? 0 then
        do* fd := sys_open file flags mode in
        open_loop file flags mode tries fd
      else io_ret fd
  end.

(** The mode argument is read when [O_CREAT] is set, and must be there then. *)
Definition kvtree_open (file : cstring) (flags : Z) (args : option Z) : io Z :=
  lift* mode := (if has_flag flags O_CREAT
                 then match args with Some m => Ok m | None => Undef end
                 else Ok 0) in
  do* fd := sys_open file flags mode in
  if fd <? 0 then open_loop file flags mode KVTREE_OPEN_TRIES fd else io_ret fd.

Definition kvtree_close (file : cstring) (fd : Z) : io Z :=
  do* _ := sys_fsync fd in
  do* rc := sys_close fd in
  if negb (rc =? 0) then io_ret KVTREE_FAILURE else io_ret KVTREE_SUCCESS.

(** Which locking calls the build was configured with. *)
Class LockConfig := {
  KVTREE_FILE_LOCK_USE_FLOCK : bool;
  KVTREE_FILE_LOCK_USE_FCNTL : bool
}.

Section locking.
Context `{LockConfig}.

Definition kvtree_file_lock_read_write (file : cstring) (fd : Z) (write : bool) : io Z :=
  do* rc := (if KVTREE_FILE_LOCK_USE_FLOCK then
               let op := write in
               sys_lock fd (Some op)
             else io_ret 0) in
  if negb (rc =? 0) then io_ret KVTREE_FAILURE
  else
    do* rc := (if KVTREE_FILE_LOCK_USE_FCNTL then
                 let l_type := write in
                 sys_lock fd (Some l_type)
               else io_ret 0) in
    if rc <? 0 then io_ret KVTREE_FAILURE else io_ret KVTREE_SUCCESS.

Definition kvtree_file_unlock (file : cstring) (fd : Z) : io Z :=
  do* rc := (if KVTREE_FILE_LOCK_USE_FLOCK then sys_lock fd None else io_ret 0) in
  if negb (rc =? 0) then io_ret KVTREE_FAILURE
  else
    do* rc := (if KVTREE_FILE_LOCK_USE_FCNTL then sys_lock fd None else io_ret 0) in
    if rc <? 0 then io_ret KVTREE_FAILURE else io_ret KVTREE_SUCCESS.

Definition kvtree_open_with_lock (file : cstring) (flags mode : Z) (write : bool) : io Z :=
  do* fd := kvtree_open file flags (Some mode) in
  if fd <? 0 then io_ret fd
  else
    do* ret := kvtree_file_lock_read_write file fd write in
    if negb (ret =? KVTREE_SUCCESS) then
      do* _ := sys_close fd in
      io_ret ret
    else io_ret fd.

Definition kvtree_close_with_unlock (file : cstring) (fd : Z) : io Z :=
  do* ret := kvtree_file_unlock file fd in
  if negb (ret =? KVTREE_SUCCESS) then io_ret ret
  else kvtree_close file fd.

End locking.

Definition kvtree_lseek (file : cstring) (fd : Z) (pos : nat) : io Z :=
  do* rc := sys_lseek fd pos in
  if rc =? -1 then io_ret KVTREE_FAILURE else io_ret KVTREE_SUCCESS.

Definition interrupted : io bool :=
  do* e := get_errno in
  io_ret (match e with EINTR | EAGAIN => true | EOTHER => false end).

(** The loops: [n] bytes moved so far, [retries] left.  Each iteration takes a
    reply of the script, moves a byte, uses up a retry or is the last, so the
    fuel of [attempt_fuel] is enough. *)
Fixpoint read_loop (fuel : nat) (fd : Z) (buf : list byte) (size n : nat) (retries : Z)
    : io (Z * list byte) :=
  match fuel with
  | O => fun _ => NoFuel
  | S fuel =>
      if (n <? size)%nat then
        do* (ret, bs) := sys_read fd (size - n) in
        lift* buf := mem_write buf n bs in
        let rc := i32 ret in
        if 0 <? rc then read_loop fuel fd buf size (n + Z.to_nat rc) retries
        else if rc =? 0 then io_ret (Z.of_nat n, buf)
        else
          do* again := interrupted in
          if again then read_loop fuel fd buf size n retries
          else
            let retries := retries - 1 in
            if negb (retries =? 0) then read_loop fuel fd buf size n retries
            else io_ret (-1, buf)
      else io_ret (Z.of_nat n, buf)
  end.

Definition attempt_fuel (size : nat) (s : os) : nat := (length (script s) + size + 12)%nat.

Definition kvtree_read_attempt (file : cstring) (fd : Z) (buf : list byte) (size : nat)
    : io (Z * list byte) :=
  fun s => read_loop (attempt_fuel size s) fd buf size 0 10 s.

Fixpoint write_loop (fuel : nat) (fd : Z) (buf : list byte) (size n : nat) (retries : Z)
    : io Z :=
  match fuel with
  | O => fun _ => NoFuel
  | S fuel =>
      if (n <? size)%nat then
        lift* bs := mem_read buf n (size - n) in
        do* rc := sys_write fd bs in
        if 0 <? rc then write_loop fuel fd buf size (n + Z.to_nat rc) retries
        else if rc =? 0 then io_ret (-1)
        else
          do* again := interrupted in
          if again then write_loop fuel fd buf size n retries
          else
            let retries := retries - 1 in
            if negb (retries =? 0) then write_loop fuel fd buf size n retries
            else io_ret (-1)
      else io_ret (Z.of_nat n)
  end.

Definition kvtree_write_attempt (file : cstring) (fd : Z) (buf : list byte) (size : nat)
    : io Z :=
  fun s => write_loop (attempt_fuel size s) fd buf size 0 10 s.

Definition kvtree_file_is_readable (file : cstring) : io Z :=
  do* rc := sys_access file in
  if rc <? 0 then io_ret KVTREE_FAILURE else io_ret KVTREE_SUCCESS.

(** ** One system call *)
Definition reply_of (s : os) : reply := default Full (list.head (script s)).

Definition after (s : os) : os :=
  Os (files s) (modes s) (fds s) (locks s) (next_fd s) (mask s) (tail (script s))
     (match reply_of s with Fails e => e | _ => errno s end).

Lemma syscall_eq s : syscall s = Ok (reply_of s, after s).
Proof.
  destruct s as [f m fd l n u sc e]. unfold syscall, take_reply, reply_of, after, io_bind. simpl.
  by destruct sc as [|[]].
Qed.

(** The state after calls that only touched the descriptor [n] and the files. *)
Definition moved (s : os) (n : nat) (d : desc) (fl : gmap cstring (list byte))
    (sc : list reply) (e : errno_val) : os :=
  Os fl (modes s) (<[n := d]> (fds s)) (locks s) (next_fd s) (mask s) sc e.

Lemma moved_moved s n d fl sc e d' fl' sc' e' :
  moved (moved s n d fl sc e) n d' fl' sc' e' = moved s n d' fl' sc' e'.
Proof. unfold moved. simpl. by rewrite insert_insert_eq. Qed.

Definition opened (s : os) (n : nat) (d : desc) (c : list byte) : Prop :=
  fds s !! n = Some d /\ files s !! d_file d = Some c.

Lemma opened_moved s n d c : opened s n d c -> s = moved s n d (files s) (script s) (errno s).
Proof. intros [Hd _]. unfold moved. rewrite insert_id by done. by destruct s. Qed.

Lemma moved_opened s n d fl sc e c :
  fl !! d_file d = Some c -> opened (moved s n d fl sc e) n d c.
Proof. intros H. split; [simpl; apply lookup_insert_eq|done]. Qed.

Lemma after_moved s n d c :
  opened s n d c ->
  after s = moved s n d (files s) (tail (script s))
              (match reply_of s with Fails e => e | _ => errno s end).
Proof. intros [Hd _]. unfold moved, after. by rewrite insert_id. Qed.

Lemma with_fd_opened {A} s n d c (bad : A) k :
  opened s n d c -> with_fd (Z.of_nat n) bad k s = k n d c s.
Proof.
  intros [Hd Hc]. unfold with_fd. rewrite (proj2 (Z.ltb_ge _ _)) by lia.
  by rewrite Nat2Z.id, Hd, Hc.
Qed.

Lemma opened_after s n d c : opened s n d c -> opened (after s) n d c.
Proof. done. Qed.

Lemma rw_count_range r least n :
  (least <= 1)%nat ->
  (rw_count r least n <= n)%nat /\ Z.of_nat (rw_count r least n) <= RW_MAX /\
  (least = 1 -> 0 < n -> 0 < rw_count r least n)%nat /\
  (r <> Short 0 -> 0 < n -> 0 < rw_count r least n)%nat.
Proof.
  unfold rw_count, RW_MAX. intros Hl. destruct r as [|[|m]|e]; split_and!; try lia; done.
Qed.

Lemma sys_read_eq s fdn d c n :
  opened s fdn d c ->
  sys_read (Z.of_nat fdn) n s =
    Ok (match reply_of s with
        | Fails e => ((-1, []), moved s fdn d (files s) (tail (script s)) e)
        | r => let bs := take (rw_count r 1 n) (drop (d_pos d) c) in
               ((Z.of_nat (length bs), bs),
                moved s fdn (Desc (d_file d) (d_pos d + length bs)) (files s)
                  (tail (script s)) (errno s))
        end).
Proof.
  intros Ho. unfold sys_read, io_bind. rewrite syscall_eq. cbn [obind].
  rewrite (with_fd_opened _ fdn d c) by (by apply opened_after).
  rewrite (after_moved s fdn d c Ho).
  destruct (reply_of s); unfold io_ret, set_pos, moved; simpl; by rewrite ?insert_insert_eq.
Qed.

Lemma sys_write_eq s fdn d c bs :
  opened s fdn d c ->
  sys_write (Z.of_nat fdn) bs s =
    Ok (match reply_of s with
        | Fails e => (-1, moved s fdn d (files s) (tail (script s)) e)
        | r => let bs := take (rw_count r 0 (length bs)) bs in
               (Z.of_nat (length bs),
                moved s fdn (Desc (d_file d) (d_pos d + length bs))
                  (<[d_file d := splice c (d_pos d) bs]> (files s)) (tail (script s)) (errno s))
        end).
Proof.
  intros Ho. unfold sys_write, io_bind. rewrite syscall_eq. cbn [obind].
  rewrite (with_fd_opened _ fdn d c) by (by apply opened_after).
  rewrite (after_moved s fdn d c Ho).
  destruct (reply_of s); unfold io_ret, set_pos, set_files, set_fds, moved; simpl;
    by rewrite ?insert_insert_eq.
Qed.

(** ** The read and write loops *)

(** The hard errors of a script: those that cost a retry. *)
Fixpoint hard (sc : list reply) : Z :=
  match sc with
  | [] => 0
  | Fails EOTHER :: sc => 1 + hard sc
  | _ :: sc => hard sc
  end.

Lemma hard_nonneg sc : 0 <= hard sc.
Proof. induction sc as [|[|?|[]] sc IH]; simpl; lia. Qed.

Lemma hard_tail s e :
  reply_of s = Fails e ->
  hard (script s) = hard (tail (script s)) + match e with EOTHER => 1 | _ => 0 end /\
  length (script s) = S (length (tail (script s))).
Proof.
  unfold reply_of. destruct (script s) as [|r sc]; simpl; [done|].
  intros ->. destruct e; simpl; split; lia.
Qed.

Lemma hard_tail_le s : hard (tail (script s)) <= hard (script s).
Proof. destruct (script s) as [|[|?|[]] sc]; simpl; lia. Qed.

Lemma suffix_tail {A} (l : list A) : tail l `suffix_of` l.
Proof. destruct l as [|x l]; [done|]. by exists [x]. Qed.

Lemma hard_suffix sc sc' : sc `suffix_of` sc' -> hard sc <= hard sc'.
Proof. intros [l ->]. induction l as [|[|?|[]] l IH]; simpl; lia. Qed.

Lemma length_tail {A} (l : list A) : (length (tail l) <= length l)%nat.
Proof. destruct l; simpl; lia. Qed.

Lemma take_step {A} (l : list A) j m :
  take j l ++ take m (drop (length (take j l)) l) = take (length (take j l) + m) l.
Proof.
  rewrite <- (take_take_drop l (length (take j l)) m). f_equal.
  rewrite length_take. destruct (decide (j <= length l)%nat).
  - by rewrite Nat.min_l.
  - rewrite Nat.min_r by lia. by rewrite !take_ge by lia.
Qed.

Lemma overwrite_overwrite {A} (buf x y : list A) n :
  (n + length x + length y <= length buf)%nat ->
  let b := take n buf ++ x ++ drop (n + length x) buf in
  take (n + length x) b ++ y ++ drop (n + length x + length y) b
    = take n buf ++ (x ++ y) ++ drop (n + length (x ++ y)) buf.
Proof.
  intros H b. unfold b. rewrite (app_assoc (take n buf) x), length_app.
  rewrite take_app_length' by (rewrite length_app, length_take; lia).
  rewrite drop_app_ge by (rewrite length_app, length_take; lia).
  rewrite drop_drop, length_app, length_take, <- !app_assoc. do 4 f_equal. lia.
Qed.

Definition next_retries (e : errno_val) (retries : Z) : Z :=
  match e with EOTHER => retries - 1 | _ => retries end.

(** What follows a failed call: retry, or give up at the last retry. *)
Lemma retry_eq {A} (k : Z -> io A) (giveup : A) e retries s :
  errno s = e ->
  (do* again := interrupted in
   if again then k retries
   else if negb (retries - 1 =? 0) then k (retries - 1) else io_ret giveup) s
  = if next_retries e retries =? 0 then
      match e with EOTHER => Ok (giveup, s) | _ => k retries s end
    else k (next_retries e retries) s.
Proof.
  intros He. unfold interrupted, get_errno, io_bind, io_ret, next_retries. simpl. rewrite He.
  destruct e; simpl; [by case_match..|]. by destruct (retries - 1 =? 0).
Qed.

Lemma next_retries_hard s e retries :
  reply_of s = Fails e -> 0 < retries ->
  0 <= next_retries e retries <= retries /\
  (hard (script s) < retries -> hard (tail (script s)) < next_retries e retries) /\
  (length (tail (script s)) + Z.to_nat (next_retries e retries)
     < length (script s) + Z.to_nat retries)%nat /\
  (next_retries e retries = 0 -> e = EOTHER /\ ~ hard (script s) < retries).
Proof.
  intros Hr Hp. destruct (hard_tail s e Hr) as [Hh Hl].
  pose proof (hard_nonneg (tail (script s))).
  unfold next_retries.
  destruct e; simpl in Hh; split_and!; try lia; intros; (exfalso; lia) || split; done || lia.
Qed.

(** [read_post] describes the result of the read loop: [m] more bytes of the
    file were read to [buf] at [n]. *)
Definition read_post (s : os) (fdn : nat) (d : desc) (c buf : list byte) (size n : nat)
    (retries : Z) (res : outcome (Z * list byte * os)) : Prop :=
  exists m r sc e,
    res = Ok ((r, take n buf ++ take m (drop (d_pos d) c) ++ drop (n + m) buf),
              moved s fdn (Desc (d_file d) (d_pos d + m)) (files s) sc e) /\
    (n + m <= size)%nat /\ (m <= length (drop (d_pos d) c))%nat /\
    (r = -1 \/ r = Z.of_nat (n + m) /\ (n + m < size -> m = length (drop (d_pos d) c))%nat) /\
    (hard (script s) < retries -> r <> -1) /\ sc `suffix_of` script s.

Lemma read_post_stop s fdn d c buf size n retries r sc e :
  (n <= size)%nat -> sc `suffix_of` script s ->
  (r = -1 \/ r = Z.of_nat n /\ (n < size -> drop (d_pos d) c = [])%nat) ->
  (hard (script s) < retries -> r <> -1) ->
  read_post s fdn d c buf size n retries (Ok ((r, buf), moved s fdn d (files s) sc e)).
Proof.
  intros Hn Hsc Hr Hh. exists 0%nat, r, sc, e. rewrite !Nat.add_0_r. simpl. rewrite take_drop.
  destruct d as [f p]. split_and!; try done; try lia.
  destruct Hr as [|[-> Hr]]; [by left|]. right. split; [done|]. intros Hlt. by rewrite Hr.
Qed.

Lemma read_post_retry s fdn d c buf size n retries retries' sc e res :
  (hard (script s) < retries -> hard sc < retries') -> sc `suffix_of` script s ->
  read_post (moved s fdn d (files s) sc e) fdn d c buf size n retries' res ->
  read_post s fdn d c buf size n retries res.
Proof.
  intros Hh Hle (m & r & sc' & e' & -> & H1 & H2 & H3 & H4 & H5).
  exists m, r, sc', e'. rewrite moved_moved. simpl in *. split_and!; auto. by etrans.
Qed.

Lemma read_post_more s fdn d c buf size n retries j sc e res :
  let bs := take j (drop (d_pos d) c) in
  (n + length bs <= length buf)%nat -> (size <= length buf)%nat ->
  sc `suffix_of` script s ->
  read_post (moved s fdn (Desc (d_file d) (d_pos d + length bs)) (files s) sc e) fdn
    (Desc (d_file d) (d_pos d + length bs)) c (take n buf ++ bs ++ drop (n + length bs) buf)
    size (n + length bs) retries res ->
  read_post s fdn d c buf size n retries res.
Proof.
  intros bs Hb Hsz Hh (m & r & sc' & e' & -> & H1 & H2 & H3 & H4 & H5).
  pose proof (hard_suffix _ _ Hh).
  simpl in *. rewrite <- (drop_drop c) in *. rewrite length_drop in H2, H3.
  set (y := take m (drop (length bs) (drop (d_pos d) c))) in *.
  assert (length y = m) as Hy by (unfold y; rewrite length_take, length_drop; lia).
  exists (length bs + m)%nat, r, sc', e'.
  rewrite moved_moved. simpl.
  assert (length bs <= length (drop (d_pos d) c))%nat
    by (unfold bs; rewrite length_take; lia).
  split_and!; [|lia..| |intros Hq; apply H4; lia|by etrans].
  - rewrite !Nat.add_assoc. do 3 f_equal.
    pose proof (overwrite_overwrite buf bs y n ltac:(lia)) as Ho. cbv zeta in Ho.
    rewrite Hy, length_app, Hy, Nat.add_assoc in Ho.
    rewrite Ho. unfold y, bs. by rewrite take_step.
  - destruct H3 as [|[-> H3]]; [by left|right]. split; lia.
Qed.

Lemma read_loop_spec fuel : forall s fdn d c buf size n retries,
  opened s fdn d c -> (size <= length buf)%nat -> (n <= size)%nat -> 0 < retries ->
  (length (script s) + (size - n) + Z.to_nat retries < fuel)%nat ->
  read_post s fdn d c buf size n retries
    (read_loop fuel (Z.of_nat fdn) buf size n retries s).
Proof.
  induction fuel as [|fuel IH]; intros s fdn d c buf size n retries Ho Hb Hn Hr Hf; [lia|].
  cbn [read_loop]. destruct (Nat.ltb_spec n size) as [Hlt|Hge].
  2:{ unfold io_ret. rewrite (opened_moved _ _ _ _ Ho) at 2.
      apply read_post_stop; [done..|right; split; lia|lia]. }
  unfold io_bind at 1. rewrite (sys_read_eq s fdn d c) by done. cbn [obind].
  set (bs r := take (rw_count r 1 (size - n)) (drop (d_pos d) c)).
  assert (forall r, r = reply_of s -> (forall e, r <> Fails e) -> read_post s fdn d c buf size n retries
    ((lift* buf := mem_write buf n (bs r) in
      if 0 <? i32 (Z.of_nat (length (bs r)))
      then read_loop fuel (Z.of_nat fdn) buf size (n + Z.to_nat (i32 (Z.of_nat (length (bs r))))) retries
      else if i32 (Z.of_nat (length (bs r))) =? 0 then io_ret (Z.of_nat n, buf)
      else do* again := interrupted in
           if again then read_loop fuel (Z.of_nat fdn) buf size n retries
           else if negb (retries - 1 =? 0)
                then read_loop fuel (Z.of_nat fdn) buf size n (retries - 1)
                else io_ret (-1, buf))
     (moved s fdn (Desc (d_file d) (d_pos d + length (bs r))) (files s) (tail (script s)) (errno s)))) as Hdata.
  { intros r _ _. destruct (rw_count_range r 1 (size - n)) as (Hc1 & Hc2 & Hc3 & _); [lia|].
    assert (length (bs r) <= rw_count r 1 (size - n))%nat as Hl
      by (unfold bs; rewrite length_take; lia).
    rewrite i32_id by (unfold RW_MAX in Hc2; int_lia). rewrite Nat2Z.id.
    unfold mem_write. rewrite decide_True by lia. unfold io_bind, io_lift. cbn [obind].
    destruct (Z.ltb_spec 0 (Z.of_nat (length (bs r)))) as [Hpos|Hz].
    - eapply (read_post_more _ _ _ _ _ _ _ _ (rw_count r 1 (size - n)));
        [fold (bs r); lia|done|apply suffix_tail|]. fold (bs r).
      apply IH; [apply moved_opened, Ho| |lia|done|].
      + rewrite !length_app, length_take, length_drop. lia.
      + pose proof (length_tail (script s)). cbn [script moved]. lia.
    - rewrite (proj2 (Z.eqb_eq _ _)) by lia. destruct (bs r) as [|] eqn:Eb; simpl in Hz; [|lia].
      unfold io_ret. simpl. rewrite !Nat.add_0_r, take_drop.
      destruct d as [f p]. apply read_post_stop; [done|apply suffix_tail| |lia]. right. split; [done|].
      intros _. unfold bs in Eb. simpl in *. destruct (drop p c); [done|].
      destruct (rw_count r 1 (size - n)); [lia|done]. }
  destruct (reply_of s) as [|j|e] eqn:Hre; [by apply Hdata|by apply Hdata|].
  unfold io_bind at 1, io_lift. rewrite mem_write_nil by lia. cbn [obind].
  change (i32 (-1)) with (-1). cbn [Z.ltb Z.eqb Z.compare].
  destruct (next_retries_hard s e retries Hre Hr) as (Hk1 & Hk2 & Hk3 & Hk4).
  rewrite (retry_eq (fun k => read_loop fuel (Z.of_nat fdn) buf size n k) _ e) by done.
  destruct (Z.eqb_spec (next_retries e retries) 0) as [Hz|Hz].
  - destruct (Hk4 Hz) as [-> Hh]. apply read_post_stop; [done|apply suffix_tail|by left|done].
  - eapply read_post_retry; [exact Hk2|apply suffix_tail|].
    apply IH; [apply moved_opened, Ho|done|done|lia|]. cbn [script moved]. lia.
Qed.

(** Writing behind what was just written is one longer write. *)
Lemma splice_shape c p :
  exists x, length x = p /\ (forall a, a <> [] -> splice c p a = x ++ a ++ drop (p + length a) c).
Proof.
  exists (take p c ++ replicate (p - length c) NUL). split.
  - rewrite length_app, length_take, length_replicate. lia.
  - intros [|y a] Ha; [done|]. unfold splice. by rewrite <- !app_assoc.
Qed.

Lemma splice_splice c p a b : splice (splice c p a) (p + length a) b = splice c p (a ++ b).
Proof.
  destruct b as [|y b]; [by rewrite app_nil_r|].
  destruct a as [|x a]; [simpl; by rewrite Nat.add_0_r|].
  destruct (splice_shape c p) as (h & Hh & E).
  rewrite !E by done. unfold splice.
  set (a' := x :: a). set (b' := y :: b).
  rewrite (app_assoc h a'), take_app_length' by (rewrite length_app; lia).
  replace (p + length a' - _)%nat with 0%nat by (rewrite !length_app; lia).
  rewrite drop_app_ge by (rewrite length_app; lia).
  rewrite drop_drop, !length_app, <- !app_assoc. cbn [replicate]. rewrite app_nil_l.
  do 4 f_equal. lia.
Qed.

Definition write_post (s : os) (fdn : nat) (d : desc) (c buf : list byte) (size n : nat)
    (retries : Z) (res : outcome (Z * os)) : Prop :=
  exists m r sc e,
    res = Ok (r, moved s fdn (Desc (d_file d) (d_pos d + m))
                   (<[d_file d := splice c (d_pos d) (take m (drop n buf))]> (files s)) sc e) /\
    (n + m <= size)%nat /\
    (r = -1 \/ r = Z.of_nat size /\ (n + m = size)%nat) /\
    (hard (script s) < retries -> Forall (fun q => q <> Short 0) (script s) -> r <> -1) /\
    sc `suffix_of` script s.

Lemma Forall_suffix {A} (P : A -> Prop) l l' : l `suffix_of` l' -> Forall P l' -> Forall P l.
Proof. intros [x ->]. rewrite Forall_app. by intros [_ ?]. Qed.

Lemma write_post_stop s fdn d c buf size n retries r sc e :
  opened s fdn d c -> (n <= size)%nat -> sc `suffix_of` script s ->
  (r = -1 \/ r = Z.of_nat size /\ n = size) ->
  (hard (script s) < retries -> Forall (fun q => q <> Short 0) (script s) -> r <> -1) ->
  write_post s fdn d c buf size n retries (Ok (r, moved s fdn d (files s) sc e)).
Proof.
  intros [_ Ho] Hn Hsc Hr Hh. exists 0%nat, r, sc, e. rewrite !Nat.add_0_r, take_0. simpl.
  rewrite insert_id by done. by destruct d.
Qed.

Lemma write_post_retry s fdn d c buf size n retries retries' sc e res :
  (hard (script s) < retries -> hard sc < retries') ->
  sc `suffix_of` script s ->
  write_post (moved s fdn d (files s) sc e) fdn d c buf size n retries' res ->
  write_post s fdn d c buf size n retries res.
Proof.
  intros Hh Hz (m & r & sc' & e' & -> & H1 & H2 & H3 & H4).
  exists m, r, sc', e'. rewrite moved_moved. simpl in *.
  split_and!; [done..| |by etrans]. eauto using Forall_suffix.
Qed.

Lemma write_post_more s fdn d c buf size n retries j sc e res :
  let bs := take j (drop n buf) in
  sc `suffix_of` script s ->
  write_post (moved s fdn (Desc (d_file d) (d_pos d + length bs))
                (<[d_file d := splice c (d_pos d) bs]> (files s)) sc e) fdn
    (Desc (d_file d) (d_pos d + length bs)) (splice c (d_pos d) bs) buf
    size (n + length bs) retries res ->
  write_post s fdn d c buf size n retries res.
Proof.
  intros bs Hz (m & r & sc' & e' & -> & H1 & H2 & H3 & H4). simpl in *.
  pose proof (hard_suffix _ _ Hz).
  exists (length bs + m)%nat, r, sc', e'.
  rewrite moved_moved, insert_insert_eq, splice_splice. simpl.
  split_and!; [|lia|naive_solver lia|intros; apply H3; [lia|by eapply Forall_suffix]|by etrans].
  rewrite <- (drop_drop buf _ n), Nat.add_assoc. unfold bs. by rewrite take_step.
Qed.

Lemma Forall_tail {A} (P : A -> Prop) l : Forall P l -> Forall P (tail l).
Proof. by destruct 1. Qed.

Lemma write_loop_spec fuel : forall s fdn d c buf size n retries,
  opened s fdn d c -> (size <= length buf)%nat -> (n <= size)%nat -> 0 < retries ->
  (length (script s) + (size - n) + Z.to_nat retries < fuel)%nat ->
  write_post s fdn d c buf size n retries
    (write_loop fuel (Z.of_nat fdn) buf size n retries s).
Proof.
  induction fuel as [|fuel IH]; intros s fdn d c buf size n retries Ho Hb Hn Hr Hf; [lia|].
  cbn [write_loop]. destruct (Nat.ltb_spec n size) as [Hlt|Hge].
  2:{ unfold io_ret. rewrite (opened_moved _ _ _ _ Ho) at 2.
      apply write_post_stop; [done..|right; split; lia|lia]. }
  unfold io_bind at 1, io_lift, mem_read. rewrite decide_True by lia. cbn [obind].
  unfold io_bind at 1. rewrite (sys_write_eq s fdn d c) by done. cbn [obind].
  assert (length (take (size - n) (drop n buf)) = size - n)%nat as Hlen
    by (rewrite length_take, length_drop; lia).
  rewrite Hlen. clear Hlen.
  set (bs r := take (rw_count r 0 (size - n)) (take (size - n) (drop n buf))).
  assert (forall r, r = reply_of s -> (forall e, r <> Fails e) ->
    write_post s fdn d c buf size n retries
    ((if 0 <? Z.of_nat (length (bs r))
      then write_loop fuel (Z.of_nat fdn) buf size (n + Z.to_nat (Z.of_nat (length (bs r)))) retries
      else if Z.of_nat (length (bs r)) =? 0 then io_ret (-1)
      else do* again := interrupted in
           if again then write_loop fuel (Z.of_nat fdn) buf size n retries
           else if negb (retries - 1 =? 0)
                then write_loop fuel (Z.of_nat fdn) buf size n (retries - 1)
                else io_ret (-1))
     (moved s fdn (Desc (d_file d) (d_pos d + length (bs r)))
        (<[d_file d := splice c (d_pos d) (bs r)]> (files s)) (tail (script s)) (errno s)))) as Hdata.
  { intros r Hre Hnf. destruct (rw_count_range r 0 (size - n)) as (Hc1 & Hc2 & _ & Hc4); [lia|].
    assert (bs r = take (rw_count r 0 (size - n)) (drop n buf)) as Eb
      by (unfold bs; rewrite take_take; f_equal; lia).
    assert (length (bs r) = rw_count r 0 (size - n)) as Hl
      by (rewrite Eb, length_take, length_drop; lia).
    rewrite Nat2Z.id.
    destruct (Z.ltb_spec 0 (Z.of_nat (length (bs r)))) as [Hpos|Hz].
    - rewrite Eb in *. eapply write_post_more; [apply suffix_tail|].
      apply IH; [|done|lia|done|].
      + destruct Ho. apply moved_opened, lookup_insert_eq.
      + pose proof (length_tail (script s)). cbn [script moved]. lia.
    - rewrite (proj2 (Z.eqb_eq _ _)) by lia. destruct (bs r) as [|] eqn:Eb'; simpl in Hz; [|lia].
      unfold io_ret. simpl. rewrite Nat.add_0_r, (insert_id (files s)) by apply Ho.
      destruct d as [f p]. apply write_post_stop; [done..|apply suffix_tail|by left|].
      intros _ HF. exfalso. simpl in Hl.
      assert (r = Short 0) as -> by (destruct (decide (r = Short 0)) as [|Hs]; [done|specialize (Hc4 Hs); lia]).
      unfold reply_of in Hre. destruct (script s) as [|r' sc]; [done|]. simpl in Hre. subst r'.
      by inversion HF. }
  destruct (reply_of s) as [|j|e] eqn:Hre; [by apply Hdata|by apply Hdata|].
  cbn [Z.ltb Z.eqb Z.compare].
  destruct (next_retries_hard s e retries Hre Hr) as (Hk1 & Hk2 & Hk3 & Hk4).
  rewrite (retry_eq (fun k => write_loop fuel (Z.of_nat fdn) buf size n k) _ e) by done.
  destruct (Z.eqb_spec (next_retries e retries) 0) as [Hz|Hz].
  - destruct (Hk4 Hz) as [-> Hh]. apply write_post_stop; [done..|apply suffix_tail|by left|done].
  - eapply write_post_retry; [exact Hk2|apply suffix_tail|].
    apply IH; [apply moved_opened, Ho|done|done|lia|]. cbn [script moved]. lia.
Qed.

(** ** Opening *)

(** The state with another script and [errno]. *)
Definition touch (s : os) (sc : list reply) (e : errno_val) : os :=
  Os (files s) (modes s) (fds s) (locks s) (next_fd s) (mask s) sc e.

Lemma touch_touch s sc e sc' e' : touch (touch s sc e) sc' e' = touch s sc' e'.
Proof. done. Qed.

Lemma sys_open_eq file flags mode s :
  sys_open file flags mode s =
    Ok (match reply_of s with
        | Fails _ => (-1, after s)
        | _ => if can_open file flags s
               then (Z.of_nat (next_fd s), open_state file flags mode (after s))
               else (-1, set_errno EOTHER (after s))
        end).
Proof.
  unfold sys_open, io_bind. rewrite syscall_eq. cbn [obind].
  destruct (reply_of s); [unfold open_file..|done];
    change (can_open file flags (after s)) with (can_open file flags s);
    by destruct (can_open file flags s).
Qed.

(** The failures at the start of a script. *)
Fixpoint lead_fails (sc : list reply) : nat :=
  match sc with Fails _ :: sc => S (lead_fails sc) | _ => 0 end.

(** One of [tries] attempts opened the file, or none did. *)
Definition open_post (s : os) (file : cstring) (flags mode : Z) (tries : nat)
    (res : outcome (Z * os)) : Prop :=
  exists sc e,
    sc `suffix_of` script s /\
    if can_open file flags s && (lead_fails (script s) <? tries)%nat
    then res = Ok (Z.of_nat (next_fd s), open_state file flags mode (touch s sc e))
    else res = Ok (-1, touch s sc e).

Lemma open_post_fails s sc e file flags mode tries tries' res :
  (can_open file flags s && (lead_fails (script s) <? tries)%nat
   = can_open file flags s && (lead_fails sc <? tries')%nat) -> sc `suffix_of` script s ->
  open_post (touch s sc e) file flags mode tries' res -> open_post s file flags mode tries res.
Proof.
  intros E Hs (sc' & e' & Hs' & H). exists sc', e'. split; [by etrans|]. rewrite E. exact H.
Qed.

Lemma open_loop_done file flags mode tries fd s :
  0 <= fd -> open_loop file flags mode tries fd s = Ok (fd, s).
Proof. destruct tries; [done|]. intros H. simpl. by rewrite (proj2 (Z.ltb_ge _ _)). Qed.

Lemma open_loop_spec file flags mode tries : forall s,
  open_post s file flags mode tries (open_loop file flags mode tries (-1) s).
Proof.
  induction tries as [|tries IH]; intros s.
  { exists (script s), (errno s). split; [done|]. rewrite andb_false_r. by destruct s. }
  cbn [open_loop Z.ltb Z.compare]. unfold io_bind. rewrite sys_open_eq. cbn [obind].
  assert (forall r, reply_of s = r -> (forall e, r <> Fails e) ->
    open_post s file flags mode (S tries)
      (let '(fd, s) := (if can_open file flags s
                        then (Z.of_nat (next_fd s), open_state file flags mode (after s))
                        else (-1, set_errno EOTHER (after s))) in
       open_loop file flags mode tries fd s)) as Hok.
  { intros r Hr Hn.
    assert (lead_fails (script s) = 0%nat) as Hl.
    { unfold reply_of in Hr. destruct (script s) as [|[| |e] sc]; try done. simpl in Hr.
      by destruct (Hn e). }
    destruct (can_open file flags s) eqn:Hc.
    - rewrite open_loop_done by lia. unfold open_post. rewrite Hc, Hl.
      eexists (tail (script s)), _. split; [apply suffix_tail|done].
    - apply (open_post_fails s (tail (script s)) EOTHER _ _ _ _ tries); [by rewrite Hc|apply suffix_tail|apply IH]. }
  destruct (reply_of s) as [| |e] eqn:Hr;
    [eapply Hok; [reflexivity|discriminate]|eapply Hok; [reflexivity|discriminate]|].
  apply (open_post_fails s (tail (script s)) e _ _ _ _ tries).
  - unfold reply_of in Hr. destruct (script s) as [|r sc]; [done|]. simpl in Hr. by subst r.
  - apply suffix_tail.
  - unfold after. rewrite Hr. apply IH.
Qed.

(** ** Properties *)

Lemma open_eq file flags mode s :
  exists sc e,
    sc `suffix_of` script s /\
    kvtree_open file flags (Some mode) s =
      Ok (if can_open file flags s && (lead_fails (script s) <? 6)%nat
          then (Z.of_nat (next_fd s),
                open_state file flags (if has_flag flags O_CREAT then mode else 0) (touch s sc e))
          else (-1, touch s sc e)).
Proof.
  set (m := if has_flag flags O_CREAT then mode else 0).
  destruct (open_loop_spec file flags m 6 s) as (sc & e & Hs & H). exists sc, e. split; [done|].
  transitivity (open_loop file flags m 6 (-1) s); [|by destruct (_ && _)].
  unfold kvtree_open, io_bind, io_lift.
  transitivity (let* (a, s) := sys_open file flags m s in
                (if a <? 0 then open_loop file flags m KVTREE_OPEN_TRIES a else io_ret a) s).
  { unfold m. by destruct (has_flag flags O_CREAT). }
  cbn [open_loop Z.ltb Z.compare]. unfold io_bind.
  destruct (sys_open file flags m s) as [[fd s']| | |]; simpl; try done.
  destruct (Z.ltb_spec fd 0); [done|]. done.
Qed.

(** [kvtree_open] makes at most six attempts and fails only when the system
    refused all of them or the file is missing and [O_CREAT] is not given; in
    that case no file and no descriptor changed, and otherwise the result is the
    new descriptor at the start of the file, created or truncated as the flags
    say. *)
Theorem open_retries file flags mode s :
  exists sc e,
    sc `suffix_of` script s /\
    kvtree_open file flags (Some mode) s =
      Ok (if can_open file flags s && (lead_fails (script s) <? 6)%nat
          then (Z.of_nat (next_fd s),
                open_state file flags (if has_flag flags O_CREAT then mode else 0) (touch s sc e))
          else (-1, touch s sc e)).
Proof. apply open_eq. Qed.

Lemma read_attempt_eq file fdn d c buf size s :
  opened s fdn d c -> (size <= length buf)%nat ->
  read_post s fdn d c buf size 0 10 (kvtree_read_attempt file (Z.of_nat fdn) buf size s).
Proof.
  intros Ho Hb. apply read_loop_spec; [done|done|lia|lia|]. unfold attempt_fuel. lia.
Qed.

(** C22. A read of [size] bytes from an open file always comes back, whatever the
    system replies: with [-1] after ten hard errors, or with the count of the
    next bytes of the file, now in the buffer, fewer than [size] only at the end
    of the file.  Interrupted and short reads are retried and never lose a byte.
    It cannot fail with fewer than ten hard errors. *)
Theorem read_attempt_spec file fdn d c buf size s :
  opened s fdn d c -> (size <= length buf)%nat ->
  read_post s fdn d c buf size 0 10 (kvtree_read_attempt file (Z.of_nat fdn) buf size s).
Proof. apply read_attempt_eq. Qed.

Lemma write_attempt_eq file fdn d c buf size s :
  opened s fdn d c -> (size <= length buf)%nat ->
  write_post s fdn d c buf size 0 10 (kvtree_write_attempt file (Z.of_nat fdn) buf size s).
Proof.
  intros Ho Hb. apply write_loop_spec; [done|done|lia|lia|]. unfold attempt_fuel. lia.
Qed.

(** C23. A write of [size] bytes to an open file always comes back: with [size],
    and then all the bytes are in the file at the position of the descriptor, or
    with [-1], and then a first part of them is.  It cannot fail when the system
    reports fewer than ten hard errors and never writes zero bytes. *)
Theorem write_attempt_spec file fdn d c buf size s :
  opened s fdn d c -> (size <= length buf)%nat ->
  write_post s fdn d c buf size 0 10 (kvtree_write_attempt file (Z.of_nat fdn) buf size s).
Proof. apply write_attempt_eq. Qed.

Lemma getmode_eq read write execute s :
  0 <= mask s < 512 ->
  exists m, kvtree_getmode read write execute s = Ok (m, s) /\ 0 <= m < 512 /\
    forall i, 0 <= i < 9 ->
      Z.testbit m i = (match i mod 3 with 0 => execute | 1 => write | _ => read end)
                      && negb (Z.testbit (mask s) i).
Proof.
  intros Hm. unfold kvtree_getmode, sys_umask, io_bind, io_ret. cbn [obind mask set_mask].
  assert (Z.land (mask s) 511 = mask s) as ->
    by (change 511 with (Z.ones 9); rewrite Z.land_ones, Z.mod_small; lia).
  eexists. split; [by destruct s|]. split.
  - change 511 with (Z.ones 9). rewrite Z.land_ones by lia. apply Z.mod_pos_bound. lia.
  - intros i Hi. rewrite !Z.land_spec, Z.lnot_spec by lia.
    assert (i = 0 \/ i = 1 \/ i = 2 \/ i = 3 \/ i = 4 \/ i = 5 \/ i = 6 \/ i = 7 \/ i = 8)
      as Hc by lia.
    destruct_or! Hc; subst i; destruct read, write, execute; cbn -[Z.testbit];
      by destruct (Z.testbit (mask s) _).
Qed.

(** [kvtree_getmode] leaves the umask as it found it and returns the
    permissions asked for, read, write and execute for user, group and others,
    less the ones the umask takes away. *)
Theorem getmode_spec read write execute s :
  0 <= mask s < 512 ->
  exists m, kvtree_getmode read write execute s = Ok (m, s) /\ 0 <= m < 512 /\
    forall i, 0 <= i < 9 ->
      Z.testbit m i = (match i mod 3 with 0 => execute | 1 => write | _ => read end)
                      && negb (Z.testbit (mask s) i).
Proof. apply getmode_eq. Qed.

Definition sample_os (sc : list reply) : os :=
  Os {[ str "f" := str "abcdef" ]} ∅ {[ 3%nat := Desc (str "f") 1 ]} ∅ 4 18 sc EOTHER.

Lemma sample_os_opened sc : opened (sample_os sc) 3 (Desc (str "f") 1) (str "abcdef").
Proof. split; apply lookup_singleton_eq. Qed.

Lemma getmode_spec_witness :
  exists m, kvtree_getmode true true false (sample_os []) = Ok (m, sample_os []) /\
    0 <= m < 512 /\
    forall i, 0 <= i < 9 ->
      Z.testbit m i = (match i mod 3 with 0 => false | 1 => true | _ => true end)
                      && negb (Z.testbit (mask (sample_os [])) i).
Proof. apply getmode_spec. vm_compute. split; [discriminate|reflexivity]. Defined.

Lemma read_attempt_spec_witness :
  kvtree_read_attempt (str "f") 3 (repeat NUL 4) 3 (sample_os [Short 1; Fails EINTR; Fails EOTHER])
    = Ok ((3, str "bcd" ++ [NUL]),
          moved (sample_os []) 3 (Desc (str "f") 4) {[ str "f" := str "abcdef" ]} [] EOTHER) /\
  read_post (sample_os [Short 1; Fails EINTR; Fails EOTHER]) 3 (Desc (str "f") 1) (str "abcdef")
    (repeat NUL 4) 3 0 10
    (kvtree_read_attempt (str "f") 3 (repeat NUL 4) 3
       (sample_os [Short 1; Fails EINTR; Fails EOTHER])).
Proof.
  split; [vm_compute; reflexivity|].
  apply (read_attempt_spec (str "f") 3 (Desc (str "f") 1) (str "abcdef")).
  - apply sample_os_opened.
  - vm_compute. lia.
Defined.

Lemma write_attempt_spec_witness :
  write_post (sample_os [Short 1; Fails EAGAIN]) 3 (Desc (str "f") 1) (str "abcdef")
    (str "XYZ") 3 0 10
    (kvtree_write_attempt (str "f") 3 (str "XYZ") 3 (sample_os [Short 1; Fails EAGAIN])).
Proof.
  apply (write_attempt_spec (str "f") 3 (Desc (str "f") 1) (str "abcdef")).
  - apply sample_os_opened.
  - vm_compute. lia.
Defined.

(** ** Closing and locking *)
Definition close_state (fdn : nat) (s : os) : os :=
  set_locks (delete fdn (locks s)) (set_fds (delete fdn (fds s)) s).

(** A script without errors and without empty transfers. *)
Definition benign (r : reply) : bool :=
  match r with Full | Short (S _) => true | _ => false end.

Definition calm (sc : list reply) : Prop := Forall (fun r => benign r = true) sc.

Lemma calm_suffix sc sc' : sc `suffix_of` sc' -> calm sc' -> calm sc.
Proof. apply Forall_suffix. Qed.

Lemma calm_hard sc : calm sc -> hard sc = 0.
Proof. induction 1 as [|[|[]|] sc Hr _ IH]; done. Qed.

Lemma calm_no_zero sc : calm sc -> Forall (fun q => q <> Short 0) sc.
Proof. apply Forall_impl. by intros [|[]|]. Qed.

Lemma calm_lead sc : calm sc -> lead_fails sc = 0%nat.
Proof. by destruct 1 as [|[|[]|] sc]. Qed.

Lemma calm_reply s e : calm (script s) -> reply_of s <> Fails e.
Proof. unfold reply_of. by destruct 1 as [|[|[]|] sc]. Qed.

#[export] Hint Resolve calm_suffix suffix_tail : kvtree.

Definition is_rc (rc : Z) : Prop := rc = KVTREE_SUCCESS \/ rc = KVTREE_FAILURE.

Lemma sys_close_spec s fdn d c :
  opened s fdn d c ->
  exists rc sc e, sys_close (Z.of_nat fdn) s = Ok (rc, close_state fdn (touch s sc e)) /\
    (rc = 0 \/ rc = -1) /\ sc `suffix_of` script s /\ (calm (script s) -> rc = 0).
Proof.
  intros Ho. unfold sys_close, io_bind. rewrite syscall_eq. cbn [obind].
  rewrite (with_fd_opened _ fdn d c) by done.
  destruct (reply_of s) eqn:Hr; eexists _, (tail (script s)), _;
    (split; [unfold after; rewrite Hr; done|]); split_and!; auto using suffix_tail.
  intros Hc. by destruct (calm_reply s e).
Qed.

Lemma close_spec file s fdn d c :
  opened s fdn d c ->
  exists rc sc e, kvtree_close file (Z.of_nat fdn) s = Ok (rc, close_state fdn (touch s sc e)) /\
    is_rc rc /\ sc `suffix_of` script s /\ (calm (script s) -> rc = KVTREE_SUCCESS).
Proof.
  intros Ho. unfold kvtree_close.
  assert (exists r, sys_fsync (Z.of_nat fdn) s = Ok (r, after s)) as [r Hf].
  { unfold sys_fsync, io_bind, io_ret. rewrite syscall_eq. cbn [obind].
    destruct (reply_of s); by eexists. }
  unfold io_bind at 1. rewrite Hf. cbn [obind].
  destruct (sys_close_spec (after s) fdn d c) as (rc & sc & e & Hc & Hrc & Hs & Hq); [done|].
  simpl in Hs, Hq. unfold io_bind. rewrite Hc. cbn [obind]. unfold io_ret, is_rc.
  assert (sc `suffix_of` script s) by (etrans; [done|apply suffix_tail]).
  destruct Hrc as [-> | ->]; cbn [Z.eqb negb]; eexists _, sc, e; (split; [done|]); split_and!; auto.
  intros Hc'. exfalso. assert (-1 = 0) by eauto with kvtree. done.
Qed.

Lemma sys_lock_spec s fdn d c op :
  opened s fdn d c ->
  exists rc sc e,
    sys_lock (Z.of_nat fdn) op s
      = Ok (rc, set_locks (if rc =? 0 then match op with Some ex => <[fdn := ex]> (locks s)
                                                      | None => delete fdn (locks s) end
                           else locks s) (touch s sc e)) /\
    (rc = 0 \/ rc = -1) /\ sc `suffix_of` script s /\ (calm (script s) -> rc = 0).
Proof.
  intros Ho. unfold sys_lock, io_bind. rewrite syscall_eq. cbn [obind].
  rewrite (with_fd_opened _ fdn d c) by done.
  destruct (reply_of s) eqn:Hr; unfold after; rewrite Hr;
    [exists 0|exists 0|exists (-1)]; eexists (tail (script s)), _;
    (split; [done|]); split_and!; auto using suffix_tail.
  intros Hc. by destruct (calm_reply s e).
Qed.

Section locking_specs.
Context `{LockConfig}.

(** The locks after a successful call of the configured locking functions. *)
Definition lock_table (b : bool) (fdn : nat) (op : option bool) (l : gmap nat bool) : gmap nat bool :=
  if b then match op with Some ex => <[fdn := ex]> l | None => delete fdn l end else l.

Definition locking : bool := KVTREE_FILE_LOCK_USE_FLOCK || KVTREE_FILE_LOCK_USE_FCNTL.

Lemma lock_call_spec (b : bool) s fdn d c op :
  opened s fdn d c ->
  exists rc sc e l,
    (if b then sys_lock (Z.of_nat fdn) op else io_ret 0) s = Ok (rc, set_locks l (touch s sc e)) /\
    (rc = 0 \/ rc = -1) /\ sc `suffix_of` script s /\ (calm (script s) -> rc = 0) /\
    (rc = 0 -> l = lock_table b fdn op (locks s)).
Proof.
  intros Ho. destruct b.
  - destruct (sys_lock_spec s fdn d c op Ho) as (rc & sc & e & E & Hrc & Hs & Hc).
    exists rc, sc, e. eexists. split; [exact E|]. split_and!; auto. by intros ->.
  - exists 0, (script s), (errno s), (locks s). split_and!; [by destruct s|auto..].
Qed.

(** Two calls in a row, as the two [#ifdef] sections make them. *)
Lemma lock_both_spec (k : io Z) op s fdn d c :
  k = (do* rc := (if KVTREE_FILE_LOCK_USE_FLOCK then sys_lock (Z.of_nat fdn) op else io_ret 0) in
       if negb (rc =? 0) then io_ret KVTREE_FAILURE
       else
         do* rc := (if KVTREE_FILE_LOCK_USE_FCNTL then sys_lock (Z.of_nat fdn) op else io_ret 0) in
         if rc <? 0 then io_ret KVTREE_FAILURE else io_ret KVTREE_SUCCESS) ->
  opened s fdn d c ->
  exists rc sc e l,
    k s = Ok (rc, set_locks l (touch s sc e)) /\ is_rc rc /\ sc `suffix_of` script s /\
    (calm (script s) -> rc = KVTREE_SUCCESS) /\
    (rc = KVTREE_SUCCESS -> l = lock_table locking fdn op (locks s)).
Proof.
  intros -> Ho. unfold is_rc.
  destruct (lock_call_spec KVTREE_FILE_LOCK_USE_FLOCK s fdn d c op Ho)
    as (rc & sc & e & l & E & Hrc & Hs & Hc & Hl).
  unfold io_bind at 1. rewrite E. cbn [obind].
  destruct (lock_call_spec KVTREE_FILE_LOCK_USE_FCNTL (set_locks l (touch s sc e)) fdn d c op)
    as (rc2 & sc2 & e2 & l2 & E2 & Hrc2 & Hs2 & Hc2 & Hl2); [done|]. simpl in Hs2, Hc2, Hl2.
  unfold io_bind. destruct Hrc as [-> | ->]; cbn [Z.eqb negb].
  - rewrite E2. cbn [obind]. specialize (Hl eq_refl).
    assert (sc2 `suffix_of` script s) by (by etrans).
    destruct Hrc2 as [-> | ->]; cbn [Z.ltb Z.compare]; unfold io_ret;
      eexists _, sc2, e2, l2; (split; [done|]); split_and!; auto.
    + intros _. rewrite (Hl2 eq_refl), Hl. unfold locking, lock_table.
      destruct KVTREE_FILE_LOCK_USE_FLOCK, KVTREE_FILE_LOCK_USE_FCNTL; simpl; try done.
      destruct op; [by rewrite insert_insert_eq|by rewrite delete_delete_eq].
    + intros Hq. assert (-1 = 0) by eauto with kvtree. done.
    + done.
  - unfold io_ret. eexists _, sc, e, l. split; [done|]. split_and!; auto; [|done].
    intros Hq. by specialize (Hc Hq).
Qed.

Lemma lock_spec file s fdn d c w :
  opened s fdn d c ->
  exists rc sc e l,
    kvtree_file_lock_read_write file (Z.of_nat fdn) w s = Ok (rc, set_locks l (touch s sc e)) /\
    is_rc rc /\ sc `suffix_of` script s /\ (calm (script s) -> rc = KVTREE_SUCCESS) /\
    (rc = KVTREE_SUCCESS -> l = lock_table locking fdn (Some w) (locks s)).
Proof. by apply lock_both_spec. Qed.

Lemma unlock_spec file s fdn d c :
  opened s fdn d c ->
  exists rc sc e l,
    kvtree_file_unlock file (Z.of_nat fdn) s = Ok (rc, set_locks l (touch s sc e)) /\
    is_rc rc /\ sc `suffix_of` script s /\ (calm (script s) -> rc = KVTREE_SUCCESS) /\
    (rc = KVTREE_SUCCESS -> l = lock_table locking fdn None (locks s)).
Proof. by apply lock_both_spec. Qed.

End locking_specs.

(** When the file opens but its lock is refused, [kvtree_open_with_lock]
    closes the descriptor and returns [KVTREE_FAILURE], which is [1]: its callers,
    who test for a negative result, take that for a descriptor. *)
Theorem open_with_lock_failure `{LockConfig} file flags mode w s e sc :
  script s = Full :: Fails e :: sc -> can_open file flags s = true ->
  KVTREE_FILE_LOCK_USE_FLOCK = true ->
  exists s', kvtree_open_with_lock file flags mode w s = Ok (1, s') /\
             fds s' = delete (next_fd s) (fds s).
Proof.
  intros Hsc Hc Hf. unfold kvtree_open_with_lock.
  assert (kvtree_open file flags (Some mode) s
          = Ok (Z.of_nat (next_fd s),
                open_state file flags (if has_flag flags O_CREAT then mode else 0) (after s))) as Ho.
  { unfold kvtree_open, io_bind, io_lift.
    destruct (has_flag flags O_CREAT); cbn [obind]; rewrite sys_open_eq;
      unfold reply_of; rewrite Hsc; simpl; rewrite Hc; cbn [obind];
      by rewrite (proj2 (Z.ltb_ge _ _)) by lia. }
  unfold io_bind at 1. rewrite Ho. cbn [obind].
  rewrite (proj2 (Z.ltb_ge _ _)) by lia.
  set (s1 := open_state _ _ _ _).
  assert (opened s1 (next_fd s) (Desc file 0) (default [] (files s1 !! file))) as Hop.
  { split; [apply lookup_insert_eq|]. unfold s1, open_state, can_open in *. simpl.
    destruct (files s !! file) eqn:E; [destruct (has_flag flags O_TRUNC)|];
      rewrite ?lookup_insert_eq, ?E; done. }
  assert (kvtree_file_lock_read_write file (Z.of_nat (next_fd s)) w s1
          = Ok (KVTREE_FAILURE, after s1)) as Hl.
  { unfold kvtree_file_lock_read_write, io_bind. rewrite Hf. unfold sys_lock, io_bind.
    rewrite syscall_eq. cbn [obind].
    rewrite (with_fd_opened _ _ _ _ _ _ (opened_after _ _ _ _ Hop)).
    unfold reply_of, s1. simpl. rewrite Hsc. done. }
  unfold io_bind at 1. rewrite Hl. cbn [obind Z.eqb KVTREE_FAILURE KVTREE_SUCCESS negb].
  destruct (sys_close_spec (after s1) _ _ _ (opened_after _ _ _ _ Hop))
    as (rc & sc' & e' & Hcl & _).
  unfold io_bind. rewrite Hcl. cbn [obind]. eexists. split; [done|].
  simpl. apply delete_insert_eq.
Qed.

(** The build uses [flock]. *)
Definition lock_flock : LockConfig :=
  {| KVTREE_FILE_LOCK_USE_FLOCK := true; KVTREE_FILE_LOCK_USE_FCNTL := false |}.

Lemma open_with_lock_failure_witness :
  exists s', @kvtree_open_with_lock lock_flock (str "f") O_RDWR 420 true
               (sample_os [Full; Fails EOTHER]) = Ok (1, s') /\
             fds s' = delete 4%nat (fds (sample_os [Full; Fails EOTHER])).
Proof.
  apply (@open_with_lock_failure lock_flock (str "f") O_RDWR 420 true
           (sample_os [Full; Fails EOTHER]) EOTHER []).
  - reflexivity.
  - vm_compute. reflexivity.
  - reflexivity.
Defined.

Lemma readable_spec file s :
  exists rc sc e, kvtree_file_is_readable file s = Ok (rc, touch s sc e) /\
    is_rc rc /\ sc `suffix_of` script s /\
    (rc = KVTREE_SUCCESS -> is_Some (files s !! file)) /\
    (calm (script s) -> is_Some (files s !! file) -> rc = KVTREE_SUCCESS).
Proof.
  unfold kvtree_file_is_readable, sys_access, io_bind. rewrite syscall_eq. cbn [obind].
  pose proof (suffix_tail (script s)) as Hs.
  assert (forall r, reply_of s = r -> (forall e, r <> Fails e) ->
    exists rc sc e,
      (let* (a, s0) := match files (after s) !! file with
                       | Some _ => Ok (0, after s)
                       | None => Ok (-1, set_errno EOTHER (after s))
                       end in
       (if a <? 0 then io_ret KVTREE_FAILURE else io_ret KVTREE_SUCCESS) s0)
        = Ok (rc, touch s sc e) /\ is_rc rc /\ sc `suffix_of` script s /\
      (rc = KVTREE_SUCCESS -> is_Some (files s !! file)) /\
      (calm (script s) -> is_Some (files s !! file) -> rc = KVTREE_SUCCESS)) as Hok.
  { intros r Hr Hn. cbn [files after]. destruct (files s !! file) eqn:E; cbn [obind Z.ltb Z.compare].
    - exists KVTREE_SUCCESS, (tail (script s)), (errno s).
      split_and!; [|by left|done|eauto|done].
      unfold io_ret, after. rewrite Hr. destruct r as [| |e]; [done|done|by destruct (Hn e)].
    - eexists KVTREE_FAILURE, (tail (script s)), EOTHER.
      split_and!; [done|by right|done|done|by intros ? []]. }
  destruct (reply_of s) as [| |e] eqn:Hr;
    [eapply Hok; [reflexivity|discriminate]|eapply Hok; [reflexivity|discriminate]|].
  cbn [obind io_ret Z.ltb Z.compare]. unfold io_ret. cbn [obind Z.ltb Z.compare].
  exists KVTREE_FAILURE, (tail (script s)), e.
  split_and!; [unfold after; by rewrite Hr|by right|done|done|].
  intros Hc. by destruct (calm_reply s e).
Qed.

(** A state the system can be in: the umask has nine bits and the next
    descriptors are free. *)
Definition os_ok (s : os) : Prop :=
  0 <= mask s < 512 /\ forall n, (next_fd s <= n)%nat -> fds s !! n = None.
