(* ===== verification/Persist.v ===== *)
(** Persisting a kvtree: [kvtree_persist_size], [kvtree_write_persist],
    [kvtree_write_fd], [kvtree_write_file], [kvtree_read_fd] and
    [kvtree_read_file] of [src/src/kvtree.c].

    A file is a 20-byte header (magic number, type, version, total size, flags),
    the packed hash and the crc32 of both.  [crc32] is zlib's: a parameter. *)

From S2P Require Import Prelude CLib ByteOrder Kvtree KvtreeSpec KvtreeMap KvtreeMerge Pack Io.

(** zlib: [crc32 crc buf] with [None] for [Z_NULL].  It computes a 32-bit value. *)
Class Zlib := {
  crc32 : Z -> option (list byte) -> Z;
  crc32_range crc buf : is_u32 (crc32 crc buf)
}.

Definition KVTREE_FILE_MAGIC : Z := 0x951fc3f5.
Definition KVTREE_FILE_TYPE_HASH : Z := 1.
Definition KVTREE_FILE_VERSION_HASH_1 : Z := 1.
Definition KVTREE_FILE_HASH_HEADER_SIZE : nat := 20.
Definition KVTREE_FILE_FLAGS_CRC32 : Z := 1.

Definition kvtree_persist_size (hash : option kvtree) : nat :=
  let pack_size := kvtree_pack_size hash in
  let size := (KVTREE_FILE_HASH_HEADER_SIZE + pack_size)%nat in
  (size + 4)%nat.

Section persist.
Context `{Host} `{Zlib}.

(** A call of a pack or unpack function with the addresses of local variables;
    its return code is not looked at. *)
Definition pack_local
    (f : option (list byte) -> Z -> option Z -> Z -> outcome (Z * option (list byte) * option Z))
    (buf : list byte) (buf_size pos : nat) (val : Z) : outcome (list byte * nat) :=
  let* (_, buf, pos) := f (Some buf) (Z.of_nat buf_size) (Some (Z.of_nat pos)) val in
  match buf, pos with Some b, Some p => Ok (b, Z.to_nat p) | _, _ => Undef end.

Definition unpack_local
    (f : option (list byte) -> Z -> option Z -> option Z -> outcome (Z * option Z * option Z))
    (buf : list byte) (buf_size pos : nat) : outcome (nat * Z) :=
  let* (_, pos, val) := f (Some buf) (Z.of_nat buf_size) (Some (Z.of_nat pos)) (Some 0) in
  match pos, val with Some p, Some v => Ok (Z.to_nat p, v) | _, _ => Undef end.

(** [crc32] over the first [(uInt) size] bytes of a block. *)
Definition crc_of (buf : list byte) (size : Z) : Z :=
  let crc := crc32 0 None in
  crc32 crc (Some (take (Z.to_nat (u32 size)) buf)).

(** The output pointers are given as whether they are not NULL; the values
    stored through them come back with the return code. *)
Definition kvtree_write_persist (ptr_buf ptr_size : bool) (hash : option kvtree)
    : outcome (Z * option (list byte * nat)) :=
  match ptr_buf, hash with
  | false, _ | _, None => Ok (KVTREE_FAILURE, None)
  | true, Some _ =>
      let bufsize := kvtree_persist_size hash in
      let* block := kvtree_malloc (Z.of_nat bufsize) in
      match block with
      | None => Undef
      | Some _ =>
          let buf := fresh_block bufsize in
          let size := 0%nat in
          let filesize := bufsize in
          let* (buf, size) := pack_local kvtree_pack_uint32_t buf filesize size (u32 KVTREE_FILE_MAGIC) in
          let* (buf, size) := pack_local kvtree_pack_uint16_t buf filesize size (u16 KVTREE_FILE_TYPE_HASH) in
          let* (buf, size) := pack_local kvtree_pack_uint16_t buf filesize size (u16 KVTREE_FILE_VERSION_HASH_1) in
          let* (buf, size) := pack_local kvtree_pack_uint64_t buf filesize size (u64 (Z.of_nat filesize)) in
          let flags := 0 in
          let flags := Z.lor flags KVTREE_FILE_FLAGS_CRC32 in
          let* (buf, size) := pack_local kvtree_pack_uint32_t buf filesize size (u32 flags) in
          let* (buf, n) := kvtree_pack buf size hash in
          let size := (size + n)%nat in
          let crc := crc_of buf (Z.of_nat size) in
          let* (buf, size) := pack_local kvtree_pack_uint32_t buf filesize size (u32 crc) in
          if negb (size =? bufsize)%nat then Abort
          else if ptr_size then Ok (KVTREE_SUCCESS, Some (buf, size))
          else Undef
      end
  end.

Definition kvtree_write_fd (file : option cstring) (fd : Z) (hash : option kvtree) : io Z :=
  match file, hash with
  | Some file, Some _ =>
      if fd <? 0 then io_ret (-1)
      else
        lift* (_, out) := kvtree_write_persist true true hash in
        match out with
        | None => fun _ => Undef
        | Some (buf, size) =>
            do* nwrite := kvtree_write_attempt file fd buf size in
            if negb (nwrite =? Z.of_nat size) then io_ret (-1) else io_ret nwrite
        end
  | _, _ => io_ret (-1)
  end.

Definition kvtree_write_file (file : option cstring) (hash : option kvtree) : io Z :=
  match file, hash with
  | Some name, Some _ =>
      let rc := KVTREE_SUCCESS in
      do* mode_file := kvtree_getmode true true false in
      do* fd := kvtree_open name (Z.lor O_WRONLY (Z.lor O_CREAT O_TRUNC)) (Some mode_file) in
      if fd <? 0 then io_ret KVTREE_FAILURE
      else
        do* nwrite := kvtree_write_fd file fd hash in
        let rc := if nwrite <? 0 then KVTREE_FAILURE else rc in
        do* r := kvtree_close name fd in
        let rc := if negb (r =? KVTREE_SUCCESS) then KVTREE_FAILURE else rc in
        io_ret rc
  | _, _ => io_ret KVTREE_FAILURE
  end.

(** The header fields and the checks on them: the file size and the flags, or
    [None] when a check fails. *)
Definition read_header (header : list byte) : outcome (option (Z * Z * nat)) :=
  let hs := KVTREE_FILE_HASH_HEADER_SIZE in
  let size := 0%nat in
  let* (size, magic) := unpack_local kvtree_unpack_uint32_t header hs size in
  let* (size, type) := unpack_local kvtree_unpack_uint16_t header hs size in
  let* (size, version) := unpack_local kvtree_unpack_uint16_t header hs size in
  if negb (magic =? KVTREE_FILE_MAGIC) || negb (type =? KVTREE_FILE_TYPE_HASH)
     || negb (version =? KVTREE_FILE_VERSION_HASH_1)
  then Ok None
  else
    let* (size, filesize) := unpack_local kvtree_unpack_uint64_t header hs size in
    let* (size, flags) := unpack_local kvtree_unpack_uint32_t header hs size in
    if filesize <? Z.of_nat KVTREE_FILE_HASH_HEADER_SIZE then Ok None
    else Ok (Some (filesize, flags, size)).

(** The check of the crc at the end of the file, when the flag says there is
    one. *)
Definition crc_ok (buf : list byte) (filesize flags : Z) : outcome bool :=
  let crc_set := Z.land flags KVTREE_FILE_FLAGS_CRC32 in
  if negb (crc_set =? 0) then
    let crc := crc_of buf (u64 (u32 filesize - 4)) in
    let* crc_file_network := mem_read buf (Z.to_nat (filesize - 4)) 4 in
    let crc_file := kvtree_ntoh32 (mem_to crc_file_network) in
    Ok (crc =? crc_file)
  else Ok true.

Definition kvtree_read_fd (file : option cstring) (fd : Z) (hash : option kvtree)
    : io (Z * option kvtree) :=
  match file, hash with
  | Some file, Some _ =>
      if fd <? 0 then io_ret (-1, hash)
      else
        do* (nread, header) := kvtree_read_attempt file fd
                                 (fresh_block KVTREE_FILE_HASH_HEADER_SIZE)
                                 KVTREE_FILE_HASH_HEADER_SIZE in
        if nread <? 0 then io_ret (-1, hash)
        else if nread =? 0 then io_ret (0, hash)
        else if negb (nread =? Z.of_nat KVTREE_FILE_HASH_HEADER_SIZE) then io_ret (-1, hash)
        else
          lift* fields := read_header header in
          match fields with
          | None => io_ret (-1, hash)
          | Some (filesize, flags, size) =>
              lift* block := kvtree_malloc filesize in
              match block with
              | None => fun _ => Undef
              | Some _ =>
                  let buf := fresh_block (Z.to_nat filesize) in
                  lift* buf := mem_write buf 0 (take size header) in
                  let remainder := filesize - Z.of_nat size in
                  do* (nread, buf) :=
                    (if 0 <? remainder then
                       do* (nread, rest) := kvtree_read_attempt file fd (drop size buf)
                                              (Z.to_nat remainder) in
                       io_ret (nread, take size buf ++ rest)
                     else io_ret (remainder, buf)) in
                  if nread <? 0 then io_ret (-1, hash)
                  else if negb (nread =? remainder) then io_ret (-1, hash)
                  else
                    lift* ok := crc_ok buf filesize flags in
                    if negb ok then io_ret (-1, hash)
                    else
                      let tmp_hash := kvtree_new in
                      lift* (_, tmp_hash) := kvtree_unpack buf size (Some tmp_hash) in
                      let '(hash, _) := kvtree_merge hash tmp_hash in
                      io_ret (i64 filesize, hash)
              end
          end
  | _, _ => io_ret (-1, hash)
  end.

Definition kvtree_read_file (file : option cstring) (hash : option kvtree)
    : io (Z * option kvtree) :=
  match file, hash with
  | Some name, Some _ =>
      do* r := kvtree_file_is_readable name in
      if negb (r =? KVTREE_SUCCESS) then io_ret (KVTREE_FAILURE, hash)
      else
        do* fd := kvtree_open name O_RDONLY None in
        if fd <? 0 then io_ret (KVTREE_FAILURE, hash)
        else
          let rc := KVTREE_SUCCESS in
          do* (nread, hash) := kvtree_read_fd file fd hash in
          let rc := if nread <? 0 then KVTREE_FAILURE else rc in
          do* r := kvtree_close name fd in
          let rc := if negb (r =? KVTREE_SUCCESS) then KVTREE_FAILURE else rc in
          io_ret (rc, hash)
  | _, _ => io_ret (KVTREE_FAILURE, hash)
  end.

End persist.

(** ** The file format *)
Section format.
Context `{Host} `{Zlib}.

Definition header_bytes (filesize flags : Z) : list byte :=
  be_split 4 KVTREE_FILE_MAGIC ++ be_split 2 KVTREE_FILE_TYPE_HASH ++
  be_split 2 KVTREE_FILE_VERSION_HASH_1 ++ be_split 8 filesize ++ be_split 4 flags.

(** The header and the packed hash: what the crc is computed over. *)
Definition payload (h : option kvtree) : list byte :=
  header_bytes (Z.of_nat (kvtree_persist_size h)) KVTREE_FILE_FLAGS_CRC32 ++ encode_opt h.

Definition persisted (h : option kvtree) : list byte :=
  payload h ++ be_split 4 (crc_of (payload h) (Z.of_nat (length (payload h)))).

Lemma header_bytes_length f g : length (header_bytes f g) = 20%nat.
Proof. unfold header_bytes. by rewrite !length_app, !be_split_length. Qed.

Lemma payload_length h : length (payload h) = (20 + kvtree_pack_size h)%nat.
Proof. unfold payload. by rewrite length_app, header_bytes_length, pack_size_encode. Qed.

Lemma persisted_length h : length (persisted h) = kvtree_persist_size h.
Proof. unfold persisted. rewrite length_app, be_split_length, payload_length. done. Qed.

(** A pack call that has room appends to what was written before. *)
Lemma pack_local_at n hton ntoh `{!NetworkOrder n hton ntoh} a rest buf size pos v :
  buf = a ++ rest -> pos = length a -> size = length buf -> (n <= length rest)%nat ->
  Z.of_nat size < 2 ^ 64 ->
  pack_local (pack_uint n hton) buf size pos v
    = Ok ((a ++ be_split n v) ++ drop n rest, length (a ++ be_split n v)).
Proof.
  intros -> -> -> Hn Hs. rewrite length_app in Hs. unfold pack_local.
  erewrite pack_uint_spec by (done || int_lia).
  rewrite decide_True by (rewrite length_app; lia). cbn [obind].
  rewrite <- Nat2Z.inj_add, !Nat2Z.id, take_app_length, drop_app_add, length_app, be_split_length. by rewrite <- app_assoc.
Qed.

Lemma kvtree_pack_at a rest h :
  (kvtree_pack_size h <= length rest)%nat ->
  kvtree_pack (a ++ rest) (length a) h
    = Ok ((a ++ encode_opt h) ++ drop (kvtree_pack_size h) rest, kvtree_pack_size h).
Proof.
  intros Hr. rewrite kvtree_pack_write by (destruct h; auto using tree_pack_write).
  unfold write_all, mem_write. rewrite pack_size_encode in *.
  rewrite decide_True by (rewrite length_app; lia). cbn [obind].
  by rewrite take_app_length, drop_app_add, <- app_assoc.
Qed.

Lemma crc_of_app a rest n :
  n = Z.of_nat (length a) -> crc_of (a ++ rest) n = crc_of a n.
Proof.
  intros ->. unfold crc_of. do 2 f_equal.
  rewrite take_app_le; [done|]. int_unfold.
  pose proof (Z.mod_le (Z.of_nat (length a)) (2 ^ 32)). lia.
Qed.

Lemma header_bytes_app f g :
  ((((([] ++ be_split 4 KVTREE_FILE_MAGIC) ++ be_split 2 KVTREE_FILE_TYPE_HASH) ++
      be_split 2 KVTREE_FILE_VERSION_HASH_1) ++ be_split 8 f) ++ be_split 4 g)
  = header_bytes f g.
Proof. unfold header_bytes. by rewrite <- !app_assoc. Qed.

Ltac pack_step n hton ntoh :=
  erewrite (pack_local_at n hton ntoh) by
    (first [reflexivity | rewrite !length_app, ?length_drop, ?be_split_length; cbn [length]; lia
           | rewrite ?length_drop; lia]); cbn [obind].

Lemma write_persist_eq t :
  Z.of_nat (kvtree_persist_size (Some t)) <= malloc_max ->
  kvtree_write_persist true true (Some t)
    = Ok (KVTREE_SUCCESS, Some (persisted (Some t), kvtree_persist_size (Some t))).
Proof.
  intros Hm. unfold kvtree_write_persist, kvtree_malloc.
  set (h := Some t) in *. set (bufsize := kvtree_persist_size h) in *.
  assert (bufsize = 20 + kvtree_pack_size h + 4)%nat as Hb by done.
  rewrite (proj2 (Z.ltb_lt 0 _)), (proj2 (Z.leb_le _ _)) by lia. cbn [obind].
  pose proof malloc_max_range as Hmm.
  pose proof (fresh_block_length bufsize) as Hl. set (b := fresh_block bufsize) in *.
  clearbody b. change b with ([] ++ b). change 0%nat with (length (@nil byte)) at 1.
  unfold kvtree_pack_uint32_t, kvtree_pack_uint16_t, kvtree_pack_uint64_t.
  pack_step 4%nat kvtree_hton32 kvtree_ntoh32.
  pack_step 2%nat kvtree_hton16 kvtree_ntoh16.
  pack_step 2%nat kvtree_hton16 kvtree_ntoh16.
  pack_step 8%nat kvtree_hton64 kvtree_ntoh64.
  pack_step 4%nat kvtree_hton32 kvtree_ntoh32.
  change (u32 KVTREE_FILE_MAGIC) with KVTREE_FILE_MAGIC.
  change (u16 KVTREE_FILE_TYPE_HASH) with KVTREE_FILE_TYPE_HASH.
  change (u16 KVTREE_FILE_VERSION_HASH_1) with KVTREE_FILE_VERSION_HASH_1.
  change (u32 (Z.lor 0 KVTREE_FILE_FLAGS_CRC32)) with KVTREE_FILE_FLAGS_CRC32.
  rewrite (u64_id (Z.of_nat bufsize)), header_bytes_app by int_lia.
  rewrite kvtree_pack_at by (rewrite !length_drop; lia). cbn [obind].
  change (header_bytes (Z.of_nat bufsize) KVTREE_FILE_FLAGS_CRC32 ++ encode_opt h) with (payload h).
  pose proof (payload_length h) as Hp.
  assert (length (header_bytes (Z.of_nat bufsize) KVTREE_FILE_FLAGS_CRC32) + kvtree_pack_size h
          = length (payload h))%nat as -> by (by rewrite header_bytes_length, Hp).
  rewrite crc_of_app by done.
  pack_step 4%nat kvtree_hton32 kvtree_ntoh32.
  rewrite u32_id by apply crc32_range.
  fold (persisted h). rewrite persisted_length, Nat.eqb_refl. cbn [negb].
  rewrite !drop_drop, drop_ge, app_nil_r by lia. done.
Qed.

(** ** Reading: the header *)
Definition header_ok (hd : list byte) : bool :=
  (be_combine (take 4 hd) =? KVTREE_FILE_MAGIC) &&
  (be_combine (take 2 (drop 4 hd)) =? KVTREE_FILE_TYPE_HASH) &&
  (be_combine (take 2 (drop 6 hd)) =? KVTREE_FILE_VERSION_HASH_1) &&
  (20 <=? be_combine (take 8 (drop 8 hd))).

Lemma unpack_local_slice n hton ntoh `{!NetworkOrder n hton ntoh} buf size pos :
  (size <= length buf)%nat -> (pos + n <= size)%nat -> Z.of_nat size < 2 ^ 64 ->
  unpack_local (unpack_uint n ntoh) buf size pos
    = Ok ((pos + n)%nat, be_combine (take n (drop pos buf))).
Proof.
  intros Hs Hp Hz. unfold unpack_local. erewrite unpack_uint_spec by (done || int_lia).
  rewrite decide_True by lia. cbn [obind]. by rewrite <- Nat2Z.inj_add, !Nat2Z.id.
Qed.

Lemma read_header_eq hd :
  length hd = 20%nat ->
  read_header hd =
    Ok (if header_ok hd
        then Some (be_combine (take 8 (drop 8 hd)), be_combine (take 4 (drop 16 hd)), 20%nat)
        else None).
Proof.
  intros Hl. unfold read_header, header_ok, kvtree_unpack_uint32_t, kvtree_unpack_uint16_t,
    kvtree_unpack_uint64_t, KVTREE_FILE_HASH_HEADER_SIZE.
  rewrite (unpack_local_slice 4 kvtree_hton32 kvtree_ntoh32) by lia. cbn [obind Nat.add].
  rewrite (unpack_local_slice 2 kvtree_hton16 kvtree_ntoh16) by lia. cbn [obind Nat.add].
  rewrite (unpack_local_slice 2 kvtree_hton16 kvtree_ntoh16) by lia. cbn [obind Nat.add].
  rewrite drop_0. destruct (be_combine (take 4 hd) =? KVTREE_FILE_MAGIC); [|done].
  destruct (be_combine (take 2 (drop 4 hd)) =? KVTREE_FILE_TYPE_HASH); [|done].
  destruct (be_combine (take 2 (drop 6 hd)) =? KVTREE_FILE_VERSION_HASH_1); [|done].
  cbn [negb orb andb].
  rewrite (unpack_local_slice 8 kvtree_hton64 kvtree_ntoh64) by lia. cbn [obind Nat.add].
  rewrite (unpack_local_slice 4 kvtree_hton32 kvtree_ntoh32) by lia. cbn [obind Nat.add].
  change (Z.of_nat 20) with 20. rewrite Z.leb_antisym.
  by destruct (be_combine (take 8 (drop 8 hd)) <? 20).
Qed.

Lemma header_fields f g :
  20 <= f < 2 ^ 64 -> is_u32 g ->
  header_ok (header_bytes f g) = true /\
  be_combine (take 8 (drop 8 (header_bytes f g))) = f /\
  be_combine (take 4 (drop 16 (header_bytes f g))) = g.
Proof.
  intros Hf Hg. unfold header_ok.
  assert (take 4 (header_bytes f g) = be_split 4 KVTREE_FILE_MAGIC) as ->
    by (apply take_app_length'; by rewrite be_split_length).
  assert (take 2 (drop 4 (header_bytes f g)) = be_split 2 KVTREE_FILE_TYPE_HASH) as -> by done.
  assert (take 2 (drop 6 (header_bytes f g)) = be_split 2 KVTREE_FILE_VERSION_HASH_1) as -> by done.
  assert (take 8 (drop 8 (header_bytes f g)) = be_split 8 f) as -> by done.
  assert (take 4 (drop 16 (header_bytes f g)) = be_split 4 g) as -> by done.
  rewrite !be_combine_split.
  change (Z.of_nat 8 * 8) with 64. change (Z.of_nat 4 * 8) with 32. change (Z.of_nat 2 * 8) with 16.
  rewrite (Z.mod_small f), (Z.mod_small g) by int_lia.
  split_and!; [|done..]. rewrite (proj2 (Z.leb_le 20 f)) by lia. done.
Qed.


(** ** Reading: the contents

    [parse bs hash]: the result of reading the bytes [bs] into [hash], as a
    function of the bytes alone. *)
Definition parse (bs : list byte) (hash : option kvtree) : outcome (Z * option kvtree) :=
  let hd := take 20 bs in
  if (length bs =? 0)%nat then Ok (0, hash)
  else if (length bs <? 20)%nat || negb (header_ok hd) then Ok (-1, hash)
  else
    let filesize := be_combine (take 8 (drop 8 hd)) in
    let flags := be_combine (take 4 (drop 16 hd)) in
    if malloc_max <? filesize then Abort
    else if Z.of_nat (length bs) <? filesize then Ok (-1, hash)
    else
      let buf := take (Z.to_nat filesize) bs in
      let* ok := crc_ok buf filesize flags in
      if negb ok then Ok (-1, hash)
      else
        let* (_, tmp) := kvtree_unpack buf 20 (Some kvtree_new) in
        Ok (filesize, (kvtree_merge hash tmp).1).

Lemma header_ok_size hd : header_ok hd = true -> 20 <= be_combine (take 8 (drop 8 hd)).
Proof. unfold header_ok. rewrite !andb_true_iff. intros [_ H1]. lia. Qed.

(** Reading a file either fails for a system error, and then the hash is
    unchanged, or gives what [parse] gives for the bytes from the descriptor
    on. *)
Definition read_fd_post (s : os) (fdn : nat) (d : desc) (c : list byte) (hash : option kvtree)
    (res : outcome (Z * option kvtree * os)) : Prop :=
  exists p sc e,
    let s' := moved s fdn (Desc (d_file d) p) (files s) sc e in
    (res = (let* r := parse (drop (d_pos d) c) hash in Ok (r, s')) \/ res = Ok ((-1, hash), s')) /\
    (hard (script s) < 10 ->
     res = (let* r := parse (drop (d_pos d) c) hash in Ok (r, s'))) /\
    sc `suffix_of` script s.

(** The part of [kvtree_read_fd] after both reads, on the whole file [buf]. *)
Lemma read_fd_tail buf bs filesize flags (hash : option kvtree) s :
  buf = take (Z.to_nat filesize) bs -> is_i64 filesize ->
  (lift* ok := crc_ok buf filesize flags in
   if negb ok then io_ret (-1, hash)
   else
     let tmp_hash := kvtree_new in
     lift* (_, tmp_hash) := kvtree_unpack buf 20 (Some tmp_hash) in
     let '(hash, _) := kvtree_merge hash tmp_hash in
     io_ret (i64 filesize, hash)) s
  = (let* r := (let* ok := crc_ok buf filesize flags in
                if negb ok then Ok (-1, hash)
                else
                  let* (_, tmp) := kvtree_unpack buf 20 (Some kvtree_new) in
                  Ok (filesize, (kvtree_merge hash tmp).1)) in Ok (r, s)).
Proof.
  intros _ Hf. unfold io_bind, io_lift, io_ret. rewrite i64_id by done.
  destruct (crc_ok buf filesize flags) as [[|]| | |]; cbn [obind negb]; try done.
  destruct (kvtree_unpack buf 20 _) as [[n tmp]| | |]; cbn [obind]; try done.
  by destruct (kvtree_merge hash tmp).
Qed.

Lemma read_fd_fail s fdn d c hash p sc e :
  ~ hard (script s) < 10 -> sc `suffix_of` script s ->
  read_fd_post s fdn d c hash
    (Ok ((-1, hash), moved s fdn (Desc (d_file d) p) (files s) sc e)).
Proof. intros Hh Hs. exists p, sc, e. simpl. split_and!; [by right|done|done]. Qed.

Lemma read_fd_done s fdn d c hash p sc e r :
  parse (drop (d_pos d) c) hash = r -> sc `suffix_of` script s ->
  read_fd_post s fdn d c hash
    (let* r := r in Ok (r, moved s fdn (Desc (d_file d) p) (files s) sc e)).
Proof. intros <- Hs. exists p, sc, e. simpl. auto. Qed.

Lemma read_fd_ok s fdn d c hash p sc e r :
  parse (drop (d_pos d) c) hash = Ok r -> sc `suffix_of` script s ->
  read_fd_post s fdn d c hash (Ok (r, moved s fdn (Desc (d_file d) p) (files s) sc e)).
Proof. apply (read_fd_done s fdn d c hash p sc e (Ok r)). Qed.

(** The end of [kvtree_read_fd], when [nread] of the remaining bytes were read. *)
Lemma read_fd_end s fdn d c t p sc e bs filesize flags nread buf :
  bs = drop (d_pos d) c -> sc `suffix_of` script s -> is_i64 filesize -> 20 <= filesize ->
  parse bs (Some t) =
    (if Z.of_nat (length bs) <? filesize then Ok (-1, Some t)
     else
       let* ok := crc_ok (take (Z.to_nat filesize) bs) filesize flags in
       if negb ok then Ok (-1, Some t)
       else
         let* (_, tmp) := kvtree_unpack (take (Z.to_nat filesize) bs) 20 (Some kvtree_new) in
         Ok (filesize, (kvtree_merge (Some t) tmp).1)) ->
  (nread = -1 /\ ~ hard (script s) < 10 \/
   0 <= nread < filesize - 20 /\ Z.of_nat (length bs) < filesize \/
   nread = filesize - 20 /\ buf = take (Z.to_nat filesize) bs /\
     filesize <= Z.of_nat (length bs)) ->
  read_fd_post s fdn d c (Some t)
    ((if nread <? 0 then io_ret (-1, Some t)
      else if negb (nread =? filesize - Z.of_nat 20) then io_ret (-1, Some t)
      else
        lift* ok := crc_ok buf filesize flags in
        if negb ok then io_ret (-1, Some t)
        else
          let tmp_hash := kvtree_new in
          lift* (_, tmp_hash) := kvtree_unpack buf 20 (Some tmp_hash) in
          let '(hash, _) := kvtree_merge (Some t) tmp_hash in
          io_ret (i64 filesize, hash))
      (moved s fdn (Desc (d_file d) p) (files s) sc e)).
Proof.
  intros Ebs Hsc Hf H20 Hp Hn. subst bs. destruct Hn as [[-> Hh]|[[Hn Hl]|(-> & -> & Hl)]].
  - by apply read_fd_fail.
  - rewrite (proj2 (Z.ltb_ge _ _)), (proj2 (Z.eqb_neq _ _)) by lia. cbn [negb].
    apply read_fd_ok; [|done]. rewrite Hp. by rewrite (proj2 (Z.ltb_lt _ _)) by lia.
  - rewrite (proj2 (Z.ltb_ge _ filesize)) in Hp by lia. rewrite (proj2 (Z.ltb_ge _ _)) by lia.
    rewrite (proj2 (Z.eqb_eq _ _)) by lia. cbn [negb].
    erewrite read_fd_tail by done. by apply read_fd_done.
Qed.

Lemma read_fd_refines file fdn d c t s :
  opened s fdn d c ->
  read_fd_post s fdn d c (Some t) (kvtree_read_fd (Some file) (Z.of_nat fdn) (Some t) s).
Proof.
  intros Ho. unfold kvtree_read_fd. rewrite (proj2 (Z.ltb_ge _ _)) by lia.
  unfold io_bind at 1, KVTREE_FILE_HASH_HEADER_SIZE.
  destruct (read_attempt_eq file fdn d c (fresh_block 20) 20 s Ho) as
    (m & r & sc & e & E & Hm & Hm' & Hr & Hh & Hsc); [by rewrite fresh_block_length|].
  rewrite E. cbn [obind]. clear E. set (bs := drop (d_pos d) c) in *.
  destruct Hr as [-> | [-> Hr]].
  { cbn [Z.ltb Z.compare]. apply read_fd_fail; [|done]. intros Hq. by destruct (Hh Hq). }
  rewrite (proj2 (Z.ltb_ge _ _)) by lia. cbn [Nat.add] in *.
  destruct (Z.eqb_spec (Z.of_nat m) 0) as [Hz|Hz].
  { apply read_fd_ok; [|done]. unfold parse. fold bs. by assert (length bs = 0%nat) as -> by lia. }
  assert (length bs <> 0%nat) as Hne by lia.
  destruct (Z.eqb_spec (Z.of_nat m) (Z.of_nat 20)) as [H20|H20]; cbn [negb].
  2:{ apply read_fd_ok; [|done]. unfold parse. fold bs.
      by rewrite (proj2 (Nat.eqb_neq _ _)), (proj2 (Nat.ltb_lt _ _)) by lia. }
  assert (m = 20%nat) as -> by lia.
  rewrite take_0, drop_ge, app_nil_r, app_nil_l by (by rewrite fresh_block_length).
  assert (length (take 20 bs) = 20%nat) as Hl by (rewrite length_take; lia).
  unfold io_bind at 1, io_lift. rewrite read_header_eq by done. cbn [obind].
  pose proof (eq_refl (parse bs (Some t))) as Hp. unfold parse at 2 in Hp.
  rewrite (proj2 (Nat.eqb_neq _ _)), (proj2 (Nat.ltb_ge _ _)) in Hp by lia. cbn [orb] in Hp.
  destruct (header_ok (take 20 bs)) eqn:Hok; cbn [negb] in *.
  2:{ by apply read_fd_ok. }
  apply header_ok_size in Hok.
  set (filesize := be_combine (take 8 (drop 8 (take 20 bs)))) in *.
  set (flags := be_combine (take 4 (drop 16 (take 20 bs)))) in *.
  unfold io_bind at 1, io_lift, kvtree_malloc. rewrite (proj2 (Z.ltb_lt 0 _)) by lia.
  rewrite Z.leb_antisym. destruct (malloc_max <? filesize) eqn:Hmm; cbn [negb obind].
  { apply (read_fd_done s fdn d c (Some t) 0%nat sc e Abort Hp Hsc). }
  apply Z.ltb_ge in Hmm. pose proof malloc_max_range as Hmax.
  set (fr := drop 20 (fresh_block (Z.to_nat filesize))).
  assert (length fr = Z.to_nat (filesize - 20)) as Hfr
    by (unfold fr; rewrite length_drop, fresh_block_length; lia).
  unfold io_bind at 1, io_lift.
  assert (mem_write (fresh_block (Z.to_nat filesize)) 0 (take 20 (take 20 bs))
          = Ok (take 20 bs ++ fr)) as ->.
  { rewrite take_take. change (Nat.min 20 20) with 20%nat. unfold mem_write.
    rewrite Hl, fresh_block_length, decide_True by lia. done. }
  cbn [obind]. unfold io_bind at 1.
  rewrite drop_app_length', take_app_length' by (by rewrite Hl).
  destruct (Z.ltb_spec 0 (filesize - Z.of_nat 20)) as [Hrem|Hrem].
  - set (s1 := moved _ _ _ _ _ _).
    destruct (read_attempt_eq file fdn (Desc (d_file d) (d_pos d + 20)) c fr
                (Z.to_nat (filesize - Z.of_nat 20)) s1) as
      (m & r & sc2 & e2 & E & Hm2 & Hm2' & Hr2 & Hh2 & Hsc2);
      [by destruct Ho; apply moved_opened|lia|].
    unfold io_bind. rewrite E. cbn [obind]. unfold io_ret at 1. cbn [obind].
    unfold s1. rewrite moved_moved. simpl d_file. simpl d_pos. simpl files.
    simpl in Hm2', Hr2, Hh2. rewrite <- drop_drop in Hm2', Hr2. fold bs in Hm2', Hr2.
    rewrite length_drop in Hm2', Hr2. cbn [Nat.add] in *.
    pose proof (hard_suffix _ _ Hsc).
    apply (read_fd_end s fdn d c t _ sc2 e2 bs);
      [done|by etrans|int_lia|done|exact Hp|].
    destruct Hr2 as [-> | [-> Hr2]]; [left; split; [done|intros Hq; apply Hh2; [lia|done]]|right].
    destruct (decide (m < Z.to_nat (filesize - Z.of_nat 20))%nat) as [Hlt|Hge];
      [left; specialize (Hr2 Hlt); lia|right].
    split_and!; [lia| |lia]. cbn [d_pos]. rewrite take_0, app_nil_l, <- drop_drop. fold bs.
    rewrite (drop_ge fr), app_nil_r by lia. rewrite take_take_drop. f_equal. lia.
  - unfold io_ret at 1. cbn [obind].
    apply (read_fd_end s fdn d c t _ sc e bs); [done|done|int_lia|done|exact Hp|].
    right. right. split_and!; [lia| |lia].
    destruct fr; [|simpl in Hfr; lia]. rewrite app_nil_r. f_equal. lia.
Qed.


(** ** Reading what was written *)
Lemma crc_of_u32 b n n' : u32 n = u32 n' -> crc_of b n = crc_of b n'.
Proof. unfold crc_of. by intros ->. Qed.

Lemma kvtree_unpack_stream buf pos t rest :
  small t = true -> drop pos buf = encode t ++ rest ->
  kvtree_unpack buf pos (Some kvtree_new) = Ok (length (encode t), Some (unpacked t)).
Proof.
  intros Hs E. unfold kvtree_unpack, kvtree_new.
  rewrite (tree_unpack_stream t _ _ _ rest [] Hs E).
  - cbn [obind]. rewrite app_nil_r. by destruct (unpacked t).
  - apply (f_equal length) in E. rewrite length_drop, length_app in E. unfold unpack_fuel. lia.
Qed.

Lemma crc_ok_persisted h :
  Z.of_nat (kvtree_persist_size h) < 2 ^ 63 ->
  crc_ok (persisted h) (Z.of_nat (kvtree_persist_size h)) KVTREE_FILE_FLAGS_CRC32 = Ok true.
Proof.
  intros Hs. unfold crc_ok. change (Z.land _ _) with 1. cbn [Z.eqb negb].
  assert (kvtree_persist_size h = length (payload h) + 4)%nat as Hl by (by rewrite payload_length).
  rewrite Hl in *. replace (Z.to_nat _) with (length (payload h)) by lia.
  set (c := crc_of (payload h) (Z.of_nat (length (payload h)))).
  assert (mem_read (persisted h) (length (payload h)) 4 = Ok (be_split 4 c)) as ->.
  { unfold persisted. fold c. rewrite <- (app_nil_r (be_split 4 c)).
    pose proof (mem_read_split (payload h) (be_split 4 c) []) as Hr.
    by rewrite be_split_length in Hr. }
  cbn [obind]. rewrite ntoh_bytes, be_combine_split by apply be_split_length.
  f_equal. apply Z.eqb_eq. change (Z.of_nat 4 * 8) with 32.
  rewrite (Z.mod_small c) by apply crc32_range.
  rewrite (crc_of_u32 _ _ (Z.of_nat (length (payload h)))) by int_lia.
  unfold c, persisted. by apply crc_of_app.
Qed.

Lemma parse_persisted t h junk :
  small t = true -> Z.of_nat (kvtree_persist_size (Some t)) <= malloc_max ->
  parse (persisted (Some t) ++ junk) (Some h)
    = Ok (Z.of_nat (kvtree_persist_size (Some t)),
          (kvtree_merge (Some h) (Some (unpacked t))).1).
Proof.
  intros Hs Hm. pose proof malloc_max_range as Hmax.
  pose proof (persisted_length (Some t)) as Hl.
  set (n := kvtree_persist_size (Some t)) in *.
  assert (24 <= n)%nat as Hn by (unfold n, kvtree_persist_size, KVTREE_FILE_HASH_HEADER_SIZE; lia).
  unfold parse.
  assert (take 20 (persisted (Some t) ++ junk)
          = header_bytes (Z.of_nat n) KVTREE_FILE_FLAGS_CRC32) as ->.
  { unfold persisted, payload. rewrite <- !app_assoc.
    apply take_app_length'. by rewrite header_bytes_length. }
  destruct (header_fields (Z.of_nat n) KVTREE_FILE_FLAGS_CRC32) as (-> & -> & ->);
    [lia|unfold KVTREE_FILE_FLAGS_CRC32; int_lia|].
  rewrite length_app, Hl, (proj2 (Nat.eqb_neq _ _)), (proj2 (Nat.ltb_ge _ _)) by lia. cbn [orb negb].
  rewrite !(proj2 (Z.ltb_ge _ _)) by lia.
  rewrite take_app_length' by (by rewrite Hl, Nat2Z.id).
  unfold n. rewrite crc_ok_persisted by (fold n; lia). cbn [obind negb].
  rewrite (kvtree_unpack_stream (persisted (Some t)) 20 t
             (be_split 4 (crc_of (payload (Some t)) (Z.of_nat (length (payload (Some t))))))); done.
Qed.

(** What [parse] accepts: a result above zero means the header was valid, the
    file complete and its crc right; otherwise the hash is unchanged. *)
Lemma parse_sound bs t r h' :
  parse bs (Some t) = Ok (r, h') ->
  (r <= 0 /\ h' = Some t) \/
  (header_ok (take 20 bs) = true /\ r = be_combine (take 8 (drop 8 (take 20 bs))) /\
   20 <= r <= Z.of_nat (length bs) /\
   crc_ok (take (Z.to_nat r) bs) r (be_combine (take 4 (drop 16 (take 20 bs)))) = Ok true /\
   exists n u, kvtree_unpack (take (Z.to_nat r) bs) 20 (Some kvtree_new) = Ok (n, Some u) /\
               keys_ok u = true /\ h' = (kvtree_merge (Some t) (Some u)).1).
Proof.
  unfold parse. set (hd := take 20 bs). set (f := be_combine (take 8 (drop 8 hd))).
  destruct (length bs =? 0)%nat; [intros [= <- <-]; left; split; [lia|done]|].
  destruct (length bs <? 20)%nat; [intros [= <- <-]; left; split; [lia|done]|].
  destruct (header_ok hd) eqn:Hok; [|intros [= <- <-]; left; split; [lia|done]].
  pose proof (header_ok_size hd Hok) as H20. fold f in H20. cbn [orb negb].
  destruct (malloc_max <? f); [done|].
  destruct (Z.ltb_spec (Z.of_nat (length bs)) f) as [|Hlen];
    [intros [= <- <-]; left; split; [lia|done]|].
  destruct (crc_ok _ _ _) as [[|]| | |] eqn:Hcrc; cbn [obind negb]; try done;
    [|intros [= <- <-]; left; split; [lia|done]].
  pose proof (unpack_stops_at (take (Z.to_nat f) bs) 20) as Hu.
  destruct (kvtree_unpack _ 20 _) as [[n [u|]]| | |] eqn:Hun; cbn [obind]; try done.
  intros [= <- <-]. right. split_and!; [done|done|lia|lia|done|].
  exists n, u. split_and!; [done|apply Hu|done].
Qed.

End format.

(** ** Files *)
Section files.
Context `{Host} `{Zlib}.

Definition fits (t : kvtree) : Prop :=
  small t = true /\ Z.of_nat (kvtree_persist_size (Some t)) <= malloc_max.

Lemma write_fd_spec file s fdn d c t :
  opened s fdn d c -> Z.of_nat (kvtree_persist_size (Some t)) <= malloc_max ->
  exists m r sc e,
    kvtree_write_fd (Some file) (Z.of_nat fdn) (Some t) s
      = Ok (r, moved s fdn (Desc (d_file d) (d_pos d + m))
                 (<[d_file d := splice c (d_pos d) (take m (persisted (Some t)))]> (files s)) sc e) /\
    (r = -1 \/ 0 <= r /\ m = length (persisted (Some t))) /\
    sc `suffix_of` script s /\ (calm (script s) -> r <> -1).
Proof.
  intros Ho Hm. unfold kvtree_write_fd. rewrite (proj2 (Z.ltb_ge _ _)) by lia.
  unfold io_bind at 1, io_lift. rewrite write_persist_eq by done. cbn [obind].
  destruct (write_attempt_eq file fdn d c (persisted (Some t)) (kvtree_persist_size (Some t)) s Ho)
    as (m & r & sc & e & E & Hle & Hr & Hh & Hs); [by rewrite persisted_length|].
  unfold io_bind. rewrite E. cbn [obind]. rewrite drop_0.
  assert (calm (script s) -> r <> -1) as Hcalm.
  { intros Hc. apply Hh; [rewrite calm_hard by done; lia|by apply calm_no_zero]. }
  destruct Hr as [-> | [-> Hr]]; unfold io_ret.
  - rewrite (proj2 (Z.eqb_neq _ _)) by lia. cbn [negb].
    exists m, (-1), sc, e. split_and!; auto.
  - rewrite Z.eqb_refl. cbn [negb]. exists m, (Z.of_nat (kvtree_persist_size (Some t))), sc, e.
    rewrite persisted_length. split_and!; [done|right; lia|done|done].
Qed.

Lemma write_file_eq file t s :
  os_ok s -> Z.of_nat (kvtree_persist_size (Some t)) <= malloc_max ->
  exists rc s', kvtree_write_file (Some file) (Some t) s = Ok (rc, s') /\
    is_rc rc /\ fds s' = fds s /\ os_ok s' /\ script s' `suffix_of` script s /\
    (files s' = files s \/ exists m, files s' = <[file := take m (persisted (Some t))]> (files s)) /\
    (rc = KVTREE_SUCCESS -> files s' = <[file := persisted (Some t)]> (files s)) /\
    (calm (script s) -> rc = KVTREE_SUCCESS).
Proof.
  intros [Hmask Hnext] Hm. unfold kvtree_write_file.
  destruct (getmode_eq true true false s Hmask) as (mode & Eg & _).
  unfold io_bind at 1. rewrite Eg. cbn [obind].
  set (flags := Z.lor O_WRONLY (Z.lor O_CREAT O_TRUNC)).
  destruct (open_eq file flags mode s) as (sc & e & Hs & Eo).
  unfold io_bind at 1. rewrite Eo. cbn [obind].
  assert (can_open file flags s = true) as -> by (unfold can_open; by destruct (files s !! file)).
  cbn [andb]. destruct (Nat.ltb_spec (lead_fails (script s)) 6) as [Hl|Hl].
  2:{ cbn [Z.ltb Z.compare]. unfold io_ret. eexists KVTREE_FAILURE, (touch s sc e).
      split_and!; [done|by right|done|done|done|by left|done|].
      intros Hc. rewrite calm_lead in Hl by done. lia. }
  rewrite (proj2 (Z.ltb_ge _ _)) by lia.
  set (s1 := open_state _ _ _ _).
  assert (files s1 = <[file := []]> (files s)) as Hf1
    by (unfold s1, open_state; simpl; by destruct (files s !! file)).
  assert (opened s1 (next_fd s) (Desc file 0) []) as Ho1.
  { split; [apply lookup_insert_eq|]. rewrite Hf1. apply lookup_insert_eq. }
  destruct (write_fd_spec file s1 _ _ _ t Ho1 Hm) as (m & r & sc2 & e2 & Ew & Hr & Hs2 & Hcalm).
  unfold io_bind at 1. rewrite Ew. cbn [obind]. cbn [d_file d_pos] in *.
  assert (splice [] 0 (take m (persisted (Some t))) = take m (persisted (Some t))) as Esp.
  { unfold splice. destruct (take m _) eqn:E; [done|]. simpl. by rewrite app_nil_r. }
  rewrite Esp, Hf1, insert_insert_eq in *.
  set (s2 := moved _ _ _ _ _ _).
  destruct (close_spec file s2 (next_fd s) (Desc file (0 + m)) (take m (persisted (Some t))))
    as (rc & sc3 & e3 & Ec & Hrc & Hs3 & Hcalm3).
  { apply moved_opened, lookup_insert_eq. }
  unfold io_bind. rewrite Ec. cbn [obind]. unfold io_ret.
  eexists _, _. split; [done|].
  assert (script s1 = sc) as Hsc1 by done. rewrite Hsc1 in Hs2, Hcalm.
  assert (script s2 = sc2) as Hsc2 by done. rewrite Hsc2 in Hs3, Hcalm3.
  split_and!.
  - unfold is_rc in *. destruct Hrc as [-> | ->], (r <? 0); simpl; auto.
  - simpl. rewrite insert_insert_eq, delete_insert_id; [done|]. apply Hnext. lia.
  - split; [done|]. simpl. intros n Hn. rewrite insert_insert_eq, lookup_delete_ne, lookup_insert_ne by lia.
    apply Hnext. lia.
  - simpl. etrans; [done|]. by etrans.
  - right. by exists m.
  - intros Hrcs. simpl. f_equal. destruct Hr as [-> | [Hr ->]].
    + by destruct (rc =? KVTREE_SUCCESS).
    + apply take_ge. lia.
  - intros Hc. assert (r <> -1) as Hr1 by eauto with kvtree.
    assert (rc = KVTREE_SUCCESS) as -> by (apply Hcalm3; eauto with kvtree).
    destruct Hr as [|[Hr _]]; [done|]. by rewrite (proj2 (Z.ltb_ge _ _)).
Qed.

(** C15. Writing a hash to a file, whatever the system replies, comes back with a
    return code, leaves no descriptor open and touches no other file.  If it
    reports success the file holds exactly the persisted form of the hash:
    header, packed hash and crc32.  If it reports failure the file is as before
    or holds a first part of that.  Without system errors it succeeds. *)
Theorem write_file_spec file t s :
  os_ok s -> Z.of_nat (kvtree_persist_size (Some t)) <= malloc_max ->
  exists rc s', kvtree_write_file (Some file) (Some t) s = Ok (rc, s') /\
    is_rc rc /\ fds s' = fds s /\ os_ok s' /\ script s' `suffix_of` script s /\
    (files s' = files s \/ exists m, files s' = <[file := take m (persisted (Some t))]> (files s)) /\
    (rc = KVTREE_SUCCESS -> files s' = <[file := persisted (Some t)]> (files s)) /\
    (calm (script s) -> rc = KVTREE_SUCCESS).
Proof. apply write_file_eq. Qed.

(** What a read of a file that holds [c] does, when [parse] has a result. *)
Definition read_file_post (t : kvtree) (s : os) (r : Z) (h : option kvtree)
    (res : outcome (Z * option kvtree * os)) : Prop :=
  exists rc h' s',
    res = Ok ((rc, h'), s') /\ is_rc rc /\ files s' = files s /\ fds s' = fds s /\ os_ok s' /\
    script s' `suffix_of` script s /\
    (rc = KVTREE_SUCCESS -> 0 <= r /\ h' = h) /\
    (h' = Some t \/ h' = h) /\
    (calm (script s) -> rc = if 0 <=? r then KVTREE_SUCCESS else KVTREE_FAILURE).

Lemma read_file_spec file t s c r h :
  os_ok s -> files s !! file = Some c -> parse c (Some t) = Ok (r, h) ->
  read_file_post t s r h (kvtree_read_file (Some file) (Some t) s).
Proof.
  intros [Hmask Hnext] Hfile Hp. unfold kvtree_read_file.
  assert (forall sc e, sc `suffix_of` script s -> ~ calm (script s) ->
    read_file_post t s r h (Ok ((KVTREE_FAILURE, Some t), touch s sc e))) as Hfail.
  { intros sc e Hsc Hn. exists KVTREE_FAILURE, (Some t), (touch s sc e).
    split_and!; try done; [by right|by left]. }
  destruct (readable_spec file s) as (rc & sc & e & Er & Hrc & Hs & Hrd & Hcalm).
  unfold io_bind at 1. rewrite Er. cbn [obind].
  destruct Hrc as [-> | ->]; cbn [Z.eqb KVTREE_FAILURE KVTREE_SUCCESS negb].
  2:{ apply Hfail; [done|]. intros Hc. by assert (KVTREE_FAILURE = KVTREE_SUCCESS) by eauto. }
  destruct (open_eq file O_RDONLY 0 (touch s sc e)) as (sc1 & e1 & Hs1 & Eo).
  unfold io_bind at 1.
  change (kvtree_open file O_RDONLY None) with (kvtree_open file O_RDONLY (Some 0)).
  rewrite Eo. cbn [obind]. simpl in Hs1.
  assert (can_open file O_RDONLY (touch s sc e) = true) as ->
    by (unfold can_open; simpl; by rewrite Hfile).
  cbn [andb script touch]. destruct (Nat.ltb_spec (lead_fails sc) 6) as [Hl|Hl].
  2:{ cbn [Z.ltb Z.compare]. apply Hfail; [by etrans|]. intros Hc%(calm_suffix _ _ Hs).
      rewrite calm_lead in Hl by done. lia. }
  rewrite (proj2 (Z.ltb_ge _ _)) by lia. cbn [next_fd touch].
  set (s1 := open_state _ _ _ _).
  assert (files s1 = files s) as Hf1 by (unfold s1, open_state; simpl; by rewrite Hfile).
  assert (opened s1 (next_fd s) (Desc file 0) c) as Ho1
    by (split; [apply lookup_insert_eq|by rewrite Hf1]).
  destruct (read_fd_refines file (next_fd s) _ c t s1 Ho1) as (p & sc2 & e2 & Hres & Hhard & Hs2).
  cbn [d_file d_pos] in Hres, Hhard. rewrite drop_0, Hp in Hres, Hhard. cbn [obind] in Hres, Hhard.
  set (s2 := moved _ _ _ _ _ _) in *.
  assert (script s1 = sc1) as Esc1 by done. rewrite Esc1 in Hhard, Hs2.
  destruct (close_spec file s2 (next_fd s) (Desc file p) c) as (rc & sc3 & e3 & Ec & Hrc & Hs3 & Hcalm3).
  { apply moved_opened. by rewrite Hf1. }
  assert (script s2 = sc2) as Esc2 by done. rewrite Esc2 in Hs3, Hcalm3.
  unfold io_bind at 1.
  assert (exists q h', kvtree_read_fd (Some file) (Z.of_nat (next_fd s)) (Some t) s1
              = Ok ((q, h'), s2) /\ (0 <= q -> q = r /\ h' = h) /\ (h' = Some t \/ h' = h) /\
            (calm (script s) -> q = r)) as (q & h' & -> & Hq & Hh' & Hcq).
  { destruct Hres as [Hres|Hres]; [exists r, h|exists (-1), (Some t)]; split_and!; auto; [lia|].
    intros Hc. assert (hard sc1 < 10) as Hlt
      by (rewrite calm_hard; [lia|]; do 2 (eapply calm_suffix; [done|]); done).
    specialize (Hhard Hlt). rewrite Hres in Hhard. by injection Hhard. }
  cbn [obind]. unfold io_bind. rewrite Ec. cbn [obind]. unfold io_ret.
  eexists _, h', _. split; [done|]. split_and!.
  - unfold is_rc in *. destruct Hrc as [-> | ->], (q <? 0); simpl; auto.
  - done.
  - simpl. rewrite insert_insert_eq, delete_insert_id; [done|]. apply Hnext. lia.
  - split; [done|]. simpl. intros n Hn.
    rewrite insert_insert_eq, lookup_delete_ne, lookup_insert_ne by lia. apply Hnext. lia.
  - simpl. etrans; [exact Hs3|]. etrans; [exact Hs2|]. by etrans.
  - destruct (rc =? KVTREE_SUCCESS); [|done]. cbn [negb].
    destruct (Z.ltb_spec q 0); [done|]. intros _. destruct Hq as [-> ->]; [lia|]. split; [lia|done].
  - done.
  - intros Hc. rewrite <- (Hcq Hc). assert (rc = KVTREE_SUCCESS) as ->.
    { apply Hcalm3. do 3 (eapply calm_suffix; [done|]). done. }
    cbn [Z.eqb KVTREE_SUCCESS negb]. rewrite Z.leb_antisym. by destruct (q <? 0).
Qed.

(** ** Files that are safe to read

    [kvtree_unpack] trusts the bytes it is given.  A file is safe to read when a check of
    [kvtree_read_fd] refuses it, or when its bytes hold a packed hash: it is too short,
    its header is wrong, it has fewer bytes than its header promises, its crc32 is
    wrong, or a packed hash follows the header.  The header must not promise more than
    [kvtree_malloc] can give. *)
Definition sound_file (c : list byte) : Prop :=
  let hd := take 20 c in
  let filesize := be_combine (take 8 (drop 8 hd)) in
  let flags := be_combine (take 4 (drop 16 hd)) in
  let buf := take (Z.to_nat filesize) c in
  (length c < 20)%nat \/ header_ok hd = false \/
  filesize <= malloc_max /\
  (Z.of_nat (length c) < filesize \/ crc_ok buf filesize flags = Ok false \/
   exists t rest, small t = true /\ drop 20 buf = encode t ++ rest).

Definition sound_files (s : os) : Prop := map_Forall (fun _ c => sound_file c) (files s).

Lemma crc_ok_defined buf filesize flags :
  20 <= filesize -> Z.of_nat (length buf) = filesize -> exists b, crc_ok buf filesize flags = Ok b.
Proof.
  intros H20 Hl. unfold crc_ok. destruct (negb _); [|by eexists].
  unfold mem_read. rewrite decide_True by lia. by eexists.
Qed.

Lemma parse_sound_file c t :
  sound_file c -> exists r h, parse c (Some t) = Ok (r, Some h).
Proof.
  intros Hc. unfold parse. destruct (length c =? 0)%nat; [by do 2 eexists|].
  destruct (Nat.ltb_spec (length c) 20) as [|H20]; [by do 2 eexists|].
  destruct (header_ok (take 20 c)) eqn:Hok; [|by do 2 eexists]. cbn [orb negb].
  pose proof (header_ok_size _ Hok) as Hsize.
  destruct Hc as [|[|[Hm Hc]]]; [lia|congruence|].
  set (filesize := be_combine (take 8 (drop 8 (take 20 c)))) in *.
  rewrite (proj2 (Z.ltb_ge _ _)) by lia.
  destruct (Z.ltb_spec (Z.of_nat (length c)) filesize); [by do 2 eexists|].
  destruct (crc_ok_defined (take (Z.to_nat filesize) c) filesize (be_combine (take 4 (drop 16 (take 20 c)))))
    as [b Hb]; [done|rewrite length_take; lia|].
  rewrite Hb in *. destruct b; [|by do 2 eexists]. cbn [obind negb].
  destruct Hc as [|[|(u & rest & Hs & Hu)]]; [lia|done|].
  rewrite (kvtree_unpack_stream _ 20 u rest Hs Hu). cbn [obind].
  destruct (kvtree_merge_some t (Some (unpacked u))) as (h & rc & ->). by do 2 eexists.
Qed.

(** Whatever part of it a write leaves, a persisted hash is safe to read. *)
Lemma cut_sound_file t k : fits t -> sound_file (take k (persisted (Some t))).
Proof.
  intros [Hs Hm]. pose proof malloc_max_range as Hmax. pose proof (persisted_length (Some t)) as Hl.
  set (n := kvtree_persist_size (Some t)) in *.
  assert (24 <= n)%nat as Hn by (unfold n, kvtree_persist_size, KVTREE_FILE_HASH_HEADER_SIZE; lia).
  unfold sound_file. destruct (decide (k < 20)%nat) as [Hk|Hk]; [left; rewrite length_take; lia|].
  assert (take 20 (take k (persisted (Some t))) = header_bytes (Z.of_nat n) KVTREE_FILE_FLAGS_CRC32) as ->.
  { rewrite take_take, Nat.min_l by lia. unfold persisted, payload. rewrite <- !app_assoc.
    apply take_app_length'. by rewrite header_bytes_length. }
  destruct (header_fields (Z.of_nat n) KVTREE_FILE_FLAGS_CRC32) as (-> & -> & ->);
    [lia|unfold KVTREE_FILE_FLAGS_CRC32; int_lia|].
  right. right. split; [done|]. destruct (decide (k < n)%nat) as [Hkn|Hkn].
  - left. rewrite length_take. lia.
  - right. right. exists t, (be_split 4 (crc_of (payload (Some t)) (Z.of_nat (length (payload (Some t)))))).
    split; [done|]. by rewrite (take_ge _ k), Nat2Z.id, take_ge by lia.
Qed.

(** Reading is defined, when the file is missing, too. *)
Lemma read_file_sound file t s :
  os_ok s -> sound_files s ->
  exists rc h s', kvtree_read_file file (Some t) s = Ok ((rc, Some h), s') /\
    os_ok s' /\ files s' = files s.
Proof.
  intros Hok Hs. destruct file as [file|]; [|by exists KVTREE_FAILURE, t, s].
  destruct (files s !! file) as [c|] eqn:Ef.
  - destruct (parse_sound_file c t (Hs _ _ Ef)) as (r & h & Hp).
    destruct (read_file_spec file t s c r (Some h) Hok Ef Hp)
      as (rc & h' & s' & E & _ & Hf & _ & Hok' & _ & _ & Hh & _).
    destruct Hh as [-> | ->]; by do 3 eexists.
  - destruct (readable_spec file s) as (rc & sc & e & Er & Hrc & _ & Hrd & _).
    unfold kvtree_read_file, io_bind at 1. rewrite Er. cbn [obind].
    destruct Hrc as [-> | ->].
    + destruct (Hrd eq_refl) as [c Hc]. congruence.
    + exists KVTREE_FAILURE, t, (touch s sc e). by destruct Hok.
Qed.

Lemma write_file_sound file t s :
  os_ok s -> sound_files s -> fits t ->
  exists rc s', kvtree_write_file file (Some t) s = Ok (rc, s') /\ os_ok s' /\ sound_files s'.
Proof.
  intros Hok Hs Hfit. destruct file as [file|]; [|by exists KVTREE_FAILURE, s].
  destruct (write_file_eq file t s Hok (proj2 Hfit)) as (rc & s' & E & _ & _ & Hok' & _ & Hf & _).
  exists rc, s'. split_and!; [done..|]. unfold sound_files in *.
  destruct Hf as [-> | [m ->]]; [done|]. apply map_Forall_insert_2; [by apply cut_sound_file|done].
Qed.

(** C2. Writing a well-formed hash to a file and reading the file into a new
    hash: whatever the system replies to either call, if both report success the
    hash read is the hash written, element by element and in the same order, and
    if the system reports no error both calls do succeed.  (The hash has no NULL
    hash inside, no level larger than an [int] and a buffer for it can be
    allocated.) *)
Theorem file_roundtrip file t s :
  os_ok s -> wf t -> no_null_hash t = true -> fits t ->
  exists rc1 s1 rc2 h s2,
    kvtree_write_file (Some file) (Some t) s = Ok (rc1, s1) /\
    (rc1 = KVTREE_SUCCESS ->
       kvtree_read_file (Some file) (Some kvtree_new) s1 = Ok ((rc2, h), s2) /\
       (rc2 = KVTREE_SUCCESS -> h = Some t) /\
       (calm (script s) -> rc2 = KVTREE_SUCCESS)) /\
    (calm (script s) -> rc1 = KVTREE_SUCCESS).
Proof.
  intros Hs Hwf Hnn [Hsm Hm].
  destruct (write_file_eq file t s Hs Hm) as (rc1 & s1 & Ew & Hrc1 & _ & Hs1 & Hsc & _ & Hf & Hc).
  destruct (decide (rc1 = KVTREE_SUCCESS)) as [->|Hne].
  2:{ exists rc1, s1, 0, None, s1. by split_and!. }
  specialize (Hf eq_refl).
  pose proof (parse_persisted t kvtree_new [] Hsm Hm) as Hp. rewrite app_nil_r in Hp.
  rewrite merge_new, unpacked_twice in Hp by auto with kvtree. simpl fst in Hp.
  destruct (read_file_spec file kvtree_new s1 (persisted (Some t)) _ _ Hs1
              ltac:(rewrite Hf; apply lookup_insert_eq) Hp)
    as (rc2 & h & s2 & Er & _ & _ & _ & _ & _ & Hr1 & _ & Hr2).
  exists KVTREE_SUCCESS, s1, rc2, h, s2. split_and!; [done| |done].
  intros _. split_and!; [done|by intros [_ ->]%Hr1|].
  intros Hcalm. rewrite Hr2 by eauto with kvtree. by rewrite (proj2 (Z.leb_le _ _)) by lia.
Qed.

(** C11. Reading a file into a hash never trusts damaged contents: when the call
    reports that it read something, the file starts with the right magic number,
    type and version, holds as many bytes as its header says, its crc32 is that
    of its bytes when the header says there is one, and the hash is the merge of
    the old one with what was unpacked; in every other case the hash is
    unchanged.  A well-formed hash stays well-formed whatever the file holds. *)
Theorem read_fd_checks file fdn d c t s r h' s' :
  opened s fdn d c -> wf t ->
  kvtree_read_fd (Some file) (Z.of_nat fdn) (Some t) s = Ok ((r, h'), s') ->
  let bs := drop (d_pos d) c in
  wf_opt h' /\ files s' = files s /\
  (r <= 0 /\ h' = Some t \/
   header_ok (take 20 bs) = true /\ r = be_combine (take 8 (drop 8 (take 20 bs))) /\
   20 <= r <= Z.of_nat (length bs) /\
   crc_ok (take (Z.to_nat r) bs) r (be_combine (take 4 (drop 16 (take 20 bs)))) = Ok true /\
   exists n u, kvtree_unpack (take (Z.to_nat r) bs) 20 (Some kvtree_new) = Ok (n, Some u) /\
               kvtree_merge (Some t) (Some u) = (h', KVTREE_SUCCESS)).
Proof.
  intros Ho Hwf E bs.
  destruct (read_fd_refines file fdn d c t s Ho) as (p & sc & e & Hres & _). fold bs in Hres.
  rewrite E in Hres. destruct Hres as [Hres|[= -> -> ->]]; [|split_and!; auto; left; split; [lia|done]].
  symmetry in Hres. apply obind_ok in Hres as ([r0 h0] & Hp & [= <- <- <-]).
  apply parse_sound in Hp as [[Hr ->]|(H1 & H2 & H3 & H4 & n & u & Hu & Hk & ->)];
    [split_and!; auto|].
  destruct (merge_spec u t Hwf) as (t' & Em & Hwf' & _). rewrite Hk in Em.
  split_and!; [by rewrite Em|done|]. right. destruct H3. split_and!; [done..|].
  exists n, u. split; [done|]. by rewrite Em.
Qed.

(** Persisting a hash that fits in memory succeeds: it never reaches the
    abort on its own size check, and the buffer holds a 20-byte header with the
    magic number, the type, the version, the total size and the flags, then the
    packed hash and the crc32 of all of that, all in network order. *)
Theorem write_persist_format t :
  Z.of_nat (kvtree_persist_size (Some t)) <= malloc_max ->
  kvtree_write_persist true true (Some t)
    = Ok (KVTREE_SUCCESS, Some (persisted (Some t), kvtree_persist_size (Some t))).
Proof. apply write_persist_eq. Qed.

End files.

(** A stand-in for zlib on which the witnesses evaluate: the sum of the bytes. *)
Definition sum_bytes (crc : Z) (buf : option (list byte)) : Z :=
  u32 (fold_left (fun a b => a + byte.unsigned b) (default [] buf) crc).

Lemma sum_bytes_range crc buf : is_u32 (sum_bytes crc buf).
Proof. apply u32_range. Qed.

Definition zlib_sum : Zlib := {| crc32 := sum_bytes; crc32_range := sum_bytes_range |}.

Definition empty_os (sc : list reply) : os := Os ∅ ∅ ∅ ∅ 3 18 sc EOTHER.

Lemma empty_os_ok sc : os_ok (empty_os sc).
Proof. split; [by vm_compute|]. intros n _. apply lookup_empty. Qed.

Lemma write_persist_format_witness :
  Z.of_nat (kvtree_persist_size (Some sample_hash)) <= @malloc_max host_le /\
  @kvtree_write_persist host_le zlib_sum true true (Some sample_hash)
    = Ok (KVTREE_SUCCESS, Some (@persisted zlib_sum (Some sample_hash),
                                kvtree_persist_size (Some sample_hash))).
Proof.
  assert (Z.of_nat (kvtree_persist_size (Some sample_hash)) <= @malloc_max host_le) as Hm
    by (vm_compute; discriminate).
  split; [exact Hm|].
  exact (@write_persist_format host_le zlib_sum sample_hash Hm).
Defined.

Definition noisy : list reply := [Fails EINTR; Full; Short 3; Fails EAGAIN; Fails EOTHER].

Lemma write_file_spec_witness :
  exists rc s', @kvtree_write_file host_le zlib_sum (Some (str "f")) (Some sample_hash)
                  (empty_os noisy) = Ok (rc, s') /\
    is_rc rc /\ fds s' = fds (empty_os noisy) /\ os_ok s' /\
    script s' `suffix_of` script (empty_os noisy) /\
    (files s' = files (empty_os noisy) \/
     exists m, files s' = <[str "f" := take m (@persisted zlib_sum (Some sample_hash))]>
                            (files (empty_os noisy))) /\
    (rc = KVTREE_SUCCESS ->
     files s' = <[str "f" := @persisted zlib_sum (Some sample_hash)]> (files (empty_os noisy))) /\
    (calm (script (empty_os noisy)) -> rc = KVTREE_SUCCESS).
Proof.
  apply (@write_file_spec host_le zlib_sum).
  - apply empty_os_ok.
  - vm_compute. discriminate.
Defined.

Lemma file_roundtrip_witness :
  exists rc1 s1 rc2 h s2,
    @kvtree_write_file host_le zlib_sum (Some (str "f")) (Some sample_hash) (empty_os [])
      = Ok (rc1, s1) /\
    (rc1 = KVTREE_SUCCESS ->
       @kvtree_read_file host_le zlib_sum (Some (str "f")) (Some kvtree_new) s1 = Ok ((rc2, h), s2) /\
       (rc2 = KVTREE_SUCCESS -> h = Some sample_hash) /\
       (calm (script (empty_os [])) -> rc2 = KVTREE_SUCCESS)) /\
    (calm (script (empty_os [])) -> rc1 = KVTREE_SUCCESS).
Proof.
  apply (@file_roundtrip host_le zlib_sum).
  - apply empty_os_ok.
  - wf_check.
  - vm_compute. reflexivity.
  - split; [vm_compute; reflexivity|]. vm_compute. discriminate.
Defined.

(** A file that was cut short is refused. *)
Lemma read_fd_checks_witness :
  let s := sample_os [] in
  exists r h' s',
    @kvtree_read_fd host_le zlib_sum (Some (str "f")) 3 (Some sample_hash) s = Ok ((r, h'), s') /\
    r = -1 /\
    (wf_opt h' /\ files s' = files s /\
     (r <= 0 /\ h' = Some sample_hash \/
      header_ok (take 20 (str "bcdef")) = true /\
      r = be_combine (take 8 (drop 8 (take 20 (str "bcdef")))) /\
      20 <= r <= Z.of_nat (length (str "bcdef")) /\
      @crc_ok host_le zlib_sum (take (Z.to_nat r) (str "bcdef")) r
        (be_combine (take 4 (drop 16 (take 20 (str "bcdef"))))) = Ok true /\
      exists n u, @kvtree_unpack host_le (take (Z.to_nat r) (str "bcdef")) 20 (Some kvtree_new)
                    = Ok (n, Some u) /\
                  kvtree_merge (Some sample_hash) (Some u) = (h', KVTREE_SUCCESS))).
Proof.
  intros s. eexists (-1), (Some sample_hash), _. split; [vm_compute; reflexivity|].
  split; [reflexivity|].
  eapply (@read_fd_checks host_le zlib_sum (str "f") 3 (Desc (str "f") 1) (str "abcdef") sample_hash s).
  - apply sample_os_opened.
  - wf_check.
  - vm_compute. reflexivity.
Defined.
