(* ===== verification/LockFile.v ===== *)
(** Reading and writing a file under its lock: [kvtree_read_with_lock],
    [kvtree_write_with_lock] and the read-modify-write pair
    [kvtree_lock_open_read] and [kvtree_write_close_unlock] of
    [src/src/kvtree.c]. *)

From S2P Require Import Prelude CLib ByteOrder Kvtree KvtreeSpec KvtreeMap KvtreeMerge Pack Io Persist.

Section lockfile.
Context `{Host} `{Zlib} `{LockConfig}.

Definition kvtree_read_write_with_lock (file : option cstring) (hash : option kvtree)
    (write : bool) : io Z :=
  match file, hash with
  | Some name, Some _ =>
      do* mode_file := kvtree_getmode true true false in
      do* fd := kvtree_open_with_lock name (Z.lor O_RDWR O_CREAT) mode_file write in
      io_ret fd
  | _, _ => io_ret (-1)
  end.

(** The count of [kvtree_read_fd] is stored in an [int]. *)
Definition kvtree_read_with_lock (file : option cstring) (hash : option kvtree)
    : io (Z * option kvtree) :=
  do* fd := kvtree_read_write_with_lock file hash false in
  if 0 <=? fd then
    do* (nread, hash) := kvtree_read_fd file fd hash in
    let rc := i32 nread in
    if rc =? -1 then
      do* _ := kvtree_close_with_unlock (default [] file) fd in
      io_ret (KVTREE_FAILURE, hash)
    else
      do* rc := kvtree_close_with_unlock (default [] file) fd in
      if negb (rc =? 0) then io_ret (KVTREE_FAILURE, hash)
      else io_ret (KVTREE_SUCCESS, hash)
  else io_ret (KVTREE_FAILURE, hash).

Definition kvtree_write_with_lock (file : option cstring) (hash : option kvtree) : io Z :=
  do* fd := kvtree_read_write_with_lock file hash true in
  if 0 <=? fd then
    do* _ := kvtree_write_fd file fd hash in
    do* _ := kvtree_close_with_unlock (default [] file) fd in
    io_ret KVTREE_SUCCESS
  else io_ret KVTREE_FAILURE.

(** [fd] is the pointer argument: [None] for NULL, else what it points to. *)
Definition kvtree_lock_open_read (file : option cstring) (fd : option Z) (hash : option kvtree)
    : io (Z * option Z * option kvtree) :=
  match fd with
  | None => io_ret (KVTREE_FAILURE, fd, hash)
  | Some _ =>
      let fd := -1 in
      match file, hash with
      | Some name, Some _ =>
          do* mode_file := kvtree_getmode true true false in
          do* fd := kvtree_open_with_lock name (Z.lor O_RDWR O_CREAT) mode_file true in
          if 0 <=? fd then
            do* (_, hash) := kvtree_read_fd file fd hash in
            io_ret (KVTREE_SUCCESS, Some fd, hash)
          else io_ret (KVTREE_FAILURE, Some fd, hash)
      | _, _ => io_ret (KVTREE_FAILURE, Some fd, hash)
      end
  end.

Definition kvtree_write_close_unlock (file : option cstring) (fd : option Z) (hash : option kvtree)
    : io (Z * option Z) :=
  match fd with
  | None => io_ret (KVTREE_FAILURE, None)
  | Some fd =>
      if fd <? 0 then io_ret (KVTREE_FAILURE, Some fd)
      else
        match file, hash with
        | Some name, Some _ =>
            do* _ := sys_lseek fd 0 in
            do* nwrite := kvtree_write_fd file fd hash in
            do* _ := (if 0 <=? nwrite then sys_ftruncate fd (Z.to_nat nwrite) else io_ret 0) in
            do* _ := kvtree_close_with_unlock name fd in
            let fd := -1 in
            io_ret (KVTREE_SUCCESS, Some fd)
        | _, _ => io_ret (KVTREE_FAILURE, Some fd)
        end
  end.

(** ** What the calls do when the system reports no error *)
Lemma open_with_lock_calm file mode w s :
  os_ok s -> calm (script s) ->
  let c := default [] (files s !! file) in
  exists s', kvtree_open_with_lock file (Z.lor O_RDWR O_CREAT) mode w s
               = Ok (Z.of_nat (next_fd s), s') /\
    opened s' (next_fd s) (Desc file 0) c /\
    files s' = <[file := c]> (files s) /\ fds s' = <[next_fd s := Desc file 0]> (fds s) /\
    locks s' = lock_table locking (next_fd s) (Some w) (locks s) /\
    next_fd s' = S (next_fd s) /\ mask s' = mask s /\ calm (script s').
Proof.
  intros [Hmask Hnext] Hc c. unfold kvtree_open_with_lock.
  destruct (open_eq file (Z.lor O_RDWR O_CREAT) mode s) as (sc & e & Hs & Eo).
  unfold io_bind at 1. rewrite Eo. cbn [obind]. clear Eo.
  assert (can_open file (Z.lor O_RDWR O_CREAT) s = true) as ->
    by (unfold can_open; by destruct (files s !! file)).
  rewrite calm_lead by done. cbn [andb Nat.ltb Nat.leb]. rewrite (proj2 (Z.ltb_ge _ _)) by lia.
  set (s1 := open_state _ _ _ _).
  assert (files s1 = <[file := c]> (files s)) as Hf1.
  { unfold s1, open_state, c. simpl. destruct (files s !! file) eqn:E; simpl; [|done].
    by rewrite insert_id. }
  assert (opened s1 (next_fd s) (Desc file 0) c) as Ho1
    by (split; [apply lookup_insert_eq|rewrite Hf1; apply lookup_insert_eq]).
  destruct (lock_spec file s1 _ _ _ w Ho1) as (rc & sc2 & e2 & l & El & _ & Hs2 & Hc2 & Hl).
  assert (script s1 = sc) as Esc by done. rewrite Esc in Hs2, Hc2.
  assert (calm sc) as Hcsc by eauto with kvtree. rewrite (Hc2 Hcsc) in El. specialize (Hl (Hc2 Hcsc)).
  unfold io_bind. rewrite El. cbn [obind Z.eqb KVTREE_SUCCESS negb]. unfold io_ret.
  eexists. split; [done|]. split_and!; try done. by eapply calm_suffix.
Qed.

Lemma close_with_unlock_calm file s fdn d c :
  opened s fdn d c -> calm (script s) ->
  exists s', kvtree_close_with_unlock file (Z.of_nat fdn) s = Ok (KVTREE_SUCCESS, s') /\
    files s' = files s /\ fds s' = delete fdn (fds s) /\
    locks s' = delete fdn (locks s) /\ calm (script s') /\
    next_fd s' = next_fd s /\ mask s' = mask s.
Proof.
  intros Ho Hc. unfold kvtree_close_with_unlock.
  destruct (unlock_spec file s _ _ _ Ho) as (rc & sc2 & e2 & l & El & _ & Hs2 & Hc2 & Hl).
  rewrite (Hc2 Hc) in El. specialize (Hl (Hc2 Hc)).
  unfold io_bind. rewrite El. cbn [obind Z.eqb KVTREE_SUCCESS negb].
  assert (calm sc2) as Hcsc by eauto with kvtree.
  destruct (close_spec file (set_locks l (touch s sc2 e2)) fdn d c) as
    (rc3 & sc3 & e3 & Ec & _ & Hs3 & Hc3); [done|]. simpl in Hs3, Hc3.
  rewrite Ec, (Hc3 Hcsc). eexists. split; [done|]. split_and!; try done; [|by eapply calm_suffix].
  simpl. rewrite Hl. unfold lock_table. destruct locking; [by rewrite delete_delete_eq|done].
Qed.

Lemma seek_calm s fdn d c pos :
  opened s fdn d c -> calm (script s) ->
  exists sc, sys_lseek (Z.of_nat fdn) pos s
    = Ok (Z.of_nat pos, moved s fdn (Desc (d_file d) pos) (files s) sc (errno s)) /\
    calm sc.
Proof.
  intros Ho Hc. unfold sys_lseek, io_bind. rewrite syscall_eq. cbn [obind].
  rewrite (with_fd_opened _ fdn d c) by done. exists (tail (script s)).
  split; [|eauto with kvtree].
  destruct (reply_of s) as [| |e] eqn:Hr; [| |by destruct (calm_reply s e)];
    unfold set_pos, after, moved; by rewrite Hr.
Qed.

Lemma truncate_calm s fdn d c len :
  opened s fdn d c -> calm (script s) -> (len <= length c)%nat ->
  exists sc, sys_ftruncate (Z.of_nat fdn) len s
    = Ok (0, moved s fdn d (<[d_file d := take len c]> (files s)) sc (errno s)) /\ calm sc.
Proof.
  intros Ho Hc Hlen. unfold sys_ftruncate, io_bind. rewrite syscall_eq. cbn [obind].
  rewrite (with_fd_opened _ fdn d c) by done. exists (tail (script s)).
  split; [|eauto with kvtree].
  replace (len - length c)%nat with 0%nat by lia.
  destruct (reply_of s) as [| |e] eqn:Hr; [| |by destruct (calm_reply s e)];
    unfold set_files, after, moved; rewrite Hr; simpl; rewrite app_nil_r;
    by rewrite (insert_id (fds s)) by apply Ho.
Qed.


Lemma read_write_with_lock_calm file t w s :
  os_ok s -> calm (script s) ->
  let c := default [] (files s !! file) in
  exists s', kvtree_read_write_with_lock (Some file) (Some t) w s = Ok (Z.of_nat (next_fd s), s') /\
    opened s' (next_fd s) (Desc file 0) c /\
    files s' = <[file := c]> (files s) /\ fds s' = <[next_fd s := Desc file 0]> (fds s) /\
    locks s' = lock_table locking (next_fd s) (Some w) (locks s) /\
    next_fd s' = S (next_fd s) /\ mask s' = mask s /\ calm (script s').
Proof.
  intros Hok Hc c. unfold kvtree_read_write_with_lock.
  destruct (getmode_eq true true false s (proj1 Hok)) as (mode & Eg & _).
  unfold io_bind at 1. rewrite Eg. cbn [obind].
  destruct (open_with_lock_calm file mode w s Hok Hc) as (s' & Eo & Hrest).
  unfold io_bind. rewrite Eo. by exists s'.
Qed.

(** Reading from an open file without system errors is [parse]. *)
Lemma read_fd_calm file fdn d c t s :
  opened s fdn d c -> calm (script s) ->
  exists p sc e,
    kvtree_read_fd (Some file) (Z.of_nat fdn) (Some t) s
    = (let* r := parse (drop (d_pos d) c) (Some t) in
       Ok (r, moved s fdn (Desc (d_file d) p) (files s) sc e)) /\ calm sc.
Proof.
  intros Ho Hc. destruct (read_fd_refines file fdn d c t s Ho) as (p & sc & e & _ & Hh & Hs).
  exists p, sc, e. split; [apply Hh; rewrite calm_hard by done; lia|eauto with kvtree].
Qed.

Lemma write_fd_calm file fdn d c t s :
  opened s fdn d c -> calm (script s) ->
  Z.of_nat (kvtree_persist_size (Some t)) <= malloc_max ->
  exists sc e,
    kvtree_write_fd (Some file) (Z.of_nat fdn) (Some t) s
      = Ok (Z.of_nat (kvtree_persist_size (Some t)),
            moved s fdn (Desc (d_file d) (d_pos d + kvtree_persist_size (Some t)))
              (<[d_file d := splice c (d_pos d) (persisted (Some t))]> (files s)) sc e) /\ calm sc.
Proof.
  intros Ho Hc Hm. unfold kvtree_write_fd. rewrite (proj2 (Z.ltb_ge _ _)) by lia.
  unfold io_bind at 1, io_lift. rewrite write_persist_eq by done. cbn [obind].
  destruct (write_attempt_eq file fdn d c (persisted (Some t)) (kvtree_persist_size (Some t)) s Ho)
    as (m & r & sc & e & E & Hle & Hr & Hh & Hs); [by rewrite persisted_length|].
  unfold io_bind. rewrite E. cbn [obind]. rewrite drop_0.
  destruct Hr as [Hr|[-> Hr]].
  { destruct Hh; [rewrite calm_hard by done; lia|by apply calm_no_zero|done]. }
  simpl in Hr. subst m. rewrite Z.eqb_refl, take_ge by (rewrite persisted_length; lia).
  exists sc, e. split; [done|eauto with kvtree].
Qed.

(** No lock is held on a descriptor that was not given out yet. *)
Definition locks_ok (s : os) : Prop := forall n, (next_fd s <= n)%nat -> locks s !! n = None.

(** Opening and closing under a lock restores the descriptors and the locks. *)
Lemma lock_table_delete s w :
  locks_ok s -> delete (next_fd s) (lock_table locking (next_fd s) (Some w) (locks s)) = locks s.
Proof.
  intros Hl. unfold lock_table. destruct locking.
  - rewrite delete_insert_id; [done|]. by apply Hl.
  - rewrite delete_id; [done|]. by apply Hl.
Qed.

Lemma splice_0 c bs : bs <> [] -> splice c 0 bs = bs ++ drop (length bs) c.
Proof. by destruct bs. Qed.

Lemma persisted_not_nil h : persisted h <> [].
Proof.
  intros E. apply (f_equal length) in E. rewrite persisted_length in E. discriminate.
Qed.

(** The middle of [kvtree_write_close_unlock]: rewind, write, cut the file to the new
    size. *)
Lemma overwrite_calm {A} file fdn p c t s (k : io A) :
  opened s fdn (Desc file p) c -> calm (script s) ->
  Z.of_nat (kvtree_persist_size (Some t)) <= malloc_max ->
  exists q sc e,
    (do* _ := sys_lseek (Z.of_nat fdn) 0 in
     do* nwrite := kvtree_write_fd (Some file) (Z.of_nat fdn) (Some t) in
     do* _ := (if 0 <=? nwrite then sys_ftruncate (Z.of_nat fdn) (Z.to_nat nwrite)
               else io_ret 0) in
     k) s
    = k (moved s fdn (Desc file q) (<[file := persisted (Some t)]> (files s)) sc e) /\ calm sc.
Proof.
  intros Ho Hc Hm. destruct (seek_calm s _ _ _ 0 Ho Hc) as (sc3 & E3 & Hc3).
  unfold io_bind at 1. rewrite E3. cbn [obind d_file].
  set (s3 := moved s _ _ _ _ _).
  assert (opened s3 fdn (Desc file 0) c) as Ho3 by apply moved_opened, Ho.
  destruct (write_fd_calm file _ _ _ t s3 Ho3 Hc3 Hm) as (sc4 & e4 & E4 & Hc4).
  rewrite splice_0, persisted_length in E4 by apply persisted_not_nil.
  unfold io_bind at 1. rewrite E4. cbn [obind d_file d_pos].
  set (n := kvtree_persist_size (Some t)) in *. rewrite (proj2 (Z.leb_le _ _)), Nat2Z.id by lia.
  set (c4 := persisted (Some t) ++ _). set (s4 := moved s3 _ _ _ _ _).
  assert (opened s4 fdn (Desc file (0 + n)) c4) as Ho4 by apply moved_opened, lookup_insert_eq.
  assert (length (persisted (Some t)) = n) as Hlen by apply persisted_length.
  destruct (truncate_calm s4 _ _ _ n Ho4 Hc4) as (sc5 & E5 & Hc5);
    [unfold c4; rewrite length_app; lia|].
  unfold io_bind. rewrite E5. cbn [obind d_file]. exists (0 + n)%nat, sc5, (errno s4).
  split; [|done]. unfold s4, s3. rewrite !moved_moved. cbn [files moved].
  rewrite insert_insert_eq. unfold c4. by rewrite take_app_length'.
Qed.

Lemma write_with_lock_calm file t s :
  os_ok s -> locks_ok s -> calm (script s) -> Z.of_nat (kvtree_persist_size (Some t)) <= malloc_max ->
  exists s', kvtree_write_with_lock (Some file) (Some t) s = Ok (KVTREE_SUCCESS, s') /\
    files s' = <[file := persisted (Some t) ++
                   drop (kvtree_persist_size (Some t)) (default [] (files s !! file))]> (files s) /\
    fds s' = fds s /\ locks s' = locks s /\ calm (script s') /\ os_ok s' /\ locks_ok s'.
Proof.
  intros Hok Hlk Hc Hm. unfold kvtree_write_with_lock. pose proof Hok as [Hmask Hnext].
  destruct (read_write_with_lock_calm file t true s Hok Hc)
    as (s1 & E1 & Ho1 & Hf1 & Hd1 & Hl1 & Hn1 & Hm1 & Hc1).
  unfold io_bind at 1. rewrite E1. cbn [obind]. rewrite (proj2 (Z.leb_le _ _)) by lia.
  destruct (write_fd_calm file _ _ _ t s1 Ho1 Hc1 Hm) as (sc & e & Ew & Hsc).
  unfold io_bind at 1. rewrite Ew. cbn [obind d_file d_pos].
  rewrite splice_0, persisted_length by apply persisted_not_nil.
  set (c := persisted (Some t) ++ _). set (s2 := moved _ _ _ _ _ _).
  assert (opened s2 (next_fd s) (Desc file (0 + kvtree_persist_size (Some t))) c) as Ho2
    by apply moved_opened, lookup_insert_eq.
  destruct (close_with_unlock_calm (default [] (Some file)) _ _ _ _ Ho2 Hsc) as (s3 & E3 & Hf3 & Hd3 & Hl3 & Hc3 & Hn3 & Hm3).
  unfold io_bind. rewrite E3. cbn [obind]. exists s3.
  assert (fds s3 = fds s) as Hfd.
  { rewrite Hd3. simpl. rewrite Hd1, insert_insert_eq, delete_insert_id; [done|]. by apply Hnext. }
  assert (locks s3 = locks s) as Hlk3
    by (rewrite Hl3; simpl; by rewrite Hl1, lock_table_delete).
  simpl in Hn3, Hm3. split_and!; try done.
  - rewrite Hf3. simpl. by rewrite Hf1, insert_insert_eq.
  - split; [by rewrite Hm3, Hm1|]. intros n Hn. rewrite Hfd. apply Hnext. lia.
  - intros n Hn. rewrite Hlk3. apply Hlk. lia.
Qed.

(** Under the lock, without system errors: [kvtree_write_with_lock] succeeds
    on a file with any old contents, and [kvtree_read_with_lock] then reads back
    the hash that was written, even when the new contents are shorter and the
    old ones still follow them; each call leaves no descriptor and no lock
    behind.  (The file size does not wrap to [-1] as an [int].) *)
Theorem locked_roundtrip file t s :
  os_ok s -> locks_ok s -> calm (script s) -> wf t -> no_null_hash t = true -> fits t ->
  i32 (Z.of_nat (kvtree_persist_size (Some t))) <> -1 ->
  exists s1 s2,
    kvtree_write_with_lock (Some file) (Some t) s = Ok (KVTREE_SUCCESS, s1) /\
    kvtree_read_with_lock (Some file) (Some kvtree_new) s1 = Ok ((KVTREE_SUCCESS, Some t), s2) /\
    fds s1 = fds s /\ locks s1 = locks s /\ fds s2 = fds s /\ locks s2 = locks s.
Proof.
  intros Hok Hlk Hc Hwf Hnn [Hsm Hm] Hi.
  destruct (write_with_lock_calm file t s Hok Hlk Hc Hm)
    as (s1 & E1 & Hf1 & Hd1 & Hl1 & Hc1 & Hok1 & Hlk1).
  exists s1. unfold kvtree_read_with_lock.
  destruct (read_write_with_lock_calm file kvtree_new false s1 Hok1 Hc1)
    as (s2 & E2 & Ho2 & Hf2 & Hd2 & Hl2 & Hn2 & Hm2 & Hc2).
  unfold io_bind at 1. rewrite E2. cbn [obind]. rewrite (proj2 (Z.leb_le _ _)) by lia.
  assert (default [] (files s1 !! file) = persisted (Some t) ++
            drop (kvtree_persist_size (Some t)) (default [] (files s !! file))) as Ec
    by (by rewrite Hf1, lookup_insert_eq).
  cbv zeta in Ho2. rewrite Ec in Ho2.
  destruct (read_fd_calm file _ _ _ kvtree_new s2 Ho2 Hc2) as (p & sc & e & Er & Hsc).
  cbn [d_pos] in Er. rewrite drop_0, parse_persisted in Er by done.
  rewrite merge_new, unpacked_twice in Er by auto with kvtree. cbn [obind fst] in Er.
  unfold io_bind at 1. rewrite Er. cbn [obind d_file]. rewrite (proj2 (Z.eqb_neq _ _)) by done.
  set (s2' := moved _ _ _ _ _ _).
  assert (opened s2' (next_fd s1) (Desc file p)
            (persisted (Some t) ++ drop (kvtree_persist_size (Some t)) (default [] (files s !! file))))
    as Ho3 by apply moved_opened, Ho2.
  destruct (close_with_unlock_calm (default [] (Some file)) _ _ _ _ Ho3 Hsc) as (s3 & E3 & Hf3 & Hd3 & Hl3 & Hc3 & Hn3 & Hm3).
  unfold io_bind. rewrite E3. exists s3. split_and!; try done.
  - rewrite Hd3. simpl. rewrite Hd2, insert_insert_eq, delete_insert_id; [done|].
    apply Hok1. lia.
  - rewrite Hl3. simpl. rewrite Hl2, lock_table_delete; done.
Qed.

(** C17. A read-modify-write without system errors: [kvtree_lock_open_read] opens
    the file, takes an exclusive lock on it (in a build with locking), merges
    its contents into the hash and leaves it open; [kvtree_write_close_unlock]
    then replaces the whole contents by the new hash, drops the lock, closes the
    file and marks the descriptor closed. *)
Theorem read_modify_write file fd0 t0 t s r h :
  os_ok s -> locks_ok s -> calm (script s) -> Z.of_nat (kvtree_persist_size (Some t)) <= malloc_max ->
  parse (default [] (files s !! file)) (Some t0) = Ok (r, h) ->
  exists s1 s2,
    kvtree_lock_open_read (Some file) (Some fd0) (Some t0) s
      = Ok ((KVTREE_SUCCESS, Some (Z.of_nat (next_fd s)), h), s1) /\
    (locking = true -> locks s1 !! next_fd s = Some true) /\
    kvtree_write_close_unlock (Some file) (Some (Z.of_nat (next_fd s))) (Some t) s1
      = Ok ((KVTREE_SUCCESS, Some (-1)), s2) /\
    files s2 = <[file := persisted (Some t)]> (files s) /\
    fds s2 = fds s /\ locks s2 = locks s.
Proof.
  intros Hok Hlk Hc Hm Hp. pose proof Hok as [Hmask Hnext]. unfold kvtree_lock_open_read.
  destruct (getmode_eq true true false s Hmask) as (mode & Eg & _).
  unfold io_bind at 1. rewrite Eg. cbn [obind].
  destruct (open_with_lock_calm file mode true s Hok Hc)
    as (s1 & E1 & Ho1 & Hf1 & Hd1 & Hl1 & Hn1 & Hm1 & Hc1).
  unfold io_bind at 1. rewrite E1. cbn [obind]. rewrite (proj2 (Z.leb_le _ _)) by lia.
  destruct (read_fd_calm file _ _ _ t0 s1 Ho1 Hc1) as (p & sc & e & Er & Hsc).
  cbn [d_pos] in Er. rewrite drop_0, Hp in Er. cbn [obind d_file] in Er.
  unfold io_bind at 1. rewrite Er. cbn [obind]. eexists _. 
  set (s2 := moved _ _ _ _ _ _).
  assert (opened s2 (next_fd s) (Desc file p) (default [] (files s !! file))) as Ho2
    by apply moved_opened, Ho1.
  unfold kvtree_write_close_unlock. rewrite (proj2 (Z.ltb_ge _ _)) by lia.
  destruct (overwrite_calm file _ _ _ t s2
              (do* _ := kvtree_close_with_unlock file (Z.of_nat (next_fd s)) in
               io_ret (KVTREE_SUCCESS, Some (-1))) Ho2 Hsc Hm) as (q & sc5 & e5 & E5 & Hc5).
  rewrite E5. set (s5 := moved s2 _ _ _ _ _).
  assert (opened s5 (next_fd s) (Desc file q) (persisted (Some t))) as Ho5
    by apply moved_opened, lookup_insert_eq.
  destruct (close_with_unlock_calm file s5 _ _ _ Ho5 Hc5)
    as (s6 & E6 & Hf6 & Hd6 & Hl6 & _).
  unfold io_bind. rewrite E6. cbn [obind]. exists s6. unfold io_ret. split_and!; try done.
  - intros Hlock. simpl. rewrite Hl1, Hlock. apply lookup_insert_eq.
  - rewrite Hf6. simpl. by rewrite Hf1, insert_insert_eq.
  - rewrite Hd6. simpl. rewrite Hd1, !insert_insert_eq, delete_insert_id; [done|].
    apply Hnext. lia.
  - rewrite Hl6. simpl. by rewrite Hl1, lock_table_delete.
Qed.

End lockfile.

Definition old_os : os := Os {[ str "f" := repeat Init.Byte.x41 200 ]} ∅ ∅ ∅ 3 18 [] EOTHER.

Lemma old_os_ok : os_ok old_os /\ locks_ok old_os /\ calm (script old_os).
Proof.
  split; [|split]; [split; [by vm_compute|]|..|by constructor]; intros n _; apply lookup_empty.
Qed.

Lemma locked_roundtrip_witness :
  exists s1 s2,
    @kvtree_write_with_lock host_le zlib_sum lock_flock (Some (str "f")) (Some sample_hash) old_os
      = Ok (KVTREE_SUCCESS, s1) /\
    @kvtree_read_with_lock host_le zlib_sum lock_flock (Some (str "f")) (Some kvtree_new) s1
      = Ok ((KVTREE_SUCCESS, Some sample_hash), s2) /\
    fds s1 = fds old_os /\ locks s1 = locks old_os /\ fds s2 = fds old_os /\ locks s2 = locks old_os.
Proof.
  apply (@locked_roundtrip host_le zlib_sum lock_flock).
  - apply old_os_ok.
  - apply old_os_ok.
  - apply old_os_ok.
  - wf_check.
  - vm_compute. reflexivity.
  - split; [vm_compute; reflexivity|vm_compute; discriminate].
  - vm_compute. discriminate.
Defined.

Lemma read_modify_write_witness :
  exists r h s1 s2,
    @parse host_le zlib_sum (default [] (files old_os !! str "f")) (Some kvtree_new) = Ok (r, h) /\
    @kvtree_lock_open_read host_le zlib_sum lock_flock (Some (str "f")) (Some 0) (Some kvtree_new) old_os
      = Ok ((KVTREE_SUCCESS, Some (Z.of_nat (next_fd old_os)), h), s1) /\
    (@locking lock_flock = true -> locks s1 !! next_fd old_os = Some true) /\
    @kvtree_write_close_unlock host_le zlib_sum lock_flock (Some (str "f"))
      (Some (Z.of_nat (next_fd old_os))) (Some sample_hash) s1 = Ok ((KVTREE_SUCCESS, Some (-1)), s2) /\
    files s2 = <[str "f" := @persisted zlib_sum (Some sample_hash)]> (files old_os) /\
    fds s2 = fds old_os /\ locks s2 = locks old_os.
Proof.
  assert (@parse host_le zlib_sum (default [] (files old_os !! str "f")) (Some kvtree_new)
          = Ok (-1, Some kvtree_new)) as Hp by (vm_compute; reflexivity).
  destruct (@read_modify_write host_le zlib_sum lock_flock (str "f") 0 kvtree_new sample_hash old_os
              (-1) (Some kvtree_new)) as (s1 & s2 & Hrest).
  - apply old_os_ok.
  - apply old_os_ok.
  - apply old_os_ok.
  - vm_compute. discriminate.
  - exact Hp.
  - exists (-1), (Some kvtree_new), s1, s2. split; [exact Hp|exact Hrest].
Defined.
