(* ===== verification/Locked.v ===== *)
(** The file operations of [src/src/kvtree_io.c] and the locked reads and writes of
    [src/src/kvtree.c] as processes whose system calls can be interleaved with
    those of others.

    The definitions of Io, Persist and LockFile run a function from one state of the
    system to another in one go.  Here each is written again as a program ([prog]) that
    stops at every system call, and [run_read_with_lock] to [run_write_close_unlock]
    show that running such a program without a break is the function of LockFile.
    A configuration ([sys]) is what several processes share, the files, and for each
    process its program and its own state: its descriptors, its locks and the replies it
    will get.  [step_at] lets one process make its next system call; a call that
    takes a lock is made only when no other process holds a lock on the file that
    excludes it. *)

From Stdlib Require Import FunctionalExtensionality.
From stdpp Require Import relations.
From S2P Require Import Prelude CLib ByteOrder Kvtree Pack Io Persist LockFile.

(** ** Programs *)

(** [Call lock m k]: the system call [m], which takes a lock on the descriptor when
    [lock] is given (exclusive for [true]), and the rest of the program. *)
Inductive prog (A : Type) : Type :=
| Done (a : A)
| Call {B : Type} (lock : option (Z * bool)) (m : io B) (k : B -> prog A).
Arguments Done {A}.
Arguments Call {A B}.

Fixpoint run {A} (p : prog A) : io A :=
  match p with
  | Done a => io_ret a
  | Call _ m k => do* b := m in run (k b)
  end.

Fixpoint pbind {A B} (p : prog A) (f : A -> prog B) : prog B :=
  match p with
  | Done a => f a
  | Call lock m k => Call lock m (fun b => pbind (k b) f)
  end.

Declare Scope prog_scope.
Notation "'step*' x ':=' p 'in' k" := (pbind p (fun x => k))
  (at level 10, x pattern, p at level 100, k at level 200) : prog_scope.
#[global] Open Scope prog_scope.

Definition call {A} (m : io A) : prog A := Call None m Done.
Definition lock_call (fd : Z) (write : bool) : prog Z :=
  Call (Some (fd, write)) (sys_lock fd (Some write)) Done.

(** What a function computes between system calls; it may crash. *)
Definition local {A} (m : outcome A) : prog A := call (io_lift m).

(** ** The functions *)
Definition kvtree_getmode (read write execute : bool) : prog Z :=
  step* old_mask := call (sys_umask (Z.lor S_IWGRP S_IWOTH)) in
  step* _ := call (sys_umask old_mask) in
  let bits := 0 in
  let bits := if read then Z.lor bits (Z.lor S_IRUSR (Z.lor S_IRGRP S_IROTH)) else bits in
  let bits := if write then Z.lor bits (Z.lor S_IWUSR (Z.lor S_IWGRP S_IWOTH)) else bits in
  let bits := if execute then Z.lor bits (Z.lor S_IXUSR (Z.lor S_IXGRP S_IXOTH)) else bits in
  let mode := Z.land (Z.land bits (Z.lnot old_mask)) 511 in
  Done mode.

Fixpoint open_loop (file : cstring) (flags mode : Z) (tries : nat) (fd : Z) : prog Z :=
  match tries with
  | O => Done fd
  | S tries =>
      if fd <? 0 then
        step* fd := call (sys_open file flags mode) in
        open_loop file flags mode tries fd
      else Done fd
  end.

Definition kvtree_open (file : cstring) (flags : Z) (args : option Z) : prog Z :=
  step* mode := local (if has_flag flags O_CREAT
                       then match args with Some m => Ok m | None => Undef end
                       else Ok 0) in
  step* fd := call (sys_open file flags mode) in
  if fd <? 0 then open_loop file flags mode KVTREE_OPEN_TRIES fd else Done fd.

Definition kvtree_close (file : cstring) (fd : Z) : prog Z :=
  step* _ := call (sys_fsync fd) in
  step* rc := call (sys_close fd) in
  if negb (rc =? 0) then Done KVTREE_FAILURE else Done KVTREE_SUCCESS.

(** The fuel is that of Io: it depends on the replies still to come. *)
Definition fuel_for (size : nat) : prog nat := call (fun s => Ok (attempt_fuel size s, s)).

Fixpoint read_loop (fuel : nat) (fd : Z) (buf : list byte) (size n : nat) (retries : Z)
    : prog (Z * list byte) :=
  match fuel with
  | O => call (fun _ => NoFuel)
  | S fuel =>
      if (n <? size)%nat then
        step* (ret, bs) := call (sys_read fd (size - n)) in
        step* buf := local (mem_write buf n bs) in
        let rc := i32 ret in
        if 0 <? rc then read_loop fuel fd buf size (n + Z.to_nat rc) retries
        else if rc =? 0 then Done (Z.of_nat n, buf)
        else
          step* again := call interrupted in
          if again then read_loop fuel fd buf size n retries
          else
            let retries := retries - 1 in
            if negb (retries =? 0) then read_loop fuel fd buf size n retries
            else Done (-1, buf)
      else Done (Z.of_nat n, buf)
  end.

Definition kvtree_read_attempt (file : cstring) (fd : Z) (buf : list byte) (size : nat)
    : prog (Z * list byte) :=
  step* fuel := fuel_for size in
  read_loop fuel fd buf size 0 10.

Fixpoint write_loop (fuel : nat) (fd : Z) (buf : list byte) (size n : nat) (retries : Z)
    : prog Z :=
  match fuel with
  | O => call (fun _ => NoFuel)
  | S fuel =>
      if (n <? size)%nat then
        step* bs := local (mem_read buf n (size - n)) in
        step* rc := call (sys_write fd bs) in
        if 0 <? rc then write_loop fuel fd buf size (n + Z.to_nat rc) retries
        else if rc =? 0 then Done (-1)
        else
          step* again := call interrupted in
          if again then write_loop fuel fd buf size n retries
          else
            let retries := retries - 1 in
            if negb (retries =? 0) then write_loop fuel fd buf size n retries
            else Done (-1)
      else Done (Z.of_nat n)
  end.

Definition kvtree_write_attempt (file : cstring) (fd : Z) (buf : list byte) (size : nat)
    : prog Z :=
  step* fuel := fuel_for size in
  write_loop fuel fd buf size 0 10.

Section locks.
Context `{LockConfig}.

Definition kvtree_file_lock_read_write (file : cstring) (fd : Z) (write : bool) : prog Z :=
  step* rc := (if KVTREE_FILE_LOCK_USE_FLOCK then
                 let op := write in
                 lock_call fd op
               else Done 0) in
  if negb (rc =? 0) then Done KVTREE_FAILURE
  else
    step* rc := (if KVTREE_FILE_LOCK_USE_FCNTL then
                   let l_type := write in
                   lock_call fd l_type
                 else Done 0) in
    if rc <? 0 then Done KVTREE_FAILURE else Done KVTREE_SUCCESS.

Definition kvtree_file_unlock (file : cstring) (fd : Z) : prog Z :=
  step* rc := (if KVTREE_FILE_LOCK_USE_FLOCK then call (sys_lock fd None) else Done 0) in
  if negb (rc =? 0) then Done KVTREE_FAILURE
  else
    step* rc := (if KVTREE_FILE_LOCK_USE_FCNTL then call (sys_lock fd None) else Done 0) in
    if rc <? 0 then Done KVTREE_FAILURE else Done KVTREE_SUCCESS.

Definition kvtree_open_with_lock (file : cstring) (flags mode : Z) (write : bool) : prog Z :=
  step* fd := kvtree_open file flags (Some mode) in
  if fd <? 0 then Done fd
  else
    step* ret := kvtree_file_lock_read_write file fd write in
    if negb (ret =? KVTREE_SUCCESS) then
      step* _ := call (sys_close fd) in
      Done ret
    else Done fd.

Definition kvtree_close_with_unlock (file : cstring) (fd : Z) : prog Z :=
  step* ret := kvtree_file_unlock file fd in
  if negb (ret =? KVTREE_SUCCESS) then Done ret
  else kvtree_close file fd.

End locks.

Section files.
Context `{Host} `{Zlib} `{LockConfig}.

Definition kvtree_write_fd (file : option cstring) (fd : Z) (hash : option kvtree) : prog Z :=
  match file, hash with
  | Some file, Some _ =>
      if fd <? 0 then Done (-1)
      else
        step* (_, out) := local (kvtree_write_persist true true hash) in
        match out with
        | None => local Undef
        | Some (buf, size) =>
            step* nwrite := kvtree_write_attempt file fd buf size in
            if negb (nwrite =? Z.of_nat size) then Done (-1) else Done nwrite
        end
  | _, _ => Done (-1)
  end.

Definition kvtree_read_fd (file : option cstring) (fd : Z) (hash : option kvtree)
    : prog (Z * option kvtree) :=
  match file, hash with
  | Some file, Some _ =>
      if fd <? 0 then Done (-1, hash)
      else
        step* (nread, header) := kvtree_read_attempt file fd
                                   (fresh_block KVTREE_FILE_HASH_HEADER_SIZE)
                                   KVTREE_FILE_HASH_HEADER_SIZE in
        if nread <? 0 then Done (-1, hash)
        else if nread =? 0 then Done (0, hash)
        else if negb (nread =? Z.of_nat KVTREE_FILE_HASH_HEADER_SIZE) then Done (-1, hash)
        else
          step* fields := local (read_header header) in
          match fields with
          | None => Done (-1, hash)
          | Some (filesize, flags, size) =>
              step* block := local (kvtree_malloc filesize) in
              match block with
              | None => local Undef
              | Some _ =>
                  let buf := fresh_block (Z.to_nat filesize) in
                  step* buf := local (mem_write buf 0 (take size header)) in
                  let remainder := filesize - Z.of_nat size in
                  step* (nread, buf) :=
                    (if 0 <? remainder then
                       step* (nread, rest) := kvtree_read_attempt file fd (drop size buf)
                                                (Z.to_nat remainder) in
                       Done (nread, take size buf ++ rest)
                     else Done (remainder, buf)) in
                  if nread <? 0 then Done (-1, hash)
                  else if negb (nread =? remainder) then Done (-1, hash)
                  else
                    step* ok := local (crc_ok buf filesize flags) in
                    if negb ok then Done (-1, hash)
                    else
                      let tmp_hash := kvtree_new in
                      step* (_, tmp_hash) := local (kvtree_unpack buf size (Some tmp_hash)) in
                      let '(hash, _) := kvtree_merge hash tmp_hash in
                      Done (i64 filesize, hash)
              end
          end
  | _, _ => Done (-1, hash)
  end.

Definition kvtree_read_write_with_lock (file : option cstring) (hash : option kvtree)
    (write : bool) : prog Z :=
  match file, hash with
  | Some name, Some _ =>
      step* mode_file := kvtree_getmode true true false in
      step* fd := kvtree_open_with_lock name (Z.lor O_RDWR O_CREAT) mode_file write in
      Done fd
  | _, _ => Done (-1)
  end.

Definition kvtree_read_with_lock (file : option cstring) (hash : option kvtree)
    : prog (Z * option kvtree) :=
  step* fd := kvtree_read_write_with_lock file hash false in
  if 0 <=? fd then
    step* (nread, hash) := kvtree_read_fd file fd hash in
    let rc := i32 nread in
    if rc =? -1 then
      step* _ := kvtree_close_with_unlock (default [] file) fd in
      Done (KVTREE_FAILURE, hash)
    else
      step* rc := kvtree_close_with_unlock (default [] file) fd in
      if negb (rc =? 0) then Done (KVTREE_FAILURE, hash)
      else Done (KVTREE_SUCCESS, hash)
  else Done (KVTREE_FAILURE, hash).

Definition kvtree_write_with_lock (file : option cstring) (hash : option kvtree) : prog Z :=
  step* fd := kvtree_read_write_with_lock file hash true in
  if 0 <=? fd then
    step* _ := kvtree_write_fd file fd hash in
    step* _ := kvtree_close_with_unlock (default [] file) fd in
    Done KVTREE_SUCCESS
  else Done KVTREE_FAILURE.

Definition kvtree_lock_open_read (file : option cstring) (fd : option Z) (hash : option kvtree)
    : prog (Z * option Z * option kvtree) :=
  match fd with
  | None => Done (KVTREE_FAILURE, fd, hash)
  | Some _ =>
      let fd := -1 in
      match file, hash with
      | Some name, Some _ =>
          step* mode_file := kvtree_getmode true true false in
          step* fd := kvtree_open_with_lock name (Z.lor O_RDWR O_CREAT) mode_file true in
          if 0 <=? fd then
            step* (_, hash) := kvtree_read_fd file fd hash in
            Done (KVTREE_SUCCESS, Some fd, hash)
          else Done (KVTREE_FAILURE, Some fd, hash)
      | _, _ => Done (KVTREE_FAILURE, Some fd, hash)
      end
  end.

Definition kvtree_write_close_unlock (file : option cstring) (fd : option Z)
    (hash : option kvtree) : prog (Z * option Z) :=
  match fd with
  | None => Done (KVTREE_FAILURE, None)
  | Some fd =>
      if fd <? 0 then Done (KVTREE_FAILURE, Some fd)
      else
        match file, hash with
        | Some name, Some _ =>
            step* _ := call (sys_lseek fd 0) in
            step* nwrite := kvtree_write_fd file fd hash in
            step* _ := (if 0 <=? nwrite then call (sys_ftruncate fd (Z.to_nat nwrite)) else Done 0) in
            step* _ := kvtree_close_with_unlock name fd in
            let fd := -1 in
            Done (KVTREE_SUCCESS, Some fd)
        | _, _ => Done (KVTREE_FAILURE, Some fd)
        end
  end.

End files.

(** ** Several processes *)
Section sys.
Context {A : Type}.

Record sys := Sys { disk : gmap cstring (list byte); threads : list (prog A * os) }.

(** Process [i] may lock [file] when no other process holds a lock on it that
    excludes this one. *)
Definition excludes (file : cstring) (write : bool) (s : os) : bool :=
  existsb (fun '(n, held) => bool_decide (d_file <$> fds s !! n = Some file) && (write || held))
          (map_to_list (locks s)).

Definition granted (T : list (prog A * os)) (i : nat) (file : cstring) (write : bool) : bool :=
  forallb (fun '(j, (_, s)) => (j =? i)%nat || negb (excludes file write s)) (imap pair T).

Definition enabled (T : list (prog A * os)) (i : nat) (s : os) (lock : option (Z * bool)) : bool :=
  match lock with
  | None => true
  | Some (fd, write) =>
      match fds s !! Z.to_nat fd with
      | Some d => granted T i (d_file d) write
      | None => true
      end
  end.

(** Process [i] makes its next call, on the shared files. *)
Definition step_at (i : nat) (c : sys) : option sys :=
  match threads c !! i with
  | Some (Call lock m k, s) =>
      if enabled (threads c) i s lock then
        match m (set_files (disk c) s) with
        | Ok (b, s') => Some (Sys (files s') (<[i := (k b, s')]> (threads c)))
        | _ => None
        end
      else None
  | _ => None
  end.

Definition tstep (c c' : sys) : Prop := exists i, step_at i c = Some c'.

(** The processes of [order] make a step one after the other; one that cannot is passed
    over. *)
Fixpoint schedule (order : list nat) (c : sys) : sys :=
  match order with
  | [] => c
  | i :: order => schedule order (default c (step_at i c))
  end.

Lemma schedule_rtc order : forall c, rtc tstep c (schedule order c).
Proof.
  induction order as [|i order IH]; intros c; simpl; [done|].
  destruct (step_at i c) as [c1|] eqn:E; simpl; [|auto]. eapply rtc_l; [by exists i|auto].
Qed.

End sys.
Arguments sys : clear implicits.

(** ** Running a program in one go *)
Lemma run_pbind {A B} (p : prog A) (f : A -> prog B) :
  run (pbind p f) = (do* a := run p in run (f a)).
Proof.
  apply functional_extensionality. revert f.
  induction p as [a|C lock m k IH]; intros f s; [done|]. cbn [pbind run].
  unfold io_bind at 1 2 3. destruct (m s) as [[b s']| | |]; cbn [obind]; [|done..].
  by rewrite IH.
Qed.

Lemma pbind_assoc {A B C} (p : prog A) (f : A -> prog B) (g : B -> prog C) :
  pbind (pbind p f) g = pbind p (fun a => pbind (f a) g).
Proof.
  induction p as [a|D lock m k IH]; [done|]. cbn [pbind]. f_equal.
  apply functional_extensionality. auto.
Qed.

Lemma io_bind_ext {A B} (m m' : io A) (f f' : A -> io B) :
  m = m' -> (forall a, f a = f' a) -> io_bind m f = io_bind m' f'.
Proof. intros -> Hf. f_equal. by apply functional_extensionality. Qed.

Lemma run_call {A} lock (m : io A) : run (Call lock m Done) = m.
Proof.
  apply functional_extensionality. intros s. cbn. unfold io_bind, io_ret.
  by destruct (m s) as [[a s']| | |].
Qed.

(** [hom]: a program and the function it was written after have the same shape. *)
Ltac hom :=
  repeat first
    [ reflexivity
    | progress cbn [run]
    | rewrite run_pbind
    | progress (autorewrite with runs)
    | apply io_bind_ext; [|intros]
    | match goal with
      | |- context [match ?x with _ => _ end] => is_var x; destruct x
      | |- run (if ?b then _ else _) = _ => destruct b
      | |- run (match ?x with _ => _ end) = _ => destruct x
      end ].

Lemma run_local_call {A} (m : io A) : run (call m) = m.
Proof. apply run_call. Qed.
Lemma run_lock_call fd w : run (lock_call fd w) = sys_lock fd (Some w).
Proof. apply run_call. Qed.
Lemma run_local {A} (m : outcome A) : run (local m) = io_lift m.
Proof. apply run_call. Qed.
#[export] Hint Rewrite @run_local_call run_lock_call @run_local : runs.

Lemma run_getmode r w x : run (kvtree_getmode r w x) = Io.kvtree_getmode r w x.
Proof. unfold kvtree_getmode, Io.kvtree_getmode. hom. Qed.
#[export] Hint Rewrite run_getmode : runs.

Lemma run_open_loop file flags mode tries : forall fd,
  run (open_loop file flags mode tries fd) = Io.open_loop file flags mode tries fd.
Proof.
  induction tries as [|tries IH]; intros fd; [done|]. cbn [open_loop Io.open_loop]. hom. apply IH.
Qed.
#[export] Hint Rewrite run_open_loop : runs.

Lemma run_open file flags args :
  run (kvtree_open file flags args) = Io.kvtree_open file flags args.
Proof. unfold kvtree_open, Io.kvtree_open. hom. Qed.

Lemma run_close file fd : run (kvtree_close file fd) = Io.kvtree_close file fd.
Proof. unfold kvtree_close, Io.kvtree_close. hom. Qed.
#[export] Hint Rewrite run_open run_close : runs.

Lemma run_read_loop fuel fd : forall buf size n retries,
  run (read_loop fuel fd buf size n retries) = Io.read_loop fuel fd buf size n retries.
Proof.
  induction fuel as [|fuel IH]; intros buf size n retries; [apply run_local_call|].
  cbn [read_loop Io.read_loop]. hom; apply IH.
Qed.

Lemma run_write_loop fuel fd : forall buf size n retries,
  run (write_loop fuel fd buf size n retries) = Io.write_loop fuel fd buf size n retries.
Proof.
  induction fuel as [|fuel IH]; intros buf size n retries; [apply run_local_call|].
  cbn [write_loop Io.write_loop]. hom; apply IH.
Qed.

Lemma run_read_attempt file fd buf size :
  run (kvtree_read_attempt file fd buf size) = Io.kvtree_read_attempt file fd buf size.
Proof.
  unfold kvtree_read_attempt, fuel_for. rewrite run_pbind, run_local_call.
  apply functional_extensionality. intros s. unfold io_bind. cbn [obind]. by rewrite run_read_loop.
Qed.

Lemma run_write_attempt file fd buf size :
  run (kvtree_write_attempt file fd buf size) = Io.kvtree_write_attempt file fd buf size.
Proof.
  unfold kvtree_write_attempt, fuel_for. rewrite run_pbind, run_local_call.
  apply functional_extensionality. intros s. unfold io_bind. cbn [obind]. by rewrite run_write_loop.
Qed.
#[export] Hint Rewrite run_read_attempt run_write_attempt : runs.

Section runs.
Context `{Host} `{Zlib} `{LockConfig}.

Lemma run_file_lock_read_write file fd w :
  run (kvtree_file_lock_read_write file fd w) = Io.kvtree_file_lock_read_write file fd w.
Proof. unfold kvtree_file_lock_read_write, Io.kvtree_file_lock_read_write. hom. Qed.

Lemma run_file_unlock file fd : run (kvtree_file_unlock file fd) = Io.kvtree_file_unlock file fd.
Proof. unfold kvtree_file_unlock, Io.kvtree_file_unlock. hom. Qed.
#[local] Hint Rewrite run_file_lock_read_write run_file_unlock : runs.

Lemma run_open_with_lock file flags mode w :
  run (kvtree_open_with_lock file flags mode w) = Io.kvtree_open_with_lock file flags mode w.
Proof. unfold kvtree_open_with_lock, Io.kvtree_open_with_lock. hom. Qed.

Lemma run_close_with_unlock file fd :
  run (kvtree_close_with_unlock file fd) = Io.kvtree_close_with_unlock file fd.
Proof. unfold kvtree_close_with_unlock, Io.kvtree_close_with_unlock. hom. Qed.
#[local] Hint Rewrite run_open_with_lock run_close_with_unlock : runs.

Lemma run_write_fd file fd hash :
  run (kvtree_write_fd file fd hash) = Persist.kvtree_write_fd file fd hash.
Proof. unfold kvtree_write_fd, Persist.kvtree_write_fd. hom. Qed.

Lemma run_read_fd file fd hash :
  run (kvtree_read_fd file fd hash) = Persist.kvtree_read_fd file fd hash.
Proof. unfold kvtree_read_fd, Persist.kvtree_read_fd. hom. Qed.
#[local] Hint Rewrite run_write_fd run_read_fd : runs.

Lemma run_read_write_with_lock file hash w :
  run (kvtree_read_write_with_lock file hash w) = LockFile.kvtree_read_write_with_lock file hash w.
Proof. unfold kvtree_read_write_with_lock, LockFile.kvtree_read_write_with_lock. hom. Qed.
#[local] Hint Rewrite run_read_write_with_lock : runs.

Lemma run_read_with_lock file hash :
  run (kvtree_read_with_lock file hash) = LockFile.kvtree_read_with_lock file hash.
Proof. unfold kvtree_read_with_lock, LockFile.kvtree_read_with_lock. hom. Qed.

Lemma run_write_with_lock file hash :
  run (kvtree_write_with_lock file hash) = LockFile.kvtree_write_with_lock file hash.
Proof. unfold kvtree_write_with_lock, LockFile.kvtree_write_with_lock. hom. Qed.

Lemma run_lock_open_read file fd hash :
  run (kvtree_lock_open_read file fd hash) = LockFile.kvtree_lock_open_read file fd hash.
Proof. unfold kvtree_lock_open_read, LockFile.kvtree_lock_open_read. hom. Qed.

Lemma run_write_close_unlock file fd hash :
  run (kvtree_write_close_unlock file fd hash) = LockFile.kvtree_write_close_unlock file fd hash.
Proof. unfold kvtree_write_close_unlock, LockFile.kvtree_write_close_unlock. hom. Qed.

End runs.
