(* ===== verification/LockedSpec.v ===== *)
(** Several processes read, write and update one kvtree file under its lock.

    Whatever the order in which their system calls are interleaved, each call behaves as
    if it were done at one moment on a hash that all processes share ([atomic]): a reader
    gets the hash as it was at that moment, and no update is lost.  Every run comes to an
    end, with all calls successful and no lock or descriptor left.

    The proof follows each process through three phases: before it holds the lock
    ([pre]), while it holds it ([inside]) and after it released it ([post]).  A process
    that holds the lock for writing is alone on the file, so what its remaining calls
    will leave there is known from the moment it got the lock. *)

From Stdlib Require Import FunctionalExtensionality.
From stdpp Require Import relations.
From S2P Require Import Prelude CLib ByteOrder Kvtree KvtreeSpec KvtreeMerge Pack Io Persist LockFile Locked.

Create HintDb gentle.

(** ** The calls and what they promise *)
Inductive request := Read | Write (t : kvtree) | Update (f : kvtree -> kvtree).

Definition answer : Type := Z * option kvtree.

Section serve.
Context `{Host} `{Zlib} `{LockConfig}.

(** An update reads the file under the lock, changes the hash and writes it back. *)
Definition serve (file : cstring) (r : request) : prog answer :=
  match r with
  | Read => kvtree_read_with_lock (Some file) (Some kvtree_new)
  | Write t =>
      step* rc := kvtree_write_with_lock (Some file) (Some t) in
      Done (rc, None)
  | Update f =>
      step* (rc, fd, hash) := kvtree_lock_open_read (Some file) (Some (-1)) (Some kvtree_new) in
      if negb (rc =? KVTREE_SUCCESS) then Done (rc, hash)
      else
        step* (rc, _) := kvtree_write_close_unlock (Some file) fd (f <$> hash) in
        Done (rc, hash)
  end.

End serve.

(** The specification: one step on a shared hash. *)
Definition atomic (r : request) (h : kvtree) : answer * kvtree :=
  match r with
  | Read => ((KVTREE_SUCCESS, Some h), h)
  | Write t => ((KVTREE_SUCCESS, None), t)
  | Update f => ((KVTREE_SUCCESS, Some h), f h)
  end.

Definition writes (r : request) : bool := match r with Read => false | _ => true end.

(** The hash and, for each process, its answer once it has one. *)
Definition shared : Type := kvtree * list (option answer).

Inductive astep (reqs : list request) : shared -> shared -> Prop :=
| atomically h ans i r :
    reqs !! i = Some r -> ans !! i = Some None ->
    astep reqs (h, ans) ((atomic r h).2, <[i := Some (atomic r h).1]> ans).

Section spec.
Context `{Host} `{Zlib} `{LockConfig}.

(** A hash that comes back from a file as it was. *)
Definition good (t : kvtree) : Prop :=
  wf t /\ no_null_hash t = true /\ fits t /\ i32 (Z.of_nat (kvtree_persist_size (Some t))) <> -1.

(** A file holds a hash when it starts with its persisted form; a file that is missing or
    empty holds the empty hash. *)
Definition represents (c : option (list byte)) (h : kvtree) : Prop :=
  default [] c = [] /\ h = kvtree_new \/ exists rest, c = Some (persisted (Some h) ++ rest).

Lemma represents_parse c h :
  represents (Some c) h -> good h ->
  exists r, parse c (Some kvtree_new) = Ok (r, Some h) /\ i32 r <> -1.
Proof.
  intros [[Hc ->]|[rest ->%(inj Some)]] (Hwf & Hnn & [Hsm Hm] & Hi).
  - simpl in Hc. subst c. by exists 0.
  - exists (Z.of_nat (kvtree_persist_size (Some h))). split; [|done].
    rewrite parse_persisted by done. by rewrite merge_new, unpacked_twice by auto with kvtree.
Qed.

(** ** The phases of a process *)
Section phases.
Context (file : cstring).

Definition on_file (s : os) (n : nat) : option cstring := d_file <$> fds s !! n.

(** The lock is released: the process only closes its descriptor. *)
Fixpoint post (p : prog answer) (s : os) (F : gmap nat desc) (a : answer) : Prop :=
  match p with
  | Done a' => a' = a /\ fds s = F
  | Call lock m k =>
      lock = None /\
      forall D, is_Some (D !! file) ->
        exists b s', m (set_files D s) = Ok (b, s') /\ files s' = D /\ locks s' = ∅ /\
                     post (k b) s' F a
  end.

(** The next call releases the lock. *)
Definition unlocking (p : prog answer) (s : os) (F : gmap nat desc) (a : answer) : Prop :=
  match p with Done _ => False | _ => post p s F a end.

(** The process holds the lock, shared or exclusive ([w]).  When it is the only one to change
    the file, it will leave there the hash [h] and return [a]. *)
Inductive inside (w : bool) (h : kvtree) (F : gmap nat desc) (a : answer)
    : prog answer -> os -> gmap cstring (list byte) -> Prop :=
| inside_call {B} (m : io B) k s D b s' :
    m (set_files D s) = Ok (b, s') ->
    locks s' = locks s -> (forall n, on_file s' n = on_file s n) ->
    (w = false -> files s' = D) -> is_Some (files s' !! file) ->
    inside w h F a (k b) s' (files s') ->
    inside w h F a (Call None m k) s D
| inside_unlock p s D :
    unlocking p s F a -> (w = true -> represents (D !! file) h) ->
    inside w h F a p s D.

(** The process has no lock yet.  [o]: it has opened the file, so that the file is
    there. *)
Fixpoint pre (o : bool) (r : request) (F : gmap nat desc) (p : prog answer) (s : os) : Prop :=
  match p with
  | Done _ => False
  | Call None m k =>
      forall D, (o = true -> is_Some (D !! file)) ->
        exists b s' o', m (set_files D s) = Ok (b, s') /\ locks s' = ∅ /\
          (files s' = D \/ D !! file = None /\ files s' = <[file := []]> D) /\
          (o' = true -> is_Some (files s' !! file)) /\ pre o' r F (k b) s'
  | Call (Some (fd, w)) m k =>
      o = true /\ w = writes r /\ on_file s (Z.to_nat fd) = Some file /\
      forall D c h, D !! file = Some c -> represents (Some c) h -> good h ->
        good (atomic r h).2 ->
        exists b s', m (set_files D s) = Ok (b, s') /\ files s' = D /\
          locks s' = {[ Z.to_nat fd := w ]} /\ on_file s' (Z.to_nat fd) = Some file /\
          inside w (atomic r h).2 F (atomic r h).1 (k b) s' D
  end.

(** ** Calls made while the lock is held *)
Definition gentle {B} (w : bool) (m : io B) : Prop :=
  forall s b s', m s = Ok (b, s') ->
    locks s' = locks s /\ (forall n, on_file s' n = on_file s n) /\
    (w = false -> files s' = files s) /\ (forall f, is_Some (files s !! f) -> is_Some (files s' !! f)).

Fixpoint plain {A} (w : bool) (p : prog A) : Prop :=
  match p with
  | Done _ => True
  | Call lock m k => lock = None /\ gentle w m /\ forall b, plain w (k b)
  end.

Lemma plain_bind {A B} w (p : prog A) (f : A -> prog B) :
  plain w p -> (forall a, plain w (f a)) -> plain w (pbind p f).
Proof. intros Hp Hf. induction p as [a|C lock m k IH]; [apply Hf|]. simpl in *. naive_solver. Qed.

Lemma plain_call {A} w (m : io A) : gentle w m -> plain w (call m).
Proof. intros Hg. split; [done|]. by split. Qed.

Lemma set_files_id s : set_files (files s) s = s.
Proof. by destruct s. Qed.

(** Running such a program without a break is what happens inside the lock. *)
Lemma inside_bind {A} w h F a (q : prog A) (K : A -> prog answer) : forall s D b s1,
  plain w q -> is_Some (D !! file) -> run q (set_files D s) = Ok (b, s1) ->
  inside w h F a (K b) s1 (files s1) -> inside w h F a (pbind q K) s D.
Proof.
  induction q as [x|B lock m k IH]; intros s D b s1 Hp HD; cbn [run pbind].
  - intros [= <- <-]. intros HK. simpl in HK.
    inversion HK as [? m k ? ? b s' E Hl Ho Hw Hd Hi|p ? ? Hu Hr]; subst.
    + by eapply inside_call.
    + apply inside_unlock; [|done]. clear -Hu. unfold unlocking in *. by destruct (K x).
  - destruct Hp as (-> & Hg & Hk). unfold io_bind.
    destruct (m (set_files D s)) as [[b0 s0]| | |] eqn:E; cbn [obind]; [|done..].
    intros Hrun HK. destruct (Hg _ _ _ E) as (Hl & Ho & Hw & Hd).
    eapply inside_call; [exact E|done|done|exact Hw|by apply Hd|].
    eapply IH; [done|by apply Hd|by rewrite set_files_id|done].
Qed.

Lemma gentle_lift {A} w (m : outcome A) : gentle w (io_lift m).
Proof.
  intros s b s'. unfold io_lift. destruct m; simpl; [|done..]. by intros [= <- <-].
Qed.

Lemma gentle_bind {A B} w (m : io A) (f : A -> io B) :
  gentle w m -> (forall a, gentle w (f a)) -> gentle w (io_bind m f).
Proof.
  intros Hm Hf s b s'. unfold io_bind. destruct (m s) as [[a s1]| | |] eqn:E; simpl; [|done..].
  intros E'. destruct (Hm _ _ _ E) as (Hl & Ho & Hw & Hd).
  destruct (Hf _ _ _ _ E') as (Hl' & Ho' & Hw' & Hd').
  split_and!; [congruence|congruence|intros; rewrite Hw' by done; auto|auto].
Qed.

Lemma gentle_syscall w : gentle w syscall.
Proof. intros s r s'. rewrite syscall_eq. by intros [= <- <-]. Qed.

Lemma gentle_ret {A} w (a : A) : gentle w (io_ret a).
Proof. intros s b s'. by intros [= <- <-]. Qed.

(** A call on a descriptor moves its offset and, when it may write, changes its file. *)
Lemma gentle_with_fd {A} w fd (bad : A) k :
  (forall n d c s b s', fds s !! n = Some d -> k n d c s = Ok (b, s') ->
     s' = s \/
     exists pos, fds s' = <[n := Desc (d_file d) pos]> (fds s) /\ locks s' = locks s /\
       (files s' = files s \/ w = true /\ exists c', files s' = <[d_file d := c']> (files s))) ->
  gentle w (with_fd fd bad k).
Proof.
  intros Hk s b s'. unfold with_fd. destruct (fd <? 0); [by intros [= <- <-]|].
  destruct (fds s !! Z.to_nat fd) as [d|] eqn:Ed; [|by intros [= <- <-]].
  intros E. destruct (Hk _ _ _ _ _ _ Ed E) as [->|(pos & Hf & Hl & Hd)]; [done|].
  split_and!; [done| | |].
  - intros n. unfold on_file. rewrite Hf. destruct (decide (n = Z.to_nat fd)) as [->|Hn].
    + by rewrite lookup_insert_eq, Ed.
    + by rewrite lookup_insert_ne.
  - intros ->. by destruct Hd as [|[? _]].
  - intros f Hs. destruct Hd as [->|[_ [c' ->]]]; [done|].
    destruct (decide (f = d_file d)) as [->|Hne]; [by rewrite lookup_insert_eq|].
    by rewrite lookup_insert_ne.
Qed.

Ltac gentle :=
  apply gentle_bind; [apply gentle_syscall|intros []];
  apply gentle_with_fd; intros ? ? ? ? ? ? ?;
  [intros [= <- <-]; right; eexists; split; [reflexivity|]..|intros [= <- <-]; by left].

Lemma gentle_read w fd n : gentle w (sys_read fd n).
Proof. unfold sys_read. gentle; auto. Qed.

Lemma gentle_lseek w fd pos : gentle w (sys_lseek fd pos).
Proof. unfold sys_lseek. gentle; auto. Qed.

Lemma gentle_write fd bs : gentle true (sys_write fd bs).
Proof. unfold sys_write. gentle; (split; [done|]); right; eauto. Qed.

Lemma gentle_ftruncate fd len : gentle true (sys_ftruncate fd len).
Proof.
  unfold sys_ftruncate. apply gentle_bind; [apply gentle_syscall|intros []];
    apply gentle_with_fd; intros ? d ? ? ? ? ?;
    [..|intros [= <- <-]; by left]; intros [= <- <-]; right; exists (d_pos d);
    (split; [destruct d; simpl; by rewrite insert_id|]); (split; [done|]); right; eauto.
Qed.

Lemma gentle_interrupted w : gentle w interrupted.
Proof.
  apply gentle_bind; [by intros s b s' [= <- <-]|]. intros []; apply gentle_ret.
Qed.

Lemma gentle_fuel w size : gentle w (fun s => Ok (attempt_fuel size s, s)).
Proof. by intros s b s' [= <- <-]. Qed.

Lemma gentle_nofuel {A} w : gentle w (fun _ => @NoFuel (A * os)).
Proof. done. Qed.

Hint Resolve gentle_lift gentle_ret gentle_read gentle_lseek gentle_write gentle_ftruncate
  gentle_interrupted gentle_fuel gentle_nofuel : gentle.

(** [plain]: every call of a program is gentle. *)
Ltac plain :=
  repeat first
    [ exact I
    | apply plain_bind; [|intros]
    | apply plain_call; solve [auto with gentle]
    | match goal with
      | |- plain _ (match ?x with _ => _ end) => destruct x
      end
    | solve [auto with gentle] ].

Lemma plain_read_loop w fuel fd : forall buf size n retries,
  plain w (read_loop fuel fd buf size n retries).
Proof. induction fuel; intros; cbn [read_loop]; plain; auto. Qed.

Lemma plain_write_loop fuel fd : forall buf size n retries,
  plain true (write_loop fuel fd buf size n retries).
Proof. induction fuel; intros; cbn [write_loop]; plain; auto. Qed.

Hint Resolve plain_read_loop plain_write_loop : gentle.

Lemma plain_read_fd w f fd hash : plain w (kvtree_read_fd f fd hash).
Proof. unfold kvtree_read_fd, kvtree_read_attempt. plain. Qed.

Lemma plain_write_fd f fd hash : plain true (kvtree_write_fd f fd hash).
Proof. unfold kvtree_write_fd, kvtree_write_attempt. plain. Qed.

Hint Resolve plain_read_fd plain_write_fd : gentle.

(** ** Each function keeps to its phase *)
Hypothesis one_lock : xorb KVTREE_FILE_LOCK_USE_FLOCK KVTREE_FILE_LOCK_USE_FCNTL = true.

(** The state of a process that has the file open on descriptor [n]; [F] are its other
    descriptors. *)
Definition has_open (n : nat) (F : gmap nat desc) (s : os) : Prop :=
  (exists p, fds s = <[n := Desc file p]> F) /\ F !! n = None /\ calm (script s).

Lemma has_open_opened n F s D c :
  has_open n F s -> D !! file = Some c ->
  exists p, opened (set_files D s) n (Desc file p) c.
Proof.
  intros [[p Hp] _] HD. exists p. split; [simpl; rewrite Hp; apply lookup_insert_eq|done].
Qed.

Lemma post_close n F s a (K : Z -> prog answer) :
  has_open n F s -> locks s = ∅ -> K KVTREE_SUCCESS = Done a ->
  post (pbind (kvtree_close file (Z.of_nat n)) K) s F a.
Proof.
  intros Hop Hl HK. split; [done|]. intros D [c HD]. exists
    (match reply_of s with Fails _ => -1 | _ => 0 end), (after (set_files D s)).
  destruct Hop as (Hp & HF & Hc). split_and!; [|done|done|].
  { unfold sys_fsync, io_bind. rewrite syscall_eq. cbn [obind].
    change (reply_of (set_files D s)) with (reply_of s). by destruct (reply_of s). }
  split; [done|]. intros D' [c' HD'].
  assert (has_open n F (after (set_files D s))) as Hop'
    by (split_and!; [done|done|simpl; eauto with kvtree]).
  destruct (has_open_opened _ _ _ _ _ Hop' HD') as [p Ho].
  destruct (sys_close_spec _ _ _ _ Ho) as (rc & sc & e & E & _ & _ & Hrc).
  rewrite Hrc in E by apply Hop'. eexists _, _. split; [exact E|]. split_and!; [done| |].
  - simpl. by rewrite Hl, delete_empty.
  - cbn. rewrite HK. split; [done|]. destruct Hp as [q Hq]. simpl. by rewrite Hq, delete_insert_id.
Qed.

(** With one of the two locking calls configured, locking is that one call. *)
Lemma lock_shape fd w :
  exists k, kvtree_file_lock_read_write file fd w = Call (Some (fd, w)) (sys_lock fd (Some w)) k /\
            k 0 = Done KVTREE_SUCCESS.
Proof.
  unfold kvtree_file_lock_read_write.
  destruct KVTREE_FILE_LOCK_USE_FLOCK, KVTREE_FILE_LOCK_USE_FCNTL; [done| | |done];
    eexists; split; reflexivity.
Qed.

Lemma unlock_shape fd :
  exists k, kvtree_file_unlock file fd = Call None (sys_lock fd None) k /\ k 0 = Done KVTREE_SUCCESS.
Proof.
  unfold kvtree_file_unlock.
  destruct KVTREE_FILE_LOCK_USE_FLOCK, KVTREE_FILE_LOCK_USE_FCNTL; [done| | |done];
    eexists; split; reflexivity.
Qed.

Lemma lock_call_calm op n F s D :
  has_open n F s -> is_Some (D !! file) ->
  exists s', sys_lock (Z.of_nat n) op (set_files D s) = Ok (0, s') /\ files s' = D /\
    locks s' = match op with Some w => <[n := w]> (locks s) | None => delete n (locks s) end /\
    fds s' = fds s /\ has_open n F s'.
Proof.
  intros Hop [c HD]. destruct (has_open_opened _ _ _ _ _ Hop HD) as [p Ho].
  destruct (sys_lock_spec _ _ _ _ op Ho) as (rc & sc & e & E & _ & Hsc & Hrc).
  rewrite Hrc in E by apply Hop. eexists. split; [exact E|]. split_and!; [done..|].
  destruct Hop as (? & ? & ?). split_and!; [done|done|]. simpl. by eapply calm_suffix.
Qed.

Lemma unlocking_close n w F s a (K : Z -> prog answer) :
  has_open n F s -> locks s = {[ n := w ]} -> K KVTREE_SUCCESS = Done a ->
  unlocking (pbind (kvtree_close_with_unlock file (Z.of_nat n)) K) s F a.
Proof.
  intros Hop Hl HK. unfold kvtree_close_with_unlock.
  destruct (unlock_shape (Z.of_nat n)) as (k & -> & Hk). split; [done|]. intros D HD.
  destruct (lock_call_calm None _ _ _ _ Hop HD) as (s' & E & Hf & Hl' & _ & Hop').
  rewrite Hl, delete_singleton_eq in Hl'. exists 0, s'. split_and!; [done..|].
  cbn [pbind]. rewrite Hk. cbn [pbind Z.eqb KVTREE_SUCCESS negb]. by apply post_close.
Qed.

(** Before the lock: with [w] as the kind of lock, what follows the open is [inside]. *)
Definition goes_inside (r : request) (F : gmap nat desc) (K : Z -> prog answer) : Prop :=
  forall n s D c h,
    has_open n F s -> fds s !! n = Some (Desc file 0) -> locks s = {[ n := writes r ]} ->
    files s = D -> D !! file = Some c -> represents (Some c) h -> good h ->
    good (atomic r h).2 ->
    inside (writes r) (atomic r h).2 F (atomic r h).1 (K (Z.of_nat n)) s D.

(** A process that has done nothing yet. *)
Definition fresh (s : os) : Prop := os_ok s /\ calm (script s) /\ locks s = ∅.

Lemma pre_lock r K n F s :
  goes_inside r F K -> has_open n F s -> fds s !! n = Some (Desc file 0) -> locks s = ∅ ->
  pre true r F (pbind (pbind (kvtree_file_lock_read_write file (Z.of_nat n) (writes r))
    (fun ret => if negb (ret =? KVTREE_SUCCESS)
                then pbind (call (sys_close (Z.of_nat n))) (fun _ => Done ret)
                else Done (Z.of_nat n))) K) s.
Proof.
  intros HK Hop Hd Hl. destruct (lock_shape (Z.of_nat n) (writes r)) as (k & -> & Hk).
  cbn [pbind pre]. rewrite Nat2Z.id. split_and!; [done|done|unfold on_file; by rewrite Hd|].
  intros D c h HD Hr Hg Hg'.
  destruct (lock_call_calm (Some (writes r)) _ _ _ D Hop) as (s' & E & Hf & Hl' & Hfd & Hop');
    [done|].
  rewrite Hl, insert_empty in Hl'. exists 0, s'. split_and!; [done..| |].
  - unfold on_file. by rewrite Hfd, Hd.
  - rewrite Hk. cbn. eapply HK; [done|by rewrite Hfd|done..].
Qed.

Lemma pre_open_with_lock r K F s mode :
  goes_inside r F K -> fresh s -> fds s = F ->
  pre false r F (pbind (kvtree_open_with_lock file (Z.lor O_RDWR O_CREAT) mode (writes r)) K) s.
Proof.
  intros HK ([Hmask Hnext] & Hc & Hl) HF. unfold kvtree_open_with_lock, kvtree_open.
  cbn [pbind call local pre]. intros D _. exists mode, (set_files D s), false.
  split_and!; [done|done|by left|done|].
  intros D' _. rewrite sys_open_eq.
  assert (can_open file (Z.lor O_RDWR O_CREAT) (set_files D' (set_files D s)) = true) as ->
    by (unfold can_open; by destruct (files _ !! file)).
  set (s1 := open_state _ _ _ _).
  assert (match reply_of (set_files D' (set_files D s)) with
          | Fails _ => (-1, after (set_files D' (set_files D s)))
          | _ => (Z.of_nat (next_fd (set_files D' (set_files D s))), s1)
          end = (Z.of_nat (next_fd s), s1)) as ->.
  { destruct (reply_of _) as [| |e] eqn:Hr; [done|done|]. by destruct (calm_reply s e Hc). }
  exists (Z.of_nat (next_fd s)), s1, true. split_and!; [done|done|..].
  - unfold s1, open_state. simpl. destruct (D' !! file) eqn:E; [by left|by right].
  - intros _. unfold s1, open_state. simpl.
    destruct (D' !! file) eqn:E; [by rewrite E|by rewrite lookup_insert_eq].
  - rewrite (proj2 (Z.ltb_ge (Z.of_nat (next_fd s)) 0)) by lia. cbn [pbind].
    rewrite (proj2 (Z.ltb_ge (Z.of_nat (next_fd s)) 0)) by lia.
    apply pre_lock; [done| |apply lookup_insert_eq|done].
    split_and!; [exists 0%nat; simpl; by rewrite HF|subst F; by apply Hnext|].
    simpl. eauto with kvtree.
Qed.

Lemma pre_open r K F s :
  goes_inside r F K -> fresh s -> fds s = F ->
  pre false r F (pbind (kvtree_getmode true true false) (fun mode =>
    pbind (kvtree_open_with_lock file (Z.lor O_RDWR O_CREAT) mode (writes r)) K)) s.
Proof.
  intros HK ([Hmask Hnext] & Hc & Hl) HF. cbn [pbind call kvtree_getmode pre].
  intros D _. eexists _, _, false. split_and!; [reflexivity|done|by left|done|].
  intros D' _. eexists _, _, false. split_and!; [reflexivity|done|by left|done|].
  apply pre_open_with_lock; [done| |done]. split_and!; [|done|done].
  split; [|done]. simpl. change 511 with (Z.ones 9). rewrite Z.land_ones by lia.
  apply Z.mod_pos_bound. lia.
Qed.

(** Inside the lock: what reading and overwriting the file do. *)
Lemma read_fd_inside n F s D c h :
  has_open n F s -> D !! file = Some c -> fds s !! n = Some (Desc file 0) ->
  represents (Some c) h -> good h ->
  exists r s1,
    run (kvtree_read_fd (Some file) (Z.of_nat n) (Some kvtree_new)) (set_files D s)
      = Ok ((r, Some h), s1) /\
    i32 r <> -1 /\ has_open n F s1 /\ files s1 = D /\ locks s1 = locks s.
Proof.
  intros Hop HD Hd Hr Hg. rewrite run_read_fd. destruct Hop as ([p Hp] & HF & Hc).
  assert (opened (set_files D s) n (Desc file 0) c) as Ho by done.
  destruct (read_fd_calm file n _ c kvtree_new _ Ho Hc) as (q & sc & e & E & Hsc).
  destruct (represents_parse _ _ Hr Hg) as (r & Er & Hi).
  cbn [d_pos] in E. rewrite drop_0, Er in E. cbn [obind] in E.
  exists r. eexists. split; [exact E|]. split_and!; [done| |done|done].
  split_and!; [|done|done]. exists q. simpl. by rewrite Hp, insert_insert_eq.
Qed.

Lemma moved_has_open n F s q fl sc e :
  has_open n F s -> calm sc -> has_open n F (moved s n (Desc file q) fl sc e).
Proof.
  intros ([p Hp] & HF & _) Hsc. split_and!; [|done|done]. exists q. simpl.
  by rewrite Hp, insert_insert_eq.
Qed.

Lemma read_goes_inside F :
  goes_inside Read F (fun fd =>
    if 0 <=? fd then
      step* (nread, hash) := kvtree_read_fd (Some file) fd (Some kvtree_new) in
      if i32 nread =? -1 then
        step* _ := kvtree_close_with_unlock file fd in Done (KVTREE_FAILURE, hash)
      else
        step* rc := kvtree_close_with_unlock file fd in
        if negb (rc =? 0) then Done (KVTREE_FAILURE, hash) else Done (KVTREE_SUCCESS, hash)
    else Done (KVTREE_FAILURE, Some kvtree_new)).
Proof.
  intros n s D c h Hop Hd Hl Hf HD Hr Hg _. rewrite (proj2 (Z.leb_le _ _)) by lia.
  destruct (read_fd_inside _ _ _ _ _ _ Hop HD Hd Hr Hg) as (r & s1 & E & Hi & Hop1 & Hf1 & Hl1).
  eapply inside_bind; [apply plain_read_fd|by eexists|exact E|].
  cbv beta iota. rewrite (proj2 (Z.eqb_neq _ _)) by done. apply inside_unlock; [|done].
  eapply unlocking_close; [done|by rewrite Hl1|done].
Qed.

Lemma write_goes_inside t F (K : Z -> prog answer) :
  K KVTREE_SUCCESS = Done (KVTREE_SUCCESS, None) ->
  goes_inside (Write t) F (fun fd =>
    pbind (if 0 <=? fd then
             step* _ := kvtree_write_fd (Some file) fd (Some t) in
             step* _ := kvtree_close_with_unlock file fd in
             Done KVTREE_SUCCESS
           else Done KVTREE_FAILURE) K).
Proof.
  intros HK n s D c h Hop Hd Hl Hf HD Hr _ (_ & _ & [_ Hm] & _).
  rewrite (proj2 (Z.leb_le _ _)) by lia. rewrite !pbind_assoc.
  assert (opened (set_files D s) n (Desc file 0) c) as Ho by done.
  destruct (write_fd_calm file n _ c t _ Ho ltac:(apply Hop) Hm) as (sc & e & E & Hsc).
  eapply inside_bind; [apply plain_write_fd|by eexists|rewrite run_write_fd; exact E|].
  apply inside_unlock.
  - eapply unlocking_close; [by apply moved_has_open|done|]. cbn [pbind]. by rewrite HK.
  - intros _. cbn [files moved d_file d_pos]. rewrite lookup_insert_eq, splice_0 by apply persisted_not_nil. right. by eexists.
Qed.

#[local] Hint Rewrite @run_write_fd : runs.

Lemma update_goes_inside f F :
  goes_inside (Update f) F (fun fd =>
    step* (rc, fd, hash) :=
      (if 0 <=? fd then
         step* (_, hash) := kvtree_read_fd (Some file) fd (Some kvtree_new) in
         Done (KVTREE_SUCCESS, Some fd, hash)
       else Done (KVTREE_FAILURE, Some fd, Some kvtree_new)) in
    if negb (rc =? KVTREE_SUCCESS) then Done (rc, hash)
    else
      step* (rc, _) := kvtree_write_close_unlock (Some file) fd (f <$> hash) in
      Done (rc, hash)).
Proof.
  intros n s D c h Hop Hd Hl Hf HD Hr Hg (_ & _ & [_ Hm] & _). rewrite (proj2 (Z.leb_le _ _)) by lia.
  rewrite pbind_assoc.
  destruct (read_fd_inside _ _ _ _ _ _ Hop HD Hd Hr Hg) as (r & s1 & E & _ & Hop1 & Hf1 & Hl1).
  eapply inside_bind; [apply plain_read_fd|by eexists|exact E|].
  cbn [pbind Z.eqb KVTREE_SUCCESS negb fmap option_fmap option_map].
  unfold kvtree_write_close_unlock. rewrite (proj2 (Z.ltb_ge _ _)) by lia.
  assert (is_Some (files s1 !! file)) as HD1 by (rewrite Hf1; by eexists).
  destruct HD1 as [c1 HD1]. destruct (has_open_opened _ _ _ _ _ Hop1 HD1) as [p Ho1].
  rewrite set_files_id in Ho1.
  destruct (overwrite_calm file n p c1 (f h) s1 (io_ret tt) Ho1 ltac:(apply Hop1) Hm)
    as (q & sc & e & E2 & Hsc).
  set (w := step* _ := call (sys_lseek (Z.of_nat n) 0) in
            step* nwrite := kvtree_write_fd (Some file) (Z.of_nat n) (Some (f h)) in
            step* _ := (if 0 <=? nwrite then call (sys_ftruncate (Z.of_nat n) (Z.to_nat nwrite))
                        else Done 0) in
            Done tt).
  match goal with |- inside _ _ _ _ ?p _ _ =>
    assert (p = pbind w (fun _ => step* _ := kvtree_close_with_unlock file (Z.of_nat n) in
                                  Done (KVTREE_SUCCESS, Some h))) as ->
  end.
  { unfold w. rewrite ?pbind_assoc. do 4 (f_equal; apply functional_extensionality; intros ?;
      rewrite ?pbind_assoc; try reflexivity). }
  eapply inside_bind; [| |rewrite set_files_id|].
  - unfold w. plain.
  - by eexists.
  - etransitivity; [|exact E2]. apply (f_equal (fun m => m s1)). unfold w. hom.
  - apply inside_unlock.
    + eapply unlocking_close; [by apply moved_has_open|simpl; by rewrite Hl1|done].
    + intros _. cbn [files moved]. rewrite lookup_insert_eq. right. exists []. by rewrite app_nil_r.
Qed.

Lemma read_write_with_lock_bind {A} t w (K : Z -> prog A) :
  pbind (kvtree_read_write_with_lock (Some file) (Some t) w) K
  = pbind (kvtree_getmode true true false) (fun mode =>
      pbind (kvtree_open_with_lock file (Z.lor O_RDWR O_CREAT) mode w) K).
Proof.
  unfold kvtree_read_write_with_lock. rewrite pbind_assoc. f_equal.
  apply functional_extensionality. intros mode. by rewrite pbind_assoc.
Qed.

(** Every call starts in the first phase and from there can only reach the next. *)
Lemma pre_serve r s :
  fresh s -> pre false r (fds s) (serve file r) s.
Proof.
  intros Hs. destruct r as [|t|f]; cbn [serve].
  - unfold kvtree_read_with_lock. rewrite read_write_with_lock_bind.
    apply (pre_open Read); [apply read_goes_inside|done|done].
  - unfold kvtree_write_with_lock. rewrite pbind_assoc, read_write_with_lock_bind.
    apply (pre_open (Write t)); [by apply write_goes_inside|done|done].
  - unfold kvtree_lock_open_read. rewrite pbind_assoc.
    eapply (eq_ind_r (fun p => pre _ _ _ p s));
      [apply (pre_open (Update f)); [apply update_goes_inside|done|done]|].
    f_equal. apply functional_extensionality. intros mode. apply pbind_assoc.
Qed.

End phases.
End spec.
