(* ===== verification/LockedAtomic.v ===== *)
(** The locked file behaves as one hash that all processes share: the invariant of
    all interleavings, and the theorems on them. *)

From stdpp Require Import relations.
From S2P Require Import Prelude CLib ByteOrder Kvtree KvtreeSpec Pack Io Persist LockFile Locked LockedSpec.

Section atomic.
Context `{Host} `{Zlib} `{LockConfig} (file : cstring).

(** Every process is about to make its call. *)
Definition start (reqs : list request) (inits : list os) (D : gmap cstring (list byte))
    : sys answer :=
  Sys D (zip_with (fun r s => (serve file r, s)) reqs inits).

(** ** What is left of a program

    Every call leaves a smaller program. *)
Inductive rest {A} : prog A -> prog A -> Prop :=
| rest_call {B} lock (m : io B) (k : B -> prog A) b : rest (Call lock m k) (k b).

Lemma rest_sn {A} (p : prog A) : sn rest p.
Proof.
  induction p as [a|B lock m k IH]; constructor; intros p' Hp; [inversion Hp|].
  refine (match Hp in rest q p'' return
            match q with Call _ _ k => (forall b, sn rest (k b)) -> sn rest p'' | _ => True end
          with rest_call _ _ k b => fun Hk => Hk b end IH).
Qed.

Lemma rest_acyclic {A} (p : prog A) : ~ tc rest p p.
Proof.
  induction (rest_sn p) as [p _ IH]. intros Hp.
  inversion Hp as [? ? Hr|? p1 ? Hr Hp1]; subst; [by apply (IH p)|].
  apply (IH p1); [done|]. eapply tc_trans; [done|by apply tc_once].
Qed.

(** ** The invariant *)
Definition thread_ok (D : gmap cstring (list byte)) (h : kvtree) (r : request)
    (F : gmap nat desc) (p : prog answer) (s : os) (oa : option answer) : Prop :=
  match oa with
  | None => locks s = ∅ /\ exists o, (o = true -> is_Some (D !! file)) /\ pre file o r F p s
  | Some a =>
      is_Some (D !! file) /\
      (locks s = ∅ /\ post file p s F a \/
       exists n w, locks s = {[ n := w ]} /\ on_file s n = Some file /\ inside file w h F a p s D)
  end.

(** The process has its result. *)
Definition is_done (p : prog answer) : bool := match p with Done _ => true | _ => false end.

Definition holds (c : sys answer) (i : nat) (w : bool) : Prop :=
  exists p s n, threads c !! i = Some (p, s) /\ locks s !! n = Some w.

Record inv (reqs : list request) (inits : list os) (x0 : shared) (c : sys answer) (x : shared)
    : Prop := {
  inv_reach : rtc (astep reqs) x0 x;
  inv_length : length x.2 = length (threads c);
  inv_thread i p s : threads c !! i = Some (p, s) ->
    exists r s0 oa, reqs !! i = Some r /\ inits !! i = Some s0 /\ x.2 !! i = Some oa /\
      thread_ok (disk c) x.1 r (fds s0) p s oa /\ rtc rest (serve file r) p /\
      (oa = None \/ tc rest (serve file r) p);
  inv_exclusive i j w w' : i <> j -> holds c i w -> holds c j w' -> w = false /\ w' = false;
  inv_file : (forall i, ~ holds c i true) -> represents (disk c !! file) x.1
}.

Lemma inside_reader h h' F a p s D :
  inside file false h F a p s D -> inside file false h' F a p s D.
Proof.
  induction 1; [eapply inside_call; eauto|by apply inside_unlock].
Qed.

Lemma thread_frame D D' h h' r F p s oa :
  thread_ok D h r F p s oa -> (is_Some (D !! file) -> is_Some (D' !! file)) ->
  (forall n w, locks s !! n = Some w -> D' = D /\ (h' = h \/ w = false)) ->
  thread_ok D' h' r F p s oa.
Proof.
  intros Hok HD Hh. destruct oa as [a|].
  - destruct Hok as [Hs [Hp|(n & w & Hl & Hf & Hi)]]; (split; [auto|]); [by left|right].
    exists n, w. split_and!; [done..|].
    destruct (Hh n w) as [-> Hh']; [rewrite Hl; apply lookup_singleton_eq|].
    destruct Hh' as [->| ->]; [done|by eapply inside_reader].
  - destruct Hok as (Hl & o & Ho & Hp). split; [done|]. exists o. auto.
Qed.

Lemma holds_insert c i p s D' p' s' j w :
  threads c !! i = Some (p, s) ->
  holds (Sys D' (<[i := (p', s')]> (threads c))) j w <->
  (if decide (j = i) then exists n, locks s' !! n = Some w else holds c j w).
Proof.
  intros Hi. unfold holds. simpl. destruct (decide (j = i)) as [->|Hne].
  - rewrite list_lookup_insert_eq by (by eapply lookup_lt_Some). split.
    + intros (? & ? & n & [= <- <-] & Hn). by exists n.
    + intros [n Hn]. by exists p', s', n.
  - by rewrite list_lookup_insert_ne by done.
Qed.

(** A step of process [i], from what it means for that process. *)
Lemma inv_update reqs inits x0 c h ans i p s r s0 D' p' s' h' oa' :
  inv reqs inits x0 c (h, ans) ->
  threads c !! i = Some (p, s) -> reqs !! i = Some r -> inits !! i = Some s0 -> rest p p' ->
  rtc (astep reqs) x0 (h', <[i := oa']> ans) ->
  thread_ok D' h' r (fds s0) p' s' oa' ->
  (is_Some (disk c !! file) -> is_Some (D' !! file)) ->
  (forall j w, j <> i -> holds c j w -> D' = disk c /\ (h' = h \/ w = false)) ->
  (forall n j w w', locks s' !! n = Some w -> j <> i -> holds c j w' -> w = false /\ w' = false) ->
  ((forall j, ~ holds (Sys D' (<[i := (p', s')]> (threads c))) j true) ->
     represents (D' !! file) h') ->
  inv reqs inits x0 (Sys D' (<[i := (p', s')]> (threads c))) (h', <[i := oa']> ans).
Proof.
  intros Hinv Hi Hr Hs0 Hrest Hreach Hok HD Hothers Hexcl Hfile. split; simpl; [done| | |..|done].
  - rewrite !length_insert. apply Hinv.
  - intros j pj sj. destruct (decide (j = i)) as [->|Hne].
    + rewrite list_lookup_insert_eq by (by eapply lookup_lt_Some). intros [= <- <-].
      destruct (inv_thread _ _ _ _ _ Hinv i _ _ Hi) as (r' & ? & ? & Hr' & _ & _ & _ & Hpath & _).
      rewrite Hr in Hr'. injection Hr' as <-.
      assert (tc rest (serve file r) p') by (eapply tc_rtc_l; [exact Hpath|by apply tc_once]).
      exists r, s0, oa'. split_and!; [done|done| |done|by apply tc_rtc|by right].
      apply list_lookup_insert_eq.
      pose proof (inv_length _ _ _ _ _ Hinv) as Hlen. simpl in Hlen. rewrite Hlen.
      by eapply lookup_lt_Some.
    + rewrite list_lookup_insert_ne by done. intros Hj.
      destruct (inv_thread _ _ _ _ _ Hinv j _ _ Hj) as (rj & s0j & oa & H1j & H2j & H3j & Hokj & ?).
      exists rj, s0j, oa. rewrite list_lookup_insert_ne by done. split_and!; [done..| |naive_solver|naive_solver].
      eapply thread_frame; [exact Hokj|done|]. intros n w Hn. eapply (Hothers j w); [done|].
      by exists pj, sj, n.
  - intros j k w w' Hne. rewrite !(holds_insert _ _ _ _ _ _ _ _ _ Hi).
    destruct (decide (j = i)) as [->|Hj], (decide (k = i)) as [->|Hk]; [done|..].
    + intros [n Hn] Hk'. by eapply Hexcl.
    + intros Hj' [n Hn]. apply and_comm. by eapply Hexcl.
    + by eapply inv_exclusive.
Qed.

Lemma inside_inv w h F a p s D :
  inside file w h F a p s D ->
  unlocking file p s F a /\ (w = true -> represents (D !! file) h) \/
  match p with
  | Done _ => False
  | Call lock m k =>
      lock = None /\ exists b s', m (set_files D s) = Ok (b, s') /\ locks s' = locks s /\
        (forall n, on_file s' n = on_file s n) /\ (w = false -> files s' = D) /\
        is_Some (files s' !! file) /\ inside file w h F a (k b) s' (files s')
  end.
Proof. destruct 1; [right|by left]. split; [done|]. by exists b, s'. Qed.

Lemma unlocking_post p s F a : unlocking file p s F a -> post file p s F a.
Proof. by destruct p. Qed.

Lemma step_at_inv i (c c' : sys answer) :
  step_at i c = Some c' ->
  exists (B : Type) lock (m : io B) k s b s',
    threads c !! i = Some (Call lock m k, s) /\ enabled (threads c) i s lock = true /\
    m (set_files (disk c) s) = Ok (b, s') /\
    c' = Sys (files s') (<[i := (k b, s')]> (threads c)).
Proof.
  unfold step_at. destruct (threads c !! i) as [[[a|B lock m k] s]|]; [done| |done].
  destruct (enabled _ _ _ _) eqn:He; [|done].
  destruct (m (set_files (disk c) s)) as [[b s']| | |] eqn:E; [|done..].
  intros [= <-]. by exists B, lock, m, k, s, b, s'.
Qed.

(** A lock that is granted to write is the only one; one granted to read leaves no
    writer. *)
Lemma granted_holds reqs inits x0 c x i w j w' :
  inv reqs inits x0 c x -> granted (threads c) i file w = true -> j <> i -> holds c j w' ->
  w = false /\ w' = false.
Proof.
  intros Hinv Hg Hne (p & s & n & Hj & Hn).
  destruct (inv_thread _ _ _ _ _ Hinv j p s Hj) as (r & s0 & oa & _ & _ & _ & Hok & _).
  assert (exists m v, locks s = {[ m := v ]} /\ on_file s m = Some file) as (m & v & Hl & Hf).
  { destruct oa as [a|]; [|destruct Hok as [Hl _]; by rewrite Hl in Hn].
    destruct Hok as [_ [[Hl _]|(m & v & Hl & Hf & _)]]; [by rewrite Hl in Hn|by exists m, v]. }
  rewrite Hl in Hn. apply lookup_singleton_Some in Hn as [<- <-].
  unfold granted in Hg. rewrite forallb_forall in Hg.
  specialize (Hg (j, (p, s))). cbn beta iota in Hg.
  rewrite (proj2 (Nat.eqb_neq _ _)) in Hg by done. unfold excludes in Hg.
  rewrite Hl, map_to_list_singleton in Hg. simpl in Hg.
  rewrite bool_decide_true in Hg by exact Hf.
  destruct w, v; simpl in Hg; (done || (enough (false = true) by done; apply Hg)).
  all: apply list_elem_of_In, list_elem_of_lookup; exists j;
    rewrite list_lookup_imap, Hj; done.
Qed.

(** ** One step *)
Section step.
Context (reqs : list request) (inits : list os) (x0 : shared).

(** The hash is always one that the file can hold. *)
Hypothesis always_good : forall x, rtc (astep reqs) x0 x -> good x.1.

Definition goes (c' : sys answer) (x : shared) : Prop :=
  exists x', rtc (astep reqs) x x' /\ inv reqs inits x0 c' x'.

Lemma goes_same c' x i oa :
  x.2 !! i = Some oa -> inv reqs inits x0 c' (x.1, <[i := oa]> x.2) -> goes c' x.
Proof.
  intros Ha Hinv. exists x. split; [done|]. destruct x as [h ans]. simpl in *.
  by rewrite list_insert_id in Hinv.
Qed.

Lemma not_holding_update c i p s D' p' s' :
  threads c !! i = Some (p, s) -> (forall n, locks s !! n <> Some true) ->
  (forall j, ~ holds (Sys D' (<[i := (p', s')]> (threads c))) j true) ->
  forall j, ~ holds c j true.
Proof.
  intros Hi Hs Hno j Hj. destruct (decide (j = i)) as [->|Hne].
  - destruct Hj as (? & ? & n & Hi' & Hn). rewrite Hi in Hi'. injection Hi' as <- <-. by apply (Hs n).
  - apply (Hno j). rewrite (holds_insert _ _ _ _ _ _ _ _ _ Hi). by rewrite decide_False.
Qed.

Lemma step_before {B} c x i (m : io B) k s b s' r s0 :
  inv reqs inits x0 c x -> threads c !! i = Some (Call None m k, s) ->
  reqs !! i = Some r -> inits !! i = Some s0 -> x.2 !! i = Some None ->
  thread_ok (disk c) x.1 r (fds s0) (Call None m k) s None ->
  m (set_files (disk c) s) = Ok (b, s') ->
  goes (Sys (files s') (<[i := (k b, s')]> (threads c))) x.
Proof.
  intros Hinv Hi Hr Hs0 Ha (Hl & o & Ho & Hp) E. destruct x as [h ans].
  destruct (Hp _ Ho) as (b' & s1 & o' & E' & Hl' & Hd & Ho' & Hp').
  rewrite E in E'. injection E' as <- <-.
  apply (goes_same _ _ i None); [done|]. eapply inv_update; try done; try apply rest_call.
  - rewrite list_insert_id by done. apply Hinv.
  - split; [done|]. by exists o'.
  - destruct Hd as [->|[_ ->]]; [done|]. rewrite lookup_insert_eq. by eexists.
  - intros j w Hne (p & sj & n & Hj & Hn). split; [|by left].
    destruct Hd as [->|[Hnone _]]; [done|]. exfalso.
    destruct (inv_thread _ _ _ _ _ Hinv j _ _ Hj) as (? & ? & [a|] & _ & _ & _ & Hok & _).
    + destruct Hok as [[? Hs] _]. congruence.
    + destruct Hok as [Hlj _]. by rewrite Hlj in Hn.
  - intros n j w w' Hn. by rewrite Hl' in Hn.
  - intros Hno. assert (represents (disk c !! file) h) as Hrep.
    { apply (inv_file _ _ _ _ _ Hinv). eapply not_holding_update; [done| |exact Hno].
      intros n. by rewrite Hl. }
    destruct Hd as [->|[Hnone ->]]; [done|]. rewrite Hnone in Hrep. rewrite lookup_insert_eq.
    destruct Hrep as [[_ ->]|[? ?]]; [by left|done].
Qed.

(** Taking the lock is the moment at which the call happens on the shared hash. *)
Lemma step_lock {B} c x i fd w (m : io B) k s b s' r s0 :
  inv reqs inits x0 c x -> threads c !! i = Some (Call (Some (fd, w)) m k, s) ->
  enabled (threads c) i s (Some (fd, w)) = true ->
  reqs !! i = Some r -> inits !! i = Some s0 -> x.2 !! i = Some None ->
  thread_ok (disk c) x.1 r (fds s0) (Call (Some (fd, w)) m k) s None ->
  m (set_files (disk c) s) = Ok (b, s') ->
  goes (Sys (files s') (<[i := (k b, s')]> (threads c))) x.
Proof.
  intros Hinv Hi Hen Hr Hs0 Ha (Hl & o & Ho & (-> & -> & Hf & Hp)) E.
  destruct x as [h ans]. destruct (Ho eq_refl) as [c0 HD].
  assert (forall j w', j <> i -> holds c j w' -> writes r = false /\ w' = false) as Hexcl.
  { intros j w' Hne Hj. eapply granted_holds; [done| |done|done]. simpl in Hen. unfold on_file in Hf.
    destruct (fds s !! Z.to_nat fd) as [d|]; [|done]. simpl in Hf. by injection Hf as <-. }
  pose proof (always_good _ (inv_reach _ _ _ _ _ Hinv)) as Hg. simpl in Hg.
  assert (represents (Some c0) h) as Hrep.
  { rewrite <- HD. apply (inv_file _ _ _ _ _ Hinv). intros j Hj. destruct (decide (j = i)) as [->|Hne].
    - destruct Hj as (? & ? & n & Hi' & Hn). rewrite Hi in Hi'. injection Hi' as <- <-.
      by rewrite Hl in Hn.
    - by destruct (Hexcl j true Hne Hj). }
  assert (astep reqs (h, ans) ((atomic r h).2, <[i := Some (atomic r h).1]> ans)) as Hat
    by (by apply atomically).
  assert (rtc (astep reqs) x0 ((atomic r h).2, <[i := Some (atomic r h).1]> ans)) as Hreach
    by (eapply rtc_r; [apply (inv_reach _ _ _ _ _ Hinv)|done]).
  destruct (Hp _ _ _ HD Hrep Hg (always_good _ Hreach)) as (b' & s1 & E' & Hd & Hl' & Hf' & Hin).
  rewrite E in E'. injection E' as <- <-.
  eexists. split; [by apply rtc_once|].
  rewrite Hd. eapply inv_update; try done; try apply rest_call.
  - split; [by eexists|]. right. by exists (Z.to_nat fd), (writes r).
  - intros j w' Hne Hj. split; [done|]. right. by apply (Hexcl j).
  - intros n j w w' Hn Hne Hj. rewrite Hl' in Hn. apply lookup_singleton_Some in Hn as [_ <-].
    by eapply Hexcl.
  - intros Hno. rewrite HD. destruct r; [done|..]; exfalso; apply (Hno i);
      rewrite (holds_insert _ _ _ _ _ _ _ _ _ Hi), decide_True by done;
      exists (Z.to_nat fd); rewrite Hl'; apply lookup_singleton_eq.
Qed.

(** What a process that was answered does next, inside the lock or after it. *)
Lemma step_after {B} c x i lock (m : io B) k s b s' r s0 a :
  inv reqs inits x0 c x -> threads c !! i = Some (Call lock m k, s) ->
  reqs !! i = Some r -> inits !! i = Some s0 -> x.2 !! i = Some (Some a) ->
  is_Some (disk c !! file) -> post file (Call lock m k) s (fds s0) a ->
  (forall n, locks s !! n <> Some true) \/ represents (disk c !! file) x.1 ->
  m (set_files (disk c) s) = Ok (b, s') ->
  goes (Sys (files s') (<[i := (k b, s')]> (threads c))) x.
Proof.
  intros Hinv Hi Hr Hs0 Ha HD [-> Hp] Hrep E. destruct x as [h ans].
  destruct (Hp _ HD) as (b' & s1 & E' & Hd & Hl' & Hp'). rewrite E in E'. injection E' as <- <-.
  apply (goes_same _ _ i (Some a)); [done|]. rewrite Hd. eapply inv_update; try done; try apply rest_call.
  - rewrite list_insert_id by done. apply Hinv.
  - split; [done|]. by left.
  - intros j w _ _. split; [done|by left].
  - intros n j w w' Hn. by rewrite Hl' in Hn.
  - intros Hno. destruct Hrep as [Hs|]; [|done]. apply (inv_file _ _ _ _ _ Hinv).
    by eapply not_holding_update.
Qed.

Lemma step_inside {B} c x i lock (m : io B) k s b s' r s0 a n w :
  inv reqs inits x0 c x -> threads c !! i = Some (Call lock m k, s) ->
  reqs !! i = Some r -> inits !! i = Some s0 -> x.2 !! i = Some (Some a) ->
  is_Some (disk c !! file) -> locks s = {[ n := w ]} -> on_file s n = Some file ->
  inside file w x.1 (fds s0) a (Call lock m k) s (disk c) ->
  m (set_files (disk c) s) = Ok (b, s') ->
  goes (Sys (files s') (<[i := (k b, s')]> (threads c))) x.
Proof.
  intros Hinv Hi Hr Hs0 Ha HD Hl Hf [[Hu Hrep]|(-> & b' & s1 & E' & Hl' & Hf' & Hw & Hd & Hin)]%inside_inv E.
  - eapply step_after; [done..|by apply unlocking_post| |done].
    destruct w; [right; by apply Hrep|left]. intros m' Hm. rewrite Hl in Hm.
    by apply lookup_singleton_Some in Hm as [_ ?].
  - rewrite E in E'. injection E' as <- <-. destruct x as [h ans].
    apply (goes_same _ _ i (Some a)); [done|].
    assert (forall j w', j <> i -> holds c j w' -> w = false /\ w' = false) as Hexcl.
    { intros j w' Hne Hj. eapply (inv_exclusive _ _ _ _ _ Hinv i j); [done| |done].
      exists (Call None m k), s, n. split; [done|]. rewrite Hl. apply lookup_singleton_eq. }
    eapply inv_update; try done; try apply rest_call.
    + rewrite list_insert_id by done. apply Hinv.
    + split; [done|]. right. exists n, w. rewrite Hl', Hf'. by split_and!.
    + intros j w' Hne Hj. destruct (Hexcl _ _ Hne Hj) as [-> _]. split; [by apply Hw|by left].
    + intros n' j v w' Hn Hne Hj. rewrite Hl', Hl in Hn. apply lookup_singleton_Some in Hn as [_ <-].
      by eapply Hexcl.
    + intros Hno. destruct w.
      * exfalso. apply (Hno i). rewrite (holds_insert _ _ _ _ _ _ _ _ _ Hi), decide_True by done.
        exists n. rewrite Hl', Hl. apply lookup_singleton_eq.
      * rewrite Hw by done. apply (inv_file _ _ _ _ _ Hinv). eapply not_holding_update; [done| |exact Hno].
        intros m' Hm. rewrite Hl in Hm. by apply lookup_singleton_Some in Hm as [_ ?].
Qed.

Lemma inv_step c c' x : inv reqs inits x0 c x -> tstep c c' -> goes c' x.
Proof.
  intros Hinv [i Hstep].
  destruct (step_at_inv _ _ _ Hstep) as (B & lock & m & k & s & b & s' & Hi & Hen & E & ->).
  destruct (inv_thread _ _ _ _ _ Hinv i _ _ Hi) as (r & s0 & oa & Hr & Hs0 & Ha & Hok & _).
  destruct oa as [a|].
  - destruct Hok as [HD [[Hl Hp]|(n & w & Hl & Hf & Hin)]].
    + eapply step_after; [done..| |done]. left. intros n. by rewrite Hl.
    + by eapply step_inside.
  - destruct lock as [[fd w]|]; [by eapply step_lock|by eapply step_before].
Qed.

Lemma inv_steps c c' x : rtc tstep c c' -> inv reqs inits x0 c x -> goes c' x.
Proof.
  intros Hsteps. revert x. induction Hsteps as [c|c c1 c' Hs _ IH]; intros x Hinv.
  - by exists x.
  - destruct (inv_step _ _ _ Hinv Hs) as (x1 & Hx & Hinv1).
    destruct (IH x1 Hinv1) as (x2 & Hx2 & Hinv2). exists x2. split; [by etrans|done].
Qed.

(** ** No process waits for ever *)
Lemma step_at_ok {B} i (c : sys answer) lock (m : io B) k s b s' :
  threads c !! i = Some (Call lock m k, s) -> enabled (threads c) i s lock = true ->
  m (set_files (disk c) s) = Ok (b, s') -> exists c', tstep c c'.
Proof.
  intros Hi He E. eexists. exists i. unfold step_at. by rewrite Hi, He, E.
Qed.

Lemma granted_free (c : sys answer) i w :
  (forall j p s, threads c !! j = Some (p, s) -> locks s = ∅) -> granted (threads c) i file w = true.
Proof.
  intros Hfree. apply forallb_forall. intros [j [p s]] Hin.
  apply list_elem_of_In, list_elem_of_lookup in Hin as [k Hk].
  rewrite list_lookup_imap in Hk. destruct (threads c !! k) as [[p' s']|] eqn:Ek; [|done].
  simpl in Hk. injection Hk as <- <- <-. unfold excludes.
  rewrite (Hfree _ _ _ Ek), map_to_list_empty. by rewrite orb_true_r.
Qed.

Lemma step_waiting c x i p s :
  inv reqs inits x0 c x -> threads c !! i = Some (p, s) ->
  (forall a, p <> Done a) ->
  locks s <> ∅ \/ (forall j p s, threads c !! j = Some (p, s) -> locks s = ∅) ->
  exists c', tstep c c'.
Proof.
  intros Hinv Hi Hp Hfree. destruct (inv_thread _ _ _ _ _ Hinv i _ _ Hi) as (r & s0 & oa & Hr & _ & Ha & Hok & _).
  destruct p as [a|B lock m k]; [by destruct (Hp a)|].
  destruct oa as [a|].
  - destruct Hok as [HD [[Hl Hpost]|(n & w & Hl & Hf & Hin)]];
      [|apply inside_inv in Hin as [[Hu _]|(-> & b & s' & E & _)]].
    + destruct Hpost as [-> Hpost]. destruct (Hpost _ HD) as (b & s' & E & _). by eapply step_at_ok.
    + destruct Hu as [-> Hpost]. destruct (Hpost _ HD) as (b & s' & E & _). by eapply step_at_ok.
    + by eapply step_at_ok.
  - destruct Hok as (Hl & o & Ho & Hpre).
    destruct lock as [[fd w]|].
    + destruct Hpre as (-> & _ & Hf & Hpre). destruct Hfree as [|Hfree]; [done|].
      destruct (Ho eq_refl) as [c0 HD].
      assert (represents (Some c0) x.1) as Hrep.
      { rewrite <- HD. apply (inv_file _ _ _ _ _ Hinv). intros j (? & ? & n & Hj & Hn).
        by rewrite (Hfree _ _ _ Hj) in Hn. }
      assert (exists y, astep reqs x y /\ y.1 = (atomic r x.1).2) as (y & Hy & Ey).
      { destruct x as [h ans]. eexists. by split; [by apply atomically|]. }
      destruct (Hpre _ _ _ HD Hrep (always_good _ (inv_reach _ _ _ _ _ Hinv))) as (b & s' & E & _).
      { rewrite <- Ey. apply always_good. eapply rtc_r; [apply Hinv|done]. }
      eapply step_at_ok; [done| |done]. unfold on_file in Hf. simpl.
      destruct (fds s !! Z.to_nat fd) as [d|]; [|done]. simpl in Hf. injection Hf as ->.
      by apply granted_free.
    + destruct (Hpre _ Ho) as (b & s' & o' & E & _). by eapply step_at_ok.
Qed.

(** A process that holds the lock can always go on, and when nobody holds it every process
    can. *)
Lemma progress c x :
  inv reqs inits x0 c x ->
  (forall i p s, threads c !! i = Some (p, s) -> exists a, p = Done a) \/ exists c', tstep c c'.
Proof.
  intros Hinv.
  destruct (decide (Exists (fun ps => locks ps.2 <> ∅) (threads c))) as [He|Hne].
  { right. apply Exists_exists in He as ([p s] & Hin & Hl).
    apply list_elem_of_In, list_elem_of_lookup in Hin as [i Hi]. eapply step_waiting; [done..| |by left].
    intros a ->. destruct (inv_thread _ _ _ _ _ Hinv i _ _ Hi) as (r & s0 & oa & _ & _ & _ & Hok & _).
    destruct oa as [a'|]; [|by destruct Hok as (_ & o & _ & [])].
    destruct Hok as [_ [[? _]|(n & w & _ & _ & Hin)]]; [done|].
    by apply inside_inv in Hin as [[[] _]|[]]. }
  assert (forall j p s, threads c !! j = Some (p, s) -> locks s = ∅) as Hfree.
  { intros j p s Hj. destruct (decide (locks s = ∅)) as [|Hl]; [done|]. exfalso. apply Hne.
    apply Exists_exists. exists (p, s). split; [by eapply list_elem_of_In, list_elem_of_lookup_2|done]. }
  destruct (decide (Exists (fun ps => is_done ps.1 = false) (threads c)))
    as [He|Hd].
  - right. apply Exists_exists in He as ([p s] & Hin & Hp).
    apply list_elem_of_In, list_elem_of_lookup in Hin as [i Hi]. eapply step_waiting; [done..| |by right].
    by intros a ->.
  - left. intros i p s Hi. destruct p as [a|B lock m k]; [by exists a|]. exfalso. apply Hd.
    apply Exists_exists. exists (Call lock m k, s). split; [by eapply list_elem_of_In, list_elem_of_lookup_2|done].
Qed.

End step.

(** ** Every run comes to an end *)

(** One element of a list moves. *)
Inductive one {A} (R : relation A) : relation (list A) :=
| one_at i x y l : l !! i = Some x -> R x y -> one R l (<[i := y]> l).

Lemma one_cons {A} (R : relation A) l : sn (one R) l -> forall x, sn R x -> sn (one R) (x :: l).
Proof.
  induction 1 as [l Hl IHl]. induction 1 as [x Hx IHx]. constructor. intros l' Hs.
  inversion Hs as [i y z ? Hi HR E1 E2]; subst. destruct i as [|i]; simpl in Hi.
  - injection Hi as ->. by apply IHx.
  - simpl. apply IHl; [by econstructor|]. by constructor.
Qed.

Lemma one_sn {A} (R : relation A) l : (forall x, x ∈ l -> sn R x) -> sn (one R) l.
Proof.
  induction l as [|x l IH]; intros Hl.
  - constructor. intros l' Hs. inversion Hs as [i y z ? Hi]; subst. by rewrite lookup_nil in Hi.
  - apply one_cons; [apply IH; intros; apply Hl; by right|apply Hl; by left].
Qed.

Lemma tstep_sn (c : sys answer) : sn tstep c.
Proof.
  assert (forall ps, sn (one rest) ps -> forall c : sys answer, (threads c).*1 = ps -> sn tstep c)
    as Hsn; [|by eapply Hsn; [apply one_sn; intros; apply rest_sn|]].
  induction 1 as [ps _ IH]. intros c1 Hc. constructor. intros c2 [i Hs].
  destruct (step_at_inv _ _ _ Hs) as (B & lock & m & k & s & b & s' & Hi & _ & _ & ->).
  eapply IH; [|reflexivity]. simpl. rewrite list_fmap_insert. subst ps. simpl.
  eapply (one_at _ i (Call lock m k)); [by rewrite list_lookup_fmap, Hi|constructor].
Qed.

(** ** The theorems *)
Definition unanswered (reqs : list request) (h : kvtree) : shared :=
  (h, replicate (length reqs) None).

(** The processes start with no lock and the file holds [h]; whatever the order of the
    calls, the hash can be written and read back. *)
Record ready (reqs : list request) (inits : list os) (D : gmap cstring (list byte))
    (h : kvtree) : Prop := {
  ready_lock : xorb KVTREE_FILE_LOCK_USE_FLOCK KVTREE_FILE_LOCK_USE_FCNTL = true;
  ready_length : length inits = length reqs;
  ready_fresh : Forall fresh inits;
  ready_file : represents (D !! file) h;
  ready_good x : rtc (astep reqs) (unanswered reqs h) x -> good x.1
}.

Lemma start_lookup reqs inits D i p s :
  threads (start reqs inits D) !! i = Some (p, s) ->
  exists r, reqs !! i = Some r /\ inits !! i = Some s /\ p = serve file r.
Proof.
  simpl. rewrite lookup_zip_with. intros (r & Hr & (s' & Hs & [= <- <-])%bind_Some)%bind_Some.
  by exists r.
Qed.

Lemma inv_start reqs inits D h :
  ready reqs inits D h ->
  inv reqs inits (unanswered reqs h) (start reqs inits D) (unanswered reqs h).
Proof.
  intros [Hlock Hlen Hfresh Hfile Hgood].
  assert (forall i w, ~ holds (start reqs inits D) i w) as Hno.
  { intros i w (p & s & n & (r & _ & Hs & _)%start_lookup & Hn).
    destruct (Forall_lookup_1 _ _ _ _ Hfresh Hs) as (_ & _ & Hl). by rewrite Hl in Hn. }
  split.
  - done.
  - simpl. rewrite length_replicate, length_zip_with. lia.
  - intros i p s (r & Hr & Hs & ->)%start_lookup. exists r, s, None. split_and!; [done|done| | |done|by left].
    + apply lookup_replicate_2. by eapply lookup_lt_Some.
    + assert (fresh s) as Hf by (by eapply (Forall_lookup_1 fresh)).
      split; [by apply Hf|]. exists false. split; [done|by apply pre_serve].
  - intros i j w w' _ Hi. by apply Hno in Hi.
  - done.
Qed.

(** The specification in state [x] explains what is seen of the processes in [c]: the answers
    of those that came back, that those which did not begin have no answer, and the
    contents of the file when no process holds the lock. *)
Definition explains (reqs : list request) (c : sys answer) (x : shared) : Prop :=
  (forall i a s, threads c !! i = Some (Done a, s) -> x.2 !! i = Some (Some a)) /\
  (forall i r s, reqs !! i = Some r -> threads c !! i = Some (serve file r, s) ->
     x.2 !! i = Some None) /\
  ((forall i p s, threads c !! i = Some (p, s) -> locks s = ∅) -> represents (disk c !! file) x.1).

Lemma inv_explains reqs inits x0 c x : inv reqs inits x0 c x -> explains reqs c x.
Proof.
  intros Hinv. split_and!.
  - intros i a s Hi. destruct (inv_thread _ _ _ _ _ Hinv i _ _ Hi) as (r & s0 & oa & _ & _ & Ha & Hok & _).
    rewrite Ha. destruct oa as [a'|]; [|by destruct Hok as (_ & o & _ & [])].
    destruct Hok as [_ [[_ [-> _]]|(n & w & _ & _ & Hin)]]; [done|].
    by apply inside_inv in Hin as [[[] _]|[]].
  - intros i r s Hr Hi.
    destruct (inv_thread _ _ _ _ _ Hinv i _ _ Hi) as (r' & s0 & oa & Hr' & _ & Ha & _ & _ & [->|Hp]);
      [done|].
    rewrite Hr in Hr'. injection Hr' as <-. by apply rest_acyclic in Hp.
  - intros Hfree. apply (inv_file _ _ _ _ _ Hinv). intros i (p & s & n & Hi & Hn).
    by rewrite (Hfree _ _ _ Hi) in Hn.
Qed.

(** C6. Several processes read, write and update one file under its lock.  Whatever the order
    in which their system calls are interleaved, the calls behave as if each was done at one
    moment, while it ran, on a hash that all share: at any two moments [c1] and [c2] of a
    run there is a run of the specification, in which the requests take effect one
    after the other, that explains what is seen at both.  So a reader never gets a half-written
    hash, no update is lost, and a call that came back before another began took effect before
    it. *)
Theorem locked_calls_atomic reqs inits D h c1 c2 :
  ready reqs inits D h -> rtc tstep (start reqs inits D) c1 -> rtc tstep c1 c2 ->
  exists x1 x2,
    rtc (astep reqs) (unanswered reqs h) x1 /\ rtc (astep reqs) x1 x2 /\
    explains reqs c1 x1 /\ explains reqs c2 x2.
Proof.
  intros Hready Hc1 Hc2. pose proof (inv_start _ _ _ _ Hready) as Hinv.
  pose proof (ready_good _ _ _ _ Hready) as Hgood.
  destruct (inv_steps _ _ _ Hgood _ _ _ Hc1 Hinv) as (x1 & Hx1 & Hinv1).
  destruct (inv_steps _ _ _ Hgood _ _ _ Hc2 Hinv1) as (x2 & Hx2 & Hinv2).
  exists x1, x2. split_and!; [done|done|by eapply inv_explains..].
Qed.

Lemma astep_answers reqs x x' :
  rtc (astep reqs) x x' ->
  (forall i a, x.2 !! i = Some (Some a) -> a.1 = KVTREE_SUCCESS) ->
  forall i a, x'.2 !! i = Some (Some a) -> a.1 = KVTREE_SUCCESS.
Proof.
  induction 1 as [x|x y z Hs _ IH]; [done|]. intros Hx. apply IH. clear IH.
  destruct Hs as [h ans i r _ Ha]. intros j a. simpl.
  destruct (decide (j = i)) as [->|Hne].
  - rewrite list_lookup_insert_eq by (by eapply lookup_lt_Some). intros [= <-]. by destruct r.
  - rewrite list_lookup_insert_ne by done. apply Hx.
Qed.

Lemma astep_length reqs x x' : rtc (astep reqs) x x' -> length x'.2 = length x.2.
Proof.
  induction 1 as [|x y z [h ans i r _ _] _ IH]; [done|]. rewrite IH. apply length_insert.
Qed.

(** C16. The same processes never wait for ever: every run comes to an end, and it can only
    end with every process having come back with success, its descriptors as they were
    before and no lock held. *)
Theorem locked_calls_finish reqs inits D h :
  ready reqs inits D h ->
  sn tstep (start reqs inits D) /\
  forall c, rtc tstep (start reqs inits D) c -> nf tstep c ->
    forall i s0, inits !! i = Some s0 ->
      exists o s, threads c !! i = Some (Done (KVTREE_SUCCESS, o), s) /\
                  fds s = fds s0 /\ locks s = ∅.
Proof.
  intros Hready. split; [apply tstep_sn|]. intros c Hc Hnf i s0 Hs0.
  pose proof (inv_start _ _ _ _ Hready) as Hinv.
  destruct (inv_steps _ _ _ (ready_good _ _ _ _ Hready) _ _ _ Hc Hinv) as (x & Hx & Hinv').
  destruct (progress _ _ _ (ready_good _ _ _ _ Hready) _ _ Hinv') as [Hdone|Hs]; [|by destruct Hnf].
  assert (is_Some (threads c !! i)) as [[p s] Hi].
  { apply lookup_lt_is_Some. rewrite <- (inv_length _ _ _ _ _ Hinv').
    assert (length x.2 = length reqs) as ->.
    { rewrite (astep_length _ _ _ Hx). apply length_replicate. }
    rewrite <- (ready_length _ _ _ _ Hready). by eapply lookup_lt_Some. }
  destruct (Hdone _ _ _ Hi) as [[rc o] ->].
  destruct (inv_thread _ _ _ _ _ Hinv' i _ _ Hi) as (r & s0' & oa & _ & Hs0' & Ha & Hok & _).
  rewrite Hs0 in Hs0'. injection Hs0' as <-.
  destruct oa as [a|]; [|by destruct Hok as (_ & ? & _ & [])].
  destruct Hok as [_ [[Hl [<- Hf]]|(n & w & _ & _ & Hin)]];
    [|by apply inside_inv in Hin as [[[] _]|[]]].
  assert (rc = KVTREE_SUCCESS) as ->.
  { change rc with (rc, o).1. eapply (astep_answers _ _ _ Hx); [|exact Ha]. intros j a. simpl.
    by intros [? _]%lookup_replicate_1. }
  by exists o, s.
Qed.

End atomic.

(** ** Two updates and a reader *)
Definition count_1 : kvtree := KVTree [Elem (Some (str "n")) (Some (KVTree [Elem (Some (str "1")) (Some kvtree_new)]))].
Definition count_2 : kvtree := KVTree [Elem (Some (str "n")) (Some (KVTree [Elem (Some (str "2")) (Some kvtree_new)]))].

(** Count one more process. *)
Definition count (t : kvtree) : kvtree :=
  match t with KVTree [] => count_1 | _ => count_2 end.

Definition counting : list request := [Update count; Update count; Read].
Definition three_os : list os := repeat (empty_os [Full; Short 5]) 3.
Definition turns (n : nat) : list nat := concat (repeat [0; 1; 2]%nat n).

Lemma count_good t :
  t = kvtree_new \/ t = count_1 \/ t = count_2 -> @good host_le t.
Proof.
  intros [->|[-> | ->]]; (split; [wf_check|]); (split; [reflexivity|]);
    (split; [split; [reflexivity|vm_compute; discriminate]|vm_compute; discriminate]).
Qed.

Lemma counting_states x :
  rtc (astep counting) (unanswered counting kvtree_new) x ->
  x.1 = kvtree_new \/ x.1 = count_1 \/ x.1 = count_2.
Proof.
  assert (forall y, rtc (astep counting) y x ->
    y.1 = kvtree_new \/ y.1 = count_1 \/ y.1 = count_2 ->
    x.1 = kvtree_new \/ x.1 = count_1 \/ x.1 = count_2) as H; [|intros Hx; apply (H _ Hx); by left].
  induction 1 as [y|y z x Hs _ IH]; [done|]. intros Hy. apply IH. clear IH x.
  destruct Hs as [h ans i r Hr _]. simpl in *.
  destruct i as [|[|[|i]]]; simpl in Hr; [injection Hr as <-..|done];
    destruct Hy as [->|[-> | ->]]; simpl; auto.
Qed.

Lemma counting_ready :
  @ready host_le zlib_sum lock_flock (str "f") counting three_os ∅ kvtree_new.
Proof.
  split; [reflexivity|reflexivity| |by left|intros x Hx; by apply count_good, counting_states].
  repeat constructor; try (by vm_compute); intros n _; apply lookup_empty.
Qed.

Definition counting_run (n : nat) : sys answer :=
  schedule (turns n) (@start host_le zlib_sum lock_flock (str "f") counting three_os ∅).

(** After twenty turns the first process is done, the second has the lock and the third
    waits for it; after eighty all three are done and both updates are in the file. *)
Lemma locked_calls_atomic_witness :
  let c1 := counting_run 20 in
  let c2 := schedule (turns 60) c1 in
  map (fun ps => (is_done ps.1, map_to_list (locks ps.2))) (threads c1)
    = [(true, []); (false, [(3%nat, true)]); (false, [])] /\
  map (fun ps => (is_done ps.1, map_to_list (locks ps.2))) (threads c2)
    = [(true, []); (true, []); (true, [])] /\
  disk c2 !! str "f" = Some (@persisted zlib_sum (Some count_2)) /\
  exists x1 x2,
    rtc (astep counting) (unanswered counting kvtree_new) x1 /\ rtc (astep counting) x1 x2 /\
    @explains host_le zlib_sum lock_flock (str "f") counting c1 x1 /\
    @explains host_le zlib_sum lock_flock (str "f") counting c2 x2.
Proof.
  intros c1 c2. split; [vm_compute; reflexivity|]. split; [vm_compute; reflexivity|]. split; [vm_compute; reflexivity|].
  apply (@locked_calls_atomic host_le zlib_sum lock_flock (str "f") counting three_os ∅ kvtree_new).
  - apply counting_ready.
  - apply schedule_rtc.
  - apply schedule_rtc.
Defined.

Lemma locked_calls_finish_witness :
  sn tstep (counting_run 0) /\
  forall c, rtc tstep (counting_run 0) c -> nf tstep c ->
    forall i s0, three_os !! i = Some s0 ->
      exists o s, threads c !! i = Some (Done (KVTREE_SUCCESS, o), s) /\
                  fds s = fds s0 /\ locks s = ∅.
Proof.
  apply (@locked_calls_finish host_le zlib_sum lock_flock (str "f") counting three_os ∅ kvtree_new).
  apply counting_ready.
Defined.

(** A build without locking calls: the same turns lose an update. *)
Definition lock_none : LockConfig :=
  {| KVTREE_FILE_LOCK_USE_FLOCK := false; KVTREE_FILE_LOCK_USE_FCNTL := false |}.

Theorem unlocked_update_lost :
  let c := schedule (turns 80)
             (@start host_le zlib_sum lock_none (str "f") counting three_os ∅) in
  map (fun ps => is_done ps.1) (threads c) = [true; true; true] /\
  disk c !! str "f" = Some (@persisted zlib_sum (Some count_1)).
Proof. vm_compute. split; reflexivity. Qed.
