(* ===== verification/Format.v ===== *)
(** Setting and reading a nested key given by a printf-like format:
    [kvtree_setf] and [kvtree_getf] of [src/src/kvtree.c]. *)

From S2P Require Import Prelude CLib Kvtree KvtreeSpec KvtreeMap KvtreeMerge.

(** The conversions of libc for floating-point numbers and pointers: printing
    with [%f] and [%p], whose texts are at most a few hundred bytes, [strtod],
    which may set [errno] ([None]), and [sscanf] with [%p].  C specifies that a pointer printed with [%p] is read back by
    [sscanf]. *)
Class Libc := {
  double : Type;
  fmt_f : double -> cstring;
  fmt_p : Z -> cstring;
  strtod : cstring -> option double;
  sscanf_p : cstring -> option Z;
  fmt_f_nul_free d : nul_free (fmt_f d);
  fmt_p_nul_free p : nul_free (fmt_p p);
  fmt_f_length d : (length (fmt_f d) < 1024)%nat;
  fmt_p_length p : (length (fmt_p p) < 1024)%nat;
  sscanf_fmt_p p : is_u64 p -> sscanf_p (fmt_p p) = Some p
}.

Definition KVTREE_MAX_LINE : nat := 1024.

Section format.
Context `{Libc}.

(** A variable argument, with its type. *)
Inductive arg :=
| AStr (s : cstring)
| AInt (n : Z)
| ALongLong (n : Z)
| AULong (n : Z)
| AUInt (n : Z)
| AULongLong (n : Z)
| ADouble (d : double)
| APtr (p : Z).

(** The chain of [strcmp] on the token: the text [snprintf] produces and the
    arguments left.  Taking an argument of another type is undefined; a token
    that is none of the nine aborts. *)
Definition convert (token : cstring) (args : list arg) : outcome (cstring * list arg) :=
  if strcmp token (str "%s") =? 0 then
    match args with AStr s :: args => Ok (c_str s, args) | _ => Undef end
  else if strcmp token (str "%d") =? 0 then
    match args with AInt n :: args => Ok (fmt_signed n, args) | _ => Undef end
  else if strcmp token (str "%lld") =? 0 then
    match args with ALongLong n :: args => Ok (fmt_signed n, args) | _ => Undef end
  else if strcmp token (str "%lu") =? 0 then
    match args with AULong n :: args => Ok (fmt_unsigned n, args) | _ => Undef end
  else if strcmp token (str "%#x") =? 0 then
    match args with AUInt n :: args => Ok (fmt_hex n, args) | _ => Undef end
  else if strcmp token (str "%#lx") =? 0 then
    match args with AULong n :: args => Ok (fmt_hex n, args) | _ => Undef end
  else if strcmp token (str "%llu") =? 0 then
    match args with AULongLong n :: args => Ok (fmt_unsigned n, args) | _ => Undef end
  else if strcmp token (str "%f") =? 0 then
    match args with ADouble d :: args => Ok (fmt_f d, args) | _ => Undef end
  else if strcmp token (str "%p") =? 0 then
    match args with APtr p :: args => Ok (fmt_p p, args) | _ => Undef end
  else Abort.

(** The key of one token: it must fit the buffer with its NUL. *)
Definition next_key (token : cstring) (args : list arg) : outcome (cstring * list arg) :=
  let* (key, args) := convert token args in
  let size := length key in
  if (KVTREE_MAX_LINE <=? size)%nat then Abort else Ok (key, args).

(** The loop of [kvtree_setf] over the tokens: [h] points into [hash]. *)
Fixpoint setf_loop (toks : list cstring) (i count : Z) (hash : option kvtree) (h : tree_ptr)
    (hash_value : option kvtree) (args : list arg) : outcome (option kvtree * tree_ptr) :=
  match toks, h with
  | token :: toks, Some _ =>
      if i <? count then
        let* (key, args) := next_key token args in
        let '(hash, h') :=
          if i <? count - 1 then
            at_ptr hash h (fun h =>
              match kvtree_get h (Some key) with
              | None => kvtree_set h (Some key) (Some kvtree_new)
              | Some _ => (h, get_ptr h (Some key))
              end)
          else at_ptr hash h (fun h => kvtree_set h (Some key) hash_value) in
        setf_loop toks (i + 1) count hash (ptr_app h h') hash_value args
      else Ok (hash, h)
  | _, _ => Ok (hash, h)
  end.

Definition space : byte := Init.Byte.x20.

Definition kvtree_setf (hash hash_value : option kvtree) (format : cstring) (args : list arg)
    : outcome (option kvtree * tree_ptr) :=
  match hash with
  | None => Ok (None, None)
  | Some _ =>
      let toks := tokens space (strdup format) in
      let count := Z.of_nat (length toks) in
      setf_loop toks 0 count hash (Some []) hash_value args
  end.

Fixpoint getf_loop (toks : list cstring) (i count : Z) (h : option kvtree) (args : list arg)
    : outcome (option kvtree) :=
  match toks, h with
  | token :: toks, Some _ =>
      if i <? count then
        let* (key, args) := next_key token args in
        let h := kvtree_get h (Some key) in
        getf_loop toks (i + 1) count h args
      else Ok h
  | _, _ => Ok h
  end.

Definition kvtree_getf (hash : option kvtree) (format : cstring) (args : list arg)
    : outcome (option kvtree) :=
  match hash with
  | None => Ok None
  | Some _ =>
      let toks := tokens space (strdup format) in
      let count := Z.of_nat (length toks) in
      getf_loop toks 0 count hash args
  end.

(** ** Specification: the keys of a format and a nested update *)
Fixpoint keys_of (toks : list cstring) (args : list arg) : outcome (list cstring) :=
  match toks with
  | [] => Ok []
  | token :: toks =>
      let* (key, args) := next_key token args in
      let* keys := keys_of toks args in Ok (key :: keys)
  end.

(** The keys before the first token whose conversion fails, and its failure. *)
Fixpoint readable_keys (toks : list cstring) (args : list arg) : list cstring * outcome unit :=
  match toks with
  | [] => ([], Ok tt)
  | token :: toks =>
      match next_key token args with
      | Ok (key, args) => let '(keys, e) := readable_keys toks args in (key :: keys, e)
      | Abort => ([], Abort)
      | Undef => ([], Undef)
      | NoFuel => ([], NoFuel)
      end
  end.

End format.

Definition get_or_empty (t : kvtree) (k : cstring) : kvtree :=
  default kvtree_new (kvtree_get (Some t) (Some k)).

(** [set_path keys v t]: the hash at the end of [keys] becomes [v]; hashes on the
    way that are missing or NULL are created. *)
Fixpoint set_path (keys : list cstring) (v : option kvtree) (t : kvtree) : kvtree :=
  match keys with
  | [] => t
  | [k] => insert_child k v t
  | k :: keys => put_child k (set_path keys v (get_or_empty t k)) (ensure_child k t)
  end.

Fixpoint get_path (keys : list cstring) (h : option kvtree) : option kvtree :=
  match keys with
  | [] => h
  | k :: keys => get_path keys (kvtree_get h (Some k))
  end.

(** ** Writing through a path *)
Lemma get_put t k x c :
  kvtree_get (Some t) (Some k) = Some c -> kvtree_get (Some (put_child k x t)) (Some k) = Some x.
Proof.
  unfold kvtree_get, put_child. simpl. induction (lh_first t) as [|e l IH]; simpl; [done|].
  destruct (elem_matches k e) eqn:Hm; simpl.
  - intros _. by assert (elem_matches k (Elem (key e) (Some x)) = true) as -> by done.
  - by rewrite Hm.
Qed.

Lemma put_put t k x y : put_child k y (put_child k x t) = put_child k y t.
Proof.
  unfold put_child. f_equal. simpl. induction (lh_first t) as [|e l IH]; simpl; [done|].
  destruct (elem_matches k e) eqn:Hm; simpl.
  - by assert (elem_matches k (Elem (key e) (Some x)) = true) as -> by done.
  - by rewrite Hm, IH.
Qed.

Lemma store_cons t k p v c :
  kvtree_get (Some t) (Some k) = Some c ->
  kvtree_store t (k :: p) v = put_child k (kvtree_store c p v) t.
Proof. intros Hg. cbn [kvtree_store]. by rewrite Hg. Qed.

Lemma deref_cons t k p c :
  kvtree_deref t (k :: p) = Some c ->
  exists d, kvtree_get (Some t) (Some k) = Some d /\ kvtree_deref d p = Some c.
Proof. cbn [kvtree_deref]. destruct (kvtree_get _ _) as [d|]; [|done]. by exists d. Qed.

Lemma deref_store p : forall t c x,
  kvtree_deref t p = Some c -> kvtree_deref (kvtree_store t p x) p = Some x.
Proof.
  induction p as [|k p IH]; intros t c x Hd; [done|].
  apply deref_cons in Hd as (d & Hg & Hd). rewrite (store_cons _ _ _ _ _ Hg).
  cbn [kvtree_deref]. rewrite (get_put _ _ _ _ Hg). eauto.
Qed.

Lemma store_store p : forall t c x y,
  kvtree_deref t p = Some c ->
  kvtree_store (kvtree_store t p x) p y = kvtree_store t p y.
Proof.
  induction p as [|k p IH]; intros t c x y Hd; [done|].
  apply deref_cons in Hd as (d & Hg & Hd). rewrite !(store_cons _ _ _ _ _ Hg).
  rewrite (store_cons _ _ _ _ _ (get_put _ _ _ _ Hg)), put_put. by erewrite IH.
Qed.

Lemma deref_app p : forall q t c,
  kvtree_deref t p = Some c -> kvtree_deref t (p ++ q) = kvtree_deref c q.
Proof.
  induction p as [|k p IH]; intros q t c Hd; [by injection Hd as ->|].
  apply deref_cons in Hd as (d & Hg & Hd). cbn [kvtree_deref app]. rewrite Hg. eauto.
Qed.

Lemma store_app p : forall q t c y,
  kvtree_deref t p = Some c ->
  kvtree_store t (p ++ q) y = kvtree_store t p (kvtree_store c q y).
Proof.
  induction p as [|k p IH]; intros q t c y Hd; [by injection Hd as ->|].
  apply deref_cons in Hd as (d & Hg & Hd). cbn [app].
  rewrite !(store_cons _ _ _ _ _ Hg). by erewrite IH.
Qed.

Lemma at_ptr_eq {A} t p c (f : option kvtree -> option kvtree * A) c' r :
  kvtree_deref t p = Some c -> f (Some c) = (Some c', r) ->
  at_ptr (Some t) (Some p) f = (Some (kvtree_store t p c'), r).
Proof. intros Hd Hf. unfold at_ptr. by rewrite Hd, Hf. Qed.

Lemma wf_get_or_empty t k : wf t -> wf (get_or_empty t k).
Proof.
  intros Hwf. unfold get_or_empty. destruct (kvtree_get _ _) eqn:Hg; simpl;
    eauto using wf_get with kvtree.
Qed.

#[export] Hint Resolve wf_get_or_empty wf_put_child : kvtree.

(** ** kvtree_setf and kvtree_getf *)
Section correctness.
Context `{Libc}.

Lemma setf_loop_spec toks : forall i count t p c v args,
  toks <> [] -> i + Z.of_nat (length toks) = count -> wf c -> kvtree_deref t p = Some c ->
  setf_loop toks i count (Some t) (Some p) v args
    = let* ks := keys_of toks args in
      Ok (Some (kvtree_store t p (set_path ks v c)),
          match v with Some _ => Some (p ++ ks) | None => None end).
Proof.
  induction toks as [|token toks IH]; intros i count t p c v args Hne Hc Hwf Hd; [done|].
  clear Hne. cbn [length] in Hc. cbn [setf_loop keys_of].
  rewrite (proj2 (Z.ltb_lt _ _)) by lia.
  destruct (next_key token args) as [[key args']| | |]; cbn [obind]; try done.
  destruct toks as [|token2 toks].
  - cbn [length] in Hc. rewrite (proj2 (Z.ltb_ge _ _)) by lia.
    rewrite (at_ptr_eq t p c _ _ _ Hd (set_spec c key v Hwf)). cbn [obind keys_of set_path].
    destruct v; done.
  - cbn [length] in Hc. rewrite (proj2 (Z.ltb_lt _ _)) by lia.
    destruct (get_or_new_spec c key Hwf) as (E & Hwf' & Hg & _).
    unfold get_or_new in E. rewrite (at_ptr_eq t p c _ _ _ Hd E). cbn [ptr_app].
    fold (get_or_empty c key) in Hg.
    set (t1 := kvtree_store t p (ensure_child key c)).
    assert (kvtree_deref t1 p = Some (ensure_child key c)) as Hd1 by (by eapply deref_store).
    assert (kvtree_deref t1 (p ++ [key]) = Some (get_or_empty c key)) as Hd2.
    { rewrite (deref_app _ _ _ _ Hd1). cbn [kvtree_deref]. by rewrite Hg. }
    rewrite (IH (i + 1) count t1 (p ++ [key]) (get_or_empty c key))
      by (done || auto with kvtree || (cbn [length]; lia)).
    destruct (keys_of (token2 :: toks) args') as [ks| | |] eqn:Hks; cbn [obind]; try done.
    assert (ks <> []) as Hne.
    { cbn [keys_of] in Hks. apply obind_ok in Hks as ([k2 a2] & _ & Hks).
      by apply obind_ok in Hks as (ks' & _ & [= <-]). }
    rewrite (store_app _ _ _ _ _ Hd1), (store_cons _ _ _ _ _ Hg). cbn [kvtree_store].
    unfold t1. rewrite (store_store _ _ _ _ _ Hd).
    rewrite <- app_assoc. destruct ks; done.
Qed.

Lemma setf_ok t v fmt args ks :
  wf t -> keys_of (tokens space (strdup fmt)) args = Ok ks -> ks <> [] ->
  kvtree_setf (Some t) v fmt args
    = Ok (Some (set_path ks v t), match v with Some _ => Some ks | None => None end).
Proof.
  intros Hwf Hks Hne. unfold kvtree_setf.
  rewrite (setf_loop_spec _ 0 _ t [] t) by (done || (intros E; rewrite E in Hks; by injection Hks as <-)).
  by rewrite Hks.
Qed.

Lemma get_path_None ks : get_path ks None = None.
Proof. induction ks as [|k ks IH]; [done|]. cbn [get_path]. exact IH. Qed.

Lemma getf_loop_eq toks : forall i count h args,
  i + Z.of_nat (length toks) = count ->
  getf_loop toks i count h args =
    let '(ks, e) := readable_keys toks args in
    match get_path ks h with
    | None => Ok None
    | Some c => let* _ := e in Ok (Some c)
    end.
Proof.
  induction toks as [|token toks IH]; intros i count [t|] args Hc; [done|done| |].
  - cbn [getf_loop readable_keys length] in *. rewrite (proj2 (Z.ltb_lt _ _)) by lia.
    destruct (next_key token args) as [[key args']| | |]; [|done|done|done].
    cbn [obind]. rewrite (IH (i + 1)) by lia. by destruct (readable_keys toks args').
  - cbn [getf_loop]. destruct (readable_keys (token :: toks) args) as [ks e].
    by rewrite get_path_None.
Qed.

Lemma keys_readable toks : forall args ks,
  keys_of toks args = Ok ks -> readable_keys toks args = (ks, Ok tt).
Proof.
  induction toks as [|token toks IH]; intros args ks Hk; [by injection Hk as <-|].
  cbn [keys_of readable_keys] in *. apply obind_ok in Hk as ([key args'] & -> & Hk).
  apply obind_ok in Hk as (ks' & Hk & [= <-]). by rewrite (IH _ _ Hk).
Qed.

Lemma getf_loop_spec toks i count h args ks :
  i + Z.of_nat (length toks) = count -> keys_of toks args = Ok ks ->
  getf_loop toks i count h args = Ok (get_path ks h).
Proof.
  intros Hc Hk. rewrite getf_loop_eq, (keys_readable _ _ _ Hk) by done.
  by destruct (get_path ks h).
Qed.

End correctness.

(** ** What a nested update does *)
Lemma wf_set_path ks : forall v t, wf t -> wf_opt v -> wf (set_path ks v t).
Proof.
  induction ks as [|k ks IH]; intros v t Hwf Hv; [done|].
  destruct ks as [|k2 ks]; cbn [set_path]; [auto with kvtree|].
  apply wf_put_child; [by apply get_or_new_spec|]. apply IH; auto with kvtree.
Qed.

Lemma get_put_ensure t k c :
  wf t -> kvtree_get (Some (put_child k c (ensure_child k t))) (Some k) = Some c.
Proof.
  intros Hwf. eapply get_put. by apply get_or_new_spec.
Qed.

Lemma get_set_path ks : forall v t,
  wf t -> wf_opt v -> ks <> [] -> get_path ks (Some (set_path ks v t)) = v.
Proof.
  induction ks as [|k ks IH]; intros v t Hwf Hv Hne; [done|].
  destruct ks as [|k2 ks].
  - cbn [get_path set_path]. rewrite child_get, child_insert_child by done.
    by rewrite decide_True.
  - cbn [get_path set_path]. rewrite get_put_ensure by done.
    apply (IH v (get_or_empty t k)); auto with kvtree.
Qed.

(** The paths after the update: those below the keys are those of the new value,
    the keys themselves are there, and no other path changes. *)
Fixpoint updated_path (ks : list cstring) (v : option kvtree) (t : option kvtree)
    (p : list cstring) : bool :=
  match ks, p with
  | [], _ => has_path_opt v p
  | _, [] => true
  | k :: ks, k' :: p' =>
      if decide (c_str k = c_str k')
      then updated_path ks v (kvtree_get t (Some k)) p'
      else has_path_opt t p
  end.

Lemma updated_path_new ks v p :
  updated_path ks v (Some kvtree_new) p = updated_path ks v None p.
Proof. destruct ks, p; simpl; try done. Qed.

Lemma set_path_cons k k2 ks v t :
  set_path (k :: k2 :: ks) v t
    = put_child k (set_path (k2 :: ks) v (get_or_empty t k)) (ensure_child k t).
Proof. done. Qed.

Lemma has_path_set_path ks : forall v t p,
  wf t -> wf_opt v -> ks <> [] ->
  has_path (set_path ks v t) p = updated_path ks v (Some t) p.
Proof.
  induction ks as [|k ks IH]; intros v t p Hwf Hv Hne; [done|].
  pose proof (wf_set_path (k :: ks) v t Hwf Hv) as Hwf'.
  destruct p as [|k' p]; [done|]. cbn [updated_path]. rewrite has_path_child by done.
  destruct (get_or_new_spec t k Hwf) as (_ & Hwe & Hg & Hch).
  destruct ks as [|k2 ks]; [cbn [set_path]|rewrite set_path_cons].
  - rewrite child_insert_child by done. case_decide; [done|].
    cbn [has_path_opt]. by rewrite has_path_child by done.
  - rewrite child_put_child.
    + case_decide as E.
      * cbn [has_path_opt]. rewrite IH by auto with kvtree.
        unfold get_or_empty. destruct (kvtree_get (Some t) (Some k)) as [c|]; [done|].
        apply updated_path_new.
      * rewrite Hch by done. cbn [has_path_opt]. by rewrite has_path_child by done.
    + done.
    + rewrite child_get in Hg. destruct (child _ k); [done|discriminate].
Qed.

(** ** Properties *)
Section properties.
Context `{Libc}.

(** C18. [kvtree_setf] on a well-formed hash aborts or is undefined exactly when
    the conversion of one of its tokens is: an unsupported token or a key of 1024
    bytes or more aborts.  Otherwise the result is well-formed, the hash at the
    end of the keys is the given value, which [kvtree_getf] with the same format
    then returns, missing hashes on the way were created, and no other path
    changed. *)
Theorem setf_getf t v fmt args :
  wf t -> wf_opt v ->
  match keys_of (tokens space (strdup fmt)) args with
  | Ok [] => kvtree_setf (Some t) v fmt args = Ok (Some t, Some [])
  | Ok ks =>
      exists t', kvtree_setf (Some t) v fmt args
                   = Ok (Some t', match v with Some _ => Some ks | None => None end) /\
        wf t' /\ kvtree_getf (Some t') fmt args = Ok v /\
        forall p, has_path t' p = updated_path ks v (Some t) p
  | Abort => kvtree_setf (Some t) v fmt args = Abort
  | Undef => kvtree_setf (Some t) v fmt args = Undef
  | NoFuel => kvtree_setf (Some t) v fmt args = NoFuel
  end.
Proof.
  intros Hwf Hv. unfold kvtree_setf, kvtree_getf. set (toks := tokens space (strdup fmt)).
  destruct (decide (toks = [])) as [->|Hne]; [done|].
  rewrite (setf_loop_spec toks 0 _ t [] t) by done.
  destruct (keys_of toks args) as [ks| | |] eqn:Hks; cbn [obind]; try done.
  assert (ks <> []) as Hk.
  { destruct toks; [done|]. cbn [keys_of] in Hks. apply obind_ok in Hks as ([k2 a2] & _ & Hks).
    by apply obind_ok in Hks as (ks' & _ & [= <-]). }
  destruct ks as [|k ks]; [done|]. cbn [app kvtree_store].
  eexists. split; [done|]. split_and!.
  - by apply wf_set_path.
  - erewrite getf_loop_spec by done. by rewrite get_set_path.
  - intros p. by apply has_path_set_path.
Qed.

(** [kvtree_getf] follows the keys of the format one by one.  It returns NULL
    as soon as a hash is missing, and then looks at no further token; otherwise
    the first token whose conversion fails, with an unsupported token, a wrong
    argument or a key of 1024 bytes or more, makes the call fail the same way,
    and without one the result is the hash at the end of the keys. *)
Theorem getf_path t fmt args :
  kvtree_getf (Some t) fmt args =
    let '(ks, e) := readable_keys (tokens space (strdup fmt)) args in
    match get_path ks (Some t) with
    | None => Ok None
    | Some c => let* _ := e in Ok (Some c)
    end.
Proof. unfold kvtree_getf. by apply getf_loop_eq. Qed.

End properties.

(** An instance of libc on which the witnesses evaluate: a "double" is an
    integer. *)
Program Definition libc_sample : Libc :=
  {| double := Z; fmt_f := fmt_signed; fmt_p := fmt_hex;
     strtod := fun s => Some (strtoll_0 s); sscanf_p := fun s => Some (strtoul_0 s) |}.
Next Obligation. apply fmt_signed_nul_free. Qed.
Next Obligation. apply fmt_hex_nul_free. Qed.
Next Obligation. intros d. pose proof (fmt_signed_length d). lia. Qed.
Next Obligation. intros p. pose proof (fmt_hex_length p). lia. Qed.
Next Obligation. intros p Hp. simpl. by rewrite strtoul_fmt_hex. Qed.

Lemma setf_getf_witness :
  let fmt := str "%s %d %lu" in
  let args := [@AStr libc_sample (str "RANK"); @AInt libc_sample 3; @AULong libc_sample 77] in
  let ks := [str "RANK"; str "3"; str "77"] in
  @keys_of libc_sample (tokens space (strdup fmt)) args = Ok ks /\
  exists t', @kvtree_setf libc_sample (Some (sample_tree "RANK" "1" kvtree_new)) None fmt args
               = Ok (Some t', None) /\
    wf t' /\ @kvtree_getf libc_sample (Some t') fmt args = Ok None /\
    forall p, has_path t' p
              = updated_path ks None (Some (sample_tree "RANK" "1" kvtree_new)) p.
Proof.
  intros fmt args ks.
  assert (@keys_of libc_sample (tokens space (strdup fmt)) args = Ok ks) as Hks
    by (vm_compute; reflexivity).
  split; [exact Hks|].
  pose proof (@setf_getf libc_sample (sample_tree "RANK" "1" kvtree_new) None fmt args) as Ht.
  rewrite Hks in Ht. apply Ht; [wf_check|exact I].
Defined.
