(* ===== verification/Sort.v ===== *)
(** Sorting the elements of a hash: [kvtree_sort], [kvtree_sort_int] and
    [kvtree_list_int] of [src/src/kvtree.c].

    The code sorts an array of keys with the addresses of their elements and then
    moves the elements to the front of the chain one by one, from the last of the
    array to the first.  An address is the position the element had in the chain.
    [qsort] is any function with the two properties of [CLib.Qsort]. *)

From stdpp Require Import sorting.
From S2P Require Import Prelude CLib ByteOrder Kvtree KvtreeSpec KvtreeMap KvtreeMerge Pack.

Definition KVTREE_SORT_ASCENDING : Z := 0.
Definition KVTREE_SORT_DESCENDING : Z := 1.

Record sort_elem (K : Type) := SortElem { se_key : K; se_addr : nat }.
Arguments SortElem {K}.
Arguments se_key {K}.
Arguments se_addr {K}.

(** ** Comparison functions

    The difference of two [int]s wraps around, as it does with the compilers in
    use; C leaves it undefined. *)
Definition kvtree_cmp_fn_str_asc (a b : sort_elem cstring) : Z := strcmp (se_key a) (se_key b).
Definition kvtree_cmp_fn_str_desc (a b : sort_elem cstring) : Z := strcmp (se_key b) (se_key a).
Definition kvtree_cmp_fn_int_asc (a b : sort_elem Z) : Z := i32 (se_key a - se_key b).
Definition kvtree_cmp_fn_int_desc (a b : sort_elem Z) : Z := i32 (se_key b - se_key a).

Section sort.
Context `{Host} `{Qsort}.

(** Fill the array: [list[index]] must be inside the [count] entries. *)
Fixpoint fill_loop {K} (get : cursor -> outcome K) (elem : cursor) (index : nat) (count : Z)
    : outcome (list (sort_elem K)) :=
  match elem with
  | [] => Ok []
  | _ :: next =>
      let* key := get elem in
      if count <=? Z.of_nat index then Undef
      else
        let* list := fill_loop get next (S index) count in
        Ok (SortElem key index :: list)
  end.

(** The elements with their addresses. *)
Definition addressed (l : list kvtree_elem) : list (nat * kvtree_elem) := imap pair l.

(** [LIST_REMOVE] by address and [LIST_INSERT_HEAD], for each address. *)
Fixpoint move_loop (addrs : list nat) (chain : list (nat * kvtree_elem))
    : outcome (list (nat * kvtree_elem)) :=
  match addrs with
  | [] => Ok chain
  | a :: addrs =>
      match list_extract (fun x => (x.1 =? a)%nat) chain with
      | Some (x, chain) => move_loop addrs (x :: chain)
      | None => Undef
      end
  end.

(** The body the two sorts share: [get] reads a key, [fn] compares, [entry] is
    the size of an array entry. *)
Definition sort_with {K} (get : cursor -> outcome K) (fn : sort_elem K -> sort_elem K -> Z)
    (hash : option kvtree) : outcome (option kvtree * Z) :=
  let count := kvtree_size hash in
  let* _ := kvtree_malloc (u64 (count * 16)) in
  let* list := fill_loop get (kvtree_elem_first hash) 0 count in
  let list := qsort fn list in
  match hash with
  | None => Ok (None, KVTREE_SUCCESS)
  | Some t =>
      let* chain := move_loop (rev (map se_addr list)) (addressed (lh_first t)) in
      Ok (Some (KVTree chain.*2), KVTREE_SUCCESS)
  end.

(** A NULL key reaches [strcmp], unless the array has a single entry, which
    [qsort] compares with nothing. *)
Definition key_str (count : Z) (elem : cursor) : outcome cstring :=
  match kvtree_elem_key elem with
  | Some k => Ok k
  | None => if count =? 1 then Ok [] else Undef
  end.

Definition kvtree_sort (hash : option kvtree) (direction : Z) : outcome (option kvtree * Z) :=
  let fn := if direction =? KVTREE_SORT_DESCENDING then kvtree_cmp_fn_str_desc
            else kvtree_cmp_fn_str_asc in
  sort_with (key_str (kvtree_size hash)) fn hash.

Definition kvtree_sort_int (hash : option kvtree) (direction : Z) : outcome (option kvtree * Z) :=
  let fn := if direction =? KVTREE_SORT_DESCENDING then kvtree_cmp_fn_int_desc
            else kvtree_cmp_fn_int_asc in
  sort_with kvtree_elem_key_int fn hash.

(** The array of [int]s is sorted with the comparison function for entries: it
    reads the first field only. *)
Definition kvtree_list_int (hash : option kvtree) : outcome (Z * Z * list Z) :=
  let count := kvtree_size hash in
  if count =? 0 then Ok (KVTREE_SUCCESS, 0, [])
  else
    let* _ := kvtree_malloc (u64 (count * 4)) in
    let* list := fill_loop kvtree_elem_key_int (kvtree_elem_first hash) 0 count in
    let list := qsort (fun a b => kvtree_cmp_fn_int_asc (SortElem a 0) (SortElem b 0))
                  (map se_key list) in
    Ok (KVTREE_SUCCESS, Z.of_nat (length list), list).

End sort.

(** ** The order of the keys *)
Lemma strcmp_flip a b : 0 < strcmp a b <-> strcmp b a < 0.
Proof.
  unfold strcmp. rewrite (bytes_compare_opp (c_str a) (c_str b)).
  destruct (bytes_compare (c_str a) (c_str b)); simpl; lia.
Qed.

Lemma strcmp_le a b : strcmp a b <= 0 <-> bytes_compare (c_str a) (c_str b) <> Gt.
Proof. unfold strcmp. destruct (bytes_compare _ _); split; intros; (done || lia). Qed.

Lemma strcmp_trans a b c : strcmp a b <= 0 -> strcmp b c <= 0 -> strcmp a c <= 0.
Proof. rewrite !strcmp_le. apply bytes_compare_trans. Qed.

Lemma str_asc_consistent l : consistent kvtree_cmp_fn_str_asc l.
Proof.
  split; unfold cmp_le, kvtree_cmp_fn_str_asc; intros; [apply strcmp_flip|eauto using strcmp_trans].
Qed.

Lemma str_desc_consistent l : consistent kvtree_cmp_fn_str_desc l.
Proof.
  split; unfold cmp_le, kvtree_cmp_fn_str_desc; intros; [apply strcmp_flip|eauto using strcmp_trans].
Qed.

(** Keys as [int]s compare well when no difference overflows. *)
Definition no_overflow (l : list Z) : Prop :=
  forall x y, x ∈ l -> y ∈ l -> x - y <= INT_MAX.

Lemma int_asc_consistent {A} (f : A -> Z) l :
  no_overflow (map f l) -> consistent (fun a b => i32 (f a - f b)) l.
Proof.
  intros Hl.
  assert (forall x y, x ∈ l -> y ∈ l -> i32 (f x - f y) = f x - f y) as E.
  { intros x y Hx Hy. apply (list_elem_of_fmap_2 f) in Hx, Hy.
    pose proof (Hl _ _ Hx Hy). pose proof (Hl _ _ Hy Hx). apply i32_id. int_lia. }
  split; unfold cmp_le; intros; rewrite ?E in * by done; lia.
Qed.

Lemma int_desc_consistent {A} (f : A -> Z) l :
  no_overflow (map f l) -> consistent (fun a b => i32 (f b - f a)) l.
Proof.
  intros Hl.
  assert (forall x y, x ∈ l -> y ∈ l -> i32 (f x - f y) = f x - f y) as E.
  { intros x y Hx Hy. apply (list_elem_of_fmap_2 f) in Hx, Hy.
    pose proof (Hl _ _ Hx Hy). pose proof (Hl _ _ Hy Hx). apply i32_id. int_lia. }
  split; unfold cmp_le; intros; rewrite ?E in * by done; lia.
Qed.

(** ** Moving the elements *)
Lemma filter_ext_in {A} (P Q : A -> Prop) `{!forall x, Decision (P x), !forall x, Decision (Q x)} (l : list A) :
  (forall x, x ∈ l -> (P x <-> Q x)) -> filter P l = filter Q l.
Proof.
  induction l as [|x l IH]; intros Hl; [done|]. rewrite !filter_cons.
  pose proof (Hl x (list_elem_of_here _ _)). rewrite IH by (intros; apply Hl; by right).
  repeat case_decide; naive_solver.
Qed.

Lemma filter_all {A} (P : A -> Prop) `{!forall x, Decision (P x)} (l : list A) :
  (forall x, x ∈ l -> P x) -> filter P l = l.
Proof.
  induction l as [|x l IH]; intros Hl; [done|].
  rewrite filter_cons_True by (apply Hl; by left). rewrite IH; [done|]. intros; apply Hl; by right.
Qed.

Lemma move_loop_spec addrs : forall chain,
  NoDup addrs -> NoDup chain.*1 -> (forall a, a ∈ addrs -> a ∈ chain.*1) ->
  exists chain', move_loop addrs chain = Ok chain' /\ Permutation chain' chain /\
    chain'.*1 = rev addrs ++ filter (fun a => a ∉ addrs) chain.*1.
Proof.
  induction addrs as [|a addrs IH]; intros chain Ha Hc Hin; simpl.
  { exists chain. split_and!; [done..|]. symmetry. apply filter_all.
    intros x _. apply not_elem_of_nil. }
  apply list.NoDup_cons in Ha as [Hna Ha].
  destruct (list_extract (fun x => (x.1 =? a)%nat) chain) as [[x chain0]|] eqn:E.
  2:{ exfalso. apply list_extract_None in E. destruct (list_elem_of_fmap_1 fst chain a) as (y & -> & Hy).
      { apply Hin. by left. }
      eapply list.Forall_forall in E; [|exact Hy]. simpl in E. by rewrite Nat.eqb_refl in E. }
  apply list_extract_Some in E as (l1 & l2 & -> & -> & Hx%Nat.eqb_eq & _).
  rewrite fmap_app, fmap_cons, Hx in Hc. apply list.NoDup_app in Hc as (Hc1 & Hc12 & Hc2).
  apply list.NoDup_cons in Hc2 as [Hna2 Hc2].
  assert (a ∉ l1.*1) as Hna1 by (intros Hl; apply (Hc12 _ Hl); by left).
  destruct (IH (x :: l1 ++ l2)) as (chain' & E & HP & Ht); [done| | |].
  - rewrite fmap_cons, fmap_app, Hx. apply list.NoDup_cons. split; [by rewrite elem_of_app; naive_solver|].
    apply list.NoDup_app. split_and!; [done| |done]. intros y Hy. specialize (Hc12 _ Hy). set_solver.
  - intros b Hb. specialize (Hin b (list_elem_of_further _ _ _ Hb)).
    rewrite fmap_app, fmap_cons in Hin. rewrite fmap_cons, fmap_app. set_solver.
  - exists chain'. split_and!; [done|by rewrite HP, Permutation_middle|].
    rewrite Ht. rewrite fmap_cons, !fmap_app, fmap_cons, Hx, !list.filter_app.
    rewrite filter_cons_True by done. 
    rewrite (filter_cons_False (fun y => y ∉ a :: addrs)) by (intros Hn; apply Hn; by left).
    assert (forall l : list nat, a ∉ l ->
              filter (fun y => y ∉ a :: addrs) l = filter (fun y => y ∉ addrs) l)
      as Hfa.
    { intros l Hl. apply filter_ext_in. intros y Hy. rewrite not_elem_of_cons.
      split; [by intros []|]. intros Hn. split; [by intros ->|done]. }
    rewrite !Hfa, list.filter_app by done. by rewrite <- app_assoc.
Qed.

(** ** The array *)
Section correctness.
Context `{Host} `{Qsort}.

Lemma malloc_array z : 0 <= z <= malloc_max -> exists b, kvtree_malloc (u64 z) = Ok b.
Proof.
  intros Hz. pose proof malloc_max_range. unfold kvtree_malloc. rewrite u64_id by int_lia.
  destruct (0 <? _); [|by eexists]. rewrite (proj2 (Z.leb_le _ _)) by lia. by eexists.
Qed.

(** Entry [i] of the array has the key and the address of element [i]. *)
Definition entry_of {K} (get : cursor -> outcome K) (l : cursor) (e : sort_elem K) : Prop :=
  exists next, drop (se_addr e) l = next /\ next <> [] /\ get next = Ok (se_key e).

Lemma fill_loop_spec {K} (get : cursor -> outcome K) l0 count : forall l index,
  drop index l0 = l -> Z.of_nat (length l0) <= count ->
  (forall pre e next, l = pre ++ e :: next -> is_ok (get (e :: next)) = true) ->
  exists es, fill_loop get l index count = Ok es /\
    map se_addr es = seq index (length l) /\ Forall (entry_of get l0) es.
Proof.
  induction l as [|e l IH]; intros index Hd Hc Hg; [by exists []|].
  cbn [fill_loop]. pose proof (Hg [] e l eq_refl) as Hok.
  destruct (get (e :: l)) as [k| | |] eqn:Ek; try done. cbn [obind].
  assert (index < length l0)%nat as Hi.
  { destruct (decide (index < length l0)%nat); [done|]. rewrite drop_ge in Hd by lia. done. }
  rewrite (proj2 (Z.leb_gt _ _)) by lia.
  destruct (IH (S index)) as (es & -> & Ha & Hf).
  - rewrite <- Nat.add_1_r, <- drop_drop, Hd. done.
  - done.
  - intros pre e' next ->. by apply (Hg (e :: pre)).
  - cbn [obind]. exists (SortElem k index :: es). split; [done|]. simpl. rewrite Ha.
    split; [done|]. constructor; [|done]. exists (e :: l). by split_and!.
Qed.

Lemma addressed_tags l : (addressed l).*1 = seq 0 (length l).
Proof.
  unfold addressed. rewrite fmap_imap.
  rewrite (imap_ext _ (fun j _ => id j)) by done. by rewrite imap_seq_0, list_fmap_id.
Qed.

Lemma addressed_elem l i e : (i, e) ∈ addressed l <-> l !! i = Some e.
Proof.
  unfold addressed. rewrite elem_of_lookup_imap. split.
  - by intros (j & y & [= <- <-] & Hl).
  - intros Hl. by exists i, e.
Qed.

Lemma addressed_snd l : (addressed l).*2 = l.
Proof.
  unfold addressed. rewrite fmap_imap.
  rewrite (imap_ext _ (const id)) by done. by rewrite imap_const, list_fmap_id.
Qed.

(** The sorted chain and the sorted array describe the same elements. *)
Definition same_entry {K} (get : cursor -> outcome K) (l : list kvtree_elem)
    (x : nat * kvtree_elem) (e : sort_elem K) : Prop :=
  x.1 = se_addr e /\ exists next, get (x.2 :: next) = Ok (se_key e).

Lemma same_entries {K} (get : cursor -> outcome K) l chain (es : list (sort_elem K)) :
  Permutation chain (addressed l) -> chain.*1 = map se_addr es ->
  Forall (entry_of get l) es -> Forall2 (same_entry get l) chain es.
Proof.
  intros HP Ht Hes.
  assert (forall x, x ∈ chain -> l !! x.1 = Some x.2) as Hl.
  { intros [i e] Hx. rewrite HP in Hx. by apply addressed_elem in Hx. }
  clear HP. revert es Ht Hes. induction chain as [|[i e] chain IH]; intros [|s es] Ht Hes; try done.
  injection Ht as Hi Ht. apply Forall_cons_iff in Hes as [(next & Hd & Hne & Hg) Hes].
  constructor; [|apply IH; [intros; apply Hl; by right|done|done]].
  split; [done|]. specialize (Hl (i, e) (list_elem_of_here _ _)). simpl in *. subst i.
  destruct next as [|e' next]; [done|]. exists next.
  assert (e' = e) as ->; [|done].
  apply (f_equal (fun l => l !! 0%nat)) in Hd. rewrite lookup_drop, Nat.add_0_r, Hl in Hd. by injection Hd.
Qed.

Lemma StronglySorted_Forall2 {A B} (R : A -> A -> Prop) (S : B -> B -> Prop) (P : A -> B -> Prop) l k :
  (forall x y x' y', P x x' -> P y y' -> S x' y' -> R x y) ->
  Forall2 P l k -> StronglySorted S k -> StronglySorted R l.
Proof.
  intros HRS HP. induction HP as [|x x' l k Hx HP IH]; intros Hs; [constructor|].
  apply StronglySorted_inv in Hs as [Hs Hall]. constructor; [auto|].
  clear IH Hs. induction HP as [|y y' l k Hy HP IH]; constructor.
  - apply Forall_cons_iff in Hall as [Hxy _]. eauto.
  - apply Forall_cons_iff in Hall as [_ Hall]. auto.
Qed.

(** What a sort does: the same elements, ordered by the comparison of any keys
    [get] reads for them. *)
Lemma sort_with_spec {K} (get : cursor -> outcome K) fn t :
  Z.of_nat (length (lh_first t)) <= INT_MAX ->
  Z.of_nat (length (lh_first t)) * 16 <= malloc_max ->
  (forall pre e next, lh_first t = pre ++ e :: next -> is_ok (get (e :: next)) = true) ->
  (forall es, Forall (entry_of get (lh_first t)) es -> consistent fn es) ->
  exists l, sort_with get fn (Some t) = Ok (Some (KVTree l), KVTREE_SUCCESS) /\
    Permutation l (lh_first t) /\
    StronglySorted (fun e1 e2 => exists k1 k2 n1 n2 a1 a2,
      get (e1 :: n1) = Ok k1 /\ get (e2 :: n2) = Ok k2 /\
      fn (SortElem k1 a1) (SortElem k2 a2) <= 0) l.
Proof.
  intros Hlen Hmal Hget Hcons. unfold sort_with. rewrite size_spec by done.
  set (l0 := lh_first t) in *.
  destruct (malloc_array (Z.of_nat (length l0) * 16)) as [b ->]; [lia|].
  cbn [obind kvtree_elem_first]. fold l0.
  destruct (fill_loop_spec get l0 (Z.of_nat (length l0)) l0 0) as (es & -> & Ha & Hes); [done..|].
  cbn [obind].
  pose proof (qsort_perm fn es (Hcons _ Hes)) as HP.
  pose proof (qsort_sorted fn es (Hcons _ Hes)) as Hs.
  set (es' := qsort fn es) in *.
  assert (Permutation (map se_addr es') (seq 0 (length l0))) as HPa by (by rewrite HP, Ha).
  destruct (move_loop_spec (rev (map se_addr es')) (addressed l0)) as (chain & -> & HPc & Ht).
  - rewrite <- Permutation_rev, HPa. apply NoDup_seq.
  - rewrite addressed_tags. apply NoDup_seq.
  - intros a Hin. rewrite addressed_tags, <- HPa. by rewrite <- Permutation_rev in Hin.
  - cbn [obind]. eexists. split; [done|].
    rewrite rev_involutive in Ht.
    assert (filter (fun a => a ∉ rev (map se_addr es')) (addressed l0).*1 = []) as Ef.
    { destruct (filter _ _) as [|a r] eqn:E; [done|]. exfalso.
      assert (a ∈ a :: r) as Hin by (by left). rewrite <- E in Hin.
      apply list_elem_of_filter in Hin as [Hn Hin]. apply Hn.
      by rewrite <- Permutation_rev, HPa, <- addressed_tags. }
    rewrite Ef, app_nil_r in Ht. split; [by rewrite HPc, addressed_snd|].
    assert (Forall2 (same_entry get l0) chain es') as HF.
    { apply same_entries; [done|done|]. by rewrite HP. }
    apply (StronglySorted_Forall2 _ (cmp_le fn)
             (fun v e => exists next, get (v :: next) = Ok (se_key e)) _ es').
    + intros x y [k1 a1] [k2 a2] [n1 E1] [n2 E2] Hle. by exists k1, k2, n1, n2, a1, a2.
    + apply Forall2_fmap_l. eapply Forall2_impl; [|exact HF]. by intros [i x] e [_ Hg].
    + exact Hs.
Qed.

(** The order a sort leaves: strict on the strings, weak on the integers. *)
Definition key_before (direction : Z) (e1 e2 : kvtree_elem) : Prop :=
  match key e1, key e2 with
  | Some k1, Some k2 =>
      if direction =? KVTREE_SORT_DESCENDING then strcmp k2 k1 < 0 else strcmp k1 k2 < 0
  | _, _ => False
  end.

Definition key_int (e : kvtree_elem) : Z := match key e with Some k => atoi k | None => 0 end.

Definition int_before (direction : Z) (e1 e2 : kvtree_elem) : Prop :=
  if direction =? KVTREE_SORT_DESCENDING then key_int e2 <= key_int e1
  else key_int e1 <= key_int e2.

Lemma StronglySorted_strict {A B} (R S : A -> A -> Prop) (f : A -> B) l :
  (forall x y, x ∈ l -> y ∈ l -> f x <> f y -> R x y -> S x y) ->
  NoDup (map f l) -> StronglySorted R l -> StronglySorted S l.
Proof.
  induction l as [|x l IH]; intros HRS Hn Hs; [constructor|].
  apply StronglySorted_inv in Hs as [Hs Hall]. apply list.NoDup_cons in Hn as [Hx Hn].
  constructor.
  - apply IH; [|done|done]. intros y z Hy Hz. apply HRS; by right.
  - apply list.Forall_forall. intros y Hy. eapply list.Forall_forall in Hall; [|exact Hy].
    apply HRS; [by left|by right| |done]. intros E. apply Hx. rewrite E.
    by apply (list_elem_of_fmap_2 f).
Qed.

Lemma StronglySorted_in {A} (R S : A -> A -> Prop) l :
  (forall x y, x ∈ l -> y ∈ l -> R x y -> S x y) -> StronglySorted R l -> StronglySorted S l.
Proof.
  induction l as [|x l IH]; intros HRS Hs; [constructor|]. apply StronglySorted_inv in Hs as [Hs Hall].
  constructor; [apply IH; [|done]; intros y z Hy Hz; apply HRS; by right|].
  apply list.Forall_forall. intros y Hy. eapply list.Forall_forall in Hall; [|exact Hy].
  apply HRS; [by left|by right|done].
Qed.

Lemma wf_permutation t l : wf t -> Permutation l (lh_first t) -> wf (KVTree l) /\ KVTree l ≡ t.
Proof.
  intros Hwf HP. split.
  - apply wf_iff in Hwf as [Hn Hf]. apply wf_iff. cbn [lh_first]. by rewrite HP.
  - intros [|k p]; [by destruct t|]. destruct t as [l0]. cbn [lh_first] in HP.
    clear Hwf. induction HP as [|e l l' HP IH|e e' l|l l' l'' _ IH1 _ IH2]; [done| | |].
    + by rewrite !has_path_elem, IH.
    + rewrite !has_path_elem, !orb_assoc. f_equal. apply orb_comm.
    + by rewrite IH1, IH2.
Qed.

Definition fits (t : kvtree) (entry : Z) : Prop :=
  Z.of_nat (length (lh_first t)) <= INT_MAX /\
  Z.of_nat (length (lh_first t)) * entry <= malloc_max.

Lemma key_of_wf t e : wf t -> e ∈ lh_first t -> exists k, key e = Some k /\ nul_free k.
Proof.
  intros Hwf He. eapply wf_elem_in in He; [|done]. apply wf_elem_iff in He as [Hk _].
  destruct (key e) as [k|]; [by exists k|done].
Qed.

Lemma in_middle {A} (l pre next : list A) e : l = pre ++ e :: next -> e ∈ l.
Proof. intros ->. rewrite elem_of_app. right. by left. Qed.

Lemma entries_int t es :
  wf t -> Forall (entry_of kvtree_elem_key_int (lh_first t)) es ->
  forall x, x ∈ map se_key es -> x ∈ map key_int (lh_first t).
Proof.
  intros Hwf Hes x Hx. apply (list_elem_of_fmap_1 se_key) in Hx as (s & -> & Hs).
  eapply list.Forall_forall in Hes; [|exact Hs]. destruct Hes as ([|e next] & Hd & Hne & Hg); [done|].
  assert (e ∈ lh_first t) as He.
  { rewrite <- (take_drop (se_addr s) (lh_first t)), Hd, elem_of_app. right. by left. }
  apply list_elem_of_fmap. exists e. split; [|done].
  unfold key_int. simpl in Hg. destruct (key e); [|done]. by injection Hg.
Qed.

Lemma key_int_ok t pre e next :
  wf t -> lh_first t = pre ++ e :: next -> is_ok (kvtree_elem_key_int (e :: next)) = true.
Proof.
  intros Hwf El. destruct (key_of_wf t e Hwf (in_middle _ _ _ _ El)) as (k & Ek & _).
  unfold kvtree_elem_key_int. by rewrite Ek.
Qed.

(** Different keys of a tree compare as different. *)
Lemma strcmp_keys t x y :
  wf t -> x ∈ lh_first t -> y ∈ lh_first t -> key x <> key y ->
  exists kx ky, key x = Some kx /\ key y = Some ky /\ strcmp kx ky <> 0 /\ strcmp ky kx <> 0.
Proof.
  intros Hwf Hx Hy Hne. destruct (key_of_wf t x Hwf Hx) as (kx & Ex & Fx).
  destruct (key_of_wf t y Hwf Hy) as (ky & Ey & Fy). exists kx, ky.
  rewrite <- !Z.eqb_neq, !strcmp_eq0, (c_str_id kx), (c_str_id ky) by done.
  split_and!; [done|done|apply bool_decide_eq_false_2; congruence..].
Qed.

Lemma sort_spec t direction :
  wf t -> fits t 16 ->
  exists l, kvtree_sort (Some t) direction = Ok (Some (KVTree l), KVTREE_SUCCESS) /\
    Permutation l (lh_first t) /\ StronglySorted (key_before direction) l /\
    wf (KVTree l) /\ KVTree l ≡ t.
Proof.
  intros Hwf [Hlen Hmal]. unfold kvtree_sort.
  destruct (sort_with_spec (key_str (kvtree_size (Some t)))
              (if direction =? KVTREE_SORT_DESCENDING then kvtree_cmp_fn_str_desc
               else kvtree_cmp_fn_str_asc) t) as (l & E & HP & Hs); [done|done| | |].
  - intros pre e next El. destruct (key_of_wf t e Hwf (in_middle _ _ _ _ El)) as (k & Ek & _).
    unfold key_str, kvtree_elem_key. by rewrite Ek.
  - intros es _. destruct (_ =? _); [apply str_desc_consistent|apply str_asc_consistent].
  - destruct (wf_permutation t l Hwf HP) as [Hwf' Heq]. exists l. split_and!; [done..| |done|done].
    eapply (StronglySorted_strict _ _ key); [|by apply wf_iff in Hwf' as [? _]|exact Hs].
    intros x y Hx Hy Hne (k1 & k2 & n1 & n2 & a1 & a2 & E1 & E2 & Hle).
    rewrite HP in Hx, Hy.
    destruct (strcmp_keys t x y Hwf Hx Hy Hne) as (kx & ky & Ex & Ey & Hn & Hn').
    unfold key_before, key_str, kvtree_elem_key in *. rewrite Ex, Ey in *.
    injection E1 as <-. injection E2 as <-.
    revert Hle. destruct (direction =? _); intros Hle; unfold kvtree_cmp_fn_str_desc, kvtree_cmp_fn_str_asc in Hle;
      cbn [se_key] in Hle; lia.
Qed.

(** Sorting a well-formed tree by its keys succeeds and leaves the same
    elements, in strictly increasing order of the key strings (strictly
    decreasing with KVTREE_SORT_DESCENDING); the tree stays well-formed and
    equivalent to what it was. *)
Theorem kvtree_sort_correct t direction :
  wf t -> fits t 16 ->
  exists l, kvtree_sort (Some t) direction = Ok (Some (KVTree l), KVTREE_SUCCESS) /\
    Permutation l (lh_first t) /\ StronglySorted (key_before direction) l /\
    wf (KVTree l) /\ KVTree l ≡ t.
Proof. apply sort_spec. Qed.

Lemma sort_int_spec t direction :
  wf t -> fits t 16 -> no_overflow (map key_int (lh_first t)) ->
  exists l, kvtree_sort_int (Some t) direction = Ok (Some (KVTree l), KVTREE_SUCCESS) /\
    Permutation l (lh_first t) /\ StronglySorted (int_before direction) l /\
    wf (KVTree l) /\ KVTree l ≡ t.
Proof.
  intros Hwf [Hlen Hmal] Hno. unfold kvtree_sort_int.
  destruct (sort_with_spec kvtree_elem_key_int
              (if direction =? KVTREE_SORT_DESCENDING then kvtree_cmp_fn_int_desc
               else kvtree_cmp_fn_int_asc) t) as (l & E & HP & Hs); [done|done| | |].
  - intros pre e next. by apply key_int_ok.
  - intros es Hes. pose proof (entries_int t es Hwf Hes) as Hin.
    destruct (_ =? _); [apply int_desc_consistent|apply int_asc_consistent]; intros x y Hx Hy; auto.
  - destruct (wf_permutation t l Hwf HP) as [Hwf' Heq]. exists l. split_and!; [done..| |done|done].
    assert (forall x, x ∈ lh_first t -> forall k n, kvtree_elem_key_int (x :: n) = Ok k ->
              k = key_int x /\ key_int x ∈ map key_int (lh_first t)) as Hk.
    { intros x Hx k n. unfold kvtree_elem_key_int, key_int at 1.
      pose proof (list_elem_of_fmap_2 key_int _ _ Hx) as Hin.
      destruct (key x); [|done]. intros [= <-]. done. }
    eapply StronglySorted_in; [|exact Hs].
    intros x y Hx Hy (k1 & k2 & n1 & n2 & a1 & a2 & E1 & E2 & Hle). rewrite HP in Hx, Hy.
    apply Hk in E1 as [-> Hix]; [|done]. apply Hk in E2 as [-> Hiy]; [|done].
    pose proof (Hno _ _ Hix Hiy). pose proof (Hno _ _ Hiy Hix). unfold int_before.
    revert Hle. destruct (direction =? _); intros Hle; unfold kvtree_cmp_fn_int_desc, kvtree_cmp_fn_int_asc in Hle;
      cbn [se_key] in Hle; rewrite i32_id in Hle by int_lia; lia.
Qed.

(** When no difference of two keys read as integers overflows, sorting by
    integer keys leaves the same elements, ordered by the integers, and the tree
    well-formed and equivalent to what it was. *)
Theorem kvtree_sort_int_correct t direction :
  wf t -> fits t 16 -> no_overflow (map key_int (lh_first t)) ->
  exists l, kvtree_sort_int (Some t) direction = Ok (Some (KVTree l), KVTREE_SUCCESS) /\
    Permutation l (lh_first t) /\ StronglySorted (int_before direction) l /\
    wf (KVTree l) /\ KVTree l ≡ t.
Proof. apply sort_int_spec. Qed.

Lemma entry_keys t es :
  wf t -> map se_addr es = seq 0 (length (lh_first t)) ->
  Forall (entry_of kvtree_elem_key_int (lh_first t)) es ->
  map se_key es = map key_int (lh_first t).
Proof.
  intros Hwf Ha Hes. apply list_eq. intros i. change (map ?f ?l) with (f <$> l).
  rewrite !list_lookup_fmap.
  assert (length es = length (lh_first t)) as Hl
    by (rewrite <- (length_map se_addr), Ha; apply length_seq).
  destruct (es !! i) as [s|] eqn:Es.
  - destruct (lookup_lt_is_Some_2 (lh_first t) i) as [e Ee];
      [rewrite <- Hl; eauto using lookup_lt_Some|].
    eapply Forall_lookup_1 in Hes as (next & Hd & Hne & Hg); [|exact Es].
    assert (se_addr s = i) as Hi.
    { apply (f_equal (lookup i)) in Ha. change (map ?f ?l) with (f <$> l) in Ha.
      rewrite list_lookup_fmap, Es, lookup_seq_lt in Ha by eauto using lookup_lt_Some.
      by injection Ha. }
    rewrite Hi in Hd. rewrite (drop_S _ _ _ Ee) in Hd. subst next.
    rewrite Ee. simpl. f_equal. unfold key_int. simpl in Hg. destruct (key e); [|done].
    by injection Hg.
  - apply lookup_ge_None in Es. by rewrite (lookup_ge_None_2 (lh_first t)) by lia.
Qed.

(** [kvtree_list_int] gives the keys of a well-formed tree read as integers,
    in increasing order and as often as they occur, when no difference of two of
    them overflows; a NULL tree gives none. *)
Theorem kvtree_list_int_correct t :
  wf t -> fits t 4 -> no_overflow (map key_int (lh_first t)) ->
  kvtree_list_int None = Ok (KVTREE_SUCCESS, 0, []) /\
  exists v, kvtree_list_int (Some t) = Ok (KVTREE_SUCCESS, Z.of_nat (length v), v) /\
    Permutation v (map key_int (lh_first t)) /\ StronglySorted Z.le v.
Proof.
  intros Hwf [Hlen Hmal] Hno. split; [done|]. unfold kvtree_list_int. rewrite size_spec by done.
  destruct (Z.eqb_spec (Z.of_nat (length (lh_first t))) 0) as [Hz|Hz].
  { exists []. destruct t as [[|]]; [|done]. split_and!; [done|done|constructor]. }
  destruct (malloc_array (Z.of_nat (length (lh_first t)) * 4)) as [b ->]; [lia|].
  cbn [obind kvtree_elem_first].
  destruct (fill_loop_spec kvtree_elem_key_int (lh_first t) (Z.of_nat (length (lh_first t)))
              (lh_first t) 0) as (es & -> & Ha & Hes); [done|done| |].
  { intros pre e next. by apply key_int_ok. }
  cbn [obind]. rewrite (entry_keys t es Hwf Ha Hes).
  pose proof (int_asc_consistent id (map key_int (lh_first t))) as Hc.
  rewrite map_id in Hc. specialize (Hc Hno).
  eexists. split; [done|]. split; [exact (qsort_perm _ _ Hc)|].
  apply (StronglySorted_in (cmp_le (fun a b => i32 (a - b)))); [|exact (qsort_sorted _ _ Hc)].
  intros x y Hx Hy Hle. rewrite (qsort_perm _ _ Hc) in Hx, Hy. unfold cmp_le in Hle.
  pose proof (Hno _ _ Hx Hy). pose proof (Hno _ _ Hy Hx). rewrite i32_id in Hle by int_lia. lia.
Qed.

End correctness.

(** The integer comparisons order two keys the right way exactly when their
    difference fits an [int]: [INT_MAX] sorts before [-1]. *)
Theorem int_comparison_exact x y a b :
  INT_MIN <= x <= INT_MAX -> INT_MIN <= y <= INT_MAX ->
  ((kvtree_cmp_fn_int_asc (SortElem x a) (SortElem y b) <= 0 <-> x <= y)
     <-> INT_MIN <= x - y <= INT_MAX) /\
  ((kvtree_cmp_fn_int_desc (SortElem x a) (SortElem y b) <= 0 <-> y <= x)
     <-> INT_MIN <= y - x <= INT_MAX).
Proof.
  intros Hx Hy. unfold kvtree_cmp_fn_int_asc, kvtree_cmp_fn_int_desc, i32.
  cbn [se_key]. int_unfold. split; split; intros; Z.div_mod_to_equations; lia.
Qed.

Lemma int_comparison_exact_witness :
  ((kvtree_cmp_fn_int_asc (SortElem INT_MAX 0) (SortElem (-1) 1) <= 0 <-> INT_MAX <= -1)
     <-> INT_MIN <= INT_MAX - -1 <= INT_MAX) /\
  ((kvtree_cmp_fn_int_desc (SortElem INT_MAX 0) (SortElem (-1) 1) <= 0 <-> -1 <= INT_MAX)
     <-> INT_MIN <= -1 - INT_MAX <= INT_MAX).
Proof. apply int_comparison_exact; vm_compute; split; discriminate. Defined.

(** ** Examples *)
Section examples.
#[local] Existing Instance host_le.
#[local] Existing Instance InsertionSort.qsort_insertion.

Definition sample_hashes : kvtree :=
  KVTree [Elem (Some (str "10")) None; Elem (Some (str "9")) (Some kvtree_new);
          Elem (Some (str "2")) None].

Lemma fits_sample entry : 0 <= entry <= 16 -> fits sample_hashes entry.
Proof. intros H. unfold fits. simpl length. split; [vm_compute; discriminate|]. simpl malloc_max. lia. Qed.

Lemma sample_no_overflow : no_overflow (map key_int (lh_first sample_hashes)).
Proof.
  change (map key_int (lh_first sample_hashes)) with [10; 9; 2].
  intros x y Hx Hy. unfold INT_MAX. set_unfold. lia.
Qed.

Lemma kvtree_sort_correct_witness :
  kvtree_sort (Some sample_hashes) KVTREE_SORT_ASCENDING
    = Ok (Some (KVTree [Elem (Some (str "10")) None; Elem (Some (str "2")) None;
                        Elem (Some (str "9")) (Some kvtree_new)]), KVTREE_SUCCESS) /\
  exists l, kvtree_sort (Some sample_hashes) KVTREE_SORT_ASCENDING
              = Ok (Some (KVTree l), KVTREE_SUCCESS) /\
    Permutation l (lh_first sample_hashes) /\
    StronglySorted (key_before KVTREE_SORT_ASCENDING) l /\
    wf (KVTree l) /\ KVTree l ≡ sample_hashes.
Proof.
  split; [vm_compute; reflexivity|].
  apply kvtree_sort_correct; [wf_check|apply fits_sample; lia].
Defined.

Lemma kvtree_sort_int_correct_witness :
  kvtree_sort_int (Some sample_hashes) KVTREE_SORT_DESCENDING
    = Ok (Some sample_hashes, KVTREE_SUCCESS) /\
  exists l, kvtree_sort_int (Some sample_hashes) KVTREE_SORT_DESCENDING
              = Ok (Some (KVTree l), KVTREE_SUCCESS) /\
    Permutation l (lh_first sample_hashes) /\
    StronglySorted (int_before KVTREE_SORT_DESCENDING) l /\
    wf (KVTree l) /\ KVTree l ≡ sample_hashes.
Proof.
  split; [vm_compute; reflexivity|].
  apply kvtree_sort_int_correct; [wf_check|apply fits_sample; lia|apply sample_no_overflow].
Defined.

Lemma kvtree_list_int_correct_witness :
  kvtree_list_int (Some sample_hashes) = Ok (KVTREE_SUCCESS, 3, [2; 9; 10]) /\
  kvtree_list_int None = Ok (KVTREE_SUCCESS, 0, []) /\
  exists v, kvtree_list_int (Some sample_hashes) = Ok (KVTREE_SUCCESS, Z.of_nat (length v), v) /\
    Permutation v (map key_int (lh_first sample_hashes)) /\ StronglySorted Z.le v.
Proof.
  split; [vm_compute; reflexivity|].
  apply kvtree_list_int_correct; [wf_check|apply fits_sample; lia|apply sample_no_overflow].
Defined.

End examples.
