(* ===== verification/Util.v ===== *)
(** Typed values under a key: [src/src/kvtree_util.c] and [kvtree_atod] of
    [src/src/kvtree_helpers.c]. *)

From S2P Require Import Prelude CLib ByteOrder Kvtree KvtreeSpec KvtreeMap KvtreeMerge Pack Format.

Section util.
Context `{Libc}.

(** The string and the destination are given as [option] and as whether the
    pointer is not NULL; the value stored comes back with the code. *)
Definition kvtree_atod (s : option cstring) (val : bool) : Z * option double :=
  match s with
  | None => (KVTREE_FAILURE, None)
  | Some s =>
      if negb val then (KVTREE_FAILURE, None)
      else match strtod s with
           | Some value => (KVTREE_SUCCESS, Some value)
           | None => (KVTREE_FAILURE, None)
           end
  end.

(** *** Setters: unset the key, then set the value as a text *)
Definition kvtree_util_set_bytecount (hash : option kvtree) (key : cstring) (count : Z)
    : outcome (option kvtree * Z) :=
  let '(hash, _) := kvtree_unset hash (Some key) in
  let* (hash, _) := kvtree_setf hash None (str "%s %lu") [AStr key; AULong count] in
  Ok (hash, KVTREE_SUCCESS).

Definition kvtree_util_set_crc32 (hash : option kvtree) (key : cstring) (crc : Z)
    : outcome (option kvtree * Z) :=
  let '(hash, _) := kvtree_unset hash (Some key) in
  let* (hash, _) := kvtree_setf hash None (str "%s %#x") [AStr key; AUInt (u32 crc)] in
  Ok (hash, KVTREE_SUCCESS).

Definition kvtree_util_set_int (hash : option kvtree) (key : cstring) (value : Z)
    : outcome (option kvtree * Z) :=
  let '(hash, _) := kvtree_unset hash (Some key) in
  let '(hash, _) := kvtree_set_kv_int hash (Some key) value in
  Ok (hash, KVTREE_SUCCESS).

Definition kvtree_util_set_unsigned_long (hash : option kvtree) (key : cstring) (value : Z)
    : outcome (option kvtree * Z) :=
  let '(hash, _) := kvtree_unset hash (Some key) in
  let* (hash, _) := kvtree_setf hash None (str "%s %lu") [AStr key; AULong value] in
  Ok (hash, KVTREE_SUCCESS).

Definition kvtree_util_set_str (hash : option kvtree) (key : cstring) (value : option cstring)
    : outcome (option kvtree * Z) :=
  let '(hash, _) := kvtree_unset hash (Some key) in
  let '(hash, _) := kvtree_set_kv hash (Some key) value in
  Ok (hash, KVTREE_SUCCESS).

Definition kvtree_util_set_int64 (hash : option kvtree) (key : cstring) (value : Z)
    : outcome (option kvtree * Z) :=
  let '(hash, _) := kvtree_unset hash (Some key) in
  let* (hash, _) := kvtree_setf hash None (str "%s %lld") [AStr key; ALongLong value] in
  Ok (hash, KVTREE_SUCCESS).

Definition kvtree_util_set_double (hash : option kvtree) (key : cstring) (value : double)
    : outcome (option kvtree * Z) :=
  let '(hash, _) := kvtree_unset hash (Some key) in
  let* (hash, _) := kvtree_setf hash None (str "%s %f") [AStr key; ADouble value] in
  Ok (hash, KVTREE_SUCCESS).

Definition kvtree_util_set_ptr (hash : option kvtree) (key : cstring) (value : Z)
    : outcome (option kvtree * Z) :=
  let '(hash, _) := kvtree_unset hash (Some key) in
  let* (hash, _) := kvtree_setf hash None (str "%s %p") [AStr key; APtr value] in
  Ok (hash, KVTREE_SUCCESS).

(** *** Getters: the return code and the value stored through the pointer *)
Definition kvtree_util_get_bytecount (hash : option kvtree) (key : cstring) : Z * option Z :=
  let rc := KVTREE_FAILURE in
  match kvtree_get_val hash (Some key) with
  | Some val_str => (KVTREE_SUCCESS, Some (strtoul_0 val_str))
  | None => (rc, None)
  end.

Definition kvtree_util_get_crc32 (hash : option kvtree) (key : cstring) : Z * option Z :=
  let rc := KVTREE_FAILURE in
  match kvtree_get_val hash (Some key) with
  | Some val_str => (KVTREE_SUCCESS, Some (strtoul_0 val_str))
  | None => (rc, None)
  end.

Definition kvtree_util_get_int (hash : option kvtree) (key : cstring) : Z * option Z :=
  let rc := KVTREE_FAILURE in
  match kvtree_elem_get_first_val hash (Some key) with
  | Some val_str => (KVTREE_SUCCESS, Some (atoi val_str))
  | None => (rc, None)
  end.

Definition kvtree_util_get_unsigned_long (hash : option kvtree) (key : cstring) : Z * option Z :=
  let rc := KVTREE_FAILURE in
  match kvtree_get_val hash (Some key) with
  | Some val_str => (KVTREE_SUCCESS, Some (strtoul_0 val_str))
  | None => (rc, None)
  end.

Definition kvtree_util_get_str (hash : option kvtree) (key : cstring) : Z * option cstring :=
  let rc := KVTREE_FAILURE in
  match kvtree_get_val hash (Some key) with
  | Some val_str => (KVTREE_SUCCESS, Some val_str)
  | None => (rc, None)
  end.

Definition kvtree_util_get_int64 (hash : option kvtree) (key : cstring) : Z * option Z :=
  let rc := KVTREE_FAILURE in
  match kvtree_get_val hash (Some key) with
  | Some val_str => (KVTREE_SUCCESS, Some (strtoll_0 val_str))
  | None => (rc, None)
  end.

Definition kvtree_util_get_double (hash : option kvtree) (key : cstring) : Z * option double :=
  let rc := KVTREE_FAILURE in
  match kvtree_get_val hash (Some key) with
  | Some val_str =>
      let '(r, val_tmp) := kvtree_atod (Some val_str) true in
      if r =? KVTREE_SUCCESS then (KVTREE_SUCCESS, val_tmp) else (rc, None)
  | None => (rc, None)
  end.

Definition kvtree_util_get_ptr (hash : option kvtree) (key : cstring) : Z * option Z :=
  let rc := KVTREE_FAILURE in
  match kvtree_get_val hash (Some key) with
  | Some val_str =>
      match sscanf_p val_str with
      | Some val_tmp => (KVTREE_SUCCESS, Some val_tmp)
      | None => (rc, None)
      end
  | None => (rc, None)
  end.

(** ** The eight kinds of values, as one interface *)
Inductive setting :=
| SBytecount (n : Z)
| SCrc32 (n : Z)
| SInt (n : Z)
| SUnsignedLong (n : Z)
| SStr (s : cstring)
| SInt64 (n : Z)
| SDouble (d : double)
| SPtr (p : Z).

Definition util_set (hash : option kvtree) (key : cstring) (v : setting)
    : outcome (option kvtree * Z) :=
  match v with
  | SBytecount n => kvtree_util_set_bytecount hash key n
  | SCrc32 n => kvtree_util_set_crc32 hash key n
  | SInt n => kvtree_util_set_int hash key n
  | SUnsignedLong n => kvtree_util_set_unsigned_long hash key n
  | SStr s => kvtree_util_set_str hash key (Some s)
  | SInt64 n => kvtree_util_set_int64 hash key n
  | SDouble d => kvtree_util_set_double hash key d
  | SPtr p => kvtree_util_set_ptr hash key p
  end.

(** The getter for the kind of [v]. *)
Definition util_get (hash : option kvtree) (key : cstring) (v : setting) : Z * option setting :=
  match v with
  | SBytecount _ => let '(rc, x) := kvtree_util_get_bytecount hash key in (rc, SBytecount <$> x)
  | SCrc32 _ => let '(rc, x) := kvtree_util_get_crc32 hash key in (rc, SCrc32 <$> x)
  | SInt _ => let '(rc, x) := kvtree_util_get_int hash key in (rc, SInt <$> x)
  | SUnsignedLong _ =>
      let '(rc, x) := kvtree_util_get_unsigned_long hash key in (rc, SUnsignedLong <$> x)
  | SStr _ => let '(rc, x) := kvtree_util_get_str hash key in (rc, SStr <$> x)
  | SInt64 _ => let '(rc, x) := kvtree_util_get_int64 hash key in (rc, SInt64 <$> x)
  | SDouble _ => let '(rc, x) := kvtree_util_get_double hash key in (rc, SDouble <$> x)
  | SPtr _ => let '(rc, x) := kvtree_util_get_ptr hash key in (rc, SPtr <$> x)
  end.

(** The values of the C types. *)
Definition setting_ok (v : setting) : Prop :=
  match v with
  | SBytecount n | SUnsignedLong n => is_u64 n
  | SCrc32 n => is_u32 n
  | SInt n => is_int n
  | SInt64 n => is_i64 n
  | SStr _ | SDouble _ => True
  | SPtr p => is_u64 p
  end.

(** The text a value is stored as. *)
Definition setting_text (v : setting) : cstring :=
  match v with
  | SBytecount n | SUnsignedLong n => fmt_unsigned n
  | SCrc32 n => fmt_hex n
  | SInt n | SInt64 n => fmt_signed n
  | SStr s => c_str s
  | SDouble d => fmt_f d
  | SPtr p => fmt_p p
  end.

(** What a getter gives back: the value, except that a double went through its
    text with six decimals. *)
Definition setting_back (v : setting) : option setting :=
  match v with
  | SStr s => Some (SStr (c_str s))
  | SDouble d => SDouble <$> strtod (fmt_f d)
  | v => Some v
  end.

(** ** The tree after a set *)
Definition holds_value (t : kvtree) (key text : cstring) : Prop :=
  exists h, kvtree_get (Some t) (Some key) = Some (KVTree [Elem (Some text) h]) /\
    (h = None \/ h = Some kvtree_new).

Lemma holds_value_get t key text :
  holds_value t key text ->
  kvtree_get_val (Some t) (Some key) = Some text /\
  kvtree_elem_get_first_val (Some t) (Some key) = Some text.
Proof. intros (h & E & _). unfold kvtree_get_val, kvtree_elem_get_first_val. by rewrite E. Qed.

Definition only_key_changed (t t' : kvtree) (key : cstring) : Prop :=
  forall k, c_str key <> c_str k -> child t' k = child t k.

Lemma setf_value t key text fmt args :
  wf t -> nul_free text ->
  keys_of (tokens space (strdup fmt)) args = Ok [c_str key; text] ->
  exists t',
    (let* (hash, _) := kvtree_setf (kvtree_unset (Some t) (Some key)).1 None fmt args in
     Ok (hash, KVTREE_SUCCESS)) = Ok (Some t', KVTREE_SUCCESS) /\
    wf t' /\ holds_value t' key text /\ only_key_changed t t' key.
Proof.
  intros Hwf Ht Hks. rewrite unset_spec by done. cbn [fst].
  set (t0 := KVTree (without key t)). assert (wf t0) as Hwf0 by (unfold t0; auto with kvtree).
  rewrite (setf_ok t0 None _ _ _ Hwf0 Hks) by done. cbn [obind].
  eexists. split; [done|]. split; [by apply wf_set_path|].
  rewrite set_path_cons. cbn [set_path].
  assert (kvtree_get (Some t0) (Some (c_str key)) = None) as Hg.
  { rewrite child_get. unfold t0. by rewrite child_without, decide_True by (done || by rewrite c_str_idem). }
  assert (get_or_empty t0 (c_str key) = kvtree_new) as -> by (unfold get_or_empty; by rewrite Hg).
  split.
  - exists None. split; [|by left]. rewrite child_get, (child_proper _ key (c_str key)) by (by rewrite c_str_idem).
    rewrite <- child_get, get_put_ensure by done. unfold insert_child. by rewrite c_str_id.
  - intros k Hk. destruct (get_or_new_spec t0 (c_str key) Hwf0) as (_ & Hwe & Hge & Hch).
    rewrite child_put_child; [|done|].
    + rewrite decide_False by (by rewrite c_str_idem). rewrite Hch by (by rewrite c_str_idem).
      unfold t0. by rewrite child_without, decide_False.
    + rewrite child_get in Hge. destruct (child _ (c_str key)); [done|discriminate].
Qed.

Lemma set_kv_value t key v :
  wf t ->
  exists t',
    (let '(hash, _) := kvtree_set_kv (kvtree_unset (Some t) (Some key)).1 (Some key) (Some v) in
     Ok (hash, KVTREE_SUCCESS)) = Ok (Some t', KVTREE_SUCCESS) /\
    wf t' /\ holds_value t' key (c_str v) /\ only_key_changed t t' key.
Proof.
  intros Hwf. rewrite unset_spec by done. cbn [fst].
  set (t0 := KVTree (without key t)). assert (wf t0) as Hwf0 by (unfold t0; auto with kvtree).
  destruct (set_kv_spec t0 key v Hwf0) as (t' & -> & Hwf' & Hch).
  exists t'. split_and!; [done|done| |].
  - exists (Some kvtree_new). split; [|by right]. rewrite child_get, Hch, decide_True by done. simpl mjoin.
    assert (kvtree_get (Some t0) (Some key) = None) as ->; [|done].
    rewrite child_get. unfold t0. by rewrite child_without, decide_True.
  - intros k Hk. rewrite Hch, decide_False by done. unfold t0.
    by rewrite child_without, decide_False.
Qed.

(** Evaluate the comparisons of a token with the supported formats. *)
Ltac eval_strcmp :=
  repeat match goal with
  | |- context [strcmp ?a ?b =? 0] =>
      let v := eval vm_compute in (strcmp a b =? 0) in change (strcmp a b =? 0) with v
  end.

Lemma next_key_ok token key args args' :
  convert token args = Ok (key, args') -> (length key < KVTREE_MAX_LINE)%nat ->
  next_key token args = Ok (key, args').
Proof.
  intros E Hl. unfold next_key. rewrite E. cbn [obind].
  by rewrite (proj2 (Nat.leb_gt _ _)).
Qed.

Lemma keys_of_two fmt t1 t2 key text a :
  tokens space (strdup fmt) = [t1; t2] ->
  convert t1 [AStr key; a] = Ok (c_str key, [a]) -> (strlen key < KVTREE_MAX_LINE)%nat ->
  convert t2 [a] = Ok (text, []) -> (length text < KVTREE_MAX_LINE)%nat ->
  keys_of (tokens space (strdup fmt)) [AStr key; a] = Ok [c_str key; text].
Proof.
  intros -> H1 L1 H2 L2. cbn [keys_of]. rewrite (next_key_ok _ _ _ _ H1 L1). cbn [obind].
  by rewrite (next_key_ok _ _ _ _ H2 L2).
Qed.

Ltac util_keys :=
  eapply keys_of_two; [vm_compute; reflexivity|unfold convert; eval_strcmp; reflexivity|done
                      |unfold convert; eval_strcmp; reflexivity|].

(** Every setter leaves the text of its value as the only value of the key. *)
Lemma util_set_spec t key v :
  wf t -> setting_ok v -> (strlen key < KVTREE_MAX_LINE)%nat ->
  exists t', util_set (Some t) key v = Ok (Some t', KVTREE_SUCCESS) /\
    wf t' /\ holds_value t' key (setting_text v) /\ only_key_changed t t' key.
Proof.
  intros Hwf Hok Hk.
  assert (forall text fmt a, nul_free text ->
    keys_of (tokens space (strdup fmt)) [AStr key; a] = Ok [c_str key; text] ->
    exists t',
      (let '(hash, _) := kvtree_unset (Some t) (Some key) in
       let* (hash, _) := kvtree_setf hash None fmt [AStr key; a] in Ok (hash, KVTREE_SUCCESS))
        = Ok (Some t', KVTREE_SUCCESS) /\
      wf t' /\ holds_value t' key text /\ only_key_changed t t' key) as Hsetf.
  { intros text fmt a Ht Hks. destruct (setf_value t key text fmt [AStr key; a] Hwf Ht Hks)
      as (t' & E & Hrest). exists t'. by destruct (kvtree_unset (Some t) (Some key)). }
  assert (forall val, exists t',
      (let '(hash, _) := kvtree_unset (Some t) (Some key) in
       let '(hash, _) := kvtree_set_kv hash (Some key) (Some val) in Ok (hash, KVTREE_SUCCESS))
        = Ok (Some t', KVTREE_SUCCESS) /\
      wf t' /\ holds_value t' key (c_str val) /\ only_key_changed t t' key) as Hkv.
  { intros val. destruct (set_kv_value t key val Hwf) as (t' & E & Hrest).
    exists t'. by destruct (kvtree_unset (Some t) (Some key)). }
  destruct v as [n|n|n|n|s|n|d|p]; simpl in Hok.
  - apply Hsetf; [apply fmt_unsigned_nul_free|]. util_keys.
    pose proof (fmt_unsigned_length n). unfold KVTREE_MAX_LINE; simpl setting_text; lia.
  - apply Hsetf; [apply fmt_hex_nul_free|]. rewrite u32_id by done. util_keys.
    pose proof (fmt_hex_length n). unfold KVTREE_MAX_LINE; simpl setting_text; lia.
  - destruct (Hkv (fmt_signed n)) as (t' & E & Hrest).
    rewrite c_str_id in Hrest by apply fmt_signed_nul_free. by exists t'.
  - apply Hsetf; [apply fmt_unsigned_nul_free|]. util_keys.
    pose proof (fmt_unsigned_length n). unfold KVTREE_MAX_LINE; simpl setting_text; lia.
  - apply Hkv.
  - apply Hsetf; [apply fmt_signed_nul_free|]. util_keys.
    pose proof (fmt_signed_length n). unfold KVTREE_MAX_LINE; simpl setting_text; lia.
  - apply Hsetf; [apply fmt_f_nul_free|]. util_keys. apply fmt_f_length.
  - apply Hsetf; [apply fmt_p_nul_free|]. util_keys. apply fmt_p_length.
Qed.

(** ** Properties *)

(** C20. For each of the eight kinds of values: setting a key of a well-formed
    hash replaces whatever the key had, changes no other key and succeeds, and
    the getter of that kind then succeeds with the value that was set.  (A
    double comes back as the double its text with six decimals reads as; the key
    fits the buffer of [kvtree_setf].) *)
Theorem util_set_get t key v v' :
  wf t -> setting_ok v -> (strlen key < KVTREE_MAX_LINE)%nat -> setting_back v = Some v' ->
  exists t', util_set (Some t) key v = Ok (Some t', KVTREE_SUCCESS) /\ wf t' /\
    util_get (Some t') key v = (KVTREE_SUCCESS, Some v') /\ only_key_changed t t' key.
Proof.
  intros Hwf Hok Hk Hb. destruct (util_set_spec t key v Hwf Hok Hk) as (t' & E & Hwf' & Hv & Ho).
  exists t'. split_and!; [done|done| |done].
  apply holds_value_get in Hv as [Hv1 Hv2].
  destruct v as [n|n|n|n|s|n|d|p]; simpl in Hb, Hok, Hv1, Hv2;
    cbn [util_get];
    unfold kvtree_util_get_bytecount, kvtree_util_get_crc32, kvtree_util_get_int,
      kvtree_util_get_unsigned_long, kvtree_util_get_str, kvtree_util_get_int64,
      kvtree_util_get_double, kvtree_util_get_ptr;
    rewrite ?Hv1, ?Hv2; try injection Hb as <-.
  - by rewrite strtoul_fmt_unsigned.
  - rewrite strtoul_fmt_hex; [done|]. int_lia.
  - by rewrite atoi_fmt_signed.
  - by rewrite strtoul_fmt_unsigned.
  - done.
  - by rewrite strtoll_fmt_signed.
  - unfold kvtree_atod. cbn [negb]. destruct (strtod (fmt_f d)) as [d'|]; [|done].
    cbn [Z.eqb KVTREE_SUCCESS] in *. by injection Hb as <-.
  - by rewrite sscanf_fmt_p.
Qed.

(** The getters fail and store nothing for a key that is not set.  All but
    [kvtree_util_get_int] also fail for a key with more than one value:
    [kvtree_util_get_int] reads the first. *)
Theorem util_get_errors t key v :
  wf t ->
  (kvtree_get (Some t) (Some key) = None -> util_get (Some t) key v = (KVTREE_FAILURE, None)) /\
  (forall e1 e2 l, kvtree_get (Some t) (Some key) = Some (KVTree (e1 :: e2 :: l)) ->
     Z.of_nat (length (e1 :: e2 :: l)) <= INT_MAX ->
     match v with
     | SInt _ => util_get (Some t) key v
                   = match Kvtree.key e1 with Some k => (KVTREE_SUCCESS, Some (SInt (atoi k)))
                                       | None => (KVTREE_FAILURE, None) end
     | _ => util_get (Some t) key v = (KVTREE_FAILURE, None)
     end).
Proof.
  intros Hwf. split.
  - intros Hg. destruct v; cbn [util_get];
      unfold kvtree_util_get_bytecount, kvtree_util_get_crc32, kvtree_util_get_int,
        kvtree_util_get_unsigned_long, kvtree_util_get_str, kvtree_util_get_int64,
        kvtree_util_get_double, kvtree_util_get_ptr, kvtree_get_val, kvtree_elem_get_first_val;
      by rewrite Hg.
  - intros e1 e2 l Hg Hl.
    assert (kvtree_get_val (Some t) (Some key) = None) as Hv.
    { unfold kvtree_get_val. rewrite Hg, size_spec by done. cbn [lh_first length].
      by rewrite (proj2 (Z.eqb_neq _ _)) by lia. }
    destruct v; cbn [util_get];
      unfold kvtree_util_get_bytecount, kvtree_util_get_crc32, kvtree_util_get_int,
        kvtree_util_get_unsigned_long, kvtree_util_get_str, kvtree_util_get_int64,
        kvtree_util_get_double, kvtree_util_get_ptr; rewrite ?Hv; try done.
    unfold kvtree_elem_get_first_val. rewrite Hg. simpl. by destruct (Kvtree.key e1).
Qed.

End util.

Lemma util_set_get_witness :
  exists t', @util_set libc_sample (Some sample_hash) (str "RANKS") (@SInt64 libc_sample (-7))
               = Ok (Some t', KVTREE_SUCCESS) /\ wf t' /\
    @util_get libc_sample (Some t') (str "RANKS") (@SInt64 libc_sample (-7))
      = (KVTREE_SUCCESS, Some (@SInt64 libc_sample (-7))) /\
    only_key_changed sample_hash t' (str "RANKS").
Proof.
  apply (@util_set_get libc_sample).
  - wf_check.
  - split; vm_compute; [discriminate|reflexivity].
  - vm_compute. lia.
  - reflexivity.
Defined.

Lemma util_get_errors_witness :
  wf sample_hash /\
  @util_get libc_sample (Some sample_hash) (str "FILE") (@SInt libc_sample 0) = (KVTREE_FAILURE, None) /\
  @util_get libc_sample (Some sample_hash) (str "RANK") (@SBytecount libc_sample 0)
    = (KVTREE_FAILURE, None) /\
  @util_get libc_sample (Some sample_hash) (str "RANK") (@SInt libc_sample 0)
    = (KVTREE_SUCCESS, Some (@SInt libc_sample 1)).
Proof.
  assert (wf sample_hash) as Hwf by wf_check. split; [exact Hwf|].
  split; [|split].
  - apply (@util_get_errors libc_sample sample_hash (str "FILE") (SInt 0) Hwf).
    vm_compute. reflexivity.
  - apply (proj2 (@util_get_errors libc_sample sample_hash (str "RANK") (SBytecount 0) Hwf)
             (Elem (Some (str "1")) (Some kvtree_new)) (Elem (Some (str "0")) (Some kvtree_new)) []).
    + vm_compute. reflexivity.
    + vm_compute. discriminate.
  - apply (proj2 (@util_get_errors libc_sample sample_hash (str "RANK") (SInt 0) Hwf)
             (Elem (Some (str "1")) (Some kvtree_new)) (Elem (Some (str "0")) (Some kvtree_new)) []).
    + vm_compute. reflexivity.
    + vm_compute. discriminate.
Defined.
