(* ===== verification/Paths.v ===== *)
(** Trees as sets of paths: what a change at the end of a pointer does to the
    paths of the whole tree, and that a tree with fewer paths packs into fewer
    bytes.  The exchange of trees between processes (Exchange) is proved in these
    terms. *)

From S2P Require Import Prelude CLib ByteOrder Kvtree KvtreeSpec KvtreeMap KvtreeMerge Pack Format.

Notation path := (list cstring).

(** ** Grafting *)

(** The paths of a tree that has [F] at the end of [q]. *)
Fixpoint graft (q : path) (F : path -> bool) (p : path) : bool :=
  match q, p with
  | [], _ => F p
  | _ :: _, [] => true
  | k :: q, k' :: p => bool_decide (c_str k = c_str k') && graft q F p
  end.

(** [t'] is [t] with the paths [G] added. *)
Definition adds (t : kvtree) (G : path -> bool) (t' : kvtree) : Prop :=
  wf t' /\ forall p, has_path t' p = has_path t p || G p.

Definition leaf (p : path) : bool := match p with [] => true | _ => false end.

Lemma has_path_opt_None p : has_path_opt None p = leaf p.
Proof. done. Qed.

Lemma graft_nil q F : F [] = true -> graft q F [] = true.
Proof. by destruct q. Qed.

Lemma graft_app q1 q2 F p : graft (q1 ++ q2) F p = graft q1 (graft q2 F) p.
Proof.
  revert p. induction q1 as [|k q1 IH]; intros p; [done|].
  destruct p as [|k' p]; [done|]. cbn [app graft]. by rewrite IH.
Qed.

Lemma graft_or q F G p : graft q (fun p => F p || G p) p = graft q F p || graft q G p.
Proof.
  revert p. induction q as [|k q IH]; intros p; [done|]. destruct p as [|k' p]; [done|].
  cbn [graft]. rewrite IH. by destruct (bool_decide _).
Qed.

Lemma graft_ext q F G p : (forall p, F p = G p) -> graft q F p = graft q G p.
Proof.
  intros E. revert p. induction q as [|k q IH]; intros p; [done|]. destruct p as [|k' p]; [done|].
  cbn [graft]. by rewrite IH.
Qed.

Lemma adds_trans t G t1 G1 t2 : adds t G t1 -> adds t1 G1 t2 -> adds t (fun p => G p || G1 p) t2.
Proof. intros [_ H1] [Hwf H2]. split; [done|]. intros p. by rewrite H2, H1, orb_assoc. Qed.

Lemma adds_ext t G G' t' :
  (forall p, has_path t p || G p = has_path t p || G' p) -> adds t G t' -> adds t G' t'.
Proof. intros E [Hwf Hp]. split; [done|]. intros p. by rewrite Hp. Qed.

Lemma has_path_cons t k p :
  wf t ->
  has_path t (k :: p) = match kvtree_get (Some t) (Some k) with
                        | Some c => has_path c p
                        | None => leaf p && bool_decide (is_Some (child t k))
                        end.
Proof.
  intros Hwf. rewrite has_path_child, child_get by done.
  destruct (child t k) as [[c|]|]; simpl; [done| |by rewrite andb_false_r].
  by destruct p.
Qed.

Lemma put_child_path t k c c' p :
  wf t -> wf c' -> kvtree_get (Some t) (Some k) = Some c ->
  has_path (put_child k c' t) p =
    match p with
    | [] => true
    | k' :: p' => if bool_decide (c_str k = c_str k') then has_path c' p' else has_path t p
    end.
Proof.
  intros Hwf Hc Hg. destruct p as [|k' p]; [done|].
  rewrite !has_path_child by auto with kvtree. rewrite child_put_child; [|done|].
  - case_decide; case_bool_decide; done.
  - rewrite child_get in Hg. destruct (child t k); [by eexists|done].
Qed.

(** A change behind a pointer. *)
Lemma at_ptr_adds {A} q (f : option kvtree -> option kvtree * A) G r : forall t c c',
  wf t -> kvtree_deref t q = Some c -> f (Some c) = (Some c', r) -> adds c G c' -> G [] = true ->
  exists t', at_ptr (Some t) (Some q) f = (Some t', r) /\ adds t (graft q G) t' /\
             kvtree_deref t' q = Some c'.
Proof.
  intros t c c' Hwf Hd Hf Hadd HG.
  assert (at_ptr (Some t) (Some q) f = (Some (kvtree_store t q c'), r)) as E.
  { unfold at_ptr. by rewrite Hd, Hf. }
  exists (kvtree_store t q c'). split; [done|]. clear E Hf.
  split; [|by eapply deref_store]. revert t Hwf Hd.
  induction q as [|k q IH]; intros t Hwf Hd.
  - injection Hd as <-. done.
  - apply deref_cons in Hd as (d & Hg & Hd). rewrite (store_cons _ _ _ _ _ Hg).
    pose proof (wf_get _ _ _ Hwf Hg) as Hwd. destruct (IH d Hwd Hd) as [Hws Hp].
    split; [auto with kvtree|]. intros p. rewrite (put_child_path t k d) by done.
    destruct p as [|k' p]; [done|]. cbn [graft]. case_bool_decide as Ek.
    + rewrite Hp, (has_path_cons t k') by done.
      unfold kvtree_get in Hg |- *. cbn [kvtree_elem_get] in *.
      assert (elem_get_loop k' (lh_first t) = elem_get_loop k (lh_first t)) as ->; [|by rewrite Hg].
      clear -Ek. induction (lh_first t) as [|e l IHl]; [done|]. cbn [elem_get_loop].
      assert (elem_matches k' e = elem_matches k e) as ->; [|by rewrite IHl].
      unfold elem_matches. destruct (key e); [|done]. by rewrite !strcmp_eq0, Ek.
    + cbn [andb]. by rewrite orb_false_r.
Qed.

Lemma set_kv_adds t k v :
  wf t ->
  exists t' c, kvtree_set_kv (Some t) (Some k) (Some v) = (Some t', Some [k; v]) /\
    adds t (graft [k; v] leaf) t' /\ kvtree_deref t' [k; v] = Some c /\ wf c.
Proof.
  intros Hwf. destruct (get_or_new_spec t k Hwf) as (E & Hwf1 & Hg1 & _).
  set (c0 := default kvtree_new (kvtree_get (Some t) (Some k))) in *.
  assert (wf c0) as Hc0.
  { unfold c0. destruct (kvtree_get _ _) eqn:Hg; simpl; eauto using wf_get with kvtree. }
  destruct (get_or_new_spec c0 v Hc0) as (E2 & Hwf2 & Hg2 & _).
  destruct (at_ptr_adds [k] (fun h => get_or_new h (Some v)) (graft [v] leaf) (Some [v])
              (ensure_child k t) c0 (ensure_child v c0)) as (t' & E3 & [Hwf' Hp] & Hd); [done| |done| |done|].
  { cbn [kvtree_deref]. by rewrite Hg1. }
  { split; [done|]. intros p. rewrite get_or_new_path by done. f_equal.
    destruct p as [|k' p]; [done|]. rewrite has_path_elem. cbn [hash has_path_opt graft].
    rewrite has_path_new, has_path_opt_None. unfold elem_matches. cbn [key].
    rewrite strcmp_eq0. by destruct (bool_decide _), p. }
  exists t', (default kvtree_new (kvtree_get (Some c0) (Some v))). split_and!.
  - unfold kvtree_set_kv. fold (get_or_new (Some t) (Some k)). rewrite E.
    unfold get_or_new in E3. by rewrite E3.
  - split; [done|]. intros p. rewrite Hp, get_or_new_path by done. rewrite <- orb_assoc. f_equal.
    destruct p as [|k' p]; [done|]. rewrite has_path_elem. cbn [hash has_path_opt graft].
    rewrite has_path_new, has_path_opt_None. unfold elem_matches. cbn [key].
    rewrite strcmp_eq0. by destruct (bool_decide _), p.
  - cbn [kvtree_deref] in Hd |- *. destruct (kvtree_get (Some t') (Some k)) as [c|]; [|done].
    injection Hd as ->. cbn [kvtree_deref]. by rewrite Hg2.
  - destruct (kvtree_get (Some c0) (Some v)) eqn:Hg; simpl; eauto using wf_get with kvtree.
Qed.

Lemma merge_adds t h : wf t -> exists t' rc, kvtree_merge (Some t) h = (Some t', rc) /\
  adds t (has_path_opt h) t'.
Proof.
  intros Hwf. destruct h as [h|].
  - destruct (merge_spec h t Hwf) as (t' & E & Ht & Hp). by exists t', (rc_of (keys_ok h)).
  - exists t, KVTREE_SUCCESS. split; [done|]. split; [done|]. intros [|k p]; [done|].
    cbn [has_path_opt]. by rewrite orb_false_r.
Qed.

Definition has_key (e : kvtree_elem) : Prop := is_Some (key e).

Lemma wf_has_keys t : wf t -> Forall has_key (lh_first t).
Proof.
  intros [_ Hl]%wf_iff. eapply Forall_impl; [|exact Hl]. intros e [Hk _]%wf_elem_iff.
  unfold has_key. destruct (key e); [by eexists|done].
Qed.

Lemma graft_leaf q1 q2 F p : F [] = true -> graft q1 leaf p = true -> graft (q1 ++ q2) F p = true.
Proof.
  intros HF. revert p. induction q1 as [|k q1 IH]; intros [|k' p]; cbn [app graft leaf]; try done.
  - intros _. by apply graft_nil.
  - rewrite !andb_true_iff. intros [-> Hp]. auto.
Qed.

Lemma graft_leaf_or q1 q2 F p :
  F [] = true -> graft q1 leaf p || graft (q1 ++ q2) F p = graft (q1 ++ q2) F p.
Proof.
  intros HF. destruct (graft q1 leaf p) eqn:E; [|done]. by rewrite (graft_leaf _ q2 F _ HF E).
Qed.

(** One level of keys, then a merge behind the pointer. *)
Lemma set_kv_merge t k n h :
  wf t ->
  exists t' rc, (let '(t1, p) := kvtree_set_kv_int (Some t) (Some k) n in
              at_ptr t1 p (fun c => kvtree_merge c h)) = (Some t', rc) /\
    adds t (graft [k; fmt_signed n] (has_path_opt h)) t'.
Proof.
  intros Hwf. unfold kvtree_set_kv_int.
  destruct (set_kv_adds t k (fmt_signed n) Hwf) as (t1 & c & -> & [Hwf1 Hp1] & Hd & Hc).
  destruct (merge_adds c h Hc) as (c' & rc & Em & Ha).
  destruct (at_ptr_adds [k; fmt_signed n] (fun c => kvtree_merge c h) (has_path_opt h) rc t1 c c')
    as (t' & E & [Hwf' Hp'] & _); [done..|apply has_path_opt_nil|].
  exists t', rc. split; [done|]. split; [done|]. intros p. rewrite Hp', Hp1, <- orb_assoc. f_equal.
  apply (graft_leaf_or [k; fmt_signed n] []). apply has_path_opt_nil.
Qed.

(** ** Fewer paths, fewer bytes *)
Definition elems_size (l : list kvtree_elem) : nat := length (concat (map encode_elem l)).

Lemma elems_size_cons e l : elems_size (e :: l) = (length (encode_elem e) + elems_size l)%nat.
Proof. unfold elems_size. simpl. by rewrite length_app. Qed.

Lemma elems_size_perm l l' : Permutation l l' -> elems_size l = elems_size l'.
Proof. induction 1; rewrite ?elems_size_cons in *; lia. Qed.

Lemma elems_size_le l : forall l',
  NoDup (map key l) ->
  (forall e, e ∈ l -> exists e', e' ∈ l' /\ key e' = key e /\
                        (length (encode_elem e) <= length (encode_elem e'))%nat) ->
  (elems_size l <= elems_size l')%nat.
Proof.
  induction l as [|e l IH]; intros l' Hn Hl; [unfold elems_size; simpl; lia|].
  apply list.NoDup_cons in Hn as [He Hn].
  destruct (Hl e (list_elem_of_here _ _)) as (e' & He' & Hk & Hle).
  apply elem_of_Permutation in He' as [l2 HP]. rewrite (elems_size_perm _ _ HP), !elems_size_cons.
  assert (elems_size l <= elems_size l2)%nat; [|lia]. apply IH; [done|]. intros e2 He2.
  destruct (Hl e2 (list_elem_of_further _ _ _ He2)) as (e3 & He3 & Hk3 & Hle3).
  exists e3. split_and!; [|done..]. rewrite HP in He3. apply elem_of_cons in He3 as [->|]; [|done].
  exfalso. apply He. rewrite <- Hk, Hk3. by apply (list_elem_of_fmap_2 key).
Qed.

Lemma has_path_key t e k : wf t -> e ∈ lh_first t -> key e = Some k ->
  child t k = Some (hash e) /\ c_str k = k.
Proof.
  intros Hwf He Hk. assert (nul_free k) as Hnf.
  { eapply wf_elem_in in He; [|done]. apply wf_elem_iff in He as [Hn _]. by rewrite Hk in Hn. }
  split; [|by apply c_str_id]. apply child_elem; [done|]. rewrite (c_str_id k) by done.
  destruct e as [k0 h]. simpl in *. by subst k0.
Qed.

Definition sub_paths (t u : kvtree) : Prop := forall p, has_path t p = true -> has_path u p = true.

Lemma sub_paths_opt_size c h :
  wf c -> (forall p, has_path c p = true -> has_path_opt h p = true) ->
  (forall u, h = Some u -> length (encode c) <= length (encode u))%nat ->
  (length (encode c) <= length (encode_opt h))%nat.
Proof.
  intros Hwf Hp Hu. destruct h as [u|]; [by apply Hu|]. destruct c as [[|e l]].
  - cbn [encode_opt]. rewrite encode_eq, length_app, !be_split_length. simpl. lia.
  - destruct (key e) as [k|] eqn:Hk.
    + destruct (has_path_key (KVTree (e :: l)) e k Hwf (list_elem_of_here _ _) Hk) as [Hc _].
      specialize (Hp [k]). rewrite has_path_child, Hc, has_path_opt_nil in Hp by done.
      by specialize (Hp eq_refl).
    + apply wf_elem_in with (e := e) in Hwf; [|by left]. apply wf_elem_iff in Hwf as [Hn _].
      by rewrite Hk in Hn.
Qed.

Lemma sub_paths_size t : forall u,
  wf t -> wf u -> sub_paths t u -> (tree_pack_size t <= tree_pack_size u)%nat.
Proof.
  induction t as [l IH] using kvtree_rect'. intros [lu] Hwf Hwu Hsub.
  rewrite !tree_pack_size_encode, !encode_eq, !length_app, !be_split_length.
  apply Nat.add_le_mono_l, elems_size_le; [by apply wf_iff in Hwf as [? _]|]. intros e He.
  pose proof (wf_elem_in _ _ Hwf He) as [Hk Hh]%wf_elem_iff.
  destruct (key e) as [k|] eqn:Ek; [|done].
  destruct (has_path_key _ _ _ Hwf He Ek) as [Hc Hck].
  assert (forall p, has_path_opt (hash e) p = true -> has_path (KVTree lu) (k :: p) = true) as Hp.
  { intros p Hp. apply Hsub. by rewrite has_path_child, Hc by done. }
  destruct (child (KVTree lu) k) as [h|] eqn:Hcu.
  2:{ specialize (Hp []). rewrite has_path_child, Hcu, has_path_opt_nil in Hp by done.
      by specialize (Hp eq_refl). }
  exists (Elem (Some k) h). split_and!; [apply child_elem in Hcu; [|done]; by rewrite Hck in Hcu|done|].
  destruct e as [k0 he]. simpl in Ek, Hh. subst k0. rewrite !encode_elem_eq, !length_app.
  apply Nat.add_le_mono_l. destruct he as [c|].
  - apply sub_paths_opt_size; [done| |].
    + intros p Hpc. specialize (Hp p Hpc). by rewrite has_path_child, Hcu in Hp by done.
    + intros u ->. eapply list.Forall_forall in IH; [|exact He]. simpl in IH.
      rewrite <- !tree_pack_size_encode. apply IH; [done| |].
      * by apply (wf_child _ _ _ Hwu Hcu).
      * intros p Hpc. specialize (Hp p Hpc). by rewrite has_path_child, Hcu in Hp by done.
  - destruct h as [[lh]|]; cbn [encode_opt]; rewrite ?encode_eq, ?length_app, !be_split_length; lia.
Qed.

(** A tree that packs into an [int] has counts that do. *)
Lemma small_size t : Z.of_nat (tree_pack_size t) <= INT_MAX -> small t = true.
Proof.
  induction t as [l IH] using kvtree_rect'. rewrite tree_pack_size_encode, encode_eq, small_eq.
  rewrite length_app, be_split_length. intros Hl.
  assert (length l <= length (concat (map encode_elem l)) /\
          forallb (fun e => small_opt (hash e)) l = true)%nat as [Hlen Hs].
  { assert (Z.of_nat (length (concat (map encode_elem l))) <= INT_MAX) as Hc by lia. clear Hl.
    induction IH as [|e l He _ IHl]; [done|]. cbn [map concat forallb length] in *.
    rewrite length_app in *. destruct IHl as [Hlen ->]; [lia|].
    pose proof (encode_elem_pos e). split; [lia|]. rewrite andb_true_r.
    destruct e as [k [h|]]; [|done]. apply He. rewrite tree_pack_size_encode.
    rewrite encode_elem_eq, length_app in Hc. cbn [encode_opt] in Hc. lia. }
  rewrite Hs, andb_true_r. apply Z.leb_le. lia.
Qed.

(** Ranks and their keys. *)
Lemma fmt_inj a b : is_int a -> is_int b -> fmt_signed a = fmt_signed b -> a = b.
Proof. intros Ha Hb E. by rewrite <- (atoi_fmt_signed a), E, atoi_fmt_signed. Qed.

Lemma c_str_fmt n : c_str (fmt_signed n) = fmt_signed n.
Proof. apply c_str_id, fmt_signed_nul_free. Qed.
