(* ===== verification/Gather.v ===== *)
(** Gather and scatter files: [kvtree_write_to_gather] and
    [kvtree_read_scatter_single] of [src/src/kvtree.c].

    A tree with one element per rank is written to a map file, [prefix], and to
    part files [prefix.0.<n>], each with the elements of some ranks.  The reader
    looks through the directory of the prefix for the part files.

    What is outside: the POSIX regular expressions (class [Regex]) and what a
    directory holds (class [Directory]).  The model of files (Io) knows a file by
    one name, so it stands for prefixes that name their directory. *)

From S2P Require Import Prelude CLib ByteOrder Kvtree KvtreeSpec KvtreeMap KvtreeMerge Pack.
From S2P Require Import Io Persist Format Sort Util Paths.

(** ** The C library *)
Definition slash : byte := Init.Byte.x2f.
Definition dot : byte := Init.Byte.x2e.

(** [snprintf(buf, size, ...)]: the text is cut to fit with its NUL. *)
Definition snprintf (size : nat) (text : cstring) : cstring := take (size - 1) text.

Definition atol (s : cstring) : Z := strtol_10 s.

(** [basename] and [dirname], as POSIX defines them: trailing slashes do not
    count; the part after the last slash, and what is before it. *)
Fixpoint drop_slashes (s : cstring) : cstring :=
  match s with
  | c :: s' => if Byte.eqb c slash then drop_slashes s' else s
  | [] => []
  end.

Definition strip (s : cstring) : cstring := rev (drop_slashes (rev s)).

(** What is before the last slash, if there is one, and what is after it. *)
Fixpoint split_last (s : cstring) : option cstring * cstring :=
  match s with
  | [] => (None, [])
  | c :: s' =>
      match split_last s' with
      | (Some d, b) => (Some (c :: d), b)
      | (None, b) => if Byte.eqb c slash then (Some [], b) else (None, c :: b)
      end
  end.

Definition basename (path : cstring) : cstring :=
  match path with
  | [] => [dot]
  | _ =>
      match strip path with
      | [] => [slash]
      | s => (split_last s).2
      end
  end.

Definition dirname (path : cstring) : cstring :=
  match path with
  | [] => [dot]
  | _ =>
      match strip path with
      | [] => [slash]
      | s =>
          match (split_last s).1 with
          | None => [dot]
          | Some d => match strip d with [] => [slash] | d => d end
          end
      end
  end.

Definition in_dir (d name : cstring) : cstring := d ++ [slash] ++ name.

(** A name in a directory; Linux allows it 255 bytes. *)
Definition plain (name : cstring) : Prop :=
  name <> [] /\ slash ∉ name /\ nul_free name /\ (length name <= 255)%nat.

(** What [opendir] and [readdir] find in a directory of the files there are, in
    some order: every file of the directory, and maybe other names. *)
Class Directory := {
  listing : cstring -> gmap cstring (list byte) -> option (list cstring);
  listing_plain d fs names : listing d fs = Some names -> NoDup names /\ Forall plain names;
  listing_files d fs name :
    plain name -> is_Some (fs !! in_dir d name) ->
    exists names, listing d fs = Some names /\ name ∈ names
}.

(** Extended regular expressions.  The program uses one, over the name of the
    prefix; a name without special characters matches itself, but its dots match
    any character. *)
Definition special : list byte := str "^[]$()|*+?{}\".
Definition ordinary (c : byte) : bool := negb (bool_decide (c ∈ special)) && negb (Byte.eqb c NUL).

Definition part_pattern (p : cstring) : cstring := str "^" ++ p ++ str "\.0\.[0-9]+$".

Definition part_name (p name : cstring) : Prop :=
  exists x ds, name = x ++ str ".0." ++ ds /\ Forall2 (fun c d => c = dot \/ c = d) p x /\
    ds <> [] /\ Forall (fun c => is_digit c = true) ds.

Class Regex := {
  regex_t : Type;
  regcomp : cstring -> option regex_t;
  regexec : regex_t -> cstring -> bool;
  regexec_part p :
    Forall (fun c => ordinary c = true) p ->
    exists re, regcomp (part_pattern p) = Some re /\
      forall name, nul_free name -> regexec re name = true <-> part_name p name
}.

Definition PATH_MAX : nat := 4096.

(** Call [f] on the hash that [p] points to, when [f] may abort. *)
Definition at_ptr_out {A} (hash : option kvtree) (p : tree_ptr)
    (f : option kvtree -> outcome (option kvtree * A)) : outcome (option kvtree * A) :=
  match hash, p with
  | Some t, Some path =>
      let* x := f (kvtree_deref t path) in
      Ok (at_ptr hash p (fun _ => x))
  | _, _ => let* (_, r) := f None in Ok (hash, r)
  end.

Section gather.
Context `{Host} `{Zlib} `{Qsort} `{Libc}.

(** ** Writing *)

(** Copy up to [entries_per_file] elements: the hash, how many, the largest rank
    so far and the elements left. *)
Fixpoint entries_loop (entries_per_file : Z) (elem : cursor) (entries : option kvtree)
    (count max_rank : Z) : outcome (option kvtree * Z * Z * cursor) :=
  match elem with
  | [] => Ok (entries, count, max_rank, [])
  | _ :: next =>
      if count <? entries_per_file then
        let* rank := kvtree_elem_key_int elem in
        let max_rank := if max_rank <? rank then rank else max_rank in
        let elem_hash := kvtree_elem_hash elem in
        let '(entries, rank_hash) := kvtree_set_kv_int entries (Some (str "RANK")) rank in
        let '(entries, _) := at_ptr entries rank_hash (fun h => kvtree_merge h elem_hash) in
        entries_loop entries_per_file next entries (i32 (count + 1)) max_rank
      else Ok (entries, count, max_rank, elem)
  end.

(** Write the part files: each turn takes at least one element when
    [entries_per_file] is positive, so one unit of fuel per element is enough. *)
Fixpoint parts_loop (fuel : nat) (prefix : cstring) (ranks entries_per_file : Z) (elem : cursor)
    (files_hash : option kvtree) (rc writer max_rank : Z) : io (option kvtree * Z) :=
  match elem with
  | [] => io_ret (files_hash, rc)
  | _ =>
      match fuel with
      | O => fun _ => NoFuel
      | S fuel =>
          let entries := Some kvtree_new in
          let '(entries, _) := kvtree_set_kv_int entries (Some (str "LEVEL")) 0 in
          let '(entries, _) := kvtree_set_kv_int entries (Some (str "RANKS")) ranks in
          lift* (entries, count, max_rank, elem) :=
            entries_loop entries_per_file elem entries 0 max_rank in
          let filename := snprintf 1024 (c_str prefix ++ str ".0." ++ fmt_signed writer) in
          do* r := kvtree_write_file (Some filename) entries in
          let '(rc, elem) := if negb (r =? KVTREE_SUCCESS) then (KVTREE_FAILURE, []) else (rc, elem) in
          let partname := snprintf 1024 (str ".0." ++ fmt_signed writer) in
          let offset := 0 in
          let '(files_hash, files_rank_hash) :=
            kvtree_set_kv_int files_hash (Some (str "RANK")) writer in
          lift* (files_hash, _) := at_ptr_out files_hash files_rank_hash
                                     (fun h => kvtree_util_set_str h (str "FILE") (Some partname)) in
          lift* (files_hash, _) := at_ptr_out files_hash files_rank_hash
                                     (fun h => kvtree_util_set_bytecount h (str "OFFSET") offset) in
          parts_loop fuel prefix ranks entries_per_file elem files_hash rc (i32 (writer + count)) max_rank
      end
  end.

(** [env] is the environment variable [KVTREE_ENTRIES_PER_FILE]. *)
Definition kvtree_write_to_gather (env : option cstring) (prefix : cstring) (data : option kvtree)
    (ranks : Z) : io (Z * option kvtree) :=
  let rc := KVTREE_SUCCESS in
  let entries_per_file := match env with Some s => atol s | None => 8192 end in
  lift* (data, _) := kvtree_sort_int data KVTREE_SORT_ASCENDING in
  let files_hash := Some kvtree_new in
  let '(files_hash, _) := kvtree_set_kv_int files_hash (Some (str "LEVEL")) 1 in
  let writer := 0 in
  let max_rank := -1 in
  let elem := kvtree_elem_first data in
  do* (files_hash, rc) :=
    parts_loop (length elem) prefix ranks entries_per_file elem files_hash rc writer max_rank in
  let '(files_hash, _) := kvtree_set_kv_int files_hash (Some (str "RANKS")) ranks in
  do* r := kvtree_write_file (Some prefix) files_hash in
  let rc := if negb (r =? KVTREE_SUCCESS) then KVTREE_FAILURE else rc in
  io_ret (rc, data).

(** ** Reading *)
Section scatter.
Context `{Directory} `{Regex}.

(** The loop over the names [readdir] gives. *)
Fixpoint dir_loop (regex : regex_t) (prefix_dir : cstring) (names : list cstring)
    (final_tree : option kvtree) (actual_ranks : Z) : io (option kvtree * Z) :=
  match names with
  | [] => io_ret (final_tree, actual_ranks)
  | d_name :: names =>
      if regexec regex d_name then
        let tmp := snprintf PATH_MAX (prefix_dir ++ str "/" ++ d_name) in
        let subfile_tree := Some kvtree_new in
        do* (rc, subfile_tree) := kvtree_read_file (Some tmp) subfile_tree in
        let '(final_tree, actual_ranks) :=
          if rc =? KVTREE_SUCCESS then
            match kvtree_util_get_unsigned_long subfile_tree (str "LEVEL") with
            | (rc, level) =>
                if (rc =? KVTREE_SUCCESS) && bool_decide (level = Some 0) then
                  let '(subfile_tree, subfile_rank_tree) :=
                    kvtree_extract subfile_tree (Some (str "RANK")) in
                  match subfile_rank_tree with
                  | Some _ =>
                      let '(final_tree, r) := kvtree_merge final_tree subfile_rank_tree in
                      if r =? KVTREE_SUCCESS
                      then (final_tree, u64 (actual_ranks + u64 (kvtree_size subfile_rank_tree)))
                      else (final_tree, actual_ranks)
                  | None => (final_tree, actual_ranks)
                  end
                else (final_tree, actual_ranks)
            end
          else (final_tree, actual_ranks) in
        dir_loop regex prefix_dir names final_tree actual_ranks
      else dir_loop regex prefix_dir names final_tree actual_ranks
  end.

(** [opendir]: it may fail. *)
Definition sys_opendir (d : cstring) : io (option (list cstring)) :=
  do* r := syscall in
  match r with
  | Fails _ => io_ret None
  | _ => fun s => Ok (listing d (files s), s)
  end.

Definition kvtree_read_scatter_single (prefix : cstring) (data : option kvtree)
    : io (Z * option kvtree) :=
  let final_tree := Some kvtree_new in
  do* (rc, final_tree) := kvtree_read_file (Some prefix) final_tree in
  if negb (rc =? KVTREE_SUCCESS) then io_ret (rc, data)
  else
    let '(rc, expected_ranks) := kvtree_util_get_unsigned_long final_tree (str "RANKS") in
    if negb (rc =? KVTREE_SUCCESS) then io_ret (rc, data)
    else
      let final_tree := Some kvtree_new in
      let prefix_dir := dirname (strdup prefix) in
      let prefix_file := basename (strdup prefix) in
      let pattern := snprintf PATH_MAX (part_pattern prefix_file) in
      match regcomp pattern with
      | None => io_ret (KVTREE_FAILURE, data)
      | Some regex =>
          do* d := sys_opendir prefix_dir in
          match d with
          | None => io_ret (KVTREE_FAILURE, data)
          | Some names =>
              let actual_ranks := 0 in
              do* (final_tree, actual_ranks) := dir_loop regex prefix_dir names final_tree actual_ranks in
              let '(data, _) := kvtree_merge data final_tree in
              if bool_decide (Some actual_ranks <> expected_ranks) then io_ret (KVTREE_FAILURE, data)
              else io_ret (KVTREE_SUCCESS, data)
          end
      end.

End scatter.
End gather.
