(* ===== verification/GatherSpec.v ===== *)
(** What [kvtree_write_to_gather] writes: the trees in the part files and in the
    map file, written out, and the files after the loop over the parts. *)

From stdpp Require Import sorting.
From S2P Require Import Prelude CLib ByteOrder Kvtree KvtreeSpec KvtreeMap KvtreeMerge Pack.
From S2P Require Import Io Persist Format Sort Util Paths Gather.

Definition kRANK : cstring := str "RANK".
Definition kRANKS : cstring := str "RANKS".
Definition kLEVEL : cstring := str "LEVEL".

(** ** The trees in the files, written out *)
Definition kv_elem (k v : cstring) : kvtree_elem :=
  Elem (Some k) (Some (KVTree [Elem (Some v) (Some kvtree_new)])).

(** A level of hashes under one key, absent when it is empty. *)
Definition under (k : cstring) (l : list kvtree_elem) : list kvtree_elem :=
  match l with [] => [] | _ => [Elem (Some k) (Some (KVTree l))] end.

(** A part file: the elements of some ranks. *)
Definition part_kvtree (ranks : Z) (l : list kvtree_elem) : kvtree :=
  KVTree (under kRANK l ++ [kv_elem kRANKS (fmt_signed ranks); kv_elem kLEVEL (fmt_signed 0)]).

Definition part_suffix (w : Z) : cstring := str ".0." ++ fmt_signed w.

(** The map file: the name of each part file. *)
Definition map_entry (w : Z) : kvtree_elem :=
  Elem (Some (fmt_signed w))
    (Some (KVTree [kv_elem (str "OFFSET") (fmt_unsigned 0); kv_elem (str "FILE") (part_suffix w)])).

Definition map_kvtree (ranks : Z) (writers : list Z) : kvtree :=
  KVTree (under kRANK (map map_entry writers)
            ++ [kv_elem kRANKS (fmt_signed ranks); kv_elem kLEVEL (fmt_signed 1)]).

(** The paths of such trees: those of each element. *)
Definition elem_path (e : kvtree_elem) (p : path) : bool :=
  match key e with Some k => graft [k] (has_path_opt (hash e)) p | None => false end.

Lemma elem_matches_graft e k q :
  elem_matches k e && has_path_opt (hash e) q = elem_path e (k :: q).
Proof.
  unfold elem_path, elem_matches. destruct (key e) as [k'|]; [|done]. cbn [graft]. by rewrite strcmp_eq0.
Qed.

Lemma list_path l k q : has_path (KVTree l) (k :: q) = existsb (fun e => elem_path e (k :: q)) l.
Proof.
  induction l as [|e l IH]; [done|]. rewrite has_path_elem, IH. cbn [existsb].
  by rewrite elem_matches_graft.
Qed.

Lemma kv_path k v p : elem_path (kv_elem k v) p = graft [k; v] leaf p.
Proof.
  unfold elem_path, kv_elem. cbn [key hash]. destruct p as [|k1 [|k2 p]]; [done| |];
    cbn [graft]; f_equal. cbn [has_path_opt]. rewrite list_path. cbn [existsb]. rewrite orb_false_r.
  unfold elem_path. cbn [key hash graft]. f_equal. by destruct p.
Qed.

Lemma under_path k0 l k q :
  Forall has_key l ->
  existsb (fun e => elem_path e (k :: q)) (under k0 l)
    = existsb (fun e => graft [k0] (elem_path e) (k :: q)) l.
Proof.
  intros Hl. destruct l as [|e l]; [done|]. unfold under. set (l0 := e :: l) in *.
  cbn [existsb]. rewrite orb_false_r. unfold elem_path at 1. cbn [key hash graft].
  destruct (bool_decide (c_str k0 = c_str k)); cbn [andb]; [|clearbody l0; clear; by induction l0].
  destruct q as [|k2 q]; [|apply list_path]. apply Forall_cons_iff in Hl as [[k' Hk] _].
  unfold l0. cbn [existsb]. unfold elem_path. by rewrite Hk.
Qed.

Lemma part_path ranks l k q :
  Forall has_key l ->
  has_path (part_kvtree ranks l) (k :: q)
    = existsb (fun e => graft [kRANK] (elem_path e) (k :: q)) l
      || graft [kRANKS; fmt_signed ranks] leaf (k :: q) || graft [kLEVEL; fmt_signed 0] leaf (k :: q).
Proof.
  intros Hl. unfold part_kvtree. rewrite list_path, existsb_app, under_path by done.
  cbn [existsb]. by rewrite !kv_path, orb_false_r, orb_assoc.
Qed.

Lemma map_path ranks ws k q :
  has_path (map_kvtree ranks ws) (k :: q)
    = existsb (fun w => graft [kRANK] (elem_path (map_entry w)) (k :: q)) ws
      || graft [kRANKS; fmt_signed ranks] leaf (k :: q) || graft [kLEVEL; fmt_signed 1] leaf (k :: q).
Proof.
  unfold map_kvtree. rewrite list_path, existsb_app, under_path.
  - cbn [existsb]. rewrite !kv_path, orb_false_r, orb_assoc. do 2 f_equal.
    induction ws as [|w ws IH]; [done|]. cbn [map existsb]. by rewrite IH.
  - apply Forall_forall. intros e (w & <- & _)%in_map_iff. by eexists.
Qed.

(** ** Writing one part *)
Section write.
Context `{Host} `{Zlib} `{Qsort} `{Libc}.

Definition ranked (l : list kvtree_elem) (p : path) : bool :=
  existsb (fun e => graft [kRANK; fmt_signed (key_int e)] (has_path_opt (hash e)) p) l.

Lemma key_int_get e next : has_key e -> kvtree_elem_key_int (e :: next) = Ok (key_int e).
Proof. intros [k Hk]. unfold kvtree_elem_key_int, key_int. by rewrite Hk. Qed.

(** The number of elements the loop still takes. *)
Definition room (per_file count : Z) : nat := Z.to_nat (per_file - count).

Lemma entries_loop_spec per_file l : forall t count m,
  wf t -> Forall has_key l -> 0 <= count -> count + Z.of_nat (length l) <= INT_MAX ->
  exists t' m',
    entries_loop per_file l (Some t) count m
      = Ok (Some t', count + Z.of_nat (length (take (room per_file count) l)), m',
            drop (room per_file count) l) /\
    adds t (ranked (take (room per_file count) l)) t'.
Proof.
  induction l as [|e l IH]; intros t count m Hwf Hk Hc Hl.
  { exists t, m. rewrite take_nil, drop_nil, Z.add_0_r. split; [done|]. split; [done|].
    intros p. by rewrite orb_false_r. }
  apply Forall_cons_iff in Hk as [He Hk]. cbn [entries_loop length] in *.
  destruct (Z.ltb_spec count per_file) as [Hlt|Hge].
  - rewrite key_int_get by done. cbn [obind kvtree_elem_hash]. fold kRANK.
    destruct (set_kv_merge t kRANK (key_int e) (hash e) Hwf) as (t1 & rc & E & Ha).
    destruct (kvtree_set_kv_int (Some t) (Some kRANK) (key_int e)) as [t2 p2]. rewrite E.
    rewrite i32_id by int_lia.
    destruct (IH t1 (count + 1) (if m <? key_int e then key_int e else m)) as (t' & m' & -> & Ha');
      [apply Ha|done|lia|lia|].
    assert (room per_file count = S (room per_file (count + 1))) as -> by (unfold room; lia).
    cbn [take drop length]. exists t', m'. split.
    { replace (count + Z.of_nat (S (length (take (room per_file (count + 1)) l))))
        with (count + 1 + Z.of_nat (length (take (room per_file (count + 1)) l))) by lia. done. }
    eapply adds_trans; [exact Ha|exact Ha'].
  - assert (room per_file count = 0%nat) as -> by (unfold room; lia).
    exists t, m. rewrite take_0, drop_0, Z.add_0_r. split; [done|]. split; [done|].
    intros p. by rewrite orb_false_r.
Qed.

(** The element of a rank: its key is the rank as [%d] prints it. *)
Definition rank_elem (e : kvtree_elem) : Prop :=
  wf_elem e /\ 0 <= key_int e <= INT_MAX /\ key e = Some (fmt_signed (key_int e)).

Lemma rank_elem_key e : rank_elem e -> has_key e.
Proof. intros (_ & _ & Hk). by eexists. Qed.

Lemma ranked_elems l p :
  Forall rank_elem l -> ranked l p = existsb (fun e => graft [kRANK] (elem_path e) p) l.
Proof.
  induction 1 as [|e l (_ & _ & Hk) Hl IH]; [done|]. unfold ranked in *. cbn [existsb]. rewrite IH. f_equal.
  unfold elem_path. by rewrite Hk, <- graft_app.
Qed.

(** A new hash with a level and the number of ranks. *)
Lemma base_spec k1 n1 k2 n2 :
  exists t, (let '(entries, _) := kvtree_set_kv_int (Some kvtree_new) (Some k1) n1 in
             (kvtree_set_kv_int entries (Some k2) n2).1) = Some t /\
    adds kvtree_new (fun p => graft [k1; fmt_signed n1] leaf p || graft [k2; fmt_signed n2] leaf p) t.
Proof.
  unfold kvtree_set_kv_int.
  destruct (set_kv_adds kvtree_new k1 (fmt_signed n1) wf_new) as (t1 & c1 & -> & Ha1 & _).
  destruct (set_kv_adds t1 k2 (fmt_signed n2) (proj1 Ha1)) as (t2 & c2 & -> & Ha2 & _).
  exists t2. split; [done|]. eapply adds_trans; eassumption.
Qed.

(** ** One entry of the map *)
Lemma deref_path p : forall t c q,
  wf t -> kvtree_deref t p = Some c -> has_path t (p ++ q) = has_path c q.
Proof.
  induction p as [|k p IH]; intros t c q Hwf Hd; [by injection Hd as <-|]. cbn [kvtree_deref app] in *.
  rewrite has_path_cons by done. destruct (kvtree_get (Some t) (Some k)) as [c1|] eqn:Hg; [|done].
  apply IH; [by eapply wf_get|done].
Qed.

Lemma wf_deref p : forall t c, wf t -> kvtree_deref t p = Some c -> wf c.
Proof.
  induction p as [|k p IH]; intros t c Hwf Hd; [by injection Hd as <-|]. cbn [kvtree_deref] in Hd.
  destruct (kvtree_get (Some t) (Some k)) as [c1|] eqn:Hg; [|done]. eapply IH; [|done]. by eapply wf_get.
Qed.

Lemma child_none_paths t k : wf t -> has_path t [k] = false -> child t k = None.
Proof. intros Hwf. rewrite has_path_child by done. destruct (child t k); [by rewrite has_path_opt_nil|done]. Qed.

(** A value set under a new key adds its path. *)
Lemma value_adds t ky text t' :
  wf t -> wf t' -> child t ky = None -> holds_value t' ky text -> only_key_changed t t' ky ->
  adds t (graft [ky; text] leaf) t'.
Proof.
  intros Hwf Hwf' Hn (h & Hg & Hh) Ho. split; [done|]. intros [|k q]; [done|].
  rewrite !has_path_child by done. cbn [graft]. case_bool_decide as E; cbn [andb].
  - rewrite <- !(child_proper _ ky k) by done. rewrite Hn. cbn [orb].
    rewrite child_get in Hg. destruct (child t' ky) as [[c|]|]; simpl in Hg; [|done..]. injection Hg as ->.
    destruct q as [|k2 q]; [done|]. cbn [has_path_opt]. rewrite list_path. cbn [existsb].
    rewrite orb_false_r. unfold elem_path. cbn [key hash graft]. f_equal.
    destruct Hh as [->| ->]; by destruct q.
  - by rewrite Ho, orb_false_r.
Qed.

Lemma set_at t q c key v :
  wf t -> kvtree_deref t q = Some c -> child c key = None -> setting_ok v ->
  (strlen key < KVTREE_MAX_LINE)%nat ->
  exists t' c', at_ptr_out (Some t) (Some q) (fun h => util_set h key v) = Ok (Some t', KVTREE_SUCCESS) /\
    adds t (graft (q ++ [key; setting_text v]) leaf) t' /\ kvtree_deref t' q = Some c' /\
    only_key_changed c c' key.
Proof.
  intros Hwf Hd Hn Hv Hk. assert (wf c) as Hc by (by eapply wf_deref).
  destruct (util_set_spec c key v Hc Hv Hk) as (c' & E & Hc' & Hh & Ho).
  destruct (at_ptr_adds q (fun _ => (Some c', KVTREE_SUCCESS)) (graft [key; setting_text v] leaf)
              KVTREE_SUCCESS t c c') as (t' & Et & Ha & Hd'); [done..| |done|].
  { by apply value_adds. }
  exists t', c'. unfold at_ptr_out. rewrite Hd, E. cbn [obind]. rewrite Et. split_and!; [done| |done|done].
  eapply adds_ext; [|exact Ha]. intros p. by rewrite graft_app.
Qed.
Lemma map_entry_path w p :
  graft [fmt_signed w; str "FILE"; part_suffix w] leaf p
    || graft [fmt_signed w; str "OFFSET"; fmt_unsigned 0] leaf p
  = graft [fmt_signed w] leaf p || elem_path (map_entry w) p.
Proof.
  destruct p as [|k [|k2 q]]; [done| |]; unfold map_entry, elem_path; cbn [key hash graft leaf].
  - rewrite has_path_opt_nil. by destruct (bool_decide _).
  - destruct (bool_decide (c_str (fmt_signed w) = c_str k)); cbn [andb orb]; [|done].
    cbn [has_path_opt]. rewrite list_path. cbn [existsb]. rewrite !kv_path, orb_false_r. apply orb_comm.
Qed.

Lemma part_suffix_nul_free w : nul_free (part_suffix w).
Proof.
  unfold part_suffix, nul_free. rewrite elem_of_app. intros [Hs|Hs]; [|by apply (fmt_signed_nul_free w)].
  by apply (bool_decide_unpack (NUL ∈ str ".0.")) in Hs || (vm_compute in Hs; set_solver).
Qed.

Definition record_part (files_hash : option kvtree) (w : Z) : outcome (option kvtree) :=
  let '(files_hash, p) := kvtree_set_kv_int files_hash (Some kRANK) w in
  let* (files_hash, _) := at_ptr_out files_hash p
                            (fun h => kvtree_util_set_str h (str "FILE") (Some (part_suffix w))) in
  let* (files_hash, _) := at_ptr_out files_hash p
                            (fun h => kvtree_util_set_bytecount h (str "OFFSET") 0) in
  Ok files_hash.

Lemma record_part_spec h w :
  wf h -> (forall x, has_path h (kRANK :: fmt_signed w :: x) = false) ->
  exists h', record_part (Some h) w = Ok (Some h') /\
    adds h (graft [kRANK] (elem_path (map_entry w))) h'.
Proof.
  intros Hwf Hnew. unfold record_part, kvtree_set_kv_int.
  destruct (set_kv_adds h kRANK (fmt_signed w) Hwf) as (t1 & c1 & -> & Ha1 & Hd1 & Hc1).
  assert (forall k, child c1 k = None) as Hn.
  { intros k. apply child_none_paths; [done|].
    rewrite <- (deref_path [kRANK; fmt_signed w] t1 c1 [k] (proj1 Ha1) Hd1). cbn [app].
    rewrite (proj2 Ha1), Hnew. cbn [graft leaf]. by rewrite !andb_false_r. }
  destruct (set_at t1 [kRANK; fmt_signed w] c1 (str "FILE") (SStr (part_suffix w)) (proj1 Ha1) Hd1 (Hn _))
    as (t2 & c2 & E2 & Ha2 & Hd2 & Ho2); [done|vm_compute; lia|].
  cbn [util_set] in E2. rewrite E2. cbn [obind].
  destruct (set_at t2 [kRANK; fmt_signed w] c2 (str "OFFSET") (SBytecount 0) (proj1 Ha2) Hd2)
    as (t3 & c3 & E3 & Ha3 & _); [rewrite Ho2; [apply Hn|done]|done|vm_compute; lia|].
  cbn [util_set] in E3. rewrite E3. cbn [obind]. exists t3. split; [done|].
  pose proof (adds_trans _ _ _ _ _ (adds_trans _ _ _ _ _ Ha1 Ha2) Ha3) as Ha.
  eapply adds_ext; [|exact Ha]. intros p. cbn beta. f_equal.
  cbn [setting_text app]. rewrite (c_str_id (part_suffix w)) by apply part_suffix_nul_free.
  destruct p as [|k p]; [done|]. cbn [graft].
  destruct (bool_decide (c_str kRANK = c_str k)); cbn [andb orb]; [|done].
  pose proof (map_entry_path w p) as Hm. rewrite <- orb_assoc.
  change (graft [fmt_signed w] leaf p || (graft [fmt_signed w; str "FILE"; part_suffix w] leaf p
            || graft [fmt_signed w; str "OFFSET"; fmt_unsigned 0] leaf p) = elem_path (map_entry w) p).
  rewrite Hm, orb_assoc, orb_diag.
  destruct (graft [fmt_signed w] leaf p) eqn:Hg; [|done]. symmetry. revert Hg.
  unfold map_entry, elem_path. cbn [key hash]. rewrite <- (app_nil_r [fmt_signed w]) at 2.
  by apply graft_leaf.
Qed.

(** ** The parts *)

(** The elements each part file takes, with the number in its name. *)
Fixpoint parts_of (fuel : nat) (per_file w : Z) (l : list kvtree_elem) : list (Z * list kvtree_elem) :=
  match l, fuel with
  | [], _ | _, O => []
  | _, S fuel =>
      let chunk := take (Z.to_nat per_file) l in
      (w, chunk) :: parts_of fuel per_file (w + Z.of_nat (length chunk)) (drop (Z.to_nat per_file) l)
  end.

(** A tree that fits a file. *)
Definition storable (t : kvtree) : Prop :=
  Z.of_nat (kvtree_persist_size (Some t)) <= malloc_max /\
  Z.of_nat (kvtree_persist_size (Some t)) <= INT_MAX.

Lemma storable_fits t : storable t -> Persist.fits t.
Proof.
  intros [Hm Hi]. split; [|done]. apply small_size. unfold kvtree_persist_size in Hi.
  cbn [kvtree_pack_size] in Hi. lia.
Qed.

Lemma storable_sub t u : wf t -> wf u -> sub_paths t u -> storable u -> storable t.
Proof.
  intros Hwf Hwu Hs. pose proof (sub_paths_size t u Hwf Hwu Hs). unfold storable, kvtree_persist_size.
  cbn [kvtree_pack_size]. lia.
Qed.

Lemma equiv_sub t u : t ≡ u -> sub_paths t u.
Proof. intros E p Hp. by rewrite <- E. Qed.

(** What the loop makes of the elements of one part. *)
Lemma part_entries ranks per_file l m :
  Forall rank_elem l -> Z.of_nat (length l) <= INT_MAX -> l <> [] ->
  exists t m',
    (let '(entries, _) := kvtree_set_kv_int (Some kvtree_new) (Some kLEVEL) 0 in
     let '(entries, _) := kvtree_set_kv_int entries (Some kRANKS) ranks in
     entries_loop per_file l entries 0 m)
      = Ok (Some t, Z.of_nat (length (take (Z.to_nat per_file) l)), m', drop (Z.to_nat per_file) l) /\
    wf t /\ t ≡ part_kvtree ranks (take (Z.to_nat per_file) l).
Proof.
  intros Hl Hlen Hne. destruct (base_spec kLEVEL 0 kRANKS ranks) as (b & Eb & Hb).
  destruct (kvtree_set_kv_int (Some kvtree_new) (Some kLEVEL) 0) as [b1 p1].
  destruct (kvtree_set_kv_int b1 (Some kRANKS) ranks) as [b2 p2]. cbn [fst] in Eb. subst b2.
  assert (Forall has_key l) as Hk by (eapply Forall_impl; [exact rank_elem_key|exact Hl]).
  destruct (entries_loop_spec per_file l b 0 m (proj1 Hb) Hk) as (t & m' & E & Ha); [lia|lia|].
  unfold room in *. rewrite Z.sub_0_r in *. set (chunk := take (Z.to_nat per_file) l) in *.
  exists t, m'. split; [by rewrite E, Z.add_0_l|]. split; [apply Ha|].
  assert (Forall rank_elem chunk) as Hc by (by apply Forall_take).
  intros [|k q]; [done|]. rewrite (proj2 Ha), (proj2 Hb), has_path_new, ranked_elems by done.
  rewrite part_path by (eapply Forall_impl; [exact rank_elem_key|exact Hc]).
  cbn [has_path_opt orb]. rewrite orb_comm, <- orb_assoc. f_equal. apply orb_comm.
Qed.

Lemma lift_ok {A B} (m : outcome A) (f : A -> io B) a s :
  m = Ok a -> (lift* x := m in f x) s = f a s.
Proof. by intros ->. Qed.

Lemma bind_ok {A B} (m : io A) (f : A -> io B) a s s' :
  m s = Ok (a, s') -> (do* x := m in f x) s = f a s'.
Proof. intros E. unfold io_bind. by rewrite E. Qed.

(** The files after the parts were written. *)
Inductive written (prefix : cstring) (ranks : Z) :
  list (Z * list kvtree_elem) -> gmap cstring (list byte) -> gmap cstring (list byte) -> Prop :=
| written_nil fs : written prefix ranks [] fs fs
| written_cons w l t ps fs fs' :
    wf t -> storable t -> t ≡ part_kvtree ranks l ->
    written prefix ranks ps (<[prefix ++ part_suffix w := persisted (Some t)]> fs) fs' ->
    written prefix ranks ((w, l) :: ps) fs fs'.

Definition mapped (ps : list (Z * list kvtree_elem)) (p : path) : bool :=
  existsb (fun x => graft [kRANK] (elem_path (map_entry x.1)) p) ps.

Definition parts_post (prefix : cstring) (ranks : Z) (ps : list (Z * list kvtree_elem)) (h : kvtree)
    (rc : Z) (s : os) (res : outcome (option kvtree * Z * os)) : Prop :=
  exists h' rc' s' ps',
    res = Ok ((Some h', rc'), s') /\ os_ok s' /\ fds s' = fds s /\ script s' `suffix_of` script s /\
    is_rc rc' /\ ps' `prefix_of` ps /\ adds h (mapped ps') h' /\
    (rc' = KVTREE_SUCCESS -> rc = KVTREE_SUCCESS /\ ps' = ps /\
                         written prefix ranks ps (files s) (files s')) /\
    (calm (script s) -> rc' = rc).

Lemma wf_elems_key l : NoDup (map key l) -> Forall rank_elem l -> wf (KVTree l).
Proof.
  intros Hnd Hl. apply wf_iff. split; [done|]. eapply Forall_impl; [|exact Hl]. by intros e (? & _).
Qed.

Lemma wf_kv_elem k v : nul_free k -> nul_free v -> wf_elem (kv_elem k v).
Proof.
  intros Hk Hv. apply wf_elem_iff. split; [done|]. simpl. apply wf_iff. simpl. split.
  - apply list.NoDup_singleton.
  - constructor; [|constructor]. apply wf_elem_iff. split; [done|]. apply wf_new.
Qed.

Lemma str_nul_free (x : string) : bool_decide (NUL ∉ str x) = true -> nul_free (str x).
Proof. intros Hb. by apply bool_decide_eq_true in Hb. Qed.

Lemma part_wf ranks l : NoDup (map key l) -> Forall rank_elem l -> wf (part_kvtree ranks l).
Proof.
  intros Hnd Hl. assert (Forall wf_elem
    [kv_elem kRANKS (fmt_signed ranks); kv_elem kLEVEL (fmt_signed 0)]) as Hb.
  { apply Forall_cons_iff; split; [|apply Forall_cons_iff; split; [|constructor]];
      (apply wf_kv_elem; [by apply str_nul_free|apply fmt_signed_nul_free]). }
  unfold part_kvtree. apply wf_iff. cbn [lh_first]. destruct l as [|e l].
  - split; [|exact Hb]. apply (bool_decide_eq_true_1 _). by vm_compute.
  - split; [apply (bool_decide_eq_true_1 _); by vm_compute|]. constructor; [|exact Hb].
    apply wf_elem_iff. split; [by apply str_nul_free|]. by apply wf_elems_key.
Qed.

Lemma cut_name prefix w :
  nul_free prefix -> (length prefix + 80 <= 1023)%nat ->
  snprintf 1024 (c_str prefix ++ part_suffix w) = prefix ++ part_suffix w /\
  snprintf 1024 (part_suffix w) = part_suffix w.
Proof.
  intros Hp Hl. rewrite (c_str_id prefix) by done. pose proof (fmt_signed_length w).
  assert (length (part_suffix w) <= 69)%nat.
  { unfold part_suffix. rewrite length_app. change (length (str ".0.")) with 3%nat. lia. }
  unfold snprintf. split; apply take_ge; rewrite ?length_app; lia.
Qed.

Lemma parts_step fuel prefix ranks per_file l h rc w m s t m' (chunk : list kvtree_elem) rest :
  l <> [] -> nul_free prefix -> (length prefix + 80 <= 1023)%nat ->
  (let '(entries, _) := kvtree_set_kv_int (Some kvtree_new) (Some kLEVEL) 0 in
   let '(entries, _) := kvtree_set_kv_int entries (Some kRANKS) ranks in
   entries_loop per_file l entries 0 m) = Ok (Some t, Z.of_nat (length chunk), m', rest) ->
  parts_loop (S fuel) prefix ranks per_file l h rc w m s =
    (do* r := kvtree_write_file (Some (prefix ++ part_suffix w)) (Some t) in
     let '(rc, elem) := if negb (r =? KVTREE_SUCCESS) then (KVTREE_FAILURE, []) else (rc, rest) in
     lift* files_hash := record_part h w in
     parts_loop fuel prefix ranks per_file elem files_hash rc (i32 (w + Z.of_nat (length chunk))) m') s.
Proof.
  intros Hl Hp Hlen. destruct l as [|e l]; [done|]. cbn [parts_loop]. fold kLEVEL kRANKS kRANK.
  destruct (kvtree_set_kv_int (Some kvtree_new) (Some kLEVEL) 0) as [b1 p1].
  destruct (kvtree_set_kv_int b1 (Some kRANKS) ranks) as [b2 p2]. intros E.
  rewrite (lift_ok _ _ _ _ E). cbn beta iota. change (str ".0." ++ fmt_signed w) with (part_suffix w).
  destruct (cut_name prefix w Hp Hlen) as [-> ->].
  unfold io_bind. destruct (kvtree_write_file _ _ s) as [[r s1]| | |]; cbn [obind]; [|done..].
  destruct (if negb (r =? KVTREE_SUCCESS) then _ else _) as [rc1 l1]. unfold record_part.
  destruct (kvtree_set_kv_int h (Some kRANK) w) as [h1 q]. unfold io_bind, io_lift.
  destruct (at_ptr_out h1 q _) as [[h2 r2]| | |]; cbn [obind]; [|done..].
  destruct (at_ptr_out h2 q _) as [[h3 r3]| | |]; cbn [obind]; done.
Qed.

Lemma keys_sub l l' : l `sublist_of` l' -> NoDup (map key l') -> NoDup (map key l).
Proof. intros Hs Hn. eapply sublist_NoDup; [exact Hn|]. by apply (fmap_sublist key). Qed.

Lemma mapped_nil p : mapped [] p = false.
Proof. done. Qed.

Lemma parts_loop_spec prefix ranks per_file fuel : forall l h rc w m s,
  os_ok s -> wf h -> is_rc rc -> nul_free prefix -> (length prefix + 80 <= 1023)%nat ->
  Forall rank_elem l -> NoDup (map key l) -> (length l <= fuel)%nat -> 1 <= per_file -> 0 <= w ->
  w + Z.of_nat (length l) <= INT_MAX ->
  (forall x w', w <= w' <= INT_MAX -> has_path h (kRANK :: fmt_signed w' :: x) = false) ->
  Forall (fun x => storable (part_kvtree ranks x.2)) (parts_of fuel per_file w l) ->
  parts_post prefix ranks (parts_of fuel per_file w l) h rc s
    (parts_loop fuel prefix ranks per_file l (Some h) rc w m s).
Proof.
  induction fuel as [|fuel IH]; intros l h rc w m s Hs Hh Hrc Hp Hplen Hl Hnd Hf Hper Hw Hwl Hnew Hst;
    (destruct l as [|e l];
     [exists h, rc, s, []; split_and!;
        (done || (split; [done|]; intros p; by rewrite orb_false_r) || (intros; split_and!; (done || constructor)))|]);
    [simpl in Hf; lia|].
  set (l0 := e :: l) in *. cbn [parts_of] in *.
  change (match l0 with [] => _ | _ => _ end) with
    ((w, take (Z.to_nat per_file) l0)
       :: parts_of fuel per_file (w + Z.of_nat (length (take (Z.to_nat per_file) l0))) (drop (Z.to_nat per_file) l0))
    in *.
  destruct (part_entries ranks per_file l0 m Hl) as (t & m' & E & Ht & Et); [lia|done|].
  set (chunk := take (Z.to_nat per_file) l0) in *. set (rest := drop (Z.to_nat per_file) l0) in *.
  apply Forall_cons_iff in Hst as [Hst1 Hst]. cbn [snd] in Hst1.
  assert (storable t) as Hstt.
  { eapply storable_sub; [done| |by apply equiv_sub|exact Hst1]. apply part_wf; [by apply (keys_sub chunk l0); [apply sublist_take|]|by apply Forall_take]. }
  rewrite (parts_step fuel prefix ranks per_file l0 (Some h) rc w m s t m' chunk rest) by done.
  destruct (write_file_eq (prefix ++ part_suffix w) t s Hs) as
    (r & s1 & Ew & Hr & Hfd & Hs1 & Hsc & _ & Hok & Hcalm); [apply Hstt|].
  rewrite (bind_ok _ _ _ _ _ Ew).
  destruct (record_part_spec h w Hh) as (h1 & Eh & Ha1); [intros x; apply Hnew; lia|].
  destruct (decide (r = KVTREE_SUCCESS)) as [->|Hne].
  - change (KVTREE_SUCCESS =? KVTREE_SUCCESS) with true. cbn beta iota delta [negb]. rewrite (lift_ok _ _ _ _ Eh).
    assert (length chunk + length rest = length l0)%nat as Hlens
      by (rewrite <- length_app; unfold chunk, rest; by rewrite take_drop).
    assert (0 < length chunk)%nat by (unfold chunk; rewrite length_take; unfold l0; simpl length; lia).
    rewrite i32_id by int_lia.
    destruct (IH rest h1 rc (w + Z.of_nat (length chunk)) m' s1) as
      (h' & rc' & s' & ps' & E' & Hs' & Hfd' & Hsc' & Hrc' & Hpre & Ha' & Hok' & Hcalm');
      [done|apply Ha1|done|done|done|by apply Forall_drop|by apply (keys_sub rest l0); [apply sublist_drop|]
      |lia|done|lia|lia| |done|].
    { intros x w' Hw'. rewrite (proj2 Ha1), Hnew by lia. cbn [graft orb].
      unfold elem_path, map_entry. cbn [key]. cbn [graft]. rewrite !c_str_fmt, (bool_decide_eq_false_2 (_ = fmt_signed w')).
      - by rewrite andb_false_r.
      - intros Ef%fmt_inj; [lia|int_lia|int_lia]. }
    exists h', rc', s', ((w, chunk) :: ps'). split_and!; [done|done|congruence|by etrans|done| | | |].
    + by apply prefix_cons.
    + pose proof (adds_trans _ _ _ _ _ Ha1 Ha') as Ha. exact Ha.
    + intros Hk. destruct (Hok' Hk) as (-> & -> & Hwr). split_and!; [done..|].
      econstructor; [exact Ht|exact Hstt|exact Et|]. by rewrite <- Hok.
    + intros Hc. apply Hcalm'. by eapply calm_suffix.
  - rewrite (proj2 (Z.eqb_neq _ _)) by done. cbn beta iota delta [negb]. rewrite (lift_ok _ _ _ _ Eh).
    assert (parts_loop fuel prefix ranks per_file [] (Some h1) KVTREE_FAILURE
              (i32 (w + Z.of_nat (length chunk))) m' s1 = Ok ((Some h1, KVTREE_FAILURE), s1)) as ->
      by (by destruct fuel).
    exists h1, KVTREE_FAILURE, s1, [(w, chunk)]. split_and!; try done.
    + by right.
    + by exists (parts_of fuel per_file (w + Z.of_nat (length chunk)) rest).
    + eapply adds_ext; [|exact Ha1]. intros p. unfold mapped. cbn [existsb fst]. by rewrite orb_false_r.
    + intros Hc. by destruct (Hne (Hcalm Hc)).
Qed.
(** ** The whole tree *)
Definition per_file_of (env : option cstring) : Z :=
  match env with Some s => atol s | None => 8192 end.

Record gather_inputs (env : option cstring) (prefix : cstring) (data : kvtree) (ranks : Z) : Prop := {
  gather_wf : wf data /\ Forall rank_elem (lh_first data);
  gather_sort : Sort.fits data 16;
  gather_prefix : nul_free prefix /\ (length prefix + 80 <= 1023)%nat;
  gather_per_file : 1 <= per_file_of env;
  gather_parts : storable (part_kvtree ranks (lh_first data));
  gather_map : storable (map_kvtree ranks (seqZ 0 (Z.of_nat (length (lh_first data)))))
}.

(** The files of a gather. *)
Definition gathered (prefix : cstring) (ranks : Z) (ps : list (Z * list kvtree_elem))
    (fs fs' : gmap cstring (list byte)) : Prop :=
  exists fs1 m, written prefix ranks ps fs fs1 /\ wf m /\ storable m /\
    m ≡ map_kvtree ranks ps.*1 /\ fs' = <[prefix := persisted (Some m)]> fs1.

Lemma parts_of_in fuel per_file : forall w l x,
  1 <= per_file -> x ∈ parts_of fuel per_file w l ->
  x.2 <> [] /\ x.2 `sublist_of` l /\ w <= x.1 /\ x.1 + Z.of_nat (length x.2) <= w + Z.of_nat (length l).
Proof.
  induction fuel as [|fuel IH]; intros w [|e l] x Hper; try (by intros ?%elem_of_nil).
  set (l0 := e :: l). cbn [parts_of]. intros [->|Hx]%list.elem_of_cons; cbn [fst snd].
  - split_and!; [|apply sublist_take|lia|].
    { unfold l0. destruct (Z.to_nat per_file) eqn:E; [lia|done]. }
    pose proof (length_take l0 (Z.to_nat per_file)). lia.
  - destruct (IH _ _ _ Hper Hx) as (Hne & Hs & Hw & Hl).
    pose proof (length_take l0 (Z.to_nat per_file)). pose proof (length_drop l0 (Z.to_nat per_file)).
    split_and!; [done| |lia|lia]. etrans; [exact Hs|apply sublist_drop].
Qed.

Lemma rank_elems_perm l l' : Permutation l l' -> Forall rank_elem l' -> Forall rank_elem l.
Proof. intros HP. by rewrite HP. Qed.

(** Fewer elements have fewer paths. *)
Lemma part_sub ranks l l' :
  Forall rank_elem l' -> (forall e, e ∈ l -> e ∈ l') -> sub_paths (part_kvtree ranks l) (part_kvtree ranks l').
Proof.
  intros Hl' Hin. assert (Forall has_key l') as Hk' by (eapply Forall_impl; [exact rank_elem_key|exact Hl']).
  assert (Forall has_key l) as Hk.
  { rewrite list.Forall_forall in *. intros e He. apply Hk', Hin, He. }
  intros [|k q]; [done|]. rewrite !part_path by done. rewrite !orb_true_iff, !existsb_exists.
  intros [[(e & He%list_elem_of_In & Hp)|Hp]|Hp]; [|by left; right|by right].
  left; left. exists e. split; [apply list_elem_of_In, Hin, He|done].
Qed.

Lemma map_sub ranks ws ws' :
  (forall w, w ∈ ws -> w ∈ ws') -> sub_paths (map_kvtree ranks ws) (map_kvtree ranks ws').
Proof.
  intros Hin. intros [|k q]; [done|]. rewrite !map_path. rewrite !orb_true_iff, !existsb_exists.
  intros [[(w & Hw%list_elem_of_In & Hp)|Hp]|Hp]; [|by left; right|by right].
  left; left. exists w. split; [apply list_elem_of_In, Hin, Hw|done].
Qed.

Lemma map_wf ranks ws : NoDup ws -> Forall is_int ws -> wf (map_kvtree ranks ws).
Proof.
  intros Hnd Hws. assert (Forall wf_elem
    [kv_elem kRANKS (fmt_signed ranks); kv_elem kLEVEL (fmt_signed 1)]) as Hb.
  { apply Forall_cons_iff; split; [|apply Forall_cons_iff; split; [|constructor]];
      (apply wf_kv_elem; [by apply str_nul_free|apply fmt_signed_nul_free]). }
  assert (Forall wf_elem (map map_entry ws)) as He.
  { apply Forall_forall. intros e (w & <- & _)%in_map_iff. apply wf_elem_iff.
    split; [apply fmt_signed_nul_free|]. apply wf_iff. cbn [lh_first]. split.
    - apply (bool_decide_eq_true_1 _). by vm_compute.
    - apply Forall_cons_iff; split; [|apply Forall_cons_iff; split; [|constructor]];
        (apply wf_kv_elem; [by apply str_nul_free|]).
      + apply fmt_unsigned_nul_free.
      + apply part_suffix_nul_free. }
  assert (NoDup (map key (map map_entry ws))) as Hn.
  { rewrite map_map. cbn [key map_entry]. clear He. induction Hnd as [|w ws Hw Hnd IH]; [constructor|].
    apply Forall_cons_iff in Hws as [Hi Hws]. simpl. constructor; [|by apply IH].
    intros (w' & [= E] & Hw')%list_elem_of_In%in_map_iff. apply Hw.
    rewrite Forall_forall in Hws. apply fmt_inj in E; [subst w'|by apply Hws|done].
    by apply list_elem_of_In. }
  unfold map_kvtree. apply wf_iff. cbn [lh_first]. destruct (map map_entry ws) as [|e l] eqn:El.
  - split; [|exact Hb]. apply (bool_decide_eq_true_1 _). by vm_compute.
  - split; [apply (bool_decide_eq_true_1 _); by vm_compute|]. constructor; [|exact Hb].
    apply wf_elem_iff. split; [by apply str_nul_free|]. by apply wf_iff.
Qed.

(** The map file of some of the parts. *)
Lemma map_of_parts ranks ps h h0 t n :
  adds kvtree_new (graft [kLEVEL; fmt_signed 1] leaf) h0 -> adds h0 (mapped ps) h ->
  adds h (graft [kRANKS; fmt_signed ranks] leaf) t ->
  (forall x, x ∈ ps -> 0 <= x.1 < n) -> n <= INT_MAX ->
  storable (map_kvtree ranks (seqZ 0 n)) ->
  wf t /\ t ≡ map_kvtree ranks ps.*1 /\ storable t.
Proof.
  intros [_ H0'] [_ H1'] [Hw H2'] Hin Hn Hst.
  assert (t ≡ map_kvtree ranks ps.*1) as E.
  { intros [|k q]; [done|]. rewrite H2', H1', H0', has_path_new, map_path. cbn [has_path_opt orb].
    assert (mapped ps (k :: q) = existsb (fun w => graft [kRANK] (elem_path (map_entry w)) (k :: q)) ps.*1) as ->.
    { clear. unfold mapped. induction ps as [|x ps IH]; [done|]. cbn [existsb fmap list_fmap]. by rewrite IH. }
    destruct (existsb _ _), (graft [kLEVEL; _] _ _), (graft [kRANKS; _] _ _); done. }
  split_and!; [done|done|]. eapply storable_sub; [done| | |exact Hst].
  - apply map_wf; [apply NoDup_seqZ|]. apply list.Forall_forall. intros w Hin'%elem_of_seqZ. int_lia.
  - intros p Hp. eapply map_sub; [|by apply (equiv_sub _ _ E)]. intros w (x & -> & Hx)%list_elem_of_fmap.
    apply elem_of_seqZ. pose proof (Hin x Hx). lia.
Qed.

Definition gather_post (env : option cstring) (prefix : cstring) (data : kvtree) (ranks : Z) (s : os)
    (res : outcome (Z * option kvtree * os)) : Prop :=
  exists l rc s',
    res = Ok ((rc, Some (KVTree l)), s') /\
    Permutation l (lh_first data) /\ StronglySorted (fun a b => key_int a <= key_int b) l /\
    os_ok s' /\ fds s' = fds s /\ script s' `suffix_of` script s /\ is_rc rc /\
    (calm (script s) -> rc = KVTREE_SUCCESS) /\
    (rc = KVTREE_SUCCESS ->
       gathered prefix ranks (parts_of (length l) (per_file_of env) 0 l) (files s) (files s')).

Lemma write_to_gather_eq env prefix data ranks s :
  gather_inputs env prefix data ranks -> os_ok s ->
  gather_post env prefix data ranks s (kvtree_write_to_gather env prefix (Some data) ranks s).
Proof.
  intros [[Hwf Hre] Hsort [Hpn Hpl] Hper Hparts Hmap] Hs. unfold kvtree_write_to_gather.
  assert (no_overflow (map key_int (lh_first data))) as Hno.
  { intros x y (e & -> & He)%list_elem_of_fmap (e' & -> & He')%list_elem_of_fmap.
    rewrite list.Forall_forall in Hre. destruct (Hre e He) as (_ & ? & _), (Hre e' He') as (_ & ? & _). lia. }
  destruct (sort_int_spec data KVTREE_SORT_ASCENDING Hwf Hsort Hno) as (l & El & HP & Hss & Hwl & _).
  rewrite (lift_ok _ _ _ _ El). cbn [kvtree_elem_first lh_first].
  change (match env with Some s => atol s | None => 8192 end) with (per_file_of env).
  set (n := Z.of_nat (length (lh_first data))) in *.
  assert (Z.of_nat (length l) = n) as Hln by (unfold n; by rewrite HP).
  assert (n <= INT_MAX) as Hn by (destruct Hsort; unfold n; lia).
  destruct (set_kv_adds kvtree_new (str "LEVEL") (fmt_signed 1) wf_new) as (h0 & c0 & E0 & Ha0 & _).
  unfold kvtree_set_kv_int at 1. rewrite E0. clear E0 c0.
  set (ps := parts_of (length l) (per_file_of env) 0 l).
  assert (forall x, x ∈ ps -> x.2 <> [] /\ x.2 `sublist_of` l /\ 0 <= x.1 /\ x.1 + Z.of_nat (length x.2) <= n) as Hps.
  { intros x Hx. apply parts_of_in in Hx; [|done]. by rewrite Z.add_0_l, Hln in Hx. }
  pose proof (rank_elems_perm _ _ HP Hre) as Hrl.
  assert (NoDup (map key l)) as Hnd by (by apply wf_iff in Hwl as [? _]).
  destruct (parts_loop_spec prefix ranks (per_file_of env) (length l) l h0 KVTREE_SUCCESS 0 (-1) s) as
    (h & rc & s1 & ps' & E1 & Hs1 & Hfd1 & Hsc1 & Hrc1 & [ps2 Hpre] & Ha1 & Hok1 & Hcalm1);
    [done|apply Ha0|by left|done|done|done|done|done|done|done|lia| | |].
  { intros x w _. rewrite (proj2 Ha0), has_path_new. done. }
  { apply list.Forall_forall. intros x Hx. destruct (Hps x Hx) as (_ & Hsub & _).
    assert (forall e, e ∈ x.2 -> e ∈ lh_first data) as Hin.
    { intros e He. rewrite <- HP. eapply (sublist_subseteq x.2 l); [exact Hsub|exact He]. }
    eapply storable_sub; [| | |exact Hparts].
    - apply part_wf; [by eapply keys_sub|]. rewrite list.Forall_forall in *. auto.
    - apply part_wf; [by apply wf_iff in Hwf as [? _]|done].
    - by apply part_sub. }
  rewrite (bind_ok _ _ _ _ _ E1).
  destruct (set_kv_adds h (str "RANKS") (fmt_signed ranks) (proj1 Ha1)) as (m & c & Em & Ham & _).
  unfold kvtree_set_kv_int. rewrite Em.
  destruct (map_of_parts ranks ps' h h0 m n Ha0 Ha1 Ham) as (Hwm & Eqm & Hsm); [|done|done|].
  { intros x Hx. assert (x ∈ ps) as Hx' by (fold ps in Hpre; rewrite Hpre; apply elem_of_app; by left).
    destruct (Hps x Hx') as (Hne & Hsub & H0' & Hle).
    destruct (x.2); [done|]. simpl in Hle. lia. }
  destruct (write_file_eq prefix m s1 Hs1) as (r & s2 & Ew & Hr & Hfd2 & Hs2 & Hsc2 & _ & Hok2 & Hcalm2);
    [apply Hsm|].
  rewrite (bind_ok _ _ _ _ _ Ew). unfold io_ret.
  exists l, (if negb (r =? KVTREE_SUCCESS) then KVTREE_FAILURE else rc), s2.
  split_and!; [done|done|exact Hss|done|congruence|by etrans| | |].
  - destruct (negb _); [by right|done].
  - intros Hc. rewrite Hcalm2 by (by eapply calm_suffix). cbn. by apply Hcalm1.
  - destruct (Z.eqb_spec r KVTREE_SUCCESS) as [->|]; [|done]. cbn [negb]. intros ->.
    destruct (Hok1 eq_refl) as (_ & -> & Hw). exists (files s1), m. split_and!; auto.
Qed.

End write.
