(* ===== verification/ScatterSpec.v ===== *)
(** What [kvtree_read_scatter_single] reads: the parts one by one, then what was
    written; and the properties of the gather and scatter files. *)

From stdpp Require Import sorting.
From S2P Require Import Prelude CLib ByteOrder Kvtree KvtreeSpec KvtreeMap KvtreeMerge Pack.
From S2P Require Import Io Persist Format Sort Util Paths Gather GatherSpec.

(** ** Reading one file *)
Section read.
Context `{Host} `{Zlib} `{Directory} `{Regex}.

Lemma read_stored file t s :
  os_ok s -> calm (script s) -> files s !! file = Some (persisted (Some t)) -> wf t -> storable t ->
  exists t' s',
    kvtree_read_file (Some file) (Some kvtree_new) s = Ok ((KVTREE_SUCCESS, Some t'), s') /\
    wf t' /\ t' ≡ t /\ os_ok s' /\ files s' = files s /\ calm (script s').
Proof.
  intros Hs Hc Hf Hwf Hst. destruct (storable_fits t Hst) as [Hsm Hm].
  pose proof (parse_persisted t kvtree_new [] Hsm Hm) as Hp. rewrite app_nil_r in Hp.
  destruct (merge_merged kvtree_new (Some (unpacked t)) wf_new) as (rc0 & Em). rewrite Em in Hp.
  destruct (read_file_spec file kvtree_new s (persisted (Some t)) _ _ Hs Hf Hp)
    as (rc & h & s' & Er & _ & Hfs & _ & Hs' & Hsc & Hok & _ & Hcalm).
  rewrite Hcalm in Er, Hok by done. rewrite (proj2 (Z.leb_le _ _)) in Er, Hok by lia.
  destruct (Hok eq_refl) as [_ ->].
  exists (merged kvtree_new (unpacked t)), s'. split_and!; [done|apply merged_wf, wf_new| |done|done|].
  - intros p. rewrite merged_path by apply wf_new. rewrite has_path_new, has_path_opt_None.
    cbn [default]. rewrite unpacked_path by done. by destruct p.
  - by eapply calm_suffix.
Qed.

(** A name without a file is passed over. *)
Lemma read_missing file t s :
  os_ok s -> calm (script s) -> files s !! file = None ->
  exists s', kvtree_read_file (Some file) (Some t) s = Ok ((KVTREE_FAILURE, Some t), s') /\
    os_ok s' /\ files s' = files s /\ calm (script s').
Proof.
  intros Hs Hc Hf. unfold kvtree_read_file.
  destruct (readable_spec file s) as (rc & sc & e & Er & Hrc & Hsc & Hrd & _).
  rewrite (bind_ok _ _ _ _ _ Er). destruct Hrc as [-> | ->].
  - destruct (Hrd eq_refl) as [c Hx]. congruence.
  - exists (touch s sc e). split_and!; [done|done|done|by eapply calm_suffix].
Qed.

(** A hash with one path of one key has one element. *)
Lemma one_elem c text :
  wf c -> nul_free text -> (forall k, has_path c [k] = bool_decide (text = c_str k)) ->
  exists h, lh_first c = [Elem (Some text) h].
Proof.
  intros Hwf Ht Hp. assert (forall e, e ∈ lh_first c -> key e = Some text) as Hk.
  { intros e He. pose proof (wf_elem_in _ _ Hwf He) as [Hn _]%wf_elem_iff.
    destruct (key e) as [k|] eqn:Ek; [|done]. destruct (has_path_key c e k Hwf He Ek) as [Hc Hck].
    specialize (Hp k). rewrite has_path_child, Hc, has_path_opt_nil in Hp by done.
    symmetry in Hp. apply bool_decide_eq_true in Hp. by rewrite Hp, Hck. }
  specialize (Hp text). rewrite c_str_id, bool_decide_true in Hp by done.
  destruct c as [l]. apply wf_iff in Hwf as [Hnd _]. cbn [lh_first] in *.
  destruct l as [|e1 [|e2 l]]; [done| |].
  - exists (hash e1). pose proof (Hk e1 ltac:(by left)). destruct e1. simpl in *. by subst.
  - exfalso. pose proof (Hk e1 ltac:(by left)) as E1. pose proof (Hk e2 ltac:(right; by left)) as E2.
    simpl in Hnd. rewrite E1, E2 in Hnd. apply list.NoDup_cons in Hnd as [Hn _]. apply Hn. by left.
Qed.

Lemma one_value t k text :
  wf t -> nul_free text ->
  (forall k2, has_path t [k; k2] = bool_decide (text = c_str k2)) ->
  kvtree_get_val (Some t) (Some k) = Some text.
Proof.
  intros Hwf Ht Hp. unfold kvtree_get_val.
  destruct (kvtree_get (Some t) (Some k)) as [c|] eqn:Hg.
  - destruct (one_elem c text (wf_get _ _ _ Hwf Hg) Ht) as (h & El).
    { intros k2. by rewrite <- Hp, (has_path_cons t), Hg. }
    destruct c as [l]. cbn [lh_first] in El. by subst l.
  - specialize (Hp text). rewrite (has_path_cons t), Hg, c_str_id, (bool_decide_eq_true_2 (text = text)) in Hp by done. discriminate Hp.
Qed.

Lemma value_of_part t ranks l :
  wf t -> t ≡ part_kvtree ranks l -> Forall has_key l ->
  kvtree_get_val (Some t) (Some kLEVEL) = Some (fmt_signed 0).
Proof.
  intros Hwf Et Hl. apply one_value; [done|apply fmt_signed_nul_free|]. intros k2.
  rewrite Et, part_path by done. cbn [graft]. rewrite !c_str_fmt.
  rewrite (bool_decide_eq_false_2 (c_str kRANKS = c_str kLEVEL)), (bool_decide_eq_true_2 (c_str kLEVEL = c_str kLEVEL)) by done.
  assert (existsb (fun e => bool_decide (c_str kRANK = c_str kLEVEL) && elem_path e [k2]) l = false) as ->.
  { clear. induction l as [|e l IH]; [done|]. cbn [existsb]. by rewrite IH, (bool_decide_eq_false_2 (_ = _)). }
  cbn [andb orb leaf]. by rewrite andb_true_r.
Qed.

Lemma value_of_map t ranks ws :
  wf t -> t ≡ map_kvtree ranks ws -> kvtree_get_val (Some t) (Some kRANKS) = Some (fmt_signed ranks).
Proof.
  intros Hwf Et. apply one_value; [done|apply fmt_signed_nul_free|]. intros k2.
  rewrite Et, map_path. cbn [graft]. rewrite !c_str_fmt.
  rewrite (bool_decide_eq_false_2 (c_str kLEVEL = c_str kRANKS)), (bool_decide_eq_true_2 (c_str kRANKS = c_str kRANKS)) by done.
  assert (existsb (fun w => bool_decide (c_str kRANK = c_str kRANKS) && elem_path (map_entry w) [k2]) ws = false) as ->.
  { clear. induction ws as [|e l IH]; [done|]. cbn [existsb]. by rewrite IH, (bool_decide_eq_false_2 (_ = _)). }
  cbn [andb orb leaf]. by rewrite andb_true_r, orb_false_r.
Qed.

End read.

(** ** Reading the parts *)
Lemma same_keys_length c l :
  wf c -> wf (KVTree l) -> (forall k, has_path c [k] = has_path (KVTree l) [k]) ->
  length (lh_first c) = length l.
Proof.
  assert (forall t k, wf t -> Some k ∈ map key (lh_first t) <-> c_str k = k /\ has_path t [k] = true) as Hk.
  { intros t k Hwf. split.
    - intros (e & He & Hin)%list_elem_of_fmap.
      destruct (has_path_key t e k Hwf Hin (eq_sym He)) as [Hc Hck].
      by rewrite has_path_child, Hc, has_path_opt_nil.
    - intros [Hck Hp]. rewrite has_path_child in Hp by done.
      destruct (child t k) as [h|] eqn:Hc; [|done]. apply child_elem in Hc; [|done]. rewrite Hck in Hc.
      apply list_elem_of_fmap. by exists (Elem (Some k) h). }
  intros Hwc Hwl Hp. rewrite <- (length_map key (lh_first c)), <- (length_map key l).
  apply Permutation_length, NoDup_Permutation; [by apply wf_iff in Hwc as [? _]|by apply wf_iff in Hwl as [? _]|].
  intros [k|].
  - rewrite (Hk c), (Hk (KVTree l)) by done. by rewrite Hp.
  - split; intros (e & He & Hin)%list_elem_of_fmap; exfalso.
    + pose proof (wf_elem_in _ _ Hwc Hin) as [Hn _]%wf_elem_iff. by rewrite <- He in Hn.
    + pose proof (wf_elem_in _ _ Hwl Hin) as [Hn _]%wf_elem_iff. by rewrite <- He in Hn.
Qed.

Section scatter.
Context `{Host} `{Zlib} `{Directory} `{Regex}.
Context (ranks : Z) (d : cstring) (held : cstring -> list kvtree_elem).

(** The file [name] of the directory is a part with the elements [held name]. *)
Definition part_at (fs : gmap cstring (list byte)) (name : cstring) : Prop :=
  held name <> [] /\ Forall rank_elem (held name) /\ NoDup (map key (held name)) /\
  exists t, fs !! in_dir d name = Some (persisted (Some t)) /\ wf t /\ storable t /\
    t ≡ part_kvtree ranks (held name).

Lemma rank_of_part t l k q :
  wf t -> t ≡ part_kvtree ranks l -> Forall rank_elem l ->
  has_path t (kRANK :: k :: q) = has_path (KVTree l) (k :: q).
Proof.
  intros Hwf Et Hl. rewrite Et, part_path by (eapply Forall_impl; [exact rank_elem_key|exact Hl]).
  cbn [graft]. rewrite (bool_decide_eq_false_2 (c_str kRANKS = _)), (bool_decide_eq_false_2 (c_str kLEVEL = _)) by done.
  cbn [andb]. rewrite !orb_false_r, list_path. by rewrite (bool_decide_eq_true_2 (c_str kRANK = c_str kRANK)).
Qed.

(** What the loop takes out of the tree of a part. *)
Lemma part_extract t l :
  wf t -> t ≡ part_kvtree ranks l -> Forall rank_elem l -> NoDup (map key l) -> l <> [] ->
  exists t' c, kvtree_extract (Some t) (Some kRANK) = (Some t', Some c) /\ wf c /\
    (forall p, has_path c p = has_path (KVTree l) p) /\ length (lh_first c) = length l.
Proof.
  intros Hwf Et Hl Hnd Hne. rewrite kvtree_extract_spec by done.
  assert (exists c, child t kRANK = Some (Some c)) as [c Hc].
  { destruct l as [|e l]; [done|]. apply Forall_cons_iff in Hl as Hle. destruct Hle as [(_ & _ & Hk) _].
    pose proof (rank_of_part t (e :: l) (fmt_signed (key_int e)) [] Hwf Et Hl) as Hp.
    assert (has_path (KVTree (e :: l)) [fmt_signed (key_int e)] = true) as Ht.
    { rewrite list_path. cbn [existsb]. unfold elem_path at 1. rewrite Hk. cbn [graft].
      by rewrite bool_decide_eq_true_2, has_path_opt_nil. }
    rewrite Ht, has_path_child in Hp by done. destruct (child t kRANK) as [[c|]|]; [by exists c|done|done]. }
  rewrite Hc. assert (wf c) as Hwc by (by apply (wf_child _ _ _ Hwf Hc)).
  assert (forall p, has_path c p = has_path (KVTree l) p) as Hp.
  { intros [|k q]; [done|]. rewrite <- (rank_of_part t l) by done.
    by rewrite (has_path_child t), Hc. }
  eexists _, c. split_and!; [done|done|done|]. apply same_keys_length; [done|by apply wf_elems_key|].
  intros k. apply Hp.
Qed.

Definition held_count (names : list cstring) : nat := sum_list_with (fun name => length (held name)) names.

Lemma dir_loop_spec re names : forall f a s,
  Forall (fun name => length (in_dir d name) < PATH_MAX)%nat names -> os_ok s -> calm (script s) -> wf f -> 0 <= a -> a + Z.of_nat (held_count names) <= INT_MAX ->
  (forall name, name ∈ names ->
     regexec re name = true /\ is_Some (files s !! in_dir d name) /\ part_at (files s) name \/
     (regexec re name = false \/ files s !! in_dir d name = None) /\ held name = []) ->
  exists f' s',
    dir_loop re d names (Some f) a s = Ok ((Some f', a + Z.of_nat (held_count names)), s') /\
    adds f (fun p => existsb (fun name => has_path (KVTree (held name)) p) names) f' /\
    os_ok s' /\ files s' = files s /\ calm (script s').
Proof.
  induction names as [|name names IH]; intros f a s Hlen Hs Hc Hf Ha Hle Hnames.
  { exists f, s. cbn. rewrite Z.add_0_r. split_and!; [done| |done|done|done].
    split; [done|]. intros p. by rewrite orb_false_r. }
  apply Forall_cons_iff in Hlen as [Hln Hlen].
  unfold held_count in *. cbn [sum_list_with] in *. fold (held_count names) in *.
  assert (snprintf PATH_MAX (d ++ str "/" ++ name) = in_dir d name) as Et0
      by (change (snprintf PATH_MAX (in_dir d name) = in_dir d name); apply take_ge; lia).
  assert (forall s1, files s1 = files s -> forall n2, n2 ∈ names ->
     regexec re n2 = true /\ is_Some (files s1 !! in_dir d n2) /\ part_at (files s1) n2 \/
     (regexec re n2 = false \/ files s1 !! in_dir d n2 = None) /\ held n2 = []) as Hnames'.
  { intros s1 -> n2 Hn2. apply Hnames. by right. }
  cbn [dir_loop].
  destruct (Hnames name ltac:(by left)) as [(-> & Hsome & Hne & Hrk & Hnd & t & Hfile & Hwf & Hst & Et)|[Hno Hh]].
  - destruct (read_stored (in_dir d name) t s Hs Hc Hfile Hwf Hst) as
      (t1 & s1 & Er & Hwf1 & Et1 & Hs1 & Hf1 & Hc1).
    rewrite Et0, (bind_ok _ _ _ _ _ Er). change (KVTREE_SUCCESS =? KVTREE_SUCCESS) with true. cbn match.
    assert (t1 ≡ part_kvtree ranks (held name)) as Et2 by (intros p; by rewrite (Et1 p), (Et p)).
    assert (Forall has_key (held name)) as Hk by (eapply Forall_impl; [exact rank_elem_key|exact Hrk]).
    unfold kvtree_util_get_unsigned_long. fold kLEVEL kRANK.
    rewrite (value_of_part t1 ranks (held name) Hwf1 Et2 Hk).
    change (strtoul_0 (fmt_signed 0)) with 0.
    change ((KVTREE_SUCCESS =? KVTREE_SUCCESS) && bool_decide (Some 0 = Some 0)) with true. cbn match.
    destruct (part_extract t1 (held name) Hwf1 Et2 Hrk Hnd Hne) as (t2 & c & -> & Hwc & Hpc & Hlc).
    destruct (merge_spec c f Hf) as (f1 & -> & Hwf2 & Hp1). rewrite wf_keys_ok by done.
    change (rc_of true =? KVTREE_SUCCESS) with true. cbn match.
    rewrite size_spec by (rewrite Hlc; lia). rewrite Hlc, (u64_id (Z.of_nat _)), u64_id by int_lia.
    destruct (IH f1 (a + Z.of_nat (length (held name))) s1) as (f' & s' & -> & Had & Hs' & Hfs & Hcs);
      [done|done|done|done|lia|lia|by apply Hnames'|].
    exists f', s'. split_and!; [|split; [apply Had|]|done|congruence|done].
    { by rewrite Nat2Z.inj_add, Z.add_assoc. }
    intros p. cbn [existsb]. by rewrite (proj2 Had), Hp1, Hpc, orb_assoc.
  - assert (exists s1, os_ok s1 /\ files s1 = files s /\ calm (script s1) /\
        (regexec re name = true ->
         kvtree_read_file (Some (in_dir d name)) (Some kvtree_new) s = Ok ((KVTREE_FAILURE, Some kvtree_new), s1)) /\
        (regexec re name = false -> s1 = s))
      as (s1 & Hs1 & Hf1 & Hc1 & Hrd & Hsk).
    { destruct Hno as [-> | Hno]; [by exists s|].
      destruct (read_missing (in_dir d name) kvtree_new s Hs Hc Hno) as (s1 & Er & ? & ? & ?).
      destruct (regexec re name); [|by exists s]. by exists s1. }
    destruct (IH f a s1) as (f' & s' & E & Had & Hs' & Hfs & Hcs); [done..|rewrite Hh in Hle; cbn in Hle; lia|by apply Hnames'|].
    exists f', s'. rewrite Hh. cbn [length Nat.add]. split_and!; [|split; [apply Had|]|done|congruence|done].
    + destruct (regexec re name); [|by rewrite <- (Hsk eq_refl)].
      rewrite Et0, (bind_ok _ _ _ _ _ (Hrd eq_refl)). exact E.
    + intros [|k p]; [by rewrite (proj2 Had)|]. cbn [existsb]. rewrite (proj2 Had), Hh. done.
Qed.

End scatter.

(** ** Names *)
Lemma drop_slashes_id c s : c <> slash -> drop_slashes (c :: s) = c :: s.
Proof.
  intros Hc. cbn [drop_slashes]. destruct (Byte.eqb c slash) eqn:E; [by apply Byte.byte_dec_bl in E|done].
Qed.

Lemma strip_id s c : c <> slash -> strip (s ++ [c]) = s ++ [c].
Proof.
  intros Hc. unfold strip. rewrite rev_app_distr. cbn [rev app]. rewrite drop_slashes_id by done.
  cbn [rev]. by rewrite rev_involutive.
Qed.

Lemma split_last_plain b : slash ∉ b -> split_last b = (None, b).
Proof.
  induction b as [|c b IH]; intros Hb; [done|]. cbn [split_last].
  rewrite IH by (intros Hin; apply Hb; by right).
  destruct (Byte.eqb c slash) eqn:E; [|done]. apply Byte.byte_dec_bl in E. subst c. exfalso. apply Hb. by left.
Qed.

Lemma split_last_in_dir d b : slash ∉ b -> split_last (in_dir d b) = (Some d, b).
Proof.
  intros Hb. unfold in_dir. cbn [app]. induction d as [|c d IH]; cbn [app split_last].
  - by rewrite split_last_plain.
  - by rewrite IH.
Qed.

(** A directory is named without a slash at its end. *)
Definition dir_name (d : cstring) : Prop := exists d' c, d = d' ++ [c] /\ c <> slash.

Lemma plain_last b : plain b -> exists b' c, b = b' ++ [c] /\ c <> slash.
Proof.
  intros (Hne & Hs & _ & _). destruct (exists_last Hne) as (b' & c & ->). exists b', c. split; [done|].
  intros ->. apply Hs. apply elem_of_app. right. by left.
Qed.

Lemma names_in_dir d b : dir_name d -> plain b -> dirname (in_dir d b) = d /\ basename (in_dir d b) = b.
Proof.
  intros (d' & c & Ed & Hc) Hb. destruct (plain_last b Hb) as (b' & x & Eb & Hx).
  assert (strip (in_dir d b) = in_dir d b) as Es.
  { rewrite Eb. unfold in_dir. rewrite !app_assoc. by apply strip_id. }
  assert (exists y l, in_dir d b = y :: l) as (y & l & El).
  { rewrite Ed. unfold in_dir. destruct d'; by eexists _, _. }
  assert (strip d = d) as Ed2 by (rewrite Ed; by apply strip_id).
  pose proof (split_last_in_dir d b ltac:(apply Hb)) as Esp.
  unfold dirname, basename. rewrite El in *. rewrite Es. cbn match. rewrite Esp. cbn [fst snd]. rewrite Ed2.
  split; [|done]. rewrite Ed. by destruct d'.
Qed.

(** ** The files after a gather *)
Section files.
Context `{Host} `{Zlib}.

Lemma parts_of_writers fuel per_file : forall w l, 1 <= per_file -> NoDup (parts_of fuel per_file w l).*1.
Proof.
  induction fuel as [|fuel IH]; intros w [|e l] Hper; try apply NoDup_nil_2. set (l0 := e :: l).
  cbn [parts_of]. cbn [fmap list_fmap fst]. apply list.NoDup_cons. split; [|by apply IH].
  intros (x & Ew & Hx)%list_elem_of_fmap. apply parts_of_in in Hx as (_ & _ & Hw & _); [|done].
  assert (0 < length (take (Z.to_nat per_file) l0))%nat by (rewrite length_take; unfold l0; simpl length; lia).
  cbn [fst] in Ew. lia.
Qed.

Lemma parts_of_concat fuel per_file : forall w l,
  1 <= per_file -> (length l <= fuel)%nat -> concat (parts_of fuel per_file w l).*2 = l.
Proof.
  induction fuel as [|fuel IH]; intros w [|e l] Hper Hf; try done; [simpl in Hf; lia|].
  cbn [parts_of]. set (l0 := e :: l) in *. cbn [fmap list_fmap snd concat].
  rewrite IH; [apply take_drop|done|]. rewrite length_drop. simpl in Hf |- *. lia.
Qed.

Lemma suffix_inj prefix w w' :
  is_int w -> is_int w' -> prefix ++ part_suffix w = prefix ++ part_suffix w' -> w = w'.
Proof. intros Hw Hw' E%app_inv_head. unfold part_suffix in E. apply app_inv_head in E. by apply fmt_inj. Qed.

Lemma written_lookup prefix ranks ps fs fs' :
  written prefix ranks ps fs fs' -> NoDup ps.*1 -> Forall (fun x => is_int x.1) ps ->
  (forall x, x ∈ ps -> exists t, fs' !! (prefix ++ part_suffix x.1) = Some (persisted (Some t)) /\
     wf t /\ storable t /\ t ≡ part_kvtree ranks x.2) /\
  (forall f, (forall x, x ∈ ps -> f <> prefix ++ part_suffix x.1) -> fs' !! f = fs !! f).
Proof.
  induction 1 as [fs|w l t ps fs fs' Ht Hst Et Hw IH]; intros Hnd Hi.
  { split; [by intros x ?%elem_of_nil|done]. }
  apply list.NoDup_cons in Hnd as [Hni Hnd]. apply Forall_cons_iff in Hi as [Hiw Hi].
  destruct (IH Hnd Hi) as [IH1 IH2]. clear IH. split.
  - intros x [->|Hx]%list.elem_of_cons; [|by apply IH1]. exists t. split; [|done]. cbn [fst].
    rewrite IH2; [apply lookup_insert_eq|]. intros x Hx E%suffix_inj; [|done|].
    + apply Hni. cbn [fst]. apply list_elem_of_fmap. by exists x.
    + rewrite list.Forall_forall in Hi. by apply (Hi x).
  - intros f Hf. rewrite IH2 by (intros x Hx; apply Hf; by right).
    apply lookup_insert_ne. intros E. by apply (Hf (w, l)); [left|].
Qed.

End files.

(** ** Reading what was written *)
Section roundtrip.
Context `{Host} `{Zlib} `{Qsort} `{Libc} `{Directory} `{Regex}.
Context (d b : cstring) (ranks : Z).
Context (ps : list (Z * list kvtree_elem)).
Hypothesis Hb : plain b.
Hypothesis Hlen : (length (in_dir d b) + 80 <= 1023)%nat /\ (length b + 80 <= 255)%nat.
Hypothesis Hord : Forall (fun c => ordinary c = true) b.
Hypothesis Hps : NoDup ps.*1 /\ Forall (fun x => 0 <= x.1 <= INT_MAX /\ x.2 <> []) ps.

Definition part_of_name (x : Z * list kvtree_elem) : cstring := b ++ part_suffix x.1.

(** The elements in the file of a name, none when it is not a part. *)
Definition held_by (name : cstring) : list kvtree_elem :=
  match find (fun x => bool_decide (name = part_of_name x)) ps with Some x => x.2 | None => [] end.

Lemma part_path_name x : in_dir d (part_of_name x) = in_dir d b ++ part_suffix x.1.
Proof. unfold in_dir, part_of_name. by rewrite <- !app_assoc. Qed.

Lemma part_suffix_length w : (length (part_suffix w) <= 69)%nat.
Proof.
  unfold part_suffix. rewrite length_app. change (length (str ".0.")) with 3%nat.
  pose proof (fmt_signed_length w). lia.
Qed.

Lemma part_digits x :
  x ∈ ps -> fmt_signed x.1 <> [] /\ Forall (fun c => is_digit c = true) (fmt_signed x.1).
Proof.
  intros Hx. destruct Hps as [_ Hf]. rewrite list.Forall_forall in Hf. apply fmt_signed_digits.
  by destruct (Hf x Hx) as [[? _] _].
Qed.

Lemma part_is_plain x : x ∈ ps -> plain (part_of_name x).
Proof.
  intros Hx. destruct (part_digits x Hx) as [_ Hd].
  destruct Hb as (Hne & Hs & Hn & _), Hlen as [_ Hl]. pose proof (part_suffix_length x.1). split_and!.
  - unfold part_of_name. by destruct b.
  - unfold part_of_name, part_suffix. rewrite !elem_of_app. intros [?|[Hin|Hin]]; [done| |].
    + by apply (bool_decide_eq_true_2 _) in Hin.
    + rewrite list.Forall_forall in Hd. by apply Hd in Hin.
  - unfold part_of_name, nul_free. rewrite elem_of_app. intros [?|?]; [done|by apply (part_suffix_nul_free x.1)].
  - unfold part_of_name. rewrite length_app. lia.
Qed.

Lemma part_matches x : x ∈ ps -> part_name b (part_of_name x).
Proof.
  intros Hx. destruct (part_digits x Hx) as [Hne Hd]. exists b, (fmt_signed x.1). split_and!; [done| |done|done].
  apply Forall2_same_length_lookup_2; [done|]. intros i c c' Hc Hc'. right. congruence.
Qed.

Lemma base_no_match : ~ part_name b b.
Proof.
  intros (x & ds & E & Hf & _). apply Forall2_length in Hf. apply (f_equal length) in E.
  rewrite !length_app in E. change (length (str ".0.")) with 3%nat in E. lia.
Qed.

Lemma held_part x : x ∈ ps -> held_by (part_of_name x) = x.2.
Proof.
  intros Hx. unfold held_by. destruct Hps as [Hnd Hf].
  destruct (find _ ps) as [y|] eqn:Hy.
  - apply find_some in Hy as [Hy%list_elem_of_In E%bool_decide_eq_true].
    unfold part_of_name in E. rewrite list.Forall_forall in Hf.
    apply suffix_inj in E; [|destruct (Hf x Hx); int_lia|destruct (Hf y Hy); int_lia].
    apply list_elem_of_lookup in Hx as [i Hi], Hy as [j Hj].
    assert (i = j) as ->; [|congruence].
    apply (NoDup_lookup ps.*1 i j x.1); [done| |]; rewrite list_lookup_fmap, ?Hi, ?Hj; simpl; congruence.
  - apply list_elem_of_In in Hx. pose proof (find_none _ _ Hy _ Hx) as Hz. cbn beta in Hz.
    by rewrite bool_decide_true in Hz.
Qed.

Lemma held_other name : (forall x, x ∈ ps -> name <> part_of_name x) -> held_by name = [].
Proof.
  intros Hn. unfold held_by. destruct (find _ ps) as [y|] eqn:Hy; [|done].
  apply find_some in Hy as [Hy%list_elem_of_In E%bool_decide_eq_true]. by destruct (Hn y Hy).
Qed.

(** The names of a listing with all parts. *)
Context (names : list cstring) (l : list kvtree_elem).
Hypothesis Hnames : NoDup names /\ forall x, x ∈ ps -> part_of_name x ∈ names.
Hypothesis Hl : concat ps.*2 = l.

Lemma part_names_nodup : NoDup (part_of_name <$> ps).
Proof.
  destruct Hps as [Hnd Hf]. apply NoDup_fmap_2_strong; [|by apply NoDup_fmap_1 in Hnd].
  intros x y Hx Hy E. unfold part_of_name in E. rewrite list.Forall_forall in Hf.
  apply suffix_inj in E; [|destruct (Hf x Hx); int_lia|destruct (Hf y Hy); int_lia].
  apply list_elem_of_lookup in Hx as [i Hi], Hy as [j Hj].
  assert (i = j) as ->; [|congruence].
  apply (NoDup_lookup ps.*1 i j x.1); [done| |]; rewrite list_lookup_fmap, ?Hi, ?Hj; simpl; congruence.
Qed.

Lemma held_count_all : held_count held_by names = length l.
Proof.
  destruct Hnames as [Hnd Hin].
  assert ((part_of_name <$> ps) ⊆+ names) as [rest Hrest]%submseteq_Permutation.
  { apply NoDup_submseteq; [apply part_names_nodup|]. intros n (x & -> & Hx)%list_elem_of_fmap. by apply Hin. }
  unfold held_count. rewrite Hrest, sum_list_with_app.
  assert (sum_list_with (fun name => length (held_by name)) rest = 0%nat) as ->.
  { assert (forall n, n ∈ rest -> held_by n = []) as Hr.
    { intros n Hn. apply held_other. intros x Hx ->. rewrite Hrest in Hnd.
      apply list.NoDup_app in Hnd as (_ & Hd & _). eapply Hd; [|exact Hn]. by apply list_elem_of_fmap_2. }
    clear -Hr. induction rest as [|n rest IH]; [done|]. cbn [sum_list_with].
    rewrite IH by (intros m Hm; apply Hr; by right). by rewrite Hr by (by left). }
  rewrite Nat.add_0_r, <- Hl.
  assert (forall qs, (forall x, x ∈ qs -> x ∈ ps) ->
    sum_list_with (fun name => length (held_by name)) (part_of_name <$> qs) = length (concat qs.*2)) as Hq.
  { induction qs as [|x qs IH]; intros Hqs; [done|]. cbn [fmap list_fmap sum_list_with concat].
    rewrite length_app, <- IH by (intros y Hy; apply Hqs; by right). by rewrite held_part by (apply Hqs; by left). }
  by apply Hq.
Qed.

Lemma held_paths k q :
  existsb (fun name => has_path (KVTree (held_by name)) (k :: q)) names = has_path (KVTree l) (k :: q).
Proof.
  destruct Hnames as [_ Hin]. apply Bool.eq_true_iff_eq. rewrite existsb_exists, list_path, existsb_exists, <- Hl. split.
  - intros (n & Hn & Hp). rewrite list_path, existsb_exists in Hp. destruct Hp as (e & He & Hp).
    exists e. split; [|done]. unfold held_by in He. destruct (find _ ps) as [x|] eqn:Hx; [|done].
    apply find_some in Hx as [Hx _]. apply in_concat. exists x.2. split; [|done].
    apply list_elem_of_In, list_elem_of_fmap_2. by apply list_elem_of_In.
  - intros (e & (c & Hc & He)%in_concat & Hp). apply list_elem_of_In in Hc.
    apply list_elem_of_fmap in Hc as (x & -> & Hx). exists (part_of_name x).
    split; [by apply list_elem_of_In, Hin|]. rewrite held_part by done. rewrite list_path, existsb_exists. by exists e.
Qed.

Lemma listed_parts re fs :
  (forall name, nul_free name -> regexec re name = true <-> part_name b name) ->
  Forall plain names -> Forall rank_elem l -> NoDup (map key l) ->
  (forall x, x ∈ ps -> exists t, fs !! in_dir d (part_of_name x) = Some (persisted (Some t)) /\
     wf t /\ storable t /\ t ≡ part_kvtree ranks x.2) ->
  (forall name, part_name b name -> (forall x, x ∈ ps -> name <> part_of_name x) -> fs !! in_dir d name = None) ->
  forall name, name ∈ names ->
    regexec re name = true /\ is_Some (fs !! in_dir d name) /\ part_at ranks d held_by fs name \/
    (regexec re name = false \/ fs !! in_dir d name = None) /\ held_by name = [].
Proof.
  intros Hre Hplain Hrk Hnd Hfile Hno name Hn. rewrite list.Forall_forall in Hplain.
  destruct (Hplain name Hn) as (_ & _ & Hnul & _).
  destruct (decide (name ∈ part_of_name <$> ps)) as [(x & -> & Hx)%list_elem_of_fmap|Hni].
  - left. split; [by apply Hre, part_matches|].
    destruct (Hfile x Hx) as (t & Hf & Hw & Hst & Et). split; [by eexists|]. unfold part_at.
    rewrite held_part by done.
    assert (x.2 `sublist_of` l) as Hsub.
    { rewrite <- Hl. clear -Hx. induction ps as [|y qs IH]; [by apply elem_of_nil in Hx|]. cbn [fmap list_fmap concat].
      apply list.elem_of_cons in Hx as [->|Hx]; [by apply sublist_inserts_r|by apply sublist_inserts_l, IH]. }
    split_and!.
    + destruct Hps as [_ Hf']. rewrite list.Forall_forall in Hf'. by apply Hf'.
    + rewrite list.Forall_forall in *. intros e He. apply Hrk. by apply (sublist_subseteq x.2 l).
    + by eapply keys_sub.
    + by exists t.
  - assert (forall x, x ∈ ps -> name <> part_of_name x) as Hne.
    { intros x Hx ->. apply Hni. by apply list_elem_of_fmap_2. }
    right. split; [|by apply held_other]. destruct (regexec re name) eqn:Hr; [|by left].
    right. apply Hno; [by apply Hre|done].
Qed.

End roundtrip.

(** ** Properties *)
Section properties.
Context `{Host} `{Zlib} `{Qsort} `{Libc}.

(** C32. [kvtree_write_to_gather] on a tree with one element per rank, whatever the
    system replies: it comes back with no descriptor left open and the tree
    sorted by rank.  When it reports success, and without system errors it does,
    the files are the parts in the order of the ranks, of
    [KVTREE_ENTRIES_PER_FILE] elements but for the last, each with its level and
    the number of ranks, and the map of the parts under the prefix; no other file
    has changed. *)
Theorem gather_writes_parts env prefix data ranks s :
  gather_inputs env prefix data ranks -> os_ok s ->
  gather_post env prefix data ranks s (kvtree_write_to_gather env prefix (Some data) ranks s) /\
  forall l, concat (parts_of (length l) (per_file_of env) 0 l).*2 = l.
Proof.
  intros Hin Hs. split; [by apply write_to_gather_eq|]. intros l. apply parts_of_concat; [|done].
  by destruct Hin.
Qed.

Context `{Directory} `{Regex}.

(** A prefix that names its directory. *)
Record prefix_in (d b : cstring) : Prop := {
  prefix_dir : dir_name d;
  prefix_base : plain b /\ (length b + 80 <= 255)%nat;
  prefix_ordinary : Forall (fun c => ordinary c = true) b
}.

Lemma part_written ps x prefix ranks fs fs' m :
  written prefix ranks ps fs fs' -> NoDup ps.*1 -> Forall (fun x => 0 <= x.1 <= INT_MAX) ps -> x ∈ ps ->
  exists t, <[prefix := m]> fs' !! (prefix ++ part_suffix x.1) = Some (persisted (Some t)) /\
     wf t /\ storable t /\ t ≡ part_kvtree ranks x.2.
Proof.
  intros Hw Hnd Hi Hx. destruct (written_lookup _ _ _ _ _ Hw Hnd) as [Hl _].
  { eapply Forall_impl; [|exact Hi]. intros y Hy. cbn beta in *. int_lia. }
  destruct (Hl x Hx) as (t & Ht & Hrest). exists t. split; [|done].
  rewrite lookup_insert_ne; [done|]. intros E. apply (f_equal length) in E. rewrite length_app in E.
  unfold part_suffix in E. rewrite length_app in E. change (length (str ".0.")) with 3%nat in E. lia.
Qed.

Lemma read_scatter_eq d b ranks ps l data0 fs s :
  prefix_in d b -> (length (in_dir d b) + 80 <= 1023)%nat -> 0 <= ranks <= INT_MAX ->
  Forall rank_elem l -> NoDup (map key l) -> Z.of_nat (length l) <= INT_MAX ->
  NoDup ps.*1 -> Forall (fun x => 0 <= x.1 <= INT_MAX /\ x.2 <> []) ps -> concat ps.*2 = l ->
  gathered (in_dir d b) ranks ps fs (files s) ->
  (forall name, part_name b name -> fs !! in_dir d name = None) ->
  os_ok s -> calm (script s) -> wf data0 -> nul_free (in_dir d b) ->
  exists t s',
    kvtree_read_scatter_single (in_dir d b) (Some data0) s
      = Ok ((if Z.of_nat (length l) =? ranks then KVTREE_SUCCESS else KVTREE_FAILURE, Some t), s') /\
    files s' = files s /\ wf t /\ forall p, has_path t p = has_path data0 p || has_path (KVTree l) p.
Proof.
  intros [Hd [Hb Hbl] Hord] Hlen Hranks Hrk Hnd Hll Hpn Hpf Hcat (fs1 & m & Hw & Hwm & Hsm & Em & Ef)
    Hfresh Hs Hc Hd0 Hnul. pose proof (conj Hlen Hbl) as HL. pose proof (conj Hpn Hpf) as HP.
  unfold kvtree_read_scatter_single.
  destruct (read_stored (in_dir d b) m s Hs Hc) as (m' & s1 & Er & Hwm' & Em' & Hs1 & Hf1 & Hc1);
    [rewrite Ef; apply lookup_insert_eq|done|done|].
  rewrite (bind_ok _ _ _ _ _ Er). change (KVTREE_SUCCESS =? KVTREE_SUCCESS) with true. cbn [negb].
  unfold kvtree_util_get_unsigned_long. fold kRANKS.
  rewrite (value_of_map m' ranks ps.*1 Hwm') by (intros p; by rewrite (Em' p), (Em p)).
  change (KVTREE_SUCCESS =? KVTREE_SUCCESS) with true. cbn [negb]. unfold strdup. rewrite c_str_id by done.
  destruct (names_in_dir d b Hd Hb) as [-> ->].
  destruct (regexec_part b Hord) as (re & Ere & Hre).
  assert (snprintf PATH_MAX (part_pattern b) = part_pattern b) as ->.
  { unfold snprintf. apply take_ge. unfold part_pattern. rewrite !length_app.
    change (length (str "^")) with 1%nat. change (length (str "\.0\.[0-9]+$")) with 12%nat.
    unfold PATH_MAX. lia. }
  rewrite Ere.
  destruct (listing_files d (files s) b Hb) as (names & Hlist & _);
    [rewrite Ef, lookup_insert_eq; by eexists|].
  destruct (listing_plain d (files s) names Hlist) as [Hnn Hnp].
  assert (exists s2, sys_opendir d s1 = Ok (Some names, s2) /\ os_ok s2 /\ files s2 = files s1 /\ calm (script s2))
    as (s2 & Eo & Hs2 & Hf2 & Hc2).
  { unfold sys_opendir, io_bind. rewrite syscall_eq. cbn [obind].
    exists (after s1). split_and!; [|done|done|by eapply calm_suffix; [apply suffix_tail|]].
    assert (listing d (files (after s1)) = Some names) as Hla by (change (files (after s1)) with (files s1); by rewrite Hf1).
    pose proof (calm_reply s1) as Hrep.
    destruct (reply_of s1) as [| |e]; [by rewrite Hla..|by destruct (Hrep e)]. }
  rewrite (bind_ok _ _ _ _ _ Eo).
  assert (Forall (fun x => 0 <= x.1 <= INT_MAX) ps) as Hpi by (eapply Forall_impl; [|exact Hpf]; by intros x [? _]).
  assert (forall x, x ∈ ps -> exists t, files s2 !! in_dir d (part_of_name b x) = Some (persisted (Some t)) /\
     wf t /\ storable t /\ t ≡ part_kvtree ranks x.2) as Hfiles.
  { intros x Hx. rewrite part_path_name, Hf2, Hf1, Ef. by eapply part_written. }
  assert (NoDup names /\ forall x, x ∈ ps -> part_of_name b x ∈ names) as Hnames.
  { split; [done|]. intros x Hx.
    destruct (Hfiles x Hx) as (t & Ht & _). rewrite Hf2, Hf1 in Ht.
    destruct (listing_files d (files s) (part_of_name b x)) as (names' & Hl' & Hin).
    - by apply (part_is_plain d b ps Hb HL Hord HP).
    - by eexists.
    - congruence. }
  destruct (dir_loop_spec ranks d (held_by b ps) re names kvtree_new 0 s2) as
    (f & s3 & El & Ha & Hs3 & Hf3 & Hc3).
  { eapply Forall_impl; [|exact Hnp]. intros n (_ & _ & _ & Hn). cbn beta.
    unfold in_dir in *. rewrite !length_app in *. change (length [slash]) with 1%nat in *. unfold PATH_MAX. lia. }
  { done. } { done. } { apply wf_new. } { lia. }
  { by rewrite (held_count_all d b ps HL HP names l Hnames Hcat), Z.add_0_l. }
  { apply (listed_parts d b ranks ps HL HP names l Hcat); try done.
    intros n Hn Hne. rewrite Hf2, Hf1, Ef. rewrite lookup_insert_ne.
    - destruct (written_lookup _ _ _ _ _ Hw Hpn) as [_ Ho].
      { eapply Forall_impl; [|exact Hpi]. intros y Hy. cbn beta in *. int_lia. }
      rewrite Ho; [by apply Hfresh|]. intros x Hx E. apply (Hne x Hx).
      rewrite <- part_path_name in E. unfold in_dir in E. do 2 apply app_inv_head in E. done.
    - intros E. unfold in_dir in E. do 2 apply app_inv_head in E. rewrite <- E in Hn. by apply (base_no_match d b HL). }
  rewrite (bind_ok _ _ _ _ _ El).
  rewrite (held_count_all d b ps HL HP names l Hnames Hcat), Z.add_0_l.
  destruct (merge_spec f data0 Hd0) as (t & -> & Hwt & Hpt).
  assert (strtoul_0 (fmt_signed ranks) = ranks) as ->.
  { change (fmt_signed ranks) with (if ranks <? 0 then minus :: print_unsigned 10 (- ranks) else fmt_unsigned ranks).
    rewrite (proj2 (Z.ltb_ge _ _)) by lia. apply strtoul_fmt_unsigned. int_lia. }
  exists t, s3. split_and!; [|congruence|done|].
  - case_bool_decide as Eb; [rewrite (proj2 (Z.eqb_neq _ _)) by congruence; done|].
    injection Eb as ->. by rewrite Z.eqb_refl.
  - intros [|k q]; [done|]. rewrite Hpt, (proj2 Ha), has_path_new. cbn [has_path_opt orb]. f_equal.
    apply (held_paths d b ps HL HP names l Hnames Hcat).
Qed.

(** *** No progress *)
Lemma wf_store q : forall t c c', wf t -> kvtree_deref t q = Some c -> wf c' -> wf (kvtree_store t q c').
Proof.
  induction q as [|k q IH]; intros t c c' Hwf Hd Hc'; [done|].
  apply deref_cons in Hd as (x & Hg & Hd). rewrite (store_cons _ _ _ _ _ Hg).
  apply wf_put_child; [done|]. apply (IH x c); [exact (wf_get _ _ _ Hwf Hg)|done|done].
Qed.

Lemma set_any t q c ky v :
  wf t -> kvtree_deref t q = Some c -> setting_ok v -> (strlen ky < KVTREE_MAX_LINE)%nat ->
  exists t' c', at_ptr_out (Some t) (Some q) (fun h => util_set h ky v) = Ok (Some t', KVTREE_SUCCESS) /\
    wf t' /\ kvtree_deref t' q = Some c'.
Proof.
  intros Hwf Hd Hv Hk. assert (wf c) as Hc by (by eapply wf_deref).
  destruct (util_set_spec c ky v Hc Hv Hk) as (c' & E & Hc' & _).
  exists (kvtree_store t q c'), c'. unfold at_ptr_out. rewrite Hd, E. cbn [obind].
  rewrite (at_ptr_eq t q c _ c' KVTREE_SUCCESS Hd) by done. split_and!; [done|by eapply wf_store|].
  by eapply deref_store.
Qed.

Lemma record_part_wf h w : wf h -> exists h', record_part (Some h) w = Ok (Some h') /\ wf h'.
Proof.
  intros Hwf. unfold record_part, kvtree_set_kv_int.
  destruct (set_kv_adds h kRANK (fmt_signed w) Hwf) as (t1 & c1 & -> & Ha1 & Hd1 & Hc1).
  destruct (set_any t1 [kRANK; fmt_signed w] c1 (str "FILE") (SStr (part_suffix w)) (proj1 Ha1) Hd1)
    as (t2 & c2 & E2 & Hw2 & Hd2); [done|vm_compute; lia|].
  destruct (set_any t2 [kRANK; fmt_signed w] c2 (str "OFFSET") (SBytecount 0) Hw2 Hd2)
    as (t3 & c3 & E3 & Hw3 & _); [done|vm_compute; lia|].
  cbn [util_set] in E2, E3. rewrite E2. cbn [obind]. rewrite E3. by exists t3.
Qed.

(** With [KVTREE_ENTRIES_PER_FILE] zero or negative, or not a number, the loop
    of [kvtree_write_to_gather] makes no progress: as long as the system reports
    no error it writes an empty part file again and again, with every amount of
    fuel. *)
Theorem gather_no_progress prefix ranks per_file l fuel : forall h w m s,
  per_file <= 0 -> l <> [] -> nul_free prefix -> (length prefix + 80 <= 1023)%nat ->
  storable (part_kvtree ranks []) -> wf h -> is_int w -> os_ok s -> calm (script s) ->
  parts_loop fuel prefix ranks per_file l (Some h) KVTREE_SUCCESS w m s = NoFuel.
Proof.
  induction fuel as [|fuel IH]; intros h w m s Hper Hl Hp Hlen Hst Hh Hw Hs Hc; [by destruct l|].
  destruct (base_spec kLEVEL 0 kRANKS ranks) as (b & Eb & Hb).
  assert (b ≡ part_kvtree ranks []) as Ebp.
  { intros [|k q]; [done|]. rewrite (proj2 Hb), has_path_new, part_path by constructor.
    cbn [has_path_opt orb existsb]. apply orb_comm. }
  assert (storable b) as Hsb.
  { eapply storable_sub; [apply Hb|apply (part_wf ranks []); constructor|by apply equiv_sub|exact Hst]. }
  rewrite (parts_step fuel prefix ranks per_file l (Some h) KVTREE_SUCCESS w m s b m [] l); [|done|done|done|].
  2:{ destruct (kvtree_set_kv_int (Some kvtree_new) (Some kLEVEL) 0) as [b1 p1].
      destruct (kvtree_set_kv_int b1 (Some kRANKS) ranks) as [b2 p2]. cbn [fst] in Eb. subst b2.
      destruct l as [|e l]; [done|]. cbn [entries_loop]. by rewrite (proj2 (Z.ltb_ge _ _)). }
  destruct (write_file_eq (prefix ++ part_suffix w) b s Hs) as
    (r & s1 & Ew & Hr & Hfd & Hs1 & Hsc & _ & _ & Hcalm); [apply Hsb|].
  rewrite (bind_ok _ _ _ _ _ Ew), (Hcalm Hc). change (KVTREE_SUCCESS =? KVTREE_SUCCESS) with true.
  cbn beta iota delta [negb]. destruct (record_part_wf h w Hh) as (h1 & Eh & Hh1).
  rewrite (lift_ok _ _ _ _ Eh). cbn [length]. rewrite Z.add_0_r, i32_id by done.
  apply IH; try done. by eapply calm_suffix.
Qed.

(** C31. A tree written with [kvtree_write_to_gather] is what
    [kvtree_read_scatter_single] reads back, in any order the directory lists
    the part files: when the write reported success, and without system errors it
    does, the read adds exactly the paths of the tree to the caller's hash, and
    it reports success exactly when the number of ranks given to the writer is
    the number of elements.  No old part file may be left in the directory, and
    the name of the prefix has no special characters of regular expressions but
    dots. *)
Theorem gather_scatter_roundtrip env d b data ranks data0 s :
  gather_inputs env (in_dir d b) data ranks -> prefix_in d b -> 0 <= ranks <= INT_MAX ->
  (forall name, part_name b name -> files s !! in_dir d name = None) -> os_ok s -> wf data0 ->
  exists l rc s1,
    kvtree_write_to_gather env (in_dir d b) (Some data) ranks s = Ok ((rc, Some (KVTree l)), s1) /\
    (calm (script s) -> rc = KVTREE_SUCCESS) /\
    (rc = KVTREE_SUCCESS -> calm (script s1) ->
     exists t s2,
       kvtree_read_scatter_single (in_dir d b) (Some data0) s1
         = Ok ((if Z.of_nat (length (lh_first data)) =? ranks then KVTREE_SUCCESS else KVTREE_FAILURE, Some t), s2) /\
       files s2 = files s1 /\ wf t /\ forall p, has_path t p = has_path data0 p || has_path data p).
Proof.
  intros Hin Hpre Hranks Hfresh Hs Hd0.
  destruct (write_to_gather_eq env (in_dir d b) data ranks s Hin Hs) as
    (l & rc & s1 & Ew & HP & _ & Hs1 & _ & _ & _ & Hcalm & Hok).
  exists l, rc, s1. split_and!; [done|done|]. intros Hrc Hc. specialize (Hok Hrc).
  destruct Hin as [[Hwf Hre] [Hsort _] [Hpn Hpl] Hper _ _].
  assert (forall x, x ∈ parts_of (length l) (per_file_of env) 0 l -> 0 <= x.1 <= INT_MAX /\ x.2 <> []) as Hps.
  { intros x Hx. apply parts_of_in in Hx as (Hne & _ & Hw & Hle); [|done]. rewrite HP in Hle. split; [lia|done]. }
  destruct (read_scatter_eq d b ranks (parts_of (length l) (per_file_of env) 0 l) l data0 (files s) s1)
    as (t & s2 & Er & Hf & Hwt & Hp); [done|done|done|by eapply rank_elems_perm| | | | | |done|done|done|done|done|done|].
  - apply wf_iff in Hwf as [Hnd _]. by rewrite HP.
  - by rewrite HP.
  - by apply parts_of_writers.
  - by apply list.Forall_forall.
  - by apply parts_of_concat.
  - exists t, s2. rewrite <- HP. split_and!; [done|done|done|]. intros p. rewrite Hp. f_equal.
    symmetry. destruct (wf_permutation data l Hwf HP) as [_ E]. by rewrite (E p).
Qed.

End properties.

(** ** Instances on which the witnesses evaluate *)
#[local] Instance plain_dec name : Decision (plain name).
Proof. unfold plain, nul_free. apply _. Defined.

Definition name_in (d f : cstring) : option cstring :=
  let p := d ++ [slash] in
  if decide (take (length p) f = p) then Some (drop (length p) f) else None.

Lemma name_in_dir d f name : name_in d f = Some name <-> f = in_dir d name.
Proof.
  unfold name_in, in_dir. rewrite app_assoc. set (p := d ++ [slash]). case_decide as E.
  - rewrite <- (take_drop (length p) f) at 2. rewrite E. split; [by intros [= ->]|].
    intros ->%app_inv_head. done.
  - split; [done|]. intros ->. destruct E. by rewrite take_app_length.
Qed.

(** Directories that hold files only. *)
Program Definition dir_of_files : Directory :=
  {| listing d fs := Some (remove_dups (filter plain (omap (name_in d) (map_to_list fs).*1))) |}.
Next Obligation.
  intros d fs names [= <-]. split; [apply NoDup_remove_dups|].
  apply list.Forall_forall. intros n Hn. rewrite elem_of_remove_dups, list_elem_of_filter in Hn. by destruct Hn.
Qed.
Next Obligation.
  intros d fs name Hp [c Hc]. eexists. split; [done|]. apply elem_of_remove_dups, list_elem_of_filter.
  split; [done|]. apply list_elem_of_omap. exists (in_dir d name). split; [|by apply name_in_dir].
  apply list_elem_of_fmap. exists (in_dir d name, c). split; [done|]. by apply elem_of_map_to_list.
Qed.

(** A matcher for the one pattern of the program. *)
Definition match_part (p name : cstring) : bool :=
  let x := take (length p) name in
  let rest := drop (length p) name in
  let ds := drop 3 rest in
  bool_decide (Forall2 (fun c d => c = dot \/ c = d) p x) && bool_decide (take 3 rest = str ".0.")
  && bool_decide (ds <> []) && forallb is_digit ds.

Definition compile_part (pat : cstring) : option cstring :=
  let p := take (length pat - 13) (drop 1 pat) in
  if decide (part_pattern p = pat) then Some p else None.

Program Definition regex_part : Regex :=
  {| regex_t := cstring; regcomp := compile_part; regexec := match_part |}.
Next Obligation.
  intros p Hp. exists p. split.
  - unfold compile_part.
    assert (take (length (part_pattern p) - 13) (drop 1 (part_pattern p)) = p) as ->; [|by rewrite decide_True].
    unfold part_pattern. change (drop 1 (str "^" ++ p ++ str "\.0\.[0-9]+$")) with (p ++ str "\.0\.[0-9]+$").
    rewrite !length_app. change (length (str "^")) with 1%nat. change (length (str "\.0\.[0-9]+$")) with 12%nat.
    replace (1 + (length p + 12) - 13)%nat with (length p) by lia. apply take_app_length.
  - intros name _. unfold match_part. rewrite !andb_true_iff, !bool_decide_eq_true. split.
    + intros [[[Hf Ht] Hne] Hd]. exists (take (length p) name), (drop 3 (drop (length p) name)).
      split_and!; [|done|done|].
      2:{ apply list.Forall_forall. intros c Hc. rewrite forallb_forall in Hd. by apply Hd, list_elem_of_In. }
      by rewrite <- Ht, take_drop, take_drop.
    + intros (x & ds & -> & Hf & Hne & Hd). pose proof (Forall2_length Hf) as Hl.
      rewrite Hl, take_app_length, drop_app_length.
      change (drop 3 (str ".0." ++ ds)) with ds. split_and!; [done|done|done|].
      apply forallb_forall. intros c Hc%list_elem_of_In. rewrite list.Forall_forall in Hd. by apply Hd.
Qed.

(** ** Witnesses *)
Definition gather_data : kvtree :=
  KVTree [Elem (Some (str "1")) (Some (sample_tree "FILE" "b" kvtree_new));
          Elem (Some (str "0")) (Some (sample_tree "FILE" "a" kvtree_new));
          Elem (Some (str "2")) None].

Lemma gather_sample :
  @gather_inputs host_le (Some (str "2")) (in_dir (str "/d") (str "ck.x")) gather_data 3.
Proof.
  split.
  - split; [wf_check|]. cbn [lh_first gather_data].
    repeat (apply Forall_cons_iff; split; [split; [apply wf_elem_iff; split; [by apply str_nul_free|wf_check || exact I]|
      split; [by vm_compute|by vm_compute]]|]). constructor.
  - split; [by vm_compute|]. simpl length. simpl malloc_max. lia.
  - split; [apply (bool_decide_eq_true_1 (NUL ∉ in_dir (str "/d") (str "ck.x"))); by vm_compute|vm_compute; lia].
  - by vm_compute.
  - split; apply Z.leb_le; vm_compute; reflexivity.
  - split; apply Z.leb_le; vm_compute; reflexivity.
Qed.

Lemma prefix_sample : prefix_in (str "/d") (str "ck.x").
Proof.
  split.
  - by exists [slash], (Init.Byte.x64).
  - split; [apply (bool_decide_eq_true_1 _); by vm_compute|vm_compute; lia].
  - by repeat constructor.
Qed.

Lemma gather_writes_parts_witness :
  let prefix := in_dir (str "/d") (str "ck.x") in
  @gather_post host_le zlib_sum (Some (str "2")) prefix gather_data 3 (empty_os [])
    (@kvtree_write_to_gather host_le zlib_sum InsertionSort.qsort_insertion libc_sample (Some (str "2")) prefix
       (Some gather_data) 3 (empty_os [])) /\
  forall l, concat (parts_of (length l) (per_file_of (Some (str "2"))) 0 l).*2 = l.
Proof.
  intros prefix.
  apply (@gather_writes_parts host_le zlib_sum InsertionSort.qsort_insertion libc_sample);
    [apply gather_sample|apply empty_os_ok].
Defined.

Lemma gather_no_progress_witness :
  @parts_loop host_le zlib_sum libc_sample 4 (str "/d/ck") 3 0 (lh_first gather_data)
    (Some kvtree_new) KVTREE_SUCCESS 0 (-1) (empty_os []) = NoFuel.
Proof.
  apply (@gather_no_progress host_le zlib_sum libc_sample).
  - lia.
  - done.
  - by apply str_nul_free.
  - vm_compute. lia.
  - split; apply Z.leb_le; vm_compute; reflexivity.
  - apply wf_new.
  - by vm_compute.
  - apply empty_os_ok.
  - constructor.
Defined.

Lemma gather_scatter_roundtrip_witness :
  let prefix := in_dir (str "/d") (str "ck.x") in
  exists l rc s1,
    @kvtree_write_to_gather host_le zlib_sum InsertionSort.qsort_insertion libc_sample (Some (str "2")) prefix
      (Some gather_data) 3 (empty_os []) = Ok ((rc, Some (KVTree l)), s1) /\
    (calm (script (empty_os [])) -> rc = KVTREE_SUCCESS) /\
    (rc = KVTREE_SUCCESS -> calm (script s1) ->
     exists t s2,
       @kvtree_read_scatter_single host_le zlib_sum dir_of_files regex_part prefix (Some kvtree_new) s1
         = Ok ((if Z.of_nat (length (lh_first gather_data)) =? 3 then KVTREE_SUCCESS else KVTREE_FAILURE, Some t), s2) /\
       files s2 = files s1 /\ wf t /\ forall p, has_path t p = has_path kvtree_new p || has_path gather_data p).
Proof.
  intros prefix.
  apply (@gather_scatter_roundtrip host_le zlib_sum InsertionSort.qsort_insertion libc_sample dir_of_files regex_part).
  - apply gather_sample.
  - apply prefix_sample.
  - by vm_compute.
  - intros name _. apply lookup_empty.
  - apply empty_os_ok.
  - apply wf_new.
Defined.
