(* ===== verification/Net.v ===== *)
(** MPI processes and what MPI documents about the calls the program makes.

    A process is a computation that stops with an outcome or waits for MPI
    ([proc]).  The library code (Mpi, Exchange) only builds such computations:
    what MPI does is the relation [step] on the state of all processes and of
    the messages under way.  It is MPI's documented point-to-point semantics:

    - a receive takes the first message of its source that no receive has taken
      yet (messages of a pair of ranks do not overtake each other);
    - a wait is over when its receive has its message and each of its sends has
      been received or is one that the implementation buffers; MPI leaves open
      which ones it buffers (class [MpiBuffers]);
    - collective calls have messages of their own; an [MPI_Allreduce] or an
      [MPI_Scan] returns when every process has made the call (a scan may return
      earlier, but a program must not rely on it).

    The processes run in any order.  All communication names its partner, so
    the relation has the diamond property ([step_diamond]): if one run from a
    state comes to an end, then every run from it comes to the same end
    ([ends_in_intro]). *)

From Stdlib Require Import FunctionalExtensionality.
From stdpp Require Import relations.
From S2P Require Import Prelude.

(** ** Relations with the diamond property *)
Section diamond.
Context {S : Type} (R : relation S).
Hypothesis R_diamond : forall c c1 c2, R c c1 -> R c c2 -> c1 = c2 \/ exists c3, R c1 c3 /\ R c2 c3.

Lemma diamond_nsteps n c f c1 : nsteps R n c f -> nf R f -> R c c1 ->
  exists m, n = Datatypes.S m /\ nsteps R m c1 f.
Proof.
  revert c c1. induction n as [|n IH]; intros c c1 Hn Hf Hs.
  - inversion Hn; subst. exfalso. apply Hf. by exists c1.
  - inversion Hn as [|? ? c2 ? Hs2 Hn2]; subst. exists n. split; [done|].
    destruct (R_diamond _ _ _ Hs Hs2) as [->|(c3 & H1 & H2)]; [done|].
    destruct (IH _ _ Hn2 Hf H2) as (m & -> & Hm). by eapply nsteps_l.
Qed.

Lemma nsteps_sn n c f : nsteps R n c f -> nf R f -> sn R c.
Proof.
  revert c. induction n as [|n IH]; intros c Hn Hf; constructor; intros c1 Hs;
    destruct (diamond_nsteps _ _ _ _ Hn Hf Hs) as (m & [= <-] & Hm). by apply IH.
Qed.

Lemma nsteps_join n c f c' : nsteps R n c f -> nf R f -> rtc R c c' -> rtc R c' f.
Proof.
  intros Hn Hf Hr. revert n Hn. induction Hr as [c|c c1 c' Hs Hr IH]; intros n Hn.
  - by eapply rtc_nsteps_2.
  - destruct (diamond_nsteps _ _ _ _ Hn Hf Hs) as (m & -> & Hm). eauto.
Qed.

Lemma nf_rtc c f : nf R c -> rtc R c f -> c = f.
Proof. intros Hn Hr. inversion Hr; subst; [done|]. exfalso. apply Hn. by eexists. Qed.

(** One run to an end decides every run. *)
Lemma diamond_end c f : rtc R c f -> nf R f -> sn R c /\ forall c', rtc R c c' -> nf R c' -> c' = f.
Proof.
  intros [n Hn]%rtc_nsteps Hf. split; [by eapply nsteps_sn|]. intros c' Hr Hf'.
  pose proof (nsteps_join _ _ _ _ Hn Hf Hr) as H2. exact (nf_rtc _ _ Hf' H2).
Qed.
End diamond.

(** ** Processes *)
Inductive msg := MInt (n : Z) | MInts (l : list Z) | MBytes (l : list byte).
Inductive context := PointToPoint | Collective.

#[export] Instance context_eq_dec : EqDecision context.
Proof. solve_decision. Defined.
#[export] Instance context_countable : Countable context.
Proof.
  refine (inj_countable' (fun c => match c with PointToPoint => true | Collective => false end)
            (fun b => if b then PointToPoint else Collective) _). by intros [].
Defined.

(** The reductions over arrays: an [MPI_Allreduce] with [MPI_MAX] or [MPI_LAND] on
    [int]s, an [MPI_Scan] with [MPI_SUM] on [unsigned long]s. *)
Inductive reduction := AllMax | AllAnd | ScanSum.

#[export] Instance reduction_eq_dec : EqDecision reduction.
Proof. solve_decision. Defined.

(** [Post c sends recv k]: start the sends (destination and message) and the
    receive (its source), wait for all of them, go on with the message. *)
Inductive proc (A : Type) :=
| Stop (o : outcome A)
| Post (c : context) (sends : list (Z * msg)) (recv : option Z) (k : option msg -> proc A)
| Reduce (op : reduction) (v : list Z) (k : list Z -> proc A).
Arguments Stop {A}.
Arguments Post {A}.
Arguments Reduce {A}.

Fixpoint proc_bind {A B} (p : proc A) (f : A -> proc B) : proc B :=
  match p with
  | Stop (Ok a) => f a
  | Stop Abort => Stop Abort
  | Stop Undef => Stop Undef
  | Stop NoFuel => Stop NoFuel
  | Post c sends recv k => Post c sends recv (fun m => proc_bind (k m) f)
  | Reduce op v k => Reduce op v (fun w => proc_bind (k w) f)
  end.

Definition proc_ret {A} (a : A) : proc A := Stop (Ok a).

Declare Scope proc_scope.
Delimit Scope proc_scope with proc.
Notation "'mpi*' x ':=' m 'in' k" := (proc_bind m (fun x => k))
  (at level 10, x pattern, m at level 100, k at level 200) : proc_scope.
Notation "'try*' x ':=' m 'in' k" := (proc_bind (Stop m) (fun x => k))
  (at level 10, x pattern, m at level 100, k at level 200) : proc_scope.
#[global] Open Scope proc_scope.

Lemma proc_bind_assoc {A B C} (p : proc A) (f : A -> proc B) (g : B -> proc C) :
  proc_bind (proc_bind p f) g = proc_bind p (fun a => proc_bind (f a) g).
Proof.
  induction p as [o|c sends recv k IH|op v k IH]; cbn [proc_bind].
  - by destruct o.
  - f_equal. apply functional_extensionality. done.
  - f_equal. apply functional_extensionality. done.
Qed.

Lemma proc_bind_ret {A} (p : proc A) : proc_bind p proc_ret = p.
Proof.
  induction p as [o|c sends recv k IH|op v k IH]; cbn [proc_bind].
  - by destruct o.
  - f_equal. apply functional_extensionality. done.
  - f_equal. apply functional_extensionality. done.
Qed.

(** ** The state of all processes *)
Inductive state (A : Type) :=
| Run (p : proc A)
| Wait (c : context) (recv : option Z) (got : option msg) (k : option msg -> proc A).
Arguments Run {A}.
Arguments Wait {A}.

(** The messages under way, oldest first: by context, source and destination. *)
Notation channels := (gmap (context * Z * Z) (list msg)).

Definition chan (ch : channels) (c : context) (src dst : Z) : list msg :=
  default [] (ch !! (c, src, dst)).

Definition push (c : context) (src : Z) (ch : channels) (s : Z * msg) : channels :=
  <[(c, src, s.1) := chan ch c src s.1 ++ [s.2]]> ch.

Definition push_all (c : context) (src : Z) (sends : list (Z * msg)) (ch : channels) : channels :=
  foldl (push c src) ch sends.

Record config (A : Type) := Cfg { procs : list (state A); net : channels }.
Arguments Cfg {A}.
Arguments procs {A}.
Arguments net {A}.

(** Which sends complete before they are received: MPI does not say. *)
Class MpiBuffers := { buffered : context -> Z -> Z -> msg -> bool }.

Definition fold_arrays (f : Z -> Z -> Z) (vs : list (list Z)) : list Z :=
  match vs with
  | [] => []
  | v :: vs => foldl (zip_with f) v vs
  end.

Definition max_all : list (list Z) -> list Z := fold_arrays Z.max.
Definition and_ints (a b : Z) : Z := if (a =? 0) || (b =? 0) then 0 else 1.

(** What process [i] gets when the processes give [vs]. *)
Definition reduced (op : reduction) (i : nat) (vs : list (list Z)) : list Z :=
  match op with
  | AllMax => max_all vs
  | AllAnd => fold_arrays and_ints vs
  | ScanSum => fold_arrays (fun a b => u64 (a + b)) (take (S i) vs)
  end.

Section step.
Context {A : Type} `{MpiBuffers}.

Definition sent (ch : channels) (c : context) (src : Z) : Prop :=
  forall dst m, m ∈ chan ch c src dst -> buffered c src dst m = true.

Inductive step : config A -> config A -> Prop :=
| step_post ps ch i c sends recv k :
    ps !! i = Some (Run (Post c sends recv k)) ->
    step (Cfg ps ch) (Cfg (<[i := Wait c recv None k]> ps) (push_all c (Z.of_nat i) sends ch))
| step_recv ps ch i c src m ms k :
    ps !! i = Some (Wait c (Some src) None k) ->
    ch !! (c, src, Z.of_nat i) = Some (m :: ms) ->
    step (Cfg ps ch) (Cfg (<[i := Wait c None (Some m) k]> ps) (<[(c, src, Z.of_nat i) := ms]> ch))
| step_wait ps ch i c got k :
    ps !! i = Some (Wait c None got k) -> sent ch c (Z.of_nat i) ->
    step (Cfg ps ch) (Cfg (<[i := Run (k got)]> ps) ch)
| step_reduce op vks ch :
    vks <> [] ->
    step (Cfg ((fun vk => Run (Reduce op vk.1 vk.2)) <$> vks) ch)
         (Cfg (imap (fun i vk => Run (vk.2 (reduced op i vks.*1))) vks) ch).

(** Every run from [c] comes to an end, and there [Q] holds. *)
Definition always (c : config A) (Q : config A -> Prop) : Prop :=
  sn step c /\ forall c', rtc step c c' -> nf step c' -> Q c'.

(** ** Channels *)
Lemma chan_push ch c src s c' src' dst' :
  chan (push c src ch s) c' src' dst' =
    chan ch c' src' dst' ++ (if decide ((c, src, s.1) = (c', src', dst')) then [s.2] else []).
Proof.
  unfold push, chan at 1. rewrite lookup_insert. case_decide as E; simpl.
  - by injection E as <- <- <-.
  - by rewrite app_nil_r.
Qed.

(** The messages among [sends] for one destination. *)
Definition msgs_to (dst : Z) (sends : list (Z * msg)) : list msg :=
  (filter (fun s => s.1 = dst) sends).*2.

Lemma chan_push_all c src sends : forall ch c' src' dst',
  chan (push_all c src sends ch) c' src' dst' =
    chan ch c' src' dst' ++ (if decide ((c, src) = (c', src')) then msgs_to dst' sends else []).
Proof.
  induction sends as [|s sends IH]; intros ch c' src' dst'; cbn [push_all foldl].
  - case_decide; by rewrite app_nil_r.
  - fold (push_all c src sends (push c src ch s)). rewrite IH, chan_push, <- app_assoc. f_equal.
    unfold msgs_to. rewrite filter_cons.
    destruct s as [d m]; cbn [fst snd].
    repeat case_decide; simpl in *; congruence || done.
Qed.

(** Sending commutes with another process's send and with a receive. *)
Lemma push_lookup_ne c src ch s key :
  key <> (c, src, s.1) -> push c src ch s !! key = ch !! key.
Proof. intros Hk. unfold push. by rewrite lookup_insert_ne. Qed.

Lemma push_all_lookup_ne c src sends : forall ch key,
  (forall dst, key <> (c, src, dst)) -> push_all c src sends ch !! key = ch !! key.
Proof.
  induction sends as [|s sends IH]; intros ch key Hk; [done|].
  cbn [push_all foldl]. fold (push_all c src sends (push c src ch s)).
  rewrite IH by done. by apply push_lookup_ne.
Qed.

Lemma push_commute c1 s1 c2 s2 ch x1 x2 :
  s1 <> s2 -> push c1 s1 (push c2 s2 ch x2) x1 = push c2 s2 (push c1 s1 ch x1) x2.
Proof.
  intros Hs. unfold push, chan. rewrite !lookup_insert_ne by congruence.
  apply insert_insert_ne. congruence.
Qed.

Lemma push_all_push c1 s1 c2 s2 sends : forall ch x,
  s1 <> s2 -> push_all c1 s1 sends (push c2 s2 ch x) = push c2 s2 (push_all c1 s1 sends ch) x.
Proof.
  induction sends as [|s sends IH]; intros ch x Hs; [done|].
  cbn [push_all foldl]. rewrite push_commute by done. by apply IH.
Qed.

Lemma push_all_commute c1 s1 c2 s2 l1 l2 ch :
  s1 <> s2 -> push_all c1 s1 l1 (push_all c2 s2 l2 ch) = push_all c2 s2 l2 (push_all c1 s1 l1 ch).
Proof.
  intros Hs. revert ch. induction l2 as [|x l2 IH]; intros ch; [done|].
  cbn [push_all foldl]. fold (push_all c2 s2 l2 (push c2 s2 ch x)).
  rewrite IH. fold (push_all c2 s2 l2 (push c2 s2 (push_all c1 s1 l1 ch) x)).
  by rewrite push_all_push.
Qed.

Lemma push_pop c src ch s key m ms :
  ch !! key = Some (m :: ms) ->
  push c src (<[key := ms]> ch) s = <[key := ms ++ (if decide (key = (c, src, s.1)) then [s.2] else [])]> (push c src ch s).
Proof.
  intros Hk. unfold push, chan. case_decide as E.
  - subst key. by rewrite Hk, lookup_insert_eq, !insert_insert_eq.
  - rewrite app_nil_r, lookup_insert_ne by congruence. apply insert_insert_ne. congruence.
Qed.

Lemma push_all_pop c src sends : forall ch key m ms,
  ch !! key = Some (m :: ms) ->
  exists ms', push_all c src sends ch !! key = Some (m :: ms') /\
    push_all c src sends (<[key := ms]> ch) = <[key := ms']> (push_all c src sends ch).
Proof.
  induction sends as [|s sends IH]; intros ch key m ms Hk; [by exists ms|].
  cbn [push_all foldl]. fold (push_all c src sends (push c src ch s)).
  fold (push_all c src sends (push c src (<[key := ms]> ch) s)).
  rewrite (push_pop _ _ _ _ _ _ _ Hk). apply (IH (push c src ch s)).
  unfold push, chan. case_decide as E.
  - subst key. by rewrite lookup_insert_eq, Hk.
  - by rewrite lookup_insert_ne, app_nil_r by congruence.
Qed.

Lemma sent_pop ch c src key m ms :
  ch !! key = Some (m :: ms) -> sent ch c src -> sent (<[key := ms]> ch) c src.
Proof.
  intros Hk Hs dst m'. unfold sent, chan in *. rewrite lookup_insert. case_decide as E; [|apply Hs].
  subst key. simpl. intros Hm. apply Hs. rewrite Hk. by right.
Qed.

Lemma sent_push_all ch c src c' src' sends :
  src <> src' -> sent ch c src -> sent (push_all c' src' sends ch) c src.
Proof.
  intros Hne Hs dst m. unfold sent, chan in *. rewrite push_all_lookup_ne by (intros ? ?; congruence).
  apply Hs.
Qed.

(** ** The diamond property *)
Definition busy (s : state A) : Prop :=
  match s with Run (Post _ _ _ _) | Wait _ _ _ _ => True | _ => False end.

Lemma reduce_lookup op (vks : list (list Z * (list Z -> proc A))) i s :
  ((fun vk => Run (Reduce op vk.1 vk.2)) <$> vks) !! i = Some s -> ~ busy s.
Proof. rewrite list_lookup_fmap_Some. by intros (vk & -> & _) []. Qed.

Lemma reduce_inj op1 op2 (vks1 vks2 : list (list Z * (list Z -> proc A))) :
  vks1 <> [] ->
  (fun vk => Run (Reduce op1 vk.1 vk.2)) <$> vks1 = (fun vk => Run (Reduce op2 vk.1 vk.2)) <$> vks2 ->
  op1 = op2 /\ vks1 = vks2.
Proof.
  intros Hne E. assert (op1 = op2) as ->.
  { destruct vks1 as [|[v k] vks1], vks2 as [|[v2 k2] vks2]; try done. by injection E. }
  split; [done|]. clear Hne. revert vks2 E.
  induction vks1 as [|[v k] vks1 IH]; intros [|[v2 k2] vks2] E; try done.
  injection E as -> -> E. f_equal. by apply IH.
Qed.

(** Two different processes make their steps in either order. *)
Inductive local_step (i : nat) : config A -> state A -> channels -> Prop :=
| local_post ps ch c sends recv k :
    ps !! i = Some (Run (Post c sends recv k)) ->
    local_step i (Cfg ps ch) (Wait c recv None k) (push_all c (Z.of_nat i) sends ch)
| local_recv ps ch c src m ms k :
    ps !! i = Some (Wait c (Some src) None k) ->
    ch !! (c, src, Z.of_nat i) = Some (m :: ms) ->
    local_step i (Cfg ps ch) (Wait c None (Some m) k) (<[(c, src, Z.of_nat i) := ms]> ch)
| local_wait ps ch c got k :
    ps !! i = Some (Wait c None got k) -> sent ch c (Z.of_nat i) ->
    local_step i (Cfg ps ch) (Run (k got)) ch.

Lemma local_is_step i ps ch s ch' :
  local_step i (Cfg ps ch) s ch' -> step (Cfg ps ch) (Cfg (<[i := s]> ps) ch').
Proof. inversion 1; subst; by econstructor. Qed.

Lemma local_det i ps ch s1 ch1 s2 ch2 :
  local_step i (Cfg ps ch) s1 ch1 -> local_step i (Cfg ps ch) s2 ch2 -> s1 = s2 /\ ch1 = ch2.
Proof. inversion 1; inversion 1; simplify_eq; done. Qed.

Lemma local_commute i j ps ch s1 ch1 s2 ch2 :
  i <> j -> local_step i (Cfg ps ch) s1 ch1 -> local_step j (Cfg ps ch) s2 ch2 ->
  exists ch3, local_step j (Cfg (<[i := s1]> ps) ch1) s2 ch3 /\
              local_step i (Cfg (<[j := s2]> ps) ch2) s1 ch3.
Proof.
  intros Hij H1 H2. assert (Z.of_nat i <> Z.of_nat j) as Hz by lia.
  inversion H1 as [? ? c1 sends1 r1 k1 Hp1|? ? c1 src1 m1 ms1 k1 Hp1 Hc1|? ? c1 got1 k1 Hp1 Hs1]; subst;
  inversion H2 as [? ? c2 sends2 r2 k2 Hp2|? ? c2 src2 m2 ms2 k2 Hp2 Hc2|? ? c2 got2 k2 Hp2 Hs2]; subst.
  - exists (push_all c1 (Z.of_nat i) sends1 (push_all c2 (Z.of_nat j) sends2 ch)). split.
    + rewrite push_all_commute by done. constructor. by rewrite list_lookup_insert_ne.
    + constructor. by rewrite list_lookup_insert_ne.
  - destruct (push_all_pop c1 (Z.of_nat i) sends1 _ _ _ _ Hc2) as (ms' & Hl & E).
    eexists. split; [eapply local_recv; [by rewrite list_lookup_insert_ne|exact Hl]|].
    rewrite <- E. constructor. by rewrite list_lookup_insert_ne.
  - eexists. split; [eapply local_wait; [by rewrite list_lookup_insert_ne|by apply sent_push_all]|].
    constructor. by rewrite list_lookup_insert_ne.
  - destruct (push_all_pop c2 (Z.of_nat j) sends2 _ _ _ _ Hc1) as (ms' & Hl & E).
    eexists. split; [|eapply local_recv; [by rewrite list_lookup_insert_ne|exact Hl]].
    rewrite <- E. constructor. by rewrite list_lookup_insert_ne.
  - exists (<[(c1, src1, Z.of_nat i) := ms1]> (<[(c2, src2, Z.of_nat j) := ms2]> ch)). split.
    + rewrite insert_insert_ne by congruence.
      apply local_recv with (m := m2); rewrite ?list_lookup_insert_ne, ?lookup_insert_ne by congruence; done.
    + apply local_recv with (m := m1); rewrite ?list_lookup_insert_ne, ?lookup_insert_ne by congruence; done.
  - eexists. split; [eapply local_wait; [by rewrite list_lookup_insert_ne|by eapply sent_pop]|].
    eapply local_recv; [by rewrite list_lookup_insert_ne|done].
  - eexists. split; [|eapply local_wait; [by rewrite list_lookup_insert_ne|by apply sent_push_all]].
    constructor. by rewrite list_lookup_insert_ne.
  - eexists. split; [eapply local_recv; [by rewrite list_lookup_insert_ne|done]|].
    eapply local_wait; [by rewrite list_lookup_insert_ne|by eapply sent_pop].
  - eexists. split; (eapply local_wait; [by rewrite list_lookup_insert_ne|done]).
Qed.

Lemma step_cases c c' :
  step c c' ->
  (exists i s ch', local_step i c s ch' /\ c' = Cfg (<[i := s]> (procs c)) ch') \/
  (exists op vks, vks <> [] /\ procs c = (fun vk => Run (Reduce op vk.1 vk.2)) <$> vks /\
     c' = Cfg (imap (fun i vk => Run (vk.2 (reduced op i vks.*1))) vks) (net c)).
Proof.
  inversion 1; subst; [left..|right]; try (do 3 eexists; split; [by econstructor|done]).
  by exists op, vks.
Qed.

Lemma local_busy i c s ch' : local_step i c s ch' -> exists s0, procs c !! i = Some s0 /\ busy s0.
Proof. inversion 1; subst; by eexists. Qed.

Lemma step_diamond c c1 c2 :
  step c c1 -> step c c2 -> c1 = c2 \/ exists c3, step c1 c3 /\ step c2 c3.
Proof.
  intros [(i & s1 & ch1 & H1 & ->)|(op1 & vks1 & Hn1 & E1 & ->)]%step_cases
         [(j & s2 & ch2 & H2 & ->)|(op2 & vks2 & Hn2 & E2 & ->)]%step_cases.
  - destruct c as [ps ch]. destruct (decide (i = j)) as [->|Hij].
    + left. by destruct (local_det _ _ _ _ _ _ _ H1 H2) as [-> ->].
    + right. destruct (local_commute _ _ _ _ _ _ _ _ Hij H1 H2) as (ch3 & Ha & Hb).
      apply local_is_step in Ha, Hb. simpl in *.
      eexists. split; [exact Ha|]. rewrite list_insert_insert_ne by done. exact Hb.
  - apply local_busy in H1 as (s0 & Hs & Hb). rewrite E2 in Hs.
    by apply reduce_lookup in Hs.
  - apply local_busy in H2 as (s0 & Hs & Hb). rewrite E1 in Hs.
    by apply reduce_lookup in Hs.
  - left. rewrite E1 in E2. by apply reduce_inj in E2 as [-> ->].
Qed.

(** ** Runs *)

(** The processes have stopped. *)
Definition stopped (os : list (outcome A)) (c : config A) : Prop :=
  procs c = (fun o => Run (Stop o)) <$> os.

Lemma stopped_nf os c : os <> [] -> stopped os c -> nf step c.
Proof.
  intros Hne Hs [c' Hst].
  apply step_cases in Hst as [(i & s & ch' & Hl & ->)|(op & vks & Hn & E & _)].
  - apply local_busy in Hl as (s0 & Hi & Hb). unfold stopped in Hs.
    rewrite Hs, list_lookup_fmap_Some in Hi. by destruct Hi as (o & -> & _).
  - unfold stopped in Hs. rewrite Hs in E. destruct os as [|o os]; [done|]. destruct vks; [done|].
    simpl in E. congruence.
Qed.

(** One run to the end decides every run. *)
Lemma ends_in_intro c c' os :
  os <> [] -> rtc step c c' -> stopped os c' -> always c (stopped os).
Proof.
  intros Hne Hr Hs. pose proof (stopped_nf _ _ Hne Hs) as Hf.
  destruct (diamond_end step step_diamond _ _ Hr Hf) as [Hsn He].
  split; [done|]. intros c2 Hr2 Hf2. by rewrite (He c2).
Qed.

(** ** A round of communication *)
Definition running (n : nat) (P : nat -> proc A) : list (state A) := (fun r => Run (P r)) <$> seq 0 n.

Definition idle (ch : channels) : Prop := forall c src dst, chan ch c src dst = [].

(** The states of the first [i] processes are new. *)
Definition phase (n : nat) (new old : nat -> state A) (i : nat) : list (state A) :=
  (fun r => if decide (r < i)%nat then new r else old r) <$> seq 0 n.

Lemma phase_lookup n new old i : (i < n)%nat -> phase n new old i !! i = Some (old i).
Proof.
  intros Hi. unfold phase. rewrite list_lookup_fmap, lookup_seq_lt by done. simpl.
  by rewrite decide_False by lia.
Qed.

Lemma phase_insert n new old i :
  (i < n)%nat -> <[i := new i]> (phase n new old i) = phase n new old (S i).
Proof.
  intros Hi. apply list_eq. intros j. unfold phase.
  destruct (decide (j < n)%nat) as [Hj|Hj].
  - destruct (decide (i = j)) as [<-|Hij].
    + rewrite list_lookup_insert_eq by (rewrite length_fmap, length_seq; done).
      rewrite list_lookup_fmap, lookup_seq_lt by done. simpl. by rewrite decide_True by lia.
    + rewrite list_lookup_insert_ne by done. rewrite !list_lookup_fmap, lookup_seq_lt by done. simpl.
      f_equal. repeat case_decide; done || lia.
  - rewrite !lookup_ge_None_2; [done|..]; rewrite ?length_insert, length_fmap, length_seq; lia.
Qed.

Lemma phase_0 n new old : phase n new old 0 = old <$> seq 0 n.
Proof. unfold phase. apply list_fmap_ext. intros i r Hr. by rewrite decide_False by lia. Qed.

Lemma phase_all n new old : phase n new old n = new <$> seq 0 n.
Proof.
  unfold phase. apply list_fmap_ext. intros i r Hr. apply lookup_seq in Hr as [-> Hr].
  by rewrite decide_True by lia.
Qed.

Lemma phase_steps n new old chs :
  (forall i, (i < n)%nat ->
     rtc step (Cfg (phase n new old i) (chs i)) (Cfg (phase n new old (S i)) (chs (S i)))) ->
  rtc step (Cfg (old <$> seq 0 n) (chs 0%nat)) (Cfg (new <$> seq 0 n) (chs n)).
Proof.
  intros Hst. rewrite <- (phase_0 n new old), <- (phase_all n new old).
  assert (forall i, (i <= n)%nat ->
    rtc step (Cfg (phase n new old 0) (chs 0%nat)) (Cfg (phase n new old i) (chs i))) as Hi; [|auto].
  induction i as [|i IH]; intros Hi; [done|]. etrans; [apply IH; lia|]. apply Hst. lia.
Qed.

(** What the processes do in a round of context [c]: process [r] posts
    [sends r] and [recv r] and gets [got r], or takes no part. *)
Record round_spec (n : nat) (c : context) (P P' : nat -> proc A)
    (sends : nat -> list (Z * msg)) (recv : nat -> option Z) (got : nat -> option msg)
    (acts : nat -> option (option msg -> proc A)) : Prop := {
  round_acts r : (r < n)%nat ->
    match acts r with
    | Some k => P r = Post c (sends r) (recv r) k /\ P' r = k (got r)
    | None => P r = P' r /\ sends r = [] /\ recv r = None
    end;
  round_dest r d : (r < n)%nat -> ~ 0 <= d < Z.of_nat n -> msgs_to d (sends r) = [];
  round_match r s : (r < n)%nat -> (s < n)%nat ->
    msgs_to (Z.of_nat r) (sends s)
      = if decide (recv r = Some (Z.of_nat s)) then option_list (got r) else [];
  round_got r : (r < n)%nat ->
    match recv r with
    | Some s => 0 <= s < Z.of_nat n /\ is_Some (got r)
    | None => got r = None
    end
}.

Fixpoint posted (c : context) (sends : nat -> list (Z * msg)) (ch : channels) (i : nat) : channels :=
  match i with
  | O => ch
  | S i => push_all c (Z.of_nat i) (sends i) (posted c sends ch i)
  end.

Fixpoint received (c : context) (recv : nat -> option Z) (ch : channels) (i : nat) : channels :=
  match i with
  | O => ch
  | S i =>
      match recv i with
      | Some s => <[(c, s, Z.of_nat i) := []]> (received c recv ch i)
      | None => received c recv ch i
      end
  end.

Lemma chan_posted c sends ch i c' s d :
  idle ch ->
  chan (posted c sends ch i) c' s d =
    if decide (c = c' /\ 0 <= s < Z.of_nat i) then msgs_to d (sends (Z.to_nat s)) else [].
Proof.
  intros Hi. induction i as [|i IH]; cbn [posted].
  - rewrite Hi, decide_False by lia. done.
  - rewrite chan_push_all, IH.
    destruct (decide (c = c' /\ 0 <= s < Z.of_nat i)) as [[Hc Hs]|Hs];
      destruct (decide ((c, Z.of_nat i) = (c', s))) as [[= Hc2 <-]|He]; try lia;
      rewrite ?app_nil_r.
    + rewrite decide_True by (split; [done|lia]). done.
    + rewrite decide_True by (split; [done|lia]). by rewrite Nat2Z.id.
    + rewrite decide_False; [done|]. intros [<- Hs2]. apply He. f_equal.
      assert (~ 0 <= s < Z.of_nat i) by (intros ?; by apply Hs). lia.
Qed.

Lemma chan_received c recv ch i c' s d :
  chan (received c recv ch i) c' s d =
    if decide (c = c' /\ 0 <= d < Z.of_nat i /\ recv (Z.to_nat d) = Some s) then []
    else chan ch c' s d.
Proof.
  induction i as [|i IH]; cbn [received]; [by rewrite decide_False by lia|].
  destruct (recv i) as [s'|] eqn:Hr.
  - unfold chan at 1. rewrite lookup_insert.
    destruct (decide ((c, s', Z.of_nat i) = (c', s, d))) as [E|E]; simpl.
    + injection E as <- <- <-. rewrite decide_True; [done|]. rewrite Nat2Z.id. split_and!; [done|lia|lia|done].
    + fold (chan (received c recv ch i) c' s d). rewrite IH. apply decide_ext.
      split; intros (-> & Hd & Hs); split_and!; try lia; try done.
      destruct (decide (d = Z.of_nat i)) as [->|]; [|lia]. exfalso. apply E.
      rewrite Nat2Z.id in Hs. congruence.
  - rewrite IH. apply decide_ext. split; intros (-> & Hd & Hs); split_and!; try lia; try done.
    destruct (decide (d = Z.of_nat i)) as [->|]; [|lia]. rewrite Nat2Z.id in Hs. congruence.
Qed.

Section round.
Context (n : nat) (c : context) (P P' : nat -> proc A) (sends : nat -> list (Z * msg)).
Context (recv : nat -> option Z) (got : nat -> option msg).
Context (acts : nat -> option (option msg -> proc A)) (ch : channels).
Hypothesis Hidle : idle ch.
Hypothesis Hround : round_spec n c P P' sends recv got acts.

Definition waiting (r : nat) : state A :=
  match acts r with Some k => Wait c (recv r) None k | None => Run (P r) end.
Definition filled (r : nat) : state A :=
  match acts r with Some k => Wait c None (got r) k | None => Run (P r) end.

Let chA := posted c sends ch.
Let chB := received c recv (chA n).

Lemma round_post i : (i < n)%nat ->
  rtc step (Cfg (phase n waiting (fun r => Run (P r)) i) (chA i))
           (Cfg (phase n waiting (fun r => Run (P r)) (S i)) (chA (S i))).
Proof.
  intros Hi. pose proof (round_acts _ _ _ _ _ _ _ _ Hround i Hi) as Ha.
  rewrite <- phase_insert by done. unfold chA, waiting at 2. cbn [posted].
  destruct (acts i) as [k|].
  - destruct Ha as [HP _]. apply rtc_once. constructor. rewrite phase_lookup by done. by rewrite HP.
  - destruct Ha as (_ & -> & _). rewrite list_insert_id; [done|]. by rewrite phase_lookup.
Qed.

Lemma round_recv i : (i < n)%nat ->
  rtc step (Cfg (phase n filled waiting i) (chB i)) (Cfg (phase n filled waiting (S i)) (chB (S i))).
Proof.
  intros Hi. pose proof (round_acts _ _ _ _ _ _ _ _ Hround i Hi) as Ha.
  pose proof (round_got _ _ _ _ _ _ _ _ Hround i Hi) as Hg.
  rewrite <- phase_insert by done. unfold chB. cbn [received]. fold chB.
  assert (phase n filled waiting i !! i = Some (waiting i)) as Hl by (by apply phase_lookup).
  unfold waiting in Hl at 2. unfold filled at 2. destruct (acts i) as [k|].
  - destruct (recv i) as [s|] eqn:Hr.
    + destruct Hg as [Hs [m Hm]]. rewrite Hm. apply rtc_once. eapply step_recv; [exact Hl|].
      pose proof (round_match _ _ _ _ _ _ _ _ Hround i (Z.to_nat s)) as Hmt.
      assert (chan (chB i) c s (Z.of_nat i) = [m]) as Hc.
      { unfold chB. rewrite chan_received, decide_False by lia.
        unfold chA. rewrite chan_posted, decide_True by done. rewrite Hmt by lia.
        rewrite Z2Nat.id by lia. rewrite decide_True by done. by rewrite Hm. }
      unfold chan in Hc. destruct (chB i !! _) as [l|]; simpl in Hc; [by subst l|done].
    + rewrite Hg. rewrite list_insert_id; [done|]. by rewrite Hl.
  - destruct Ha as (_ & _ & ->). rewrite list_insert_id; [done|]. by rewrite Hl.
Qed.

Lemma round_idle : idle (chB n).
Proof.
  intros c' s d. unfold chB. rewrite chan_received. case_decide as Hd; [done|].
  unfold chA. rewrite chan_posted by done. case_decide as Hs; [|done]. destruct Hs as [<- Hs].
  destruct (decide (0 <= d < Z.of_nat n)) as [Hdn|Hdn].
  - pose proof (round_match _ _ _ _ _ _ _ _ Hround (Z.to_nat d) (Z.to_nat s)) as Hm.
    rewrite !Z2Nat.id in Hm by lia. rewrite Hm by lia. rewrite decide_False; [done|].
    intros Hr. by apply Hd.
  - apply (round_dest _ _ _ _ _ _ _ _ Hround); [lia|done].
Qed.

Lemma round_wait i : (i < n)%nat ->
  rtc step (Cfg (phase n (fun r => Run (P' r)) filled i) (chB n))
           (Cfg (phase n (fun r => Run (P' r)) filled (S i)) (chB n)).
Proof.
  intros Hi. pose proof (round_acts _ _ _ _ _ _ _ _ Hround i Hi) as Ha.
  rewrite <- (phase_insert n (fun r => Run (P' r))) by done.
  assert (phase n (fun r => Run (P' r)) filled i !! i = Some (filled i)) as Hl by (by apply phase_lookup).
  unfold filled in Hl at 2. destruct (acts i) as [k|].
  - destruct Ha as [_ ->]. apply rtc_once. eapply step_wait; [exact Hl|].
    intros d m. rewrite round_idle. by intros ?%elem_of_nil.
  - destruct Ha as (<- & _). rewrite list_insert_id; [done|]. by rewrite Hl.
Qed.

(** The round completes, and no message is left under way. *)
Lemma round : exists ch', idle ch' /\ rtc step (Cfg (running n P) ch) (Cfg (running n P') ch').
Proof.
  exists (chB n). split; [apply round_idle|]. unfold running.
  etrans.
  { apply (phase_steps n waiting (fun r => Run (P r)) chA). apply round_post. }
  etrans; [apply (phase_steps n filled waiting chB); apply round_recv|].
  apply (phase_steps n (fun r => Run (P' r)) filled (fun _ => chB n)). apply round_wait.
Qed.

End round.

(** ** Scripts: what a process posts and gets, round by round

    [None]: it takes no part in the round. *)
Record talk := Talk { t_sends : list (Z * msg); t_recv : option Z; t_got : option msg }.

Definition sends_of (x : option talk) : list (Z * msg) := from_option t_sends [] x.
Definition recv_of (x : option talk) : option Z := x ≫= t_recv.
Definition got_of (x : option talk) : option msg := x ≫= t_got.

(** [speaks c p tr q]: the program [p] follows the script [tr] and is then [q]. *)
Inductive speaks (c : context) : proc A -> list (option talk) -> proc A -> Prop :=
| speaks_nil p : speaks c p [] p
| speaks_skip p tr q : speaks c p tr q -> speaks c p (None :: tr) q
| speaks_post sends recv got k tr q :
    speaks c (k got) tr q -> speaks c (Post c sends recv k) (Some (Talk sends recv got) :: tr) q.

(** In a round every message has its receive. *)
Record matched (n : nat) (x : nat -> option talk) : Prop := {
  matched_dest r d : (r < n)%nat -> ~ 0 <= d < Z.of_nat n -> msgs_to d (sends_of (x r)) = [];
  matched_msgs r s : (r < n)%nat -> (s < n)%nat ->
    msgs_to (Z.of_nat r) (sends_of (x s))
      = if decide (recv_of (x r) = Some (Z.of_nat s)) then option_list (got_of (x r)) else [];
  matched_got r : (r < n)%nat ->
    match recv_of (x r) with
    | Some s => 0 <= s < Z.of_nat n /\ is_Some (got_of (x r))
    | None => got_of (x r) = None
    end
}.

Lemma script_round n c P x ch :
  idle ch -> matched n x ->
  (forall r, (r < n)%nat -> exists tr q, speaks c (P r) (x r :: tr) q) ->
  exists P' ch', idle ch' /\
    rtc step (Cfg (running n P) ch) (Cfg (running n P') ch') /\
    forall r tr q, (r < n)%nat -> speaks c (P r) (x r :: tr) q -> speaks c (P' r) tr q.
Proof.
  intros Hi [Hd Hm Hg] Hs.
  set (acts r := match x r, P r with Some _, Post _ _ _ k => Some k | _, _ => None end).
  exists (fun r => match acts r with Some k => k (got_of (x r)) | None => P r end).
  destruct (round n c P (fun r => match acts r with Some k => k (got_of (x r)) | None => P r end)
              (fun r => sends_of (x r)) (fun r => recv_of (x r)) (fun r => got_of (x r)) acts ch)
    as (ch' & Hi' & Hr); [done| |].
  - split; [|done..]. intros r Hr. destruct (Hs r Hr) as (tr & q & Hsp).
    unfold acts. destruct (x r); inversion Hsp; subst; done.
  - exists ch'. split_and!; [done..|]. intros r tr q Hrn Hsp. unfold acts.
    destruct (x r); inversion Hsp; subst; done.
Qed.

Lemma script_rounds n c xs : forall P Q ch,
  idle ch -> Forall (matched n) xs ->
  (forall r, (r < n)%nat -> speaks c (P r) ((fun x => x r) <$> xs) (Q r)) ->
  exists ch', idle ch' /\ rtc step (Cfg (running n P) ch) (Cfg (running n Q) ch').
Proof.
  induction xs as [|x xs IH]; intros P Q ch Hi Hx Hs.
  - exists ch. split; [done|]. replace (running n Q) with (running n P); [done|].
    apply list_fmap_ext. intros i r Hr. apply lookup_seq in Hr as [-> Hr].
    specialize (Hs i Hr). simpl in *. inversion Hs. done.
  - apply Forall_cons_iff in Hx as [Hx Hxs].
    destruct (script_round n c P x ch) as (P' & ch1 & Hi1 & Hr1 & Hs1); [done..| |].
    { intros r Hr. do 2 eexists. exact (Hs r Hr). }
    destruct (IH P' Q ch1 Hi1 Hxs) as (ch2 & Hi2 & Hr2).
    { intros r Hr. apply Hs1; [done|]. exact (Hs r Hr). }
    exists ch2. split; [done|]. by etrans.
Qed.

(** Programs that agree on every rank run alike. *)
Lemma running_ext n P P' :
  (forall r, (r < n)%nat -> P r = P' r) -> running n P = running n P'.
Proof.
  intros HP. apply list_fmap_ext. intros i r Hr. apply lookup_seq in Hr as [-> Hr]. by rewrite HP.
Qed.

Lemma running_stopped n (o : nat -> outcome A) ch :
  stopped (o <$> seq 0 n) (Cfg (running n (fun r => Stop (o r))) ch).
Proof. unfold stopped, running. simpl. by rewrite <- list_fmap_compose. Qed.

(** All processes call the same reduction. *)
Lemma running_reduce n op (v : nat -> list Z) (k : nat -> list Z -> proc A) ch :
  (0 < n)%nat ->
  step (Cfg (running n (fun r => Reduce op (v r) (k r))) ch)
       (Cfg (running n (fun r => k r (reduced op r (v <$> seq 0 n)))) ch).
Proof.
  intros Hn. pose proof (step_reduce op ((fun r => (v r, k r)) <$> seq 0 n) ch) as Hs.
  rewrite <- !list_fmap_compose in Hs.
  replace (running n (fun r => k r (reduced op r (v <$> seq 0 n)))) with
    (imap (fun i vk => Run (vk.2 (reduced op i (v <$> seq 0 n)))) ((fun r => (v r, k r)) <$> seq 0 n)).
  { apply Hs. by destruct n; [lia|]. }
  apply list_eq. intros i. unfold running. rewrite list_lookup_imap, !list_lookup_fmap.
  destruct (decide (i < n)%nat) as [Hi|Hi].
  - by rewrite lookup_seq_lt.
  - by rewrite lookup_seq_ge by lia.
Qed.

(** Programs with matching scripts end the same way in every run. *)
Lemma scripts_always n c xs P (Q : nat -> outcome A) ch :
  (0 < n)%nat -> idle ch -> Forall (matched n) xs ->
  (forall r, (r < n)%nat -> speaks c (P r) ((fun x => x r) <$> xs) (Stop (Q r))) ->
  always (Cfg (running n P) ch) (stopped (Q <$> seq 0 n)).
Proof.
  intros Hn Hi Hx Hs. destruct (script_rounds n c xs P (fun r => Stop (Q r)) ch Hi Hx Hs) as (ch' & _ & Hr).
  eapply ends_in_intro; [|exact Hr|apply running_stopped]. by destruct n; [lia|].
Qed.

End step.

Lemma speaks_bind {A B} c (p : proc A) (f : A -> proc B) tr a :
  speaks c p tr (proc_ret a) -> speaks c (proc_bind p f) tr (f a).
Proof.
  intros Hs. remember (proc_ret a) as q eqn:Eq. induction Hs; subst; [constructor|by constructor; auto|].
  cbn [proc_bind]. constructor. auto.
Qed.

Lemma speaks_app {A} c (p q r : proc A) tr1 tr2 :
  speaks c p tr1 q -> speaks c q tr2 r -> speaks c p (tr1 ++ tr2) r.
Proof. induction 1; intros Hq; [done|constructor; auto..]. Qed.

(** The maxima of pairs bound every pair. *)
Lemma foldl_max_pairs (l : list (Z * Z)) : forall a b,
  exists A B, foldl (zip_with Z.max) [a; b] ((fun x => [x.1; x.2]) <$> l) = [A; B] /\
    a <= A /\ b <= B /\ forall x, x ∈ l -> x.1 <= A /\ x.2 <= B.
Proof.
  induction l as [|x l IH]; intros a b; cbn [fmap list_fmap foldl zip_with].
  - exists a, b. split_and!; [done|lia|lia|]. by intros x ?%elem_of_nil.
  - destruct (IH (Z.max a x.1) (Z.max b x.2)) as (A & B & -> & HA & HB & Hl).
    exists A, B. split_and!; [done|lia|lia|]. intros y [->|Hy]%list.elem_of_cons; [lia|by apply Hl].
Qed.

Lemma max_pairs n (f g : nat -> Z) :
  (0 < n)%nat ->
  exists A B, max_all ((fun r => [f r; g r]) <$> seq 0 n) = [A; B] /\
    forall r, (r < n)%nat -> f r <= A /\ g r <= B.
Proof.
  destruct n as [|n]; [lia|]. intros _. unfold max_all. cbn [seq fmap list_fmap fold_arrays].
  destruct (foldl_max_pairs ((fun r => (f r, g r)) <$> seq 1 n) (f 0%nat) (g 0%nat))
    as (A & B & E & HA & HB & Hl).
  rewrite <- list_fmap_compose in E. exists A, B. split; [exact E|]. intros r Hr.
  destruct r as [|r]; [done|]. apply (Hl (f (S r), g (S r))).
  apply list_elem_of_fmap. exists (S r). split; [done|]. apply elem_of_seq. lia.
Qed.

Lemma msgs_to_one d d' m : msgs_to d [(d', m)] = if decide (d' = d) then [m] else [].
Proof. unfold msgs_to. rewrite filter_cons. simpl. by case_decide. Qed.

Lemma idle_empty : idle ∅.
Proof. intros c s d. unfold chan. by rewrite lookup_empty. Qed.
