(* ===== verification/Mpi.v ===== *)
(** Sending trees between MPI processes: [kvtree_send], [kvtree_recv],
    [kvtree_sendrecv] and [kvtree_bcast] of [src/src/kvtree_mpi.c].

    A call is a process of Net: what it computes between its MPI calls.  A tree
    travels as two messages, its packed size and the packed bytes.  The theorems
    run the calls on all processes, in any order and for any buffering of MPI. *)

From stdpp Require Import relations.
From S2P Require Import Prelude CLib ByteOrder Kvtree KvtreeSpec KvtreeMap KvtreeMerge Pack Format Paths Net.

(** The rank that stands for no process; MPI's constants for it are negative. *)
Class MpiConst := {
  MPI_PROC_NULL : Z;
  proc_null_neg : MPI_PROC_NULL < 0
}.

Section mpi.
Context `{Host} `{MpiConst}.

(** ** The MPI calls *)

(** The requests started so far are waited for; without any there is no call. *)
Definition waitall (sends : list (Z * msg)) (recv : option Z) : proc (option msg) :=
  match sends, recv with
  | [], None => proc_ret None
  | _, _ => Post PointToPoint sends recv proc_ret
  end.

Definition MPI_Send (m : msg) (rank : Z) : proc unit :=
  if rank =? MPI_PROC_NULL then proc_ret tt
  else Post PointToPoint [(rank, m)] None (fun _ => proc_ret tt).

Definition MPI_Recv (rank : Z) : proc (option msg) :=
  if rank =? MPI_PROC_NULL then proc_ret None
  else Post PointToPoint [] (Some rank) proc_ret.

(** The root sends to every other process of the communicator. *)
Definition others (root : Z) (ranks : nat) : list Z :=
  filter (fun r => r <> root) (Z.of_nat <$> seq 0 ranks).

Definition MPI_Bcast_root (m : msg) (root : Z) (ranks : nat) : proc unit :=
  Post Collective ((fun r => (r, m)) <$> others root ranks) None (fun _ => proc_ret tt).

Definition MPI_Bcast_other (root : Z) : proc (option msg) :=
  Post Collective [] (Some root) proc_ret.

(** What a received message leaves in an [int] variable and in a buffer of
    [size] bytes.  Another datatype than the sender's is undefined, as is an
    [int] nothing was received into; a message that is too long ends the
    program. *)
Definition recv_int (m : option msg) : outcome Z :=
  match m with Some (MInt n) => Ok n | _ => Undef end.

Definition recv_bytes (buf : list byte) (m : option msg) : outcome (list byte) :=
  match m with
  | Some (MBytes l) =>
      if (length l <=? length buf)%nat then Ok (l ++ drop (length l) buf) else Abort
  | Some _ => Undef
  | None => Ok buf
  end.

(** [KVTREE_MALLOC((size_t)size)], used as a buffer of [size] bytes. *)
Definition malloc_buf (size : Z) : outcome (list byte) :=
  let* block := kvtree_malloc (u64 size) in
  match block with Some _ => Ok (fresh_block (Z.to_nat size)) | None => Undef end.

(** ** The calls of kvtree_mpi.c *)
Definition kvtree_send (hash : option kvtree) (rank : Z) : proc Z :=
  let pack_size := Z.of_nat (kvtree_pack_size hash) in
  let max_int := INT_MAX in
  if max_int <? pack_size then Stop Abort
  else
    let size := i32 pack_size in
    mpi* _ := MPI_Send (MInt size) rank in
    mpi* _ :=
      (if 0 <? size then
         try* buf := malloc_buf size in
         try* (buf, _) := kvtree_pack buf 0 hash in
         MPI_Send (MBytes (take (Z.to_nat size) buf)) rank
       else proc_ret tt) in
    proc_ret KVTREE_SUCCESS.

Definition kvtree_recv (hash : option kvtree) (rank : Z) : proc (Z * option kvtree) :=
  match hash with
  | None => proc_ret (KVTREE_FAILURE, hash)
  | Some _ =>
      let '(hash, _) := kvtree_unset_all hash in
      mpi* m := MPI_Recv rank in
      try* size := recv_int m in
      if 0 <? size then
        try* buf := malloc_buf size in
        mpi* m := MPI_Recv rank in
        try* buf := recv_bytes buf m in
        try* (_, hash) := kvtree_unpack buf 0 hash in
        proc_ret (KVTREE_SUCCESS, hash)
      else proc_ret (KVTREE_SUCCESS, hash)
  end.

Definition kvtree_sendrecv (hash_send : option kvtree) (rank_send : Z)
    (hash_recv : option kvtree) (rank_recv : Z) : proc (Z * option kvtree) :=
  let rc := KVTREE_SUCCESS in
  let have_outgoing := negb (rank_send =? MPI_PROC_NULL) in
  let have_incoming := negb (rank_recv =? MPI_PROC_NULL) in
  let hash_recv := if have_incoming then (kvtree_unset_all hash_recv).1 else hash_recv in
  let pack_size := Z.of_nat (kvtree_pack_size hash_send) in
  if have_outgoing && (INT_MAX <? pack_size) then Stop Abort
  else
    let size_send := if have_outgoing then i32 pack_size else 0 in
    mpi* m := waitall (if have_outgoing then [(rank_send, MInt size_send)] else [])
                (if have_incoming then Some rank_recv else None) in
    try* size_recv := (if have_incoming then recv_int m else Ok 0) in
    try* buf_recv := (if 0 <? size_recv then malloc_buf size_recv else Ok []) in
    try* sends :=
      (if 0 <? size_send then
         let* buf := malloc_buf size_send in
         let* (buf, _) := kvtree_pack buf 0 hash_send in
         Ok [(rank_send, MBytes (take (Z.to_nat size_send) buf))]
       else Ok []) in
    mpi* m := waitall sends (if 0 <? size_recv then Some rank_recv else None) in
    if 0 <? size_recv then
      try* buf_recv := recv_bytes buf_recv m in
      try* (_, hash_recv) := kvtree_unpack buf_recv 0 hash_recv in
      proc_ret (rc, hash_recv)
    else proc_ret (rc, hash_recv).

(** [rank] and [ranks] are what [MPI_Comm_rank] and [MPI_Comm_size] give. *)
Definition kvtree_bcast (rank : Z) (ranks : nat) (hash : option kvtree) (root : Z)
    : proc (Z * option kvtree) :=
  if rank =? root then
    let pack_size := Z.of_nat (kvtree_pack_size hash) in
    if INT_MAX <? pack_size then Stop Abort
    else
      let size := i32 pack_size in
      mpi* _ := MPI_Bcast_root (MInt size) root ranks in
      mpi* _ :=
        (if 0 <? size then
           try* buf := malloc_buf size in
           try* (buf, _) := kvtree_pack buf 0 hash in
           MPI_Bcast_root (MBytes (take (Z.to_nat size) buf)) root ranks
         else proc_ret tt) in
      proc_ret (KVTREE_SUCCESS, hash)
  else
    let '(hash, _) := kvtree_unset_all hash in
    mpi* m := MPI_Bcast_other root in
    try* size := recv_int m in
    if 0 <? size then
      try* buf := malloc_buf size in
      mpi* m := MPI_Bcast_other root in
      try* buf := recv_bytes buf m in
      try* (_, hash) := kvtree_unpack buf 0 hash in
      proc_ret (KVTREE_SUCCESS, hash)
    else proc_ret (KVTREE_SUCCESS, hash).

End mpi.

(** ** A tree in two messages *)
Definition packs (t : kvtree) : Prop := Z.of_nat (kvtree_pack_size (Some t)) <= INT_MAX.

Section transfer.
Context `{Host} `{MpiConst}.
Hypothesis Hmalloc : INT_MAX <= malloc_max.

Lemma malloc_buf_ok size :
  0 < size <= INT_MAX -> malloc_buf size = Ok (fresh_block (Z.to_nat size)).
Proof.
  intros Hs. pose proof malloc_max_range. unfold malloc_buf, kvtree_malloc.
  rewrite u64_id by int_lia. rewrite (proj2 (Z.ltb_lt _ _)), (proj2 (Z.leb_le _ _)) by lia. done.
Qed.

Lemma encode_pos t : (4 <= length (encode t))%nat.
Proof. destruct t. rewrite encode_eq, length_app, be_split_length. lia. Qed.

Definition size_msg (t : kvtree) : msg := MInt (Z.of_nat (length (encode t))).
Definition data_msg (t : kvtree) : msg := MBytes (encode t).

(** A size that fits an [int] passes the check and the conversion. *)
Lemma packs_size t :
  packs t ->
  let size := Z.of_nat (kvtree_pack_size (Some t)) in
  size = Z.of_nat (length (encode t)) /\ (INT_MAX <? size) = false /\ i32 size = size /\
  (0 <? size) = true /\ 0 < size <= INT_MAX.
Proof.
  unfold packs. rewrite pack_size_encode. cbn [encode_opt]. intros Hp. pose proof (encode_pos t).
  split_and!; [done|by apply Z.ltb_ge|apply i32_id; int_lia|apply Z.ltb_lt; lia|lia|lia].
Qed.

Lemma pack_fresh t :
  kvtree_pack (fresh_block (length (encode t))) 0 (Some t) = Ok (encode t, length (encode t)).
Proof.
  unfold kvtree_pack. rewrite tree_pack_write. unfold write_all, mem_write.
  rewrite decide_True by (rewrite fresh_block_length; lia).
  cbn [obind]. rewrite drop_ge by (rewrite fresh_block_length; lia). by rewrite app_nil_r.
Qed.

Lemma unpack_data t :
  packs t -> kvtree_unpack (encode t) 0 (Some kvtree_new) = Ok (length (encode t), Some (unpacked t)).
Proof.
  intros Hp. unfold kvtree_unpack, kvtree_new.
  erewrite (tree_unpack_stream t _ _ _ _ []); [|by apply small_size| |].
  - cbn [obind]. rewrite app_nil_r. by destruct (unpacked t).
  - by rewrite drop_0, app_nil_r.
  - unfold unpack_fuel. lia.
Qed.

Lemma recv_fresh t :
  recv_bytes (fresh_block (length (encode t))) (Some (data_msg t)) = Ok (encode t).
Proof.
  cbn [recv_bytes data_msg]. rewrite fresh_block_length, Nat.leb_refl.
  rewrite drop_ge by (rewrite fresh_block_length; lia). by rewrite app_nil_r.
Qed.

Lemma not_null r : 0 <= r -> (r =? MPI_PROC_NULL) = false.
Proof. pose proof proc_null_neg. intros Hr. apply Z.eqb_neq. lia. Qed.

(** ** The scripts of the calls *)
Definition says (d : Z) (t : kvtree) : list (option talk) :=
  [Some (Talk [(d, size_msg t)] None None); Some (Talk [(d, data_msg t)] None None)].
Definition hears (s : Z) (t : kvtree) : list (option talk) :=
  [Some (Talk [] (Some s) (Some (size_msg t))); Some (Talk [] (Some s) (Some (data_msg t)))].

(** A rank argument: [None] is the rank of no process. *)
Definition rank_arg (r : option nat) : Z := default MPI_PROC_NULL (Z.of_nat <$> r).

Definition swap_talk (d s : option nat) (m : msg) (m' : nat -> msg) : option talk :=
  match d, s with
  | None, None => None
  | _, _ => Some (Talk (match d with Some d => [(Z.of_nat d, m)] | None => [] end)
                    (Z.of_nat <$> s) (m' <$> s))
  end.

Lemma send_speaks t d :
  0 <= d -> packs t ->
  speaks PointToPoint (kvtree_send (Some t) d) (says d t) (proc_ret KVTREE_SUCCESS).
Proof.
  intros Hd Hp. destruct (packs_size t Hp) as (E & E1 & E2 & E3 & E4).
  unfold kvtree_send, MPI_Send. rewrite E1, E2, E3, (not_null d Hd), E.
  apply speaks_post. cbn [proc_bind proc_ret]. rewrite malloc_buf_ok by lia.
  cbn [proc_bind]. rewrite Nat2Z.id, pack_fresh. cbn [proc_bind].
  rewrite firstn_all. apply speaks_post. cbn [proc_bind proc_ret]. apply speaks_nil.
Qed.

Lemma recv_speaks t t0 s :
  0 <= s -> packs t ->
  speaks PointToPoint (kvtree_recv (Some t0) s) (hears s t)
    (proc_ret (KVTREE_SUCCESS, Some (unpacked t))).
Proof.
  intros Hs Hp. destruct (packs_size t Hp) as (E & E1 & E2 & E3 & E4).
  unfold kvtree_recv, MPI_Recv. rewrite unset_all_spec, (not_null s Hs). rewrite E in E3, E4.
  apply speaks_post. cbn [proc_bind proc_ret recv_int size_msg].
  rewrite E3, malloc_buf_ok by lia. cbn [proc_bind].
  apply speaks_post. cbn [proc_bind proc_ret]. rewrite Nat2Z.id, recv_fresh. cbn [proc_bind].
  rewrite unpack_data by done. cbn [proc_bind]. apply speaks_nil.
Qed.

Lemma rank_arg_Some r : rank_arg (Some r) = Z.of_nat r.
Proof. done. Qed.
Lemma rank_arg_null r : (rank_arg r =? MPI_PROC_NULL) = match r with Some _ => false | None => true end.
Proof. destruct r as [r|]; [apply not_null, Nat2Z.is_nonneg|apply Z.eqb_refl]. Qed.

Lemma sendrecv_speaks t t0 hs d s :
  (is_Some d -> packs t) -> (forall i, s = Some i -> packs (hs i)) ->
  speaks PointToPoint (kvtree_sendrecv (Some t) (rank_arg d) (Some t0) (rank_arg s))
    [swap_talk d s (size_msg t) (fun i => size_msg (hs i));
     swap_talk d s (data_msg t) (fun i => data_msg (hs i))]
    (proc_ret (KVTREE_SUCCESS, Some (match s with Some i => unpacked (hs i) | None => t0 end))).
Proof.
  intros Hp Hp'. unfold kvtree_sendrecv. rewrite !rank_arg_null, unset_all_spec.
  destruct d as [d|], s as [i|]; cbn [negb andb swap_talk fst fmap option_fmap option_map].
  1, 2: destruct (packs_size t (Hp ltac:(by eexists))) as (E & -> & -> & E3 & E4);
    rewrite E in E3, E4 |- *.
  all: rewrite ?rank_arg_Some; cbn [waitall].
  - destruct (packs_size (hs i) (Hp' i eq_refl)) as (F & _ & _ & F3 & F4). rewrite F in F3, F4.
    apply speaks_post. cbn [proc_bind proc_ret recv_int size_msg].
    rewrite F3, E3, !malloc_buf_ok by lia. cbn [proc_bind obind].
    rewrite !Nat2Z.id, pack_fresh. cbn [proc_bind obind]. rewrite firstn_all. cbn [waitall].
    apply speaks_post. cbn [proc_bind proc_ret]. rewrite recv_fresh. cbn [proc_bind].
    rewrite unpack_data by auto. cbn [proc_bind]. apply speaks_nil.
  - apply speaks_post. cbn [proc_bind proc_ret Z.ltb Z.compare].
    rewrite E3, malloc_buf_ok by lia. cbn [proc_bind obind].
    rewrite Nat2Z.id, pack_fresh. cbn [proc_bind obind]. rewrite firstn_all. cbn [waitall].
    apply speaks_post. cbn [proc_bind proc_ret]. apply speaks_nil.
  - destruct (packs_size (hs i) (Hp' i eq_refl)) as (F & _ & _ & F3 & F4). rewrite F in F3, F4.
    apply speaks_post. cbn [proc_bind proc_ret recv_int size_msg].
    rewrite F3, malloc_buf_ok by lia. cbn [proc_bind obind waitall Z.ltb Z.compare].
    apply speaks_post. cbn [proc_bind proc_ret]. rewrite Nat2Z.id, recv_fresh. cbn [proc_bind].
    rewrite unpack_data by auto. cbn [proc_bind]. apply speaks_nil.
  - apply speaks_skip, speaks_skip. cbn. apply speaks_nil.
Qed.

(** The root of a broadcast talks to every other process. *)
Definition tells (root : Z) (ranks : nat) (t : kvtree) : list (option talk) :=
  [Some (Talk ((fun r => (r, size_msg t)) <$> others root ranks) None None);
   Some (Talk ((fun r => (r, data_msg t)) <$> others root ranks) None None)].

Lemma bcast_root_speaks t root ranks :
  packs t ->
  speaks Collective (kvtree_bcast root ranks (Some t) root) (tells root ranks t)
    (proc_ret (KVTREE_SUCCESS, Some t)).
Proof.
  intros Hp. destruct (packs_size t Hp) as (E & E1 & E2 & E3 & E4).
  unfold kvtree_bcast, MPI_Bcast_root. rewrite Z.eqb_refl, E1, E2, E3, E.
  apply speaks_post. cbn [proc_bind proc_ret]. rewrite malloc_buf_ok by lia.
  cbn [proc_bind]. rewrite Nat2Z.id, pack_fresh. cbn [proc_bind].
  rewrite firstn_all. apply speaks_post. cbn [proc_bind proc_ret]. apply speaks_nil.
Qed.

Lemma bcast_other_speaks t t0 rank root ranks :
  rank <> root -> packs t ->
  speaks Collective (kvtree_bcast rank ranks (Some t0) root) (hears root t)
    (proc_ret (KVTREE_SUCCESS, Some (unpacked t))).
Proof.
  intros Hr Hp. destruct (packs_size t Hp) as (E & E1 & E2 & E3 & E4).
  unfold kvtree_bcast, MPI_Bcast_other. rewrite unset_all_spec, (proj2 (Z.eqb_neq _ _)) by done.
  rewrite E in E3, E4.
  apply speaks_post. cbn [proc_bind proc_ret recv_int size_msg].
  rewrite E3, malloc_buf_ok by lia. cbn [proc_bind].
  apply speaks_post. cbn [proc_bind proc_ret]. rewrite Nat2Z.id, recv_fresh. cbn [proc_bind].
  rewrite unpack_data by done. cbn [proc_bind]. apply speaks_nil.
Qed.

(** ** All processes together *)
Lemma msgs_to_fmap (m : msg) l d :
  NoDup l -> msgs_to d ((fun r => (r, m)) <$> l) = if decide (d ∈ l) then [m] else [].
Proof.
  intros Hl. induction Hl as [|r l Hr Hl IH]; [done|]. unfold msgs_to in *.
  rewrite fmap_cons, filter_cons. cbn [fst]. destruct (decide (r = d)) as [->|E].
  - rewrite decide_False in IH by done. rewrite fmap_cons, IH, decide_True by (by left). done.
  - rewrite IH. apply decide_ext. rewrite elem_of_cons. naive_solver.
Qed.

Lemma others_spec root ranks d : d ∈ others root ranks <-> d <> root /\ 0 <= d < Z.of_nat ranks.
Proof.
  unfold others. rewrite list_elem_of_filter, list_elem_of_fmap. split.
  - intros (Hd & i & -> & Hi%elem_of_seq). lia.
  - intros (Hd & Hr). split; [done|]. exists (Z.to_nat d). rewrite elem_of_seq. lia.
Qed.

Lemma others_NoDup root ranks : NoDup (others root ranks).
Proof. apply list.NoDup_filter, NoDup_fmap_2; [intros ? ?; lia|apply NoDup_seq]. Qed.

Lemma tell_matched n root m :
  (root < n)%nat ->
  matched n (fun r => if decide (r = root)
                      then Some (Talk ((fun d => (d, m)) <$> others (Z.of_nat root) n) None None)
                      else Some (Talk [] (Some (Z.of_nat root)) (Some m))).
Proof.
  intros Hn. split.
  - intros r d Hr Hd. case_decide; [|done]. cbn [sends_of from_option t_sends].
    rewrite msgs_to_fmap by apply others_NoDup. rewrite decide_False; [done|]. rewrite others_spec. lia.
  - intros r s Hr Hs. destruct (decide (s = root)) as [->|Hsr]; cbn [sends_of from_option t_sends].
    + rewrite msgs_to_fmap by apply others_NoDup. destruct (decide (r = root)) as [->|Hrr].
      * rewrite !decide_False; [done|done|]. rewrite others_spec. lia.
      * cbn. rewrite !decide_True; [done|done|]. apply others_spec. lia.
    + rewrite decide_False; [done|]. case_decide; cbn; [done|]. intros [= E]. lia.
  - intros r Hr. case_decide; cbn; [done|]. split; [lia|by eexists].
Qed.

Lemma pair_matched n a b m :
  (a < n)%nat -> (b < n)%nat -> a <> b ->
  matched n (fun r => if decide (r = a) then Some (Talk [(Z.of_nat b, m)] None None)
                      else if decide (r = b) then Some (Talk [] (Some (Z.of_nat a)) (Some m))
                      else None).
Proof.
  intros Ha Hb Hab. split.
  - intros r d Hr Hd. repeat case_decide; try done. cbn [sends_of from_option t_sends].
    rewrite msgs_to_one, decide_False by lia. done.
  - intros r s Hr Hs. destruct (decide (s = a)) as [->|Hsa].
    + cbn [sends_of from_option t_sends]. rewrite msgs_to_one.
      destruct (decide (r = a)) as [->|]; [rewrite !decide_False by (done || lia); done|].
      destruct (decide (r = b)) as [->|]; [by rewrite !decide_True|].
      rewrite !decide_False by (done || lia). done.
    + assert (msgs_to (Z.of_nat r) (sends_of (if decide (s = b) then Some (Talk [] (Some (Z.of_nat a)) (Some m)) else None)) = [])
        as -> by (by case_decide).
      rewrite decide_False; [done|]. repeat case_decide; cbn; try done. intros [= E]. lia.
  - intros r Hr. repeat case_decide; cbn; try done. split; [lia|by eexists].
Qed.

(** Every process names the process it sends to and the one it receives from,
    and they agree. *)
Definition partners (n : nat) (dst src : nat -> option nat) : Prop :=
  forall r, (r < n)%nat ->
    (forall d, dst r = Some d -> (d < n)%nat /\ src d = Some r) /\
    (forall s, src r = Some s -> (s < n)%nat /\ dst s = Some r).

Lemma swap_talk_parts d s m m' :
  sends_of (swap_talk d s m m') = match d with Some d => [(Z.of_nat d, m)] | None => [] end /\
  recv_of (swap_talk d s m m') = Z.of_nat <$> s /\ got_of (swap_talk d s m m') = m' <$> s.
Proof. by destruct d, s. Qed.

Lemma swap_matched n dst src (m : nat -> msg) :
  partners n dst src -> matched n (fun r => swap_talk (dst r) (src r) (m r) m).
Proof.
  intros Hp. split.
  - intros r d Hr Hd. destruct (swap_talk_parts (dst r) (src r) (m r) m) as (-> & _).
    destruct (Hp r Hr) as [Hdst _]. destruct (dst r) as [d'|]; [|done].
    destruct (Hdst d' eq_refl). rewrite msgs_to_one, decide_False by lia. done.
  - intros r s Hr Hs. destruct (swap_talk_parts (dst s) (src s) (m s) m) as (-> & _).
    destruct (swap_talk_parts (dst r) (src r) (m r) m) as (_ & -> & ->).
    destruct (Hp r Hr) as [_ Hsrc], (Hp s Hs) as [Hdst _].
    destruct (decide (Z.of_nat <$> src r = Some (Z.of_nat s))) as [E|E].
    + destruct (src r) as [s'|]; [|done]. injection E as E%Nat2Z.inj. subst s'.
      destruct (Hsrc s eq_refl) as [_ ->]. by rewrite msgs_to_one, decide_True.
    + destruct (dst s) as [d|]; [|done]. rewrite msgs_to_one. case_decide as Hd; [|done].
      apply Nat2Z.inj in Hd as ->. destruct (Hdst r eq_refl) as [_ Hsr]. by rewrite Hsr in E.
  - intros r Hr. destruct (swap_talk_parts (dst r) (src r) (m r) m) as (_ & -> & ->).
    destruct (Hp r Hr) as [_ Hsrc]. destruct (src r) as [s|]; [|done].
    destruct (Hsrc s eq_refl). simpl. split; [lia|by eexists].
Qed.

Lemma sendrecv_matched n dst src hs :
  partners n dst src ->
  Forall (matched n)
    [(fun r => swap_talk (dst r) (src r) (size_msg (hs r)) (fun i => size_msg (hs i)));
     (fun r => swap_talk (dst r) (src r) (data_msg (hs r)) (fun i => data_msg (hs i)))].
Proof.
  intros Hp. constructor; [by apply (swap_matched n dst src (fun r => size_msg (hs r)))|].
  constructor; [by apply (swap_matched n dst src (fun r => data_msg (hs r)))|constructor].
Qed.

(** A round of [kvtree_sendrecv] on every process, each going on with [K]. *)
Lemma sendrecv_round `{MpiBuffers} {A} n dst src (hs hr : nat -> kvtree)
    (K : nat -> Z * option kvtree -> proc A) ch :
  idle ch -> partners n dst src -> (forall r, (r < n)%nat -> packs (hs r)) ->
  exists ch', idle ch' /\
    rtc step
      (Cfg (running n (fun r => mpi* x := kvtree_sendrecv (Some (hs r)) (rank_arg (dst r))
                                            (Some (hr r)) (rank_arg (src r)) in K r x)) ch)
      (Cfg (running n (fun r => K r (KVTREE_SUCCESS,
              Some (match src r with Some s => unpacked (hs s) | None => hr r end)))) ch').
Proof.
  intros Hi Hp Hs. eapply script_rounds; [done|by apply sendrecv_matched|].
  intros r Hr. destruct (Hp r Hr) as [_ Hsrc]. apply speaks_bind, sendrecv_speaks; [auto|].
  intros i Hi2. apply Hs. by apply Hsrc.
Qed.

(** C29. A [kvtree_sendrecv] on every process, with any partners that agree and
    [MPI_PROC_NULL] for a missing one, comes back on all of them with success:
    a process that has a source gets a well-formed tree with the paths its source
    sent, and the others keep their tree. *)
Theorem sendrecv_delivers `{MpiBuffers} n dst src (hs hr : nat -> kvtree) :
  (0 < n)%nat -> partners n dst src ->
  (forall r, (r < n)%nat -> wf (hs r) /\ packs (hs r)) ->
  always
    (Cfg (running n (fun r => kvtree_sendrecv (Some (hs r)) (rank_arg (dst r))
                                (Some (hr r)) (rank_arg (src r)))) ∅)
    (stopped ((fun r => Ok (KVTREE_SUCCESS,
       Some (match src r with Some s => unpacked (hs s) | None => hr r end))) <$> seq 0 n)) /\
  forall r, (r < n)%nat -> wf (unpacked (hs r)) /\ unpacked (hs r) ≡ hs r.
Proof.
  intros Hn Hp Hs. split.
  - eapply scripts_always; [done|apply idle_empty|by apply sendrecv_matched|].
    intros r Hr. destruct (Hp r Hr) as [_ Hsrc]. apply sendrecv_speaks; [intros; by apply Hs|].
    intros i Hi2. apply Hs. by apply Hsrc.
  - intros r Hr. destruct (Hs r Hr) as [Hwf _].
    split; [auto with kvtree|intros p; by apply unpacked_path].
Qed.

(** A tree sent with [kvtree_send] and received with [kvtree_recv] arrives:
    however the processes are scheduled and whatever MPI buffers, both calls
    return with success, and the receiver has a well-formed tree with the same
    paths, whatever its tree held before. *)
Theorem send_recv_delivers `{MpiBuffers} n a b t t0 :
  (a < n)%nat -> (b < n)%nat -> a <> b -> wf t -> packs t ->
  always
    (Cfg (running n (fun r =>
       if decide (r = a) then mpi* rc := kvtree_send (Some t) (Z.of_nat b) in proc_ret (rc, Some t)
       else if decide (r = b) then kvtree_recv (Some t0) (Z.of_nat a)
       else proc_ret (KVTREE_SUCCESS, None))) ∅)
    (stopped ((fun r => Ok (KVTREE_SUCCESS,
       if decide (r = a) then Some t
       else if decide (r = b) then Some (unpacked t) else None)) <$> seq 0 n)) /\
  wf (unpacked t) /\ unpacked t ≡ t.
Proof.
  intros Ha Hb Hab Hwf Hp. split; [|split; [auto with kvtree|intros p; by apply unpacked_path]].
  apply (scripts_always n PointToPoint
    [(fun r => if decide (r = a) then Some (Talk [(Z.of_nat b, size_msg t)] None None)
               else if decide (r = b) then Some (Talk [] (Some (Z.of_nat a)) (Some (size_msg t)))
               else None);
     (fun r => if decide (r = a) then Some (Talk [(Z.of_nat b, data_msg t)] None None)
               else if decide (r = b) then Some (Talk [] (Some (Z.of_nat a)) (Some (data_msg t)))
               else None)]); [lia|apply idle_empty| |].
  - constructor; [by apply pair_matched|constructor; [by apply pair_matched|constructor]].
  - intros r Hr. simpl. destruct (decide (r = a)) as [->|]; [|destruct (decide (r = b)) as [->|]].
    + apply (speaks_bind _ _ (fun rc => proc_ret (rc, Some t))). apply send_speaks; [lia|done].
    + apply recv_speaks; [lia|done].
    + repeat constructor.
Qed.

(** C30. After [kvtree_bcast] on all processes, however they are scheduled, the
    root's tree is as it was and every other process has a well-formed tree with
    the paths of the root's. *)
Theorem bcast_delivers `{MpiBuffers} n root t (old : nat -> kvtree) :
  (root < n)%nat -> wf t -> packs t ->
  always
    (Cfg (running n (fun r =>
       kvtree_bcast (Z.of_nat r) n (Some (if decide (r = root) then t else old r)) (Z.of_nat root))) ∅)
    (stopped ((fun r => Ok (KVTREE_SUCCESS, Some (if decide (r = root) then t else unpacked t)))
              <$> seq 0 n)) /\
  wf (unpacked t) /\ unpacked t ≡ t.
Proof.
  intros Hn Hwf Hp. split; [|split; [auto with kvtree|intros p; by apply unpacked_path]].
  apply (scripts_always n Collective
    [(fun r => if decide (r = root)
               then Some (Talk ((fun d => (d, size_msg t)) <$> others (Z.of_nat root) n) None None)
               else Some (Talk [] (Some (Z.of_nat root)) (Some (size_msg t))));
     (fun r => if decide (r = root)
               then Some (Talk ((fun d => (d, data_msg t)) <$> others (Z.of_nat root) n) None None)
               else Some (Talk [] (Some (Z.of_nat root)) (Some (data_msg t))))]);
    [lia|apply idle_empty| |].
  - constructor; [by apply tell_matched|constructor; [by apply tell_matched|constructor]].
  - intros r Hr. simpl. destruct (decide (r = root)) as [->|].
    + by apply bcast_root_speaks.
    + apply bcast_other_speaks; [lia|done].
Qed.

End transfer.

(** ** Witnesses *)
Program Definition mpi_sample : MpiConst := {| MPI_PROC_NULL := -1 |}.
Next Obligation. lia. Qed.

(** An implementation that buffers nothing. *)
Definition mpi_rendezvous : MpiBuffers := {| buffered := fun _ _ _ _ => false |}.

Lemma send_recv_delivers_witness :
  let t := sample_tree "A" "1" (sample_tree "B" "2" kvtree_new) in
  let t0 := sample_tree "OLD" "0" kvtree_new in
  always (H := mpi_rendezvous)
    (Cfg (running 3 (fun r =>
       if decide (r = 2%nat)
       then mpi* rc := @kvtree_send host_le mpi_sample (Some t) (Z.of_nat 0) in proc_ret (rc, Some t)
       else if decide (r = 0%nat) then @kvtree_recv host_le mpi_sample (Some t0) (Z.of_nat 2)
       else proc_ret (KVTREE_SUCCESS, None))) ∅)
    (stopped ((fun r => Ok (KVTREE_SUCCESS,
       if decide (r = 2%nat) then Some t
       else if decide (r = 0%nat) then Some (unpacked t) else None)) <$> seq 0 3)) /\
  wf (unpacked t) /\ unpacked t ≡ t.
Proof.
  intros t t0. apply (@send_recv_delivers host_le mpi_sample ltac:(by vm_compute) mpi_rendezvous 3 2 0);
    [lia|lia|lia|wf_check|by vm_compute].
Defined.

Lemma sendrecv_delivers_witness :
  let hs r := sample_tree "A" (if decide (r = 0%nat) then "1" else "2") kvtree_new in
  let dst (r : nat) := match r with 0%nat => Some 1%nat | 1%nat => Some 2%nat | _ => None end in
  let src (r : nat) := match r with 1%nat => Some 0%nat | 2%nat => Some 1%nat | _ => None end in
  always (H := mpi_rendezvous)
    (Cfg (running 3 (fun r => @kvtree_sendrecv host_le mpi_sample (Some (hs r)) (@rank_arg mpi_sample (dst r))
                                (Some kvtree_new) (@rank_arg mpi_sample (src r)))) ∅)
    (stopped ((fun r => Ok (KVTREE_SUCCESS,
       Some (match src r with Some s => unpacked (hs s) | None => kvtree_new end))) <$> seq 0 3)) /\
  forall r, (r < 3)%nat -> wf (unpacked (hs r)) /\ unpacked (hs r) ≡ hs r.
Proof.
  intros hs dst src.
  apply (@sendrecv_delivers host_le mpi_sample ltac:(by vm_compute) mpi_rendezvous 3 dst src hs
           (fun _ => kvtree_new)).
  - lia.
  - intros r Hr. destruct r as [|[|[|r]]]; [..|lia]; split; intros x [= <-]; split; (lia || done).
  - intros r Hr. destruct r as [|[|[|r]]]; [..|lia]; (split; [wf_check|by vm_compute]).
Defined.

Lemma bcast_delivers_witness :
  let t := sample_tree "A" "1" (sample_tree "B" "2" kvtree_new) in
  always (H := mpi_rendezvous)
    (Cfg (running 3 (fun r =>
       @kvtree_bcast host_le (Z.of_nat r) 3
         (Some (if decide (r = 1%nat) then t else kvtree_new)) (Z.of_nat 1))) ∅)
    (stopped ((fun r => Ok (KVTREE_SUCCESS, Some (if decide (r = 1%nat) then t else unpacked t)))
              <$> seq 0 3)) /\
  wf (unpacked t) /\ unpacked t ≡ t.
Proof.
  intros t.
  apply (@bcast_delivers host_le ltac:(by vm_compute) mpi_rendezvous 3 1 t (fun _ => kvtree_new));
    [lia|wf_check|by vm_compute].
Defined.
