(* ===== verification/Exchange.v ===== *)
(** The exchange of trees between all processes: [kvtree_exchange_sendq],
    [kvtree_exchange_direction] and [kvtree_exchange] of
    [src/src/kvtree_mpi.c].

    An item travels from its source to its destination in hops of 1, 2, 4, ...
    ranks, in one direction: in the hop of [2^i] ranks it moves when bit [i] of
    its distance is set (Bruck's algorithm).  [kvtree_exchange] chooses for
    each item the direction with fewer hops.

    [rank] and [ranks] are what [MPI_Comm_rank] and [MPI_Comm_size] give.  The
    loops take 32 units of fuel: they double an [int] from 1 up to the number of
    processes. *)

From stdpp Require Import relations.
From S2P Require Import Prelude CLib ByteOrder Kvtree KvtreeSpec KvtreeMap KvtreeMerge Pack.
From S2P Require Import Format Paths Net Mpi.

Inductive kvtree_exchange_enum := KVTREE_EXCHANGE_RIGHT | KVTREE_EXCHANGE_LEFT.

Section exchange.
Context `{Host} `{MpiConst} `{Libc}.

(** The pointer [kvtree_getf] returns is the path of the key. *)
Definition kvtree_exchange_sendq (send_hash : option kvtree) (rank : Z) (msg : option kvtree)
    : outcome (option kvtree * Z) :=
  let* hash := kvtree_getf send_hash (str "%d") [AInt rank] in
  match hash with
  | None =>
      let copy := kvtree_new in
      let '(copy, _) := kvtree_merge (Some copy) msg in
      let* (send_hash, _) := kvtree_setf send_hash copy (str "%d") [AInt rank] in
      Ok (send_hash, KVTREE_SUCCESS)
  | Some _ =>
      let '(send_hash, _) :=
        at_ptr send_hash (Some [fmt_signed rank]) (fun hash => kvtree_merge hash msg) in
      Ok (send_hash, KVTREE_SUCCESS)
  end.

(** ** One direction *)

(** Copy the input to the current hash under the keys D and S. *)
Fixpoint item_loop (rank : Z) (elem : cursor) (current : option kvtree) : outcome (option kvtree) :=
  match elem with
  | [] => Ok current
  | _ :: next =>
      let* dest_rank := kvtree_elem_key_int elem in
      let data_hash := kvtree_elem_hash elem in
      let '(current, dest_hash) := kvtree_set_kv_int current (Some (str "D")) dest_rank in
      let '(current, src_hash) :=
        at_ptr current dest_hash (fun h => kvtree_set_kv_int h (Some (str "S")) rank) in
      let '(current, _) :=
        at_ptr current (ptr_app dest_hash src_hash) (fun h => kvtree_merge h data_hash) in
      item_loop rank next current
  end.

(** The distance from [rank] to [dest_rank] in the direction. *)
Definition distance (direction : kvtree_exchange_enum) (rank ranks dest_rank : Z) : Z :=
  let dist :=
    match direction with
    | KVTREE_EXCHANGE_RIGHT => i32 (dest_rank - rank)
    | KVTREE_EXCHANGE_LEFT => i32 (rank - dest_rank)
    end in
  if dist <? 0 then i32 (dist + ranks) else dist.

(** Copy each item to the output, to the hash to send or to the one to keep. *)
Fixpoint split_loop (direction : kvtree_exchange_enum) (rank ranks bit : Z) (elem : cursor)
    (keep send hash_out : option kvtree) : outcome (option kvtree * option kvtree * option kvtree) :=
  match elem with
  | [] => Ok (keep, send, hash_out)
  | _ :: next =>
      let* dest_rank := kvtree_elem_key_int elem in
      let elem_hash := kvtree_elem_hash elem in
      let dist := distance direction rank ranks dest_rank in
      if dest_rank =? rank then
        let dest_hash := kvtree_get elem_hash (Some (str "S")) in
        let '(hash_out, _) := kvtree_merge hash_out dest_hash in
        split_loop direction rank ranks bit next keep send hash_out
      else if negb (Z.land dist bit =? 0) then
        let '(send, dest_send) := kvtree_set_kv_int send (Some (str "D")) dest_rank in
        let '(send, _) := at_ptr send dest_send (fun h => kvtree_merge h elem_hash) in
        split_loop direction rank ranks bit next keep send hash_out
      else
        let '(keep, dest_keep) := kvtree_set_kv_int keep (Some (str "D")) dest_rank in
        let '(keep, _) := at_ptr keep dest_keep (fun h => kvtree_merge h elem_hash) in
        split_loop direction rank ranks bit next keep send hash_out
  end.

Definition left_of (rank ranks step : Z) : Z :=
  let left := rank - step in if left <? 0 then left + ranks else left.
Definition right_of (rank ranks step : Z) : Z :=
  let right := i32 (rank + step) in if ranks <=? right then right - ranks else right.

(** The destination and the source of a step. *)
Definition partners_of (direction : kvtree_exchange_enum) (rank ranks step : Z) : Z * Z :=
  match direction with
  | KVTREE_EXCHANGE_RIGHT => (right_of rank ranks step, left_of rank ranks step)
  | KVTREE_EXCHANGE_LEFT => (left_of rank ranks step, right_of rank ranks step)
  end.

Fixpoint hops_loop (fuel : nat) (direction : kvtree_exchange_enum) (rank ranks hops : Z)
    (bit step hop_count : Z) (current hash_out : option kvtree)
    : proc (option kvtree * option kvtree) :=
  match fuel with
  | O => Stop NoFuel
  | S fuel =>
      if (step <? ranks) && ((hops <? 0) || (hop_count <? hops)) then
        let '(dst, src) := partners_of direction rank ranks step in
        let keep := Some kvtree_new in
        let send := Some kvtree_new in
        let recv := Some kvtree_new in
        let dest_hash := kvtree_get current (Some (str "D")) in
        try* (keep, send, hash_out) :=
          split_loop direction rank ranks bit (kvtree_elem_first dest_hash) keep send hash_out in
        mpi* (_, recv) := kvtree_sendrecv send dst recv src in
        let '(keep, _) := kvtree_merge keep recv in
        let current := keep in
        hops_loop fuel direction rank ranks hops (i32 (Z.shiftl bit 1)) (i32 (step * 2))
          (hop_count + 1) current hash_out
      else proc_ret (current, hash_out)
  end.

Definition hop_fuel : nat := 32.

Definition kvtree_exchange_direction_hops (rank ranks : Z) (hash_in hash_out : option kvtree)
    (direction : kvtree_exchange_enum) (hops : Z) : proc (Z * option kvtree) :=
  let current := Some kvtree_new in
  try* current := item_loop rank (kvtree_elem_first hash_in) current in
  mpi* (current, hash_out) := hops_loop hop_fuel direction rank ranks hops 1 1 0 current hash_out in
  let dest_hash := kvtree_get_kv_int current (Some (str "D")) rank in
  let elem_hash := kvtree_get dest_hash (Some (str "S")) in
  let '(hash_out, _) := kvtree_merge hash_out elem_hash in
  proc_ret (KVTREE_SUCCESS, hash_out).

Definition kvtree_exchange_direction (rank ranks : Z) (send recv : option kvtree)
    (dir : kvtree_exchange_enum) : proc (Z * option kvtree) :=
  mpi* (rc, recv) := kvtree_exchange_direction_hops rank ranks send recv dir (-1) in
  proc_ret (rc, recv).

(** ** Both directions *)

(** The number of hops to the left and to the right and the last step of each. *)
Fixpoint count_hops (fuel : nat) (ranks dist_left dist_right dist step : Z)
    (hops_left hops_right steps_left steps_right : Z) : outcome (Z * Z * Z * Z) :=
  match fuel with
  | O => NoFuel
  | S fuel =>
      if dist <? ranks then
        let '(hops_left, steps_left) :=
          if negb (Z.land dist_left dist =? 0) then (hops_left + 1, step) else (hops_left, steps_left) in
        let '(hops_right, steps_right) :=
          if negb (Z.land dist_right dist =? 0) then (hops_right + 1, step) else (hops_right, steps_right) in
        count_hops fuel ranks dist_left dist_right (i32 (Z.shiftl dist 1)) (step + 1)
          hops_left hops_right steps_left steps_right
      else Ok (hops_left, hops_right, steps_left, steps_right)
  end.

(** Assign each element to the left-going or the right-going exchange. *)
Fixpoint assign_loop (rank ranks : Z) (elem : cursor) (left right : option kvtree)
    (max_left max_right : Z) : outcome (option kvtree * option kvtree * Z * Z) :=
  match elem with
  | [] => Ok (left, right, max_left, max_right)
  | _ :: next =>
      let* dest := kvtree_elem_key_int elem in
      let elem_hash := kvtree_elem_hash elem in
      let dist_left := distance KVTREE_EXCHANGE_LEFT rank ranks dest in
      let dist_right := distance KVTREE_EXCHANGE_RIGHT rank ranks dest in
      let* (hops_left, hops_right, steps_left, steps_right) :=
        count_hops hop_fuel ranks dist_left dist_right 1 1 0 0 0 0 in
      let tmp := kvtree_new in
      let '(tmp, _) := kvtree_merge (Some tmp) elem_hash in
      if hops_left <? hops_right then
        let* (left, _) := kvtree_setf left tmp (str "%d") [AInt dest] in
        assign_loop rank ranks next left right
          (if max_left <? steps_left then steps_left else max_left) max_right
      else
        let* (right, _) := kvtree_setf right tmp (str "%d") [AInt dest] in
        assign_loop rank ranks next left right max_left
          (if max_right <? steps_right then steps_right else max_right)
  end.

(** The two numbers of an [MPI_Allreduce] over an array of two. *)
Definition two_ints (v : list Z) : outcome (Z * Z) :=
  match v with [a; b] => Ok (a, b) | _ => Undef end.

Definition kvtree_exchange (rank ranks : Z) (send recv : option kvtree) : proc (Z * option kvtree) :=
  let left := Some kvtree_new in
  let right := Some kvtree_new in
  try* (left, right, max_left, max_right) :=
    assign_loop rank ranks (kvtree_elem_first send) left right 0 0 in
  mpi* v := Reduce AllMax [max_left; max_right] proc_ret in
  try* (all_left, all_right) := two_ints v in
  mpi* (rc, recv) :=
    kvtree_exchange_direction_hops rank ranks left recv KVTREE_EXCHANGE_LEFT all_left in
  mpi* (right_rc, recv) :=
    kvtree_exchange_direction_hops rank ranks right recv KVTREE_EXCHANGE_RIGHT all_right in
  let rc := if rc =? KVTREE_SUCCESS then right_rc else rc in
  proc_ret (rc, recv).

End exchange.

(** ** Copying items, on one process *)
Definition kD : cstring := str "D".
Definition kS : cstring := str "S".

(** The destination of an element. *)
Definition dest_of (e : kvtree_elem) : Z := match key e with Some k => atoi k | None => 0 end.

Lemma key_int_dest e next : has_key e -> kvtree_elem_key_int (e :: next) = Ok (dest_of e).
Proof. intros [k Hk]. unfold kvtree_elem_key_int, dest_of. by rewrite Hk. Qed.

Lemma item_step t d rank h :
  wf t ->
  exists t' rc,
    (let '(t1, dp) := kvtree_set_kv_int (Some t) (Some kD) d in
     let '(t2, sp) := at_ptr t1 dp (fun h => kvtree_set_kv_int h (Some kS) rank) in
     at_ptr t2 (ptr_app dp sp) (fun c => kvtree_merge c h)) = (Some t', rc) /\
    adds t (graft [kD; fmt_signed d; kS; fmt_signed rank] (has_path_opt h)) t'.
Proof.
  intros Hwf. unfold kvtree_set_kv_int.
  destruct (set_kv_adds t kD (fmt_signed d) Hwf) as (t1 & c & -> & [Hwf1 Hp1] & Hd & Hc).
  destruct (set_kv_adds c kS (fmt_signed rank) Hc) as (c1 & c2 & Es & Ha & Hd2 & Hc2).
  destruct (at_ptr_adds [kD; fmt_signed d]
              (fun h => kvtree_set_kv h (Some kS) (Some (fmt_signed rank)))
              (graft [kS; fmt_signed rank] leaf) _ t1 c c1 Hwf1 Hd Es Ha eq_refl)
    as (t2 & -> & [Hwf2 Hp2] & Hd1).
  cbn [ptr_app app].
  assert (kvtree_deref t2 [kD; fmt_signed d; kS; fmt_signed rank] = Some c2) as Hd3.
  { change [kD; fmt_signed d; kS; fmt_signed rank]
      with ([kD; fmt_signed d] ++ [kS; fmt_signed rank]).
    by rewrite (deref_app _ _ _ _ Hd1). }
  destruct (merge_adds c2 h Hc2) as (c3 & rc & Em & Ha3).
  destruct (at_ptr_adds [kD; fmt_signed d; kS; fmt_signed rank] (fun c => kvtree_merge c h)
              (has_path_opt h) rc t2 c2 c3 Hwf2 Hd3 Em Ha3 (has_path_opt_nil h))
    as (t3 & E & [Hwf3 Hp3] & _).
  exists t3, rc. split; [exact E|]. split; [done|]. intros p.
  rewrite Hp3, Hp2, Hp1, <- !orb_assoc. f_equal.
  change (graft [kD; fmt_signed d] (graft [kS; fmt_signed rank] leaf) p)
    with (graft [kD; fmt_signed d; kS; fmt_signed rank] leaf p).
  pose proof (has_path_opt_nil h) as Hn.
  pose proof (graft_leaf_or [kD; fmt_signed d; kS; fmt_signed rank] [] _ p Hn) as Hg.
  rewrite app_nil_r in Hg. rewrite Hg.
  apply (graft_leaf_or [kD; fmt_signed d] [kS; fmt_signed rank] _ p Hn).
Qed.

Lemma item_loop_spec rank l : forall t,
  wf t -> Forall has_key l ->
  exists t', item_loop rank l (Some t) = Ok (Some t') /\
    adds t (fun p => existsb (fun e => graft [kD; fmt_signed (dest_of e); kS; fmt_signed rank]
                                         (has_path_opt (hash e)) p) l) t'.
Proof.
  induction l as [|e l IH]; intros t Hwf Hk.
  - exists t. split; [done|]. split; [done|]. intros p. simpl. by rewrite orb_false_r.
  - apply Forall_cons_iff in Hk as [He Hl]. cbn [item_loop]. rewrite key_int_dest by done.
    cbn [obind kvtree_elem_hash].
    destruct (item_step t (dest_of e) rank (hash e) Hwf) as (t1 & rc & E & Ha).
    fold kD kS.
    destruct (kvtree_set_kv_int (Some t) (Some kD) (dest_of e)) as [t2 dp].
    destruct (at_ptr t2 dp _) as [t3 sp]. rewrite E.
    destruct (IH t1 (proj1 Ha) Hl) as (t' & -> & Ha'). exists t'. split; [done|].
    by eapply adds_trans.
Qed.

(** ** Splitting the current hash, on one process *)
Definition moves (dir : kvtree_exchange_enum) (rank ranks bit d : Z) : bool :=
  negb (Z.land (distance dir rank ranks d) bit =? 0).

(** The items of [l] that [P] selects by their destination. *)
Definition selected (P : Z -> bool) (l : list kvtree_elem) (p : path) : bool :=
  existsb (fun e => P (dest_of e) && graft [kD; fmt_signed (dest_of e)] (has_path_opt (hash e)) p) l.

Definition arrived (rank : Z) (l : list kvtree_elem) (p : path) : bool :=
  existsb (fun e => (dest_of e =? rank) && has_path_opt (hash e) (kS :: p)) l.

Lemma selected_cons P e l p :
  selected P (e :: l) p =
    (P (dest_of e) && graft [kD; fmt_signed (dest_of e)] (has_path_opt (hash e)) p) || selected P l p.
Proof. done. Qed.

Lemma adds_none t P e : wf t -> P (dest_of e) = false ->
  adds t (fun p => P (dest_of e) && graft [kD; fmt_signed (dest_of e)] (has_path_opt (hash e)) p) t.
Proof. intros Hwf E. split; [done|]. intros p. by rewrite E, orb_false_r. Qed.

Lemma split_loop_spec dir rank ranks bit l : forall keep send out,
  wf keep -> wf send -> wf out -> Forall wf_elem l ->
  exists keep' send' out',
    split_loop dir rank ranks bit l (Some keep) (Some send) (Some out)
      = Ok (Some keep', Some send', Some out') /\
    adds keep (selected (fun d => negb (d =? rank) && negb (moves dir rank ranks bit d)) l) keep' /\
    adds send (selected (fun d => negb (d =? rank) && moves dir rank ranks bit d) l) send' /\
    adds out (arrived rank l) out'.
Proof.
  induction l as [|e l IH]; intros keep send out Hk Hs Ho Hl.
  - exists keep, send, out. split; [done|].
    split_and!; (split; [done|]); intros p; simpl; by rewrite orb_false_r.
  - apply Forall_cons_iff in Hl as [He Hl]. apply wf_elem_iff in He as [Hkey Hh].
    cbn [split_loop]. rewrite key_int_dest by (unfold has_key; destruct (key e); [by eexists|done]).
    cbn [obind kvtree_elem_hash]. fold kD kS.
    destruct (dest_of e =? rank) eqn:Er; [|fold (moves dir rank ranks bit (dest_of e));
      destruct (moves dir rank ranks bit (dest_of e)) eqn:Em].
    + destruct (merge_adds out (kvtree_get (hash e) (Some kS)) Ho) as (out1 & rc & -> & [Ho1 Hp1]).
      destruct (IH keep send out1 Hk Hs Ho1 Hl) as (k' & s' & o' & E & Ak & As & Ao).
      exists k', s', o'. split; [done|]. split_and!.
      * eapply adds_ext; [|exact Ak]. intros p. by rewrite selected_cons, Er.
      * eapply adds_ext; [|exact As]. intros p. by rewrite selected_cons, Er.
      * eapply adds_ext; [|exact (adds_trans _ _ _ _ _ (conj Ho1 Hp1) Ao)]. intros [|k p]; [done|].
        cbn [arrived existsb]. rewrite Er. cbn [andb]. f_equal. f_equal.
        destruct (hash e) as [c|]; [|done]. cbn [has_path_opt] in *.
        rewrite (has_path_cons c) by done. by destruct (kvtree_get (Some c) (Some kS)).
    + destruct (set_kv_merge send kD (dest_of e) (hash e) Hs) as (send1 & rc & E1 & A1).
      destruct (kvtree_set_kv_int (Some send) (Some kD) (dest_of e)) as [t1 ptr]. rewrite E1.
      destruct (IH keep send1 out Hk (proj1 A1) Ho Hl) as (k' & s' & o' & E & Ak & As & Ao).
      exists k', s', o'. split; [done|]. split_and!.
      * eapply adds_ext; [|exact Ak]. intros p. by rewrite selected_cons, Er, Em.
      * eapply adds_ext; [|exact (adds_trans _ _ _ _ _ A1 As)]. intros p.
        by rewrite selected_cons, Er, Em.
      * eapply adds_ext; [|exact Ao]. intros p. cbn [arrived existsb]. by rewrite Er.
    + destruct (set_kv_merge keep kD (dest_of e) (hash e) Hk) as (keep1 & rc & E1 & A1).
      destruct (kvtree_set_kv_int (Some keep) (Some kD) (dest_of e)) as [t1 ptr]. rewrite E1.
      destruct (IH keep1 send out (proj1 A1) Hs Ho Hl) as (k' & s' & o' & E & Ak & As & Ao).
      exists k', s', o'. split; [done|]. split_and!.
      * eapply adds_ext; [|exact (adds_trans _ _ _ _ _ A1 Ak)]. intros p.
        by rewrite selected_cons, Er, Em.
      * eapply adds_ext; [|exact As]. intros p. by rewrite selected_cons, Er, Em.
      * eapply adds_ext; [|exact Ao]. intros p. cbn [arrived existsb]. by rewrite Er.
Qed.

(** ** The items of a hash *)
Definition items_of (t : kvtree) : list kvtree_elem :=
  kvtree_elem_first (kvtree_get (Some t) (Some kD)).

(** The keys under D are the ranks of processes, as [%d] prints them. *)
Definition canonical (N : Z) (t : kvtree) : Prop :=
  forall k x, has_path t (kD :: k :: x) = true -> exists d, 0 <= d < N /\ c_str k = fmt_signed d.

Lemma items_elem t e :
  wf t -> e ∈ items_of t ->
  exists k, key e = Some k /\ c_str k = k /\ wf_elem e /\
    forall x, has_path t (kD :: k :: x) = has_path_opt (hash e) x.
Proof.
  unfold items_of. intros Hwf He.
  destruct (kvtree_get (Some t) (Some kD)) as [c|] eqn:Hg; [|by apply elem_of_nil in He].
  cbn [kvtree_elem_first] in He. pose proof (wf_get _ _ _ Hwf Hg) as Hc.
  pose proof (wf_elem_in _ _ Hc He) as Hwe. pose proof Hwe as [Hk _]%wf_elem_iff.
  destruct (key e) as [k|] eqn:Ek; [|done].
  destruct (has_path_key c e k Hc He Ek) as [Hch Hck].
  exists k. split_and!; [done..|]. intros x.
  by rewrite has_path_cons, Hg, has_path_child, Hch by done.
Qed.

Lemma items_wf t : wf t -> Forall wf_elem (items_of t).
Proof.
  intros Hwf. apply list.Forall_forall. intros e He. by destruct (items_elem t e Hwf He) as (k & _ & _ & ? & _).
Qed.

Lemma items_find t k x :
  wf t -> has_path t (kD :: k :: x) = true ->
  exists e, e ∈ items_of t /\ key e = Some (c_str k) /\ has_path_opt (hash e) x = true.
Proof.
  intros Hwf. rewrite has_path_cons by done. unfold items_of.
  destruct (kvtree_get (Some t) (Some kD)) as [c|] eqn:Hg; [|done].
  pose proof (wf_get _ _ _ Hwf Hg) as Hc. rewrite has_path_child by done.
  destruct (child c k) as [h|] eqn:Hch; [|done]. intros Hx.
  apply child_elem in Hch; [|done]. by eexists.
Qed.

Lemma item_dest N t e :
  N <= 2 ^ 30 -> wf t -> canonical N t -> e ∈ items_of t ->
  0 <= dest_of e < N /\ key e = Some (fmt_signed (dest_of e)).
Proof.
  intros HN Hwf Hcan He. destruct (items_elem t e Hwf He) as (k & Hk & Hck & _ & Hp).
  destruct (Hcan k []) as (d & Hd & Ed); [rewrite Hp; apply has_path_opt_nil|].
  unfold dest_of. rewrite Hk. rewrite Hck in Ed. subst k. by rewrite atoi_fmt_signed by int_lia.
Qed.

Lemma selected_at N t P d x :
  N <= 2 ^ 30 -> wf t -> canonical N t -> 0 <= d < N ->
  selected P (items_of t) (kD :: fmt_signed d :: x) = P d && has_path t (kD :: fmt_signed d :: x).
Proof.
  intros HN Hwf Hcan Hd. apply Bool.eq_true_iff_eq. rewrite andb_true_iff. unfold selected.
  rewrite existsb_exists. split.
  - intros (e & He%list_elem_of_In & [HP Hg]%andb_true_iff).
    destruct (item_dest N t e HN Hwf Hcan He) as [Hr Hk].
    destruct (items_elem t e Hwf He) as (k & Hk2 & _ & _ & Hp). rewrite Hk in Hk2.
    injection Hk2 as <-. cbn [graft] in Hg. rewrite !andb_true_iff, !bool_decide_eq_true in Hg.
    destruct Hg as (_ & Hg & Hx). rewrite !c_str_fmt in Hg. apply fmt_inj in Hg; [|int_lia..].
    subst d. by rewrite Hp.
  - intros [HP Hp]. destruct (items_find t _ x Hwf Hp) as (e & He & Hk & Hx).
    exists e. split; [by apply list_elem_of_In|].
    destruct (item_dest N t e HN Hwf Hcan He) as [Hr Hk2]. rewrite Hk, c_str_fmt in Hk2.
    injection Hk2 as Hk2. apply fmt_inj in Hk2; [|int_lia..]. rewrite <- Hk2, HP.
    cbn [graft]. rewrite !bool_decide_true by done. by rewrite Hx.
Qed.

Lemma selected_sub N t P p :
  N <= 2 ^ 30 -> wf t -> canonical N t -> selected P (items_of t) p = true -> has_path t p = true.
Proof.
  intros HN Hwf Hcan. unfold selected. rewrite existsb_exists.
  intros (e & He%list_elem_of_In & [_ Hg]%andb_true_iff).
  destruct (item_dest N t e HN Hwf Hcan He) as [Hr Hk].
  destruct (items_elem t e Hwf He) as (k & Hk2 & _ & _ & Hp). rewrite Hk in Hk2. injection Hk2 as <-.
  destruct p as [|k1 [|k2 x]]; [done| |]; cbn [graft] in Hg;
    rewrite ?andb_true_r, ?andb_true_iff, !bool_decide_eq_true in Hg.
  - specialize (Hp []). rewrite has_path_opt_nil, has_path_child in Hp by done.
    rewrite has_path_child by done. rewrite <- (child_proper t kD k1) by exact Hg.
    destruct (child t kD); [apply has_path_opt_nil|done].
  - destruct Hg as (E1 & E2 & Hx). rewrite <- Hx, <- Hp.
    rewrite !has_path_child by done. rewrite <- (child_proper t kD k1 E1).
    destruct (child t kD) as [[c|]|] eqn:Hc; [|done|done]. cbn [has_path_opt].
    pose proof (wf_child _ _ _ Hwf Hc) as Hwc. simpl in Hwc.
    rewrite !has_path_child by done. by rewrite <- (child_proper c _ k2 E2).
Qed.

Lemma arrived_at N t r p :
  N <= 2 ^ 30 -> wf t -> canonical N t -> 0 <= r < N ->
  arrived r (items_of t) p = has_path t (kD :: fmt_signed r :: kS :: p).
Proof.
  intros HN Hwf Hcan Hr. apply Bool.eq_true_iff_eq. unfold arrived. rewrite existsb_exists. split.
  - intros (e & He%list_elem_of_In & [HP%Z.eqb_eq Hx]%andb_true_iff). subst r.
    destruct (item_dest N t e HN Hwf Hcan He) as [_ Hk].
    destruct (items_elem t e Hwf He) as (k & Hk2 & _ & _ & Hp). rewrite Hk in Hk2.
    injection Hk2 as <-. by rewrite Hp.
  - intros Hp. destruct (items_find t _ _ Hwf Hp) as (e & He & Hk & Hx).
    exists e. split; [by apply list_elem_of_In|]. rewrite Hx, andb_true_r. apply Z.eqb_eq.
    destruct (item_dest N t e HN Hwf Hcan He) as [Hr2 Hk2]. rewrite Hk, c_str_fmt in Hk2.
    injection Hk2 as Hk2. symmetry. apply fmt_inj in Hk2; [done|int_lia..].
Qed.

(** What one process does in a step: three hashes with the items it keeps, sends
    and is the destination of. *)
Definition split_of (dir : kvtree_exchange_enum) (rank ranks bit : Z) (cur out : kvtree)
    : kvtree * kvtree * kvtree :=
  match split_loop dir rank ranks bit (items_of cur) (Some kvtree_new) (Some kvtree_new) (Some out) with
  | Ok (Some keep, Some send, Some out) => (keep, send, out)
  | _ => (kvtree_new, kvtree_new, out)
  end.

Record split_post (dir : kvtree_exchange_enum) (rank N bit : Z) (cur out keep send out' : kvtree)
    : Prop := {
  split_eq : split_loop dir rank N bit (items_of cur) (Some kvtree_new) (Some kvtree_new) (Some out)
               = Ok (Some keep, Some send, Some out');
  split_wf : wf keep /\ wf send /\ wf out';
  split_sub : sub_paths keep cur /\ sub_paths send cur;
  split_keep d x : 0 <= d < N ->
    has_path keep (kD :: fmt_signed d :: x) =
      negb (d =? rank) && negb (moves dir rank N bit d) && has_path cur (kD :: fmt_signed d :: x);
  split_send d x : 0 <= d < N ->
    has_path send (kD :: fmt_signed d :: x) =
      negb (d =? rank) && moves dir rank N bit d && has_path cur (kD :: fmt_signed d :: x);
  split_out p : has_path out' p = has_path out p || has_path cur (kD :: fmt_signed rank :: kS :: p)
}.

Lemma split_of_post dir rank N bit cur out :
  N <= 2 ^ 30 -> 0 <= rank < N -> wf cur -> wf out -> canonical N cur ->
  let '(keep, send, out') := split_of dir rank N bit cur out in
  split_post dir rank N bit cur out keep send out'.
Proof.
  intros HN Hr Hwf Hwo Hcan. unfold split_of.
  destruct (split_loop_spec dir rank N bit (items_of cur) kvtree_new kvtree_new out wf_new wf_new Hwo
              (items_wf _ Hwf)) as (keep & send & out' & E & [Wk Pk] & [Ws Ps] & [Wo Po]).
  rewrite E. split; [done|done| | | |].
  - split; intros p; [rewrite Pk|rewrite Ps]; rewrite has_path_new, has_path_opt_None;
      (destruct p; [done|]); cbn [leaf orb]; by apply (selected_sub N).
  - intros d x Hd. by rewrite Pk, has_path_new, (selected_at N).
  - intros d x Hd. by rewrite Ps, has_path_new, (selected_at N).
  - intros p. by rewrite Po, (arrived_at N).
Qed.
