(* ===== verification/Bruck.v ===== *)
(** Bruck's algorithm, the invariant of [kvtree_exchange_direction_hops] over all
    processes: after the steps of 1, 2, ..., [2^(i-1)] ranks each item is where the
    first [i] bits of its distance take it ([located]), so after the last step it
    is with its destination ([direction_rounds]). *)

From stdpp Require Import relations.
From S2P Require Import Prelude CLib ByteOrder Kvtree KvtreeSpec KvtreeMap KvtreeMerge Pack.
From S2P Require Import Format Paths Net Mpi Exchange.

(** ** Distances *)
Definition sgn (dir : kvtree_exchange_enum) : Z :=
  match dir with KVTREE_EXCHANGE_RIGHT => 1 | KVTREE_EXCHANGE_LEFT => -1 end.

Definition dist (dir : kvtree_exchange_enum) (N r d : Z) : Z := (sgn dir * (d - r)) mod N.

Lemma mod_once a N : 0 < N -> - N <= a < N -> a mod N = if a <? 0 then a + N else a.
Proof.
  intros HN Ha. destruct (Z.ltb_spec a 0).
  - symmetry. apply Z.mod_unique with (q := -1); lia.
  - symmetry. apply Z.mod_unique with (q := 0); lia.
Qed.

Lemma distance_dist dir N r d :
  N <= 2 ^ 30 -> 0 <= r < N -> 0 <= d < N -> distance dir r N d = dist dir N r d.
Proof.
  intros HN Hr Hd. unfold distance, dist.
  destruct dir; cbn [sgn]; rewrite mod_once by lia; rewrite i32_id by int_lia;
    [replace (1 * (d - r)) with (d - r) by lia|replace (-1 * (d - r)) with (r - d) by lia];
    (destruct (Z.ltb_spec (d - r) 0), (Z.ltb_spec (r - d) 0)); rewrite ?i32_id by int_lia; lia.
Qed.

Lemma partners_mod dir N r step :
  N <= 2 ^ 30 -> 0 <= r < N -> 0 < step < N ->
  partners_of dir r N step = ((r + sgn dir * step) mod N, (r - sgn dir * step) mod N).
Proof.
  intros HN Hr Hs. unfold partners_of, left_of, right_of. rewrite i32_id by int_lia.
  assert (forall a, N <= a < 2 * N -> a mod N = a - N) as Hbig.
  { intros a Ha. symmetry. apply Z.mod_unique with (q := 1); lia. }
  destruct dir; cbn [sgn];
    [replace (r + 1 * step) with (r + step) by lia; replace (r - 1 * step) with (r - step) by lia
    |replace (r + -1 * step) with (r - step) by lia; replace (r - -1 * step) with (r + step) by lia];
    rewrite (mod_once (r - step)) by lia;
    (destruct (Z.leb_spec N (r + step)); [rewrite Hbig by lia|rewrite Z.mod_small by lia]); done.
Qed.

Lemma land_bit x i : 0 <= i -> negb (Z.land x (2 ^ i) =? 0) = Z.testbit x i.
Proof.
  intros Hi. destruct (Z.testbit x i) eqn:Hb.
  - apply negb_true_iff, Z.eqb_neq. intros E. apply (f_equal (fun z => Z.testbit z i)) in E.
    by rewrite Z.land_spec, Hb, Z.pow2_bits_true, Z.bits_0 in E by done.
  - apply negb_false_iff, Z.eqb_eq. apply Z.bits_inj'. intros j Hj.
    rewrite Z.land_spec, Z.bits_0. destruct (decide (i = j)) as [<-|]; [by rewrite Hb|].
    rewrite Z.pow2_bits_false by congruence. by rewrite andb_false_r.
Qed.

(** [x] without its low [i] bits. *)
Definition clear (i x : Z) : Z := x - x mod 2 ^ i.

Lemma clear_succ i x :
  0 <= i -> 0 <= x ->
  clear (i + 1) x = (if Z.testbit x i then clear i x - 2 ^ i else clear i x) /\
  Z.testbit (clear i x) i = Z.testbit x i.
Proof.
  intros Hi Hx. pose proof (Z.pow_pos_nonneg 2 i) as Hp.
  assert (x mod 2 ^ (i + 1) = x mod 2 ^ i + 2 ^ i * ((x / 2 ^ i) mod 2)) as Hm.
  { rewrite Z.pow_add_r by lia. rewrite Z.rem_mul_r by lia. done. }
  assert (clear i x = 2 ^ i * (x / 2 ^ i)) as Hc.
  { unfold clear. pose proof (Z.div_mod x (2 ^ i)). lia. }
  split.
  - unfold clear in *. rewrite Hm, Z.testbit_eqb by done.
    pose proof (Z.mod_pos_bound (x / 2 ^ i) 2). destruct (Z.eqb_spec ((x / 2 ^ i) mod 2) 1); lia.
  - rewrite Hc, !Z.testbit_eqb by done. f_equal. f_equal. rewrite Z.mul_comm. apply Z.div_mul. lia.
Qed.

Lemma clear_range i x : 0 <= i -> 0 <= x -> 0 <= clear i x <= x.
Proof.
  intros Hi Hx. unfold clear. pose proof (Z.pow_pos_nonneg 2 i).
  pose proof (Z.mod_pos_bound x (2 ^ i)). pose proof (Z.mod_le x (2 ^ i)). lia.
Qed.

Lemma clear_0 x : clear 0 x = x.
Proof. unfold clear. rewrite Z.pow_0_r, Z.mod_1_r. lia. Qed.

Lemma clear_all i x : 0 <= x < 2 ^ i -> clear i x = 0.
Proof. intros Hx. unfold clear. rewrite Z.mod_small by done. lia. Qed.

Lemma testbit_ge x i : 0 <= i -> 0 <= x -> Z.testbit x i = true -> 2 ^ i <= x.
Proof.
  intros Hi Hx Hb. destruct (decide (2 ^ i <= x)); [done|]. exfalso.
  rewrite Z.testbit_eqb, Z.div_small in Hb by lia. done.
Qed.

Lemma dist_range dir N r d : 0 < N -> 0 <= dist dir N r d < N.
Proof. intros HN. apply Z.mod_pos_bound. lia. Qed.

Lemma dist_self dir N r : dist dir N r r = 0.
Proof. unfold dist. rewrite Z.sub_diag, Z.mul_0_r. apply Zmod_0_l. Qed.

Lemma dist_inj dir N r s d :
  0 < N -> 0 <= r < N -> 0 <= s < N -> dist dir N r d = dist dir N s d -> r = s.
Proof.
  unfold dist. intros HN Hr Hs E.
  pose proof (Z.div_mod (sgn dir * (d - r)) N ltac:(lia)) as E1.
  pose proof (Z.div_mod (sgn dir * (d - s)) N ltac:(lia)) as E2. rewrite E in E1.
  set (q1 := sgn dir * (d - r) / N) in *. set (q2 := sgn dir * (d - s) / N) in *.
  assert (N * (q1 - q2) = sgn dir * (s - r)) as E3 by lia.
  assert (q1 - q2 = 0) as Hq by (destruct dir; cbn [sgn] in E3; nia).
  rewrite Hq in E3. destruct dir; cbn [sgn] in E3; lia.
Qed.

Lemma dist_from dir N r d step :
  0 < N -> dist dir N ((r - sgn dir * step) mod N) d = (dist dir N r d + step) mod N.
Proof.
  intros HN. unfold dist. rewrite Zplus_mod_idemp_l, (Z.mod_eq (r - sgn dir * step)) by lia.
  set (q := (r - sgn dir * step) / N).
  replace (sgn dir * (d - (r - sgn dir * step - N * q)))
    with (sgn dir * (d - r) + step + (sgn dir * q) * N) by (destruct dir; cbn [sgn]; ring).
  apply Z_mod_plus_full.
Qed.

Lemma partner_back N r a : 0 <= r < N -> ((r + a) mod N - a) mod N = r /\ ((r - a) mod N + a) mod N = r.
Proof.
  intros Hr. split.
  - rewrite Zminus_mod_idemp_l. replace (r + a - a) with r by lia. by apply Z.mod_small.
  - rewrite Zplus_mod_idemp_l. replace (r - a + a) with r by lia. by apply Z.mod_small.
Qed.

(** ** All processes: where the items are *)
Section rounds.
Context (n : nat) (dir : kvtree_exchange_enum) (U : kvtree) (cur0 out0 : nat -> kvtree).
Notation N := (Z.of_nat n).
Hypothesis Hn : (0 < n)%nat.
Hypothesis HN : N <= 2 ^ 30.

(** The item of source [s] for destination [d] has the paths [x]. *)
Definition orig (s : nat) (d : Z) (x : path) : Prop :=
  has_path (cur0 s) (kD :: fmt_signed d :: x) = true.

(** After [i] steps an item of source [s] for [d] is where the first [i] bits
    of its distance take it, or in the output of [d]. *)
Record located (i : Z) (cur out : nat -> kvtree) : Prop := {
  loc_wf r : (r < n)%nat ->
    wf (cur r) /\ wf (out r) /\ canonical N (cur r) /\ sub_paths (cur r) U;
  loc_far r d x : (r < n)%nat -> 0 <= d < N -> d <> Z.of_nat r ->
    has_path (cur r) (kD :: fmt_signed d :: x) = true <->
    exists s, (s < n)%nat /\ orig s d x /\
      dist dir N (Z.of_nat r) d = clear i (dist dir N (Z.of_nat s) d);
  loc_near r p : (r < n)%nat ->
    has_path (out r) p = true \/
    has_path (cur r) (kD :: fmt_signed (Z.of_nat r) :: kS :: p) = true <->
    has_path (out0 r) p = true \/
    exists s, (s < n)%nat /\ orig s (Z.of_nat r) (kS :: p) /\
      clear i (dist dir N (Z.of_nat s) (Z.of_nat r)) = 0
}.

Lemma located_start :
  (forall r, (r < n)%nat ->
     wf (cur0 r) /\ wf (out0 r) /\ canonical N (cur0 r) /\ sub_paths (cur0 r) U) ->
  located 0 cur0 out0.
Proof.
  intros H0. split; [done| |].
  - intros r d x Hr Hd Hne. split.
    + intros Hp. exists r. by rewrite clear_0.
    + intros (s & Hs & Ho & E). rewrite clear_0 in E. apply dist_inj in E; [|lia..].
      apply Nat2Z.inj in E as ->. done.
  - intros r p Hr. apply or_iff_compat_l. split.
    + intros Hp. exists r. by rewrite clear_0, dist_self.
    + intros (s & Hs & Ho & E). rewrite clear_0 in E.
      rewrite <- (dist_self dir N (Z.of_nat r)) in E. apply dist_inj in E; [|lia..].
      apply Nat2Z.inj in E as ->. done.
Qed.

(** One step. *)
Section step.
Context (i : Z) (cur out keep send out' cur' : nat -> kvtree).
Hypothesis Hi : 0 <= i.
Hypothesis Hstep : 2 ^ i < N.
Hypothesis Hloc : located i cur out.
Hypothesis Hsplit : forall r, (r < n)%nat ->
  split_post dir (Z.of_nat r) N (2 ^ i) (cur r) (out r) (keep r) (send r) (out' r).

(** The process [r] receives from. *)
Definition src (r : nat) : nat := Z.to_nat ((Z.of_nat r - sgn dir * 2 ^ i) mod N).

Hypothesis Hcur : forall r, (r < n)%nat ->
  wf (cur' r) /\ forall p, has_path (cur' r) p = has_path (keep r) p || has_path (send (src r)) p.

Lemma src_lt r : (src r < n)%nat.
Proof. unfold src. pose proof (Z.mod_pos_bound (Z.of_nat r - sgn dir * 2 ^ i) N). lia. Qed.

Lemma src_dist r d :
  dist dir N (Z.of_nat (src r)) d = (dist dir N (Z.of_nat r) d + 2 ^ i) mod N.
Proof.
  unfold src. pose proof (Z.mod_pos_bound (Z.of_nat r - sgn dir * 2 ^ i) N).
  rewrite Z2Nat.id by lia. apply dist_from. lia.
Qed.

Lemma moves_bit r d :
  (r < n)%nat -> 0 <= d < N ->
  moves dir (Z.of_nat r) N (2 ^ i) d = Z.testbit (dist dir N (Z.of_nat r) d) i.
Proof. intros Hr Hd. unfold moves. rewrite distance_dist by lia. by apply land_bit. Qed.

(** The paths under D after the step. *)
Lemma step_paths r d x :
  (r < n)%nat -> 0 <= d < N ->
  has_path (cur' r) (kD :: fmt_signed d :: x) = true <->
  (d <> Z.of_nat r /\ Z.testbit (dist dir N (Z.of_nat r) d) i = false /\
     has_path (cur r) (kD :: fmt_signed d :: x) = true) \/
  (d <> Z.of_nat (src r) /\ Z.testbit (dist dir N (Z.of_nat (src r)) d) i = true /\
     has_path (cur (src r)) (kD :: fmt_signed d :: x) = true).
Proof.
  intros Hr Hd. pose proof (src_lt r) as Hs. rewrite (proj2 (Hcur r Hr)).
  rewrite (split_keep _ _ _ _ _ _ _ _ _ (Hsplit r Hr)) by done.
  rewrite (split_send _ _ _ _ _ _ _ _ _ (Hsplit (src r) Hs)) by done.
  rewrite !moves_bit by done. rewrite orb_true_iff, !andb_true_iff, !negb_true_iff, !Z.eqb_neq. tauto.
Qed.

(** An item that is at [src r] and moves is at [r] afterwards. *)
Lemma step_moves r d s :
  (r < n)%nat -> 0 <= d < N ->
  (Z.testbit (dist dir N (Z.of_nat (src r)) d) i = true /\
   dist dir N (Z.of_nat (src r)) d = clear i (dist dir N (Z.of_nat s) d)) <->
  (Z.testbit (dist dir N (Z.of_nat s) d) i = true /\
   dist dir N (Z.of_nat r) d = clear (i + 1) (dist dir N (Z.of_nat s) d)).
Proof.
  intros Hr Hd. set (D := dist dir N (Z.of_nat s) d). rewrite src_dist.
  pose proof (dist_range dir N (Z.of_nat r) d ltac:(lia)) as HR.
  pose proof (dist_range dir N (Z.of_nat s) d ltac:(lia)) as HD. fold D in HD.
  set (R := dist dir N (Z.of_nat r) d) in *.
  destruct (clear_succ i D) as [Hc Hb]; [lia..|]. pose proof (clear_range i D) as Hcr.
  pose proof (Z.pow_pos_nonneg 2 i).
  assert ((R + 2 ^ i) mod N = if R + 2 ^ i <? N then R + 2 ^ i else R + 2 ^ i - N) as Hm.
  { destruct (Z.ltb_spec (R + 2 ^ i) N); [apply Z.mod_small; lia|].
    symmetry. apply Z.mod_unique with (q := 1); lia. }
  rewrite Hm. split.
  - intros [Ht E]. rewrite E in Ht. rewrite Hb in Ht. rewrite Hc, Ht. split; [done|].
    assert (2 ^ i <= clear i D) by (apply testbit_ge; [lia..|by rewrite Hb]).
    destruct (Z.ltb_spec (R + 2 ^ i) N); lia.
  - intros [Ht E]. rewrite Hc, Ht in E.
    assert (2 ^ i <= clear i D) by (apply testbit_ge; [lia..|by rewrite Hb]).
    rewrite (proj2 (Z.ltb_lt _ _)) by lia. rewrite E.
    replace (clear i D - 2 ^ i + 2 ^ i) with (clear i D) by lia. by rewrite Hb, Ht.
Qed.

Lemma located_step : located (i + 1) cur' out'.
Proof.
  pose proof (Z.pow_pos_nonneg 2 i) as Hp2.
  assert (forall r, (r < n)%nat -> sub_paths (cur' r) U /\ canonical N (cur' r)) as Hsub.
  { intros r Hr. pose proof (src_lt r) as Hs.
    destruct (loc_wf _ _ _ Hloc r Hr) as (_ & _ & Hc1 & Hu1).
    destruct (loc_wf _ _ _ Hloc (src r) Hs) as (_ & _ & Hc2 & Hu2).
    destruct (split_sub _ _ _ _ _ _ _ _ _ (Hsplit r Hr)) as [Hk _].
    destruct (split_sub _ _ _ _ _ _ _ _ _ (Hsplit (src r) Hs)) as [_ Hd].
    split.
    - intros p. rewrite (proj2 (Hcur r Hr)), orb_true_iff. intros [?|?]; auto.
    - intros k x. rewrite (proj2 (Hcur r Hr)), orb_true_iff. intros [Hx|Hx].
      + apply (Hc1 k x). by apply Hk.
      + apply (Hc2 k x). by apply Hd. }
  split.
  - intros r Hr. destruct (Hsub r Hr). destruct (split_wf _ _ _ _ _ _ _ _ _ (Hsplit r Hr)) as (_ & _ & ?).
    split_and!; [by apply Hcur|done..].
  - intros r d x Hr Hd Hne. pose proof (src_lt r) as Hs. rewrite step_paths by done. split.
    + intros [(_ & Hb & Hx)|(Hns & Hb & Hx)].
      * apply (loc_far _ _ _ Hloc) in Hx as (s & Hsn & Ho & E); [|done..].
        exists s. split_and!; [done..|]. destruct (clear_succ i (dist dir N (Z.of_nat s) d)) as [Hc Hb2];
          [lia|apply dist_range; lia|]. rewrite Hc, <- Hb2, <- E, Hb. done.
      * apply (loc_far _ _ _ Hloc) in Hx as (s & Hsn & Ho & E); [|done..].
        exists s. split_and!; [done..|]. by apply step_moves.
    + intros (s & Hsn & Ho & E).
      destruct (clear_succ i (dist dir N (Z.of_nat s) d)) as [Hc Hb2]; [lia|apply dist_range; lia|].
      destruct (Z.testbit (dist dir N (Z.of_nat s) d) i) eqn:Hb.
      * right. destruct (proj2 (step_moves r d s Hr Hd)) as [Ht E2]; [done|].
        assert (d <> Z.of_nat (src r)) as Hns.
        { intros ->. by rewrite dist_self, Z.bits_0 in Ht. }
        split_and!; [done..|]. apply (loc_far _ _ _ Hloc); [done..|]. by exists s.
      * left. rewrite Hc in E. split_and!; [done|by rewrite E|].
        apply (loc_far _ _ _ Hloc); [done..|]. by exists s.
  - intros r p Hr. pose proof (src_lt r) as Hs. rewrite step_paths by lia.
    rewrite (split_out _ _ _ _ _ _ _ _ _ (Hsplit r Hr)), orb_true_iff, (loc_near _ _ _ Hloc) by done.
    assert (dist dir N (Z.of_nat (src r)) (Z.of_nat r) = 2 ^ i) as Hd.
    { rewrite src_dist, dist_self. apply Z.mod_small. lia. }
    assert (Z.of_nat r <> Z.of_nat (src r)) as Hns.
    { intros E. rewrite <- E, dist_self in Hd. lia. }
    rewrite (loc_far _ _ _ Hloc (src r) (Z.of_nat r)) by (done || lia). rewrite Hd, Z.pow2_bits_true by done. split.
    + intros [[Ho|(s & Hsn & Ho & E)]|[(? & _)|(_ & _ & s & Hsn & Ho & E)]]; [by left| |done|];
        right; exists s; (split_and!; [done..|]);
        destruct (clear_succ i (dist dir N (Z.of_nat s) (Z.of_nat r))) as [Hc Hb2];
        try lia; try (apply dist_range; lia); rewrite Hc, <- Hb2, <- ?E, ?Z.pow2_bits_true by done.
      * by rewrite E, Z.bits_0.
      * lia.
    + intros [Ho|(s & Hsn & Ho & E)]; [by left; left|].
      destruct (clear_succ i (dist dir N (Z.of_nat s) (Z.of_nat r))) as [Hc Hb2];
        [lia|apply dist_range; lia|]. rewrite Hc in E.
      destruct (Z.testbit _ i).
      * right. right. split_and!; [done..|]. exists s. split_and!; [done..|lia].
      * left. right. by exists s.
Qed.

End step.
End rounds.

(** ** All processes: the steps *)
Section direction.
Context `{Host} `{MpiConst} `{MpiBuffers}.
Hypothesis Hmalloc : INT_MAX <= malloc_max.
Context (n : nat) (dir : kvtree_exchange_enum) (U : kvtree).
Notation N := (Z.of_nat n).
Hypothesis Hn : (0 < n)%nat.
Hypothesis HN : N <= 2 ^ 30.
Hypothesis HU : wf U /\ packs U.

Lemma sub_packs t : wf t -> sub_paths t U -> packs t.
Proof.
  destruct HU as [Hwu Hpu]. unfold packs in *. intros Hwf Hs.
  pose proof (sub_paths_size t U Hwf Hwu Hs). cbn [kvtree_pack_size] in *. lia.
Qed.

Lemma sub_trans t1 t2 t3 : sub_paths t1 t2 -> sub_paths t2 t3 -> sub_paths t1 t3.
Proof. unfold sub_paths. auto. Qed.

(** The process [r] sends to. *)
Definition dst (i : Z) (r : nat) : nat := Z.to_nat ((Z.of_nat r + sgn dir * 2 ^ i) mod N).

Lemma step_partners i :
  partners n (fun r => Some (dst i r)) (fun r => Some (src n dir i r)).
Proof.
  unfold partners, dst, src. intros r Hr.
  destruct (partner_back N (Z.of_nat r) (sgn dir * 2 ^ i)) as [E1 E2]; [lia|].
  pose proof (Z.mod_pos_bound (Z.of_nat r + sgn dir * 2 ^ i) N).
  pose proof (Z.mod_pos_bound (Z.of_nat r - sgn dir * 2 ^ i) N).
  split; intros ? [= <-]; (split; [lia|]); rewrite Z2Nat.id by lia; rewrite ?E1, ?E2;
    by rewrite Nat2Z.id.
Qed.

(** The end of the steps: all are done, or as many as were asked for. *)
Definition enough (hops k : Z) : Prop := N <= 2 ^ k \/ 0 <= hops <= k.

Lemma hops_rounds {A} cur0 out0 hops (K : nat -> option kvtree * option kvtree -> proc A) fuel :
  forall (i : nat) cur out ch,
  located n dir U cur0 out0 (Z.of_nat i) cur out -> idle ch -> (32 <= fuel + i)%nat -> (i <= 30)%nat ->
  exists k cur' out' ch',
    located n dir U cur0 out0 k cur' out' /\ 0 <= k /\ enough hops k /\ idle ch' /\
    rtc step
      (Cfg (running n (fun r =>
         mpi* x := hops_loop fuel dir (Z.of_nat r) N hops (2 ^ Z.of_nat i) (2 ^ Z.of_nat i) (Z.of_nat i)
                     (Some (cur r)) (Some (out r)) in K r x)) ch)
      (Cfg (running n (fun r => K r (Some (cur' r), Some (out' r)))) ch').
Proof.
  induction fuel as [|fuel IH]; intros i cur out ch Hloc Hidle Hf Hi; [lia|].
  destruct ((2 ^ Z.of_nat i <? N) && ((hops <? 0) || (Z.of_nat i <? hops))) eqn:Econd.
  2:{ exists (Z.of_nat i), cur, out, ch. split_and!; [done|lia| |done|].
      - unfold enough. apply andb_false_iff in Econd as [Hc%Z.ltb_ge|Hc]; [by left|].
        apply orb_false_iff in Hc as [Hc1%Z.ltb_ge Hc2%Z.ltb_ge]. right. lia.
      - erewrite running_ext; [done|]. intros r Hr. cbn [hops_loop]. by rewrite Econd. }
  pose proof Econd as [Hlt%Z.ltb_lt _]%andb_true_iff.
  assert (i < 30)%nat as Hi30.
  { assert (2 ^ Z.of_nat i < 2 ^ 30) as Hpow by lia. apply Z.pow_lt_mono_r_iff in Hpow; lia. }
  set (parts r := split_of dir (Z.of_nat r) N (2 ^ Z.of_nat i) (cur r) (out r)).
  set (keep r := (parts r).1.1). set (send r := (parts r).1.2). set (out' r := (parts r).2).
  assert (forall r, (r < n)%nat ->
    split_post dir (Z.of_nat r) N (2 ^ Z.of_nat i) (cur r) (out r) (keep r) (send r) (out' r)) as Hsplit.
  { intros r Hr. destruct (loc_wf _ _ _ _ _ _ _ _ Hloc r Hr) as (Hw & Ho & Hc & _).
    pose proof (split_of_post dir (Z.of_nat r) N (2 ^ Z.of_nat i) (cur r) (out r) HN ltac:(lia) Hw Ho Hc) as Hp.
    unfold keep, send, out', parts. by destruct (split_of _ _ _ _ _ _) as [[k s] o]. }
  set (cur' r := merged (keep r) (unpacked (send (src n dir (Z.of_nat i) r)))).
  assert (located n dir U cur0 out0 (Z.of_nat i + 1) cur' out') as Hloc'.
  { eapply located_step; [done|done|lia|done|done|exact Hsplit|]. intros r Hr.
    assert (src n dir (Z.of_nat i) r < n)%nat as Hs by (apply src_lt; lia).
    destruct (split_wf _ _ _ _ _ _ _ _ _ (Hsplit r Hr)) as (Hk & _).
    destruct (split_wf _ _ _ _ _ _ _ _ _ (Hsplit _ Hs)) as (_ & Hw & _).
    unfold cur'. split; [by apply merged_wf|]. intros p. rewrite merged_path by done.
    by rewrite unpacked_path. }
  destruct (sendrecv_round Hmalloc n (fun r => Some (dst (Z.of_nat i) r))
    (fun r => Some (src n dir (Z.of_nat i) r)) send (fun _ => kvtree_new)
    (fun r x => mpi* y := hops_loop fuel dir (Z.of_nat r) N hops
                            (2 ^ Z.of_nat (S i)) (2 ^ Z.of_nat (S i)) (Z.of_nat (S i))
                            (kvtree_merge (Some (keep r)) x.2).1 (Some (out' r)) in K r y) ch)
    as (ch1 & Hidle1 & Hr1); [done|apply step_partners| |].
  { intros r Hr. destruct (split_wf _ _ _ _ _ _ _ _ _ (Hsplit r Hr)) as (_ & Hw & _).
    apply sub_packs; [done|]. destruct (split_sub _ _ _ _ _ _ _ _ _ (Hsplit r Hr)) as [_ Hss].
    eapply sub_trans; [exact Hss|]. by apply (loc_wf _ _ _ _ _ _ _ _ Hloc). }
  destruct (IH (S i) cur' out' ch1) as (k & cur2 & out2 & ch2 & Hl2 & Hk & He & Hi2 & Hr2);
    [by rewrite Nat2Z.inj_succ, <- Z.add_1_r|done|lia|lia|].
  exists k, cur2, out2, ch2. split_and!; [done..|].
  erewrite running_ext; [etrans; [exact Hr1|]|].
  - erewrite running_ext; [exact Hr2|]. intros r Hr. cbn [snd].
    unfold cur'.
    destruct (split_wf _ _ _ _ _ _ _ _ _ (Hsplit r Hr)) as (Hkw & _).
    by destruct (merge_merged (keep r) (Some (unpacked (send (src n dir (Z.of_nat i) r)))) Hkw) as (rc & ->).
  - intros r Hr. cbn [hops_loop]. rewrite Econd, partners_mod by lia.
    fold kD. fold (items_of (cur r)). rewrite (split_eq _ _ _ _ _ _ _ _ _ (Hsplit r Hr)).
    cbn [proc_bind]. rewrite proc_bind_assoc. cbn [rank_arg default fmap option_fmap option_map].
    unfold dst, src. pose proof (Z.mod_pos_bound (Z.of_nat r + sgn dir * 2 ^ Z.of_nat i) N).
    pose proof (Z.mod_pos_bound (Z.of_nat r - sgn dir * 2 ^ Z.of_nat i) N).
    rewrite !Z2Nat.id by lia. f_equal. apply FunctionalExtensionality.functional_extensionality.
    intros [rc recv]. cbn [snd].
    destruct (kvtree_merge (Some (keep r)) recv) as [m rcm]. cbn [fst].
    assert (2 ^ Z.of_nat i * 2 = 2 ^ Z.of_nat (S i)) as E2 by (rewrite Nat2Z.inj_succ, Z.pow_succ_r; lia).
    rewrite Z.shiftl_mul_pow2 by lia. rewrite Z.pow_1_r, E2.
    assert (2 ^ Z.of_nat (S i) <= 2 ^ 30) by (apply Z.pow_le_mono_r; lia).
    rewrite i32_id by (pose proof (Z.pow_pos_nonneg 2 (Z.of_nat (S i))); int_lia).
    by rewrite Nat2Z.inj_succ, <- Z.add_1_r.
Qed.

(** *** The whole exchange in one direction *)

(** The destinations of an input are ranks, as [%d] prints them. *)
Definition addressed_to (t : kvtree) : Prop :=
  forall k q, has_path t (k :: q) = true -> exists d, 0 <= d < N /\ c_str k = fmt_signed d.

Lemma input_elem t e :
  wf t -> addressed_to t -> e ∈ lh_first t ->
  0 <= dest_of e < N /\ forall x, has_path t (fmt_signed (dest_of e) :: x) = has_path_opt (hash e) x.
Proof.
  intros Hwf Ha He. pose proof (wf_elem_in _ _ Hwf He) as [Hk _]%wf_elem_iff.
  destruct (key e) as [k|] eqn:Ek; [|done].
  destruct (has_path_key t e k Hwf He Ek) as [Hc Hck].
  destruct (Ha k []) as (d & Hd & Ed); [by rewrite has_path_child, Hc, has_path_opt_nil|].
  unfold dest_of. rewrite Ek. rewrite Hck in Ed. subst k. rewrite atoi_fmt_signed by int_lia.
  split; [done|]. intros x. by rewrite has_path_child, Hc.
Qed.

Lemma input_find t d x :
  wf t -> addressed_to t -> 0 <= d < N -> has_path t (fmt_signed d :: x) = true ->
  exists e, e ∈ lh_first t /\ dest_of e = d /\ has_path_opt (hash e) x = true.
Proof.
  intros Hwf Ha Hd Hp. rewrite has_path_child in Hp by done.
  destruct (child t (fmt_signed d)) as [h|] eqn:Hc; [|done].
  apply child_elem in Hc; [|done]. exists (Elem (Some (c_str (fmt_signed d))) h).
  split_and!; [done| |done]. unfold dest_of. simpl. rewrite c_str_fmt. apply atoi_fmt_signed. int_lia.
Qed.

Definition start_of (r : nat) (t : kvtree) : kvtree :=
  match item_loop (Z.of_nat r) (lh_first t) (Some kvtree_new) with
  | Ok (Some c) => c
  | _ => kvtree_new
  end.

Definition item_path (r : nat) (p : path) (e : kvtree_elem) : bool :=
  graft [kD; fmt_signed (dest_of e); kS; fmt_signed (Z.of_nat r)] (has_path_opt (hash e)) p.

Lemma start_spec r t :
  wf t ->
  item_loop (Z.of_nat r) (lh_first t) (Some kvtree_new) = Ok (Some (start_of r t)) /\
  wf (start_of r t) /\
  forall p, has_path (start_of r t) p = leaf p || existsb (item_path r p) (lh_first t).
Proof.
  intros Hwf. unfold start_of.
  destruct (item_loop_spec (Z.of_nat r) (lh_first t) kvtree_new wf_new (wf_has_keys t Hwf))
    as (t' & -> & Hw & Hp).
  split_and!; [done..|]. intros p. by rewrite Hp, has_path_new.
Qed.

Lemma start_paths r t d x :
  (r < n)%nat -> wf t -> addressed_to t -> 0 <= d < N ->
  has_path (start_of r t) (kD :: fmt_signed d :: x) = true <->
  match x with
  | [] => has_path t [fmt_signed d] = true
  | [s] => c_str s = kS /\ has_path t [fmt_signed d] = true
  | s :: k :: q =>
      c_str s = kS /\ c_str k = fmt_signed (Z.of_nat r) /\ has_path t (fmt_signed d :: q) = true
  end.
Proof.
  intros Hr Hwf Ha Hd. destruct (start_spec r t Hwf) as (_ & _ & ->). cbn [leaf orb].
  rewrite existsb_exists.
  assert (forall e, item_path r (kD :: fmt_signed d :: x) e =
            bool_decide (fmt_signed (dest_of e) = fmt_signed d)
            && graft [kS; fmt_signed (Z.of_nat r)] (has_path_opt (hash e)) x) as Eg.
  { intros e. unfold item_path. cbn [graft]. rewrite !c_str_fmt. done. }
  setoid_rewrite Eg. clear Eg. split.
  - intros (e & He%list_elem_of_In & [Ed%bool_decide_eq_true Hg]%andb_true_iff).
    destruct (input_elem t e Hwf Ha He) as [Hde Hpe]. rewrite Ed in Hpe.
    destruct x as [|s [|k q]]; cbn [graft] in Hg; rewrite ?andb_true_r, ?andb_true_iff, ?bool_decide_eq_true in Hg.
    + rewrite Hpe. apply has_path_opt_nil.
    + rewrite Hpe. split; [by symmetry|apply has_path_opt_nil].
    + rewrite Hpe, c_str_fmt in *. destruct Hg as (Es & Ek & Hq). by split_and!.
  - intros Hx.
    assert (exists e, e ∈ lh_first t /\ dest_of e = d /\
              graft [kS; fmt_signed (Z.of_nat r)] (has_path_opt (hash e)) x = true) as (e & He & Ed & Hg).
    { destruct x as [|s [|k q]]; [| |destruct Hx as (Es & Ek & Hx)];
        [|destruct Hx as [Es Hx]|];
        destruct (input_find t d _ Hwf Ha Hd Hx) as (e & He & Ed & Hq); exists e; (split_and!; [done..|]);
        cbn [graft]; rewrite ?c_str_fmt, ?andb_true_r, ?andb_true_iff, ?bool_decide_eq_true; [done| |].
      - by symmetry.
      - by rewrite Es, Ek. }
    exists e. split; [by apply list_elem_of_In|]. by rewrite Ed, bool_decide_true, Hg.
Qed.

Lemma has_path_proper t k k' p : wf t -> c_str k = c_str k' -> has_path t (k :: p) = has_path t (k' :: p).
Proof. intros Hwf E. rewrite !has_path_child by done. by rewrite (child_proper t k k' E). Qed.

Lemma graft_in q F : forall t p,
  wf t -> F [] = true -> (forall x, F x = true -> has_path t (q ++ x) = true) ->
  graft q F p = true -> has_path t p = true.
Proof.
  induction q as [|k q IH]; intros t p Hwf HF Hq Hg; [by apply Hq|].
  destruct p as [|k' p]; [done|]. cbn [graft] in Hg.
  apply andb_true_iff in Hg as [E%bool_decide_eq_true Hg].
  rewrite <- (has_path_proper t k k') by done. rewrite has_path_child by done.
  assert (forall x, F x = true -> match child t k with Some h => has_path_opt h (q ++ x) = true
                                                  | None => False end) as Hc.
  { intros x Hx. specialize (Hq x Hx). cbn [app] in Hq. rewrite has_path_child in Hq by done.
    by destruct (child t k). }
  destruct (child t k) as [[c|]|] eqn:Ec; [| |exfalso; exact (Hc [] HF)].
  - apply (IH c); [by apply (wf_child _ _ _ Hwf Ec)|done..].
  - pose proof (Hc [] HF) as He. rewrite app_nil_r in He. destruct q as [|k2 q]; [|done].
    cbn [graft] in Hg. by apply Hc in Hg.
Qed.

(** Everything that is exchanged, together, fits a message: [U] has all of it. *)
Definition within (ins : nat -> kvtree) : Prop :=
  forall s d q, (s < n)%nat -> 0 <= d < N -> has_path (ins s) (fmt_signed d :: q) = true ->
    has_path U (kD :: fmt_signed d :: kS :: fmt_signed (Z.of_nat s) :: q) = true.

Lemma start_located ins out :
  (forall r, (r < n)%nat -> wf (ins r) /\ addressed_to (ins r) /\ wf (out r)) -> within ins ->
  located n dir U (fun r => start_of r (ins r)) out 0 (fun r => start_of r (ins r)) out.
Proof.
  intros Hins HU'. destruct HU as [HwU _]. apply located_start; [done|]. intros r Hr.
  destruct (Hins r Hr) as (Hw & Ha & Ho). destruct (start_spec r (ins r) Hw) as (_ & Hws & Hp).
  split_and!; [done..| |].
  - intros k x. rewrite Hp. cbn [leaf orb]. rewrite existsb_exists.
    intros (e & He%list_elem_of_In & Hg). destruct (input_elem (ins r) e Hw Ha He) as [Hd _].
    exists (dest_of e). split; [done|]. unfold item_path in Hg. cbn [graft] in Hg.
    rewrite !andb_true_iff, !bool_decide_eq_true, c_str_fmt in Hg. symmetry. apply Hg.
  - intros [|k p]; [done|]. rewrite Hp. cbn [leaf orb]. rewrite existsb_exists.
    intros (e & He%list_elem_of_In & Hg). destruct (input_elem (ins r) e Hw Ha He) as [Hd Hpe].
    unfold item_path in Hg. eapply graft_in; [done| | |exact Hg]; [apply has_path_opt_nil|].
    intros x Hx. cbn [app]. apply HU'; [done..|]. by rewrite Hpe.
Qed.

(** What [r] receives. *)
Definition received_by (ins : nat -> kvtree) (r : nat) (p : path) : Prop :=
  exists s k q, (s < n)%nat /\ p = k :: q /\ c_str k = fmt_signed (Z.of_nat s) /\
    has_path (ins s) (fmt_signed (Z.of_nat r) :: q) = true.

(** No item needs more steps than [hops], when that is a bound. *)
Definition near_enough (ins : nat -> kvtree) (hops : Z) : Prop :=
  forall s d, (s < n)%nat -> 0 <= d < N -> 0 <= hops -> has_path (ins s) [fmt_signed d] = true ->
    dist dir N (Z.of_nat s) d < 2 ^ hops.

Lemma direction_rounds {A} ins out hops (K : nat -> Z * option kvtree -> proc A) ch :
  (forall r, (r < n)%nat -> wf (ins r) /\ addressed_to (ins r) /\ wf (out r)) ->
  within ins -> near_enough ins hops -> idle ch ->
  exists out' ch',
    (forall r, (r < n)%nat -> wf (out' r) /\
       forall p, has_path (out' r) p = true <-> has_path (out r) p = true \/ received_by ins r p) /\
    idle ch' /\
    rtc step
      (Cfg (running n (fun r =>
         mpi* x := kvtree_exchange_direction_hops (Z.of_nat r) N (Some (ins r)) (Some (out r)) dir hops in
         K r x)) ch)
      (Cfg (running n (fun r => K r (KVTREE_SUCCESS, Some (out' r)))) ch').
Proof.
  intros Hins HU' Hnear Hidle. set (cur0 r := start_of r (ins r)).
  set (K1 r (x : option kvtree * option kvtree) :=
    let dest_hash := kvtree_get_kv_int x.1 (Some kD) (Z.of_nat r) in
    let elem_hash := kvtree_get dest_hash (Some kS) in
    let '(hash_out, _) := kvtree_merge x.2 elem_hash in
    K r (KVTREE_SUCCESS, hash_out)).
  destruct (hops_rounds cur0 out hops K1 hop_fuel 0 cur0 out ch (start_located ins out Hins HU') Hidle)
    as (k & cur & out1 & ch' & Hloc & Hk & He & Hidle' & Hrun); [unfold hop_fuel; lia|lia|].
  set (out' r := merged (out1 r)
         (default kvtree_new (kvtree_get (kvtree_get_kv_int (Some (cur r)) (Some kD) (Z.of_nat r)) (Some kS)))).
  exists out', ch'. split_and!; [|done|].
  - intros r Hr. destruct (loc_wf _ _ _ _ _ _ _ _ Hloc r Hr) as (Hw & Ho & _).
    unfold out'. split; [by apply merged_wf|]. intros [|kp p].
    { split; [by left|done]. }
    rewrite merged_path, orb_true_iff by done.
    assert (has_path (default kvtree_new
              (kvtree_get (kvtree_get_kv_int (Some (cur r)) (Some kD) (Z.of_nat r)) (Some kS))) (kp :: p)
            = has_path (cur r) (kD :: fmt_signed (Z.of_nat r) :: kS :: kp :: p)) as ->.
    { unfold kvtree_get_kv_int, kvtree_get_kv. rewrite (has_path_cons (cur r)) by done.
      destruct (kvtree_get (Some (cur r)) (Some kD)) as [c|] eqn:E1; [|done].
      pose proof (wf_get _ _ _ Hw E1) as Hc. rewrite (has_path_cons c) by done.
      destruct (kvtree_get (Some c) _) as [c2|] eqn:E2; [|done].
      pose proof (wf_get _ _ _ Hc E2) as Hc2. rewrite (has_path_cons c2) by done.
      by destruct (kvtree_get (Some c2) _). }
    rewrite (loc_near _ _ _ _ _ _ _ _ Hloc) by done. apply or_iff_compat_l.
    unfold orig, cur0, received_by. split.
    + intros (s & Hs & Hp & _). destruct (Hins s Hs) as (Hws & Has & _).
      apply start_paths in Hp as (_ & Ek & Hq); [|done|done|done|lia]. by exists s, kp, p.
    + intros (s & k2 & q & Hs & [= <- <-] & Ek & Hq). exists s. split; [done|].
      destruct (Hins s Hs) as (Hws & Has & _). split; [apply start_paths; (done || lia)|].
      apply clear_all. pose proof (dist_range dir N (Z.of_nat s) (Z.of_nat r) ltac:(lia)).
      destruct He as [He|He]; [lia|].
      assert (has_path (ins s) [fmt_signed (Z.of_nat r)] = true) as Hq1.
      { rewrite has_path_child in Hq |- * by done. destruct (child (ins s) _); [apply has_path_opt_nil|done]. }
      pose proof (Hnear s (Z.of_nat r) Hs ltac:(lia) ltac:(lia) Hq1).
      assert (2 ^ hops <= 2 ^ k) by (apply Z.pow_le_mono_r; lia). lia.
  - erewrite running_ext; [etrans; [exact Hrun|]|].
    + erewrite running_ext; [done|]. intros r Hr. unfold K1, out'. cbn [fst snd].
      destruct (loc_wf _ _ _ _ _ _ _ _ Hloc r Hr) as (_ & Ho & _).
      by destruct (merge_merged (out1 r)
        (kvtree_get (kvtree_get_kv_int (Some (cur r)) (Some kD) (Z.of_nat r)) (Some kS)) Ho) as (rc & ->).
    + intros r Hr. destruct (Hins r Hr) as (Hw & _). unfold kvtree_exchange_direction_hops.
      destruct (start_spec r (ins r) Hw) as (E & _). cbn [kvtree_elem_first]. rewrite E.
      cbn [proc_bind]. fold (cur0 r). rewrite proc_bind_assoc. f_equal.
      apply FunctionalExtensionality.functional_extensionality. intros [c o]. unfold K1. cbn [fst snd].
      fold kD kS. by destruct (kvtree_merge o _).
Qed.

End direction.
