(* ===== verification/ExchangeSpec.v ===== *)
(** What [kvtree_exchange_sendq], [kvtree_exchange_direction] and
    [kvtree_exchange] do: every run on all processes ends, and then each process
    has what all processes sent to it. *)

From stdpp Require Import relations.
From S2P Require Import Prelude CLib ByteOrder Kvtree KvtreeSpec KvtreeMap KvtreeMerge Pack.
From S2P Require Import Format Paths Net Mpi Exchange Bruck.

(** ** The key of a rank *)
Section rank_key.
Context `{Libc}.

Lemma rank_keys d : keys_of (tokens space (strdup (str "%d"))) [AInt d] = Ok [fmt_signed d].
Proof.
  change (tokens space (strdup (str "%d"))) with [str "%d"]. cbn [keys_of].
  unfold next_key, convert.
  change (strcmp (str "%d") (str "%s") =? 0) with false.
  change (strcmp (str "%d") (str "%d") =? 0) with true. cbn match. cbn [obind].
  pose proof (fmt_signed_length d) as Hl. unfold KVTREE_MAX_LINE.
  by rewrite (proj2 (Nat.leb_gt _ _)) by lia.
Qed.

Lemma setf_rank t v d :
  wf t -> exists p, kvtree_setf (Some t) v (str "%d") [AInt d]
                    = Ok (Some (insert_child (fmt_signed d) v t), p).
Proof. intros Hwf. eexists. by rewrite (setf_ok _ _ _ _ _ Hwf (rank_keys d)). Qed.

Lemma getf_rank t d :
  kvtree_getf (Some t) (str "%d") [AInt d] = Ok (kvtree_get (Some t) (Some (fmt_signed d))).
Proof. unfold kvtree_getf. by erewrite getf_loop_spec by (done || apply rank_keys). Qed.

(** Setting a key that has no hash adds the paths of its value. *)
Lemma insert_adds t k v :
  wf t -> wf_opt v -> kvtree_get (Some t) (Some k) = None ->
  adds t (graft [k] (has_path_opt v)) (insert_child k v t).
Proof.
  intros Hwf Hv Hc. split; [by apply wf_insert_child|]. intros [|k' p]; [done|].
  assert (wf (insert_child k v t)) by (by apply wf_insert_child).
  rewrite !has_path_child, child_insert_child by done. cbn [graft]. rewrite child_get in Hc. case_decide as E.
  - rewrite <- (child_proper t k k') by done. rewrite bool_decide_true by done.
    destruct (child t k) as [[c|]|]; simpl in Hc; [done| |done].
    rewrite has_path_opt_None. destruct p; [by rewrite has_path_opt_nil|done].
  - by rewrite bool_decide_false, orb_false_r.
Qed.

Lemma new_merged o : exists rc, kvtree_merge (Some kvtree_new) o = (Some (merged kvtree_new (default kvtree_new o)), rc).
Proof. apply merge_merged, wf_new. Qed.

Lemma merged_new_path o p : has_path (merged kvtree_new (default kvtree_new o)) p = has_path_opt o p.
Proof. rewrite merged_path by apply wf_new. rewrite has_path_new, has_path_opt_None. by destruct o, p. Qed.

End rank_key.

(** ** Queueing messages *)
Lemma graft_child k k' F q : graft [k] F (k' :: q) = bool_decide (c_str k = c_str k') && F q.
Proof. done. Qed.

Section sendq.
Context `{Libc}.

Lemma sendq_spec n t rank msg :
  wf t ->
  exists t', kvtree_exchange_sendq (Some t) rank msg = Ok (Some t', KVTREE_SUCCESS) /\ wf t' /\
    (forall p, has_path t' p =
       has_path t p ||
       match p with
       | [] => true
       | k :: q => bool_decide (c_str k = fmt_signed rank) && has_path_opt msg q
       end) /\
    (0 <= rank < Z.of_nat n -> addressed_to n t -> addressed_to n t').
Proof.
  intros Hwf.
  assert (exists t', kvtree_exchange_sendq (Some t) rank msg = Ok (Some t', KVTREE_SUCCESS) /\
            adds t (graft [fmt_signed rank] (has_path_opt msg)) t') as (t' & E & [Hwf' Hp]).
  { unfold kvtree_exchange_sendq. rewrite getf_rank. cbn [obind].
    destruct (kvtree_get (Some t) (Some (fmt_signed rank))) as [c|] eqn:Hg.
    - destruct (merge_adds c msg (wf_get _ _ _ Hwf Hg)) as (c' & rc & Em & Ha).
      destruct (at_ptr_adds [fmt_signed rank] (fun h => kvtree_merge h msg) (has_path_opt msg) rc t c c')
        as (t' & -> & Ht & _); [done| |done|done|apply has_path_opt_nil|by exists t'].
      cbn [kvtree_deref]. by rewrite Hg.
    - destruct (new_merged msg) as (rc & ->).
      destruct (setf_rank t (Some (merged kvtree_new (default kvtree_new msg))) rank Hwf) as (p & ->).
      eexists. split; [done|].
      destruct (insert_adds t (fmt_signed rank) (Some (merged kvtree_new (default kvtree_new msg))))
        as [Hw Hp]; [done|apply merged_wf, wf_new|done|].
      split; [done|]. intros p2. rewrite Hp. f_equal. apply graft_ext. intros q. apply merged_new_path. }
  assert (forall p, has_path t' p = has_path t p || match p with [] => true
     | k :: q => bool_decide (c_str k = fmt_signed rank) && has_path_opt msg q end) as Hp'.
  { intros [|k q]; rewrite Hp; [done|]. rewrite graft_child, c_str_fmt. f_equal. f_equal.
    apply bool_decide_ext. by split. }
  exists t'. split_and!; [done..|]. intros Hr Ha k q. rewrite Hp', orb_true_iff.
  intros [Hk|[Hk%bool_decide_eq_true _]%andb_true_iff]; [by apply (Ha k q)|by exists rank].
Qed.

(** [kvtree_exchange_sendq] adds the paths of the message under the rank it is
    for, whether a message for that rank was queued before or not, and nothing
    else: the queue stays well-formed and addressed to ranks of the communicator. *)
Theorem sendq_adds n t rank msg :
  wf t ->
  exists t', kvtree_exchange_sendq (Some t) rank msg = Ok (Some t', KVTREE_SUCCESS) /\ wf t' /\
    (forall p, has_path t' p =
       has_path t p ||
       match p with
       | [] => true
       | k :: q => bool_decide (c_str k = fmt_signed rank) && has_path_opt msg q
       end) /\
    (0 <= rank < Z.of_nat n -> addressed_to n t -> addressed_to n t').
Proof. apply sendq_spec. Qed.

End sendq.

(** ** Counting hops *)

(** Of the [i] low bits of [x]: how many are set, and the number of the last one,
    from 1. *)
Fixpoint ones (i : nat) (x : Z) : Z :=
  match i with
  | O => 0
  | S i => ones i x + (if Z.testbit x (Z.of_nat i) then 1 else 0)
  end.
Fixpoint top (i : nat) (x : Z) : Z :=
  match i with
  | O => 0
  | S i => if Z.testbit x (Z.of_nat i) then Z.of_nat (S i) else top i x
  end.

Lemma top_range i x : 0 <= top i x <= Z.of_nat i.
Proof. induction i as [|i IH]; cbn [top]; [done|]. destruct (Z.testbit _ _); lia. Qed.

Lemma below_bit i x : 0 <= i -> 0 <= x < 2 ^ (i + 1) -> Z.testbit x i = false -> x < 2 ^ i.
Proof.
  intros Hi Hx Hb. destruct (decide (x < 2 ^ i)); [done|]. exfalso.
  rewrite Z.testbit_eqb in Hb by lia.
  assert (x / 2 ^ i = 1) as E by (symmetry; apply Z.div_unique with (r := x - 2 ^ i); rewrite ?Z.pow_add_r in *; lia).
  by rewrite E in Hb.
Qed.

Lemma top_bound i x : 0 <= x < 2 ^ Z.of_nat i -> x < 2 ^ top i x.
Proof.
  induction i as [|i IH]; cbn [top]; intros Hx; [lia|]. destruct (Z.testbit x _) eqn:Hb; [lia|].
  apply IH. split; [lia|]. apply below_bit; [lia|by rewrite Z.add_1_r, <- Nat2Z.inj_succ|done].
Qed.

Lemma count_hops_spec N dl dr fuel : forall i,
  N <= 2 ^ 30 -> (32 <= fuel + i)%nat -> (i <= 30)%nat ->
  exists k, N <= 2 ^ Z.of_nat k /\
    count_hops fuel N dl dr (2 ^ Z.of_nat i) (Z.of_nat (S i)) (ones i dl) (ones i dr) (top i dl) (top i dr)
      = Ok (ones k dl, ones k dr, top k dl, top k dr).
Proof.
  induction fuel as [|fuel IH]; intros i HN Hf Hi; [lia|]. cbn [count_hops].
  destruct (Z.ltb_spec (2 ^ Z.of_nat i) N) as [Hlt|Hge]; [|by exists i].
  assert (i < 30)%nat.
  { destruct (decide (i = 30%nat)) as [->|]; [|lia]. change (Z.of_nat 30) with 30 in Hlt. lia. }
  destruct (IH (S i)) as (k & Hk & E); [lia..|]. exists k. split; [done|]. rewrite <- E.
  rewrite !land_bit by lia. cbn [ones top].
  assert (2 ^ Z.of_nat (S i) <= 2 ^ 30) by (apply Z.pow_le_mono_r; lia).
  rewrite Z.shiftl_mul_pow2 by lia. rewrite Z.pow_1_r, Z.mul_comm, <- Z.pow_succ_r, <- Nat2Z.inj_succ by lia.
  rewrite i32_id by (pose proof (Z.pow_pos_nonneg 2 (Z.of_nat (S i))); int_lia).
  replace (Z.of_nat (S i) + 1) with (Z.of_nat (S (S i))) by lia.
  destruct (Z.testbit dl _), (Z.testbit dr _); by rewrite ?Z.add_0_r.
Qed.

(** The hops to the left and to the right, and the last step of each. *)
Definition hops_of (N dl dr : Z) : Z * Z * Z * Z :=
  match count_hops hop_fuel N dl dr 1 1 0 0 0 0 with Ok x => x | _ => (0, 0, 0, 0) end.

Lemma hops_of_spec N dl dr :
  N <= 2 ^ 30 ->
  exists k, N <= 2 ^ Z.of_nat k /\
    count_hops hop_fuel N dl dr 1 1 0 0 0 0 = Ok (hops_of N dl dr) /\
    hops_of N dl dr = (ones k dl, ones k dr, top k dl, top k dr).
Proof.
  intros HN. unfold hops_of.
  destruct (count_hops_spec N dl dr hop_fuel 0 HN) as (k & Hk & E); [unfold hop_fuel; lia|lia|].
  exists k. cbn [ones top] in E. change (2 ^ Z.of_nat 0) with 1 in E. change (Z.of_nat 1) with 1 in E.
  by rewrite E.
Qed.

(** ** Choosing the direction *)
Definition hops_from (N r d : Z) : Z * Z * Z * Z :=
  hops_of N (dist KVTREE_EXCHANGE_LEFT N r d) (dist KVTREE_EXCHANGE_RIGHT N r d).
Definition goes_left (N r d : Z) : bool := let '(hl, hr, _, _) := hops_from N r d in hl <? hr.
Definition steps_left_of (N r d : Z) : Z := let '(_, _, sl, _) := hops_from N r d in sl.
Definition steps_right_of (N r d : Z) : Z := let '(_, _, _, sr) := hops_from N r d in sr.

Lemma steps_bound N r d :
  0 < N <= 2 ^ 30 ->
  dist KVTREE_EXCHANGE_LEFT N r d < 2 ^ steps_left_of N r d /\
  dist KVTREE_EXCHANGE_RIGHT N r d < 2 ^ steps_right_of N r d.
Proof.
  intros HN. unfold steps_left_of, steps_right_of, hops_from.
  destruct (hops_of_spec N (dist KVTREE_EXCHANGE_LEFT N r d) (dist KVTREE_EXCHANGE_RIGHT N r d))
    as (k & Hk & _ & ->); [lia|].
  split; apply top_bound.
  - pose proof (dist_range KVTREE_EXCHANGE_LEFT N r d). lia.
  - pose proof (dist_range KVTREE_EXCHANGE_RIGHT N r d). lia.
Qed.

Section assign.
Context `{Libc} (N r : Z).
Hypothesis HN : 0 < N <= 2 ^ 30.
Hypothesis Hr : 0 <= r < N.

(** The paths of the elements whose destination [P] selects. *)
Definition assigned (P : Z -> bool) (l : list kvtree_elem) (p : path) : bool :=
  existsb (fun e => P (dest_of e) && graft [fmt_signed (dest_of e)] (has_path_opt (hash e)) p) l.

(** The maximum so far is enough for the elements that [P] selects. *)
Definition reaches (dir : kvtree_exchange_enum) (P : Z -> bool) (l : list kvtree_elem) (m : Z) : Prop :=
  forall e, e ∈ l -> P (dest_of e) = true -> dist dir N r (dest_of e) < 2 ^ m.

Lemma reaches_cons dir P e l m :
  reaches dir P l m -> (P (dest_of e) = true -> dist dir N r (dest_of e) < 2 ^ m) -> reaches dir P (e :: l) m.
Proof. intros Hl He e' [->|Hin]%list.elem_of_cons HP; [by apply He|by apply Hl]. Qed.

Lemma pow_below x m m' : x < 2 ^ m -> m <= m' -> x < 2 ^ m'.
Proof.
  intros Hx Hm. destruct (decide (0 <= m')) as [|Hn]; [|rewrite Z.pow_neg_r in Hx; [|lia]].
  - assert (2 ^ m <= 2 ^ m') by (by apply Z.pow_le_mono_r). lia.
  - pose proof (Z.pow_neg_r 2 m'). lia.
Qed.

Definition dest_ok (e : kvtree_elem) : Prop := has_key e /\ 0 <= dest_of e < N.

(** An element of the input is new to a hash: none of its keys so far is its rank. *)
Definition new_to (t : kvtree) (e : kvtree_elem) : Prop :=
  kvtree_get (Some t) (Some (fmt_signed (dest_of e))) = None.

Lemma new_to_insert t d v l :
  wf t -> wf_opt v -> 0 <= d < N -> Forall dest_ok l -> d ∉ (dest_of <$> l) -> Forall (new_to t) l ->
  Forall (new_to (insert_child (fmt_signed d) v t)) l.
Proof.
  intros Hwf Hv Hd Hok Hni Hnew. rewrite list.Forall_forall in *. intros e He.
  specialize (Hnew e He). destruct (Hok e He) as [_ Hde]. unfold new_to in *.
  rewrite child_get, child_insert_child by done. rewrite child_get in Hnew.
  rewrite !c_str_fmt, decide_False; [done|]. intros E. apply Hni.
  apply fmt_inj in E; [|int_lia|int_lia]. rewrite E. by apply list_elem_of_fmap_2.
Qed.

Lemma adds_cons t P e l t1 t' :
  (P (dest_of e) = true /\ adds t (graft [fmt_signed (dest_of e)] (has_path_opt (hash e))) t1) \/
  (P (dest_of e) = false /\ wf t /\ t1 = t) ->
  adds t1 (assigned P l) t' -> adds t (assigned P (e :: l)) t'.
Proof.
  intros [[HP Ha]|(HP & Hw & ->)] Hl.
  - pose proof (adds_trans _ _ _ _ _ Ha Hl) as Ht. eapply adds_ext; [|exact Ht].
    intros p. unfold assigned. cbn [existsb]. by rewrite HP.
  - eapply adds_ext; [|exact Hl]. intros p. unfold assigned. cbn [existsb]. by rewrite HP.
Qed.

Lemma assign_loop_spec l : forall left right ml mr,
  wf left -> wf right -> Forall dest_ok l -> NoDup (dest_of <$> l) ->
  Forall (new_to left) l -> Forall (new_to right) l ->
  exists left' right' ml' mr',
    assign_loop r N l (Some left) (Some right) ml mr = Ok (Some left', Some right', ml', mr') /\
    adds left (assigned (goes_left N r) l) left' /\
    adds right (assigned (fun d => negb (goes_left N r d)) l) right' /\
    ml <= ml' /\ mr <= mr' /\
    reaches KVTREE_EXCHANGE_LEFT (goes_left N r) l ml' /\
    reaches KVTREE_EXCHANGE_RIGHT (fun d => negb (goes_left N r d)) l mr'.
Proof.
  induction l as [|e l IH]; intros left right ml mr Hl Hrt Hok Hnd Hnl Hnr.
  { exists left, right, ml, mr. split_and!; [done| | |lia|lia| |];
      [split; [done|]; intros p; by rewrite orb_false_r..| |]; by intros e ?%elem_of_nil. }
  apply list.Forall_cons in Hok as [[Hk Hd] Hok]. apply list.NoDup_cons in Hnd as [Hni Hnd].
  apply list.Forall_cons in Hnl as [He Hnl]. apply list.Forall_cons in Hnr as [Her Hnr].
  cbn [assign_loop]. rewrite key_int_dest by done. cbn [obind kvtree_elem_hash].
  rewrite !distance_dist by lia.
  destruct (hops_of_spec N (dist KVTREE_EXCHANGE_LEFT N r (dest_of e))
              (dist KVTREE_EXCHANGE_RIGHT N r (dest_of e)) ltac:(lia)) as (_ & _ & E & _).
  rewrite E. clear E. cbn [obind]. fold (hops_from N r (dest_of e)).
  destruct (steps_bound N r (dest_of e) HN) as [HbL HbR].
  assert (goes_left N r (dest_of e) = let '(hl, hr, _, _) := hops_from N r (dest_of e) in hl <? hr) as Hg
    by done.
  unfold steps_left_of in HbL. unfold steps_right_of in HbR.
  destruct (hops_from N r (dest_of e)) as [[[hl hr] sl] sr].
  destruct (new_merged (hash e)) as (rc & ->).
  set (v := Some (merged kvtree_new (default kvtree_new (hash e)))).
  assert (wf_opt v) as Hv by apply merged_wf, wf_new.
  assert (forall t, wf t -> new_to t e ->
    adds t (graft [fmt_signed (dest_of e)] (has_path_opt (hash e))) (insert_child (fmt_signed (dest_of e)) v t))
    as Hins.
  { intros t Ht Hn. eapply adds_ext; [|by apply (insert_adds t _ v Ht Hv)].
    intros p. f_equal. apply graft_ext. intros q. apply merged_new_path. }
  destruct (hl <? hr).
  - destruct (setf_rank left v (dest_of e) Hl) as (p & ->). cbn [obind].
    destruct (IH (insert_child (fmt_signed (dest_of e)) v left) right (if ml <? sl then sl else ml) mr)
      as (left' & right' & ml' & mr' & -> & HaL & HaR & HmL & HmR & HrL & HrR);
      [by apply wf_insert_child|done|done|done|by apply new_to_insert|done|].
    destruct (Z.ltb_spec ml sl);
      exists left', right', ml', mr'; (split_and!; [done| | |lia|lia| |]);
      try (eapply adds_cons; [|eassumption]; rewrite Hg; auto);
      apply reaches_cons; try assumption; intros HP; try (by rewrite Hg in HP);
      eapply pow_below; [exact HbL|lia|exact HbL|lia].
  - destruct (setf_rank right v (dest_of e) Hrt) as (p & ->). cbn [obind].
    destruct (IH left (insert_child (fmt_signed (dest_of e)) v right) ml (if mr <? sr then sr else mr))
      as (left' & right' & ml' & mr' & -> & HaL & HaR & HmL & HmR & HrL & HrR);
      [done|by apply wf_insert_child|done|done|done|by apply new_to_insert|].
    destruct (Z.ltb_spec mr sr);
      exists left', right', ml', mr'; (split_and!; [done| | |lia|lia| |]);
      try (eapply adds_cons; [|eassumption]; rewrite Hg; auto);
      apply reaches_cons; try assumption; intros HP; try (by rewrite Hg in HP);
      eapply pow_below; [exact HbR|lia|exact HbR|lia].
Qed.

End assign.

(** ** The part of an input that goes in one direction *)

(** [t'] has the items of [t] that [P] selects by their destination. *)
Record part_of (n : nat) (P : Z -> bool) (t t' : kvtree) : Prop := {
  part_wf : wf t';
  part_addressed : addressed_to n t';
  part_path d q : 0 <= d < Z.of_nat n ->
    has_path t' (fmt_signed d :: q) = P d && has_path t (fmt_signed d :: q)
}.

Section part.
Context (n : nat).
Notation N := (Z.of_nat n).
Hypothesis Hn : (0 < n)%nat.
Hypothesis HN : N <= 2 ^ 30.

Lemma input_dests t :
  wf t -> addressed_to n t ->
  Forall (dest_ok N) (lh_first t) /\ NoDup (dest_of <$> lh_first t) /\
  Forall (new_to kvtree_new) (lh_first t).
Proof.
  intros Hwf Ha. assert (forall e, e ∈ lh_first t -> 0 <= dest_of e < N /\ key e = Some (fmt_signed (dest_of e)))
    as Hd.
  { intros e He. pose proof (wf_elem_in _ _ Hwf He) as [Hk _]%wf_elem_iff.
    destruct (key e) as [k|] eqn:Ek; [|done].
    destruct (has_path_key t e k Hwf He Ek) as [Hc Hck].
    destruct (Ha k []) as (d & Hd & Ed); [by rewrite has_path_child, Hc, has_path_opt_nil|].
    unfold dest_of. rewrite Ek. rewrite Hck in Ed. subst k. by rewrite atoi_fmt_signed by int_lia. }
  split_and!.
  - apply list.Forall_forall. intros e He. destruct (Hd e He) as [Hde Hk]. split; [by eexists|done].
  - apply wf_iff in Hwf as [Hnd _]. apply (NoDup_fmap_1 (fun d => Some (fmt_signed d))).
    rewrite <- list_fmap_compose.
    replace ((fun d => Some (fmt_signed d)) ∘ dest_of <$> lh_first t) with (key <$> lh_first t); [done|].
    apply list_fmap_ext. intros i e He%list_elem_of_lookup_2. by destruct (Hd e He) as [_ ->].
  - apply list.Forall_forall. done.
Qed.

Lemma part_assigned P t t' :
  wf t -> addressed_to n t -> adds kvtree_new (assigned P (lh_first t)) t' -> part_of n P t t'.
Proof.
  intros Hwf Ha [Hw Hp]. destruct (input_dests t Hwf Ha) as (Hok & _ & _).
  rewrite list.Forall_forall in Hok. split; [done| |].
  - intros k q. rewrite Hp, has_path_new. cbn [has_path_opt orb]. unfold assigned. rewrite existsb_exists.
    intros (e & He%list_elem_of_In & [_ Hg]%andb_true_iff). destruct (Hok e He) as [_ Hd].
    rewrite graft_child, c_str_fmt, andb_true_iff, bool_decide_eq_true in Hg. exists (dest_of e).
    by destruct Hg as [<- _].
  - intros d q Hd. rewrite Hp, has_path_new. cbn [has_path_opt orb]. apply Bool.eq_true_iff_eq.
    unfold assigned. rewrite existsb_exists, andb_true_iff. split.
    + intros (e & He%list_elem_of_In & [HP Hg]%andb_true_iff).
      rewrite graft_child, !c_str_fmt, andb_true_iff, bool_decide_eq_true in Hg. destruct Hg as [Ed Hg].
      destruct (input_elem n Hn HN t e Hwf Ha He) as [Hde Hpe].
      apply fmt_inj in Ed; [subst d|int_lia|int_lia]. by rewrite Hpe.
    + intros [HP Hq]. destruct (input_find n Hn HN t d q Hwf Ha Hd Hq) as (e & He & <- & Hpe).
      exists e. split; [by apply list_elem_of_In|].
      by rewrite HP, graft_child, bool_decide_true.
Qed.

(** The families of parts of an exchange. *)
Context (ins parts : nat -> kvtree) (P : nat -> Z -> bool).
Hypothesis Hparts : forall r, (r < n)%nat -> part_of n (P r) (ins r) (parts r).

Lemma parts_within U : within n U ins -> within n U parts.
Proof.
  intros HU s d q Hs Hd. rewrite (part_path _ _ _ _ (Hparts s Hs)), andb_true_iff by done.
  intros [_ Hq]. by apply HU.
Qed.

(** Two families that divide the items have them all. *)
Lemma parts_both parts2 r p :
  (forall r, (r < n)%nat -> part_of n (fun d => negb (P r d)) (ins r) (parts2 r)) -> (r < n)%nat ->
  received_by n parts r p \/ received_by n parts2 r p <-> received_by n ins r p.
Proof.
  intros Hparts2 Hr. unfold received_by. split.
  - intros [(s & k & q & Hs & -> & Hk & Hq)|(s & k & q & Hs & -> & Hk & Hq)]; exists s, k, q;
      (split_and!; [done..|]).
    + rewrite (part_path _ _ _ _ (Hparts s Hs)), andb_true_iff in Hq by lia. apply Hq.
    + rewrite (part_path _ _ _ _ (Hparts2 s Hs)), andb_true_iff in Hq by lia. apply Hq.
  - intros (s & k & q & Hs & -> & Hk & Hq). destruct (P s (Z.of_nat r)) eqn:HP; [left|right];
      exists s, k, q; (split_and!; [done..|]).
    + by rewrite (part_path _ _ _ _ (Hparts s Hs)), HP by lia.
    + by rewrite (part_path _ _ _ _ (Hparts2 s Hs)), HP by lia.
Qed.

End part.

(** ** The exchange in one direction *)

(** All that is sent: what the processes start with, merged. *)
Fixpoint load (ins : nat -> kvtree) (n : nat) : kvtree :=
  match n with
  | O => kvtree_new
  | S n => merged (load ins n) (start_of n (ins n))
  end.

Lemma load_wf ins n : wf (load ins n).
Proof. induction n as [|n IH]; [apply wf_new|by apply merged_wf]. Qed.

Lemma load_path ins n r p :
  (r < n)%nat -> has_path (start_of r (ins r)) p = true -> has_path (load ins n) p = true.
Proof.
  intros Hr Hp. induction n as [|n IH]; [lia|]. cbn [load]. rewrite merged_path by apply load_wf.
  apply orb_true_iff. destruct (decide (r = n)) as [->|]; [by right|left; apply IH; lia].
Qed.

Lemma load_within ins n :
  (0 < n)%nat -> Z.of_nat n <= 2 ^ 30 ->
  (forall r, (r < n)%nat -> wf (ins r) /\ addressed_to n (ins r)) -> within n (load ins n) ins.
Proof.
  intros Hn HN Hins s d q Hs Hd Hq. destruct (Hins s Hs) as [Hw Ha].
  apply (load_path _ _ s); [done|].
  apply (start_paths n Hn HN s (ins s) d (kS :: fmt_signed (Z.of_nat s) :: q)); [done..|]. by rewrite c_str_fmt.
Qed.

(** All processes stop with success and a tree of which [Q] holds. *)
Definition all_receive {A} (n : nat) (Q : nat -> kvtree -> Prop) (c : config A)
    (ret : kvtree -> A) : Prop :=
  exists out, stopped ((fun r => Ok (ret (out r))) <$> seq 0 n) c /\
    forall r, (r < n)%nat -> Q r (out r).

Section exchange.
Context `{Host} `{MpiConst} `{MpiBuffers} `{Libc}.
Hypothesis Hmalloc : INT_MAX <= malloc_max.

(** What a process has after an exchange: what it had and what was sent to it. *)
Definition exchanged (n : nat) (ins out : nat -> kvtree) (r : nat) (t : kvtree) : Prop :=
  wf t /\ forall p, has_path t p = true <-> has_path (out r) p = true \/ received_by n ins r p.

(** The inputs of an exchange of [n] processes: destinations are ranks, and all
    that is sent, as one tree, packs into a message. *)
Record exchange_inputs (n : nat) (ins out : nat -> kvtree) : Prop := {
  inputs_n : (0 < n)%nat /\ Z.of_nat n <= 2 ^ 30;
  inputs_wf r : (r < n)%nat -> wf (ins r) /\ addressed_to n (ins r) /\ wf (out r);
  inputs_fit : packs (load ins n)
}.

(** They fit the messages of every step. *)
Lemma inputs_within n ins out :
  exchange_inputs n ins out -> wf (load ins n) /\ packs (load ins n) /\ within n (load ins n) ins.
Proof.
  intros [[Hn HN] Hins Hfit].
  assert (forall r, (r < n)%nat -> wf (ins r) /\ addressed_to n (ins r)) as Hi
    by (intros r Hr; by destruct (Hins r Hr) as (? & ? & _)).
  split_and!; [apply load_wf|done|by apply load_within].
Qed.

Definition success (t : kvtree) : Z * option kvtree := (KVTREE_SUCCESS, Some t).

(** *** The sides of [kvtree_exchange] *)
Definition sides (n r : nat) (t : kvtree) : kvtree * kvtree * Z * Z :=
  match assign_loop (Z.of_nat r) (Z.of_nat n) (lh_first t) (Some kvtree_new) (Some kvtree_new) 0 0 with
  | Ok (Some tl, Some tr, ml, mr) => (tl, tr, ml, mr)
  | _ => (kvtree_new, kvtree_new, 0, 0)
  end.

Definition left_goes (n r : nat) (d : Z) : bool := goes_left (Z.of_nat n) (Z.of_nat r) d.
Definition right_goes (n r : nat) (d : Z) : bool := negb (goes_left (Z.of_nat n) (Z.of_nat r) d).

(** The steps [m] are enough for the items of [t] that [P] selects. *)
Definition steps_enough (dir : kvtree_exchange_enum) (n r : nat) (P : Z -> bool) (t : kvtree) (m : Z) : Prop :=
  forall d, 0 <= d < Z.of_nat n -> P d = true -> has_path t [fmt_signed d] = true ->
    dist dir (Z.of_nat n) (Z.of_nat r) d < 2 ^ m.

Definition sides_post (n r : nat) (t : kvtree) (x : kvtree * kvtree * Z * Z) : Prop :=
  assign_loop (Z.of_nat r) (Z.of_nat n) (lh_first t) (Some kvtree_new) (Some kvtree_new) 0 0
    = Ok (Some x.1.1.1, Some x.1.1.2, x.1.2, x.2) /\
  part_of n (left_goes n r) t x.1.1.1 /\ part_of n (right_goes n r) t x.1.1.2 /\
  steps_enough KVTREE_EXCHANGE_LEFT n r (left_goes n r) t x.1.2 /\
  steps_enough KVTREE_EXCHANGE_RIGHT n r (right_goes n r) t x.2.

Lemma sides_spec n r t :
  Z.of_nat n <= 2 ^ 30 -> (r < n)%nat -> wf t -> addressed_to n t -> sides_post n r t (sides n r t).
Proof.
  intros HN Hr Hwf Ha. unfold sides, sides_post. assert (0 < n)%nat as Hn by lia.
  destruct (input_dests n Hn HN t Hwf Ha) as (Hok & Hnd & Hnew).
  destruct (assign_loop_spec (Z.of_nat n) (Z.of_nat r) ltac:(lia) ltac:(lia) (lh_first t)
              kvtree_new kvtree_new 0 0 wf_new wf_new Hok Hnd Hnew Hnew)
    as (tl & tr & ml & mr & -> & HL & HR & _ & _ & Hml & Hmr).
  assert (forall dir P m, reaches (Z.of_nat n) (Z.of_nat r) dir P (lh_first t) m ->
                     steps_enough dir n r P t m) as Hst.
  { intros dir P m Hm d Hd HP Hq.
    destruct (input_find n Hn HN t d [] Hwf Ha Hd Hq) as (e & He & <- & _). by apply Hm. }
  split_and!; [done|by apply (part_assigned n Hn HN)|by apply (part_assigned n Hn HN)|by apply Hst|by apply Hst].
Qed.

(** C28. [kvtree_exchange_direction] on every process, in either direction: every
    run ends, with success on all processes, and each process then has, besides
    what it had, exactly the trees sent to it, each under the rank of its sender. *)
Theorem exchange_direction_delivers n dir ins out :
  exchange_inputs n ins out ->
  always
    (Cfg (running n (fun r =>
       kvtree_exchange_direction (Z.of_nat r) (Z.of_nat n) (Some (ins r)) (Some (out r)) dir)) ∅)
    (fun c => all_receive n (exchanged n ins out) c success).
Proof.
  intros Hin. destruct (inputs_within n ins out Hin) as (HwU & HpU & HU).
  set (U := load ins n) in *. destruct Hin as [[Hn HN] Hins _].
  destruct (direction_rounds Hmalloc n dir U Hn HN (conj HwU HpU) ins out (-1)
              (fun r '(rc, recv) => proc_ret (rc, recv)) ∅) as (out' & ch' & Hq & _ & Hrun);
    [done|done|intros ??; lia|apply idle_empty|].
  pose proof (ends_in_intro _ _ ((fun r => Ok (success (out' r))) <$> seq 0 n) ltac:(by destruct n; [lia|])
                Hrun (running_stopped n _ ch')) as [Hsn Hnf].
  split; [exact Hsn|]. intros c Hr Hc. exists out'. split; [by apply Hnf|done].
Qed.

(** The steps that MPI agrees on are enough for every item of its direction. *)
Lemma exchange_sides n ins :
  (0 < n)%nat -> Z.of_nat n <= 2 ^ 30 ->
  (forall r, (r < n)%nat -> wf (ins r) /\ addressed_to n (ins r)) ->
  exists L R mL mR A B,
    (forall r, (r < n)%nat ->
       assign_loop (Z.of_nat r) (Z.of_nat n) (lh_first (ins r)) (Some kvtree_new) (Some kvtree_new) 0 0
         = Ok (Some (L r), Some (R r), mL r, mR r) /\
       part_of n (left_goes n r) (ins r) (L r) /\ part_of n (right_goes n r) (ins r) (R r)) /\
    max_all ((fun r => [mL r; mR r]) <$> seq 0 n) = [A; B] /\
    near_enough n KVTREE_EXCHANGE_LEFT L A /\ near_enough n KVTREE_EXCHANGE_RIGHT R B.
Proof.
  intros Hn HN Hins.
  set (x r := sides n r (ins r)).
  assert (forall r, (r < n)%nat -> sides_post n r (ins r) (x r)) as Hs.
  { intros r Hr. destruct (Hins r Hr) as [Hw Ha]. by apply sides_spec. }
  exists (fun r => (x r).1.1.1), (fun r => (x r).1.1.2), (fun r => (x r).1.2), (fun r => (x r).2).
  destruct (max_pairs n (fun r => (x r).1.2) (fun r => (x r).2) Hn) as (A & B & Emax & Hmax).
  exists A, B. split_and!; [|done| |].
  - intros r Hr. by destruct (Hs r Hr) as (E & HpL & HpR & _).
  - intros s d Hsn Hd _ Hq. destruct (Hs s Hsn) as (_ & HpL & _ & Hst & _).
    rewrite (part_path _ _ _ _ HpL), andb_true_iff in Hq by done. destruct Hq as [HP Hq].
    eapply pow_below; [by apply Hst|by apply Hmax].
  - intros s d Hsn Hd _ Hq. destruct (Hs s Hsn) as (_ & _ & HpR & _ & Hst).
    rewrite (part_path _ _ _ _ HpR), andb_true_iff in Hq by done. destruct Hq as [HP Hq].
    eapply pow_below; [by apply Hst|by apply Hmax].
Qed.

(** The run: one round of [MPI_Allreduce] between what each process does alone
    and the exchanges to the left and to the right. *)
Lemma exchange_run n ins out :
  exchange_inputs n ins out ->
  exists out' ch',
    rtc step
      (Cfg (running n (fun r =>
         kvtree_exchange (Z.of_nat r) (Z.of_nat n) (Some (ins r)) (Some (out r)))) ∅)
      (Cfg (running n (fun r => Stop (Ok (success (out' r))))) ch') /\
    forall r, (r < n)%nat -> exchanged n ins out r (out' r).
Proof.
  intros Hin. destruct (inputs_within n ins out Hin) as (HwU & HpU & HU).
  set (U := load ins n) in *. destruct Hin as [[Hn HN] Hins _].
  destruct (exchange_sides n ins Hn HN) as (L & R & mL & mR & A & B & Hs & Emax & HnL & HnR);
    [by intros r Hr; destruct (Hins r Hr) as (? & ? & _)|].
  assert (forall r, (r < n)%nat -> part_of n (left_goes n r) (ins r) (L r)) as HL by apply Hs.
  assert (forall r, (r < n)%nat -> part_of n (right_goes n r) (ins r) (R r)) as HR by apply Hs.
  set (next r (x : Z * option kvtree) := let '(rc, recv) := x in
    mpi* (right_rc, recv) := kvtree_exchange_direction_hops (Z.of_nat r) (Z.of_nat n) (Some (R r)) recv
                               KVTREE_EXCHANGE_RIGHT B in
    proc_ret (if rc =? KVTREE_SUCCESS then right_rc else rc, recv)).
  set (rest r v :=
    try* (all_left, all_right) := two_ints v in
    mpi* (rc, recv) := kvtree_exchange_direction_hops (Z.of_nat r) (Z.of_nat n) (Some (L r)) (Some (out r))
                         KVTREE_EXCHANGE_LEFT all_left in
    mpi* (right_rc, recv) := kvtree_exchange_direction_hops (Z.of_nat r) (Z.of_nat n) (Some (R r)) recv
                               KVTREE_EXCHANGE_RIGHT all_right in
    proc_ret (if rc =? KVTREE_SUCCESS then right_rc else rc, recv)).
  destruct (direction_rounds Hmalloc n KVTREE_EXCHANGE_LEFT U Hn HN (conj HwU HpU) L out A next ∅)
    as (out1 & ch1 & Hq1 & Hi1 & Hrun1);
    [|by eapply parts_within|done|apply idle_empty|].
  { intros r Hr. destruct (Hins r Hr) as (_ & _ & Ho). by destruct (HL r Hr). }
  destruct (direction_rounds Hmalloc n KVTREE_EXCHANGE_RIGHT U Hn HN (conj HwU HpU) R out1 B
    (fun r '(right_rc, recv) => proc_ret (right_rc, recv)) ch1) as (out2 & ch2 & Hq2 & _ & Hrun2);
    [|by eapply parts_within|done|done|].
  { intros r Hr. destruct (Hq1 r Hr) as [Ho _]. by destruct (HR r Hr). }
  exists out2, ch2. split.
  - rewrite (running_ext n _ (fun r => Reduce AllMax [mL r; mR r] (rest r))).
    + eapply rtc_l; [apply (running_reduce n AllMax (fun r => [mL r; mR r]) rest); exact Hn|].
      cbn [reduced]. rewrite Emax. etrans; [exact Hrun1|exact Hrun2].
    + intros r Hr. unfold kvtree_exchange. cbn [kvtree_elem_first]. by destruct (Hs r Hr) as (-> & _).
  - intros r Hr. destruct (Hq2 r Hr) as [Hw2 Hp2]. destruct (Hq1 r Hr) as [_ Hp1].
    split; [done|]. intros p. specialize (Hp1 p). specialize (Hp2 p).
    pose proof (parts_both n Hn ins L (left_goes n) HL R r p HR Hr). tauto.
Qed.

(** C27. [kvtree_exchange] on every process: every run ends, with success on all
    processes, and each process then has, besides what it had, exactly the trees
    sent to it, each under the rank of its sender: choosing the direction with
    fewer hops for each item and cutting both directions off after the largest
    number of steps that any item needs loses and duplicates nothing. *)
Theorem exchange_delivers n ins out :
  exchange_inputs n ins out ->
  always
    (Cfg (running n (fun r =>
       kvtree_exchange (Z.of_nat r) (Z.of_nat n) (Some (ins r)) (Some (out r)))) ∅)
    (fun c => all_receive n (exchanged n ins out) c success).
Proof.
  intros Hin. destruct (exchange_run n ins out Hin) as (out' & ch' & Hrun & Hq).
  pose proof (ends_in_intro _ _ ((fun r => Ok (success (out' r))) <$> seq 0 n)
                ltac:(destruct Hin as [[??]]; by destruct n; [lia|])
                Hrun (running_stopped n _ ch')) as [Hsn Hnf].
  split; [exact Hsn|]. intros c Hr Hc. exists out'. split; [by apply Hnf|done].
Qed.

End exchange.

(** ** Witnesses *)

(** Destinations can be read off the elements. *)
Definition rank_key (n : nat) (e : kvtree_elem) : bool :=
  existsb (fun d => bool_decide (key e = Some (fmt_signed (Z.of_nat d)))) (seq 0 n).

Lemma addressed_elems n t : wf t -> forallb (rank_key n) (lh_first t) = true -> addressed_to n t.
Proof.
  intros Hwf Hall k q. rewrite has_path_child by done.
  destruct (child t k) as [h|] eqn:Hc; [|done]. intros _.
  apply child_elem in Hc; [|done]. rewrite forallb_forall in Hall.
  pose proof (Hall _ (proj1 (list_elem_of_In _ _) Hc)) as Hk. unfold rank_key in Hk.
  rewrite existsb_exists in Hk. destruct Hk as (d & Hd%in_seq & [= E]%bool_decide_eq_true).
  exists (Z.of_nat d). split; [lia|done].
Qed.

(** Rank 0 sends to all of three ranks, rank 1 to rank 0 and rank 2 nothing. *)
Definition sample_inputs (r : nat) : kvtree :=
  match r with
  | 0%nat => KVTree [Elem (Some (str "0")) (Some (sample_tree "A" "x" kvtree_new));
                     Elem (Some (str "1")) (Some (sample_tree "B" "y" kvtree_new));
                     Elem (Some (str "2")) None]
  | 1%nat => KVTree [Elem (Some (str "0")) (Some (sample_tree "C" "z" kvtree_new))]
  | _ => kvtree_new
  end.

Definition sample_outs (r : nat) : kvtree := sample_tree "7" "old" kvtree_new.

Ltac sample_inputs_ok :=
  split;
    [split; [lia|by vm_compute]
    |let r := fresh "r" in let Hr := fresh "Hr" in
     intros r Hr; destruct r as [|[|[|r]]]; [| | |lia];
     (split; [wf_check|split; [apply addressed_elems; [wf_check|vm_compute; reflexivity]|wf_check]])
    |unfold packs; apply Z.leb_le; vm_compute; reflexivity].

Lemma sendq_adds_witness :
  let msg := Some (sample_tree "D" "w" kvtree_new) in
  wf (sample_inputs 0) /\
  exists t', @kvtree_exchange_sendq libc_sample (Some (sample_inputs 0)) 2 msg
               = Ok (Some t', KVTREE_SUCCESS) /\ wf t' /\
    (forall p, has_path t' p =
       has_path (sample_inputs 0) p ||
       match p with
       | [] => true
       | k :: q => bool_decide (c_str k = fmt_signed 2) && has_path_opt msg q
       end) /\
    (0 <= 2 < Z.of_nat 3 -> addressed_to 3 (sample_inputs 0) -> addressed_to 3 t').
Proof.
  intros msg. assert (wf (sample_inputs 0)) as Hwf by wf_check. split; [exact Hwf|].
  apply (@sendq_adds libc_sample 3 (sample_inputs 0) 2 msg Hwf).
Defined.

Lemma exchange_direction_delivers_witness :
  exchange_inputs 3 sample_inputs sample_outs /\
  always (H := mpi_rendezvous)
    (Cfg (running 3 (fun r =>
       @kvtree_exchange_direction host_le mpi_sample (Z.of_nat r) (Z.of_nat 3)
         (Some (sample_inputs r)) (Some (sample_outs r)) KVTREE_EXCHANGE_LEFT)) ∅)
    (fun c => all_receive 3 (exchanged 3 sample_inputs sample_outs) c success).
Proof.
  assert (exchange_inputs 3 sample_inputs sample_outs) as Hi by sample_inputs_ok.
  split; [exact Hi|].
  apply (@exchange_direction_delivers host_le mpi_sample mpi_rendezvous ltac:(by vm_compute)
           3 KVTREE_EXCHANGE_LEFT). exact Hi.
Defined.

Lemma exchange_delivers_witness :
  exchange_inputs 3 sample_inputs sample_outs /\
  always (H := mpi_rendezvous)
    (Cfg (running 3 (fun r =>
       @kvtree_exchange host_le mpi_sample libc_sample (Z.of_nat r) (Z.of_nat 3)
         (Some (sample_inputs r)) (Some (sample_outs r)))) ∅)
    (fun c => all_receive 3 (exchanged 3 sample_inputs sample_outs) c success).
Proof.
  assert (exchange_inputs 3 sample_inputs sample_outs) as Hi by sample_inputs_ok.
  split; [exact Hi|].
  apply (@exchange_delivers host_le mpi_sample mpi_rendezvous libc_sample ltac:(by vm_compute) 3). exact Hi.
Defined.
