(* ===== verification/Writers.v ===== *)
(** Choosing the writers of a gather: [pick_writer] and [kvtree_alltrue] of
    [src/src/kvtree_mpi_io.c].

    The processes are cut into segments of neighbours that have about a megabyte
    of data together; the first process of a segment is its writer.  A prefix sum
    gives each process the offset of its data, so that it knows whether it starts
    a segment; a segmented scan with strides 1, 2, 4, ... then brings the rank of
    the writer to every process of the segment. *)

From stdpp Require Import relations.
From S2P Require Import Prelude CLib ByteOrder Kvtree KvtreeSpec KvtreeMap KvtreeMerge Pack.
From S2P Require Import Format Paths Net Mpi Exchange.

Section writers.
Context `{MpiConst}.

(** The array of a reduction or a message, as the variables it is received in. *)
Definition one_number (v : list Z) : outcome Z :=
  match v with [a] => Ok a | _ => Undef end.

Definition recv_three (m : option msg) : outcome (Z * Z * Z) :=
  match m with Some (MInts [a; b; c]) => Ok (a, b, c) | _ => Undef end.

Definition segsize : Z := 1024 * 1024.

(** Whether the process starts a segment, [offset] being where its data begin. *)
Definition starts_new_segment (rank count offset : Z) : Z :=
  if rank =? 0 then 1
  else if 0 <? count then
    let segindex := offset / segsize in
    let seglastbyte := u64 ((segindex + 1) * segsize - 1) in
    let mylastbyte := u64 (offset + count - 1) in
    if seglastbyte <? mylastbyte then 1 else 0
  else 0.

(** The array [send]: [KVTREE_MAP_COUNT], [KVTREE_MAP_RANKS], [KVTREE_MAP_RANK]. *)
Definition scan_merge (send recv : Z * Z * Z) : Z * Z * Z :=
  let '(count, nranks, writer) := send in
  let '(recv_count, recv_nranks, recv_writer) := recv in
  let count := i32 (count + recv_count) in
  if writer =? MPI_PROC_NULL then (count, i32 (nranks + recv_nranks), recv_writer)
  else (count, nranks, writer).

(** The segmented scan: [step] doubles until it reaches the number of processes. *)
Fixpoint scan_loop (fuel : nat) (rank ranks step : Z) (send : Z * Z * Z) : proc (Z * Z * Z) :=
  match fuel with
  | O => Stop NoFuel
  | S fuel =>
      if step <? ranks then
        let left := rank - step in
        let right := i32 (rank + step) in
        let '(count, nranks, writer) := send in
        mpi* m := waitall (if right <? ranks then [(right, MInts [count; nranks; writer])] else [])
                    (if 0 <=? left then Some left else None) in
        try* send :=
          (if 0 <=? left then let* recv := recv_three m in Ok (scan_merge send recv) else Ok send) in
        scan_loop fuel rank ranks (i32 (step * 2)) send
      else proc_ret send
  end.

(** The writer of this process and whether there is only one, for all of them. *)
Definition pick_writer (rank : Z) (ranks : nat) (level count : Z) : proc (Z * Z * Z) :=
  let nranks := Z.of_nat ranks in
  mpi* v := Reduce ScanSum [count] proc_ret in
  try* offset := one_number v in
  let offset := u64 (offset - count) in
  let starts_new := starts_new_segment rank count offset in
  let send := (starts_new, 1, if starts_new =? 0 then MPI_PROC_NULL else rank) in
  mpi* (_, seg_ranks, outwriter) := scan_loop hop_fuel rank nranks 1 send in
  let outallranks := if seg_ranks =? nranks then 1 else 0 in
  mpi* outallranks :=
    (if rank =? nranks - 1 then
       mpi* _ := MPI_Bcast_root (MInt outallranks) (nranks - 1) ranks in proc_ret outallranks
     else mpi* m := MPI_Bcast_other (nranks - 1) in Stop (recv_int m)) in
  proc_ret (KVTREE_SUCCESS, outwriter, outallranks).

Definition kvtree_alltrue (valid : Z) : proc Z :=
  mpi* v := Reduce AllAnd [valid] proc_ret in
  Stop (one_number v).

End writers.

(** ** Segments *)
Section segments.
Variable starts : nat -> bool.

(** The last of the [m] processes up to [r] that starts a segment. *)
Fixpoint last_start (r m : nat) {struct m} : option nat :=
  match m with
  | O => None
  | S m => if starts r then Some r else match r with O => None | S r => last_start r m end
  end.

Lemma last_start_app r m m' :
  last_start r (m + m') =
    match last_start r m with
    | Some w => Some w
    | None => if decide (m <= r)%nat then last_start (r - m) m' else None
    end.
Proof.
  revert r. induction m as [|m IH]; intros r; cbn [Nat.add last_start].
  - rewrite decide_True by lia. by rewrite Nat.sub_0_r.
  - destruct (starts r); [done|]. destruct r as [|r]; [by rewrite decide_False by lia|].
    rewrite IH. destruct (last_start r m); [done|]. by repeat case_decide; try lia.
Qed.

(** [w] is the writer of [r]. *)
Definition is_writer (r w : nat) : Prop :=
  (w <= r)%nat /\ starts w = true /\ forall s, (w < s <= r)%nat -> starts s = false.

Lemma last_start_writer r m w : last_start r m = Some w -> is_writer r w.
Proof.
  revert r. induction m as [|m IH]; intros r; cbn [last_start]; [done|].
  destruct (starts r) eqn:Hr.
  - intros [= <-]. split_and!; [lia|done|lia].
  - destruct r as [|r]; [done|]. intros (Hw & Hs & Hn)%IH. split_and!; [lia|done|].
    intros s Hsr. destruct (decide (s = S r)) as [->|]; [done|]. apply Hn. lia.
Qed.

Hypothesis starts_0 : starts 0 = true.

Lemma last_start_all r m : (r < m)%nat -> is_Some (last_start r m).
Proof.
  revert r. induction m as [|m IH]; intros r Hr; [lia|]. cbn [last_start].
  destruct (starts r) eqn:Hs; [by eexists|]. destruct r as [|r]; [congruence|]. apply IH. lia.
Qed.

Lemma writer_unique r w w' : is_writer r w -> is_writer r w' -> w = w'.
Proof.
  intros (Hw & Hs & Hn) (Hw' & Hs' & Hn').
  destruct (decide (w < w')%nat); [rewrite Hn in Hs'; [done|lia]|].
  destruct (decide (w' < w)%nat); [rewrite Hn' in Hs; [done|lia]|]. lia.
Qed.

(** The writer of [r], and of a writer. *)
Definition writer (r : nat) : nat := default 0%nat (last_start r (S r)).

Lemma writer_is r : is_writer r (writer r).
Proof.
  unfold writer. destruct (last_start_all r (S r)) as [w Hw]; [lia|].
  rewrite Hw. by eapply last_start_writer.
Qed.

Lemma writer_self r : writer (writer r) = writer r.
Proof.
  destruct (writer_is r) as (Hw & Hs & _). apply (writer_unique (writer r)); [apply writer_is|].
  split_and!; [lia|done|lia].
Qed.

Lemma last_start_eq r m : (r < m)%nat -> last_start r m = Some (writer r).
Proof.
  intros Hr. destruct (last_start_all r m Hr) as [w Hw]. rewrite Hw. f_equal.
  eapply writer_unique; [by eapply last_start_writer|apply writer_is].
Qed.

(** The last process is in the first segment when there is only one. *)
Lemma writer_zero n : writer n = 0%nat <-> forall r, (r <= n)%nat -> writer r = 0%nat.
Proof.
  split; [|intros Hr; by apply Hr]. intros E r Hr. destruct (writer_is n) as (_ & _ & Hn).
  rewrite E in Hn. apply (writer_unique r); [apply writer_is|]. split_and!; [lia|done|].
  intros s Hs. apply Hn. lia.
Qed.
End segments.

(** ** The segmented scan *)
Section scan.
Context `{MpiConst} `{MpiBuffers}.
Variable n : nat.
Variable starts : nat -> bool.
Hypothesis Hn : (0 < n)%nat.
Hypothesis HN : Z.of_nat n <= 2 ^ 30.
Hypothesis starts_0 : starts 0 = true.

Notation pow i := (2 ^ i)%nat.

(** What [send] holds on process [r] after [i] steps. *)
Fixpoint scan_state (i r : nat) : Z * Z * Z :=
  match i with
  | O => (if starts r then 1 else 0, 1, if starts r then Z.of_nat r else MPI_PROC_NULL)
  | S i =>
      if decide (pow i <= r)%nat
      then scan_merge (scan_state i r) (scan_state i (r - pow i)) else scan_state i r
  end.

(** It is what the last [2 ^ i] processes tell: the writer and the ranks of its
    segment so far, or no writer. *)
Definition segment_of (r m : nat) : Z * Z :=
  match last_start starts r m with
  | Some w => (Z.of_nat (r - w) + 1, Z.of_nat w)
  | None => (Z.of_nat m, MPI_PROC_NULL)
  end.

Lemma last_start_le r m w : last_start starts r m = Some w -> (w <= r)%nat.
Proof. by intros (Hw & _)%last_start_writer. Qed.

Lemma last_start_covers r m : last_start starts r m = None -> (m <= r)%nat.
Proof.
  intros E. destruct (decide (m <= r)%nat); [done|].
  destruct (last_start_all starts starts_0 r m) as [w Hw]; [lia|congruence].
Qed.

Lemma scan_state_segment i r :
  (r < n)%nat -> ((scan_state i r).1.2, (scan_state i r).2) = segment_of r (pow i).
Proof.
  revert r. induction i as [|i IH]; intros r Hr; cbn [scan_state].
  - unfold segment_of. cbn [Nat.pow last_start]. destruct (starts r); cbn [fst snd].
    + by rewrite Nat.sub_diag.
    + by destruct r.
  - pose proof (IH r Hr) as E1. unfold segment_of in *.
    assert (Nat.pow 2 (S i) = pow i + pow i)%nat as -> by (cbn [Nat.pow]; lia).
    rewrite last_start_app. case_decide as Hd.
    + pose proof (IH (r - pow i)%nat ltac:(lia)) as E2.
      destruct (scan_state i r) as [[c a] b], (scan_state i (r - pow i)) as [[c' a'] b'].
      cbn [fst snd scan_merge] in *.
      destruct (last_start starts r (pow i)) as [w|] eqn:E; injection E1 as -> ->.
      * rewrite (not_null (Z.of_nat w)) by lia. done.
      * rewrite Z.eqb_refl. cbn [fst snd]. destruct (last_start starts (r - pow i) (pow i)) as [w|] eqn:E'; injection E2 as -> ->.
        -- pose proof (last_start_le _ _ _ E'). rewrite i32_id by int_lia. f_equal. lia.
        -- apply last_start_covers in E'. rewrite i32_id by int_lia. f_equal. lia.
    + destruct (last_start starts r (pow i)) as [w|] eqn:E; [done|].
      apply last_start_covers in E. lia.
Qed.

(** A step of the scan on all processes. *)
Definition to_right (i r : nat) : option nat :=
  if decide (r + pow i < n)%nat then Some (r + pow i)%nat else None.
Definition from_left (i r : nat) : option nat :=
  if decide (pow i <= r)%nat then Some (r - pow i)%nat else None.

Definition scan_msg (i r : nat) : msg :=
  let '(count, nranks, writer) := scan_state i r in MInts [count; nranks; writer].

Definition scan_talk (i r : nat) : option talk :=
  swap_talk (to_right i r) (from_left i r) (scan_msg i r) (scan_msg i).

Lemma scan_partners i : partners n (to_right i) (from_left i).
Proof.
  intros r Hr. unfold to_right, from_left. split; intros x; case_decide; try done; intros [= <-].
  - split; [lia|]. rewrite decide_True by lia. f_equal. lia.
  - split; [lia|]. rewrite decide_True by lia. f_equal. lia.
Qed.

Fixpoint scan_rounds (fuel i : nat) : list (nat -> option talk) :=
  match fuel with
  | O => []
  | S fuel => if decide (pow i < n)%nat then scan_talk i :: scan_rounds fuel (S i) else []
  end.

Lemma scan_rounds_matched fuel i : Forall (matched n) (scan_rounds fuel i).
Proof.
  revert i. induction fuel as [|fuel IH]; intros i; cbn [scan_rounds]; [constructor|].
  case_decide; [|constructor]. constructor; [|apply IH].
  apply (swap_matched n (to_right i) (from_left i) (scan_msg i)), scan_partners.
Qed.

Lemma pow_Z i : Z.of_nat (pow i) = 2 ^ Z.of_nat i.
Proof. by rewrite Nat2Z.inj_pow. Qed.

Lemma waitall_speaks {A} dst src m m' (K : option msg -> proc A) tr q :
  speaks PointToPoint (K (m' <$> src)) tr q ->
  speaks PointToPoint
    (proc_bind (waitall (match dst with Some d => [(Z.of_nat d, m)] | None => [] end) (Z.of_nat <$> src)) K)
    (swap_talk dst src m m' :: tr) q.
Proof. intros Hk. destruct dst, src; cbn; by constructor. Qed.

Lemma to_right_eq i r (m : msg) :
  (if Z.of_nat r + Z.of_nat (pow i) <? Z.of_nat n then [(Z.of_nat r + Z.of_nat (pow i), m)] else [])
  = match to_right i r with Some d => [(Z.of_nat d, m)] | None => [] end.
Proof.
  unfold to_right. case_decide; [rewrite (proj2 (Z.ltb_lt _ _)) by lia|by rewrite (proj2 (Z.ltb_ge _ _)) by lia].
  by rewrite Nat2Z.inj_add.
Qed.

Lemma from_left_eq i r :
  (if 0 <=? Z.of_nat r - Z.of_nat (pow i) then Some (Z.of_nat r - Z.of_nat (pow i)) else None)
  = Z.of_nat <$> from_left i r.
Proof.
  unfold from_left. case_decide; [rewrite (proj2 (Z.leb_le _ _)) by lia|by rewrite (proj2 (Z.leb_gt _ _)) by lia].
  cbn. by rewrite Nat2Z.inj_sub.
Qed.

Lemma scan_speaks r : (r < n)%nat -> forall fuel i,
  (fuel + i = 32)%nat -> (i <= 30)%nat ->
  speaks PointToPoint (scan_loop fuel (Z.of_nat r) (Z.of_nat n) (2 ^ Z.of_nat i) (scan_state i r))
    ((fun x => x r) <$> scan_rounds fuel i)
    (proc_ret (scan_state (i + length (scan_rounds fuel i)) r)) /\
  (n <= pow (i + length (scan_rounds fuel i)))%nat.
Proof.
  intros Hr. induction fuel as [|fuel IH]; intros i Hf Hi; [lia|].
  cbn [scan_loop scan_rounds]. rewrite <- pow_Z. case_decide as Hd.
  2:{ rewrite (proj2 (Z.ltb_ge _ _)) by lia. cbn [fmap list_fmap length].
      rewrite Nat.add_0_r. split; [constructor|lia]. }
  rewrite (proj2 (Z.ltb_lt _ _)) by lia.
  assert (2 ^ Z.of_nat i < 2 ^ 30) as Hi2 by (rewrite <- pow_Z; lia).
  apply Z.pow_lt_mono_r_iff in Hi2; [|lia..].
  destruct (IH (S i)) as [IHs IHn]; [lia..|]. cbn [length fmap list_fmap].
  rewrite Nat.add_succ_r. split; [|exact IHn].
  assert (i32 (Z.of_nat (pow i) * 2) = 2 ^ Z.of_nat (S i)) as ->.
  { rewrite i32_id by int_lia. rewrite pow_Z, Nat2Z.inj_succ, Z.pow_succ_r by lia. lia. }
  destruct (scan_state i r) as [[c a] b] eqn:Es.
  rewrite i32_id, to_right_eq, from_left_eq by int_lia.
  assert (scan_msg i r = MInts [c; a; b]) as Em by (unfold scan_msg; by rewrite Es).
  unfold scan_talk at 1. rewrite Em. apply waitall_speaks.
  cbn [scan_state Nat.add] in IHs |- *. rewrite Es in IHs. unfold from_left.
  case_decide as H2; cbn [fmap option_fmap option_map].
  - rewrite (proj2 (Z.leb_le _ _)) by lia. unfold scan_msg.
    by destruct (scan_state i (r - pow i)) as [[c' a'] b'].
  - rewrite (proj2 (Z.leb_gt _ _)) by lia. exact IHs.
Qed.
End scan.

(** ** Sums and conjunctions over the processes *)
Fixpoint before (counts : nat -> Z) (r : nat) : Z :=
  match r with O => 0 | S r => before counts r + counts r end.

Lemma before_mono counts n r :
  (forall s, (s < n)%nat -> 0 <= counts s) -> (r <= n)%nat -> 0 <= before counts r <= before counts n.
Proof.
  intros Hc Hr. split.
  - induction r as [|r IH]; cbn [before]; [lia|]. specialize (Hc r ltac:(lia)). specialize (IH ltac:(lia)). lia.
  - induction n as [|n IH]; [by replace r with 0%nat by lia|].
    destruct (decide (r = S n)) as [->|]; [lia|]. cbn [before].
    specialize (IH ltac:(intros; apply Hc; lia) ltac:(lia)). specialize (Hc n ltac:(lia)). lia.
Qed.

Lemma fold_arrays_snoc f l x : l <> [] -> fold_arrays f (l ++ [x]) = zip_with f (fold_arrays f l) x.
Proof. destruct l as [|a l]; [done|]. intros _. cbn [fold_arrays app]. by rewrite foldl_app. Qed.

Lemma fmap_seq_snoc {A} (f : nat -> A) k : f <$> seq 0 (S k) = (f <$> seq 0 k) ++ [f k].
Proof. rewrite seq_S, fmap_app. done. Qed.

Lemma reduced_scan n counts r :
  (r < n)%nat -> (forall s, (s < n)%nat -> 0 <= counts s) -> before counts n < 2 ^ 64 ->
  reduced ScanSum r ((fun r => [counts r]) <$> seq 0 n) = [before counts (S r)].
Proof.
  intros Hr Hc Hb. cbn [reduced]. rewrite <- fmap_take, take_seq, Nat.min_l by lia.
  induction r as [|r IH]; [cbn; f_equal; lia|].
  rewrite fmap_seq_snoc, fold_arrays_snoc by done. rewrite IH by lia. cbn [zip_with]. f_equal.
  pose proof (before_mono counts n (S (S r)) Hc ltac:(lia)). cbn [before] in *. apply u64_id. unfold is_u64. lia.
Qed.

Definition bool_int (b : bool) : Z := if b then 1 else 0.

Lemma reduced_and n i (v : nat -> bool) :
  (0 < n)%nat ->
  reduced AllAnd i ((fun r => [bool_int (v r)]) <$> seq 0 n) = [bool_int (forallb v (seq 0 n))].
Proof.
  intros Hn. cbn [reduced]. destruct n as [|n]; [lia|]. clear Hn.
  induction n as [|n IH]; [cbn; by rewrite andb_true_r|].
  rewrite fmap_seq_snoc, fold_arrays_snoc, IH by done. cbn [zip_with].
  rewrite (seq_S (S n)), forallb_app. cbn [forallb Nat.add]. f_equal.
  by destruct (forallb v (seq 0 (S n))), (v (S n)).
Qed.

(** The processes that start a segment: the first one, and those whose data end in
    a later megabyte than they start. *)
Definition starts (counts : nat -> Z) (r : nat) : bool :=
  (r =? 0)%nat ||
  (0 <? counts r) && (before counts r / segsize <? (before counts r + counts r - 1) / segsize).

Lemma starts_eq n counts r :
  (r < n)%nat -> (forall s, (s < n)%nat -> 0 <= counts s) -> before counts n <= 2 ^ 63 ->
  starts_new_segment (Z.of_nat r) (counts r) (before counts r) = bool_int (starts counts r).
Proof.
  intros Hr Hc Hb. unfold starts_new_segment, starts.
  destruct (Nat.eqb_spec r 0) as [->|Hr0]; [done|]. rewrite (proj2 (Z.eqb_neq _ _)) by lia. cbn [orb].
  destruct (Z.ltb_spec 0 (counts r)) as [Hp|Hp]; [|done]. cbn [andb].
  pose proof (before_mono counts n r Hc ltac:(lia)) as H0.
  pose proof (before_mono counts n (S r) Hc ltac:(lia)) as H1. cbn [before] in H1.
  set (o := before counts r) in *. unfold segsize in *. change (1024 * 1024) with 1048576.
  pose proof (Z.div_mod o 1048576 ltac:(lia)). pose proof (Z.mod_pos_bound o 1048576 ltac:(lia)).
  assert (0 <= o / 1048576) by (apply Z.div_pos; lia).
  rewrite (u64_id ((o / 1048576 + 1) * 1048576 - 1)), (u64_id (o + counts r - 1)) by (unfold is_u64; lia).
  set (a := o / 1048576) in *.
  destruct (Z.ltb_spec a ((o + counts r - 1) / 1048576)) as [Hd|Hd].
  - rewrite (proj2 (Z.ltb_lt _ _)); [done|].
    assert (a + 1 <= (o + counts r - 1) / 1048576) as Ha by lia.
    pose proof (Z.mul_div_le (o + counts r - 1) 1048576 ltac:(lia)). lia.
  - rewrite (proj2 (Z.ltb_ge _ _)); [done|].
    pose proof (Z.mul_succ_div_gt (o + counts r - 1) 1048576 ltac:(lia)). lia.
Qed.

(** ** The call on all processes *)
Section pick.
Context `{MpiConst} `{MpiBuffers}.
Variable n : nat.
Hypothesis Hn : (0 < n)%nat.
Hypothesis HN : Z.of_nat n <= 2 ^ 30.

(** The value of [outallranks]: there is one segment. *)
Definition one_writer (counts : nat -> Z) : bool :=
  bool_decide (writer (starts counts) (n - 1) = 0%nat).

(** An [int] of the process [root] goes to all. *)
Lemma bcast_round {A} root (x : nat -> Z) (K : nat -> Z -> proc A) ch :
  (root < n)%nat -> idle ch ->
  exists ch', idle ch' /\
    rtc step
      (Cfg (running n (fun r =>
         mpi* a := (if Z.of_nat r =? Z.of_nat root then
                      mpi* _ := MPI_Bcast_root (MInt (x r)) (Z.of_nat root) n in proc_ret (x r)
                    else mpi* m := MPI_Bcast_other (Z.of_nat root) in Stop (recv_int m)) in
         K r a)) ch)
      (Cfg (running n (fun r => K r (x root))) ch').
Proof.
  intros Hroot Hidle.
  apply (script_rounds n Collective
    [(fun r => if decide (r = root)
               then Some (Talk ((fun d => (d, MInt (x root))) <$> others (Z.of_nat root) n) None None)
               else Some (Talk [] (Some (Z.of_nat root)) (Some (MInt (x root)))))]); [done| |].
  { constructor; [by apply tell_matched|constructor]. }
  intros r Hr. cbn [fmap list_fmap]. apply (speaks_bind _ _ (K r)). case_decide as E.
  - subst r. rewrite Z.eqb_refl. unfold MPI_Bcast_root. cbn [proc_bind]. apply speaks_post, speaks_nil.
  - rewrite (proj2 (Z.eqb_neq _ _)) by lia. unfold MPI_Bcast_other. cbn [proc_bind].
    apply speaks_post, speaks_nil.
Qed.

Lemma pick_writer_round {A} level counts (K : nat -> Z * Z * Z -> proc A) ch :
  (forall r, (r < n)%nat -> 0 <= counts r) -> before counts n <= 2 ^ 63 -> idle ch ->
  exists ch', idle ch' /\
    rtc step
      (Cfg (running n (fun r =>
         mpi* x := pick_writer (Z.of_nat r) n level (counts r) in K r x)) ch)
      (Cfg (running n (fun r =>
         K r (KVTREE_SUCCESS, Z.of_nat (writer (starts counts) r), bool_int (one_writer counts)))) ch').
Proof.
  intros Hc Hb Hidle. set (st := starts counts).
  assert (st 0%nat = true) as Hst by done.
  set (all (x : Z * Z * Z) := bool_int (x.1.2 =? Z.of_nat n)).
  set (tail r (x : Z * Z * Z) :=
    mpi* a :=
      (if Z.of_nat r =? Z.of_nat n - 1 then
         mpi* _ := MPI_Bcast_root (MInt (all x)) (Z.of_nat n - 1) n in proc_ret (all x)
       else mpi* m := MPI_Bcast_other (Z.of_nat n - 1) in Stop (recv_int m)) in
    K r (KVTREE_SUCCESS, x.2, a)).
  assert (forall r, (r < n)%nat ->
    speaks PointToPoint (scan_loop hop_fuel (Z.of_nat r) (Z.of_nat n) (2 ^ Z.of_nat 0) (scan_state st 0 r))
      ((fun x => x r) <$> scan_rounds n st hop_fuel 0)
      (proc_ret (scan_state st (0 + length (scan_rounds n st hop_fuel 0)) r)) /\
    (n <= 2 ^ (0 + length (scan_rounds n st hop_fuel 0)))%nat) as Hscan.
  { intros r Hr. apply (scan_speaks n st Hn HN r Hr hop_fuel 0); [done|lia]. }
  destruct (Hscan 0%nat Hn) as [_ Hk].
  remember (0 + length (scan_rounds n st hop_fuel 0))%nat as k eqn:Ek. clear Ek.
  assert (forall r, (r < n)%nat -> (scan_state st k r).2 = Z.of_nat (writer st r) /\
            (scan_state st k r).1.2 = Z.of_nat (r - writer st r) + 1) as Hseg.
  { intros r Hr. pose proof (scan_state_segment n st Hn HN Hst k r Hr) as E. unfold segment_of in E.
    rewrite (last_start_eq st Hst) in E by lia. by injection E as -> ->. }
  destruct (script_rounds n PointToPoint (scan_rounds n st hop_fuel 0)
    (fun r => mpi* x := scan_loop hop_fuel (Z.of_nat r) (Z.of_nat n) 1 (scan_state st 0 r) in tail r x)
    (fun r => tail r (scan_state st k r)) ch) as (ch1 & Hi1 & Hr1);
    [done|by apply scan_rounds_matched| |].
  { intros r Hr. apply speaks_bind. by apply Hscan. }
  destruct (bcast_round (n - 1) (fun r => all (scan_state st k r))
    (fun r a => K r (KVTREE_SUCCESS, (scan_state st k r).2, a)) ch1) as (ch2 & Hi2 & Hr2); [lia|done|].
  replace (Z.of_nat (n - 1)) with (Z.of_nat n - 1) in Hr2 by lia.
  exists ch2. split; [done|].
  rewrite (running_ext n _ (fun r => Reduce ScanSum [counts r] (fun v =>
    try* offset := one_number v in
    let starts_new := starts_new_segment (Z.of_nat r) (counts r) (u64 (offset - counts r)) in
    mpi* x := scan_loop hop_fuel (Z.of_nat r) (Z.of_nat n) 1
      (starts_new, 1, if starts_new =? 0 then MPI_PROC_NULL else Z.of_nat r) in tail r x))).
  2:{ intros r Hr. unfold pick_writer. cbn [proc_bind proc_ret]. f_equal.
      apply FunctionalExtensionality.functional_extensionality. intros v.
      destruct (one_number v) as [z| | |]; [|done..]. cbn [proc_bind]. rewrite proc_bind_assoc. f_equal.
      apply FunctionalExtensionality.functional_extensionality. intros [[c a] b]. unfold tail, all.
      cbn [fst snd]. rewrite proc_bind_assoc. done. }
  eapply rtc_l; [apply (running_reduce n ScanSum (fun r => [counts r])); exact Hn|].
  rewrite <- (running_ext n
    (fun r => K r (KVTREE_SUCCESS, (scan_state st k r).2, all (scan_state st k (n - 1)%nat)))
    (fun r => K r (KVTREE_SUCCESS, Z.of_nat (writer st r), bool_int (one_writer counts)))).
  2:{ intros r Hr. destruct (Hseg r Hr) as [-> _]. destruct (Hseg (n - 1)%nat ltac:(lia)) as [_ E].
      unfold all. rewrite E. unfold one_writer. fold st. do 3 f_equal.
      destruct (writer_is st Hst (n - 1)) as [Hw _].
      case_bool_decide; [apply Z.eqb_eq|apply Z.eqb_neq]; lia. }
  erewrite running_ext; [etrans; [exact Hr1|exact Hr2]|].
  intros r Hr. rewrite reduced_scan by (done || lia). cbn [one_number proc_bind before].
  replace (before counts r + counts r - counts r) with (before counts r) by lia.
  pose proof (before_mono counts n r Hc ltac:(lia)).
  rewrite u64_id by (unfold is_u64; lia). rewrite (starts_eq n) by (done || lia). fold st.
  cbn [scan_state]. by destruct (st r).
Qed.
End pick.

(** *** Sizes that divide a megabyte *)
Lemma before_const c r : before (fun _ => c) r = Z.of_nat r * c.
Proof. induction r as [|r IH]; cbn [before]; lia. Qed.

Lemma aligned_starts c r : 0 < c -> (c | segsize) -> starts (fun _ => c) r = (r =? 0)%nat.
Proof.
  intros Hc [m Hm]. unfold starts. destruct (r =? 0)%nat; [done|]. cbn [orb].
  rewrite before_const, (proj2 (Z.ltb_lt _ _)) by lia. cbn [andb]. apply Z.ltb_ge.
  assert (0 < m) by (unfold segsize in Hm; nia).
  rewrite Hm, (Z.mul_comm m c), <- !Z.div_div by lia.
  rewrite Z.div_mul by lia. replace (Z.of_nat r * c + c - 1) with (Z.of_nat r * c + (c - 1)) by lia.
  rewrite Z.div_add_l, (Z.div_small (c - 1)) by lia. by rewrite Z.add_0_r.
Qed.

Lemma alltrue_round `{MpiConst} `{MpiBuffers} {A} n (v : nat -> bool) (K : nat -> Z -> proc A) ch :
  (0 < n)%nat ->
  step (Cfg (running n (fun r => mpi* x := kvtree_alltrue (bool_int (v r)) in K r x)) ch)
       (Cfg (running n (fun r => K r (bool_int (forallb v (seq 0 n))))) ch).
Proof.
  intros Hn. unfold kvtree_alltrue. cbn [proc_bind].
  pose proof (running_reduce n AllAnd (fun r => [bool_int (v r)])
    (fun r w => mpi* x := (mpi* v := proc_ret w in Stop (one_number v)) in K r x) ch Hn) as Hs.
  erewrite <- (running_ext n _ (fun r => K r (bool_int (forallb v (seq 0 n))))); [exact Hs|].
  intros r _. cbn beta. by rewrite reduced_and.
Qed.

(** C36. [pick_writer] on every process, for sizes with a sum below [2 ^ 63]: every
    run ends and every process then has the rank of its writer, which is the last
    process up to it whose data start a segment (the first process, or one whose
    data end in a later megabyte than they start), and which is its own writer;
    all have the same flag, which says whether the only writer is process 0.
    When the sizes are the same divisor of a megabyte no process but the first
    ever starts a segment, however many there are. *)
Theorem pick_writer_segments `{MpiConst} `{MpiBuffers} n level counts :
  (0 < n)%nat -> Z.of_nat n <= 2 ^ 30 ->
  (forall r, (r < n)%nat -> 0 <= counts r) -> before counts n <= 2 ^ 63 ->
  always (Cfg (running n (fun r => pick_writer (Z.of_nat r) n level (counts r))) ∅)
    (stopped ((fun r => Ok (KVTREE_SUCCESS, Z.of_nat (writer (starts counts) r),
                            bool_int (one_writer n counts))) <$> seq 0 n)) /\
  (forall r, is_writer (starts counts) r (writer (starts counts) r) /\
     writer (starts counts) (writer (starts counts) r) = writer (starts counts) r) /\
  (one_writer n counts = true <-> forall r, (r < n)%nat -> writer (starts counts) r = 0%nat) /\
  (forall c, 0 < c -> (c | segsize) -> (forall r, counts r = c) -> one_writer n counts = true).
Proof.
  intros Hn HN Hc Hb. assert (starts counts 0%nat = true) as Hst0 by done.
  assert (one_writer n counts = true <-> forall r, (r < n)%nat -> writer (starts counts) r = 0%nat) as Hone.
  { unfold one_writer. rewrite bool_decide_eq_true, writer_zero by done.
    split; intros Hw r Hr; apply Hw; lia. }
  split_and!; [|intros r; split; [by apply writer_is|by apply writer_self]|done|].
  - destruct (pick_writer_round n Hn HN level counts (fun _ => proc_ret) ∅ Hc Hb idle_empty)
      as (ch' & _ & Hr).
    eapply ends_in_intro; [|erewrite running_ext; [exact Hr|]|apply running_stopped].
    + by destruct n; [lia|].
    + intros r _. cbn beta. by rewrite proc_bind_ret.
  - intros c Hcp Hd Hcs. apply Hone. intros r Hr.
    assert (forall s, starts counts s = (s =? 0)%nat) as Hst.
    { intros s. rewrite <- (aligned_starts c s) by done. unfold starts.
      assert (forall k, before counts k = before (fun _ => c) k) as Hbc.
      { induction k as [|k IH]; cbn [before]; [done|]. by rewrite IH, Hcs. }
      by rewrite Hbc, Hcs. }
    destruct (writer_is (starts counts) Hst0 r) as (_ & Hw & _). rewrite Hst in Hw.
    by apply Nat.eqb_eq in Hw.
Qed.

(** Three processes with 600000 bytes each: the second starts a segment, which the
    third belongs to. *)
Example three_writers :
  map (writer (starts (fun _ => 600000))) [0; 1; 2]%nat = [0; 1; 1]%nat.
Proof. vm_compute. reflexivity. Qed.

Lemma pick_writer_segments_witness :
  always (H := mpi_rendezvous) (Cfg (running 3 (fun r => @pick_writer mpi_sample (Z.of_nat r) 3 1 600000)) ∅)
    (stopped ((fun r => Ok (KVTREE_SUCCESS, Z.of_nat (writer (starts (fun _ => 600000)) r),
                            bool_int (one_writer 3 (fun _ => 600000)))) <$> seq 0 3)) /\
  (forall r, is_writer (starts (fun _ => 600000)) r (writer (starts (fun _ => 600000)) r) /\
     writer (starts (fun _ => 600000)) (writer (starts (fun _ => 600000)) r)
       = writer (starts (fun _ => 600000)) r) /\
  (one_writer 3 (fun _ => 600000) = true <->
     forall r, (r < 3)%nat -> writer (starts (fun _ => 600000)) r = 0%nat) /\
  (forall c, 0 < c -> (c | segsize) -> (forall r : nat, 600000 = c) -> one_writer 3 (fun _ => 600000) = true).
Proof.
  apply (@pick_writer_segments mpi_sample mpi_rendezvous 3 1 (fun _ => 600000)).
  - lia.
  - lia.
  - lia.
  - vm_compute. discriminate.
Defined.
