(* ===== verification/Items.v ===== *)
(** One item per process: a tree that goes from one process to another.  The
    union of all items bounds the size of every tree in an exchange of them
    ([stack_size]), and [items_exchange] says what
    [kvtree_exchange_direction] does with them, in either direction. *)

From stdpp Require Import relations.
From S2P Require Import Prelude CLib ByteOrder Kvtree KvtreeSpec KvtreeMap KvtreeMerge Pack.
From S2P Require Import Format Paths GatherSpec Net Mpi Exchange Bruck Writers.

(** ** The size of a union *)
Definition elem_size (o : option kvtree_elem) : nat := from_option (fun e => length (encode_elem e)) 0%nat o.

Definition elem_of_key (l : list kvtree_elem) (k : option cstring) (o : option kvtree_elem) : Prop :=
  forall x, o = Some x -> x ∈ l /\ key x = k.

Lemma take_elem l k o :
  elem_of_key l k o ->
  exists l2, elems_size l = (elem_size o + elems_size l2)%nat /\
    forall k2 o2, k2 <> k -> elem_of_key l k2 o2 -> elem_of_key l2 k2 o2.
Proof.
  intros Ho. destruct o as [e|]; [|by exists l].
  destruct (Ho e eq_refl) as [He Hk]. apply elem_of_Permutation in He as [l2 HP].
  exists l2. split; [by rewrite (elems_size_perm _ _ HP), elems_size_cons|].
  intros k2 o2 Hne Ho2 x Hx. destruct (Ho2 x Hx) as [Hin Hkx]. split; [|done].
  rewrite HP in Hin. apply elem_of_cons in Hin as [->|]; [congruence|done].
Qed.

Lemma elems_size_union l : forall la lb,
  NoDup (map key l) ->
  (forall e, e ∈ l -> exists oa ob, elem_of_key la (key e) oa /\ elem_of_key lb (key e) ob /\
     (length (encode_elem e) <= elem_size oa + elem_size ob)%nat) ->
  (elems_size l <= elems_size la + elems_size lb)%nat.
Proof.
  induction l as [|e l IH]; intros la lb Hn Hl; [unfold elems_size; simpl; lia|].
  apply list.NoDup_cons in Hn as [He Hn].
  destruct (Hl e (list_elem_of_here _ _)) as (oa & ob & Ha & Hb & Hle).
  destruct (take_elem _ _ _ Ha) as (la2 & -> & Ha2). destruct (take_elem _ _ _ Hb) as (lb2 & -> & Hb2).
  rewrite elems_size_cons. assert (elems_size l <= elems_size la2 + elems_size lb2)%nat; [|lia].
  apply IH; [done|]. intros e2 He2.
  destruct (Hl e2 (list_elem_of_further _ _ _ He2)) as (oa2 & ob2 & Hoa & Hob & Hle2).
  assert (key e2 <> key e) by (intros E; apply He; rewrite <- E; by apply (list_elem_of_fmap_2 key)).
  exists oa2, ob2. split_and!; [by apply Ha2|by apply Hb2|done].
Qed.

Lemma has_path_default h p : has_path (default kvtree_new h) p = has_path_opt h p.
Proof. destruct h; [done|]. rewrite has_path_opt_None. by destruct p. Qed.

Lemma encode_default h : length (encode (default kvtree_new h)) = length (encode_opt h).
Proof. by destruct h. Qed.

Lemma wf_default h : wf_opt h -> wf (default kvtree_new h).
Proof. destruct h; [done|]. intros _. apply wf_new. Qed.

(** The element of a key, when the tree has it. *)
Lemma child_elem_of_key t k o :
  wf t -> c_str k = k -> o = (Elem (Some k) <$> child t k) -> elem_of_key (lh_first t) (Some k) o.
Proof.
  intros Hwf Hk -> x. destruct (child t k) as [h|] eqn:Hc; [|done]. intros [= <-].
  apply child_elem in Hc; [|done]. by rewrite Hk in Hc.
Qed.

Lemma union_size t : forall a b,
  wf t -> wf a -> wf b -> (forall p, has_path t p = true -> has_path a p || has_path b p = true) ->
  (tree_pack_size t <= tree_pack_size a + tree_pack_size b)%nat.
Proof.
  induction t as [l IH] using kvtree_rect'. intros a b Hwf Hwa Hwb Hsub.
  assert (elems_size l <= elems_size (lh_first a) + elems_size (lh_first b))%nat as Hle.
  2:{ rewrite !tree_pack_size_encode. destruct a as [la], b as [lb]. rewrite !encode_eq, !length_app, !be_split_length.
      unfold elems_size in Hle. cbn [lh_first] in Hle. lia. }
  apply elems_size_union; [by apply wf_iff in Hwf as [? _]|]. intros e He.
  pose proof (wf_elem_in _ _ Hwf He) as [Hk Hh]%wf_elem_iff.
  destruct (key e) as [k|] eqn:Ek; [|done]. destruct (has_path_key _ _ _ Hwf He Ek) as [Hc Hck].
  exists (Elem (Some k) <$> child a k), (Elem (Some k) <$> child b k).
  split_and!; [by apply child_elem_of_key|by apply child_elem_of_key|].
  destruct e as [k0 h]. simpl in Ek, Hh, Hc. subst k0. rewrite encode_elem_eq, length_app.
  assert (forall p, has_path_opt h p = true ->
    match child a k with Some x => has_path_opt x p | None => false end
    || match child b k with Some x => has_path_opt x p | None => false end = true) as Hp.
  { intros p Hp. rewrite <- !has_path_child by done. apply Hsub. by rewrite has_path_child, Hc by done. }
  assert (forall x y, wf_opt x -> wf_opt y ->
    (forall p, has_path_opt h p = true -> has_path_opt x p || has_path_opt y p = true) ->
    (length (encode_opt h) <= length (encode_opt x) + length (encode_opt y))%nat) as Hu.
  { intros x y Hx Hy Hxy. rewrite <- (encode_default x), <- (encode_default y).
    destruct h as [c|]; [|destruct (default kvtree_new x); cbn [encode_opt]; rewrite encode_eq, length_app, !be_split_length; lia].
    rewrite <- !tree_pack_size_encode. eapply list.Forall_forall in IH; [|exact He]. cbn in IH.
    cbn [encode_opt]. rewrite <- tree_pack_size_encode.
    apply IH; [done|by apply wf_default|by apply wf_default|]. intros p. rewrite !has_path_default. apply Hxy. }
  assert (forall x, wf_opt x -> (forall p, has_path_opt h p = true -> has_path_opt x p = true) ->
    (length (encode_opt h) <= length (encode_opt x))%nat) as Hs.
  { intros x Hx Hxs. rewrite <- (encode_default x).
    destruct h as [c|]; [|destruct (default kvtree_new x); cbn [encode_opt]; rewrite encode_eq, length_app, !be_split_length; lia].
    cbn [encode_opt]. rewrite <- !tree_pack_size_encode. apply sub_paths_size; [done|by apply wf_default|].
    intros p. rewrite has_path_default. apply Hxs. }
  destruct (child a k) as [ha|] eqn:Ha, (child b k) as [hb|] eqn:Hb; cbn [elem_size fmap option_fmap option_map from_option];
    rewrite ?encode_elem_eq, ?length_app; cbn [default id].
  - pose proof (Hu ha hb (wf_child _ _ _ Hwa Ha) (wf_child _ _ _ Hwb Hb) Hp). lia.
  - assert (length (encode_opt h) <= length (encode_opt ha))%nat; [|lia].
    apply Hs; [by apply (wf_child _ _ _ Hwa Ha)|]. intros p Hpp. specialize (Hp p Hpp). by rewrite orb_false_r in Hp.
  - assert (length (encode_opt h) <= length (encode_opt hb))%nat; [|lia].
    apply Hs; [by apply (wf_child _ _ _ Hwb Hb)|]. intros p Hpp. by specialize (Hp p Hpp).
  - specialize (Hp []). rewrite has_path_opt_nil in Hp. by specialize (Hp eq_refl).
Qed.

(** ** Chains and stacks *)

(** [t] at the end of [q]. *)
Fixpoint chain (q : path) (t : kvtree) : kvtree :=
  match q with
  | [] => t
  | k :: q => KVTree [Elem (Some k) (Some (chain q t))]
  end.

Lemma chain_path q t p : has_path (chain q t) p = graft q (has_path t) p.
Proof.
  revert p. induction q as [|k q IH]; intros p; [done|]. destruct p as [|k2 p]; [done|].
  cbn [chain]. rewrite list_path. cbn [existsb]. rewrite orb_false_r. unfold elem_path. cbn [key hash graft].
  by rewrite <- IH.
Qed.

Lemma chain_wf q t : Forall nul_free q -> wf t -> wf (chain q t).
Proof.
  intros Hq Ht. induction Hq as [|k q Hk Hq IH]; [done|]. cbn [chain]. apply wf_iff. cbn. split.
  - apply list.NoDup_singleton.
  - constructor; [|constructor]. apply wf_elem_iff. by split.
Qed.

Lemma chain_size k q t :
  Z.of_nat (tree_pack_size (chain (k :: q) t)) = Z.of_nat (strlen k) + 5 + Z.of_nat (tree_pack_size (chain q t)).
Proof.
  rewrite !tree_pack_size_encode. cbn [chain]. rewrite encode_eq. cbn [map concat].
  rewrite app_nil_r, encode_elem_eq, !length_app, be_split_length. cbn [default id encode_opt length].
  unfold strlen. lia.
Qed.

(** The union of the trees there are among [m 0], ..., [m (n - 1)]. *)
Fixpoint stack (m : nat -> option kvtree) (n : nat) : kvtree :=
  match n with
  | O => kvtree_new
  | S n => match m n with Some t => merged (stack m n) t | None => stack m n end
  end.

Lemma stack_wf m n : wf (stack m n).
Proof. induction n as [|n IH]; [apply wf_new|]. cbn [stack]. destruct (m n); [by apply merged_wf|done]. Qed.

Lemma stack_path m n p :
  has_path (stack m n) p = true <->
  p = [] \/ exists s x, (s < n)%nat /\ m s = Some x /\ has_path x p = true.
Proof.
  induction n as [|n IH]; cbn [stack].
  - rewrite has_path_new. split.
    + destruct p; [by left|done].
    + intros [->|(s & x & Hs & _)]; [done|lia].
  - assert (has_path (match m n with Some x => merged (stack m n) x | None => stack m n end) p = true <->
      has_path (stack m n) p = true \/ exists x, m n = Some x /\ has_path x p = true) as ->.
    { destruct (m n) as [x|]; [rewrite merged_path, orb_true_iff by apply stack_wf|].
      - split; [intros [?|?]; [by left|right; by exists x]|intros [?|(y & [= <-] & ?)]; [by left|by right]].
      - split; [by left|by intros [?|(y & ? & _)]]. }
    rewrite IH. split.
    + intros [[->|(s & x & Hs & Hx)]|(x & Hx)]; [by left|right; exists s, x; split; [lia|done]
                                               |right; exists n, x; split; [lia|done]].
    + intros [->|(s & x & Hs & Hx)]; [by left; left|]. destruct (decide (s = n)) as [->|]; [right; by exists x|].
      left. right. exists s, x. split; [lia|done].
Qed.

Definition opt_size (o : option kvtree) : Z := from_option (fun t => Z.of_nat (tree_pack_size t)) 0 o.

Lemma stack_size m n :
  (forall s x, (s < n)%nat -> m s = Some x -> wf x) ->
  Z.of_nat (tree_pack_size (stack m n)) <= 4 + before (fun s => opt_size (m s)) n.
Proof.
  induction n as [|n IH]; intros Hm; [done|]. cbn [stack before].
  specialize (IH ltac:(intros s x Hs; apply Hm; lia)). destruct (m n) as [x|] eqn:E; cbn [opt_size from_option]; [|lia].
  pose proof (union_size (merged (stack m n) x) (stack m n) x) as Hu.
  assert (tree_pack_size (merged (stack m n) x) <= tree_pack_size (stack m n) + tree_pack_size x)%nat; [|lia].
  apply Hu; [apply merged_wf, stack_wf|apply stack_wf|apply (Hm n); [lia|done]|].
  intros p. by rewrite merged_path by apply stack_wf.
Qed.

Lemma before_le f g n : (forall s, (s < n)%nat -> f s <= g s) -> before f n <= before g n.
Proof.
  induction n as [|n IH]; intros Hfg; [done|]. cbn [before].
  specialize (IH ltac:(intros; apply Hfg; lia)). specialize (Hfg n ltac:(lia)). lia.
Qed.

(** ** Items in an exchange *)
Section items.
Context `{Host} `{MpiConst} `{MpiBuffers}.
Hypothesis Hmalloc : INT_MAX <= malloc_max.
Variable n : nat.
Hypothesis Hn : (0 < n)%nat.
Hypothesis HN : Z.of_nat n <= 2 ^ 30.

(** The items: [s] is there when [V s], and then its tree [t s] goes from [from s]
    to [to s]. *)
Context (V : nat -> bool) (from to : nat -> nat) (t : nat -> kvtree).
Hypothesis Hitems : forall s, (s < n)%nat -> V s = true -> (from s < n)%nat /\ (to s < n)%nat /\ wf (t s).

(** What an item adds to a message, at most. *)
Definition item_cost (s : nat) : Z := if V s then Z.of_nat (tree_pack_size (t s)) + 256 else 0.
Hypothesis Hcost : before item_cost n + 4 <= INT_MAX.

(** The trees [ins] have the items at their senders, under the receivers. *)
Definition sent_items (ins : nat -> kvtree) : Prop :=
  forall r, (r < n)%nat -> wf (ins r) /\
    forall k q, has_path (ins r) (k :: q) = true <->
      exists s, (s < n)%nat /\ V s = true /\ from s = r /\ c_str k = fmt_signed (Z.of_nat (to s)) /\
        has_path (t s) q = true.

(** The trees [outs] have the items at their receivers, under the senders. *)
Definition received_items (outs : nat -> kvtree) : Prop :=
  forall r, (r < n)%nat -> wf (outs r) /\
    forall k q, has_path (outs r) (k :: q) = true <->
      exists s, (s < n)%nat /\ V s = true /\ to s = r /\ c_str k = fmt_signed (Z.of_nat (from s)) /\
        has_path (t s) q = true.

Lemma stack_cost (m : nat -> kvtree) :
  (forall s, (s < n)%nat -> V s = true -> wf (m s) /\
     Z.of_nat (tree_pack_size (m s)) <= Z.of_nat (tree_pack_size (t s)) + 200) ->
  Z.of_nat (tree_pack_size (stack (fun s => if V s then Some (m s) else None) n)) <= 4 + before item_cost n.
Proof.
  intros Hm. etrans.
  - apply stack_size. intros s x Hs. destruct (V s) eqn:HV; [|done]. intros [= <-]. by apply Hm.
  - apply Z.add_le_mono_l, before_le. intros s Hs. unfold item_cost. destruct (V s) eqn:HV; [|done].
    destruct (Hm s Hs HV). cbn [opt_size from_option]. lia.
Qed.

(** All messages of the exchange. *)
Definition message (s : nat) : kvtree :=
  chain [kD; fmt_signed (Z.of_nat (to s)); kS; fmt_signed (Z.of_nat (from s))] (t s).
Definition messages : kvtree := stack (fun s => if V s then Some (message s) else None) n.

Lemma messages_packs : packs messages.
Proof.
  unfold packs. cbn [kvtree_pack_size]. enough (Z.of_nat (tree_pack_size messages) <= 4 + before item_cost n) by lia.
  apply stack_cost. intros s Hs HV. destruct (Hitems s Hs HV) as (_ & _ & Hw). unfold message. split.
  - apply chain_wf; [|done].
    repeat constructor; try apply fmt_signed_nul_free; by apply str_nul_free.
  - rewrite !chain_size. cbn [chain]. unfold strlen. rewrite !c_str_fmt.
    pose proof (fmt_signed_length (Z.of_nat (to s))). pose proof (fmt_signed_length (Z.of_nat (from s))).
    change (length (c_str kD)) with 1%nat. change (length (c_str kS)) with 1%nat. lia.
Qed.

Lemma sent_addressed ins : sent_items ins -> forall r, (r < n)%nat -> addressed_to n (ins r).
Proof.
  intros Hin r Hr k q (s & Hs & HV & _ & Ek & _)%(Hin r Hr). exists (Z.of_nat (to s)). split; [|done].
  destruct (Hitems s Hs HV) as (_ & Hto & _). lia.
Qed.

Lemma sent_within ins : sent_items ins -> within n messages ins.
Proof.
  intros Hin r d q Hr Hd Hp. apply (Hin r Hr) in Hp as (s & Hs & HV & Hf & Ek & Hp). rewrite c_str_fmt in Ek.
  unfold messages. apply stack_path. right. exists s, (message s). split_and!; [done|by rewrite HV|].
  unfold message. rewrite chain_path, Hf. cbn [graft]. rewrite !c_str_fmt, Ek, !bool_decide_eq_true_2 by done. done.
Qed.

(** What a process may have received is no more than all of it. *)
Lemma received_size outs r :
  received_items outs -> (r < n)%nat -> Z.of_nat (tree_pack_size (outs r)) <= 4 + before item_cost n.
Proof.
  intros Hout Hr. destruct (Hout r Hr) as [Hw Hp].
  set (m s := chain [fmt_signed (Z.of_nat (from s))] (t s)).
  transitivity (Z.of_nat (tree_pack_size (stack (fun s => if V s then Some (m s) else None) n))).
  - apply inj_le, sub_paths_size; [done|apply stack_wf|]. intros [|k q]; [intros _; apply stack_path; by left|].
    intros (s & Hs & HV & _ & Ek & Hq)%Hp. apply stack_path. right. exists s, (m s). rewrite HV.
    split_and!; [done..|]. unfold m. rewrite chain_path. cbn [graft].
    by rewrite c_str_fmt, Ek, bool_decide_eq_true_2.
  - apply stack_cost. intros s Hs HV. destruct (Hitems s Hs HV) as (_ & _ & Hwt). split.
    + apply chain_wf; [|done]. repeat constructor. apply fmt_signed_nul_free.
    + unfold m. rewrite chain_size. cbn [chain]. unfold strlen. rewrite c_str_fmt.
      pose proof (fmt_signed_length (Z.of_nat (from s))). lia.
Qed.

Lemma items_exchange {A} dir ins (K : nat -> Z * option kvtree -> proc A) ch :
  sent_items ins -> idle ch ->
  exists outs ch', received_items outs /\ idle ch' /\
    rtc step
      (Cfg (running n (fun r =>
         mpi* x := kvtree_exchange_direction (Z.of_nat r) (Z.of_nat n) (Some (ins r)) (Some kvtree_new) dir in
         K r x)) ch)
      (Cfg (running n (fun r => K r (KVTREE_SUCCESS, Some (outs r)))) ch').
Proof.
  intros Hin Hidle.
  destruct (direction_rounds Hmalloc n dir messages Hn HN (conj (stack_wf _ _) messages_packs) ins
              (fun _ => kvtree_new) (-1) (fun r '(rc, recv) => K r (rc, recv)) ch)
    as (outs & ch' & Hout & Hi & Hr); [| |intros ??; lia|done|].
  { intros r Hr. split_and!; [by apply Hin|by apply sent_addressed|apply wf_new]. }
  { by apply sent_within. }
  exists outs, ch'. split_and!; [|done|].
  - intros r Hrn. destruct (Hout r Hrn) as [Hw Hp]. split; [done|]. intros k q.
    rewrite Hp, has_path_new. unfold received_by. split.
    + intros [?|(s0 & k0 & q0 & Hs0 & [= <- <-] & Ek & Hq)]; [done|].
      apply (Hin s0 Hs0) in Hq as (s & Hs & HV & Hf & Et & Hq). exists s. split_and!; [done..| | |done].
      * rewrite c_str_fmt in Et. destruct (Hitems s Hs HV) as (_ & Hto & _). apply fmt_inj in Et; [lia|int_lia|int_lia].
      * by rewrite Hf.
    + intros (s & Hs & HV & Ht & Ek & Hq). right. destruct (Hitems s Hs HV) as (Hfr & _ & _).
      exists (from s), k, q. split_and!; [done..|]. apply (Hin (from s) Hfr). exists s.
      split_and!; [done..| |done]. by rewrite c_str_fmt, Ht.
  - erewrite running_ext; [exact Hr|]. intros r Hrn. cbn beta. unfold kvtree_exchange_direction.
    rewrite proc_bind_assoc. f_equal. apply FunctionalExtensionality.functional_extensionality. by intros [rc recv].
Qed.
End items.
