(* ===== verification/World.v ===== *)
(** Processes that send messages (Net) and work on files (Io).

    A process is an MPI process that stops with a result or with an operation on
    files to be done before it goes on ([act]).  All processes share the files; each
    has its own descriptors and gets its own replies from the system.  The step
    relation [wstep] interleaves the steps of Net with the operations, one library
    call at a time.

    Operations of different processes on the same file would depend on the order,
    so that [wstep] alone does not have the diamond property.  The proofs name an
    owner for every file ([own]): in [ostep] a process may do an operation only if
    it depends on its own files and changes no others ([framed]).  This relation has
    the diamond property, and if one of its runs comes to an end then every run of
    [wstep] is one of its runs ([owned_always]). *)

From Stdlib Require Import FunctionalExtensionality Classical.
From stdpp Require Import relations.
From S2P Require Import Prelude Io Net.

(** ** Processes with file operations *)
Inductive act (B : Type) :=
| Return (b : B)
| File (m : os -> outcome (proc (act B) * os)).
Arguments Return {B}.
Arguments File {B}.

Definition done {B} (b : B) : proc (act B) := Stop (Ok (Return b)).

Definition file_op {A B} (m : io A) (k : A -> proc (act B)) : proc (act B) :=
  Stop (Ok (File (fun s => let* (a, s') := m s in Ok (k a, s')))).

Section bind.
Context {B C : Type} (f : B -> proc (act C)).

Fixpoint act_bind (a : act B) : proc (act C) :=
  match a with
  | Return b => f b
  | File m =>
      Stop (Ok (File (fun s =>
        match m s with
        | Ok (p, s') =>
            Ok ((fix go (p : proc (act B)) : proc (act C) :=
                   match p with
                   | Stop (Ok a) => act_bind a
                   | Stop Abort => Stop Abort
                   | Stop Undef => Stop Undef
                   | Stop NoFuel => Stop NoFuel
                   | Post c sends recv k => Post c sends recv (fun m => go (k m))
                   | Reduce op v k => Reduce op v (fun w => go (k w))
                   end) p, s')
        | Abort => Abort
        | Undef => Undef
        | NoFuel => NoFuel
        end)))
  end.
End bind.

Definition run_bind {B C} (p : proc (act B)) (f : B -> proc (act C)) : proc (act C) :=
  proc_bind p (act_bind f).

Notation "'file*' x ':=' m 'in' k" := (file_op m (fun x => k))
  (at level 10, x pattern, m at level 100, k at level 200) : proc_scope.
Notation "'run*' x ':=' m 'in' k" := (run_bind m (fun x => k))
  (at level 10, x pattern, m at level 100, k at level 200) : proc_scope.

Lemma run_bind_done {B C} (f : B -> proc (act C)) b : run_bind (done b) f = f b.
Proof. done. Qed.

Lemma run_bind_stop {B C} (f : B -> proc (act C)) (o : outcome (act B)) :
  run_bind (Stop o) f = match o with
                        | Ok a => act_bind f a
                        | Abort => Stop Abort | Undef => Stop Undef | NoFuel => Stop NoFuel
                        end.
Proof. done. Qed.

Lemma act_bind_file {B C} (f : B -> proc (act C)) m :
  act_bind f (File m)
  = Stop (Ok (File (fun s => let* (p, s') := m s in Ok (proc_bind p (act_bind f), s')))).
Proof.
  cbn [act_bind]. do 3 f_equal. apply functional_extensionality. intros s.
  destruct (m s) as [[p s']| | |]; [|done..]. cbn [obind]. do 2 f_equal.
  generalize p. fix IH 1. intros [[a| | |]|c sends recv k|op v k]; cbn [proc_bind]; try done.
  - f_equal. apply functional_extensionality. intros x. apply IH.
  - f_equal. apply functional_extensionality. intros x. apply IH.
Qed.

Lemma run_bind_file {A B C} (f : B -> proc (act C)) (m : io A) k :
  run_bind (file_op m k) f = file_op m (fun a => run_bind (k a) f).
Proof.
  unfold file_op, run_bind. cbn [proc_bind]. rewrite act_bind_file. do 3 f_equal.
  apply functional_extensionality. intros s. by destruct (m s) as [[a s']| | |].
Qed.

Lemma run_bind_mpi {A B C} (f : B -> proc (act C)) (p : proc A) k :
  run_bind (proc_bind p k) f = proc_bind p (fun a => run_bind (k a) f).
Proof. apply proc_bind_assoc. Qed.

Lemma run_bind_assoc {B C E} (p : proc (act B)) (f : B -> proc (act C)) (g : C -> proc (act E)) :
  run_bind (run_bind p f) g = run_bind p (fun a => run_bind (f a) g).
Proof.
  unfold run_bind. rewrite proc_bind_assoc. f_equal. apply functional_extensionality.
  fix IHa 1. intros [b|m]; [done|]. rewrite !act_bind_file. cbn [proc_bind]. rewrite act_bind_file.
  do 3 f_equal. apply functional_extensionality. intros s. destruct (m s) as [[p1 s1]| | |]; [|done..].
  cbn [obind]. do 2 f_equal. generalize p1. fix IHp 1.
  intros [[a| | |]|c sends recv k|op v k]; cbn [proc_bind]; try done.
  - f_equal. apply functional_extensionality. intros x. apply IHp.
  - f_equal. apply functional_extensionality. intros x. apply IHp.
Qed.

Lemma run_bind_ret {B} (p : proc (act B)) : run_bind p done = p.
Proof.
  assert (forall a, act_bind (@done B) a = Stop (Ok a)) as Ha.
  { fix IHa 1. intros [b|m]; [done|]. rewrite act_bind_file. do 3 f_equal.
    apply functional_extensionality. intros s. destruct (m s) as [[p1 s1]| | |]; [|done..].
    cbn [obind]. do 2 f_equal. generalize p1. fix IHp 1.
    intros [[a| | |]|c sends recv k|op v k]; cbn [proc_bind]; try done.
    - f_equal. apply functional_extensionality. intros x. apply IHp.
    - f_equal. apply functional_extensionality. intros x. apply IHp. }
  unfold run_bind. rewrite <- (proc_bind_ret p) at 2. f_equal.
  apply functional_extensionality. apply Ha.
Qed.

(** ** The state of all processes and of the files *)
Notation disk := (gmap cstring (list byte)).

Record world A := World { conf : config (act A); files_of : disk; locals : list os }.
Arguments World {A}.
Arguments conf {A}.
Arguments files_of {A}.
Arguments locals {A}.

(** The local state of a process without the files. *)
Definition own_state (s : os) : os := set_files ∅ s.

Section step.
Context {A : Type} `{MpiBuffers}.

Inductive wstep : world A -> world A -> Prop :=
| wstep_mpi c c' D L : step c c' -> wstep (World c D L) (World c' D L)
| wstep_file ps ch D L i m s p s' :
    ps !! i = Some (Run (Stop (Ok (File m)))) -> L !! i = Some s ->
    m (set_files D s) = Ok (p, s') ->
    wstep (World (Cfg ps ch) D L) (World (Cfg (<[i := Run p]> ps) ch) (files s') (<[i := own_state s']> L))
| wstep_end ps ch D L i m s (o : outcome (act A)) :
    ps !! i = Some (Run (Stop (Ok (File m)))) -> L !! i = Some s ->
    match m (set_files D s), o with
    | Abort, Abort | Undef, Undef | NoFuel, NoFuel => True
    | _, _ => False
    end ->
    wstep (World (Cfg ps ch) D L) (World (Cfg (<[i := Run (Stop o)]> ps) ch) D L).

(** Every run from [w] comes to an end, and there [Q] holds. *)
Definition walways (w : world A) (Q : world A -> Prop) : Prop :=
  sn wstep w /\ forall w', rtc wstep w w' -> nf wstep w' -> Q w'.

End step.

(** ** Operations that depend on some of the files and change no others *)
Section frame.
Variable P : cstring -> Prop.
Context `{!forall f, Decision (P f)}.

Definition agree (D F : disk) : Prop := forall f, P f -> D !! f = F !! f.

(** [F] where [P] holds and [D] elsewhere. *)
Definition over (F D : disk) : disk :=
  filter (fun x => P x.1) F ∪ filter (fun x => ~ P x.1) D.

Lemma over_lookup F D f : over F D !! f = if decide (P f) then F !! f else D !! f.
Proof.
  unfold over. rewrite lookup_union. case_decide as Hf.
  - rewrite (map_lookup_filter_None_2 (fun x : cstring * list byte => ~ P x.1)) by (right; naive_solver).
    rewrite right_id by apply _. destruct (F !! f) eqn:E.
    + by apply map_lookup_filter_Some_2.
    + apply map_lookup_filter_None_2. by left.
  - rewrite (map_lookup_filter_None_2 (fun x : cstring * list byte => P x.1)) by (right; naive_solver).
    rewrite left_id by apply _. destruct (D !! f) eqn:E.
    + by apply map_lookup_filter_Some_2.
    + apply map_lookup_filter_None_2. by left.
Qed.

Lemma over_agree F D : agree (over F D) F.
Proof. intros f Hf. by rewrite over_lookup, decide_True. Qed.

Lemma over_off F D f : ~ P f -> over F D !! f = D !! f.
Proof. intros Hf. by rewrite over_lookup, decide_False. Qed.

Lemma over_over F F' D : over F (over F' D) = over F D.
Proof. apply map_eq. intros f. rewrite !over_lookup. by case_decide. Qed.

Lemma over_same F D : agree D F -> over F D = D.
Proof. intros Ha. apply map_eq. intros f. rewrite over_lookup. case_decide; [|done]. by rewrite Ha. Qed.

Lemma over_id F D : (forall f, ~ P f -> F !! f = D !! f) -> over F D = F.
Proof. intros Ha. apply map_eq. intros f. rewrite over_lookup. case_decide; [done|]. by rewrite Ha. Qed.

(** All descriptors are for these files. *)
Definition inside (s : os) : Prop := forall n d, fds s !! n = Some d -> P (d_file d).

Lemma set_files_twice F F' s : set_files F (set_files F' s) = set_files F s.
Proof. done. Qed.

Lemma set_files_same s : set_files (files s) s = s.
Proof. by destruct s. Qed.

Definition framed {A} (m : io A) (s : os) : Prop :=
  match m s with
  | Ok (x, s') =>
      inside s' /\ (forall f, ~ P f -> files s' !! f = files s !! f) /\
      forall D, agree D (files s) -> m (set_files D s) = Ok (x, set_files (over (files s') D) s')
  | Abort => forall D, agree D (files s) -> m (set_files D s) = Abort
  | Undef => forall D, agree D (files s) -> m (set_files D s) = Undef
  | NoFuel => forall D, agree D (files s) -> m (set_files D s) = NoFuel
  end.

Lemma framed_ret {A} (a : A) s : inside s -> framed (io_ret a) s.
Proof. intros Hi. unfold framed, io_ret. split_and!; [done..|]. intros D Ha. by rewrite over_same. Qed.

Lemma framed_bind {A B} (m : io A) (f : A -> io B) s :
  framed m s -> (forall a s', m s = Ok (a, s') -> inside s' -> framed (f a) s') ->
  framed (io_bind m f) s.
Proof.
  unfold framed, io_bind. destruct (m s) as [[a s1]| | |]; cbn [obind].
  2, 3, 4: intros Hm _ D Ha; by rewrite Hm.
  intros (Hi1 & Hoff1 & Hm) Hf. specialize (Hf a s1 eq_refl Hi1).
  destruct (f a s1) as [[b s2]| | |].
  2, 3, 4: intros D Ha; rewrite Hm by done; cbn [obind];
    rewrite Hf by apply over_agree; done.
  destruct Hf as (Hi2 & Hoff2 & Hf). split_and!; [done| |].
  - intros g Hg. by rewrite Hoff2, Hoff1.
  - intros D Ha. rewrite Hm by done. cbn [obind].
    rewrite Hf by apply over_agree. by rewrite over_over.
Qed.

Lemma framed_lift {A} (o : outcome A) s : inside s -> framed (io_lift o) s.
Proof.
  intros Hi. unfold framed, io_lift. destruct o; cbn [obind]; try done.
  split_and!; [done..|]. intros D Ha. by rewrite over_same.
Qed.

Lemma framed_agree {A} (m : io A) s D :
  agree D (files s) -> framed m s -> framed m (set_files D s).
Proof.
  intros Ha. unfold framed at 1. destruct (m s) as [[x s']| | |] eqn:E.
  2, 3, 4: intros Hm; unfold framed; rewrite Hm by done; intros D' Ha'; apply Hm;
    intros f Hf; rewrite (Ha' f Hf); by apply Ha.
  intros (Hi & Hoff & Hm). unfold framed. rewrite Hm by done. split_and!; [done| |].
  - intros f Hf. cbn. by rewrite over_off.
  - intros D' Ha'. change (set_files D' (set_files D s)) with (set_files D' s). rewrite Hm.
    + replace (over (files (set_files (over (files s') D) s')) D') with (over (files s') D'); [done|].
      apply map_eq. intros f. rewrite !over_lookup. cbn [files set_files].
      rewrite over_lookup. by case_decide.
    + intros f Hf. rewrite (Ha' f Hf). by apply Ha.
Qed.
End frame.

Arguments framed P {_ _}.

(** ** Owned steps *)
Section owned.
Context {A : Type} `{MpiBuffers}.
Variable own : cstring -> option nat.

Definition mine (i : nat) (f : cstring) : Prop := own f = Some i.
#[local] Instance mine_dec i f : Decision (mine i f) := decide (own f = Some i).

Inductive ostep : world A -> world A -> Prop :=
| ostep_mpi c c' D L : step c c' -> ostep (World c D L) (World c' D L)
| ostep_file ps ch D L i m s p s' :
    ps !! i = Some (Run (Stop (Ok (File m)))) -> L !! i = Some s ->
    framed (mine i) m (set_files D s) -> m (set_files D s) = Ok (p, s') ->
    ostep (World (Cfg ps ch) D L) (World (Cfg (<[i := Run p]> ps) ch) (files s') (<[i := own_state s']> L)).

Lemma ostep_wstep w w' : ostep w w' -> wstep w w'.
Proof. intros []; [by constructor|by econstructor]. Qed.

(** What [framed] says of one operation. *)
Lemma framed_ok {B} i (m : io B) s x s' :
  framed (mine i) m s -> m s = Ok (x, s') ->
  (forall f, ~ mine i f -> files s' !! f = files s !! f) /\
  forall D, agree (mine i) D (files s) -> m (set_files D s) = Ok (x, set_files (over (mine i) (files s') D) s').
Proof. unfold framed. intros Hf E. rewrite E in Hf. by destruct Hf as (_ & ? & ?). Qed.

Lemma mine_ne i j f : i <> j -> mine j f -> ~ mine i f.
Proof. unfold mine. congruence. Qed.

(** An operation of [j] after one of [i]. *)
Lemma file_after i j (mi mj : os -> outcome (proc (act A) * os)) D si sj pi si' pj sj' :
  i <> j ->
  framed (mine i) mi (set_files D si) -> mi (set_files D si) = Ok (pi, si') ->
  framed (mine j) mj (set_files D sj) -> mj (set_files D sj) = Ok (pj, sj') ->
  framed (mine j) mj (set_files (files si') sj) /\
  mj (set_files (files si') sj) = Ok (pj, set_files (over (mine j) (files sj') (files si')) sj').
Proof.
  intros Hij Fi Ei Fj Ej. destruct (framed_ok _ _ _ _ _ Fi Ei) as [Hoff _].
  assert (agree (mine j) (files si') (files (set_files D sj))) as Ha.
  { intros f Hf. rewrite Hoff by (by apply (mine_ne i j)). done. }
  split.
  - change (set_files (files si') sj) with (set_files (files si') (set_files D sj)).
    by apply framed_agree.
  - change (set_files (files si') sj) with (set_files (files si') (set_files D sj)).
    by apply (framed_ok _ _ _ _ _ Fj Ej).
Qed.

Lemma over_swap (i j : nat) (D : disk) (si' sj' : os) :
  i <> j ->
  (forall f, ~ mine i f -> files si' !! f = D !! f) -> (forall f, ~ mine j f -> files sj' !! f = D !! f) ->
  over (mine j) (files sj') (files si') = over (mine i) (files si') (files sj').
Proof.
  intros Hij Hi Hj. apply map_eq. intros f. rewrite !over_lookup.
  repeat case_decide; try done.
  - exfalso. by apply (mine_ne i j f).
  - by rewrite Hi, Hj.
Qed.

Lemma local_step_other i j (ps : list (state (act A))) ch s ch' x :
  i <> j -> local_step j (Cfg ps ch) s ch' -> local_step j (Cfg (<[i := x]> ps) ch) s ch'.
Proof. intros Hij. inversion 1; subst; econstructor; try done; by rewrite list_lookup_insert_ne. Qed.

(** A process that waits for a file takes no part in a step of the others. *)
Lemma mpi_beside_file (ps : list (state (act A))) ch i m c' :
  ps !! i = Some (Run (Stop (Ok (File m)))) -> step (Cfg ps ch) c' ->
  exists j s ch', i <> j /\ local_step j (Cfg ps ch) s ch' /\ c' = Cfg (<[j := s]> ps) ch'.
Proof.
  intros Hi [(j & s & ch' & Hl & ->)|(op & vks & _ & E & _)]%step_cases.
  - exists j, s, ch'. split_and!; [|done|done]. intros ->.
    apply local_busy in Hl as (s0 & Hs0 & Hb). cbn in Hs0. rewrite Hi in Hs0. by injection Hs0 as <-.
  - cbn in E. rewrite E in Hi. by apply list_lookup_fmap_Some in Hi as (x & ? & _).
Qed.

Lemma mpi_file_commute (ps : list (state (act A))) ch i m c' D L s p s' :
  ps !! i = Some (Run (Stop (Ok (File m)))) -> L !! i = Some s ->
  framed (mine i) m (set_files D s) -> m (set_files D s) = Ok (p, s') ->
  step (Cfg ps ch) c' ->
  exists w, ostep (World c' D L) w /\
    ostep (World (Cfg (<[i := Run p]> ps) ch) (files s') (<[i := own_state s']> L)) w.
Proof.
  intros Hi HL Fm Em (j & x & ch' & Hij & Hl & ->)%(mpi_beside_file _ _ i m); [|done].
  eexists. split.
  - eapply ostep_file; [by rewrite list_lookup_insert_ne|exact HL|exact Fm|exact Em].
  - rewrite list_insert_insert_ne by done. apply ostep_mpi.
    by apply local_is_step, local_step_other.
Qed.

Lemma ostep_diamond w w1 w2 :
  ostep w w1 -> ostep w w2 -> w1 = w2 \/ exists w3, ostep w1 w3 /\ ostep w2 w3.
Proof.
  intros H1 H2.
  inversion H1 as [c c1 D L Hc1|ps ch D L i mi si pi si' Hi HLi Fi Ei]; subst;
  inversion H2 as [c' c2 D' L' Hc2|ps' ch' D' L' j mj sj pj sj' Hj HLj Fj Ej]; subst.
  - destruct (step_diamond _ _ _ Hc1 Hc2) as [->|(c3 & H31 & H32)]; [by left|].
    right. exists (World c3 D L). split; by constructor.
  - right. destruct (mpi_file_commute _ _ _ _ _ _ _ _ _ _ Hj HLj Fj Ej Hc1) as (w & ? & ?). by exists w.
  - right. destruct (mpi_file_commute _ _ _ _ _ _ _ _ _ _ Hi HLi Fi Ei Hc2) as (w & ? & ?). by exists w.
  - destruct (decide (i = j)) as [->|Hij]; [left; congruence|]. right.
    destruct (file_after i j _ _ _ _ _ _ _ _ _ Hij Fi Ei Fj Ej) as [Fj2 Ej2].
    destruct (file_after j i _ _ _ _ _ _ _ _ _ (not_eq_sym Hij) Fj Ej Fi Ei) as [Fi2 Ei2].
    eexists. split.
    + eapply ostep_file; [by rewrite list_lookup_insert_ne|by rewrite list_lookup_insert_ne|exact Fj2|exact Ej2].
    + destruct (framed_ok _ _ _ _ _ Fi Ei) as [Oi _], (framed_ok _ _ _ _ _ Fj Ej) as [Oj _].
      cbn [files set_files] in Oi, Oj |- *. rewrite (over_swap i j D) by done.
      rewrite (list_insert_insert_ne ps), (list_insert_insert_ne L) by done.
      eapply ostep_file in Ei2; [exact Ei2|by rewrite list_lookup_insert_ne|by rewrite list_lookup_insert_ne|exact Fi2].
Qed.

(** ** From owned runs to all runs *)

(** Every process has returned. *)
Definition finished (bs : list A) (w : world A) : Prop :=
  stopped ((fun b => Ok (Return b)) <$> bs) (conf w).

Lemma finished_lookup bs w i :
  finished bs w -> (i < length (procs (conf w)))%nat ->
  exists b, procs (conf w) !! i = Some (Run (Stop (Ok (Return b)))).
Proof.
  unfold finished, stopped. intros ->. rewrite !length_fmap. intros Hi.
  apply lookup_lt_is_Some in Hi as [b Hb]. exists b. by rewrite !list_lookup_fmap, Hb.
Qed.

Lemma finished_nf bs w : bs <> [] -> finished bs w -> nf wstep w.
Proof.
  intros Hne Hf [w' Hst].
  assert (forall i m, procs (conf w) !! i = Some (Run (Stop (Ok (File m)))) -> False) as Hno.
  { intros i m Hi. destruct (finished_lookup bs w i Hf) as [b Hb]; [by eapply lookup_lt_Some|congruence]. }
  destruct Hst as [c c' D L Hc|ps ch D L i m s p s' Hi|ps ch D L i m s o Hi].
  - eapply stopped_nf; [|exact Hf|by eexists]. by destruct bs.
  - by apply (Hno i m).
  - by apply (Hno i m).
Qed.

(** A process whose next operation is not its own, or fails, never goes on. *)
Definition stuck_file (w : world A) (i : nat) (m : os -> outcome (proc (act A) * os)) (s : os) : Prop :=
  procs (conf w) !! i = Some (Run (Stop (Ok (File m)))) /\ locals w !! i = Some s /\
  forall p s', m (set_files (files_of w) s) = Ok (p, s') -> ~ framed (mine i) m (set_files (files_of w) s).

Lemma ostep_length w w' : ostep w w' -> length (procs (conf w')) = length (procs (conf w)).
Proof.
  intros [c c' D L Hc|]; cbn; [|by rewrite length_insert].
  apply step_cases in Hc as [(i & s & ch' & _ & ->)|(op & vks & _ & E & ->)]; cbn.
  - by rewrite length_insert.
  - by rewrite E, length_imap, length_fmap.
Qed.

(** What a framed operation of another process does not change. *)
Lemma other_framed i j (m : os -> outcome (proc (act A) * os)) D D' s :
  (forall f, mine i f -> D' !! f = D !! f) ->
  (exists p s', m (set_files D' s) = Ok (p, s') /\ framed (mine i) m (set_files D' s)) ->
  i <> j -> exists p s', m (set_files D s) = Ok (p, s') /\ framed (mine i) m (set_files D s).
Proof.
  intros Ha (p & s' & Em & Fm) _.
  assert (agree (mine i) D (files (set_files D' s))) as Hag by (intros f Hf; cbn; by rewrite Ha).
  exists p. eexists. split.
  - change (set_files D s) with (set_files D (set_files D' s)). by apply (framed_ok _ _ _ _ _ Fm Em).
  - change (set_files D s) with (set_files D (set_files D' s)). by apply framed_agree.
Qed.

Lemma stuck_stays w w' i m s : stuck_file w i m s -> ostep w w' -> stuck_file w' i m s.
Proof.
  intros (Hi & HL & Hbad) Hst. destruct Hst as [c c' D L Hc|ps ch D L j mj sj p s' Hj HLj Fj Ej]; cbn in *.
  - destruct c as [ps ch]. cbn in Hi.
    destruct (mpi_beside_file _ _ _ _ _ Hi Hc) as (j & x & ch' & Hij & _ & ->).
    split_and!; [cbn; by rewrite list_lookup_insert_ne|done|done].
  - destruct (decide (i = j)) as [->|Hij].
    { exfalso. rewrite Hi in Hj. injection Hj as <-. rewrite HL in HLj. injection HLj as <-.
      by apply (Hbad _ _ Ej). }
    split_and!; [cbn; by rewrite list_lookup_insert_ne|cbn; by rewrite list_lookup_insert_ne|].
    cbn. intros p2 s2 E2 F2.
    destruct (framed_ok _ _ _ _ _ Fj Ej) as [Hoff _].
    destruct (other_framed i j m D (files s') s) as (p3 & s3 & E3 & F3).
    + intros f Hf. rewrite Hoff by (by apply (mine_ne j i)). done.
    + by exists p2, s2.
    + done.
    + by apply (Hbad _ _ E3).
Qed.

Lemma stuck_unfinished w w' i m s bs : stuck_file w i m s -> rtc ostep w w' -> ~ finished bs w'.
Proof.
  intros Hs Hr. assert (stuck_file w' i m s) as (Hi & _ & _).
  { clear bs. induction Hr as [|w w1 w2 Hst Hr IH]; [done|]. apply IH. by eapply stuck_stays. }
  intros Hf. destruct (finished_lookup bs w' i Hf) as [b Hb]; [by eapply lookup_lt_Some|congruence].
Qed.

Lemma wstep_ostep w w1 wf bs : rtc ostep w wf -> finished bs wf -> wstep w w1 -> ostep w w1.
Proof.
  intros Hr Hf Hst. destruct Hst as [c c' D L Hc|ps ch D L i m s p s' Hi HL Em|ps ch D L i m s o Hi HL Hm].
  - by constructor.
  - destruct (classic (framed (mine i) m (set_files D s))) as [F|F]; [by econstructor|].
    exfalso. eapply stuck_unfinished; [|exact Hr|exact Hf]. split_and!; [exact Hi|exact HL|done].
  - exfalso. eapply stuck_unfinished; [|exact Hr|exact Hf]. split_and!; [exact Hi|exact HL|].
    cbn. intros p s' E. rewrite E in Hm. by destruct o.
Qed.

(** One owned run to the end decides every run. *)
Lemma owned_always w wf bs :
  bs <> [] -> rtc ostep w wf -> finished bs wf -> walways w (eq wf).
Proof.
  intros Hne Hr Hf. assert (nf ostep wf) as Hnf.
  { intros [w' Hst]. eapply finished_nf; [exact Hne|exact Hf|]. eexists. by apply ostep_wstep. }
  assert (forall w1, rtc ostep w w1 -> rtc ostep w1 wf) as Hjoin.
  { intros w1 H1. apply rtc_nsteps in Hr as [n Hn].
    by eapply (nsteps_join ostep ostep_diamond). }
  destruct (diamond_end ostep ostep_diamond _ _ Hr Hnf) as [Hsn Hend].
  split.
  - induction Hsn as [w _ IH]. constructor. intros w1 Hst.
    assert (ostep w w1) as Ho by (eapply wstep_ostep; [apply Hjoin; apply rtc_refl|done|done]).
    apply IH; [done| | |].
    + apply Hjoin. by apply rtc_once.
    + intros w2 H2. apply Hjoin. by eapply rtc_l.
    + intros w2 H2. apply Hend. by eapply rtc_l.
  - intros w' Hw' Hnf'. symmetry. apply Hend.
    + clear Hend Hnf'. induction Hw' as [w|w w1 w2 Hst Hr' IH]; [apply rtc_refl|].
      assert (ostep w w1) as Ho by (eapply wstep_ostep; [apply Hjoin; apply rtc_refl|done|done]).
      eapply rtc_l; [exact Ho|]. apply IH; [by apply Hjoin, rtc_once| |].
      * intros w3 H3. apply Hjoin. by eapply rtc_l.
      * inversion Hsn. eauto.
    + intros [w2 H2]. apply Hnf'. exists w2. by apply ostep_wstep.
Qed.

End owned.

(** ** Runs *)
Section runs.
Context {A : Type} `{MpiBuffers}.
Variable own : cstring -> option nat.

Notation mine := (mine own).
Notation ostep := (ostep own).
#[local] Instance mine_decision i f : Decision (mine i f) := decide (own f = Some i).

(** The operations of one process, one after another; the state has the files. *)
Inductive runs (i : nat) : proc (act A) -> os -> proc (act A) -> os -> Prop :=
| runs_refl p s : runs i p s p s
| runs_step m s p s' q s'' :
    framed (mine i) m s -> m s = Ok (p, s') -> runs i p s' q s'' ->
    runs i (Stop (Ok (File m))) s q s''.

Lemma runs_trans i p s p' s' q s'' :
  runs i p s p' s' -> runs i p' s' q s'' -> runs i p s q s''.
Proof. induction 1; [done|]. intros. econstructor; eauto. Qed.

Lemma framed_file_op {B} i (m : io B) (k : B -> proc (act A)) s :
  framed (mine i) m s ->
  framed (mine i) (fun s => let* (a, s') := m s in Ok (k a, s')) s.
Proof.
  unfold framed. destruct (m s) as [[b s']| | |]; cbn [obind].
  2, 3, 4: intros Hm D Ha; by rewrite Hm.
  intros (Hi & Ho & Hm). split_and!; [done..|]. intros D Ha. by rewrite Hm.
Qed.

Lemma runs_file {B} i (m : io B) (k : B -> proc (act A)) s b s' q s'' :
  framed (mine i) m s -> m s = Ok (b, s') -> runs i (k b) s' q s'' -> runs i (file_op m k) s q s''.
Proof.
  intros Hf E Hr. econstructor; [by apply framed_file_op|by rewrite E|done].
Qed.

Lemma runs_world i p s q s' ps ch L :
  runs i p s q s' -> ps !! i = Some (Run p) -> L !! i = Some (own_state s) ->
  rtc ostep (World (Cfg ps ch) (files s) L)
            (World (Cfg (<[i := Run q]> ps) ch) (files s') (<[i := own_state s']> L)).
Proof.
  intros Hr. revert ps L. induction Hr as [p s|m s p s1 q s2 Hf Hm Hr IH]; intros ps L Hp HL.
  - rewrite !list_insert_id by done. apply rtc_refl.
  - eapply rtc_l.
    + assert (set_files (files s) (own_state s) = s) as Es by (by destruct s).
      eapply ostep_file; [exact Hp|exact HL|by rewrite Es|by rewrite Es].
    + specialize (IH (<[i:=Run p]> ps) (<[i:=own_state s1]> L)). rewrite !list_insert_insert_eq in IH.
      apply IH; apply list_lookup_insert_eq; by eapply lookup_lt_Some.
Qed.

(** The run of a process does not depend on the files of the others. *)
Lemma runs_agree i p s q s' D :
  runs i p s q s' -> agree (mine i) D (files s) ->
  runs i p (set_files D s) q (set_files (over (mine i) (files s') D) s').
Proof.
  intros Hr. revert D. induction Hr as [p s|m s p s1 q s2 Hf Hm Hr IH]; intros D Ha.
  - rewrite over_same by done. constructor.
  - destruct (framed_ok own i m s p s1 Hf Hm) as [_ Hd].
    specialize (IH (over (mine i) (files s1) D) ltac:(apply over_agree)). rewrite over_over in IH.
    econstructor; [by apply framed_agree|by apply Hd|exact IH].
Qed.

(** All processes [P r] with the local states [L r]. *)
Definition at_all (n : nat) (P : nat -> proc (act A)) (ch : channels) (D : disk) (L : nat -> os) : world A :=
  World (Cfg (running n P) ch) D ((fun r => own_state (L r)) <$> seq 0 n).

Lemma at_all_ext n P P' ch D L :
  (forall r, (r < n)%nat -> P r = P' r) -> at_all n P ch D L = at_all n P' ch D L.
Proof. intros HP. unfold at_all. by rewrite (running_ext n P P'). Qed.

(** A communication phase. *)
Lemma phase_mpi n P P' ch ch' D L :
  rtc step (Cfg (running n P) ch) (Cfg (running n P') ch') ->
  rtc ostep (at_all n P ch D L) (at_all n P' ch' D L).
Proof.
  unfold at_all. intros Hr. remember (Cfg (running n P) ch) as c. clear Heqc.
  remember (Cfg (running n P') ch') as c'. clear Heqc'.
  induction Hr; [apply rtc_refl|]. eapply rtc_l; [by apply ostep_mpi|done].
Qed.

Lemma insert_fmap_seq {B} (f : nat -> B) n i x :
  (i < n)%nat -> <[i := x]> (f <$> seq 0 n) = (fun r => if decide (r = i) then x else f r) <$> seq 0 n.
Proof.
  intros Hi. apply list_eq. intros j. rewrite list_lookup_fmap.
  destruct (decide (j = i)) as [->|Hj].
  - rewrite list_lookup_insert_eq by (by rewrite length_fmap, length_seq).
    rewrite lookup_seq_lt by done. cbn. by rewrite decide_True.
  - rewrite list_lookup_insert_ne, list_lookup_fmap by done.
    destruct (decide (j < n)%nat); [|by rewrite lookup_seq_ge by lia].
    rewrite lookup_seq_lt by done. cbn. by rewrite decide_False.
Qed.

(** The files after the first [i] processes have done theirs. *)
Fixpoint disk_after (L : nat -> os) (D : disk) (i : nat) : disk :=
  match i with O => D | S i => over (mine i) (files (L i)) (disk_after L D i) end.

Lemma disk_after_lookup L D i f :
  disk_after L D i !! f =
    match own f with
    | Some r => if decide (r < i)%nat then files (L r) !! f else D !! f
    | None => D !! f
    end.
Proof.
  induction i as [|i IH]; cbn [disk_after]; [by destruct (own f); rewrite ?decide_False by lia|].
  rewrite over_lookup, IH. case_decide as E; unfold World.mine in E.
  - rewrite E. by rewrite decide_True by lia.
  - destruct (own f) as [r|]; [|done]. apply decide_ext. split; [lia|]. intros ?.
    assert (r <> i) by congruence. lia.
Qed.

(** A phase of file operations, each process on its own files. *)
Lemma phase_files n P P' ch D L L' :
  (forall r, (r < n)%nat -> runs r (P r) (set_files D (L r)) (P' r) (L' r)) ->
  rtc ostep (at_all n P ch D L) (at_all n P' ch (disk_after L' D n) L').
Proof.
  intros Hr.
  set (Pi i r := if decide (r < i)%nat then P' r else P r).
  set (Li i r := if decide (r < i)%nat then L' r else L r).
  assert (forall i, (i <= n)%nat ->
    rtc ostep (at_all n P ch D L) (at_all n (Pi i) ch (disk_after L' D i) (Li i))) as Hi.
  2:{ specialize (Hi n ltac:(lia)). replace (at_all n P' ch _ L') with
        (at_all n (Pi n) ch (disk_after L' D n) (Li n)); [done|].
      unfold at_all. f_equal.
      - f_equal. apply running_ext. intros r Hrn. unfold Pi. by rewrite decide_True.
      - apply list_fmap_ext. intros i r Hl. apply lookup_seq in Hl as [-> Hl]. unfold Li.
        by rewrite decide_True by lia. }
  induction i as [|i IH]; intros Hin.
  { replace (at_all n (Pi 0%nat) ch (disk_after L' D 0) (Li 0%nat)) with (at_all n P ch D L);
      [apply rtc_refl|]. done. }
  etrans; [apply IH; lia|].
  assert (agree (mine i) (disk_after L' D i) D) as Ha.
  { intros f Hf. rewrite disk_after_lookup. unfold World.mine in Hf. rewrite Hf.
    by rewrite decide_False by lia. }
  pose proof (runs_agree i _ _ _ _ (disk_after L' D i) (Hr i ltac:(lia)) Ha) as Hrun.
  rewrite set_files_twice in Hrun.
  eapply (runs_world i _ _ _ _ (running n (Pi i)) ch ((fun r => own_state (Li i r)) <$> seq 0 n)) in Hrun.
  - cbn [files set_files] in Hrun. unfold at_all, running in *.
    rewrite !insert_fmap_seq in Hrun by done. cbn [disk_after].
    assert (forall {B} (f g : nat -> B), (forall r, f r = g r) -> f <$> seq 0 n = g <$> seq 0 n) as Hext.
    { intros B f g E. apply list_fmap_ext. intros; apply E. }
    erewrite (Hext _ (fun r => Run (Pi (S i) r))), (Hext _ (fun r => own_state (Li (S i) r)));
      [exact Hrun|..].
    + intros r. unfold Li. cbn. repeat case_decide; subst; (done || lia).
    + intros r. unfold Pi. cbn. repeat case_decide; subst; (done || lia).
  - unfold running. rewrite list_lookup_fmap, lookup_seq_lt by done. cbn. unfold Pi.
    by rewrite decide_False by lia.
  - rewrite list_lookup_fmap, lookup_seq_lt by done. cbn. unfold Li. by rewrite decide_False by lia.
Qed.

(** A run of all processes to their ends decides every run. *)
Lemma all_end n P (b : nat -> A) ch ch' D D' L L' :
  (0 < n)%nat -> rtc ostep (at_all n P ch D L) (at_all n (fun r => done (b r)) ch' D' L') ->
  walways (at_all n P ch D L) (fun w => finished (b <$> seq 0 n) w /\ files_of w = D').
Proof.
  intros Hn Hr. assert (finished (b <$> seq 0 n) (at_all n (fun r => done (b r)) ch' D' L')) as Hf.
  { unfold finished, stopped, at_all, running. cbn. by rewrite <- !list_fmap_compose. }
  assert (b <$> seq 0 n <> []) as Hne by (by destruct n; [lia|]).
  destruct (owned_always own _ _ _ Hne Hr Hf) as [Hsn Hend].
  split; [done|]. intros w' Hr' Hnf. by rewrite <- (Hend w' Hr' Hnf).
Qed.

Lemma walways_impl (w : world A) (P Q : world A -> Prop) : walways w P -> (forall w', P w' -> Q w') -> walways w Q.
Proof. intros [Hsn Hp] Hpq. split; [done|]. eauto. Qed.
End runs.
