(* ===== verification/Frames.v ===== *)
(** The file operations of Io as operations of an owner (World): each depends on
    the file it is given and on the files of the open descriptors only, and
    changes no others. *)

From S2P Require Import Prelude ByteOrder CLib Kvtree KvtreeSpec KvtreeMerge Pack Io Persist Net World.

Section frames.
Variable P : cstring -> Prop.
Context `{!forall f, Decision (P f)}.

Notation framed := (framed P).
Notation inside := (inside P).
Notation agree := (agree P).

(** ** The system calls *)
Lemma framed_syscall s : inside s -> framed syscall s.
Proof.
  intros Hi. unfold World.framed. rewrite syscall_eq. split_and!; [done..|].
  intros D Ha. rewrite syscall_eq, over_same by done. done.
Qed.

Lemma inside_fds s s' : fds s' = fds s -> inside s -> inside s'.
Proof. intros E Hi n d. rewrite E. apply Hi. Qed.

(** A call that looks at no file. *)
Lemma framed_local {A} (m : io A) s :
  inside s ->
  (forall D, exists x s', m s = Ok (x, s') /\ fds s' = fds s /\ files s' = files s /\
                     m (set_files D s) = Ok (x, set_files D s')) ->
  framed m s.
Proof.
  intros Hi Hm. unfold World.framed. destruct (Hm ∅) as (x & s' & E & Hfd & Hfl & _). rewrite E.
  split_and!; [by eapply inside_fds|by rewrite Hfl|]. intros D Ha.
  destruct (Hm D) as (x2 & s2 & E2 & _ & Hfl2 & ->). rewrite E in E2. injection E2 as <- <-.
  rewrite over_same; [done|]. by rewrite Hfl.
Qed.

Lemma framed_umask m s : inside s -> framed (sys_umask m) s.
Proof. intros Hi. apply framed_local; [done|]. intros D. by do 2 eexists. Qed.

Lemma framed_errno s : inside s -> framed get_errno s.
Proof. intros Hi. apply framed_local; [done|]. intros D. by do 2 eexists. Qed.

Lemma over_insert f c F D : P f -> agree D F -> over P (<[f := c]> F) D = <[f := c]> D.
Proof.
  intros Hf Ha. apply map_eq. intros g. rewrite over_lookup, !lookup_insert.
  destruct (decide (f = g)) as [<-|]; [by rewrite decide_True|].
  case_decide; [|done]. by rewrite Ha.
Qed.

(** A change of a file and of the descriptors for such files. *)
Lemma framed_change {A} (m : io A) s x f c s' :
  P f -> m s = Ok (x, s') -> inside s' -> files s' = <[f := c]> (files s) ->
  (forall D, agree D (files s) -> m (set_files D s) = Ok (x, set_files (<[f := c]> D) s')) ->
  framed m s.
Proof.
  intros Hf E Hi Hfl Hm. unfold World.framed. rewrite E. split_and!; [done| |].
  - intros g Hg. rewrite Hfl, lookup_insert_ne; [done|]. by intros ->.
  - intros D Ha. rewrite Hm by done. by rewrite Hfl, over_insert.
Qed.

Lemma framed_open_file file flags mode s : P file -> inside s -> framed (open_file file flags mode) s.
Proof.
  intros Hf Hi. assert (inside (open_state file flags mode s)) as Hi'.
  { intros n d. cbn. rewrite lookup_insert_Some. intros [[_ <-]|[_ Hd]]; [done|by eapply Hi]. }
  unfold open_file. unfold World.framed.
  assert (forall D, agree D (files s) -> can_open file flags (set_files D s) = can_open file flags s) as Hc.
  { intros D Ha. unfold can_open. cbn. by rewrite (Ha file Hf). }
  destruct (can_open file flags s).
  2:{ split_and!; [done..|]. intros D Ha. rewrite Hc, over_same by done. done. }
  split_and!; [done| |].
  - intros g Hg. cbn. assert (file <> g) by (by intros ->).
    destruct (files s !! file); [case_match|]; rewrite ?lookup_insert_ne by done; done.
  - intros D Ha. rewrite Hc by done. do 2 f_equal. unfold open_state, set_files. cbn.
    rewrite (Ha file Hf). f_equal.
    destruct (files s !! file); [case_match|]; by rewrite ?over_insert, ?over_same by done.
Qed.

Lemma framed_open file flags mode s : P file -> inside s -> framed (sys_open file flags mode) s.
Proof.
  intros Hf Hi. apply framed_bind; [by apply framed_syscall|]. intros r s' _ Hi'.
  destruct r; try apply framed_open_file; try done. by apply framed_ret.
Qed.

Lemma framed_with_fd {A} fd (bad : A) k s :
  inside s ->
  (forall n d, fds s !! n = Some d -> P (d_file d) ->
     framed (k n d (default [] (files s !! d_file d))) s) ->
  framed (with_fd fd bad k) s.
Proof.
  intros Hi Hk. unfold with_fd, World.framed.
  destruct (fd <? 0).
  { split_and!; [done..|]. intros D Ha. by rewrite over_same. }
  destruct (fds s !! Z.to_nat fd) as [d|] eqn:Hd.
  2:{ split_and!; [done..|]. intros D Ha. cbn. rewrite Hd, over_same by done. done. }
  specialize (Hk _ _ Hd (Hi _ _ Hd)). unfold World.framed in Hk.
  assert (forall D, agree D (files s) -> D !! d_file d = files s !! d_file d) as Hag.
  { intros D Ha. apply Ha. by eapply Hi. }
  destruct (k _ d _ s) as [[x s']| | |].
  2, 3, 4: intros D Ha; cbn; rewrite Hd, (Hag D Ha); by apply Hk.
  destruct Hk as (Hi' & Hoff & Hm). split_and!; [done..|].
  intros D Ha. cbn. rewrite Hd, (Hag D Ha). by apply Hm.
Qed.

Lemma inside_set_pos n d pos s : P (d_file d) -> inside s -> inside (set_pos n d pos s).
Proof.
  intros Hd Hi n' d'. cbn. rewrite lookup_insert_Some. intros [[_ <-]|[_ Hd']]; [done|by eapply Hi].
Qed.

Lemma framed_pos {A} (x : A) n d pos s :
  P (d_file d) -> inside s -> framed (fun s => Ok (x, set_pos n d pos s)) s.
Proof.
  intros Hd Hi. unfold World.framed. split_and!; [by apply inside_set_pos|done|].
  intros D Ha. by rewrite over_same.
Qed.

Lemma framed_sys_read fd n s : inside s -> framed (sys_read fd n) s.
Proof.
  intros Hi. apply framed_bind; [by apply framed_syscall|]. intros r s' _ Hi'.
  apply framed_with_fd; [done|]. intros fdn d Hd HP.
  destruct r; [by apply framed_pos|by apply framed_pos|by apply framed_ret].
Qed.

Lemma framed_sys_lseek fd pos s : inside s -> framed (sys_lseek fd pos) s.
Proof.
  intros Hi. apply framed_bind; [by apply framed_syscall|]. intros r s' _ Hi'.
  apply framed_with_fd; [done|]. intros fdn d Hd HP.
  destruct r; [by apply framed_pos|by apply framed_pos|by apply framed_ret].
Qed.

Lemma framed_sys_write fd bs s : inside s -> framed (sys_write fd bs) s.
Proof.
  intros Hi. apply framed_bind; [by apply framed_syscall|]. intros r s' _ Hi'.
  apply framed_with_fd; [done|]. intros fdn d Hd HP.
  destruct r as [|m|e]; [| |by apply framed_ret].
  - eapply framed_change; [exact HP|cbv zeta beta; reflexivity|by apply inside_set_pos|reflexivity|done].
  - eapply framed_change; [exact HP|cbv zeta beta; reflexivity|by apply inside_set_pos|reflexivity|done].
Qed.

Lemma framed_sys_fsync fd s : inside s -> framed (sys_fsync fd) s.
Proof.
  intros Hi. apply framed_bind; [by apply framed_syscall|]. intros r s' _ Hi'.
  destruct r; by apply framed_ret.
Qed.

Lemma framed_sys_close fd s : inside s -> framed (sys_close fd) s.
Proof.
  intros Hi. apply framed_bind; [by apply framed_syscall|]. intros r s' _ Hi'.
  apply framed_with_fd; [done|]. intros fdn d Hd HP. unfold World.framed. split_and!.
  - intros n d'. cbn. rewrite lookup_delete_Some. intros [_ Hd']. by eapply Hi'.
  - done.
  - intros D Ha. by rewrite over_same.
Qed.

(** ** The functions of kvtree_io.c *)
Lemma framed_getmode r w x s : inside s -> framed (kvtree_getmode r w x) s.
Proof.
  intros Hi. apply framed_bind; [by apply framed_umask|]. intros m s1 _ Hi1.
  apply framed_bind; [by apply framed_umask|]. intros m2 s2 _ Hi2. by apply framed_ret.
Qed.

Lemma framed_open_loop file flags mode tries : forall fd s,
  P file -> inside s -> framed (open_loop file flags mode tries fd) s.
Proof.
  induction tries as [|tries IH]; intros fd s Hf Hi; cbn [open_loop]; [by apply framed_ret|].
  destruct (fd <? 0); [|by apply framed_ret].
  apply framed_bind; [by apply framed_open|]. intros fd' s' _ Hi'. by apply IH.
Qed.

Lemma framed_kvtree_open file flags args s : P file -> inside s -> framed (kvtree_open file flags args) s.
Proof.
  intros Hf Hi. apply framed_bind; [by apply framed_lift|]. intros mode s1 _ Hi1.
  apply framed_bind; [by apply framed_open|]. intros fd s2 _ Hi2.
  destruct (fd <? 0); [by apply framed_open_loop|by apply framed_ret].
Qed.

Lemma framed_lseek file fd pos s : inside s -> framed (kvtree_lseek file fd pos) s.
Proof.
  intros Hi. apply framed_bind; [by apply framed_sys_lseek|]. intros rc s1 _ Hi1.
  destruct (rc =? -1); by apply framed_ret.
Qed.

Lemma framed_close file fd s : inside s -> framed (kvtree_close file fd) s.
Proof.
  intros Hi. apply framed_bind; [by apply framed_sys_fsync|]. intros x s1 _ Hi1.
  apply framed_bind; [by apply framed_sys_close|]. intros rc s2 _ Hi2.
  destruct (negb _); by apply framed_ret.
Qed.

Lemma framed_interrupted s : inside s -> framed interrupted s.
Proof.
  intros Hi. apply framed_bind; [by apply framed_errno|]. intros e s1 _ Hi1. by apply framed_ret.
Qed.

Lemma framed_read_loop fuel : forall fd buf size n retries s,
  inside s -> framed (read_loop fuel fd buf size n retries) s.
Proof.
  induction fuel as [|fuel IH]; intros fd buf size n retries s Hi; cbn [read_loop]; [done|].
  destruct (n <? size)%nat; [|by apply framed_ret].
  apply framed_bind; [by apply framed_sys_read|]. intros [ret bs] s1 _ Hi1.
  apply framed_bind; [by apply framed_lift|]. intros buf' s2 _ Hi2.
  destruct (0 <? i32 ret); [by apply IH|]. destruct (i32 ret =? 0); [by apply framed_ret|].
  apply framed_bind; [by apply framed_interrupted|]. intros again s3 _ Hi3.
  destruct again; [by apply IH|]. destruct (negb _); [by apply IH|by apply framed_ret].
Qed.

Lemma framed_write_loop fuel : forall fd buf size n retries s,
  inside s -> framed (write_loop fuel fd buf size n retries) s.
Proof.
  induction fuel as [|fuel IH]; intros fd buf size n retries s Hi; cbn [write_loop]; [done|].
  destruct (n <? size)%nat; [|by apply framed_ret].
  apply framed_bind; [by apply framed_lift|]. intros bs s1 _ Hi1.
  apply framed_bind; [by apply framed_sys_write|]. intros rc s2 _ Hi2.
  destruct (0 <? rc); [by apply IH|]. destruct (rc =? 0); [by apply framed_ret|].
  apply framed_bind; [by apply framed_interrupted|]. intros again s3 _ Hi3.
  destruct again; [by apply IH|]. destruct (negb _); [by apply IH|by apply framed_ret].
Qed.

Lemma framed_read_attempt file fd buf size s :
  inside s -> framed (kvtree_read_attempt file fd buf size) s.
Proof. intros Hi. exact (framed_read_loop (attempt_fuel size s) fd buf size 0 10 s Hi). Qed.

Lemma framed_write_attempt file fd buf size s :
  inside s -> framed (kvtree_write_attempt file fd buf size) s.
Proof. intros Hi. exact (framed_write_loop (attempt_fuel size s) fd buf size 0 10 s Hi). Qed.

Lemma framed_read_fd `{Host} `{Zlib} file fd hash s :
  inside s -> framed (kvtree_read_fd file fd hash) s.
Proof.
  intros Hi. unfold kvtree_read_fd. destruct file as [file|]; [|by apply framed_ret].
  destruct hash as [t|]; [|by apply framed_ret].
  destruct (fd <? 0); [by apply framed_ret|].
  apply framed_bind; [by apply framed_read_attempt|]. intros [nread header] s1 _ Hi1.
  destruct (nread <? 0); [by apply framed_ret|]. destruct (nread =? 0); [by apply framed_ret|].
  destruct (negb _); [by apply framed_ret|].
  apply framed_bind; [by apply framed_lift|]. intros [[[filesize flags] size]|] s2 _ Hi2;
    [|by apply framed_ret].
  apply framed_bind; [by apply framed_lift|]. intros [b|] s3 _ Hi3; [|done].
  apply framed_bind; [by apply framed_lift|]. intros buf s4 _ Hi4.
  apply framed_bind.
  { destruct (0 <? _); [|by apply framed_ret].
    apply framed_bind; [by apply framed_read_attempt|]. intros [n rest] s5 _ Hi5. by apply framed_ret. }
  intros [n buf'] s5 _ Hi5. destruct (n <? 0); [by apply framed_ret|].
  destruct (negb _); [by apply framed_ret|].
  apply framed_bind; [by apply framed_lift|]. intros ok s6 _ Hi6.
  destruct (negb ok); [by apply framed_ret|].
  apply framed_bind; [by apply framed_lift|]. intros [m u] s7 _ Hi7.
  destruct (kvtree_merge _ _). by apply framed_ret.
Qed.

End frames.
