(* ===== verification/MpiIo.v ===== *)
(** Collective files: [kvtree_write_gather] and [kvtree_read_scatter] of
    [src/src/kvtree_mpi_io.c].

    The trees of all processes go to the writers of their segments (Writers), each
    of which writes a file; the names of these files go to the writers of a map, and
    so on until one process has all names of a level and writes the top map.  The
    reader goes the other way.

    A process sends and receives ([mpi* ]), works on files ([file* ]) and calls
    functions that do both ([run* ]).  [fuel] bounds the number of levels. *)

From stdpp Require Import relations.
From S2P Require Import Prelude CLib ByteOrder Kvtree KvtreeSpec KvtreeMap KvtreeMerge Pack.
From S2P Require Import Io Persist Format Util Paths Gather Net Mpi Exchange Writers World.

Section mpi_io.
Context `{Host} `{Zlib} `{Libc} `{MpiConst}.

(** ** Writing *)

(** The end of both functions: the writer stores [save] with its level and the
    number of ranks. *)
Definition write_save (mappath : cstring) (save : option kvtree) (level ranks offset rc : Z)
    : proc (act Z) :=
  file* mode := kvtree_getmode true true false in
  file* fd := kvtree_open mappath (Z.lor O_WRONLY (Z.lor O_CREAT O_TRUNC)) (Some mode) in
  if 0 <=? fd then
    try* (save, _) := kvtree_util_set_int save (str "LEVEL") level in
    try* (save, _) := kvtree_util_set_int save (str "RANKS") ranks in
    try* (_, out) := kvtree_write_persist true true save in
    match out with
    | None => Stop Undef
    | Some (buf, bufsize) =>
        file* _ := kvtree_lseek mappath fd (Z.to_nat offset) in
        file* write_rc := kvtree_write_attempt mappath fd buf bufsize in
        let rc := if write_rc <? 0 then KVTREE_FAILURE else rc in
        file* _ := kvtree_close mappath fd in
        done rc
    end
  else done KVTREE_FAILURE.

Fixpoint kvtree_write_gather_map (fuel : nat) (rank : Z) (ranks : nat) (prefix file : cstring)
    (offset level : Z) (valid : bool) : proc (act Z) :=
  match fuel with
  | O => Stop NoFuel
  | S fuel =>
      let rc := KVTREE_SUCCESS in
      if negb (offset =? 0) then Stop Abort
      else
        let nranks := Z.of_nat ranks in
        let hash := Some kvtree_new in
        try* (hash, pack_size) :=
          (if valid then
             let* (hash, _) := kvtree_util_set_str hash (str "FILE") (Some file) in
             let* (hash, _) := kvtree_util_set_bytecount hash (str "OFFSET") offset in
             Ok (hash, Z.of_nat (kvtree_pack_size hash))
           else Ok (hash, 0)) in
        mpi* (_, writer, allranks) := pick_writer rank ranks level pack_size in
        let send := Some kvtree_new in
        let recv := Some kvtree_new in
        try* (send, _) :=
          (if valid then kvtree_exchange_sendq send writer hash else Ok (send, KVTREE_SUCCESS)) in
        mpi* (_, recv) := kvtree_exchange_direction rank nranks send recv KVTREE_EXCHANGE_LEFT in
        let save := Some kvtree_new in
        let '(save, _) :=
          if rank =? writer then kvtree_set save (Some (str "RANK")) recv else (save, None) in
        let mapfile :=
          if negb (allranks =? 0) then []
          else snprintf 1024 (str "." ++ fmt_signed level ++ str "." ++ fmt_signed writer) in
        let mappath := snprintf 1024 (c_str prefix ++ mapfile) in
        run* rc :=
          (if allranks =? 0 then
             let newoffset := 0 in
             let newlevel := i32 (level + 1) in
             let newvalid := rank =? writer in
             run* r := kvtree_write_gather_map fuel rank ranks prefix mapfile newoffset newlevel newvalid in
             done (if negb (r =? KVTREE_SUCCESS) then KVTREE_FAILURE else rc)
           else done rc) in
        if rank =? writer then write_save mappath save level nranks offset rc else done rc
  end.

Definition kvtree_write_gather (fuel : nat) (rank : Z) (ranks : nat) (prefix : cstring)
    (data : option kvtree) : proc (act Z) :=
  let rc := KVTREE_SUCCESS in
  let nranks := Z.of_nat ranks in
  let pack_size := Z.of_nat (kvtree_pack_size data) in
  mpi* (_, writer, allranks) := pick_writer rank ranks 1 pack_size in
  let send := Some kvtree_new in
  let recv := Some kvtree_new in
  try* (send, _) := kvtree_exchange_sendq send writer data in
  mpi* (_, recv) := kvtree_exchange_direction rank nranks send recv KVTREE_EXCHANGE_LEFT in
  let save := Some kvtree_new in
  let '(save, _) :=
    if rank =? writer then kvtree_set save (Some (str "RANK")) recv else (save, None) in
  let mapfile := snprintf 1024 (str ".0." ++ fmt_signed writer) in
  let mappath := snprintf 1024 (c_str prefix ++ mapfile) in
  let offset := 0 in
  let level := 1 in
  let valid := rank =? writer in
  run* r := kvtree_write_gather_map fuel rank ranks prefix mapfile offset level valid in
  let rc := if negb (r =? KVTREE_SUCCESS) then KVTREE_FAILURE else rc in
  run* rc :=
    (if rank =? writer then write_save mappath save 0 nranks offset rc else done rc) in
  mpi* ok := kvtree_alltrue (if rc =? KVTREE_SUCCESS then 1 else 0) in
  done (if negb (ok =? 0) then KVTREE_SUCCESS else KVTREE_FAILURE).

(** ** Reading *)

(** Open [file], read the hash at [offset] and close it: the result of
    [kvtree_read_fd], -1 when the file does not open. *)
Definition read_at (file : option cstring) (offset : Z) (hash : option kvtree)
    : proc (act (option Z * option kvtree)) :=
  match file with
  | None => Stop Undef
  | Some file =>
      file* fd := kvtree_open file O_RDONLY None in
      if 0 <=? fd then
        file* _ := kvtree_lseek file fd (Z.to_nat offset) in
        file* (read_rc, hash) := kvtree_read_fd (Some file) fd hash in
        file* _ := kvtree_close file fd in
        done (Some read_rc, hash)
      else done (None, hash)
  end.

Fixpoint kvtree_read_scatter_map (fuel : nat) (rank : Z) (ranks : nat) (prefix : cstring)
    (depth : Z) (valid : bool) (file : option cstring) (offset : Z)
    : proc (act (Z * (bool * option cstring * Z))) :=
  match fuel with
  | O => Stop NoFuel
  | S fuel =>
      let nranks := Z.of_nat ranks in
      let rc := KVTREE_SUCCESS in
      let hash := Some kvtree_new in
      run* (rc, hash) :=
        (if valid then
           run* (read_rc, hash) := read_at file offset hash in
           done (match read_rc with
                 | Some r => if r <? 0 then KVTREE_FAILURE else rc
                 | None => KVTREE_FAILURE
                 end, hash)
         else done (rc, hash)) in
      mpi* ok := kvtree_alltrue (if rc =? KVTREE_SUCCESS then 1 else 0) in
      if ok =? 0 then done (KVTREE_FAILURE, (valid, file, offset))
      else
        let send := Some kvtree_new in
        let recv := Some kvtree_new in
        let send :=
          if valid then (kvtree_merge send (kvtree_get hash (Some (str "RANK")))).1 else send in
        mpi* (_, recv) := kvtree_exchange_direction rank nranks send recv KVTREE_EXCHANGE_RIGHT in
        let elem := kvtree_elem_first recv in
        let '(newvalid, newfile, newoffset, rc) :=
          match elem with
          | [] => (false, None, 0, rc)
          | _ =>
              let elem_hash := kvtree_elem_hash elem in
              let '(newfile, rc) :=
                match kvtree_util_get_str elem_hash (str "FILE") with
                | (r, Some value) =>
                    if r =? KVTREE_SUCCESS
                    then (Some (strdup (snprintf 1024 (c_str prefix ++ c_str value))), rc)
                    else (None, KVTREE_FAILURE)
                | (_, None) => (None, KVTREE_FAILURE)
                end in
              let '(newoffset, rc) :=
                match kvtree_util_get_bytecount elem_hash (str "OFFSET") with
                | (r, o) => (default 0 o, if negb (r =? KVTREE_SUCCESS) then KVTREE_FAILURE else rc)
                end in
              (true, newfile, newoffset, rc)
          end in
        let level_id := -1 in
        let '(level_id, rc) :=
          if valid then
            match kvtree_util_get_int hash (str "LEVEL") with
            | (r, l) => (default level_id l, if negb (r =? KVTREE_SUCCESS) then KVTREE_FAILURE else rc)
            end
          else (level_id, rc) in
        mpi* level_id :=
          (if rank =? 0 then mpi* _ := MPI_Bcast_root (MInt level_id) 0 ranks in proc_ret level_id
           else mpi* m := MPI_Bcast_other 0 in Stop (recv_int m)) in
        mpi* ok := kvtree_alltrue (if rc =? KVTREE_SUCCESS then 1 else 0) in
        if ok =? 0 then done (KVTREE_FAILURE, (valid, file, offset))
        else if 1 <? level_id then
          kvtree_read_scatter_map fuel rank ranks prefix (i32 (depth + 1)) newvalid newfile newoffset
        else done (rc, (newvalid, newfile, newoffset))
  end.

(** The loop over what was received. *)
Fixpoint collect_loop (elem : cursor) (data : option kvtree) : option kvtree :=
  match elem with
  | [] => data
  | _ :: next =>
      let elem_hash := kvtree_elem_hash elem in
      let '(data, _) := kvtree_merge data elem_hash in
      collect_loop next data
  end.

Definition kvtree_read_scatter (fuel : nat) (rank : Z) (ranks : nat) (prefix : cstring)
    (data : option kvtree) : proc (act (Z * option kvtree)) :=
  let rc := KVTREE_SUCCESS in
  let nranks := Z.of_nat ranks in
  let mappath := snprintf 1024 (c_str prefix) in
  let '(valid, file, offset) :=
    if rank =? 0 then (true, Some (strdup mappath), 0) else (false, None, 0) in
  run* (r, (valid, file, offset)) :=
    kvtree_read_scatter_map fuel rank ranks prefix 1 valid file offset in
  let rc := if negb (r =? KVTREE_SUCCESS) then KVTREE_FAILURE else rc in
  let send := Some kvtree_new in
  let recv := Some kvtree_new in
  run* (rc, send) :=
    (if valid then
       run* (readsize, save) := read_at file offset (Some kvtree_new) in
       match readsize with
       | None => done (KVTREE_FAILURE, send)
       | Some readsize =>
           let rc := if readsize <? 0 then KVTREE_FAILURE else rc in
           let ranks := default 0 (kvtree_util_get_int save (str "RANKS")).2 in
           let rc := if negb (ranks =? nranks) then KVTREE_FAILURE else rc in
           let '(_, send) := kvtree_extract save (Some (str "RANK")) in
           done (rc, send)
       end
     else done (rc, send)) in
  mpi* ok := kvtree_alltrue (if rc =? KVTREE_SUCCESS then 1 else 0) in
  if ok =? 0 then done (KVTREE_FAILURE, data)
  else
    mpi* (_, recv) := kvtree_exchange_direction rank nranks send recv KVTREE_EXCHANGE_RIGHT in
    let data := collect_loop (kvtree_elem_first recv) data in
    mpi* ok := kvtree_alltrue (if rc =? KVTREE_SUCCESS then 1 else 0) in
    if ok =? 0 then done (KVTREE_FAILURE, data) else done (rc, data).

End mpi_io.
