(* ===== verification/LevelFile.v ===== *)
(** The files of a collective write: what [write_save] puts into one and what
    [read_at] gets out of it (MpiIo), for a process that works on its own files,
    whatever the system replies. *)

From stdpp Require Import relations.
From S2P Require Import Prelude CLib ByteOrder Kvtree KvtreeSpec KvtreeMap KvtreeMerge Pack.
From S2P Require Import Io Persist LockFile Format Sort Util Paths Gather GatherSpec ScatterSpec.
From S2P Require Import Net Mpi Exchange Writers World Frames MpiIo.

(** The process has no file open. *)
Definition ready (s : os) : Prop := os_ok s /\ fds s = ∅.

(** It went on from [s] to [s'] and got no error unless the system reports one. *)
Definition goes_on (s s' : os) : Prop := ready s' /\ (calm (script s) -> calm (script s')).

Lemma goes_on_touch s sc e : ready s -> sc `suffix_of` script s -> goes_on s (touch s sc e).
Proof. split; [done|]. by apply calm_suffix. Qed.

(** ** The tree in a file *)

(** The paths of a file of [level] with the tree [recv] of the ranks. *)
Definition level_paths (level ranks : Z) (recv : kvtree) (k : cstring) (q : path) : bool :=
  graft [kRANK] (has_path recv) (k :: q) || graft [kLEVEL; fmt_signed level] leaf (k :: q)
    || graft [kRANKS; fmt_signed ranks] leaf (k :: q).

Record level_file `{Host} (level ranks : Z) (recv t : kvtree) : Prop := {
  file_wf : wf t;
  file_storable : storable t;
  file_path k q : has_path t (k :: q) = level_paths level ranks recv k q
}.

(** What a function can ask of such a tree. *)
Section get.
Context `{Host} (level ranks : Z) (recv t t' : kvtree).
Hypothesis Hrecv : wf recv.
Hypothesis Ht : level_file level ranks recv t.
Hypothesis Hwf : wf t'.
Hypothesis Heq : t' ≡ t.

Lemma level_path k q : has_path t' (k :: q) = level_paths level ranks recv k q.
Proof. rewrite Heq. by apply file_path. Qed.

Lemma get_first_val k text :
  nul_free text -> (forall k2, has_path t' [k; k2] = bool_decide (text = c_str k2)) ->
  kvtree_elem_get_first_val (Some t') (Some k) = Some text.
Proof.
  intros Hn Hp. unfold kvtree_elem_get_first_val.
  destruct (kvtree_get (Some t') (Some k)) as [c|] eqn:Hg.
  - destruct (one_elem c text (wf_get _ _ _ Hwf Hg) Hn) as (h & El).
    { intros k2. by rewrite <- Hp, (has_path_cons t'), Hg. }
    destruct c as [l]. cbn [lh_first] in El. by subst l.
  - specialize (Hp text). rewrite (has_path_cons t'), Hg, c_str_id, (bool_decide_eq_true_2 (text = text)) in Hp by done.
    discriminate Hp.
Qed.

Lemma get_level : is_int level -> kvtree_util_get_int (Some t') kLEVEL = (KVTREE_SUCCESS, Some level).
Proof.
  intros Hi. unfold kvtree_util_get_int. rewrite (get_first_val kLEVEL (fmt_signed level)).
  - by rewrite atoi_fmt_signed.
  - apply fmt_signed_nul_free.
  - intros k2. rewrite level_path. unfold level_paths. cbn [graft leaf].
    rewrite (bool_decide_eq_false_2 (c_str kRANK = _)), (bool_decide_eq_false_2 (c_str kRANKS = _)) by done.
    rewrite (bool_decide_eq_true_2 (c_str kLEVEL = _)), c_str_fmt by done. cbn [andb orb].
    by rewrite orb_false_r, andb_true_r.
Qed.

Lemma get_ranks : is_int ranks -> kvtree_util_get_int (Some t') kRANKS = (KVTREE_SUCCESS, Some ranks).
Proof.
  intros Hi. unfold kvtree_util_get_int. rewrite (get_first_val kRANKS (fmt_signed ranks)).
  - by rewrite atoi_fmt_signed.
  - apply fmt_signed_nul_free.
  - intros k2. rewrite level_path. unfold level_paths. cbn [graft leaf].
    rewrite (bool_decide_eq_false_2 (c_str kRANK = _)), (bool_decide_eq_false_2 (c_str kLEVEL = _)) by done.
    rewrite (bool_decide_eq_true_2 (c_str kRANKS = _)), !c_str_fmt by done. cbn [andb orb].
    by rewrite andb_true_r.
Qed.

Lemma rank_path q : has_path t' (kRANK :: q) = has_path recv q.
Proof.
  rewrite level_path. unfold level_paths. cbn [graft].
  rewrite (bool_decide_eq_true_2 (c_str kRANK = _)), (bool_decide_eq_false_2 (c_str kLEVEL = _)),
    (bool_decide_eq_false_2 (c_str kRANKS = _)) by done.
  cbn [andb]. by rewrite !orb_false_r.
Qed.

(** The tree under RANK, as [kvtree_get] and [kvtree_extract] find it; [NULL]
    when it is empty. *)
Lemma rank_hash_path h q : child t' kRANK = Some h -> has_path_opt h q = has_path recv q.
Proof. intros Hc. rewrite <- rank_path, has_path_child, Hc by done. done. Qed.

Lemma rank_child : exists h, child t' kRANK = Some h /\ wf_opt h.
Proof.
  pose proof (rank_path []) as Hp. rewrite has_path_child in Hp by done.
  destruct (child t' kRANK) as [h|] eqn:Hc; [|done]. exists h. split; [done|].
  by apply (wf_child _ _ _ Hwf Hc).
Qed.

Lemma get_rank q :
  wf_opt (kvtree_get (Some t') (Some kRANK)) /\
  has_path_opt (kvtree_get (Some t') (Some kRANK)) q = has_path recv q.
Proof.
  destruct rank_child as (h & Hc & Hh). rewrite child_get, Hc. cbn. split; [done|].
  by apply rank_hash_path.
Qed.
End get.

(** ** Writing *)

(** Room for the level, the number of ranks and the header. *)
Definition has_room (t : kvtree) : Prop := Z.of_nat (tree_pack_size t) + 1024 <= INT_MAX.

Definition level_tree (level ranks : Z) (recv : kvtree) : kvtree :=
  KVTree [Elem (Some kRANK) (Some recv); kv_elem kLEVEL (fmt_signed level); kv_elem kRANKS (fmt_signed ranks)].

Lemma level_tree_wf level ranks recv : wf recv -> wf (level_tree level ranks recv).
Proof.
  intros Hr. apply wf_iff. split; [apply (bool_decide_eq_true_1 _); by vm_compute|].
  repeat (apply Forall_cons_iff; split); [|apply wf_kv_elem..|constructor];
    try (by apply str_nul_free); try apply fmt_signed_nul_free.
  apply wf_elem_iff. split; [by apply str_nul_free|done].
Qed.

Lemma level_tree_path level ranks recv k q :
  has_path (level_tree level ranks recv) (k :: q) = level_paths level ranks recv k q.
Proof.
  unfold level_tree, level_paths. rewrite list_path. cbn [existsb]. rewrite !kv_path, orb_false_r, orb_assoc.
  done.
Qed.

Lemma kv_elem_size k v :
  length (encode_elem (kv_elem k v)) = (strlen k + strlen v + 10)%nat.
Proof.
  unfold kv_elem. rewrite encode_elem_eq, length_app. cbn [encode_opt]. rewrite encode_eq.
  cbn [map concat]. rewrite encode_elem_eq, !length_app. cbn [encode_opt].
  unfold kvtree_new. rewrite encode_eq. cbn. unfold strlen. rewrite !length_app, !be_split_length. cbn. lia.
Qed.

Lemma level_tree_storable `{Host} level ranks recv :
  INT_MAX <= malloc_max -> has_room recv -> storable (level_tree level ranks recv).
Proof.
  unfold has_room, storable, kvtree_persist_size. cbn [kvtree_pack_size]. intros Hm Hr.
  assert (tree_pack_size (level_tree level ranks recv) <= tree_pack_size recv + 200)%nat; [|unfold KVTREE_FILE_HASH_HEADER_SIZE; lia].
  rewrite !tree_pack_size_encode. unfold level_tree. rewrite encode_eq. cbn [map concat].
  rewrite app_nil_r, !length_app, be_split_length, !kv_elem_size, encode_elem_eq, !length_app.
  cbn [encode_opt]. unfold strlen. rewrite !c_str_fmt.
  pose proof (fmt_signed_length level). pose proof (fmt_signed_length ranks). cbn. lia.
Qed.

Lemma set_int_new t key n :
  wf t -> child t key = None ->
  exists t', kvtree_util_set_int (Some t) key n = Ok (Some t', KVTREE_SUCCESS) /\
    adds t (graft [key; fmt_signed n] leaf) t' /\ only_key_changed t t' key.
Proof.
  intros Hwf Hn. destruct (set_kv_value t key (fmt_signed n) Hwf) as (t' & E & Hwf' & Hv & Ho).
  rewrite c_str_fmt in Hv. exists t'. split_and!; [|by apply value_adds|done].
  unfold kvtree_util_set_int, kvtree_set_kv_int. by destruct (kvtree_unset (Some t) (Some key)).
Qed.

Definition rank_tree (recv : kvtree) : kvtree := insert_child kRANK (Some recv) kvtree_new.

Lemma set_rank recv : (kvtree_set (Some kvtree_new) (Some (str "RANK")) (Some recv)).1 = Some (rank_tree recv).
Proof. by rewrite set_spec by apply wf_new. Qed.

Lemma save_tree `{Host} level ranks recv :
  INT_MAX <= malloc_max -> wf recv -> has_room recv ->
  exists t1 t, kvtree_util_set_int (Some (rank_tree recv)) kLEVEL level = Ok (Some t1, KVTREE_SUCCESS) /\
    kvtree_util_set_int (Some t1) kRANKS ranks = Ok (Some t, KVTREE_SUCCESS) /\
    level_file level ranks recv t.
Proof.
  intros Hm Hr Hroom. assert (wf (rank_tree recv)) as Hw by (apply wf_insert_child; [apply wf_new|done]).
  assert (forall k, child (rank_tree recv) k = if decide (c_str kRANK = c_str k) then Some (Some recv) else None) as Hc.
  { intros k. unfold rank_tree. by rewrite child_insert_child by (done || apply wf_new). }
  destruct (set_int_new (rank_tree recv) kLEVEL level Hw) as (t1 & E1 & [Hw1 Hp1] & Ho1).
  { rewrite Hc. by apply decide_False. }
  destruct (set_int_new t1 kRANKS ranks Hw1) as (t & E2 & [Hw2 Hp2] & _).
  { rewrite Ho1, Hc by done. by apply decide_False. }
  exists t1, t. split_and!; [done..|].
  assert (forall k q, has_path t (k :: q) = level_paths level ranks recv k q) as Hp.
  { intros k q. rewrite Hp2, Hp1. unfold level_paths. do 2 f_equal.
    rewrite has_path_child, Hc by done. cbn [graft]. case_decide; case_bool_decide; done. }
  split; [done| |done].
  eapply storable_sub; [done| | |by apply (level_tree_storable level ranks recv)]; [by apply level_tree_wf|].
  intros [|k q]; [done|]. by rewrite level_tree_path, Hp.
Qed.

(** ** The operations of a process on its own file *)
Section own_file.
Context `{Host} `{Zlib} {A : Type} (own : cstring -> option nat) (i : nat).

#[local] Instance mine_decision f : Decision (mine own i f) := decide (own f = Some i).

(** Seeking to the start of a file that was just opened; when that fails the
    position is the start all the same. *)
Lemma lseek_start file s fdn d c :
  opened s fdn d c -> d_pos d = 0%nat ->
  exists rc sc e, kvtree_lseek file (Z.of_nat fdn) 0 s
    = Ok (rc, moved s fdn (Desc (d_file d) 0) (files s) sc e) /\ sc `suffix_of` script s.
Proof.
  intros Ho Hp. unfold kvtree_lseek, sys_lseek, io_bind. rewrite syscall_eq. cbn [obind].
  rewrite (with_fd_opened _ fdn d c) by done.
  assert (<[fdn := Desc (d_file d) 0]> (fds s) = fds s) as Hid.
  { apply insert_id. destruct Ho as [-> _]. destruct d as [f p]. cbn in Hp. by subst p. }
  destruct (reply_of s) eqn:Hr; cbn [obind];
    exists (if match reply_of s with Fails _ => true | _ => false end then KVTREE_FAILURE else KVTREE_SUCCESS),
      (tail (script s)), (match reply_of s with Fails e => e | _ => errno s end);
    (split; [|apply suffix_tail]); unfold set_pos, after, moved; rewrite Hr; cbn; rewrite ?Hid; done.
Qed.

(** Opening a file that can be opened. *)
Lemma open_replies file flags mode s :
  can_open file flags s = true ->
  exists sc e, sc `suffix_of` script s /\
    (kvtree_open file flags (Some mode) s
       = Ok (Z.of_nat (next_fd s), open_state file flags (if has_flag flags O_CREAT then mode else 0) (touch s sc e)) \/
     kvtree_open file flags (Some mode) s = Ok (-1, touch s sc e) /\ ~ calm (script s)).
Proof.
  intros Hcan. destruct (open_eq file flags mode s) as (sc & e & Hs & E). exists sc, e. split; [done|].
  rewrite Hcan in E. cbn [andb] in E. destruct (Nat.ltb_spec (lead_fails (script s)) 6) as [Hl|Hl]; [by left|].
  right. split; [done|]. intros Hc. rewrite calm_lead in Hl by done. lia.
Qed.

(** Every descriptor is closed again. *)
Lemma ready_inside s : ready s -> inside (mine own i) s.
Proof. intros [_ Hf] n d. by rewrite Hf, lookup_empty. Qed.

Lemma inside_step {B} (m : io B) s b s' : framed (mine own i) m s -> m s = Ok (b, s') -> inside (mine own i) s'.
Proof. unfold framed. intros Hf E. rewrite E in Hf. by destruct Hf as (? & _). Qed.

(** One operation after another. *)
Lemma runs_next {B} (m : io B) (k : B -> proc (act A)) s b s' q s'' :
  inside (mine own i) s -> (inside (mine own i) s -> framed (mine own i) m s) -> m s = Ok (b, s') ->
  (inside (mine own i) s' -> runs own i (k b) s' q s'') -> runs own i (file_op m k) s q s''.
Proof.
  intros Hi Hf E Hr. eapply runs_file; [by apply Hf|exact E|]. apply Hr. eapply inside_step; [by apply Hf|exact E].
Qed.

(** The file was opened, moved through and closed. *)
Ltac closed Hfds :=
  unfold goes_on, ready, os_ok; cbn; rewrite Hfds, !insert_insert_eq, delete_insert_id by apply lookup_empty;
  split_and!; try done; try lia; intros Hcalm; repeat (eapply calm_suffix; [eassumption|]; cbn); exact Hcalm.

(** The writer's file has the tree, or the write reports failure; without errors
    of the system it does not. *)
Lemma write_save_runs path level ranks recv rc s (K : Z -> proc (act A)) :
  INT_MAX <= malloc_max -> own path = Some i -> ready s -> wf recv -> has_room recv ->
  exists t rc' s', runs own i (run_bind (write_save path (Some (rank_tree recv)) level ranks 0 rc) K) s (K rc') s' /\
    goes_on s s' /\ level_file level ranks recv t /\
    (forall f, f <> path -> files s' !! f = files s !! f) /\
    (rc' = rc /\ files s' !! path = Some (persisted (Some t)) \/ rc' = KVTREE_FAILURE) /\
    (calm (script s) -> rc' = rc).
Proof.
  intros Hmal Hown Hq Hwf Hroom. pose proof (ready_inside s Hq) as Hin. pose proof Hq as ([Hmask Hnext] & Hfds).
  destruct (save_tree level ranks recv Hmal Hwf Hroom) as (t1 & t & E1 & E2 & Ht).
  pose proof (storable_fits t (file_storable _ _ _ _ Ht)) as [_ Hmax].
  destruct (getmode_eq true true false s Hmask) as (mode & Eg & _).
  set (flags := Z.lor O_WRONLY (Z.lor O_CREAT O_TRUNC)).
  destruct (open_replies path flags mode s) as (sc & e & Hsc & [Eo|[Eo Hnc]]);
    [by unfold can_open; destruct (files s !! path)| |].
  2:{ exists t, KVTREE_FAILURE, (touch s sc e).
      split; [|split; [by apply goes_on_touch|split_and!; [done|done|by right|done]]].
      unfold write_save. rewrite run_bind_file.
      eapply runs_next; [exact Hin|by intros; apply framed_getmode|exact Eg|]. clear Hin. intros Hin.
      rewrite run_bind_file. eapply runs_next; [exact Hin|by intros; apply framed_kvtree_open|exact Eo|]. intros _.
      change (0 <=? -1) with false. cbv beta iota. rewrite run_bind_done. constructor. }
  set (s1 := open_state _ _ _ _) in Eo.
  assert (files s1 = <[path := []]> (files s)) as Hf1
    by (unfold s1, open_state; simpl; by destruct (files s !! path)).
  assert (opened s1 (next_fd s) (Desc path 0) []) as Ho1.
  { split; [apply lookup_insert_eq|]. rewrite Hf1. apply lookup_insert_eq. }
  destruct (lseek_start path s1 _ _ _ Ho1 eq_refl) as (rc2 & sc2 & e2 & El & Hsc2). cbn [d_file] in El.
  set (s2 := moved _ _ _ _ _ _) in El.
  assert (opened s2 (next_fd s) (Desc path 0) []) as Ho2 by (apply moved_opened, Ho1).
  destruct (write_attempt_eq path _ _ _ (persisted (Some t)) (kvtree_persist_size (Some t)) s2 Ho2)
    as (m & r & sc3 & e3 & Ew & Hle & Hr & Hh & Hs3); [by rewrite persisted_length|].
  cbn [Nat.add d_file d_pos] in *. set (s3 := moved _ _ _ _ _ _) in Ew.
  set (c3 := splice [] 0 (take m (drop 0 (persisted (Some t))))) in Ew.
  assert (opened s3 (next_fd s) (Desc path m) c3) as Ho3 by (apply moved_opened; apply lookup_insert_eq).
  destruct (close_spec path s3 _ _ _ Ho3) as (rc4 & sc4 & e4 & Ec & _ & Hs4 & _).
  assert (files (close_state (next_fd s) (touch s3 sc4 e4)) = <[path := c3]> (files s)) as Hfs.
  { transitivity (<[path := c3]> (files s1)); [done|by rewrite Hf1, insert_insert_eq]. }
  exists t, (if r <? 0 then KVTREE_FAILURE else rc), (close_state (next_fd s) (touch s3 sc4 e4)).
  split; [|split; [|split_and!]].
  - unfold write_save. rewrite run_bind_file.
    eapply runs_next; [exact Hin|by intros; apply framed_getmode|exact Eg|]. clear Hin. intros Hin.
    rewrite run_bind_file. eapply runs_next; [exact Hin|by intros; apply framed_kvtree_open|exact Eo|]. clear Hin. intros Hin.
    rewrite (proj2 (Z.leb_le _ _)) by lia. fold kLEVEL kRANKS. rewrite E1. cbn [proc_bind]. rewrite E2. cbn [proc_bind].
    rewrite write_persist_eq by done. cbn [proc_bind].
    rewrite run_bind_file. change (Z.to_nat 0) with 0%nat.
    eapply runs_next; [exact Hin|by intros; apply framed_lseek|exact El|]. clear Hin. intros Hin.
    rewrite run_bind_file. eapply runs_next; [exact Hin|by intros; apply framed_write_attempt|exact Ew|]. clear Hin. intros Hin.
    rewrite run_bind_file. eapply runs_next; [exact Hin|by intros; apply framed_close|exact Ec|]. intros _.
    rewrite run_bind_done. constructor.
  - closed Hfds.
  - done.
  - intros f Hf. rewrite Hfs. by apply lookup_insert_ne.
  - destruct Hr as [->|[-> Hm]]; [by right|left]. rewrite (proj2 (Z.ltb_ge _ _)) by lia. split; [done|].
    rewrite Hfs, lookup_insert_eq. unfold c3, splice. rewrite drop_0, take_ge by (rewrite persisted_length; lia).
    destruct (persisted (Some t)) eqn:E; [done|]. cbn. by rewrite app_nil_r.
  - intros Hcalm. assert (calm (script s2)) as Hc2 by (do 2 (eapply calm_suffix; [eassumption|]; cbn); exact Hcalm).
    assert (r <> -1) as Hne by (apply Hh; [rewrite calm_hard by done; lia|by apply calm_no_zero]).
    destruct Hr as [?|[-> _]]; [done|]. by rewrite (proj2 (Z.ltb_ge _ _)) by lia.
Qed.

(** What [read_at] can answer for a file with the tree [t]. *)
Definition read_answer (t : kvtree) (x : option Z * option kvtree) : Prop :=
  x = (None, Some kvtree_new) \/ x = (Some (-1), Some kvtree_new) \/
  exists r t', x = (Some r, Some t') /\ 0 <= r /\ wf t' /\ t' ≡ t.

Definition answered (x : option Z * option kvtree) : bool :=
  match x.1 with Some r => 0 <=? r | None => false end.

Lemma answered_tree t x :
  read_answer t x -> answered x = true -> exists r t', x = (Some r, Some t') /\ 0 <= r /\ wf t' /\ t' ≡ t.
Proof. by intros [->|[->|?]]. Qed.

(** Reading gives back the tree or reports failure, and without errors of the system
    it does not; the files stay as they are. *)
Lemma read_at_runs path t s (K : option Z * option kvtree -> proc (act A)) :
  own path = Some i -> ready s -> files s !! path = Some (persisted (Some t)) -> wf t -> storable t ->
  exists x s', runs own i (run_bind (read_at (Some path) 0 (Some kvtree_new)) K) s (K x) s' /\
    goes_on s s' /\ files s' = files s /\ read_answer t x /\ (calm (script s) -> answered x = true).
Proof.
  intros Hown Hq Hfile Hwf Hst. pose proof (ready_inside s Hq) as Hin. pose proof Hq as ([Hmask Hnext] & Hfds).
  destruct (storable_fits t Hst) as [Hsm Hmax].
  destruct (open_replies path O_RDONLY 0 s) as (sc & e & Hsc & [Eo|[Eo Hnc]]); [by unfold can_open; rewrite Hfile| |].
  2:{ exists (None, Some kvtree_new), (touch s sc e).
      split; [|split; [by apply goes_on_touch|split_and!; [done|by left|done]]].
      unfold read_at. rewrite run_bind_file.
      change (kvtree_open path O_RDONLY None) with (kvtree_open path O_RDONLY (Some 0)).
      eapply runs_next; [exact Hin|by intros; apply framed_kvtree_open|exact Eo|]. intros _.
      change (0 <=? -1) with false. cbv beta iota. rewrite run_bind_done. constructor. }
  set (s1 := open_state _ _ _ _) in Eo.
  assert (files s1 = files s) as Hf1 by (unfold s1, open_state; simpl; by rewrite Hfile).
  assert (opened s1 (next_fd s) (Desc path 0) (persisted (Some t))) as Ho1
    by (split; [apply lookup_insert_eq|by rewrite Hf1]).
  destruct (lseek_start path s1 _ _ _ Ho1 eq_refl) as (rc2 & sc2 & e2 & El & Hsc2). cbn [d_file] in El.
  set (s2 := moved _ _ _ _ _ _) in El.
  assert (opened s2 (next_fd s) (Desc path 0) (persisted (Some t))) as Ho2 by (apply moved_opened, Ho1).
  destruct (read_fd_refines path _ _ _ kvtree_new s2 Ho2) as (p & sc3 & e3 & Hres & Er & Hs3).
  cbn [d_pos d_file] in Er, Hres. rewrite drop_0 in Er, Hres.
  pose proof (parse_persisted t kvtree_new [] Hsm Hmax) as Hp. rewrite app_nil_r in Hp. rewrite Hp in Er, Hres.
  destruct (merge_merged kvtree_new (Some (unpacked t)) wf_new) as (rc0 & Em). rewrite Em in Er, Hres.
  cbn [obind fst default] in Er, Hres. set (s3 := moved _ _ _ _ _ _) in Er, Hres.
  assert (opened s3 (next_fd s) (Desc path p) (persisted (Some t))) as Ho3 by (apply moved_opened, Ho2).
  destruct (close_spec path s3 _ _ _ Ho3) as (rc4 & sc4 & e4 & Ec & _ & Hs4 & _).
  assert (exists r t', kvtree_read_fd (Some path) (Z.of_nat (next_fd s)) (Some kvtree_new) s2 = Ok ((r, t'), s3) /\
            read_answer t (Some r, t') /\ (calm (script s) -> 0 <= r)) as (r & t' & Erd & Hans & Hcr).
  { assert (read_answer t (Some (Z.of_nat (kvtree_persist_size (Some t))), Some (merged kvtree_new (unpacked t)))) as Hgood.
    { right; right. do 2 eexists. split_and!; [done|lia|apply merged_wf, wf_new|].
      intros q. rewrite merged_path by apply wf_new. rewrite has_path_new, has_path_opt_None.
      cbn [default id]. rewrite unpacked_path by done. by destruct q. }
    destruct Hres as [Hres|Hres]; do 2 eexists; (split; [exact Hres|]); split; try lia; [done|by right; left|].
    intros Hcalm. assert (calm (script s2)) as Hc2 by (do 2 (eapply calm_suffix; [eassumption|]; cbn); exact Hcalm).
    rewrite Er in Hres by (rewrite calm_hard by done; lia). injection Hres. lia. }
  exists (Some r, t'), (close_state (next_fd s) (touch s3 sc4 e4)). split; [|split; [|split_and!]].
  - unfold read_at. rewrite run_bind_file.
    change (kvtree_open path O_RDONLY None) with (kvtree_open path O_RDONLY (Some 0)).
    eapply runs_next; [exact Hin|by intros; apply framed_kvtree_open|exact Eo|]. clear Hin. intros Hin.
    rewrite (proj2 (Z.leb_le _ _)) by lia. rewrite run_bind_file. change (Z.to_nat 0) with 0%nat.
    eapply runs_next; [exact Hin|by intros; apply framed_lseek|exact El|]. clear Hin. intros Hin.
    rewrite run_bind_file. eapply runs_next; [exact Hin|by intros; apply framed_read_fd|exact Erd|]. clear Hin. intros Hin. cbv beta iota.
    rewrite run_bind_file. eapply runs_next; [exact Hin|by intros; apply framed_close|exact Ec|]. intros _.
    rewrite run_bind_done. constructor.
  - closed Hfds.
  - transitivity (files s1); [done|exact Hf1].
  - done.
  - intros Hcalm. unfold answered. cbn. apply Z.leb_le. by apply Hcr.
Qed.

(** A file that is not there, whatever the system replies. *)
Lemma read_at_missing path h s (K : option Z * option kvtree -> proc (act A)) :
  own path = Some i -> inside (mine own i) s -> files s !! path = None ->
  exists s', runs own i (run_bind (read_at (Some path) 0 h) K) s (K (None, h)) s' /\
    inside (mine own i) s' /\ files s' = files s.
Proof.
  intros Hown Hin Hfile. destruct (open_eq path O_RDONLY 0 s) as (sc & e & _ & Eo).
  assert (can_open path O_RDONLY s = false) as Hcan by (unfold can_open; by rewrite Hfile).
  rewrite Hcan in Eo. exists (touch s sc e). split; [|done]. unfold read_at. rewrite run_bind_file.
  change (kvtree_open path O_RDONLY None) with (kvtree_open path O_RDONLY (Some 0)).
  eapply runs_next; [exact Hin|by intros; apply framed_kvtree_open|exact Eo|]. intros _.
  change (0 <=? -1) with false. cbv beta iota. rewrite run_bind_done. constructor.
Qed.

End own_file.
