(* ===== verification/Levels.v ===== *)
(** The levels of a collective write: the names of the files, the entry for a
    file in the map above it, how many processes write on each level, and what
    the files of a whole tree of maps hold ([chain]). *)

From stdpp Require Import relations.
From S2P Require Import Prelude CLib ByteOrder Kvtree KvtreeSpec KvtreeMap KvtreeMerge Pack.
From S2P Require Import Io Persist Format Sort Util Paths Gather GatherSpec ScatterSpec.
From S2P Require Import Net Mpi Exchange Bruck ExchangeSpec Writers Items World MpiIo LevelFile.

(** ** Names *)

(** The file of process [w] on level [l], without the prefix: [.l.w]. *)
Definition level_name (l w : nat) : cstring :=
  str "." ++ fmt_signed (Z.of_nat l) ++ str "." ++ fmt_signed (Z.of_nat w).

Lemma level_name_0 w : level_name 0 w = str ".0." ++ fmt_signed (Z.of_nat w).
Proof. reflexivity. Qed.

Lemma level_name_length l w : (length (level_name l w) <= 132)%nat.
Proof.
  unfold level_name. rewrite !length_app. change (length (str ".")) with 1%nat.
  pose proof (fmt_signed_length (Z.of_nat l)). pose proof (fmt_signed_length (Z.of_nat w)). lia.
Qed.

Lemma level_name_nul_free l w : nul_free (level_name l w).
Proof.
  unfold level_name, nul_free. rewrite !elem_of_app.
  pose proof (fmt_signed_nul_free (Z.of_nat l)) as Hl. pose proof (fmt_signed_nul_free (Z.of_nat w)) as Hw.
  assert (nul_free (str ".")) as Hd by (by apply str_nul_free). unfold nul_free in *. tauto.
Qed.

Lemma fmt_no_dot m : dot ∉ fmt_signed (Z.of_nat m).
Proof.
  destruct (fmt_signed_digits (Z.of_nat m)) as [_ Hd]; [lia|]. intros Hin.
  rewrite list.Forall_forall in Hd. by apply Hd in Hin.
Qed.

Lemma split_dot a b a' b' : dot ∉ a -> dot ∉ a' -> a ++ dot :: b = a' ++ dot :: b' -> a = a' /\ b = b'.
Proof.
  revert a'. induction a as [|x a IH]; intros [|x' a'] Ha Ha' E; cbn in E.
  - by injection E as ->.
  - injection E as <- _. exfalso. apply Ha'. by left.
  - injection E as -> _. exfalso. apply Ha. by left.
  - injection E as <- E. rewrite not_elem_of_cons in Ha, Ha'.
    destruct (IH a') as [-> ->]; [tauto|tauto|done|done].
Qed.

Lemma fmt_nat_inj a b : is_int (Z.of_nat a) -> is_int (Z.of_nat b) ->
  fmt_signed (Z.of_nat a) = fmt_signed (Z.of_nat b) -> a = b.
Proof. intros Ha Hb E%fmt_inj; [lia|done|done]. Qed.

Lemma level_name_inj l w l' w' :
  is_int (Z.of_nat l) -> is_int (Z.of_nat w) -> is_int (Z.of_nat l') -> is_int (Z.of_nat w') ->
  level_name l w = level_name l' w' -> l = l' /\ w = w'.
Proof.
  intros Hl Hw Hl' Hw' E. unfold level_name in E. apply app_inv_head in E.
  apply split_dot in E as [E1 E2]; [|apply fmt_no_dot..].
  split; by apply fmt_nat_inj.
Qed.

(** ** The entry of a file *)
Section entry.
Context `{Libc}.

(** The hash a process sends for its file. *)
Definition entry_of (file : cstring) : outcome (option kvtree) :=
  let* (hash, _) := kvtree_util_set_str (Some kvtree_new) (str "FILE") (Some file) in
  let* (hash, _) := kvtree_util_set_bytecount hash (str "OFFSET") 0 in
  Ok hash.

Definition entry (file : cstring) : kvtree :=
  match entry_of file with Ok (Some t) => t | _ => kvtree_new end.

Definition kFILE : cstring := str "FILE".
Definition kOFFSET : cstring := str "OFFSET".

Lemma entry_spec file :
  nul_free file -> (length file <= 132)%nat ->
  (exists h, kvtree_util_set_str (Some kvtree_new) (str "FILE") (Some file) = Ok (Some h, KVTREE_SUCCESS) /\
     kvtree_util_set_bytecount (Some h) (str "OFFSET") 0 = Ok (Some (entry file), KVTREE_SUCCESS)) /\
  wf (entry file) /\
  (forall k q, has_path (entry file) (k :: q)
     = graft [kFILE; file] leaf (k :: q) || graft [kOFFSET; str "0"] leaf (k :: q)) /\
  0 < Z.of_nat (kvtree_pack_size (Some (entry file))) <= 256.
Proof.
  intros Hf Hl.
  destruct (util_set_spec kvtree_new kFILE (SStr file) wf_new) as (h & E1 & Hw1 & Hv1 & Ho1); [done|vm_compute; lia|].
  cbn [util_set setting_text] in *. rewrite c_str_id in Hv1 by done.
  destruct (util_set_spec h kOFFSET (SBytecount 0) Hw1) as (t & E2 & Hw2 & Hv2 & Ho2); [done|vm_compute; lia|].
  cbn [util_set setting_text] in *.
  assert (entry file = t) as Et.
  { unfold entry, entry_of. fold kFILE kOFFSET. rewrite E1. cbn [obind]. by rewrite E2. }
  rewrite Et. split; [by exists h|]. split; [done|].
  destruct (value_adds kvtree_new kFILE file h wf_new Hw1) as [_ Hp1]; [done..|].
  destruct (value_adds h kOFFSET (fmt_unsigned 0) t Hw1 Hw2) as [_ Hp2]; [by rewrite Ho1|done..|].
  assert (forall k q, has_path t (k :: q)
     = graft [kFILE; file] leaf (k :: q) || graft [kOFFSET; str "0"] leaf (k :: q)) as Hp.
  { intros k q. rewrite Hp2, Hp1, has_path_new. done. }
  split; [done|]. rewrite pack_size_encode. cbn [encode_opt]. split; [pose proof (encode_pos t); lia|].
  set (u := KVTree [kv_elem kFILE file; kv_elem kOFFSET (str "0")]).
  assert (wf u) as Hu.
  { apply wf_iff. split; [apply (bool_decide_eq_true_1 _); by vm_compute|].
    repeat (apply Forall_cons_iff; split); [apply wf_kv_elem..|constructor]; done || by apply str_nul_free. }
  assert (length (encode t) <= length (encode u))%nat as Hle.
  { rewrite <- !tree_pack_size_encode. apply sub_paths_size; [done..|]. intros [|k q]; [done|].
    rewrite Hp. unfold u. rewrite list_path. cbn [existsb]. by rewrite !kv_path, orb_false_r. }
  assert (length (encode u) <= 256)%nat; [|lia].
  unfold u. rewrite encode_eq. cbn [map concat]. rewrite !length_app, !kv_elem_size, be_split_length.
  unfold strlen at 2. rewrite (c_str_id file) by done.
  change (strlen kFILE) with 4%nat. change (strlen kOFFSET) with 6%nat. change (strlen (str "0")) with 1%nat. cbn. lia.
Qed.

(** What a reader gets out of it. *)
Lemma entry_get c file :
  wf c -> c ≡ entry file -> nul_free file -> (length file <= 132)%nat ->
  kvtree_util_get_str (Some c) kFILE = (KVTREE_SUCCESS, Some file) /\
  kvtree_util_get_bytecount (Some c) kOFFSET = (KVTREE_SUCCESS, Some 0).
Proof.
  intros Hwf Ec Hf Hl. destruct (entry_spec file Hf Hl) as (_ & _ & Hp & _).
  unfold kvtree_util_get_str, kvtree_util_get_bytecount.
  rewrite (one_value c kFILE file), (one_value c kOFFSET (str "0")); [| | | | | |].
  - split; [done|]. change (str "0") with (fmt_unsigned 0). by rewrite strtoul_fmt_unsigned.
  - done.
  - by apply str_nul_free.
  - intros k2. rewrite Ec, Hp. cbn [graft leaf]. rewrite (bool_decide_eq_false_2 (c_str kFILE = _)), (bool_decide_eq_true_2 (c_str kOFFSET = _)) by done.
    cbn [andb orb]. by rewrite andb_true_r.
  - done.
  - done.
  - intros k2. rewrite Ec, Hp. cbn [graft leaf]. rewrite (bool_decide_eq_true_2 (c_str kFILE = _)), (bool_decide_eq_false_2 (c_str kOFFSET = _)) by done.
    cbn [andb orb]. by rewrite andb_true_r, orb_false_r, (c_str_id file).
Qed.
End entry.

(** ** How many processes start a segment *)
Definition count (V : nat -> bool) (n : nat) : Z := before (fun r => bool_int (V r)) n.

Lemma starters_bound counts n :
  (forall s, (s < n)%nat -> 0 <= counts s) ->
  count (starts counts) n <= 1 + before counts n / segsize.
Proof.
  unfold count. induction n as [|n IH]; intros Hc; cbn [before]; [done|].
  specialize (IH ltac:(intros; apply Hc; lia)). specialize (Hc n ltac:(lia)) as Hcn.
  pose proof (before_mono counts n n ltac:(intros; apply Hc; lia) ltac:(lia)) as Hb.
  assert (before counts n / segsize <= (before counts n + counts n) / segsize) as Hm
    by (apply Z.div_le_mono; unfold segsize; lia).
  destruct (starts counts n) eqn:Hs; cbn [bool_int]; [|lia].
  unfold starts in Hs. apply orb_true_iff in Hs as [->%Nat.eqb_eq|[_ Hlt%Z.ltb_lt]%andb_true_iff].
  - cbn [before]. assert (0 <= (0 + counts 0%nat) / segsize) by (apply Z.div_pos; unfold segsize; lia). lia.
  - assert ((before counts n + counts n - 1) / segsize <= (before counts n + counts n) / segsize)
      by (apply Z.div_le_mono; unfold segsize; lia). lia.
Qed.

Lemma count_pos V n r : (r < n)%nat -> V r = true -> 1 <= count V n.
Proof.
  unfold count. induction n as [|n IH]; intros Hr HV; [lia|]. cbn [before].
  assert (0 <= before (fun r => bool_int (V r)) n).
  { apply (before_mono (fun r => bool_int (V r)) n n); [|lia]. intros s _. by destruct (V s). }
  destruct (decide (r = n)) as [->|]; [rewrite HV; cbn; lia|].
  specialize (IH ltac:(lia) HV). destruct (V n); cbn; lia.
Qed.

Lemma count_two V n r : (0 < r < n)%nat -> V 0%nat = true -> V r = true -> 2 <= count V n.
Proof.
  intros Hr H0 HV. revert Hr. induction n as [|n IH]; intros Hr; [lia|]. unfold count. cbn [before].
  fold (count V n). destruct (decide (r = n)) as [->|].
  - pose proof (count_pos V n 0 ltac:(lia) H0). rewrite HV. cbn. lia.
  - specialize (IH ltac:(lia)). destruct (V n); cbn; lia.
Qed.

Lemma count_le V n : count V n <= Z.of_nat n.
Proof. unfold count. induction n as [|n IH]; cbn [before]; [done|]. destruct (V n); cbn [bool_int]; lia. Qed.

Lemma before_scale (V : nat -> bool) (f : nat -> Z) c n :
  (forall r, (r < n)%nat -> f r <= c * bool_int (V r)) -> before f n <= c * count V n.
Proof.
  unfold count. induction n as [|n IH]; intros Hf; cbn [before]; [lia|].
  specialize (IH ltac:(intros; apply Hf; lia)). specialize (Hf n ltac:(lia)). lia.
Qed.

Lemma starts_writer st r : st 0%nat = true -> (writer st r =? r)%nat = st r.
Proof.
  intros H0. destruct (writer_is st H0 r) as (Hw & Hs & Hn).
  destruct (st r) eqn:Hr.
  - apply Nat.eqb_eq. apply (writer_unique st r); [apply writer_is; done|]. split_and!; [lia|done|lia].
  - apply Nat.eqb_neq. intros E. rewrite E in Hs. congruence.
Qed.

(** Below 2048 files per level and fuel, the levels get smaller until one process
    has all names. *)
Lemma fewer_writers V counts n fuel :
  (forall r, (r < n)%nat -> 0 <= counts r <= 256 * bool_int (V r)) ->
  count V n < 2048 ^ Z.of_nat (S fuel) ->
  one_writer n counts = true \/ count (starts counts) n < 2048 ^ Z.of_nat fuel.
Proof.
  intros Hc HV. pose proof (starters_bound counts n ltac:(intros; by apply Hc)) as Hst.
  assert (before counts n <= 256 * count V n) as Hb by (apply before_scale; intros; by apply Hc).
  rewrite Nat2Z.inj_succ, Z.pow_succ_r in HV by lia.
  pose proof (Z.pow_pos_nonneg 2048 (Z.of_nat fuel) ltac:(lia) ltac:(lia)) as Hp.
  set (p := 2048 ^ Z.of_nat fuel) in *.
  assert (before counts n / segsize < p) as Hd.
  { apply Z.div_lt_upper_bound; unfold segsize; lia. }
  destruct fuel as [|fuel].
  - left. change p with 1 in *. assert (0 <= before counts n / segsize) as Hpos.
    { apply Z.div_pos; [|done]. apply (before_mono counts n n); [|lia]. intros; by apply Hc. }
    unfold one_writer. apply bool_decide_eq_true.
    destruct (writer_is (starts counts) eq_refl (n - 1)) as (Hw & Hs & _).
    destruct (decide (writer (starts counts) (n - 1) = 0%nat)) as [|Hne]; [done|]. exfalso.
    pose proof (count_two (starts counts) n (writer (starts counts) (n - 1)) ltac:(lia) eq_refl Hs). lia.
  - right. assert (before counts n / segsize < p / 2 + 1) as Hd2.
    { assert (2 * (p / 2) = p) as E.
      { unfold p. rewrite Nat2Z.inj_succ, Z.pow_succ_r by lia.
        replace (2048 * 2048 ^ Z.of_nat fuel) with (1024 * 2048 ^ Z.of_nat fuel * 2) by lia.
        rewrite Z.div_mul by lia. lia. }
      apply Z.div_lt_upper_bound; unfold segsize; lia. }
    assert (2048 <= p). 
    { unfold p. rewrite Nat2Z.inj_succ, Z.pow_succ_r by lia. pose proof (Z.pow_pos_nonneg 2048 (Z.of_nat fuel)). lia. }
    assert (p / 2 + 2 <= p) by (pose proof (Z.mul_div_le p 2); lia). lia.
Qed.

(** ** The files of all levels *)
Section levels.
Context `{Host} `{Zlib} `{Libc}.
Variable n : nat.
Variable prefix : cstring.
Variable ranks : Z.

Definition level_path_of (l w : nat) : cstring := c_str prefix ++ level_name l w.

(** The writers of the segments [st] have stored the trees [t] that the processes
    [V] of their segments have, on level [l], with the number [ranks] of processes. *)
Definition level_ok (D : disk) (file : nat -> cstring) (l : nat) (V : nat -> bool) (t : nat -> kvtree)
    (st : nat -> bool) : Prop :=
  forall w, (w < n)%nat -> st w = true ->
    exists recv x, D !! file w = Some (persisted (Some x)) /\ wf recv /\
      level_file (Z.of_nat l) ranks recv x /\
      forall k q, has_path recv (k :: q) = true <->
        exists s, (s < n)%nat /\ V s = true /\ writer st s = w /\
          c_str k = fmt_signed (Z.of_nat s) /\ has_path (t s) q = true.

(** The entries on level [l] are for the files of the level below. *)
Definition entries (l s : nat) : kvtree := entry (level_name (l - 1) s).

(** [k] levels of maps from level [l] on, for files of the processes [V]; the top
    one is in the file [prefix]. *)
Inductive maps (D : disk) : nat -> (nat -> bool) -> nat -> Prop :=
| maps_top l V st :
    st 0%nat = true -> (forall r, (r < n)%nat -> writer st r = 0%nat) ->
    level_ok D (fun _ => c_str prefix) l V (entries l) st -> maps D l V 1
| maps_level l V st k :
    st 0%nat = true -> level_ok D (level_path_of l) l V (entries l) st ->
    maps D (S l) st k -> maps D l V (S k).

(** The levels that are ever used are below this one. *)
Definition max_level : nat := 8.

(** The files of the levels from [l] on. *)
Definition map_file (l : nat) (f : cstring) : Prop :=
  f = c_str prefix \/ exists l2 w, (l <= l2 < max_level)%nat /\ (w < n)%nat /\ f = level_path_of l2 w.

Lemma level_ok_ext D D' file l V t st :
  (forall w, (w < n)%nat -> st w = true -> D' !! file w = D !! file w) ->
  level_ok D file l V t st -> level_ok D' file l V t st.
Proof.
  intros HD Hl w Hw Hst. destruct (Hl w Hw Hst) as (recv & x & Hx & Hrest). exists recv, x.
  split; [|done]. by rewrite HD.
Qed.

Lemma maps_ext D D' l V k :
  (l + k <= max_level)%nat -> (forall f, map_file l f -> D' !! f = D !! f) -> maps D l V k -> maps D' l V k.
Proof.
  intros Hk HD Hm. induction Hm as [l V st Hz Hw Hl|l V st k Hz Hl Hm IH].
  - econstructor; [exact Hz|exact Hw|]. eapply level_ok_ext; [|exact Hl]. intros w _ _. apply HD. by left.
  - econstructor; [exact Hz| |].
    + eapply level_ok_ext; [|exact Hl]. intros w Hwn _. apply HD. right. exists l, w. split_and!; [lia|lia|done|done].
    + apply IH; [lia|]. intros f Hf. apply HD. destruct Hf as [->|(l2 & w & Hl2 & Hwn & ->)]; [by left|].
      right. exists l2, w. split_and!; [lia|lia|done|done].
Qed.

(** ** Whose file it is *)
Definition own (f : cstring) : option nat :=
  if decide (f = c_str prefix) then Some 0%nat
  else head (filter (fun w => Exists (fun l => f = level_path_of l w) (seq 0 max_level)) (seq 0 n)).

Lemma own_prefix : own (c_str prefix) = Some 0%nat.
Proof. unfold own. by rewrite decide_True. Qed.

Lemma level_not_prefix l w : level_path_of l w <> c_str prefix.
Proof.
  unfold level_path_of. intros E. rewrite <- (app_nil_r (c_str prefix)) in E at 2. by apply app_inv_head in E.
Qed.

Lemma level_path_inj l w l2 w2 :
  Z.of_nat n <= 2 ^ 30 -> (l < max_level)%nat -> (l2 < max_level)%nat -> (w < n)%nat -> (w2 < n)%nat ->
  level_path_of l w = level_path_of l2 w2 -> l = l2 /\ w = w2.
Proof.
  unfold max_level. intros HN Hl Hl2 Hw Hw2 E. apply app_inv_head in E. apply level_name_inj in E; [done|int_lia..].
Qed.

Lemma own_level l w :
  Z.of_nat n <= 2 ^ 30 -> (l < max_level)%nat -> (w < n)%nat -> own (level_path_of l w) = Some w.
Proof.
  intros HN Hl Hw. unfold own. rewrite decide_False by apply level_not_prefix.
  destruct (filter _ _) as [|w2 ws] eqn:E.
  - exfalso. assert (w ∈ filter (fun w2 => Exists (fun l2 => level_path_of l w = level_path_of l2 w2) (seq 0 max_level)) (seq 0 n)) as Hin.
    { apply list_elem_of_filter. split; [|apply elem_of_seq; lia]. apply list.Exists_exists. exists l.
      split; [apply elem_of_seq; lia|done]. }
    rewrite E in Hin. by apply elem_of_nil in Hin.
  - assert (w2 ∈ filter (fun w2 => Exists (fun l2 => level_path_of l w = level_path_of l2 w2) (seq 0 max_level)) (seq 0 n)) as Hin
      by (rewrite E; by left).
    apply list_elem_of_filter in Hin as [(l2 & Hl2%elem_of_seq & Ep)%list.Exists_exists Hw2%elem_of_seq].
    cbn. f_equal. by destruct (level_path_inj l w l2 w2) as [_ ->]; [done|done|lia|done|lia|done|].
Qed.
End levels.

(** ** The same files for more processes

    To a larger communicator the files of [n] processes are the files of its first
    [n] processes. *)
Definition below (n : nat) (V : nat -> bool) (r : nat) : bool := (r <? n)%nat && V r.

Lemma below_lt n V r : (r < n)%nat -> below n V r = V r.
Proof. intros Hr. unfold below. by rewrite (proj2 (Nat.ltb_lt _ _)). Qed.

Lemma below_true n V r : below n V r = true -> (r < n)%nat /\ V r = true.
Proof. unfold below. by intros [?%Nat.ltb_lt ?]%andb_true_iff. Qed.

Section more.
Context `{Host} `{Zlib} `{Libc} (n n' : nat) (prefix : cstring) (ranks : Z).
Hypothesis Hn : (0 < n)%nat.
Hypothesis Hle : (n <= n')%nat.

Lemma writer_below st r :
  st 0%nat = true -> writer (below n st) r = writer st (r `min` (n - 1)).
Proof.
  intros Hst. assert (below n st 0 = true) as Hb by (by rewrite below_lt).
  destruct (writer_is st Hst (r `min` (n - 1))) as (Hw & Hs & Hoff).
  apply (writer_unique (below n st) r); [by apply writer_is|]. split_and!.
  - lia.
  - by rewrite below_lt by lia.
  - intros s Hrs. apply not_true_iff_false. intros [Hsn Hss]%below_true.
    rewrite Hoff in Hss by lia. done.
Qed.

Lemma level_ok_more D file l V t st :
  st 0%nat = true -> level_ok n ranks D file l V t st -> level_ok n' ranks D file l (below n V) t (below n st).
Proof.
  intros Hst Hlev w Hw [Hwn Hsw]%below_true. destruct (Hlev w Hwn Hsw) as (recv & x & Hx & Hr & Hf & Hp).
  exists recv, x. split_and!; [done..|]. intros k q. rewrite Hp. split.
  - intros (s & Hs & HV & HW & Ek & Hq). exists s. split_and!; [lia|by rewrite below_lt| |done|done].
    rewrite writer_below by done. by replace (s `min` (n - 1))%nat with s by lia.
  - intros (s & Hs & [Hsn HV]%below_true & HW & Ek & Hq). exists s. split_and!; [done|done| |done|done].
    rewrite writer_below in HW by done. by replace (s `min` (n - 1))%nat with s in HW by lia.
Qed.

Lemma maps_more D l V k :
  maps n prefix ranks D l V k -> maps n' prefix ranks D l (below n V) k.
Proof.
  induction 1 as [l V st Hz Hw Hl|l V st k Hz Hl Hm IH].
  - apply (maps_top _ _ _ _ _ _ (below n st)).
    + by rewrite below_lt.
    + intros r _. rewrite writer_below by done. apply Hw. lia.
    + by apply level_ok_more.
  - apply (maps_level _ _ _ _ _ _ (below n st)); [by rewrite below_lt|by apply level_ok_more|done].
Qed.
End more.
