(* ===== verification/CollectiveWrite.v ===== *)
(** What [kvtree_write_gather] does on all processes: each level is a round of
    [pick_writer], an exchange to the left and a phase in which the writers store
    what they received; the levels end with one writer.  The system may report errors:
    the rounds go on all the same, and in the end all processes agree whether every
    file was written. *)

From stdpp Require Import relations.
From S2P Require Import Prelude CLib ByteOrder Kvtree KvtreeSpec KvtreeMap KvtreeMerge Pack.
From S2P Require Import Io Persist Format Sort Util Paths Gather GatherSpec.
From S2P Require Import Net Mpi Exchange Bruck ExchangeSpec Writers Items World MpiIo LevelFile Levels.

Lemma choice_lt {A} (d : A) n (P : nat -> A -> Prop) :
  (forall r, (r < n)%nat -> exists x, P r x) -> exists f, forall r, (r < n)%nat -> P r (f r).
Proof.
  induction n as [|n IH]; intros H; [exists (fun _ => d); lia|].
  destruct IH as [f Hf]; [intros r Hr; apply H; lia|]. destruct (H n) as [x Hx]; [lia|].
  exists (fun r => if decide (r = n) then x else f r). intros r Hr.
  case_decide as E; [by subst r|]. apply Hf. lia.
Qed.

Section collective.
Context `{Host} `{Zlib} `{Libc} `{MpiConst} `{MpiBuffers}.
Hypothesis Hmalloc : INT_MAX <= malloc_max.
Variable n : nat.
Variable prefix : cstring.
Hypothesis Hn : (0 < n)%nat.
Hypothesis HN : Z.of_nat n <= 2 ^ 20.
Hypothesis Hprefix : (strlen prefix <= 800)%nat.

Notation own := (own n prefix).
Notation path_of := (level_path_of prefix).

(** All processes are ready to go on with their files; the system reports no errors
    to any of them; they have gone on. *)
Definition all_ready (L : nat -> os) : Prop := forall r, (r < n)%nat -> ready (L r).
Definition all_calm (L : nat -> os) : Prop := forall r, (r < n)%nat -> calm (script (L r)).
Definition all_go_on (L L' : nat -> os) : Prop := all_ready L' /\ (all_calm L -> all_calm L').

Lemma all_go_on_trans L1 L2 L3 : all_go_on L1 L2 -> all_go_on L2 L3 -> all_go_on L1 L3.
Proof. intros [_ Hc1] [Hr2 Hc2]. split; [done|auto]. Qed.

Lemma ready_files s D : ready s -> ready (set_files D s).
Proof. done. Qed.

(** The writers [st] store what they received, or report that they could not. *)
Lemma write_phase {A} (file : nat -> cstring) l (outs : nat -> kvtree) (st : nat -> bool) (rc : nat -> Z)
    (K : nat -> Z -> proc (act A)) ch D L :
  (forall w, (w < n)%nat -> st w = true -> own (file w) = Some w) -> all_ready L ->
  (forall r, (r < n)%nat -> st r = true -> wf (outs r) /\ has_room (outs r)) ->
  exists rc' D' L', all_go_on L L' /\
    (forall r, (r < n)%nat -> rc' r = rc r \/ rc' r = KVTREE_FAILURE) /\
    (all_calm L -> forall r, (r < n)%nat -> rc' r = rc r) /\
    (forall w, (w < n)%nat -> st w = true -> rc' w = KVTREE_SUCCESS ->
       exists x, D' !! file w = Some (persisted (Some x)) /\ level_file (Z.of_nat l) (Z.of_nat n) (outs w) x) /\
    (forall f, (forall w, (w < n)%nat -> st w = true -> f <> file w) -> D' !! f = D !! f) /\
    rtc (ostep own)
      (at_all n (fun r => run_bind (if st r then write_save (file r) (Some (rank_tree (outs r)))
                                            (Z.of_nat l) (Z.of_nat n) 0 (rc r)
                               else done (rc r)) (K r)) ch D L)
      (at_all n (fun r => K r (rc' r)) ch D' L').
Proof.
  intros Hown HL Houts.
  destruct (choice_lt (0, L 0%nat) n (fun r y => let '(rc', s') := y in
    runs own r (run_bind (if st r then write_save (file r) (Some (rank_tree (outs r))) (Z.of_nat l) (Z.of_nat n) 0 (rc r)
                          else done (rc r)) (K r)) (set_files D (L r)) (K r rc') s' /\
    goes_on (L r) s' /\ (calm (script (L r)) -> rc' = rc r) /\
    (forall f, (st r = true -> f <> file r) -> files s' !! f = D !! f) /\
    if st r then exists x, level_file (Z.of_nat l) (Z.of_nat n) (outs r) x /\
                   (rc' = rc r /\ files s' !! file r = Some (persisted (Some x)) \/ rc' = KVTREE_FAILURE)
    else rc' = rc r)) as [R HR].
  { intros r Hr. destruct (st r) eqn:Hst.
    - destruct (Houts r Hr Hst) as [Hw Hroom].
      destruct (write_save_runs own r (file r) (Z.of_nat l) (Z.of_nat n) (outs r) (rc r) (set_files D (L r)) (K r))
        as (x & rc' & s' & Hrun & Hq & Hx & Hoff & Hf & Hc); [done|by apply Hown|by apply ready_files, HL|done|done|].
      exists (rc', s'). split; [done|]. split; [exact Hq|]. split_and!; [done|by auto|by exists x].
    - exists (rc r, set_files D (L r)). split; [rewrite run_bind_done; constructor|].
      split; [|done]. split; [by apply ready_files, HL|done]. }
  set (L' r := (R r).2). set (rc' r := (R r).1).
  assert (forall r, (r < n)%nat ->
    runs own r (run_bind (if st r then write_save (file r) (Some (rank_tree (outs r))) (Z.of_nat l) (Z.of_nat n) 0 (rc r)
                          else done (rc r)) (K r)) (set_files D (L r)) (K r (rc' r)) (L' r)) as Hruns.
  { intros r Hr. specialize (HR r Hr). unfold rc', L'. destruct (R r). apply HR. }
  pose proof (phase_files own n _ (fun r => K r (rc' r)) ch D L L' Hruns) as Hphase.
  exists rc', (disk_after own L' D n), L'. split; [|split_and!]; [| | | | |exact Hphase].
  - split; [intros r Hr|intros Hc r Hr; specialize (Hc r Hr)]; specialize (HR r Hr); unfold L'; destruct (R r);
      destruct HR as (_ & [Hq1 Hq2] & _); [done|by apply Hq2].
  - intros r Hr. specialize (HR r Hr). unfold rc'. destruct (R r). destruct HR as (_ & _ & _ & _ & HR).
    destruct (st r); [|by left]. destruct HR as (x & _ & [[? _]|?]); [by left|by right].
  - intros Hc r Hr. specialize (HR r Hr). specialize (Hc r Hr). unfold rc'. destruct (R r).
    destruct HR as (_ & _ & HR & _). by apply HR.
  - intros w Hw Hst Hrc. rewrite disk_after_lookup, Hown, decide_True by done.
    specialize (HR w Hw). unfold rc', L' in *. destruct (R w) as [q s']. rewrite Hst in HR.
    destruct HR as (_ & _ & _ & _ & x & Hx & [[_ Hf]|Hf]); [by exists x|]. cbn in Hrc. subst q. done.
  - intros f Hne. rewrite disk_after_lookup. destruct (own f) as [r|]; [|done]. case_decide as Hr; [|done].
    specialize (HR r Hr). unfold L'. destruct (R r) as [q s']. destruct HR as (_ & _ & _ & Hf & _).
    apply Hf. intros Hst. by apply Hne.
Qed.

(** ** What a process queues for its writer *)
Definition queued (w : Z) (x : kvtree) : kvtree :=
  match kvtree_exchange_sendq (Some kvtree_new) w (Some x) with
  | Ok (Some t, _) => t
  | _ => kvtree_new
  end.

Lemma queued_spec w x :
  kvtree_exchange_sendq (Some kvtree_new) w (Some x) = Ok (Some (queued w x), KVTREE_SUCCESS) /\
  wf (queued w x) /\
  forall k q, has_path (queued w x) (k :: q) = bool_decide (c_str k = fmt_signed w) && has_path x q.
Proof.
  destruct (sendq_spec n kvtree_new w (Some x) wf_new) as (t & E & Hw & Hp & _).
  unfold queued. rewrite E. split_and!; [done..|]. intros k q. by rewrite Hp, has_path_new.
Qed.

Section gather.
Context (V : nat -> bool) (t : nat -> kvtree) (st : nat -> bool).
Hypothesis Hst : st 0%nat = true.
Hypothesis Ht : forall s, (s < n)%nat -> V s = true -> wf (t s).
Hypothesis Hcost : before (item_cost V t) n + 4096 <= INT_MAX.

Notation W := (writer st).

Definition gather_ins (r : nat) : kvtree :=
  if V r then queued (Z.of_nat (W r)) (t r) else kvtree_new.

Lemma writer_lt r : (r < n)%nat -> (W r < n)%nat.
Proof. intros Hr. destruct (writer_is st Hst r). lia. Qed.

Lemma gather_sent : sent_items n V (fun s => s) W t gather_ins.
Proof.
  intros r Hr. unfold gather_ins. destruct (V r) eqn:HV.
  - destruct (queued_spec (Z.of_nat (W r)) (t r)) as (_ & Hw & Hp). split; [done|]. intros k q.
    rewrite Hp, andb_true_iff, bool_decide_eq_true. split.
    + intros [Ek Hq]. exists r. by split_and!.
    + by intros (s & _ & _ & -> & Ek & Hq).
  - split; [apply wf_new|]. intros k q. rewrite has_path_new. split; [done|].
    intros (s & _ & HVs & -> & _). congruence.
Qed.

(** The writers have what they are to store. *)
Lemma gather_exchange {A} (K : nat -> Z * option kvtree -> proc A) ch :
  idle ch ->
  exists outs ch', idle ch' /\
    (forall r, (r < n)%nat -> wf (outs r) /\ has_room (outs r)) /\
    received_items n V (fun s => s) W t outs /\
    rtc step
      (Cfg (running n (fun r =>
         mpi* x := kvtree_exchange_direction (Z.of_nat r) (Z.of_nat n) (Some (gather_ins r)) (Some kvtree_new)
                     KVTREE_EXCHANGE_LEFT in K r x)) ch)
      (Cfg (running n (fun r => K r (KVTREE_SUCCESS, Some (outs r)))) ch').
Proof.
  intros Hidle.
  assert (forall s, (s < n)%nat -> V s = true -> (s < n)%nat /\ (W s < n)%nat /\ wf (t s)) as Hit.
  { intros s Hs HV. split_and!; [done|by apply writer_lt|by apply Ht]. }
  destruct (items_exchange Hmalloc n Hn ltac:(lia) V (fun s => s) W t Hit ltac:(lia) KVTREE_EXCHANGE_LEFT
              gather_ins K ch gather_sent Hidle) as (outs & ch' & Hout & Hi & Hr).
  exists outs, ch'. split_and!; [done| |done|done]. intros r Hrn. split; [by apply Hout|].
  pose proof (received_size n Hn V (fun s => s) W t Hit outs r Hout Hrn). unfold has_room. lia.
Qed.
End gather.

(** ** The maps *)

(** [kvtree_write_gather_map] after its exchange, and after [pick_writer]. *)
Definition map_store (fuel : nat) (r l : nat) (writer allranks : Z) (recv : option kvtree) : proc (act Z) :=
  let rank := Z.of_nat r in
  let level := Z.of_nat l in
  let save := Some kvtree_new in
  let '(save, _) := if rank =? writer then kvtree_set save (Some (str "RANK")) recv else (save, None) in
  let mapfile :=
    if negb (allranks =? 0) then []
    else snprintf 1024 (str "." ++ fmt_signed level ++ str "." ++ fmt_signed writer) in
  let mappath := snprintf 1024 (c_str prefix ++ mapfile) in
  run* rc :=
    (if allranks =? 0 then
       run* r := kvtree_write_gather_map fuel rank n prefix mapfile 0 (i32 (level + 1)) (rank =? writer) in
       done (if negb (r =? KVTREE_SUCCESS) then KVTREE_FAILURE else KVTREE_SUCCESS)
     else done KVTREE_SUCCESS) in
  if rank =? writer then write_save mappath save level (Z.of_nat n) 0 rc else done rc.

Definition map_send (fuel : nat) (r l : nat) (valid : bool) (hash : option kvtree) (x : Z * Z * Z) : proc (act Z) :=
  let '(_, writer, allranks) := x in
  try* (send, _) :=
    (if valid then kvtree_exchange_sendq (Some kvtree_new) writer hash else Ok (Some kvtree_new, KVTREE_SUCCESS)) in
  mpi* (_, recv) := kvtree_exchange_direction (Z.of_nat r) (Z.of_nat n) send (Some kvtree_new) KVTREE_EXCHANGE_LEFT in
  map_store fuel r l writer allranks recv.

Definition map_hash (valid : bool) (file : cstring) : option kvtree :=
  Some (if valid then entry file else kvtree_new).
Definition map_size (valid : bool) (file : cstring) : Z :=
  if valid then Z.of_nat (kvtree_pack_size (Some (entry file))) else 0.

Lemma write_map_pick fuel r l (valid : bool) file :
  (valid = true -> nul_free file /\ (length file <= 132)%nat) ->
  kvtree_write_gather_map (S fuel) (Z.of_nat r) n prefix file 0 (Z.of_nat l) valid
  = (mpi* x := pick_writer (Z.of_nat r) n (Z.of_nat l) (map_size valid file) in
     map_send fuel r l valid (map_hash valid file) x).
Proof.
  intros Hf. cbn [kvtree_write_gather_map]. change (negb (0 =? 0)) with false. cbv beta iota.
  unfold map_hash, map_size. destruct valid; [|reflexivity].
  destruct (Hf eq_refl) as [Hn0 Hl]. destruct (entry_spec file Hn0 Hl) as ((h & -> & E) & _).
  cbn [obind]. rewrite E. reflexivity.
Qed.

Lemma rank_is_writer st r : st 0%nat = true -> (Z.of_nat r =? Z.of_nat (writer st r)) = st r.
Proof.
  intros Hst. rewrite <- (starts_writer st r Hst). destruct (Nat.eqb_spec (writer st r) r) as [->|Hne].
  - apply Z.eqb_refl.
  - apply Z.eqb_neq. lia.
Qed.

Lemma map_name l w :
  snprintf 1024 (str "." ++ fmt_signed (Z.of_nat l) ++ str "." ++ fmt_signed (Z.of_nat w)) = level_name l w.
Proof. apply take_ge. fold (level_name l w). pose proof (level_name_length l w). lia. Qed.

Lemma path_name file : (length file <= 132)%nat -> snprintf 1024 (c_str prefix ++ file) = c_str prefix ++ file.
Proof. intros Hl. apply take_ge. rewrite length_app. unfold strlen in Hprefix. lia. Qed.

(** The writer of the top map stores it in the file [prefix]; on the levels below
    the maps above come first. *)
Lemma map_store_top {A} fuel r l st outs (K : Z -> proc (act A)) :
  st 0%nat = true ->
  run_bind (map_store fuel r l (Z.of_nat (writer st r)) 1 (Some outs)) K
  = run_bind (if st r then write_save (c_str prefix) (Some (rank_tree outs)) (Z.of_nat l) (Z.of_nat n) 0 KVTREE_SUCCESS
              else done KVTREE_SUCCESS) K.
Proof.
  intros Hst. unfold map_store. rewrite rank_is_writer by done. change (negb (1 =? 0)) with true.
  change (1 =? 0) with false. cbv beta iota. rewrite path_name, app_nil_r by (cbn; lia).
  destruct (st r); [|done]. pose proof (set_rank outs) as E. destruct (kvtree_set _ _ _) as [save x].
  cbn [fst] in E. by subst save.
Qed.

Lemma map_store_level {A} fuel r l st outs (K : Z -> proc (act A)) :
  st 0%nat = true -> (l < max_level)%nat ->
  run_bind (map_store fuel r l (Z.of_nat (writer st r)) 0 (Some outs)) K
  = run_bind (kvtree_write_gather_map fuel (Z.of_nat r) n prefix (level_name l (writer st r)) 0 (Z.of_nat (S l)) (st r))
      (fun rc =>
         let rc := if negb (rc =? KVTREE_SUCCESS) then KVTREE_FAILURE else KVTREE_SUCCESS in
         run_bind (if st r then write_save (path_of l r) (Some (rank_tree outs)) (Z.of_nat l) (Z.of_nat n) 0 rc
                   else done rc) K).
Proof.
  unfold max_level. intros Hst Hl. unfold map_store. rewrite rank_is_writer by done. change (negb (0 =? 0)) with false.
  change (0 =? 0) with true. cbv beta iota. rewrite map_name.
  rewrite path_name by apply level_name_length. rewrite i32_id by int_lia.
  replace (Z.of_nat l + 1) with (Z.of_nat (S l)) by lia.
  assert (st r = true -> writer st r = r) as Hw by (rewrite <- (starts_writer st r Hst); by intros ?%Nat.eqb_eq).
  pose proof (set_rank outs) as E. destruct (kvtree_set _ _ _) as [save x]. cbn [fst] in E. subst save.
  destruct (st r).
  - rewrite !run_bind_assoc, Hw by done. f_equal.
  - rewrite !run_bind_assoc. f_equal.
Qed.

Lemma write_map {A} extra fuel : forall l V F (K : nat -> Z -> proc (act A)) ch D L,
  (1 <= l)%nat -> (l + fuel <= max_level)%nat -> V 0%nat = true ->
  (forall r, (r < n)%nat -> V r = true -> F r = level_name (l - 1) r) ->
  count V n < 2048 ^ Z.of_nat fuel -> idle ch -> all_ready L ->
  exists rc k ch' D' L', (k <= fuel)%nat /\ idle ch' /\ all_go_on L L' /\
    (forall r, (r < n)%nat -> is_rc (rc r)) /\
    (all_calm L -> forall r, (r < n)%nat -> rc r = KVTREE_SUCCESS) /\
    ((forall r, (r < n)%nat -> rc r = KVTREE_SUCCESS) -> maps n prefix (Z.of_nat n) D' l V k) /\
    (forall f, ~ map_file n prefix l f -> D' !! f = D !! f) /\
    rtc (ostep own)
      (at_all n (fun r => run_bind (kvtree_write_gather_map (fuel + extra) (Z.of_nat r) n prefix (F r) 0 (Z.of_nat l) (V r)) (K r))
         ch D L)
      (at_all n (fun r => K r (rc r)) ch' D' L').
Proof.
  induction fuel as [|fuel IH]; intros l V F K ch D L Hl Hlm HV0 HF Hcount Hidle HL.
  { pose proof (count_pos V n 0 Hn HV0). change (2048 ^ Z.of_nat 0) with 1 in Hcount. lia. }
  assert (forall r, (r < n)%nat -> V r = true -> nul_free (F r) /\ (length (F r) <= 132)%nat) as HFn.
  { intros r Hr HV. rewrite (HF r Hr HV). split; [apply level_name_nul_free|apply level_name_length]. }
  set (counts r := map_size (V r) (F r)). set (st := starts counts).
  set (t s := entry (F s)).
  assert (forall r, (r < n)%nat -> V r = true -> wf (t r) /\ (forall k q, has_path (t r) (k :: q)
            = graft [kFILE; F r] leaf (k :: q) || graft [kOFFSET; str "0"] leaf (k :: q)) /\
            0 < Z.of_nat (kvtree_pack_size (Some (t r))) <= 256) as Ht.
  { intros r Hr HV. destruct (HFn r Hr HV) as [Hn0 Hl0]. by destruct (entry_spec (F r) Hn0 Hl0) as (_ & ?). }
  assert (forall r, (r < n)%nat -> 0 <= counts r <= 256 * bool_int (V r)) as Hcounts.
  { intros r Hr. unfold counts, map_size. destruct (V r) eqn:HV; cbn [bool_int]; [|lia].
    destruct (Ht r Hr HV) as (_ & _ & ?). unfold t in *. lia. }
  pose proof (count_le V n) as Hcn.
  assert (before counts n <= 2 ^ 63) as Hb.
  { pose proof (before_scale V counts 256 n ltac:(intros; by apply Hcounts)). lia. }
  assert (before (item_cost V t) n + 4096 <= INT_MAX) as Hcost.
  { pose proof (before_scale V (item_cost V t) 512 n) as Hs. unfold INT_MAX.
    assert (before (item_cost V t) n <= 512 * count V n); [|lia]. apply Hs. intros r Hr. unfold item_cost.
    destruct (V r) eqn:HV; cbn [bool_int]; [|lia]. destruct (Ht r Hr HV) as (_ & _ & ?).
    cbn [kvtree_pack_size] in *. lia. }
  assert (st 0%nat = true) as Hst by done.
  destruct (pick_writer_round n Hn ltac:(lia) (Z.of_nat l) counts
    (fun r x => run_bind (map_send (fuel + extra) r l (V r) (map_hash (V r) (F r)) x) (K r)) ch)
    as (ch1 & Hi1 & Hr1); [intros; by apply Hcounts|done|done|].
  destruct (gather_exchange V t st Hst (fun s Hs HV => proj1 (Ht s Hs HV)) Hcost
    (fun r '(_, recv) => run_bind (map_store (fuel + extra) r l (Z.of_nat (writer st r)) (bool_int (one_writer n counts)) recv) (K r))
    ch1 Hi1) as (outs & ch2 & Hi2 & Houts & Hrec & Hr2).
  assert (rtc (ostep own)
    (at_all n (fun r => run_bind (kvtree_write_gather_map (S fuel + extra) (Z.of_nat r) n prefix (F r) 0 (Z.of_nat l) (V r)) (K r)) ch D L)
    (at_all n (fun r => run_bind (map_store (fuel + extra) r l (Z.of_nat (writer st r)) (bool_int (one_writer n counts))
                                    (Some (outs r))) (K r)) ch2 D L)) as Hrun.
  { etrans; [|apply phase_mpi; exact Hr2].
    rewrite (at_all_ext _ _ (fun r => mpi* x := pick_writer (Z.of_nat r) n (Z.of_nat l) (counts r) in
               run_bind (map_send (fuel + extra) r l (V r) (map_hash (V r) (F r)) x) (K r))).
    2:{ intros r Hr. cbn [Nat.add]. rewrite write_map_pick by (intros; by apply HFn). apply run_bind_mpi. }
    etrans; [apply phase_mpi; exact Hr1|]. erewrite at_all_ext; [apply rtc_refl|].
    intros r Hr. unfold map_send, map_hash, gather_ins. fold st. destruct (V r).
    - destruct (queued_spec (Z.of_nat (writer st r)) (entry (F r))) as (-> & _). cbn [proc_bind].
      rewrite run_bind_mpi. f_equal. apply FunctionalExtensionality.functional_extensionality. by intros [rc recv].
    - cbn [proc_bind]. rewrite run_bind_mpi. f_equal.
      apply FunctionalExtensionality.functional_extensionality. by intros [rc recv]. }
  assert (forall D2 file,
    (forall w, (w < n)%nat -> st w = true -> exists x, D2 !! file w = Some (persisted (Some x)) /\
       level_file (Z.of_nat l) (Z.of_nat n) (outs w) x) ->
    level_ok n (Z.of_nat n) D2 file l V (entries l) st) as Hlok.
  { intros D2 file HD w Hw Hsw. destruct (HD w Hw Hsw) as (x & Hx & Hlf). exists (outs w), x.
    split_and!; [done|by apply Houts|done|]. intros k q. destruct (Hrec w Hw) as [_ ->].
    split; intros (s & Hs & HV & HW & Ek & Hq); exists s; (split_and!; [done..|]);
      unfold entries, t in *; by rewrite (HF s Hs HV) in *. }
  destruct (one_writer n counts) eqn:Hone; cbn [bool_int] in Hrun.
  - assert (forall r, (r < n)%nat -> writer st r = 0%nat) as Hw0.
    { intros r Hr. unfold one_writer in Hone. apply bool_decide_eq_true in Hone.
      apply (writer_zero st Hst (n - 1)); [done|lia]. }
    assert (forall w, (w < n)%nat -> st w = true -> w = 0%nat) as Hs0.
    { intros w Hw Hsw. rewrite <- (Hw0 w Hw). rewrite <- (starts_writer st w Hst) in Hsw.
      by apply Nat.eqb_eq in Hsw. }
    destruct (write_phase (fun _ => c_str prefix) l outs st (fun _ => KVTREE_SUCCESS) K ch2 D L)
      as (rc & D' & L' & HL' & Hrc & Hcalm & HD' & Hoff & Hr3); [|done|by intros; apply Houts|].
    { intros w Hw Hsw. rewrite (Hs0 w Hw Hsw). apply own_prefix. }
    exists rc, 1%nat, ch2, D', L'. split; [lia|]. split; [done|]. split; [done|]. split_and!; [exact Hrc|done| | |].
    + intros Hall. econstructor; [exact Hst|exact Hw0|]. apply Hlok. intros w Hw Hsw. by apply HD'; [| |apply Hall].
    + intros f Hf. apply Hoff. intros w _ _ ->. apply Hf. by left.
    + etrans; [exact Hrun|]. erewrite at_all_ext; [exact Hr3|]. intros r Hr. by apply map_store_top.
  - destruct (fewer_writers V counts n fuel Hcounts Hcount) as [?|Hfew]; [congruence|].
    destruct (IH (S l) st (fun r => level_name l (writer st r))
      (fun r rc =>
         let rc := if negb (rc =? KVTREE_SUCCESS) then KVTREE_FAILURE else KVTREE_SUCCESS in
         run_bind (if st r then write_save (path_of l r) (Some (rank_tree (outs r))) (Z.of_nat l) (Z.of_nat n) 0 rc
                   else done rc) (K r)) ch2 D L)
      as (rc1 & k & ch3 & D1 & L1 & Hk & Hi3 & HL1 & Hrc1 & Hcalm1 & Hmaps & Hoff1 & Hr3); [lia|lia|done| |done|done|done|].
    { intros r Hr Hsr. rewrite <- (starts_writer st r Hst) in Hsr. apply Nat.eqb_eq in Hsr. rewrite Hsr.
      f_equal. lia. }
    cbv zeta in Hr3.
    destruct (write_phase (path_of l) l outs st (fun r => if negb (rc1 r =? KVTREE_SUCCESS) then KVTREE_FAILURE else KVTREE_SUCCESS) K ch3 D1 L1)
      as (rc & D' & L' & HL' & Hrc & Hcalm & HD' & Hoff & Hr4); [|by apply HL1|by intros; apply Houts|].
    { intros w Hw Hsw. apply own_level; [lia|lia|done]. }
    exists rc, (S k), ch3, D', L'. split; [lia|]. split; [done|]. split; [by eapply all_go_on_trans|]. split_and!.
    + intros r Hr. destruct (Hrc r Hr) as [->| ->]; [|by right]. destruct (negb _); [by right|by left].
    + intros Hc r Hr. rewrite Hcalm by (done || by apply HL1). by rewrite Hcalm1.
    + intros Hall. assert (forall r, (r < n)%nat -> rc1 r = KVTREE_SUCCESS) as Hall1.
      { intros r Hr. destruct (Hrc1 r Hr) as [|E]; [done|]. specialize (Hall r Hr). destruct (Hrc r Hr) as [E2|E2];
          rewrite E2 in Hall; [by rewrite E in Hall|done]. }
      econstructor; [exact Hst|apply Hlok; intros w Hw Hsw; by apply HD'; [| |apply Hall]|].
      eapply maps_ext; [| |by apply Hmaps]; [lia|].
      intros f Hf. apply Hoff. intros w Hw _ ->. destruct Hf as [E|(l2 & w2 & Hl2 & Hw2 & E)].
      * by apply level_not_prefix in E.
      * apply (level_path_inj n) in E as [-> _]; [lia|lia|lia|lia|done|done].
    + intros f Hf. rewrite Hoff, Hoff1; [done| |].
      * intros Hm. apply Hf. destruct Hm as [->|(l2 & w2 & Hl2 & Hw2 & ->)]; [by left|].
        right. exists l2, w2. split_and!; [lia|lia|done|done].
      * intros w Hw _ ->. apply Hf. right. exists l, w. split_and!; [lia|lia|done|done].
    + etrans; [exact Hrun|]. erewrite at_all_ext; [etrans; [exact Hr3|exact Hr4]|].
      intros r Hr. apply map_store_level; [done|lia].
Qed.

(** ** The whole call *)
Lemma all_agree {A} (b : nat -> bool) (K : nat -> Z -> proc A) ch :
  rtc step (Cfg (running n (fun r => mpi* x := kvtree_alltrue (bool_int (b r)) in K r x)) ch)
           (Cfg (running n (fun r => K r (bool_int (forallb b (seq 0 n))))) ch).
Proof. by apply rtc_once, alltrue_round. Qed.

(** The files of a write of the trees [data]: those of the writers, with [k] levels
    of maps above them. *)
Definition stored (D : disk) (data : nat -> kvtree) (k : nat) : Prop :=
  exists st, st 0%nat = true /\ level_ok n (Z.of_nat n) D (path_of 0) 0 (fun _ => true) data st /\
    maps n prefix (Z.of_nat n) D 1 st k.

(** [kvtree_write_gather] after its exchange. *)
Definition gather_store (fuel : nat) (r : nat) (writer : Z) (recv : option kvtree) : proc (act Z) :=
  let rank := Z.of_nat r in
  let save := Some kvtree_new in
  let '(save, _) := if rank =? writer then kvtree_set save (Some (str "RANK")) recv else (save, None) in
  let mapfile := snprintf 1024 (str ".0." ++ fmt_signed writer) in
  let mappath := snprintf 1024 (c_str prefix ++ mapfile) in
  run* r := kvtree_write_gather_map fuel rank n prefix mapfile 0 1 (rank =? writer) in
  let rc := if negb (r =? KVTREE_SUCCESS) then KVTREE_FAILURE else KVTREE_SUCCESS in
  run* rc := (if rank =? writer then write_save mappath save 0 (Z.of_nat n) 0 rc else done rc) in
  mpi* ok := kvtree_alltrue (if rc =? KVTREE_SUCCESS then 1 else 0) in
  done (if negb (ok =? 0) then KVTREE_SUCCESS else KVTREE_FAILURE).

Definition gather_end {A} (K : Z -> proc (act A)) (rc : Z) : proc (act A) :=
  mpi* ok := kvtree_alltrue (bool_int (rc =? KVTREE_SUCCESS)) in
  K (if negb (ok =? 0) then KVTREE_SUCCESS else KVTREE_FAILURE).

Lemma gather_store_eq {A} fuel r st outs (K : Z -> proc (act A)) :
  st 0%nat = true ->
  run_bind (gather_store fuel r (Z.of_nat (writer st r)) (Some outs)) K
  = run_bind (kvtree_write_gather_map fuel (Z.of_nat r) n prefix (level_name 0 (writer st r)) 0 (Z.of_nat 1) (st r))
      (fun rc =>
         let rc := if negb (rc =? KVTREE_SUCCESS) then KVTREE_FAILURE else KVTREE_SUCCESS in
         run_bind (if st r then write_save (path_of 0 r) (Some (rank_tree outs)) (Z.of_nat 0) (Z.of_nat n) 0 rc
                   else done rc) (gather_end K)).
Proof.
  intros Hst. unfold gather_store. rewrite rank_is_writer by done.
  assert (snprintf 1024 (str ".0." ++ fmt_signed (Z.of_nat (writer st r))) = level_name 0 (writer st r)) as ->
    by (rewrite <- level_name_0; apply take_ge; pose proof (level_name_length 0 (writer st r)); lia).
  rewrite path_name by apply level_name_length.
  assert (st r = true -> writer st r = r) as Hw by (rewrite <- (starts_writer st r Hst); by intros ?%Nat.eqb_eq).
  pose proof (set_rank outs) as E. destruct (kvtree_set _ _ _) as [save x]. cbn [fst] in E. subst save.
  assert (forall rc, run_bind (mpi* ok := kvtree_alltrue (if rc =? KVTREE_SUCCESS then 1 else 0) in
             done (if negb (ok =? 0) then KVTREE_SUCCESS else KVTREE_FAILURE)) K = gather_end K rc) as Hend.
  { intros rc. rewrite run_bind_mpi. reflexivity. }
  destruct (st r); cbv beta iota; rewrite !run_bind_assoc, ?Hw by done; f_equal;
    apply FunctionalExtensionality.functional_extensionality; intros rc; cbv zeta;
    rewrite run_bind_assoc; f_equal; apply FunctionalExtensionality.functional_extensionality; apply Hend.
Qed.

Section data.
Context (data : nat -> kvtree).

(** All data together, with some bytes more for each process, fit an [int]. *)
Record write_inputs : Prop := {
  inputs_data_wf r : (r < n)%nat -> wf (data r);
  inputs_data_size : before (fun r => Z.of_nat (kvtree_pack_size (Some (data r))) + 256) n + 4096 <= INT_MAX
}.
Hypothesis Hdata : write_inputs.

Definition gather_send (fuel r : nat) (x : Z * Z * Z) : proc (act Z) :=
  let '(_, writer, allranks) := x in
  try* (send, _) := kvtree_exchange_sendq (Some kvtree_new) writer (Some (data r)) in
  mpi* (_, recv) := kvtree_exchange_direction (Z.of_nat r) (Z.of_nat n) send (Some kvtree_new) KVTREE_EXCHANGE_LEFT in
  gather_store fuel r writer recv.

Lemma write_gather_pick fuel r :
  kvtree_write_gather fuel (Z.of_nat r) n prefix (Some (data r))
  = (mpi* x := pick_writer (Z.of_nat r) n 1 (Z.of_nat (kvtree_pack_size (Some (data r)))) in
     gather_send fuel r x).
Proof. reflexivity. Qed.

Lemma write_gather_run {A} extra (K : nat -> Z -> proc (act A)) ch D L :
  idle ch -> all_ready L ->
  exists (ok : bool) ch' D' L', idle ch' /\ all_go_on L L' /\
    (all_calm L -> ok = true) /\
    (ok = true -> exists k, (k <= 2)%nat /\ stored D' data k) /\
    (forall f, ~ map_file n prefix 0 f -> D' !! f = D !! f) /\
    rtc (ostep own)
      (at_all n (fun r => run_bind (kvtree_write_gather (2 + extra) (Z.of_nat r) n prefix (Some (data r))) (K r)) ch D L)
      (at_all n (fun r => K r (if ok then KVTREE_SUCCESS else KVTREE_FAILURE)) ch' D' L').
Proof.
  intros Hidle HL. destruct Hdata as [Hwf Hsize].
  set (counts r := Z.of_nat (kvtree_pack_size (Some (data r)))). set (st := starts counts).
  assert (forall r, (r < n)%nat -> 0 <= counts r) as Hc by (intros; unfold counts; lia).
  assert (before counts n <= before (fun r => counts r + 256) n) as Hle by (apply before_le; intros; lia).
  assert (before (item_cost (fun _ => true) data) n + 4096 <= INT_MAX) as Hcost by exact Hsize.
  assert (before (fun r => counts r + 256) n + 4096 <= INT_MAX) as Hsz by exact Hsize.
  assert (st 0%nat = true) as Hst by done.
  destruct (pick_writer_round n Hn ltac:(lia) 1 counts
    (fun r x => run_bind (gather_send (2 + extra) r x) (K r)) ch)
    as (ch1 & Hi1 & Hr1); [done|unfold INT_MAX in Hsz; lia|done|].
  destruct (gather_exchange (fun _ => true) data st Hst (fun s Hs _ => Hwf s Hs) Hcost
    (fun r '(_, recv) => run_bind (gather_store (2 + extra) r (Z.of_nat (writer st r)) recv) (K r))
    ch1 Hi1) as (outs & ch2 & Hi2 & Houts & Hrec & Hr2).
  destruct (write_map extra 2 1 st (fun r => level_name 0 (writer st r))
    (fun r rc =>
       let rc := if negb (rc =? KVTREE_SUCCESS) then KVTREE_FAILURE else KVTREE_SUCCESS in
       run_bind (if st r then write_save (path_of 0 r) (Some (rank_tree (outs r))) (Z.of_nat 0) (Z.of_nat n) 0 rc
                 else done rc) (gather_end (K r))) ch2 D L)
    as (rc1 & k & ch3 & D1 & L1 & Hk & Hi3 & HL1 & Hrc1 & Hcalm1 & Hmaps & Hoff1 & Hr3);
    [lia|unfold max_level; lia|done| | |done|done|].
  { intros r Hr Hsr. rewrite <- (starts_writer st r Hst) in Hsr. apply Nat.eqb_eq in Hsr. by rewrite Hsr. }
  { pose proof (count_le st n). change (2048 ^ Z.of_nat 2) with 4194304. lia. }
  cbv zeta in Hr3.
  destruct (write_phase (path_of 0) 0 outs st (fun r => if negb (rc1 r =? KVTREE_SUCCESS) then KVTREE_FAILURE else KVTREE_SUCCESS)
    (fun r => gather_end (K r)) ch3 D1 L1)
    as (rc & D' & L' & HL' & Hrc & Hcalm & HD' & Hoff & Hr4); [|by apply HL1|by intros; apply Houts|].
  { intros w Hw Hsw. apply own_level; [lia|unfold max_level; lia|done]. }
  set (ok := forallb (fun r => rc r =? KVTREE_SUCCESS) (seq 0 n)).
  assert (ok = true -> forall r, (r < n)%nat -> rc r = KVTREE_SUCCESS /\ rc1 r = KVTREE_SUCCESS) as Hok.
  { intros Hok r Hr. unfold ok in Hok. rewrite forallb_forall in Hok.
    specialize (Hok r ltac:(apply in_seq; lia)). apply Z.eqb_eq in Hok. split; [done|].
    destruct (Hrc1 r Hr) as [|E]; [done|]. by destruct (Hrc r Hr) as [E2|E2]; rewrite E2, ?E in Hok. }
  exists ok, ch3, D', L'. split; [done|]. split; [by eapply all_go_on_trans|]. split_and!.
  - intros Hcs. apply forallb_forall. intros r Hr%in_seq. apply Z.eqb_eq.
    rewrite Hcalm by (lia || by apply HL1). by rewrite Hcalm1 by (lia || done).
  - intros Hk1. exists k. split; [done|]. exists st. split_and!; [done| |].
    + intros w Hw Hsw. destruct (HD' w Hw Hsw (proj1 (Hok Hk1 w Hw))) as (x & Hx & Hlf). exists (outs w), x.
      split_and!; [done|by apply Houts|done|]. apply Hrec. done.
    + eapply maps_ext; [| |apply Hmaps; intros r Hr; by apply (Hok Hk1)]; [unfold max_level; lia|].
      intros f Hf. apply Hoff. intros w Hw _ ->. destruct Hf as [E|(l2 & w2 & Hl2 & Hw2 & E)].
      * by apply level_not_prefix in E.
      * apply (level_path_inj n) in E as [<- _]; [lia|lia|unfold max_level; lia|lia|done|done].
  - intros f Hf. rewrite Hoff, Hoff1; [done| |].
    + intros Hm. apply Hf. destruct Hm as [->|(l2 & w2 & Hl2 & Hw2 & ->)]; [by left|].
      right. exists l2, w2. split_and!; [lia|lia|done|done].
    + intros w Hw _ ->. apply Hf. right. exists 0%nat, w. split_and!; [lia|unfold max_level; lia|done|done].
  - rewrite (at_all_ext _ _ (fun r => mpi* x := pick_writer (Z.of_nat r) n 1 (counts r) in
               run_bind (gather_send (2 + extra) r x) (K r))).
    2:{ intros r Hr. rewrite write_gather_pick. apply run_bind_mpi. }
    etrans; [apply phase_mpi; exact Hr1|].
    rewrite (at_all_ext _ _ (fun r => mpi* x := kvtree_exchange_direction (Z.of_nat r) (Z.of_nat n)
        (Some (gather_ins (fun _ => true) data st r)) (Some kvtree_new) KVTREE_EXCHANGE_LEFT in
        (let '(_, recv) := x in run_bind (gather_store (2 + extra) r (Z.of_nat (writer st r)) recv) (K r)))).
    2:{ intros r Hr. unfold gather_send, gather_ins. fold st.
        destruct (queued_spec (Z.of_nat (writer st r)) (data r)) as (-> & _). cbn [proc_bind].
        rewrite run_bind_mpi. f_equal. apply FunctionalExtensionality.functional_extensionality. by intros [? recv]. }
    etrans; [apply phase_mpi; exact Hr2|].
    erewrite at_all_ext; [etrans; [exact Hr3|]|].
    2:{ intros r Hr. by apply gather_store_eq. }
    etrans; [exact Hr4|]. unfold gather_end.
    etrans; [apply phase_mpi; apply (all_agree (fun r => rc r =? KVTREE_SUCCESS))|].
    erewrite at_all_ext; [apply rtc_refl|]. intros r Hr. cbn beta. fold ok. by destruct ok.
Qed.
End data.
End collective.
