(* ===== verification/CollectiveRead.v ===== *)
(** What [kvtree_read_scatter] does on all processes with the files of a write:
    from the top map down, the readers of a level read their files and send each
    entry to the process it is for, which is a reader of the next level; at last
    the data go to their processes. *)

From stdpp Require Import relations.
From S2P Require Import Prelude CLib ByteOrder Kvtree KvtreeSpec KvtreeMap KvtreeMerge Pack.
From S2P Require Import Io Persist Format Sort Util Paths Gather GatherSpec ScatterSpec.
From S2P Require Import Net Mpi Exchange Bruck ExchangeSpec Writers Items World MpiIo LevelFile Levels CollectiveWrite.

(** A tree whose paths are those of [c] under one key. *)
Lemma under_key t text c :
  wf t -> nul_free text -> has_path c [] = true ->
  (forall k q, has_path t (k :: q) = true <-> c_str k = text /\ has_path c q = true) ->
  exists h, lh_first t = [Elem (Some text) h] /\ wf_opt h /\ forall q, has_path_opt h q = has_path c q.
Proof.
  intros Hwf Ht Hc Hp. destruct (one_elem t text Hwf Ht) as (h & El).
  { intros k. apply eq_true_iff_eq. rewrite Hp, bool_decide_eq_true. split; [by intros [-> _]|by intros ->]. }
  exists h. split; [done|].
  assert (Elem (Some text) h ∈ lh_first t) as Hin by (rewrite El; by left). split.
  - by apply (wf_elem_in _ _ Hwf) in Hin as [_ ?]%wf_elem_iff.
  - intros q. destruct (has_path_key t (Elem (Some text) h) text Hwf Hin eq_refl) as [Hch _].
    apply eq_true_iff_eq. specialize (Hp text q). rewrite has_path_child, Hch, c_str_id in Hp by done.
    cbn [hash] in Hp. tauto.
Qed.

(** A tree without paths. *)
Lemma no_keys t : wf t -> (forall k q, has_path t (k :: q) = false) -> lh_first t = [].
Proof.
  intros Hwf Hp. destruct t as [[|e l]]; [done|]. exfalso.
  pose proof (wf_elem_in _ e Hwf ltac:(by left)) as [Hn _]%wf_elem_iff.
  destruct (key e) as [k|] eqn:Ek; [|done].
  destruct (has_path_key _ e k Hwf ltac:(by left) Ek) as [Hc _].
  specialize (Hp k []). by rewrite has_path_child, Hc, has_path_opt_nil in Hp.
Qed.

Section collective.
Context `{Host} `{Zlib} `{Libc} `{MpiConst} `{MpiBuffers}.
Hypothesis Hmalloc : INT_MAX <= malloc_max.
Variable n : nat.
Variable prefix : cstring.
Variable ranks : Z.
Hypothesis Hn : (0 < n)%nat.
Hypothesis HN : Z.of_nat n <= 2 ^ 20.
Hypothesis Hprefix : (strlen prefix <= 800)%nat.

Notation own := (own n prefix).
Notation path_of := (level_path_of prefix).
Notation all_ready := (all_ready n).
Notation all_calm := (all_calm n).
Notation all_go_on := (all_go_on n).

Lemma disk_after_same own0 L D : (forall r, (r < n)%nat -> files (L r) = D) -> disk_after own0 L D n = D.
Proof.
  intros HL. apply map_eq. intros f. rewrite disk_after_lookup. destruct (own0 f) as [r|]; [|done].
  case_decide as Hr; [|done]. by rewrite HL.
Qed.

(** What a reader of a level finds in its file. *)
Definition segment_file (l : nat) (V : nat -> bool) (t : nat -> kvtree) (st : nat -> bool) (w : nat) (h : kvtree) : Prop :=
  exists recv x, wf recv /\ level_file (Z.of_nat l) ranks recv x /\ h ≡ x /\
    forall k q, has_path recv (k :: q) = true <->
      exists s, (s < n)%nat /\ V s = true /\ writer st s = w /\
        c_str k = fmt_signed (Z.of_nat s) /\ has_path (t s) q = true.

(** The answers of the readers [st]. *)
Record answers (l : nat) (V : nat -> bool) (t : nat -> kvtree) (st : nat -> bool) (x : nat -> option Z * option kvtree) : Prop := {
  answer_good w : (w < n)%nat -> st w = true -> answered (x w) = true ->
    exists z h, x w = (Some z, Some h) /\ 0 <= z /\ wf h /\ segment_file l V t st w h;
  answer_bad w : (w < n)%nat -> st w = true -> answered (x w) = false ->
    x w = (None, Some kvtree_new) \/ x w = (Some (-1), Some kvtree_new)
}.

(** The readers [st] read their files. *)
Lemma read_phase {A} (file : nat -> cstring) l V t st (P : nat -> option Z * option kvtree -> proc (act A)) (Q : nat -> proc (act A)) ch D L :
  level_ok n ranks D file l V t st -> (forall w, (w < n)%nat -> st w = true -> own (file w) = Some w) -> all_ready L ->
  exists x L', all_go_on L L' /\ answers l V t st x /\
    (all_calm L -> forall w, (w < n)%nat -> st w = true -> answered (x w) = true) /\
    rtc (ostep own)
      (at_all n (fun w => if st w then run_bind (read_at (Some (file w)) 0 (Some kvtree_new)) (P w) else Q w) ch D L)
      (at_all n (fun w => if st w then P w (x w) else Q w) ch D L').
Proof.
  intros Hlev Hown HL.
  destruct (choice_lt ((None, None), L 0%nat) n (fun w y => let '(x, s') := y in
    runs own w (if st w then run_bind (read_at (Some (file w)) 0 (Some kvtree_new)) (P w) else Q w)
      (set_files D (L w)) (if st w then P w x else Q w) s' /\
    goes_on (L w) s' /\ files s' = D /\
    (st w = true -> exists tr, read_answer tr x /\ (calm (script (L w)) -> answered x = true) /\
       forall h, h ≡ tr -> segment_file l V t st w h))) as [f Hf].
  { intros w Hw. destruct (st w) eqn:Hst.
    - destruct (Hlev w Hw Hst) as (recv & x & Hx & Hwr & Hlf & Hp).
      destruct (read_at_runs own w (file w) x (set_files D (L w)) (P w)) as (y & s' & Hrun & Hq & Hfs & Hans & Hc);
        [by apply Hown|by apply ready_files, HL|done|apply Hlf|apply Hlf|].
      exists (y, s'). split; [done|]. split; [exact Hq|]. split; [done|]. intros _. exists x.
      split_and!; [done|done|]. intros h Hh. by exists recv, x.
    - exists ((None, None), set_files D (L w)). split; [constructor|]. split; [|done].
      split; [by apply ready_files, HL|done]. }
  exists (fun w => (f w).1), (fun w => (f w).2). split; [|split; [|split]].
  - split; [intros r Hr|intros Hc r Hr; specialize (Hc r Hr)]; specialize (Hf r Hr); destruct (f r);
      destruct Hf as (_ & [Hq1 Hq2] & _); [done|by apply Hq2].
  - split; intros w Hw Hst; specialize (Hf w Hw); destruct (f w) as [x s']; destruct Hf as (_ & _ & _ & Hf);
      destruct (Hf Hst) as (tr & Hans & _ & Hseg); cbn [fst]; intros Ha.
    + destruct (answered_tree tr x Hans Ha) as (z & h & -> & Hz & Hwh & Hh). exists z, h. split_and!; auto.
    + destruct Hans as [->|[->|(z & h & -> & Hz & _)]]; [by left|by right|].
      unfold answered in Ha. cbn in Ha. apply Z.leb_gt in Ha. lia.
  - intros Hc w Hw Hst. specialize (Hf w Hw). specialize (Hc w Hw). destruct (f w) as [x s'].
    destruct Hf as (_ & _ & _ & Hf). destruct (Hf Hst) as (tr & _ & Hans & _). by apply Hans.
  - pose proof (phase_files own n
      (fun w => if st w then run_bind (read_at (Some (file w)) 0 (Some kvtree_new)) (P w) else Q w)
      (fun w => if st w then P w (f w).1 else Q w) ch D L (fun w => (f w).2)) as Hphase.
    rewrite disk_after_same in Hphase.
    + apply Hphase. intros w Hw. specialize (Hf w Hw). destruct (f w) as [x s']. apply Hf.
    + intros w Hw. specialize (Hf w Hw). destruct (f w) as [x s']. apply Hf.
Qed.

(** Whether all readers got an answer. *)
Definition all_answered (st : nat -> bool) (x : nat -> option Z * option kvtree) : bool :=
  forallb (fun r => if st r then answered (x r) else true) (seq 0 n).

Lemma all_answered_true st x :
  all_answered st x = true <-> forall w, (w < n)%nat -> st w = true -> answered (x w) = true.
Proof.
  unfold all_answered. rewrite forallb_forall. split.
  - intros Ha w Hw Hst. specialize (Ha w ltac:(apply in_seq; lia)). by rewrite Hst in Ha.
  - intros Ha w Hw%in_seq. destruct (st w) eqn:Hst; [|done]. apply Ha; [lia|done].
Qed.

(** ** The way back *)
Section scatter.
Context (V : nat -> bool) (t : nat -> kvtree) (st : nat -> bool).
Hypothesis Hst : st 0%nat = true.
Hypothesis Ht : forall s, (s < n)%nat -> V s = true -> wf (t s).
Hypothesis Hcost : before (item_cost V t) n + 4096 <= INT_MAX.

Notation W := (writer st).

(** What the reader [w] sends: the trees of the processes of its segment. *)
Definition sends_segment (w : nat) (x : kvtree) : Prop :=
  wf x /\ forall k q, has_path x (k :: q) = true <->
    st w = true /\ exists s, (s < n)%nat /\ V s = true /\ W s = w /\
      c_str k = fmt_signed (Z.of_nat s) /\ has_path (t s) q = true.

(** What a process gets: its tree, when it has one. *)
Definition gets_tree (r : nat) (x : kvtree) : Prop :=
  if V r then exists h, lh_first x = [Elem (Some (fmt_signed (Z.of_nat (W r)))) h] /\ wf_opt h /\
                    forall q, has_path_opt h q = has_path (t r) q
  else lh_first x = [].

Lemma scatter_exchange {A} (ins : nat -> kvtree) (K : nat -> Z * option kvtree -> proc A) ch :
  (forall w, (w < n)%nat -> sends_segment w (ins w)) -> idle ch ->
  exists outs ch', idle ch' /\ (forall r, (r < n)%nat -> gets_tree r (outs r)) /\
    rtc step
      (Cfg (running n (fun r =>
         mpi* x := kvtree_exchange_direction (Z.of_nat r) (Z.of_nat n) (Some (ins r)) (Some kvtree_new)
                     KVTREE_EXCHANGE_RIGHT in K r x)) ch)
      (Cfg (running n (fun r => K r (KVTREE_SUCCESS, Some (outs r)))) ch').
Proof.
  intros Hins Hidle.
  assert (forall s, (s < n)%nat -> V s = true -> (W s < n)%nat /\ (s < n)%nat /\ wf (t s)) as Hit.
  { intros s Hs HV. pose proof (proj1 (writer_is st Hst s)). split_and!; [lia|done|by apply Ht]. }
  assert (sent_items n V W (fun s => s) t ins) as Hsent.
  { intros r Hr. destruct (Hins r Hr) as [Hw Hp]. split; [done|]. intros k q. rewrite Hp. split.
    - intros (_ & s & Hs & HV & HW & Ek & Hq). by exists s.
    - intros (s & Hs & HV & HW & Ek & Hq). split; [|by exists s].
      destruct (writer_is st Hst s) as (_ & Hsw & _). by rewrite HW in Hsw. }
  destruct (items_exchange Hmalloc n Hn ltac:(lia) V W (fun s => s) t Hit ltac:(lia) KVTREE_EXCHANGE_RIGHT
              ins K ch Hsent Hidle) as (outs & ch' & Hout & Hi & Hr).
  exists outs, ch'. split_and!; [done| |done]. intros r Hrn. unfold gets_tree.
  destruct (Hout r Hrn) as [Hw Hp]. destruct (V r) eqn:HV.
  - apply under_key; [done|apply fmt_signed_nul_free|done|]. intros k q. rewrite Hp. split.
    + by intros (s & _ & _ & -> & Ek & Hq).
    + intros [Ek Hq]. by exists r.
  - apply no_keys; [done|]. intros k q. apply not_true_iff_false. rewrite Hp.
    intros (s & _ & HVs & -> & _). congruence.
Qed.
End scatter.

(** ** The maps *)

(** Whether a process reads, its file and the offset. *)
Notation reader := (bool * option cstring * Z)%type.

(** The parts of [kvtree_read_scatter_map]. *)
Definition map_fetch (valid : bool) (file : option cstring) (offset : Z) : proc (act (Z * option kvtree)) :=
  if valid then
    run* (read_rc, hash) := read_at file offset (Some kvtree_new) in
    done (match read_rc with
          | Some r => if r <? 0 then KVTREE_FAILURE else KVTREE_SUCCESS
          | None => KVTREE_FAILURE
          end, hash)
  else done (KVTREE_SUCCESS, Some kvtree_new).

Definition map_agree (fuel r : nat) (depth : Z) (old new : reader) (rc level_id : Z) : proc (act (Z * reader)) :=
  mpi* ok := kvtree_alltrue (if rc =? KVTREE_SUCCESS then 1 else 0) in
  if ok =? 0 then done (KVTREE_FAILURE, old)
  else if 1 <? level_id then
    let '(newvalid, newfile, newoffset) := new in
    kvtree_read_scatter_map fuel (Z.of_nat r) n prefix (i32 (depth + 1)) newvalid newfile newoffset
  else done (rc, new).

(** What the process learns from what it received. *)
Definition new_reader (recv : option kvtree) (rc : Z) : bool * option cstring * Z * Z :=
  let elem := kvtree_elem_first recv in
  match elem with
  | [] => (false, None, 0, rc)
  | _ =>
      let elem_hash := kvtree_elem_hash elem in
      let '(newfile, rc) :=
        match kvtree_util_get_str elem_hash (str "FILE") with
        | (r, Some value) =>
            if r =? KVTREE_SUCCESS
            then (Some (strdup (snprintf 1024 (c_str prefix ++ c_str value))), rc)
            else (None, KVTREE_FAILURE)
        | (_, None) => (None, KVTREE_FAILURE)
        end in
      let '(newoffset, rc) :=
        match kvtree_util_get_bytecount elem_hash (str "OFFSET") with
        | (r, o) => (default 0 o, if negb (r =? KVTREE_SUCCESS) then KVTREE_FAILURE else rc)
        end in
      (true, newfile, newoffset, rc)
  end.

Definition level_of (valid : bool) (hash : option kvtree) (rc : Z) : Z * Z :=
  if valid then
    match kvtree_util_get_int hash (str "LEVEL") with
    | (r, l) => (default (-1) l, if negb (r =? KVTREE_SUCCESS) then KVTREE_FAILURE else rc)
    end
  else (-1, rc).

Definition map_next (fuel r : nat) (depth : Z) (old : reader) (rc : Z) (hash recv : option kvtree)
    : proc (act (Z * reader)) :=
  let '(newvalid, newfile, newoffset, rc) := new_reader recv rc in
  let '(level_id, rc) := level_of old.1.1 hash rc in
  mpi* level_id :=
    (if Z.of_nat r =? 0 then mpi* _ := MPI_Bcast_root (MInt level_id) 0 n in proc_ret level_id
     else mpi* m := MPI_Bcast_other 0 in Stop (recv_int m)) in
  map_agree fuel r depth old (newvalid, newfile, newoffset) rc level_id.

Definition map_rest (fuel r : nat) (depth : Z) (old : reader) (hash : option kvtree) : proc (act (Z * reader)) :=
  let send := if old.1.1 then (kvtree_merge (Some kvtree_new) (kvtree_get hash (Some (str "RANK")))).1
              else Some kvtree_new in
  mpi* (_, recv) := kvtree_exchange_direction (Z.of_nat r) (Z.of_nat n) send (Some kvtree_new) KVTREE_EXCHANGE_RIGHT in
  map_next fuel r depth old KVTREE_SUCCESS hash recv.

(** A process for which all is well goes on with [map_rest] when the others do. *)
Definition map_spread (fuel r : nat) (depth : Z) (old : reader) (x : Z * option kvtree) : proc (act (Z * reader)) :=
  let '(rc, hash) := x in
  mpi* ok := kvtree_alltrue (if rc =? KVTREE_SUCCESS then 1 else 0) in
  if ok =? 0 then done (KVTREE_FAILURE, old)
  else
    let send := if old.1.1 then (kvtree_merge (Some kvtree_new) (kvtree_get hash (Some (str "RANK")))).1
                else Some kvtree_new in
    mpi* (_, recv) := kvtree_exchange_direction (Z.of_nat r) (Z.of_nat n) send (Some kvtree_new) KVTREE_EXCHANGE_RIGHT in
    map_next fuel r depth old rc hash recv.

Lemma read_map_eq fuel r depth valid file offset :
  kvtree_read_scatter_map (S fuel) (Z.of_nat r) n prefix depth valid file offset
  = run_bind (map_fetch valid file offset) (map_spread fuel r depth (valid, file, offset)).
Proof. reflexivity. Qed.

(** The readers of level [l] and their files. *)
Definition readers (file : nat -> cstring) (st : nat -> bool) (r : nat) : reader :=
  (st r, if st r then Some (file r) else None, 0).

(** How the call goes on after a level. *)
Definition map_end (fuel r : nat) (depth level_id : Z) (new : reader) : proc (act (Z * reader)) :=
  if 1 <? level_id then
    let '(newvalid, newfile, newoffset) := new in
    kvtree_read_scatter_map fuel (Z.of_nat r) n prefix (i32 (depth + 1)) newvalid newfile newoffset
  else done (KVTREE_SUCCESS, new).

Lemma entries_ok l (s : nat) :
  wf (entries l s) /\ 0 < Z.of_nat (tree_pack_size (entries l s)) <= 256.
Proof.
  destruct (entry_spec (level_name (l - 1) s)) as (_ & Hw & _ & Hs);
    [apply level_name_nul_free|apply level_name_length|done].
Qed.

Lemma entries_cost l V : before (item_cost V (entries l)) n + 4096 <= INT_MAX.
Proof.
  pose proof (before_scale V (item_cost V (entries l)) 512 n) as Hs. pose proof (count_le V n). unfold INT_MAX.
  assert (before (item_cost V (entries l)) n <= 512 * count V n); [|lia]. apply Hs. intros r Hr. unfold item_cost.
  destruct (V r); cbn [bool_int]; [|lia]. destruct (entries_ok l r). lia.
Qed.

(** An entry that arrived makes its process a reader of the level below. *)
Lemma new_reader_eq l V st r x :
  gets_tree V (entries l) st r x ->
  new_reader (Some x) KVTREE_SUCCESS
  = (V r, if V r then Some (path_of (l - 1) r) else None, 0, KVTREE_SUCCESS).
Proof.
  unfold gets_tree, new_reader. cbn [kvtree_elem_first]. destruct (V r).
  - intros (h & -> & Hw & Hp). cbn [kvtree_elem_hash hash].
    pose proof (level_name_nul_free (l - 1) r) as Hnf. pose proof (level_name_length (l - 1) r) as Hlen.
    destruct (entry_spec (level_name (l - 1) r) Hnf Hlen) as (_ & _ & Hpe & _).
    assert (exists c, h = Some c) as [c ->].
    { destruct h as [c|]; [by exists c|]. specialize (Hp [kFILE]). unfold entries in Hp. rewrite Hpe in Hp.
      cbn [graft leaf has_path_opt] in Hp. rewrite (bool_decide_eq_true_2 (c_str kFILE = _)) in Hp by done. done. }
    destruct (entry_get c (level_name (l - 1) r)) as [E1 E2]; [done|exact Hp|done|done|].
    fold kFILE kOFFSET. rewrite E1, E2. cbn [Z.eqb KVTREE_SUCCESS negb]. unfold strdup.
    rewrite (c_str_id (level_name (l - 1) r)) by done. rewrite (path_name n prefix) by done.
    rewrite c_str_id; [done|]. unfold nul_free. rewrite elem_of_app. intros [Hin|Hin]; [|by apply Hnf].
    by apply (c_str_nul_free prefix).
  - intros ->. done.
Qed.

(** All agree whether all is well. *)
Lemma agree_on {A} (b : nat -> bool) (K : nat -> Z -> proc (act A)) ch D L own0 :
  rtc (ostep own0) (at_all n (fun r => mpi* x := kvtree_alltrue (bool_int (b r)) in K r x) ch D L)
                   (at_all n (fun r => K r (bool_int (forallb b (seq 0 n)))) ch D L).
Proof. apply phase_mpi, all_agree, Hn. Qed.

Lemma agree_round {A} (K : nat -> Z -> proc (act A)) ch D L :
  rtc (ostep own) (at_all n (fun r => mpi* x := kvtree_alltrue 1 in K r x) ch D L) (at_all n (fun r => K r 1) ch D L).
Proof.
  pose proof (agree_on (fun _ => true) K ch D L own) as Hr.
  assert (forallb (fun _ => true) (seq 0 n) = true) as E by (by apply forallb_forall). by rewrite E in Hr.
Qed.

(** When one is not well they give up the maps, or the data. *)
Lemma map_agree_on {A} fuel (old : nat -> reader) (b : nat -> bool) (hash : nat -> option kvtree) depth
    (K : nat -> Z * reader -> proc (act A)) ch D L own0 :
  rtc (ostep own0)
    (at_all n (fun r => run_bind (map_spread fuel r depth (old r) (if b r then KVTREE_SUCCESS else KVTREE_FAILURE, hash r)) (K r)) ch D L)
    (at_all n (fun r => if forallb b (seq 0 n) then run_bind (map_rest fuel r depth (old r) (hash r)) (K r)
                        else K r (KVTREE_FAILURE, old r)) ch D L).
Proof.
  clear Hprefix. set (rc r := if b r then KVTREE_SUCCESS else KVTREE_FAILURE).
  rewrite (at_all_ext _ _ (fun r => mpi* ok := kvtree_alltrue (bool_int (b r)) in
    run_bind (if ok =? 0 then done (KVTREE_FAILURE, old r)
              else
                let send := if (old r).1.1 then (kvtree_merge (Some kvtree_new) (kvtree_get (hash r) (Some (str "RANK")))).1
                            else Some kvtree_new in
                mpi* (_, recv) := kvtree_exchange_direction (Z.of_nat r) (Z.of_nat n) send (Some kvtree_new) KVTREE_EXCHANGE_RIGHT in
                map_next fuel r depth (old r) (rc r) (hash r) recv) (K r))).
  2:{ intros r Hr. unfold map_spread. rewrite run_bind_mpi. unfold rc. by destruct (b r). }
  etrans; [apply agree_on|]. erewrite at_all_ext; [apply rtc_refl|]. intros r Hr. cbn beta.
  destruct (forallb b (seq 0 n)) eqn:Hall; cbn [bool_int Z.eqb]; [|done].
  rewrite forallb_forall in Hall. unfold rc. by rewrite Hall by (apply in_seq; lia).
Qed.

(** The hash of a reader sends its segment. *)
Lemma reader_sends V t st w l h :
  wf h -> segment_file l V t st w h -> st w = true ->
  exists y, (kvtree_merge (Some kvtree_new) (kvtree_get (Some h) (Some kRANK))).1 = Some y /\
    sends_segment V t st w y.
Proof.
  intros Hwh (recv & x & Hw & Hlf & Hh & Hp) Hst.
  destruct (new_merged (kvtree_get (Some h) (Some kRANK))) as (rc & ->).
  eexists. split; [done|]. split; [apply merged_wf, wf_new|]. intros k q.
  rewrite merged_new_path. destruct (get_rank (Z.of_nat l) ranks recv x h Hlf Hwh Hh (k :: q)) as [_ ->].
  rewrite Hp. tauto.
Qed.

(** The hashes of the readers, when all got an answer, and of the others. *)
Lemma answer_hashes l V t st x :
  answers l V t st x -> all_answered st x = true ->
  exists h, forall r, (r < n)%nat -> wf (h r) /\
    if st r then (exists z, 0 <= z /\ x r = (Some z, Some (h r))) /\ segment_file l V t st r (h r)
    else h r = kvtree_new.
Proof.
  intros Hx Ha. rewrite all_answered_true in Ha. apply (choice_lt kvtree_new n (fun r h => wf h /\
    if st r then (exists z, 0 <= z /\ x r = (Some z, Some h)) /\ segment_file l V t st r h else h = kvtree_new)).
  intros r Hr. destruct (st r) eqn:Hst; [|exists kvtree_new; split; [apply wf_new|done]].
  destruct (answer_good _ _ _ _ _ Hx r Hr Hst (Ha r Hr Hst)) as (z & h & E & Hz & Hw & Hs).
  exists h. split; [done|]. split; [by exists z|done].
Qed.

Lemma read_map_step {A} fuel l file V st depth (K : nat -> Z * reader -> proc (act A)) ch D L :
  (1 <= l < max_level)%nat -> st 0%nat = true ->
  level_ok n ranks D file l V (entries l) st -> (forall w, (w < n)%nat -> st w = true -> own (file w) = Some w) ->
  idle ch -> all_ready L ->
  exists (ok : bool) ch' L', idle ch' /\ all_go_on L L' /\ (all_calm L -> ok = true) /\
    rtc (ostep own)
      (at_all n (fun r => run_bind (kvtree_read_scatter_map (S fuel) (Z.of_nat r) n prefix depth
                              (st r) (if st r then Some (file r) else None) 0) (K r)) ch D L)
      (at_all n (fun r => if ok then run_bind (map_end fuel r depth (Z.of_nat l) (readers (path_of (l - 1)) V r)) (K r)
                          else K r (KVTREE_FAILURE, readers file st r)) ch' D L').
Proof.
  unfold max_level. intros Hl Hst Hlev Hown Hidle HL.
  set (old r := readers file st r).
  set (F r (x : Z * option kvtree) := run_bind (map_spread fuel r depth (old r) x) (K r)).
  set (rcof (x : option Z * option kvtree) := match x.1 with Some z => if z <? 0 then KVTREE_FAILURE else KVTREE_SUCCESS
                                              | None => KVTREE_FAILURE end).
  destruct (read_phase file l V (entries l) st (fun r x => F r (rcof x, x.2))
    (fun r => F r (KVTREE_SUCCESS, Some kvtree_new)) ch D L Hlev Hown HL) as (x & L' & HL' & Hans & Hcalm & Hr1).
  (* reading and agreement *)
  assert (rtc (ostep own)
    (at_all n (fun r => run_bind (kvtree_read_scatter_map (S fuel) (Z.of_nat r) n prefix depth
                            (st r) (if st r then Some (file r) else None) 0) (K r)) ch D L)
    (at_all n (fun r => if all_answered st x
                        then run_bind (map_rest fuel r depth (old r) (if st r then (x r).2 else Some kvtree_new)) (K r)
                        else K r (KVTREE_FAILURE, old r)) ch D L')) as Hrun.
  { rewrite (at_all_ext _ _ (fun w => if st w then run_bind (read_at (Some (file w)) 0 (Some kvtree_new))
        (fun x => F w (rcof x, x.2)) else F w (KVTREE_SUCCESS, Some kvtree_new))).
    2:{ intros r Hr. rewrite read_map_eq. unfold F, old, readers, map_fetch. destruct (st r); [|done].
        rewrite !run_bind_assoc. f_equal. apply FunctionalExtensionality.functional_extensionality. by intros [[z0|] h0]. }
    etrans; [exact Hr1|].
    rewrite (at_all_ext _ _ (fun r => run_bind (map_spread fuel r depth (old r)
      (if (if st r then answered (x r) else true) then KVTREE_SUCCESS else KVTREE_FAILURE,
       if st r then (x r).2 else Some kvtree_new)) (K r))).
    2:{ intros r Hr. unfold F, rcof, answered. destruct (st r); [|done]. destruct (x r) as [[z|] h]; [|done].
        cbn [fst snd]. rewrite Z.leb_antisym. by destruct (z <? 0). }
    apply (map_agree_on fuel old (fun r => if st r then answered (x r) else true)
             (fun r => if st r then (x r).2 else Some kvtree_new) depth K ch D L' own). }
  destruct (all_answered st x) eqn:Hall.
  2:{ exists false, ch, L'. split; [done|]. split; [done|]. split; [|exact Hrun].
      intros Hc. rewrite <- Hall. apply all_answered_true. by apply Hcalm. }
  destruct (answer_hashes l V (entries l) st x Hans Hall) as [h Hh].
  destruct (choice_lt kvtree_new n (fun r y =>
    (if st r then (kvtree_merge (Some kvtree_new) (kvtree_get (Some (h r)) (Some kRANK))).1
     else Some kvtree_new) = Some y /\ sends_segment V (entries l) st r y)) as [ins Hin].
  { intros r Hr. destruct (Hh r Hr) as [Hwh Hhr]. destruct (st r) eqn:Hsr.
    - destruct Hhr as [_ Hseg]. by apply (reader_sends V (entries l) st r l).
    - exists kvtree_new. split; [done|]. split; [apply wf_new|]. intros k q. rewrite has_path_new.
      split; [done|]. intros [? _]. congruence. }
  assert (forall r, (r < n)%nat -> (if st r then (x r).2 else Some kvtree_new) = Some (h r)) as Hhash.
  { intros r Hr. destruct (Hh r Hr) as [_ Hhr]. destruct (st r); [|by rewrite Hhr].
    by destruct Hhr as [(z & _ & ->) _]. }
  destruct (scatter_exchange V (entries l) st Hst (fun s _ _ => proj1 (entries_ok l s)) (entries_cost l V) ins
    (fun r '(_, recv) => run_bind (map_next fuel r depth (old r) KVTREE_SUCCESS (Some (h r)) recv) (K r)) ch)
    as (outs & ch1 & Hi1 & Hout & Hr2); [intros w Hw; by apply Hin|done|].
  destruct (bcast_round n Hn 0 (fun r => if st r then Z.of_nat l else -1)
    (fun r level_id => run_bind (map_agree fuel r depth (old r) (readers (path_of (l - 1)) V r) KVTREE_SUCCESS level_id) (K r))
    ch1) as (ch2 & Hi2 & Hr3); [done|done|].
  exists true, ch2, L'. split; [done|]. split; [done|]. split; [done|].
  etrans; [exact Hrun|].
  (* the exchange *)
  erewrite at_all_ext.
  2:{ intros r Hr. rewrite Hhash by done. unfold map_rest. rewrite run_bind_mpi.
      destruct (Hin r Hr) as [Ei _]. fold kRANK. unfold old, readers. cbn [fst].
      rewrite Ei. reflexivity. }
  etrans; [apply phase_mpi; erewrite running_ext; [exact Hr2|]|].
  { intros r Hr. cbn beta. f_equal. apply FunctionalExtensionality.functional_extensionality. by intros [rc recv]. }
  (* the entry, the level and agreement *)
  rewrite (at_all_ext _ _ (fun r =>
    mpi* a := (if Z.of_nat r =? Z.of_nat 0 then
                 mpi* _ := MPI_Bcast_root (MInt (if st r then Z.of_nat l else -1)) (Z.of_nat 0) n in
                 proc_ret (if st r then Z.of_nat l else -1)
               else mpi* m := MPI_Bcast_other (Z.of_nat 0) in Stop (recv_int m)) in
    run_bind (map_agree fuel r depth (old r) (readers (path_of (l - 1)) V r) KVTREE_SUCCESS a) (K r))).
  2:{ intros r Hr. cbn beta iota. unfold map_next. rewrite (new_reader_eq l V st r (outs r) (Hout r Hr)).
      assert (level_of (st r) (Some (h r)) KVTREE_SUCCESS = (if st r then Z.of_nat l else -1, KVTREE_SUCCESS)) as El.
      { unfold level_of. destruct (Hh r Hr) as [Hwh Hhr]. destruct (st r) eqn:Hsr; [|done].
        destruct Hhr as [_ (recv & y & Hw & Hlf & Hhx & _)]. fold kLEVEL.
        rewrite (get_level (Z.of_nat l) ranks recv y (h r)); [done|done..|int_lia]. }
      unfold old, readers in *. cbn [fst]. rewrite El, run_bind_mpi. done. }
  etrans; [apply phase_mpi; exact Hr3|]. rewrite Hst.
  rewrite (at_all_ext _ _ (fun r => mpi* x := kvtree_alltrue 1 in
    run_bind (if x =? 0 then done (KVTREE_FAILURE, old r)
              else map_end fuel r depth (Z.of_nat l) (readers (path_of (l - 1)) V r)) (K r))).
  2:{ intros r Hr. unfold map_agree. rewrite run_bind_mpi. done. }
  etrans; [apply agree_round|]. apply rtc_refl.
Qed.

(** The readers [st] and their files, where they gave up. *)
Definition stands_at (D : disk) (file : nat -> cstring) (st : nat -> bool) : Prop :=
  (exists l V, level_ok n ranks D file l V (entries l) st) /\
  forall w, (w < n)%nat -> st w = true -> own (file w) = Some w.

(** From the top map down to level [l], or to where a reader got no answer. *)
Lemma read_maps D l V k :
  maps n prefix ranks D l V k ->
  forall A fuel depth (K : nat -> Z * reader -> proc (act A)) ch L,
  (1 <= l)%nat -> (l + k <= max_level)%nat -> idle ch -> all_ready L ->
  exists depth' ch' L', idle ch' /\ all_go_on L L' /\
    let start := at_all n (fun r => run_bind (kvtree_read_scatter_map (k + fuel) (Z.of_nat r) n prefix depth (r =? 0)%nat
                              (if (r =? 0)%nat then Some (c_str prefix) else None) 0) (K r)) ch D L in
    (rtc (ostep own) start
       (at_all n (fun r => run_bind (map_end fuel r depth' (Z.of_nat l) (readers (path_of (l - 1)) V r)) (K r)) ch' D L') \/
     ~ all_calm L /\ exists file st, stands_at D file st /\
       rtc (ostep own) start (at_all n (fun r => K r (KVTREE_FAILURE, readers file st r)) ch' D L')).
Proof.
  intros Hm. induction Hm as [l V st Hz Hw Hlev|l V st k Hz Hlev Hm IH]; intros A fuel depth K ch L Hl Hk Hidle HL.
  - assert (forall r, (r < n)%nat -> st r = (r =? 0)%nat) as Hst0.
    { intros r Hr. rewrite <- (starts_writer st r Hz), Hw by done. apply Nat.eqb_sym. }
    assert (forall w, (w < n)%nat -> st w = true -> own (c_str prefix) = Some w) as Hown.
    { intros w Hwn Hsw. rewrite Hst0 in Hsw by done. apply Nat.eqb_eq in Hsw. subst w. apply own_prefix. }
    destruct (read_map_step fuel l (fun _ => c_str prefix) V st depth K ch D L) as (ok & ch' & L' & Hi & HL' & Hc & Hr);
      [lia|done|done|done|done|done|].
    exists depth, ch', L'. split; [done|]. split; [done|].
    erewrite (at_all_ext _ (fun r => run_bind (kvtree_read_scatter_map _ _ _ _ _ _ _ _) _)).
    2:{ intros r Hr0. cbn beta. by rewrite <- (Hst0 r Hr0). }
    destruct ok; [by left|right]. split; [by intros ?%Hc|]. exists (fun _ => c_str prefix), st.
    split; [|exact Hr]. split; [by exists l, V|done].
  - assert (forall w, (w < n)%nat -> st w = true -> own (path_of l w) = Some w) as Hown.
    { intros w Hwn _. apply own_level; [lia|lia|done]. }
    destruct (IH A (S fuel) depth K ch L) as (d1 & ch1 & L1 & Hi1 & HL1 & Hr1); [lia|lia|done|done|].
    rewrite <- plus_n_Sm in Hr1. cbv zeta in Hr1.
    destruct Hr1 as [Hr1|(Hnc & file & st1 & Hfile & Hr1)].
    2:{ exists d1, ch1, L1. split; [done|]. split; [done|]. right. split; [done|]. exists file, st1. by split. }
    destruct (read_map_step fuel l (path_of l) V st (i32 (d1 + 1)) K ch1 D L1) as (ok & ch' & L' & Hi & HL' & Hc & Hr);
      [lia|done|done|done|done|by apply HL1|].
    exists (i32 (d1 + 1)), ch', L'. split; [done|]. split; [by eapply all_go_on_trans|]. cbv zeta.
    assert (at_all n (fun r => run_bind (map_end (S fuel) r d1 (Z.of_nat (S l)) (readers (path_of (S l - 1)) st r)) (K r)) ch1 D L1
      = at_all n (fun r => run_bind (kvtree_read_scatter_map (S fuel) (Z.of_nat r) n prefix (i32 (d1 + 1))
                              (st r) (if st r then Some (path_of l r) else None) 0) (K r)) ch1 D L1) as Eq.
    { apply at_all_ext. intros r Hr0. unfold map_end. rewrite (proj2 (Z.ltb_lt _ _)) by lia. unfold readers.
      by replace (S l - 1)%nat with l by lia. }
    rewrite Eq in Hr1. destruct ok; [left; by etrans|right].
    split; [intros Hall; by apply HL1, Hc in Hall|]. exists (path_of l), st.
    split; [split; [by exists l, V|done]|by etrans].
Qed.

(** ** The whole call *)

(** The parts of [kvtree_read_scatter] after the maps. *)
Definition data_fetch (new : reader) (rc : Z) : proc (act (Z * option kvtree)) :=
  let '(valid, file, offset) := new in
  let send := Some kvtree_new in
  if valid then
    run* (readsize, save) := read_at file offset (Some kvtree_new) in
    match readsize with
    | None => done (KVTREE_FAILURE, send)
    | Some readsize =>
        let rc := if readsize <? 0 then KVTREE_FAILURE else rc in
        let ranks := default 0 (kvtree_util_get_int save (str "RANKS")).2 in
        let rc := if negb (ranks =? Z.of_nat n) then KVTREE_FAILURE else rc in
        let '(_, send) := kvtree_extract save (Some (str "RANK")) in
        done (rc, send)
    end
  else done (rc, send).

Definition data_spread (r : nat) (data : option kvtree) (x : Z * option kvtree) : proc (act (Z * option kvtree)) :=
  let '(rc, send) := x in
  mpi* ok := kvtree_alltrue (if rc =? KVTREE_SUCCESS then 1 else 0) in
  if ok =? 0 then done (KVTREE_FAILURE, data)
  else
    mpi* (_, recv) := kvtree_exchange_direction (Z.of_nat r) (Z.of_nat n) send (Some kvtree_new) KVTREE_EXCHANGE_RIGHT in
    let data := collect_loop (kvtree_elem_first recv) data in
    mpi* ok := kvtree_alltrue (if rc =? KVTREE_SUCCESS then 1 else 0) in
    if ok =? 0 then done (KVTREE_FAILURE, data) else done (rc, data).

(** A process for which all is well goes on with [data_rest] when the others do. *)
Definition data_rest (r : nat) (data send : option kvtree) : proc (act (Z * option kvtree)) :=
  mpi* (_, recv) := kvtree_exchange_direction (Z.of_nat r) (Z.of_nat n) send (Some kvtree_new) KVTREE_EXCHANGE_RIGHT in
  let data := collect_loop (kvtree_elem_first recv) data in
  mpi* ok := kvtree_alltrue 1 in
  if ok =? 0 then done (KVTREE_FAILURE, data) else done (KVTREE_SUCCESS, data).

Lemma scatter_parts_eq fuel r data :
  kvtree_read_scatter fuel (Z.of_nat r) n prefix data
  = (let mappath := snprintf 1024 (c_str prefix) in
     let '(valid, file, offset) :=
       if Z.of_nat r =? 0 then (true, Some (strdup mappath), 0) else (false, None, 0) in
     run_bind (kvtree_read_scatter_map fuel (Z.of_nat r) n prefix 1 valid file offset)
       (fun '(x, new) =>
          run_bind (data_fetch new (if negb (x =? KVTREE_SUCCESS) then KVTREE_FAILURE else KVTREE_SUCCESS))
            (data_spread r data))).
Proof.
  unfold kvtree_read_scatter. cbv zeta. destruct (Z.of_nat r =? 0); cbv beta iota; f_equal;
    apply FunctionalExtensionality.functional_extensionality; intros [x [[valid file] offset]]; reflexivity.
Qed.

(** When one is not well they give up. *)
Lemma data_agree_on {A} (data send : nat -> option kvtree) (b : nat -> bool)
    (K : nat -> Z * option kvtree -> proc (act A)) ch D L own0 :
  rtc (ostep own0)
    (at_all n (fun r => run_bind (data_spread r (data r) (if b r then KVTREE_SUCCESS else KVTREE_FAILURE, send r)) (K r)) ch D L)
    (at_all n (fun r => if forallb b (seq 0 n) then run_bind (data_rest r (data r) (send r)) (K r)
                        else K r (KVTREE_FAILURE, data r)) ch D L).
Proof.
  clear Hprefix. set (rc r := if b r then KVTREE_SUCCESS else KVTREE_FAILURE).
  rewrite (at_all_ext _ _ (fun r => mpi* ok := kvtree_alltrue (bool_int (b r)) in
    run_bind (if ok =? 0 then done (KVTREE_FAILURE, data r)
              else
                mpi* (_, recv) := kvtree_exchange_direction (Z.of_nat r) (Z.of_nat n) (send r) (Some kvtree_new) KVTREE_EXCHANGE_RIGHT in
                let data := collect_loop (kvtree_elem_first recv) (data r) in
                mpi* ok := kvtree_alltrue (if rc r =? KVTREE_SUCCESS then 1 else 0) in
                if ok =? 0 then done (KVTREE_FAILURE, data) else done (rc r, data)) (K r))).
  2:{ intros r Hr. unfold data_spread. rewrite run_bind_mpi. unfold rc. by destruct (b r). }
  etrans; [apply agree_on|]. erewrite at_all_ext; [apply rtc_refl|]. intros r Hr. cbn beta.
  destruct (forallb b (seq 0 n)) eqn:Hall; cbn [bool_int Z.eqb]; [|done].
  rewrite forallb_forall in Hall. unfold rc. by rewrite Hall by (apply in_seq; lia).
Qed.

(** What the readers make of their answers. *)
Definition fetched (rc : Z) (x : option Z * option kvtree) : Z * option kvtree :=
  match x.1 with
  | None => (KVTREE_FAILURE, Some kvtree_new)
  | Some z => (if negb (default 0 (kvtree_util_get_int x.2 kRANKS).2 =? Z.of_nat n) then KVTREE_FAILURE
               else if z <? 0 then KVTREE_FAILURE else rc,
               (kvtree_extract x.2 (Some kRANK)).2)
  end.

Definition fetch_ok (st : nat -> bool) (x : nat -> option Z * option kvtree) (r : nat) : bool :=
  if st r then answered (x r) && (default 0 (kvtree_util_get_int (x r).2 kRANKS).2 =? Z.of_nat n) else true.

Lemma fetched_rc rc (st : nat -> bool) (x : nat -> option Z * option kvtree) (r : nat) :
  is_rc rc -> (if st r then fetched rc (x r) else (rc, Some kvtree_new))
  = (if fetch_ok st x r && (rc =? KVTREE_SUCCESS) then KVTREE_SUCCESS else KVTREE_FAILURE,
     if st r then (fetched rc (x r)).2 else Some kvtree_new).
Proof.
  unfold fetch_ok, fetched, answered. destruct (x r) as [[z|] h]; cbn [fst snd]; destruct (st r); cbn [andb fst snd];
    try (by intros [E|E]; rewrite ?E).
  rewrite Z.leb_antisym. destruct (_ =? Z.of_nat n), (z <? 0); cbn [negb andb]; by intros [E|E]; rewrite ?E.
Qed.

(** The readers [st] read the data. *)
Lemma data_phase {A} rc file l V t st (K : nat -> Z * option kvtree -> proc (act A)) (data : nat -> option kvtree) ch D L :
  is_rc rc -> level_ok n ranks D file l V t st ->
  (forall w, (w < n)%nat -> st w = true -> own (file w) = Some w) -> all_ready L ->
  exists x L', all_go_on L L' /\ answers l V t st x /\
    (all_calm L -> forall w, (w < n)%nat -> st w = true -> answered (x w) = true) /\
    rtc (ostep own)
      (at_all n (fun r => run_bind (data_fetch (readers file st r) rc)
                            (fun y => run_bind (data_spread r (data r) y) (K r))) ch D L)
      (at_all n (fun r =>
         if forallb (fun r => fetch_ok st x r && (rc =? KVTREE_SUCCESS)) (seq 0 n)
         then run_bind (data_rest r (data r) (if st r then (fetched rc (x r)).2 else Some kvtree_new)) (K r)
         else K r (KVTREE_FAILURE, data r)) ch D L').
Proof.
  intros Hrc Hlev Hown HL. set (F r y := run_bind (data_spread r (data r) y) (K r)).
  destruct (read_phase file l V t st (fun r x => F r (fetched rc x)) (fun r => F r (rc, Some kvtree_new)) ch D L Hlev Hown HL)
    as (x & L' & HL' & Hans & Hcalm & Hr1).
  exists x, L'. split; [done|]. split; [done|]. split; [done|].
  rewrite (at_all_ext _ _ (fun w => if st w then run_bind (read_at (Some (file w)) 0 (Some kvtree_new))
        (fun x => F w (fetched rc x)) else F w (rc, Some kvtree_new))).
  2:{ intros r Hr. unfold data_fetch, readers. destruct (st r); [|by rewrite run_bind_done].
      rewrite run_bind_assoc. f_equal. apply FunctionalExtensionality.functional_extensionality. intros [[z0|] h0]; [|done].
      unfold fetched. cbn [fst snd]. fold kRANK kRANKS. by destruct (kvtree_extract h0 (Some kRANK)). }
  etrans; [exact Hr1|].
  rewrite (at_all_ext _ _ (fun r => run_bind (data_spread r (data r)
    (if fetch_ok st x r && (rc =? KVTREE_SUCCESS) then KVTREE_SUCCESS else KVTREE_FAILURE,
     if st r then (fetched rc (x r)).2 else Some kvtree_new)) (K r))).
  2:{ intros r Hr. unfold F. rewrite <- fetched_rc by done. by destruct (st r). }
  apply (data_agree_on data (fun r => if st r then (fetched rc (x r)).2 else Some kvtree_new)
           (fun r => fetch_ok st x r && (rc =? KVTREE_SUCCESS)) K ch D L' own).
Qed.

(** What the writer of a segment sends back. *)
Lemma extract_sends V t st w l h :
  wf h -> segment_file l V t st w h -> (w < n)%nat -> st w = true -> st 0%nat = true -> V w = true ->
  exists y, (kvtree_extract (Some h) (Some kRANK)).2 = Some y /\ sends_segment V t st w y.
Proof.
  intros Hwh (recv & x & Hw & Hlf & Hh & Hp) Hwn Hsw Hst HV. rewrite kvtree_extract_spec, <- child_get by done. cbn [snd].
  destruct (get_rank (Z.of_nat l) ranks recv x h Hlf Hwh Hh []) as [Hwo _].
  assert (forall q, has_path_opt (kvtree_get (Some h) (Some kRANK)) q = has_path recv q) as Hpo
    by (intros q; apply (get_rank (Z.of_nat l) ranks recv x h Hlf Hwh Hh q)).
  destruct (kvtree_get (Some h) (Some kRANK)) as [y|].
  - exists y. split; [done|]. split; [done|]. intros k q. rewrite <- Hp. specialize (Hpo (k :: q)).
    cbn [has_path_opt] in Hpo. rewrite Hpo. tauto.
  - exfalso. specialize (Hpo [fmt_signed (Z.of_nat w)]). rewrite has_path_opt_None in Hpo.
    assert (has_path recv [fmt_signed (Z.of_nat w)] = true) as Ht; [|by rewrite Ht in Hpo].
    apply Hp. exists w. split_and!; [done|done| |apply c_str_fmt|done].
    rewrite <- (starts_writer st w Hst) in Hsw. by apply Nat.eqb_eq in Hsw.
Qed.

Section data.
Context (V : nat -> bool) (data extra : nat -> kvtree).
Hypothesis Hdata : forall s, (s < n)%nat -> V s = true -> wf (data s).
Hypothesis Hcost : before (item_cost V data) n + 4096 <= INT_MAX.
Hypothesis Hextra : forall r, (r < n)%nat -> wf (extra r).
Hypothesis Hranks : is_int ranks.

(** The files with the trees [data] of the processes [V], written by [ranks]. *)
Definition stored_by (D : disk) (k : nat) : Prop :=
  exists st, st 0%nat = true /\ (forall w, (w < n)%nat -> st w = true -> V w = true) /\
    level_ok n ranks D (path_of 0) 0 V data st /\ maps n prefix ranks D 1 st k.

Definition taken (r : nat) (x : kvtree) : kvtree :=
  match lh_first x with
  | [] => extra r
  | e :: l => merged (extra r) (default kvtree_new (kvtree_elem_hash (e :: l)))
  end.

Lemma taken_spec r st x :
  (r < n)%nat -> gets_tree V data st r x ->
  collect_loop (kvtree_elem_first (Some x)) (Some (extra r)) = Some (taken r x) /\ wf (taken r x) /\
  forall p, has_path (taken r x) p = has_path (extra r) p || (V r && has_path (data r) p).
Proof.
  intros Hr. unfold gets_tree, taken. cbn [kvtree_elem_first]. destruct (V r).
  - intros (h & -> & _ & Hp). cbn [collect_loop kvtree_elem_hash hash].
    destruct (merge_merged (extra r) h (Hextra r Hr)) as (rc & ->). cbn [collect_loop].
    split_and!; [done|by apply merged_wf, Hextra|]. intros p. rewrite merged_path by (by apply Hextra).
    f_equal. by rewrite has_path_default.
  - intros ->. split_and!; [done|by apply Hextra|]. intros p. by rewrite orb_false_r.
Qed.

(** The data arrive. *)
Lemma data_arrive {A} st (x : nat -> option Z * option kvtree) (K : nat -> Z * option kvtree -> proc (act A)) ch D L :
  st 0%nat = true -> (forall w, (w < n)%nat -> st w = true -> V w = true) ->
  answers 0 V data st x -> all_answered st x = true -> idle ch ->
  exists out ch', idle ch' /\
    (forall r, (r < n)%nat -> wf (out r) /\
       forall p, has_path (out r) p = has_path (extra r) p || (V r && has_path (data r) p)) /\
    rtc (ostep own)
      (at_all n (fun r => run_bind (data_rest r (Some (extra r))
                            (if st r then (fetched KVTREE_SUCCESS (x r)).2 else Some kvtree_new)) (K r)) ch D L)
      (at_all n (fun r => K r (KVTREE_SUCCESS, Some (out r))) ch' D L).
Proof.
  intros Hst HstV Hans Hall Hidle. destruct (answer_hashes 0 V data st x Hans Hall) as [h Hh].
  destruct (choice_lt kvtree_new n (fun r y =>
    (if st r then (fetched KVTREE_SUCCESS (x r)).2 else Some kvtree_new) = Some y /\
    sends_segment V data st r y)) as [ins Hin].
  { intros r Hr. destruct (Hh r Hr) as [Hwh Hhr]. destruct (st r) eqn:Hsr.
    - destruct Hhr as [(z & _ & ->) Hseg]. unfold fetched. cbn [fst snd].
      by apply (extract_sends V data st r 0); auto.
    - exists kvtree_new. split; [done|]. split; [apply wf_new|]. intros k0 q. rewrite has_path_new.
      split; [done|]. intros [? _]. congruence. }
  destruct (scatter_exchange V data st Hst Hdata Hcost ins
    (fun r '(_, recv) => run_bind
       (let data := collect_loop (kvtree_elem_first recv) (Some (extra r)) in
        mpi* ok := kvtree_alltrue 1 in
        if ok =? 0 then done (KVTREE_FAILURE, data) else done (KVTREE_SUCCESS, data)) (K r)) ch)
    as (outs & ch2 & Hi2 & Hout & Hr3); [intros w Hw; by apply Hin|done|].
  exists (fun r => taken r (outs r)), ch2. split; [done|].
  split; [intros r Hr; by destruct (taken_spec r st (outs r) Hr (Hout r Hr)) as (_ & ?)|].
  erewrite at_all_ext.
  2:{ intros r Hr. destruct (Hin r Hr) as [-> _]. unfold data_rest. rewrite run_bind_mpi. reflexivity. }
  etrans; [apply phase_mpi; erewrite running_ext; [exact Hr3|]|].
  { intros r Hr. cbn beta. f_equal. apply FunctionalExtensionality.functional_extensionality. by intros [rc recv]. }
  rewrite (at_all_ext _ _ (fun r => mpi* x := kvtree_alltrue 1 in
    run_bind (if x =? 0 then done (KVTREE_FAILURE, Some (taken r (outs r)))
              else done (KVTREE_SUCCESS, Some (taken r (outs r)))) (K r))).
  2:{ intros r Hr. cbn beta iota. destruct (taken_spec r st (outs r) Hr (Hout r Hr)) as (-> & _).
      cbv zeta. by rewrite run_bind_mpi. }
  etrans; [apply agree_round|]. apply rtc_refl.
Qed.

(** Whether all fetched their data. *)
Lemma all_fetched st x :
  answers 0 V data st x -> st 0%nat = true ->
  forallb (fun r => fetch_ok st x r && (KVTREE_SUCCESS =? KVTREE_SUCCESS)) (seq 0 n)
  = all_answered st x && (ranks =? Z.of_nat n).
Proof.
  intros Hans Hst. apply eq_true_iff_eq. rewrite andb_true_iff, all_answered_true, forallb_forall, Z.eqb_eq.
  assert (forall r, (r < n)%nat -> st r = true -> answered (x r) = true ->
            default 0 (kvtree_util_get_int (x r).2 kRANKS).2 = ranks) as Hrk.
  { intros r Hr Hsr Ha. destruct (answer_good _ _ _ _ _ Hans r Hr Hsr Ha) as (z & h & -> & _ & Hwh & recv & y & Hw & Hlf & Hhx & _).
    cbn [snd]. by rewrite (get_ranks (Z.of_nat 0) ranks recv y h). }
  unfold fetch_ok. split.
  - intros Ha. assert (forall w, (w < n)%nat -> st w = true -> answered (x w) = true /\ ranks = Z.of_nat n) as Hw.
    { intros w Hwn Hsw. specialize (Ha w ltac:(apply in_seq; lia)). rewrite Hsw, andb_true_r, andb_true_iff, Z.eqb_eq in Ha.
      destruct Ha as [Ha1 Ha2]. by rewrite Hrk in Ha2. }
    split; [intros w Hwn Hsw; by apply Hw|by apply (Hw 0%nat)].
  - intros [Ha Hrn] r Hr%in_seq. destruct (st r) eqn:Hsr; [|done].
    rewrite Ha, Hrk by (done || lia || (apply Ha; (done || lia))). by rewrite Hrn, Z.eqb_refl.
Qed.

(** All processes come to the same answer: success with the data, or failure with
    what they had; without errors of the system it depends on the number of ranks. *)
Lemma read_scatter_run {A} fuel k (K : nat -> Z * option kvtree -> proc (act A)) ch D L :
  (k <= fuel)%nat -> (k < max_level)%nat -> stored_by D k -> idle ch -> all_ready L ->
  exists (ok : bool) out ch' L', idle ch' /\ all_go_on L L' /\
    (all_calm L -> ranks = Z.of_nat n -> ok = true) /\
    (ok = true -> ranks = Z.of_nat n /\ forall r, (r < n)%nat -> wf (out r) /\
       forall p, has_path (out r) p = has_path (extra r) p || (V r && has_path (data r) p)) /\
    rtc (ostep own)
      (at_all n (fun r => run_bind (kvtree_read_scatter fuel (Z.of_nat r) n prefix (Some (extra r))) (K r)) ch D L)
      (at_all n (fun r => K r (if ok then (KVTREE_SUCCESS, Some (out r)) else (KVTREE_FAILURE, Some (extra r)))) ch' D L').
Proof.
  intros Hfuel Hk (st & Hst & HstV & Hlev & Hmaps) Hidle HL.
  set (F := fun r '(x, new) =>
    run_bind (data_fetch new (if negb (x =? KVTREE_SUCCESS) then KVTREE_FAILURE else KVTREE_SUCCESS))
             (fun y => run_bind (data_spread r (Some (extra r)) y) (K r))).
  destruct (read_maps D 1 st k Hmaps A (fuel - k) 1 F ch L)
    as (depth & ch1 & L1 & Hi1 & HL1 & Hr1); [lia|unfold max_level in *; lia|done|done|]. cbv zeta in Hr1.
  assert (at_all n (fun r => run_bind (kvtree_read_scatter fuel (Z.of_nat r) n prefix (Some (extra r))) (K r)) ch D L
    = at_all n (fun r => run_bind (kvtree_read_scatter_map (k + (fuel - k)) (Z.of_nat r) n prefix 1 (r =? 0)%nat
       (if (r =? 0)%nat then Some (c_str prefix) else None) 0) (F r)) ch D L) as Estart.
  { apply at_all_ext. intros r Hr. rewrite scatter_parts_eq. cbv zeta. replace (k + (fuel - k))%nat with fuel by lia.
    assert ((Z.of_nat r =? 0) = (r =? 0)%nat) as -> by (destruct (Nat.eqb_spec r 0); [subst; done|apply Z.eqb_neq; lia]).
    pose proof (path_name n prefix Hn Hprefix [] ltac:(cbn; lia)) as Ep. rewrite app_nil_r in Ep. rewrite Ep.
    unfold strdup. rewrite c_str_idem. unfold F.
    destruct (r =? 0)%nat; rewrite run_bind_assoc; f_equal; apply FunctionalExtensionality.functional_extensionality;
      intros [x new]; by rewrite run_bind_assoc. }
  rewrite Estart. clear Estart. destruct Hr1 as [Hr1|(Hnc & file & st1 & [(l & V1 & Hfile) Hown1] & Hr1)].
  - destruct (data_phase KVTREE_SUCCESS (path_of 0) 0 V data st K (fun r => Some (extra r)) ch1 D L1)
      as (x & L2 & HL2 & Hans & Hcalm & Hr2); [by left|done| |by apply HL1|].
    { intros w Hw _. apply own_level; [lia|unfold max_level; lia|done]. }
    rewrite all_fetched in Hr2 by done.
    assert (rtc (ostep own) (at_all n (fun r => run_bind (map_end (fuel - k) r depth (Z.of_nat 1) (readers (path_of (1 - 1)) st r)) (F r)) ch1 D L1)
      (at_all n (fun r => if all_answered st x && (ranks =? Z.of_nat n)
         then run_bind (data_rest r (Some (extra r)) (if st r then (fetched KVTREE_SUCCESS (x r)).2 else Some kvtree_new)) (K r)
         else K r (KVTREE_FAILURE, Some (extra r))) ch1 D L2)) as Hr3.
    { erewrite at_all_ext; [exact Hr2|]. intros r Hr. unfold map_end. change (1 <? Z.of_nat 1) with false.
      cbv beta iota. by rewrite run_bind_done. }
    destruct (all_answered st x && (ranks =? Z.of_nat n)) eqn:Hall.
    + apply andb_true_iff in Hall as [Hall Hrk%Z.eqb_eq].
      destruct (data_arrive st x K ch1 D L2) as (out & ch2 & Hi2 & Hout & Hr4); [done..|].
      exists true, out, ch2, L2. split; [done|]. split; [by eapply all_go_on_trans|]. split; [done|].
      split; [done|]. etrans; [exact Hr1|]. etrans; [exact Hr3|exact Hr4].
    + exists false, extra, ch1, L2. split; [done|]. split; [by eapply all_go_on_trans|]. split.
      * intros Hc Hrk. rewrite <- Hall, Hrk, Z.eqb_refl, andb_true_r. apply all_answered_true. by apply Hcalm, HL1.
      * split; [done|]. etrans; [exact Hr1|exact Hr3].
  - destruct (data_phase KVTREE_FAILURE file l V1 (entries l) st1 K (fun r => Some (extra r)) ch1 D L1)
      as (x & L2 & HL2 & _ & _ & Hr2); [by right|done|done|by apply HL1|].
    exists false, extra, ch1, L2. split; [done|]. split; [by eapply all_go_on_trans|]. split; [done|]. split; [done|].
    etrans; [exact Hr1|].
    assert (forallb (fun r => fetch_ok st1 x r && (KVTREE_FAILURE =? KVTREE_SUCCESS)) (seq 0 n) = false) as Hfalse.
    { apply not_true_iff_false. rewrite forallb_forall. intros Ha. specialize (Ha 0%nat ltac:(apply in_seq; lia)).
      by rewrite andb_false_r in Ha. }
    rewrite Hfalse in Hr2. exact Hr2.
Qed.
End data.
End collective.
