(* ===== verification/Collective.v ===== *)
(** Collective files: the properties of [kvtree_write_gather] and
    [kvtree_read_scatter] (MpiIo), for every order in which the processes run,
    every buffering MPI may do and every order of the operations on files. *)

From stdpp Require Import relations.
From S2P Require Import Prelude CLib ByteOrder Kvtree KvtreeSpec KvtreeMap KvtreeMerge Pack.
From S2P Require Import Io Persist Format Paths Gather Net Mpi Exchange Bruck ExchangeSpec Writers Items World MpiIo.
From S2P Require Import LevelFile Levels CollectiveWrite CollectiveRead.

Section collective.
Context `{Host} `{Zlib} `{Libc} `{MpiConst} `{MpiBuffers}.

(** The processes of a communicator and where they write. *)
Record job (n : nat) (prefix : cstring) : Prop := {
  job_malloc : INT_MAX <= malloc_max;
  job_size : (0 < n)%nat /\ Z.of_nat n <= 2 ^ 20;
  job_prefix : (strlen prefix <= 800)%nat
}.

Lemma write_gather_end n prefix data fuel D L :
  job n prefix -> write_inputs n data -> (2 <= fuel)%nat -> all_ready n L ->
  walways (at_all n (fun r => kvtree_write_gather fuel (Z.of_nat r) n prefix (Some (data r))) ∅ D L)
    (fun w => exists rc, is_rc rc /\ finished ((fun _ => rc) <$> seq 0 n) w /\
       (rc = KVTREE_SUCCESS -> exists k, (k <= 2)%nat /\ stored n prefix (files_of w) data k) /\
       (all_calm n L -> rc = KVTREE_SUCCESS) /\
       forall f, ~ map_file n prefix 0 f -> files_of w !! f = D !! f).
Proof.
  intros [Hm [Hn HN] Hp] Hdata Hfuel HL. replace fuel with (2 + (fuel - 2))%nat by lia.
  destruct (write_gather_run Hm n prefix Hn HN Hp data Hdata (fuel - 2) (fun _ => done) ∅ D L idle_empty HL)
    as (ok & ch' & D' & L' & _ & _ & Hc & Hst & Hoff & Hr).
  rewrite (at_all_ext _ _ (fun r => kvtree_write_gather (2 + (fuel - 2)) (Z.of_nat r) n prefix (Some (data r)))) in Hr
    by (intros; apply run_bind_ret).
  set (rc := if ok then KVTREE_SUCCESS else KVTREE_FAILURE) in Hr.
  apply (all_end _ n _ (fun _ => rc)) in Hr; [|done].
  eapply walways_impl; [exact Hr|]. intros w [Hf ->]. exists rc. unfold rc. split.
  - destruct ok; [by left|by right].
  - split; [done|]. split; [by destruct ok; [intros _; apply Hst|]|]. split; [|done]. by intros ->%Hc.
Qed.

(** The files with the trees [data] that [ranks] processes wrote, read by [n]. *)
Lemma read_scatter_end n prefix ranks V data extra fuel k D L :
  job n prefix -> (forall s, (s < n)%nat -> V s = true -> wf (data s)) ->
  before (item_cost V data) n + 4096 <= INT_MAX -> is_int ranks ->
  (forall r, (r < n)%nat -> wf (extra r)) -> (k <= 2)%nat -> (2 <= fuel)%nat ->
  stored_by n prefix ranks V data D k -> all_ready n L ->
  walways (at_all n (fun r => kvtree_read_scatter fuel (Z.of_nat r) n prefix (Some (extra r))) ∅ D L)
    (fun w => files_of w = D /\ exists rc out, is_rc rc /\ finished ((fun r => (rc, Some (out r))) <$> seq 0 n) w /\
       (all_calm n L -> ranks = Z.of_nat n -> rc = KVTREE_SUCCESS) /\
       (rc = KVTREE_SUCCESS -> ranks = Z.of_nat n /\ forall r, (r < n)%nat -> wf (out r) /\
          forall p, has_path (out r) p = has_path (extra r) p || (V r && has_path (data r) p)) /\
       (rc = KVTREE_FAILURE -> forall r, (r < n)%nat -> out r = extra r)).
Proof.
  intros [Hm [Hn HN] Hp] Hdata Hcost Hrk Hextra Hk Hfuel Hst HL.
  destruct (read_scatter_run Hm n prefix ranks Hn HN Hp V data extra Hdata Hcost Hextra Hrk fuel k (fun _ => done) ∅ D L)
    as (ok & out & ch' & L' & _ & _ & Hc & Hout & Hr); [lia|unfold max_level; lia|done|apply idle_empty|done|].
  rewrite (at_all_ext _ _ (fun r => kvtree_read_scatter fuel (Z.of_nat r) n prefix (Some (extra r)))) in Hr
    by (intros; apply run_bind_ret).
  apply (all_end _ n _ (fun r => if ok then (KVTREE_SUCCESS, Some (out r)) else (KVTREE_FAILURE, Some (extra r)))) in Hr;
    [|done].
  eapply walways_impl; [exact Hr|]. intros w [Hf Hd]. split; [done|]. destruct ok.
  - exists KVTREE_SUCCESS, out. split; [by left|]. split; [done|]. split; [done|]. split; [by intros _; apply Hout|done].
  - exists KVTREE_FAILURE, extra. split; [by right|]. split; [done|]. split; [|done]. intros Hcs Hrn. by specialize (Hc Hcs Hrn).
Qed.

(** The cost of the trees of a write. *)
Lemma inputs_cost n m V data :
  write_inputs n data -> (n <= m)%nat -> (forall r, (n <= r)%nat -> V r = false) ->
  before (item_cost V data) m + 4096 <= INT_MAX.
Proof.
  intros [_ Hsize] Hle HV. assert (before (item_cost V data) m <= before (item_cost (fun _ => true) data) n).
  2:{ change (before (item_cost (fun _ => true) data) n + 4096 <= INT_MAX) in Hsize. lia. }
  transitivity (before (item_cost V data) n).
  - induction Hle as [|m Hle IH]; [done|]. cbn [before]. unfold item_cost at 2. rewrite HV by done. lia.
  - apply before_le. intros r _. unfold item_cost. destruct (V r); lia.
Qed.

(** Process 0 reads a file that is not there, the others do nothing. *)
Lemma missing_round {A} n path (P : nat -> option Z * option kvtree -> proc (act A)) (Q : nat -> proc (act A)) ch D L :
  D !! path = None ->
  exists L',
    rtc (ostep (fun _ => Some 0%nat))
      (at_all n (fun r => if (r =? 0)%nat then run_bind (read_at (Some path) 0 (Some kvtree_new)) (P r) else Q r) ch D L)
      (at_all n (fun r => if (r =? 0)%nat then P r (None, Some kvtree_new) else Q r) ch D L').
Proof.
  intros HD.
  destruct (read_at_missing (fun _ => Some 0%nat) 0 path (Some kvtree_new) (set_files D (L 0%nat)) (P 0%nat))
    as (s' & Hr & _ & Hfs); [done|by intros ? ? _|done|].
  exists (fun r => if (r =? 0)%nat then s' else set_files D (L r)).
  pose proof (phase_files (fun _ => Some 0%nat) n
    (fun r => if (r =? 0)%nat then run_bind (read_at (Some path) 0 (Some kvtree_new)) (P r) else Q r)
    (fun r => if (r =? 0)%nat then P r (None, Some kvtree_new) else Q r) ch D L
    (fun r => if (r =? 0)%nat then s' else set_files D (L r))) as Hph.
  rewrite disk_after_same in Hph.
  - apply Hph. intros [|r] _; [exact Hr|constructor].
  - by intros [|r] _.
Qed.

(** ** The properties *)

(** C33. [kvtree_write_gather] on all processes of a communicator, in any order of
    their steps and whatever the system replies to any of them: every run ends, and
    all processes report the same.  If they report success the trees are in the files:
    some processes, process 0 among them, each have a file with the trees of the
    processes up to the next one, and at most two levels of maps, the last with
    process 0 as its only writer, name the files of the level below.  When the system
    reports no errors they do report success.  No file other than the top map and
    those of the levels has changed. *)
Theorem write_gather_stores n prefix data fuel D L :
  job n prefix -> write_inputs n data -> (2 <= fuel)%nat -> all_ready n L ->
  walways (at_all n (fun r => kvtree_write_gather fuel (Z.of_nat r) n prefix (Some (data r))) ∅ D L)
    (fun w => exists rc, is_rc rc /\ finished ((fun _ => rc) <$> seq 0 n) w /\
       (rc = KVTREE_SUCCESS -> exists k, (k <= 2)%nat /\ stored n prefix (files_of w) data k) /\
       (all_calm n L -> rc = KVTREE_SUCCESS) /\
       forall f, ~ map_file n prefix 0 f -> files_of w !! f = D !! f).
Proof. apply write_gather_end. Qed.

(** C9. What the processes wrote with [kvtree_write_gather], the processes of a later
    communicator of the same size read back with [kvtree_read_scatter], whatever the
    order of the steps of both and whatever the system replies.  Every run of either
    ends, and all processes report the same.  When the write reported success and the
    read does, each process has exactly the paths it passed and those of the tree it
    wrote, in a well-formed tree; when the read reports failure, each has what it
    passed.  Both report success when the system reports no errors, and the read
    leaves the files as they are. *)
Theorem collective_roundtrip n prefix data extra fuel fuel' D L L' :
  job n prefix -> write_inputs n data -> (forall r, (r < n)%nat -> wf (extra r)) ->
  (2 <= fuel)%nat -> (2 <= fuel')%nat -> all_ready n L -> all_ready n L' ->
  walways (at_all n (fun r => kvtree_write_gather fuel (Z.of_nat r) n prefix (Some (data r))) ∅ D L)
    (fun w => exists rc, is_rc rc /\ finished ((fun _ => rc) <$> seq 0 n) w /\
       (all_calm n L -> rc = KVTREE_SUCCESS) /\
       (rc = KVTREE_SUCCESS ->
        walways (at_all n (fun r => kvtree_read_scatter fuel' (Z.of_nat r) n prefix (Some (extra r)))
                   ∅ (files_of w) L')
          (fun w' => files_of w' = files_of w /\ exists rc' out,
             is_rc rc' /\ finished ((fun r => (rc', Some (out r))) <$> seq 0 n) w' /\
             (all_calm n L' -> rc' = KVTREE_SUCCESS) /\
             (rc' = KVTREE_SUCCESS -> forall r, (r < n)%nat -> wf (out r) /\
                forall p, has_path (out r) p = has_path (extra r) p || has_path (data r) p) /\
             (rc' = KVTREE_FAILURE -> forall r, (r < n)%nat -> out r = extra r)))).
Proof.
  intros Hjob Hdata Hextra Hf Hf' HL HL'.
  eapply walways_impl; [by apply (write_gather_end n prefix data fuel D L)|].
  intros w (rc & Hrc & Hw & Hst & Hc & _). exists rc. split_and!; [done..|]. intros E.
  destruct (Hst E) as (k & Hk & st & Hz & Hlev & Hmaps).
  eapply walways_impl.
  { apply (read_scatter_end n prefix (Z.of_nat n) (fun _ => true) data extra fuel' k (files_of w) L'); try done.
    - intros s Hs _. by apply Hdata.
    - apply Hdata.
    - destruct Hjob as [_ [_ HN] _]. int_lia.
    - exists st. by split_and!. }
  intros w' [HD (rc' & out & Hrc' & Hw' & Hc' & Hs' & Hfl')]. split; [done|]. exists rc', out.
  split_and!; [done|done|by intros; apply Hc'| |done]. intros Hok r Hr. by apply Hs'.
Qed.

(** C34. The files of a write by [n] processes are refused by more than [n]: each run
    of [kvtree_read_scatter] ends with failure on every process, whatever the system
    replies, and the trees passed and the files are unchanged. *)
Theorem read_scatter_ranks n m prefix data extra fuel k D L :
  job m prefix -> write_inputs n data -> (0 < n < m)%nat -> (forall r, (r < m)%nat -> wf (extra r)) ->
  (k <= 2)%nat -> (2 <= fuel)%nat -> stored n prefix D data k -> all_ready m L ->
  walways (at_all m (fun r => kvtree_read_scatter fuel (Z.of_nat r) m prefix (Some (extra r))) ∅ D L)
    (fun w => finished ((fun r => (KVTREE_FAILURE, Some (extra r))) <$> seq 0 m) w /\ files_of w = D).
Proof.
  intros Hjob Hdata [Hn Hnm] Hextra Hk Hf (st & Hz & Hlev & Hmaps) HL.
  eapply walways_impl.
  { apply (read_scatter_end m prefix (Z.of_nat n) (below n (fun _ => true)) data extra fuel k D L); try done.
    - intros s _ [Hs _]%below_true. by apply Hdata.
    - apply (inputs_cost n); [done|lia|]. intros r Hr. unfold below. by rewrite (proj2 (Nat.ltb_ge _ _)).
    - destruct Hjob as [_ [_ HN] _]. int_lia.
    - exists (below n st). split_and!; [by rewrite below_lt| | |].
      + intros w _ [Hw _]%below_true. by rewrite below_lt.
      + apply level_ok_more; [done|lia|done|done].
      + apply maps_more; [done|lia|done]. }
  intros w [HD (rc & out & Hrc & Hw & _ & Hs & Hfl)]. split; [|done].
  destruct Hrc as [->| ->]; [destruct (Hs eq_refl); lia|].
  unfold finished, stopped in *. rewrite Hw. rewrite <- !list_fmap_compose.
  apply list_fmap_ext. intros i r Hr%lookup_seq. destruct Hr as [-> Hr]. cbn. by rewrite Hfl by lia.
Qed.

(** C35. Without the top map, [kvtree_read_scatter] fails on every process, whatever
    the system replies and in whatever order they run: the failure of process 0 to
    open the file reaches all of them, nobody waits for a message, and the trees
    passed and the files are unchanged. *)
Theorem read_scatter_missing n prefix data fuel D L :
  (0 < n)%nat -> (1 <= fuel)%nat -> D !! strdup (snprintf 1024 (c_str prefix)) = None ->
  walways (at_all n (fun r => kvtree_read_scatter fuel (Z.of_nat r) n prefix (data r)) ∅ D L)
    (fun w => finished ((fun r => (KVTREE_FAILURE, data r)) <$> seq 0 n) w /\ files_of w = D).
Proof.
  intros Hn Hfuel HD. destruct fuel as [|fuel]; [lia|]. set (path := strdup _) in HD.
  set (old r := ((r =? 0)%nat, if (r =? 0)%nat then Some path else None, 0)).
  set (F := fun r '(x, new) => run_bind
    (data_fetch n new (if negb (x =? KVTREE_SUCCESS) then KVTREE_FAILURE else KVTREE_SUCCESS))
    (data_spread n r (data r))).
  set (G r x := run_bind (map_spread n prefix fuel r 1 (old r) x) (F r)).
  set (rc (x : option Z) := match x with Some z => if z <? 0 then KVTREE_FAILURE else KVTREE_SUCCESS
                            | None => KVTREE_FAILURE end).
  destruct (missing_round n path (fun r x => G r (rc x.1, x.2)) (fun r => G r (KVTREE_SUCCESS, Some kvtree_new))
              ∅ D L HD) as (L1 & Hr1).
  set (E r (x : Z * option kvtree) := data_spread n r (data r) x).
  set (ec (x : option Z * option kvtree) :=
    match x.1 with
    | None => (KVTREE_FAILURE, Some kvtree_new)
    | Some z => (KVTREE_FAILURE, (kvtree_extract x.2 (Some (str "RANK"))).2)
    end).
  destruct (missing_round n path (fun r x => E r (ec x)) (fun r => E r (KVTREE_FAILURE, Some kvtree_new))
              ∅ D L1 HD) as (L2 & Hr2).
  apply (all_end (fun _ => Some 0%nat) n _ (fun r => (KVTREE_FAILURE, data r)) ∅ ∅ D D L L2 Hn).
  (* the top map *)
  rewrite (at_all_ext _ _ (fun r => if (r =? 0)%nat then run_bind (read_at (Some path) 0 (Some kvtree_new))
      (fun x => G r (rc x.1, x.2)) else G r (KVTREE_SUCCESS, Some kvtree_new))).
  2:{ intros r Hr. rewrite scatter_parts_eq. cbv zeta. destruct r as [|r].
      - change (Z.of_nat 0 =? 0) with true. cbv beta iota. rewrite (read_map_eq n prefix).
        unfold map_fetch, G, old. rewrite !run_bind_assoc. cbn [Nat.eqb]. f_equal.
        apply FunctionalExtensionality.functional_extensionality. by intros [[z|] h].
      - change (Z.of_nat (S r) =? 0) with false. cbv beta iota. rewrite (read_map_eq n prefix). done. }
  etrans; [exact Hr1|].
  rewrite (at_all_ext _ _ (fun r => run_bind (map_spread n prefix fuel r 1 (old r)
      (if negb (r =? 0)%nat then KVTREE_SUCCESS else KVTREE_FAILURE, Some kvtree_new)) (F r)))
    by (by intros [|r] _).
  etrans; [by apply (map_agree_on n prefix Hn fuel old (fun r => negb (r =? 0)%nat) (fun _ => Some kvtree_new))|].
  assert (forallb (fun r => negb (r =? 0)%nat) (seq 0 n) = false) as -> by (by destruct n; [lia|]).
  (* the data *)
  rewrite (at_all_ext _ _ (fun r => if (r =? 0)%nat then run_bind (read_at (Some path) 0 (Some kvtree_new))
      (fun x => E r (ec x)) else E r (KVTREE_FAILURE, Some kvtree_new))).
  2:{ intros [|r] _; [|done]. unfold F, old, data_fetch, E, ec. cbn [Nat.eqb]. rewrite run_bind_assoc. f_equal.
      apply FunctionalExtensionality.functional_extensionality. intros [[z|] h]; [|done]. cbn [fst snd].
      destruct (kvtree_extract h (Some (str "RANK"))) as [h' y]. cbn [negb Z.eqb KVTREE_FAILURE KVTREE_SUCCESS].
      rewrite run_bind_done. cbn [snd]. by destruct (negb _), (z <? 0). }
  etrans; [exact Hr2|].
  rewrite (at_all_ext _ _ (fun r => run_bind (data_spread n r (data r)
      (if (fun _ => false) r then KVTREE_SUCCESS else KVTREE_FAILURE, Some kvtree_new)) done))
    by (intros [|r] _; by rewrite run_bind_ret).
  etrans; [by apply (data_agree_on n Hn data (fun _ => Some kvtree_new) (fun _ => false) (fun _ => done))|].
  assert (forallb (fun _ => false) (seq 0 n) = false) as -> by (by destruct n; [lia|]). apply rtc_refl.
Qed.

End collective.

(** * Witnesses *)
Import ByteOrder.

Definition sample_data (r : nat) : kvtree :=
  match r with
  | 0%nat => sample_tree "A" "x" kvtree_new
  | _ => sample_tree "B" "y" (sample_tree "C" "z" kvtree_new)
  end.

Definition sample_extra (_ : nat) : kvtree := sample_tree "7" "old" kvtree_new.

#[local] Existing Instances host_le zlib_sum libc_sample mpi_sample mpi_rendezvous.

Lemma sample_job : job 2 (str "/tmp/ck").
Proof. split; [by vm_compute|split; [lia|by vm_compute]|apply Nat.leb_le; by vm_compute]. Qed.

Lemma sample_write : write_inputs 2 sample_data.
Proof. split; [intros [|r] _; wf_check|by vm_compute]. Qed.

(** A system with interruptions, short counts and errors. *)
Definition sample_states (r : nat) : os :=
  empty_os (match r with
            | 0%nat => [Fails EINTR; Full; Short 3; Fails EOTHER]
            | _ => [Full; Fails EOTHER]
            end).

Lemma sample_ready n : all_ready n sample_states.
Proof. intros r _. split; [|done]. split; [by vm_compute|]. intros m _. apply lookup_empty. Qed.

Lemma sample_calm n : all_calm n (fun _ => empty_os []).
Proof. intros r _. constructor. Qed.

Lemma empty_ready n : all_ready n (fun _ => empty_os []).
Proof. intros r _. split; [apply empty_os_ok|done]. Qed.

Lemma write_gather_stores_witness :
  walways (at_all 2 (fun r => kvtree_write_gather 2 (Z.of_nat r) 2 (str "/tmp/ck") (Some (sample_data r)))
             ∅ ∅ sample_states)
    (fun w => exists rc, is_rc rc /\ finished [rc; rc] w /\
       (rc = KVTREE_SUCCESS -> exists k, (k <= 2)%nat /\ stored 2 (str "/tmp/ck") (files_of w) sample_data k) /\
       (all_calm 2 sample_states -> rc = KVTREE_SUCCESS) /\
       forall f, ~ map_file 2 (str "/tmp/ck") 0 f -> files_of w !! f = (∅ : disk) !! f).
Proof.
  apply (write_gather_stores 2 (str "/tmp/ck") sample_data 2 ∅ sample_states).
  - exact sample_job.
  - exact sample_write.
  - lia.
  - apply sample_ready.
Defined.

Lemma collective_roundtrip_witness :
  walways (at_all 2 (fun r => kvtree_write_gather 2 (Z.of_nat r) 2 (str "/tmp/ck") (Some (sample_data r)))
             ∅ ∅ (fun _ => empty_os []))
    (fun w => exists rc, is_rc rc /\ finished [rc; rc] w /\
       (all_calm 2 (fun _ => empty_os []) -> rc = KVTREE_SUCCESS) /\
       (rc = KVTREE_SUCCESS ->
        walways (at_all 2 (fun r => kvtree_read_scatter 2 (Z.of_nat r) 2 (str "/tmp/ck") (Some (sample_extra r)))
                   ∅ (files_of w) sample_states)
          (fun w' => files_of w' = files_of w /\ exists rc' out,
             is_rc rc' /\ finished [(rc', Some (out 0%nat)); (rc', Some (out 1%nat))] w' /\
             (all_calm 2 sample_states -> rc' = KVTREE_SUCCESS) /\
             (rc' = KVTREE_SUCCESS -> forall r, (r < 2)%nat -> wf (out r) /\
                forall p, has_path (out r) p = has_path (sample_extra r) p || has_path (sample_data r) p) /\
             (rc' = KVTREE_FAILURE -> forall r, (r < 2)%nat -> out r = sample_extra r)))).
Proof.
  apply (collective_roundtrip 2 (str "/tmp/ck") sample_data sample_extra 2 2 ∅
           (fun _ => empty_os []) sample_states).
  - exact sample_job.
  - exact sample_write.
  - intros r _. wf_check.
  - lia.
  - lia.
  - apply empty_ready.
  - apply sample_ready.
Defined.

(** Three processes read what two wrote. *)
Lemma read_scatter_ranks_witness :
  walways (at_all 2 (fun r => kvtree_write_gather 2 (Z.of_nat r) 2 (str "/tmp/ck") (Some (sample_data r)))
             ∅ ∅ (fun _ => empty_os []))
    (fun w =>
       walways (at_all 3 (fun r => kvtree_read_scatter 2 (Z.of_nat r) 3 (str "/tmp/ck") (Some (sample_extra r)))
                  ∅ (files_of w) (fun _ => empty_os []))
         (fun w' => finished [(KVTREE_FAILURE, Some (sample_extra 0)); (KVTREE_FAILURE, Some (sample_extra 1));
                              (KVTREE_FAILURE, Some (sample_extra 2))] w' /\ files_of w' = files_of w)).
Proof.
  eapply walways_impl.
  - apply (write_gather_end 2 (str "/tmp/ck") sample_data 2);
      [exact sample_job|exact sample_write|lia|apply empty_ready].
  - intros w (rc & _ & _ & Hst & Hcalm & _).
    destruct (Hst (Hcalm (sample_calm 2))) as (k & Hk & Hs).
    apply (read_scatter_ranks 2 3 (str "/tmp/ck") sample_data sample_extra 2 k (files_of w) (fun _ => empty_os [])).
    + split; [by vm_compute|split; [lia|by vm_compute]|apply Nat.leb_le; by vm_compute].
    + exact sample_write.
    + lia.
    + intros r _. wf_check.
    + exact Hk.
    + lia.
    + exact Hs.
    + apply empty_ready.
Defined.

Lemma read_scatter_missing_witness :
  walways (at_all 3 (fun r => kvtree_read_scatter 2 (Z.of_nat r) 3 (str "/tmp/ck") (Some (sample_extra r)))
             ∅ {[str "/tmp/other" := []]} (fun r => if (r =? 0)%nat then empty_os [Fails EINTR] else empty_os []))
    (fun w => finished [(KVTREE_FAILURE, Some (sample_extra 0)); (KVTREE_FAILURE, Some (sample_extra 1));
                        (KVTREE_FAILURE, Some (sample_extra 2))] w /\
              files_of w = {[str "/tmp/other" := []]}).
Proof.
  apply (read_scatter_missing 3 (str "/tmp/ck") (fun r => Some (sample_extra r)) 2
           {[str "/tmp/other" := []]} (fun r => if (r =? 0)%nat then empty_os [Fails EINTR] else empty_os [])).
  - lia.
  - lia.
  - by vm_compute.
Defined.
