(* ===== verification/SepLogic.v ===== *)
(** A separation logic for code that reads and writes the places of a store.

    A store maps places to contents.  An assertion ([hprop]) says what part of the store
    holds, exactly: the logic is linear, so that a place cannot be forgotten.  [wp m Q]
    says that [m] runs without touching a place that is not in the store, does not loop,
    and leaves the store as [Q] says; what is next to the places it needs stays as it is.
    The proofs use the proof mode of Iris for this logic.

    In Memory the places are blocks of memory, in QueueSpec pointer variables. *)

From iris.bi Require Import bi.
From iris.proofmode Require Import proofmode.
From S2P Require Import Prelude.

(** ** Code *)
Definition code_on (K V : Type) `{Countable K} (A : Type) : Type :=
  gmap K V -> outcome (A * gmap K V).

Section code.
Context {K V : Type} `{Countable K}.
Notation code := (code_on K V).

Definition ret {A} (a : A) : code A := fun m => Ok (a, m).
Definition seq {A B} (c : code A) (k : A -> code B) : code B :=
  fun m => let* (a, m) := c m in k a m.

(** A loop that may run as often as there are places, and once more. *)
Definition with_fuel {A} (f : nat -> code A) : code A := fun m => f (S (size m)) m.

Definition no_fuel {A} : code A := fun _ => NoFuel.
Definition undefined {A} : code A := fun _ => Undef.

(** A computation that does not use the store. *)
Definition compute {A} (o : outcome A) : code A := fun m => let* a := o in Ok (a, m).

Definition read (l : K) : code V :=
  fun m => match m !! l with Some b => Ok (b, m) | None => Undef end.

Definition write (l : K) (b : V) : code unit :=
  fun m => match m !! l with Some _ => Ok (tt, <[l := b]> m) | None => Undef end.

Lemma seq_ok {A B} (c : code A) (k : A -> code B) a m m' :
  c m = Ok (a, m') -> seq c k m = k a m'.
Proof. intros E. unfold seq. by rewrite E. Qed.
End code.

Declare Scope code_scope.
Delimit Scope code_scope with code.
Notation "'do!' x ':=' c 'in' k" := (seq c (fun x => k))
  (at level 10, x pattern, c at level 100, k at level 200) : code_scope.
#[global] Open Scope code_scope.

(** ** Assertions *)
Record hprop (K V : Type) `{Countable K} := HProp { holds : gmap K V -> Prop }.
Add Printing Constructor hprop.
#[global] Arguments HProp {_ _ _ _} _.
#[global] Arguments holds {_ _ _ _} _%_I _.

Section connectives.
Context {K V : Type} `{Countable K}.
Notation hProp := (hprop K V).
Implicit Types P Q : hProp.

#[global] Instance hProp_equiv : Equiv hProp := fun P Q => forall m, holds P m <-> holds Q m.
#[global] Instance hProp_equivalence : Equivalence (≡@{hProp}).
Proof. split; repeat intro; [done|by symmetry|etrans; eauto]. Qed.
Canonical Structure hPropO := discreteO hProp.

Record entails P Q : Prop := Entails { in_entails : forall m, holds P m -> holds Q m }.
Definition nothing : hProp := HProp (fun m => m = ∅).
Definition pure (φ : Prop) : hProp := HProp (fun _ => φ).
Definition both P Q : hProp := HProp (fun m => holds P m /\ holds Q m).
Definition either P Q : hProp := HProp (fun m => holds P m \/ holds Q m).
Definition impl P Q : hProp := HProp (fun m => holds P m -> holds Q m).
Definition all A (F : A -> hProp) : hProp := HProp (fun m => forall a, holds (F a) m).
Definition some A (F : A -> hProp) : hProp := HProp (fun m => exists a, holds (F a) m).
Definition sep P Q : hProp :=
  HProp (fun m => exists m1 m2, m = m1 ∪ m2 /\ m1 ##ₘ m2 /\ holds P m1 /\ holds Q m2).
Definition wand P Q : hProp :=
  HProp (fun m => forall m1, m ##ₘ m1 -> holds P m1 -> holds Q (m ∪ m1)).
Definition always P : hProp := pure (entails nothing P).

Lemma hprop_bi_mixin : BiMixin entails nothing pure both either impl all some sep wand.
Proof.
  split.
  - split; [by intros P; split|]. intros P Q R [HP] [HQ]. split. intros m Hm. by apply HQ, HP.
  - intros P Q. split; [intros E; split; split; intros m; apply E|].
    intros [[HP] [HQ]] m. split; [apply HP|apply HQ].
  - intros n φ ψ E m. apply E.
  - intros n P P' EP Q Q' EQ m. cbn. by rewrite (EP m) (EQ m).
  - intros n P P' EP Q Q' EQ m. cbn. by rewrite (EP m) (EQ m).
  - intros n P P' EP Q Q' EQ m. cbn. by rewrite (EP m) (EQ m).
  - intros A n F G E m. cbn. by setoid_rewrite (fun a => E a m).
  - intros A n F G E m. cbn. by setoid_rewrite (fun a => E a m).
  - intros n P P' EP Q Q' EQ m. cbn. by setoid_rewrite (fun m => EP m); setoid_rewrite (fun m => EQ m).
  - intros n P P' EP Q Q' EQ m. cbn. by setoid_rewrite (fun m => EP m); setoid_rewrite (fun m => EQ m).
  - intros φ P Hφ. by split.
  - intros φ P Hφ. split. intros m Hm. by apply (Hφ Hm).
  - intros P Q. split. by intros m [? _].
  - intros P Q. split. by intros m [_ ?].
  - intros P Q R [HQ] [HR]. split. intros m HP. split; auto.
  - intros P Q. split. by left.
  - intros P Q. split. by right.
  - intros P Q R [HP] [HQ]. split. intros m [?|?]; auto.
  - intros P Q R [HR]. split. intros m HP HQ. apply HR. by split.
  - intros P Q R [HR]. split. intros m [HP HQ]. by apply HR.
  - intros A P F HF. split. intros m HP a. by apply (HF a).
  - intros A F a. split. intros m HF. apply HF.
  - intros A F a. split. intros m HF. by exists a.
  - intros A F Q HF. split. intros m [a Ha]. by apply (HF a).
  - intros P P' Q Q' [HP] [HQ]. split. intros m (m1 & m2 & -> & Hd & H1 & H2).
    exists m1, m2. auto.
  - intros P. split. intros m HP. exists ∅, m.
    rewrite left_id_L. split_and!; [done|apply map_disjoint_empty_l|done|done].
  - intros P. split. intros m (m1 & m2 & -> & Hd & -> & H2). by rewrite left_id_L.
  - intros P Q. split. intros m (m1 & m2 & -> & Hd & H1 & H2). exists m2, m1.
    by rewrite map_union_comm.
  - intros P Q R. split. intros m (m1 & m2 & -> & Hd & (m3 & m4 & -> & Hd' & H3 & H4) & H2).
    apply map_disjoint_union_l in Hd as [Hd3 Hd4].
    exists m3, (m4 ∪ m2). rewrite assoc_L. split_and!; [done| |done|by exists m4, m2].
    by apply map_disjoint_union_r.
  - intros P Q R [HR]. split. intros m HP m1 Hd HQ. apply HR. by exists m, m1.
  - intros P Q R [HR]. split. intros m (m1 & m2 & -> & Hd & HP & HQ). by apply HR.
Qed.

Lemma hprop_persistently_mixin : BiPersistentlyMixin entails nothing both some sep always.
Proof.
  eapply bi_persistently_mixin_discrete, hprop_bi_mixin.
  - done.
  - intros A F [E]. destruct (E ∅ eq_refl) as [a Ha]. exists a. split. by intros m ->.
  - done.
Qed.

Lemma hprop_later_mixin :
  BiLaterMixin entails pure either impl all some sep always id.
Proof. by eapply bi_later_mixin_id, hprop_bi_mixin. Qed.

End connectives.

Canonical Structure hPropI (K V : Type) `{Countable K} : bi :=
  {| bi_ofe_mixin := ofe_mixin_of (hprop K V);
     bi_bi_mixin := hprop_bi_mixin;
     bi_bi_persistently_mixin := hprop_persistently_mixin;
     bi_bi_later_mixin := hprop_later_mixin |}.

#[export] Instance hprop_pure_forall {K V : Type} `{Countable K} : BiPureForall (hPropI K V).
Proof. intros A φ. split. intros m Ha. exact Ha. Qed.

Section assertions.
Context {K V : Type} `{Countable K}.
Notation hProp := (hprop K V).

(** [l] is a place with the contents [b]; there are at least [k] places. *)
Definition points_to (l : K) (b : V) : hProp := HProp (fun m => m = {[l := b]}).
Definition blocks (k : nat) : hProp := HProp (fun m => (k <= size m)%nat).

Definition wp {A} (c : code_on K V A) (Q : A -> hProp) : hProp :=
  HProp (fun m => forall mf, m ##ₘ mf ->
    exists a m', c (m ∪ mf) = Ok (a, m' ∪ mf) /\ m' ##ₘ mf /\ holds (Q a) m').
End assertions.

Infix "↦" := points_to (at level 20).
#[global] Arguments blocks {_ _ _ _} _.

Section rules.
Context {K V : Type} `{Countable K}.
Notation hProp := (hprop K V).
Notation code := (code_on K V).
Implicit Types (l : K) (b : V) (P : hProp).

(** ** The number of places *)
Lemma blocks_points_to l b : l ↦ b ⊢ blocks 1.
Proof. split. intros m ->. cbn. by rewrite map_size_singleton. Qed.

(** A place has one owner. *)
Lemma points_to_once l b b' : l ↦ b -∗ l ↦ b' -∗ False.
Proof.
  apply bi.entails_wand, bi.wand_intro_r. split. intros m (m1 & m2 & -> & Hd & -> & ->).
  apply map_disjoint_singleton_l in Hd. by rewrite lookup_singleton_eq in Hd.
Qed.

(** A store is all its places. *)
Lemma store_points_to (m : gmap K V) : holds ([∗ map] l ↦ b ∈ m, l ↦ b) m.
Proof.
  induction m as [|l b m Hl IH] using map_ind.
  - enough (⊢@{hPropI K V} [∗ map] l ↦ b ∈ ∅, l ↦ b) as [E] by (by apply E).
    by rewrite big_sepM_empty.
  - enough (l ↦ b ∗ ([∗ map] l ↦ b ∈ m, l ↦ b) ⊢ [∗ map] l ↦ b ∈ <[l := b]> m, l ↦ b) as [E].
    { apply E. exists {[l := b]}, m. split_and!; [|by apply map_disjoint_singleton_l|done..].
      by rewrite insert_union_singleton_l. }
    by rewrite big_sepM_insert.
Qed.

Lemma blocks_none (P : hProp) : P ⊢ blocks 0.
Proof. split. intros m _. cbn. lia. Qed.

Lemma blocks_sep P (Q : hProp) j k : (P ⊢ blocks j) -> (Q ⊢ blocks k) -> P ∗ Q ⊢ blocks (j + k).
Proof.
  intros [HP] [HQ]. split. intros m (m1 & m2 & -> & Hd & H1 & H2). apply HP in H1. apply HQ in H2. cbn in *.
  rewrite map_size_disj_union; [lia|done].
Qed.

Lemma blocks_exist {A} (F : A -> hProp) k : (forall a, F a ⊢ blocks k) -> (∃ a, F a) ⊢ blocks k.
Proof. intros HF. split. intros m [a Ha]. by apply (HF a). Qed.

Lemma blocks_pure φ P k : (φ -> P ⊢ blocks k) -> <affine> ⌜φ⌝ ∗ P ⊢ blocks k.
Proof. intros HP. iIntros "[%Hφ H]". by iApply HP. Qed.

(** ** Rules *)
Section runs.
Context {A : Type}.
Implicit Types Q : A -> hProp.

Lemma wp_adequate (P : hProp) (c : code A) Q m :
  (P ⊢ wp c Q) -> holds P m -> exists a m', c m = Ok (a, m') /\ holds (Q a) m'.
Proof.
  intros [Hc] HP. destruct (Hc m HP ∅) as (a & m' & E & _ & HQ); [apply map_disjoint_empty_r|].
  exists a, m'. by rewrite !right_id_L in E.
Qed.

Lemma wp_wand (c : code A) Q Q' : wp c Q -∗ (∀ a, Q a -∗ Q' a) -∗ wp c Q'.
Proof.
  apply bi.entails_wand, bi.wand_intro_r. split. intros m (m1 & m2 & -> & Hd & Hc & HQ) mf Hf.
  apply map_disjoint_union_l in Hf as [Hf1 Hf2].
  destruct (Hc (m2 ∪ mf)) as (a & m' & E & Hd' & Ha); [by apply map_disjoint_union_r|].
  apply map_disjoint_union_r in Hd' as [Hd2 Hdf].
  exists a, (m2 ∪ m'). rewrite -assoc_L E. split_and!.
  - f_equal. f_equal. rewrite assoc_L. f_equal. by apply map_union_comm.
  - by apply map_disjoint_union_l.
  - by apply (HQ a m').
Qed.

Lemma wp_ret (a : A) Q : Q a ⊢ wp (ret a) Q.
Proof. split. intros m HQ mf Hf. by exists a, m. Qed.

Lemma wp_seq {B} (c : code B) (k : B -> code A) Q : wp c (fun x => wp (k x) Q) ⊢ wp (seq c k) Q.
Proof.
  split. intros m Hc mf Hf. destruct (Hc mf Hf) as (b & m1 & E & Hf1 & Hk).
  destruct (Hk mf Hf1) as (a & m2 & E2 & Hf2 & HQ). exists a, m2. split_and!; [|done..].
  unfold seq. by rewrite E.
Qed.

Lemma wp_with_fuel (f : nat -> code A) Q (P : hProp) k :
  (P ⊢ blocks k) -> (forall n, (k < n)%nat -> P ⊢ wp (f n) Q) -> P ⊢ wp (with_fuel f) Q.
Proof.
  intros [Hk] Hf. split. intros m HP mf Hd. apply (Hf (S (size (m ∪ mf)))); [|done..].
  apply Hk in HP. cbn in HP. rewrite map_size_disj_union; [lia|done].
Qed.

(** The part [R] of the store bounds the number of steps. *)
Lemma wp_fuel_frame (R P : hProp) (f : nat -> code A) Q k :
  (R ⊢ blocks k) -> (forall n, (k < n)%nat -> R ⊢ P -∗ wp (f n) Q) -> R -∗ P -∗ wp (with_fuel f) Q.
Proof.
  intros Hk Hf. apply bi.entails_wand, bi.wand_intro_r. apply (wp_with_fuel _ _ _ (k + 0)).
  - by apply blocks_sep, blocks_none.
  - intros n Hn. apply bi.wand_elim_l', Hf. lia.
Qed.
End runs.

Lemma wp_read l b (Q : V -> hProp) : l ↦ b -∗ (l ↦ b -∗ Q b) -∗ wp (read l) Q.
Proof.
  apply bi.entails_wand, bi.wand_intro_r. split. intros m (m1 & m2 & -> & Hd & -> & HQ) mf Hf.
  exists b, ({[l := b]} ∪ m2). split_and!; [|done|].
  - unfold read. rewrite -assoc_L lookup_union_l; [|by apply map_disjoint_union_l in Hf as [?%map_disjoint_singleton_l _];
      apply lookup_union_None; split; [apply map_disjoint_singleton_l in Hd|]].
    by rewrite lookup_singleton_eq.
  - rewrite map_union_comm; [|done]. by apply (HQ {[l := b]}).
Qed.

(** A place whose contents change, or that goes away. *)
Lemma block_out l b m2 mf :
  ({[l := b]} : gmap K V) ##ₘ m2 -> {[l := b]} ∪ m2 ##ₘ mf -> m2 !! l = None /\ mf !! l = None.
Proof.
  intros Hd%map_disjoint_singleton_l [Hf%map_disjoint_singleton_l _]%map_disjoint_union_l. by split.
Qed.

Lemma wp_write l b b' (Q : unit -> hProp) : l ↦ b -∗ (l ↦ b' -∗ Q tt) -∗ wp (write l b') Q.
Proof.
  apply bi.entails_wand, bi.wand_intro_r. split. intros m (m1 & m2 & -> & Hd & -> & HQ) mf Hf.
  destruct (block_out l b m2 mf Hd Hf) as [H2 Hmf].
  assert ({[l := b']} ##ₘ m2) as Hd' by (by apply map_disjoint_singleton_l).
  exists tt, ({[l := b']} ∪ m2). split_and!.
  - unfold write. rewrite -!assoc_L !lookup_union lookup_singleton_eq union_Some_l.
    by rewrite -!insert_union_singleton_l insert_insert_eq.
  - apply map_disjoint_union_l in Hf as [_ Hf]. apply map_disjoint_union_l.
    split; [by apply map_disjoint_singleton_l|done].
  - rewrite map_union_comm; [|done]. by apply (HQ {[l := b']}).
Qed.

Lemma wp_compute {A} o a (Q : A -> hProp) : o = Ok a -> Q a ⊢ wp (compute o) Q.
Proof. intros ->. apply wp_ret. Qed.
End rules.

(** Step into the first part of a sequence. *)
Ltac wp_seq := iApply wp_seq.
