(* ===== verification/Memory.v ===== *)
(** Memory: the blocks that a program has allocated, code that reads, writes,
    allocates and frees them, and the rules of the separation logic (SepLogic) for such
    code.  The logic is linear: a proof about a function shows which blocks it frees. *)

From iris.proofmode Require Import proofmode.
From S2P Require Import Prelude SepLogic.

Notation loc := positive.

(** A pointer; [None] is NULL. *)
Notation ptr := (option loc).

(** The address of a variable that holds a [kvtree_elem*]: the [lh_first] field of
    a list head or the [le_next] field of an element. *)
Inductive slot := HeadFirst (head : loc) | ElemNext (elem : loc).

(** The fields of a [struct kvtree_elem_struct]; [None] before the first assignment. *)
Record fields := Fields {
  f_key : option ptr;
  f_hash : option ptr;
  f_next : option ptr;
  f_prev : option slot
}.

(** An entry of an array that is sorted: a key, as a string or as an [int], with the
    address of its element, or an [int] alone; [NoEntry] before the first assignment. *)
Inductive entry :=
| NoEntry
| StrEntry (key addr : ptr)
| IntEntry (key : Z) (addr : ptr)
| IntKey (key : Z).

(** What [malloc] and [strdup] return memory for. *)
Inductive block :=
| Head (lh_first : option ptr)
| Element (f : fields)
| String (s : cstring)
| Bytes (b : list byte)
| Array (a : list entry).

Notation memory := (gmap loc block).

(** The address of the next block is up to the allocator. *)
Class Allocator := {
  next_block : memory -> loc;
  next_block_free m : m !! next_block m = None
}.

(** ** Code *)
Notation code := (code_on loc block).
Notation hProp := (hprop loc block).

Definition deref (p : ptr) : code loc :=
  match p with Some l => ret l | None => undefined end.

Definition malloc `{Allocator} (b : block) : code loc :=
  fun m => let l := next_block m in Ok (l, <[l := b]> m).

(** [free]: NULL is allowed. *)
Definition free (p : ptr) : code unit :=
  match p with
  | Some l => fun m => match m !! l with Some _ => Ok (tt, delete l m) | None => Undef end
  | None => ret tt
  end.

(** ** Fields *)
Definition get_field {A} (f : fields -> option A) (e : loc) : code A :=
  do! b := read e in
  match b with
  | Element x => match f x with Some a => ret a | None => undefined end
  | _ => undefined
  end.

Definition set_field (u : fields -> fields) (e : loc) : code unit :=
  do! b := read e in
  match b with
  | Element x => write e (Element (u x))
  | _ => undefined
  end.

Definition set_key (p : ptr) (x : fields) : fields := Fields (Some p) (f_hash x) (f_next x) (f_prev x).
Definition set_hash (p : ptr) (x : fields) : fields := Fields (f_key x) (Some p) (f_next x) (f_prev x).
Definition set_next (p : ptr) (x : fields) : fields := Fields (f_key x) (f_hash x) (Some p) (f_prev x).
Definition set_prev (s : slot) (x : fields) : fields := Fields (f_key x) (f_hash x) (f_next x) (Some s).

Definition get_first (l : loc) : code ptr :=
  do! b := read l in
  match b with Head (Some p) => ret p | _ => undefined end.

Definition set_first (p : ptr) (l : loc) : code unit :=
  do! b := read l in
  match b with Head _ => write l (Head (Some p)) | _ => undefined end.

(** [*s = p] for the address of a variable. *)
Definition set_slot (s : slot) (p : ptr) : code unit :=
  match s with
  | HeadFirst l => set_first p l
  | ElemNext e => set_field (set_next p) e
  end.

(** The string at an address; NULL is no string. *)
Definition get_string (p : ptr) : code (option cstring) :=
  match p with
  | Some l => do! b := read l in match b with String s => ret (Some s) | _ => undefined end
  | None => ret None
  end.

(** *** Buffers *)
Definition from_bytes {A} (l : loc) (f : list byte -> outcome A) : code A :=
  do! b := read l in
  match b with Bytes c => compute (f c) | _ => undefined end.

Definition on_bytes {A} (l : loc) (f : list byte -> outcome (list byte * A)) : code A :=
  do! b := read l in
  match b with
  | Bytes c =>
      do! (c, a) := compute (f c) in
      do! _ := write l (Bytes c) in
      ret a
  | _ => undefined
  end.

Definition copy_to (l : loc) (pos : nat) (bs : list byte) : code unit :=
  on_bytes l (fun c => let* c := mem_write c pos bs in Ok (c, tt)).

(** *** Arrays: [list] is the address of the first entry. *)
Definition get_array (l : loc) : code (list entry) :=
  do! b := read l in
  match b with Array a => ret a | _ => undefined end.

Definition load_entry (list : ptr) (index : nat) : code entry :=
  do! l := deref list in
  do! a := get_array l in
  match a !! index with Some x => ret x | None => undefined end.

Definition store_entry (list : ptr) (index : nat) (x : entry) : code unit :=
  do! l := deref list in
  do! a := get_array l in
  if decide (index < length a)%nat then write l (Array (<[index := x]> a)) else undefined.

(** ** Rules *)
Lemma wp_deref l (Q : loc -> hProp) : Q l ⊢ wp (deref (Some l)) Q.
Proof. apply wp_ret. Qed.

Lemma wp_malloc `{Allocator} b (Q : loc -> hProp) : (∀ l, l ↦ b -∗ Q l) ⊢ wp (malloc b) Q.
Proof.
  split. intros m HQ mf Hf. set (l := next_block (m ∪ mf)). pose proof (next_block_free (m ∪ mf)) as Hl.
  apply lookup_union_None in Hl as [Hm Hmf].
  assert (m ##ₘ {[l := b]}) as Hd by (by apply map_disjoint_singleton_r).
  exists l, (m ∪ {[l := b]}). split_and!.
  - unfold malloc. fold l. f_equal. f_equal. rewrite (map_union_comm m {[l := b]}); [|done].
    by rewrite -assoc_L -insert_union_singleton_l.
  - apply map_disjoint_union_l. split; [done|by apply map_disjoint_singleton_l].
  - by apply (HQ l {[l := b]}).
Qed.

Lemma wp_free l b (Q : unit -> hProp) : l ↦ b -∗ Q tt -∗ wp (free (Some l)) Q.
Proof.
  apply bi.entails_wand, bi.wand_intro_r. split. intros m (m1 & m2 & -> & Hd & -> & HQ) mf Hf.
  destruct (block_out l b m2 mf Hd Hf) as [H2 Hmf]. exists tt, m2. split_and!; [|by apply map_disjoint_union_l in Hf as [_ ?]|done].
  unfold free. rewrite -!assoc_L !lookup_union lookup_singleton_eq union_Some_l.
  rewrite -!insert_union_singleton_l delete_insert_id; [done|]. by apply lookup_union_None.
Qed.

Lemma wp_free_null (Q : unit -> hProp) : Q tt ⊢ wp (free None) Q.
Proof. apply wp_ret. Qed.

Lemma wp_get_field {A} (f : fields -> option A) e x a (Q : A -> hProp) :
  f x = Some a -> e ↦ Element x -∗ (e ↦ Element x -∗ Q a) -∗ wp (get_field f e) Q.
Proof.
  iIntros (Hx) "He HQ". unfold get_field. iApply wp_seq. iApply (wp_read with "He"). iIntros "He". rewrite Hx.
  iApply wp_ret. by iApply "HQ".
Qed.

Lemma wp_set_field u e x (Q : unit -> hProp) :
  e ↦ Element x -∗ (e ↦ Element (u x) -∗ Q tt) -∗ wp (set_field u e) Q.
Proof.
  iIntros "He HQ". unfold set_field. iApply wp_seq. iApply (wp_read with "He"). iIntros "He".
  by iApply (wp_write with "He").
Qed.

Lemma wp_get_first l p (Q : ptr -> hProp) :
  l ↦ Head (Some p) -∗ (l ↦ Head (Some p) -∗ Q p) -∗ wp (get_first l) Q.
Proof.
  iIntros "Hl HQ". unfold get_first. iApply wp_seq. iApply (wp_read with "Hl"). iIntros "Hl".
  iApply wp_ret. by iApply "HQ".
Qed.

Lemma wp_set_first l o p (Q : unit -> hProp) :
  l ↦ Head o -∗ (l ↦ Head (Some p) -∗ Q tt) -∗ wp (set_first p l) Q.
Proof.
  iIntros "Hl HQ". unfold set_first. iApply wp_seq. iApply (wp_read with "Hl"). iIntros "Hl".
  by iApply (wp_write with "Hl").
Qed.

(** The string at a pointer, owned; no string at NULL. *)
Definition string (p : ptr) (s : option cstring) : hProp :=
  match p, s with
  | Some l, Some s => l ↦ String s
  | None, None => emp
  | _, _ => False
  end%I.

Lemma wp_get_string p s (Q : option cstring -> hProp) :
  string p s -∗ (string p s -∗ Q s) -∗ wp (get_string p) Q.
Proof.
  iIntros "Hs HQ". destruct p as [l|], s as [s|]; cbn [string]; try done; unfold get_string.
  - iApply wp_seq. iApply (wp_read with "Hs"). iIntros "Hs". iApply wp_ret. by iApply "HQ".
  - iApply wp_ret. by iApply "HQ".
Qed.

Lemma wp_free_string p s (Q : unit -> hProp) : string p s -∗ Q tt -∗ wp (free p) Q.
Proof.
  iIntros "Hs HQ". destruct p as [l|], s as [s|]; cbn [string]; try done.
  - by iApply (wp_free with "Hs").
  - by iApply wp_free_null.
Qed.

Lemma wp_from_bytes {A} l c f a (Q : A -> hProp) :
  f c = Ok a -> l ↦ Bytes c -∗ (l ↦ Bytes c -∗ Q a) -∗ wp (from_bytes l f) Q.
Proof.
  iIntros (E) "Hl HQ". unfold from_bytes. iApply wp_seq. iApply (wp_read with "Hl"). iIntros "Hl".
  iApply wp_compute; [done|]. by iApply "HQ".
Qed.

Lemma wp_on_bytes {A} l c c' f a (Q : A -> hProp) :
  f c = Ok (c', a) -> l ↦ Bytes c -∗ (l ↦ Bytes c' -∗ Q a) -∗ wp (on_bytes l f) Q.
Proof.
  iIntros (E) "Hl HQ". unfold on_bytes. iApply wp_seq. iApply (wp_read with "Hl"). iIntros "Hl".
  iApply wp_seq. iApply wp_compute; [done|]. iApply wp_seq. iApply (wp_write with "Hl").
  iIntros "Hl". iApply wp_ret. by iApply "HQ".
Qed.

Lemma wp_copy_to l c c' pos bs (Q : unit -> hProp) :
  mem_write c pos bs = Ok c' -> l ↦ Bytes c -∗ (l ↦ Bytes c' -∗ Q tt) -∗ wp (copy_to l pos bs) Q.
Proof. intros E. apply wp_on_bytes. by rewrite E. Qed.

Lemma wp_get_array l a (Q : list entry -> hProp) :
  l ↦ Array a -∗ (l ↦ Array a -∗ Q a) -∗ wp (get_array l) Q.
Proof.
  iIntros "Hl HQ". unfold get_array. iApply wp_seq. iApply (wp_read with "Hl"). iIntros "Hl".
  iApply wp_ret. by iApply "HQ".
Qed.

Lemma wp_load_entry l a index x (Q : entry -> hProp) :
  a !! index = Some x -> l ↦ Array a -∗ (l ↦ Array a -∗ Q x) -∗ wp (load_entry (Some l) index) Q.
Proof.
  iIntros (E) "Hl HQ". unfold load_entry. iApply wp_seq. iApply wp_deref. iApply wp_seq.
  iApply (wp_get_array with "Hl"). iIntros "Hl". rewrite E. iApply wp_ret. by iApply "HQ".
Qed.

Lemma wp_store_entry l a index x (Q : unit -> hProp) :
  (index < length a)%nat -> l ↦ Array a -∗ (l ↦ Array (<[index := x]> a) -∗ Q tt) -∗
  wp (store_entry (Some l) index x) Q.
Proof.
  iIntros (E) "Hl HQ". unfold store_entry. iApply wp_seq. iApply wp_deref. iApply wp_seq.
  iApply (wp_get_array with "Hl"). iIntros "Hl". rewrite decide_True; [|done]. by iApply (wp_write with "Hl").
Qed.
