(* ===== verification/Heap.v ===== *)
(** The kvtree functions of [src/src/kvtree.c] on memory: every list head, element
    and key is a block, the functions take and return pointers, and allocate and
    free as the C code does.

    The linked list macros are those of [src/src/queue.h].  A key argument is the
    string it points to ([None] for NULL), and [kvtree_free(&p)] is the assignment
    of what [kvtree_free] returns to [p].  A function that recurses or loops runs
    for as many steps as there are blocks, and once more.  [KVTREE_MALLOC] and
    [strdup] succeed. *)

From S2P Require Import Prelude CLib SepLogic Memory.

(** ** The list macros *)
Definition LIST_INIT (head : loc) : code unit := set_first None head.

Definition LIST_FIRST (head : loc) : code ptr := get_first head.

Definition LIST_NEXT (elm : loc) : code ptr := get_field f_next elm.

Definition LIST_EMPTY (head : loc) : code bool :=
  do! first := get_first head in
  ret match first with None => true | Some _ => false end.

Definition LIST_INSERT_HEAD (head elm : loc) : code unit :=
  do! first := get_first head in
  do! _ := set_field (set_next first) elm in
  do! _ := match first with
           | Some f => set_field (set_prev (ElemNext elm)) f
           | None => ret tt
           end in
  do! _ := set_first (Some elm) head in
  set_field (set_prev (HeadFirst head)) elm.

Definition LIST_REMOVE (elm : loc) : code unit :=
  do! next := get_field f_next elm in
  do! _ := match next with
           | Some n => do! prev := get_field f_prev elm in set_field (set_prev prev) n
           | None => ret tt
           end in
  do! prev := get_field f_prev elm in
  do! next := get_field f_next elm in
  set_slot prev next.

(** ** Freeing *)
Definition kvtree_free (p : ptr) : code ptr :=
  do! _ := free p in
  ret None.

Section delete.

(** [kvtree_delete], for the hash of an element. *)
Variable delete : ptr -> code ptr.

Definition elem_delete_with (elem : ptr) : code Z :=
  match elem with
  | Some e =>
      do! key := get_field f_key e in
      do! key := kvtree_free key in
      do! _ := set_field (set_key key) e in
      do! hash := get_field f_hash e in
      do! hash := delete hash in
      do! _ := set_field (set_hash hash) e in
      do! _ := set_field (set_hash None) e in
      do! _ := kvtree_free elem in
      ret KVTREE_SUCCESS
  | None => ret KVTREE_SUCCESS
  end.

Fixpoint delete_loop (fuel : nat) (hash : loc) : code unit :=
  match fuel with
  | O => no_fuel
  | S fuel =>
      do! empty := LIST_EMPTY hash in
      if empty : bool then ret tt
      else
        do! elem := LIST_FIRST hash in
        do! e := deref elem in
        do! _ := LIST_REMOVE e in
        do! _ := elem_delete_with elem in
        delete_loop fuel hash
  end.
End delete.

(** The value of [*ptr_hash] after [kvtree_delete(ptr_hash)]. *)
Fixpoint delete_tree (fuel : nat) (ptr_hash : ptr) : code ptr :=
  match fuel with
  | O => no_fuel
  | S fuel =>
      match ptr_hash with
      | Some hash =>
          do! _ := delete_loop (delete_tree fuel) fuel hash in
          kvtree_free ptr_hash
      | None => ret None
      end
  end.

Definition kvtree_delete (ptr_hash : ptr) : code ptr :=
  with_fuel (fun fuel => delete_tree fuel ptr_hash).

Definition kvtree_elem_delete (elem : ptr) : code Z := elem_delete_with kvtree_delete elem.

(** ** Elements *)
Definition kvtree_elem_first (hash : ptr) : code ptr :=
  match hash with
  | None => ret None
  | Some h => LIST_FIRST h
  end.

Definition kvtree_elem_next (elem : ptr) : code ptr :=
  match elem with
  | None => ret None
  | Some e => LIST_NEXT e
  end.

Definition kvtree_elem_key (elem : ptr) : code ptr :=
  match elem with
  | None => ret None
  | Some e => get_field f_key e
  end.

Definition kvtree_elem_key_int (elem : ptr) : code Z :=
  match elem with
  | None => ret 0
  | Some e =>
      do! key := get_field f_key e in
      do! k := get_string key in
      match k with Some k => ret (atoi k) | None => undefined end
  end.

Definition kvtree_elem_hash (elem : ptr) : code ptr :=
  match elem with
  | None => ret None
  | Some e => get_field f_hash e
  end.

(** The [LIST_FOREACH] of [kvtree_elem_get]. *)
Fixpoint elem_get_loop (fuel : nat) (key : cstring) (elem : ptr) : code ptr :=
  match fuel with
  | O => no_fuel
  | S fuel =>
      match elem with
      | None => ret None
      | Some e =>
          do! p := get_field f_key e in
          do! k := get_string p in
          if match k with Some k => strcmp k key =? 0 | None => false end then ret elem
          else
            do! next := LIST_NEXT e in
            elem_get_loop fuel key next
      end
  end.

Definition kvtree_elem_get (hash : ptr) (key : option cstring) : code ptr :=
  match hash, key with
  | Some h, Some key =>
      do! elem := LIST_FIRST h in
      with_fuel (fun fuel => elem_get_loop fuel key elem)
  | _, _ => ret None
  end.

Definition kvtree_elem_extract (hash : ptr) (key : option cstring) : code ptr :=
  do! elem := kvtree_elem_get hash key in
  do! _ := match elem with Some e => LIST_REMOVE e | None => ret tt end in
  ret elem.

Definition kvtree_elem_extract_int (hash : ptr) (key : Z) : code ptr :=
  let tmp := fmt_signed key in
  do! elem := kvtree_elem_get hash (Some tmp) in
  do! _ := match elem with Some e => LIST_REMOVE e | None => ret tt end in
  ret elem.

Definition kvtree_elem_extract_by_addr (hash elem : ptr) : code ptr :=
  do! e := deref elem in
  do! _ := LIST_REMOVE e in
  ret elem.

(** ** Operations that allocate or free *)
Section allocate.
Context `{Allocator}.

Definition kvtree_elem_new : code loc :=
  do! elem := malloc (Element (Fields None None None None)) in
  do! _ := set_field (set_key None) elem in
  do! _ := set_field (set_hash None) elem in
  ret elem.

Definition kvtree_new : code loc :=
  do! hash := malloc (Head None) in
  do! _ := LIST_INIT hash in
  ret hash.

Definition kvtree_elem_init (elem : ptr) (key : option cstring) (hash : ptr) : code ptr :=
  match elem with
  | Some e =>
      do! _ := match key with
               | Some key =>
                   do! k := malloc (String (strdup key)) in
                   set_field (set_key (Some k)) e
               | None => set_field (set_key None) e
               end in
      do! _ := set_field (set_hash hash) e in
      ret elem
  | None => ret elem
  end.

Definition kvtree_get (hash : ptr) (key : option cstring) : code ptr :=
  do! elem := kvtree_elem_get hash key in
  match elem with
  | Some e => get_field f_hash e
  | None => ret None
  end.

Definition kvtree_set (hash : ptr) (key : option cstring) (hash_value : ptr) : code ptr :=
  match hash, key with
  | Some h, Some _ =>
      do! elem := kvtree_elem_extract hash key in
      do! e :=
        match elem with
        | None =>
            do! e := kvtree_elem_new in
            do! _ := kvtree_elem_init (Some e) key hash_value in
            ret e
        | Some e =>
            do! old := get_field f_hash e in
            do! _ := match old with
                     | Some _ =>
                         do! old := kvtree_delete old in
                         set_field (set_hash old) e
                     | None => ret tt
                     end in
            do! _ := set_field (set_hash hash_value) e in
            ret e
        end in
      do! _ := LIST_INSERT_HEAD h e in
      get_field f_hash e
  | _, _ => ret None
  end.

Definition kvtree_extract (hash : ptr) (key : option cstring) : code ptr :=
  match hash with
  | None => ret None
  | Some _ =>
      do! elem := kvtree_elem_extract hash key in
      match elem with
      | Some e =>
          do! elem_hash := get_field f_hash e in
          do! _ := set_field (set_hash None) e in
          do! _ := kvtree_elem_delete elem in
          ret elem_hash
      | None => ret None
      end
  end.

Definition kvtree_unset (hash : ptr) (key : option cstring) : code Z :=
  match hash with
  | None => ret KVTREE_SUCCESS
  | Some _ =>
      do! elem := kvtree_elem_extract hash key in
      do! _ := match elem with
               | Some _ => kvtree_elem_delete elem
               | None => ret KVTREE_SUCCESS
               end in
      ret KVTREE_SUCCESS
  end.

Fixpoint unset_all_loop (fuel : nat) (hash elem : ptr) : code Z :=
  match fuel with
  | O => no_fuel
  | S fuel =>
      match elem with
      | None => ret KVTREE_SUCCESS
      | Some _ =>
          let tmp := elem in
          do! elem := kvtree_elem_next elem in
          do! _ := kvtree_elem_extract_by_addr hash tmp in
          do! _ := kvtree_elem_delete tmp in
          unset_all_loop fuel hash elem
      end
  end.

Definition kvtree_unset_all (hash : ptr) : code Z :=
  do! elem := kvtree_elem_first hash in
  with_fuel (fun fuel => unset_all_loop fuel hash elem).

Fixpoint size_loop (fuel : nat) (elem : ptr) (count : Z) : code Z :=
  match fuel with
  | O => no_fuel
  | S fuel =>
      match elem with
      | None => ret count
      | Some e =>
          do! next := LIST_NEXT e in
          size_loop fuel next (i32 (count + 1))
      end
  end.

Definition kvtree_size (hash : ptr) : code Z :=
  match hash with
  | None => ret 0
  | Some h =>
      do! elem := LIST_FIRST h in
      with_fuel (fun fuel => size_loop fuel elem 0)
  end.

(** ** Merge *)
Section merge.
Variable merge : ptr -> ptr -> code Z.

Fixpoint merge_loop (fuel : nat) (hash1 elem : ptr) (rc : Z) : code Z :=
  match fuel with
  | O => no_fuel
  | S fuel =>
      match elem with
      | None => ret rc
      | Some _ =>
          do! p := kvtree_elem_key elem in
          do! key := get_string p in
          do! key_hash1 := kvtree_get hash1 key in
          do! key_hash1 :=
            match key_hash1 with
            | None => do! new := kvtree_new in kvtree_set hash1 key (Some new)
            | Some _ => ret key_hash1
            end in
          do! key_hash2 := kvtree_elem_hash elem in
          do! r := merge key_hash1 key_hash2 in
          do! elem := kvtree_elem_next elem in
          merge_loop fuel hash1 elem (if r =? KVTREE_SUCCESS then rc else KVTREE_FAILURE)
      end
  end.
End merge.

Fixpoint merge_tree (fuel : nat) (hash1 hash2 : ptr) : code Z :=
  match fuel with
  | O => no_fuel
  | S fuel =>
      match hash1, hash2 with
      | None, _ => ret KVTREE_FAILURE
      | Some _, None => ret KVTREE_SUCCESS
      | Some _, Some _ =>
          do! elem := kvtree_elem_first hash2 in
          merge_loop (merge_tree fuel) fuel hash1 elem KVTREE_SUCCESS
      end
  end.

Definition kvtree_merge (hash1 hash2 : ptr) : code Z :=
  with_fuel (fun fuel => merge_tree fuel hash1 hash2).

(** ** Key/value shortcuts *)
Definition kvtree_set_kv (hash : ptr) (key val : option cstring) : code ptr :=
  match hash with
  | None => ret None
  | Some _ =>
      do! k := kvtree_get hash key in
      do! k := match k with
               | None => do! new := kvtree_new in kvtree_set hash key (Some new)
               | Some _ => ret k
               end in
      do! v := kvtree_get k val in
      do! v := match v with
               | None => do! new := kvtree_new in kvtree_set k val (Some new)
               | Some _ => ret v
               end in
      ret v
  end.

Definition kvtree_set_kv_int (hash : ptr) (key : option cstring) (val : Z) : code ptr :=
  let tmp := fmt_signed val in
  kvtree_set_kv hash key (Some tmp).

Definition kvtree_get_kv (hash : ptr) (key val : option cstring) : code ptr :=
  match hash with
  | None => ret None
  | Some _ =>
      do! k := kvtree_get hash key in
      match k with
      | None => ret None
      | Some _ =>
          do! v := kvtree_get k val in
          match v with
          | None => ret None
          | Some _ => ret v
          end
      end
  end.

Definition kvtree_get_kv_int (hash : ptr) (key : option cstring) (val : Z) : code ptr :=
  let tmp := fmt_signed val in
  kvtree_get_kv hash key (Some tmp).

Definition kvtree_unset_kv (hash : ptr) (key val : option cstring) : code Z :=
  match hash with
  | None => ret KVTREE_SUCCESS
  | Some _ =>
      do! v := kvtree_get hash key in
      do! rc := kvtree_unset v val in
      do! size := kvtree_size v in
      if size =? 0 then kvtree_unset hash key else ret rc
  end.

Definition kvtree_unset_kv_int (hash : ptr) (key : option cstring) (val : Z) : code Z :=
  let tmp := fmt_signed val in
  kvtree_unset_kv hash key (Some tmp).

(** ** Reading the single value of a key *)
Definition kvtree_elem_get_first_val (hash : ptr) (key : option cstring) : code ptr :=
  do! h := kvtree_get hash key in
  match h with
  | Some _ =>
      do! e := kvtree_elem_first h in
      match e with
      | Some _ => kvtree_elem_key e
      | None => ret None
      end
  | None => ret None
  end.

Definition kvtree_get_val (hash : ptr) (key : option cstring) : code ptr :=
  do! key_hash := kvtree_get hash key in
  match key_hash with
  | Some _ =>
      do! size := kvtree_size key_hash in
      if size =? 1 then
        do! first := kvtree_elem_first key_hash in
        kvtree_elem_key first
      else ret None
  | None => ret None
  end.
End allocate.
