(* ===== verification/HeapSpec.v ===== *)
(** What the functions of Heap do to the tree they work on.

    [tree t p]: the blocks of the kvtree [t], whose list head is at [p], and no
    others.  The triples show that every function leaves the tree that its
    counterpart of Kvtree computes, frees exactly what is taken out of it, and
    returns the pointer that belongs to the result. *)

From iris.proofmode Require Import proofmode.
From S2P Require Import Prelude CLib SepLogic Memory Heap Kvtree KvtreeSpec.

(** ** Representation *)
Section segments.
Variable tree : kvtree -> loc -> hProp.

Definition child_with (h : option kvtree) (p : ptr) : hProp :=
  match h, p with
  | Some t, Some l => tree t l
  | None, None => emp
  | _, _ => False
  end%I.

(** [x] at [e], with its key at [kp]. *)
Definition element_at (e : loc) (kp : ptr) (prev : slot) (next : ptr) (x : kvtree_elem) : hProp :=
  (∃ hp, e ↦ Element (Fields (Some kp) (Some hp) (Some next) (Some prev)) ∗
         string kp (key x) ∗ child_with (hash x) hp)%I.

Definition element (e : loc) (prev : slot) (next : ptr) (x : kvtree_elem) : hProp :=
  (∃ kp, element_at e kp prev next x)%I.

(** The elements [l], from the one that [cur] points to, which the variable at
    [prev] holds, up to the pointer [cur'] in the variable at [prev']. *)
Fixpoint seg (l : list kvtree_elem) (prev : slot) (cur : ptr) (prev' : slot) (cur' : ptr) : hProp :=
  match l with
  | [] => <affine> ⌜prev' = prev /\ cur' = cur⌝
  | x :: l =>
      ∃ e next, <affine> ⌜cur = Some e⌝ ∗ element e prev next x ∗ seg l (ElemNext e) next prev' cur'
  end%I.
End segments.

Fixpoint tree (t : kvtree) (p : loc) : hProp :=
  match t with
  | KVTree l => ∃ first last, p ↦ Head (Some first) ∗ seg tree l (HeadFirst p) first last None
  end%I.

Notation child_at := (child_with tree).

(** The start of the list at [p] up to the variable at [prev], which points to
    [cur], and the rest of a list. *)
Definition prefix (p : loc) (l : list kvtree_elem) (prev : slot) (cur : ptr) : hProp :=
  (∃ first, p ↦ Head (Some first) ∗ seg tree l (HeadFirst p) first prev cur)%I.

Definition suffix (l : list kvtree_elem) (prev : slot) (cur : ptr) : hProp :=
  (∃ last, seg tree l prev cur last None)%I.

(** The list [pre ++ x :: post] at [p], with the element [x] at [e]. *)
Definition at_elem (p : loc) (pre : list kvtree_elem) (e : loc) (x : kvtree_elem)
    (post : list kvtree_elem) : hProp :=
  (∃ prev next, prefix p pre prev (Some e) ∗ element tree e prev next x ∗
                suffix post (ElemNext e) next)%I.

Lemma seg_app l1 l2 prev cur prev' cur' :
  seg tree (l1 ++ l2) prev cur prev' cur' ⊣⊢
  ∃ pm cm, seg tree l1 prev cur pm cm ∗ seg tree l2 pm cm prev' cur'.
Proof.
  revert prev cur. induction l1 as [|x l1 IH]; intros prev cur; cbn [app seg].
  - iSplit.
    + iIntros "H". iExists prev, cur. by iFrame.
    + iIntros "(%pm & %cm & %E & H)". by destruct E as [-> ->].
  - setoid_rewrite IH. iSplit.
    + iIntros "(%e & %next & -> & He & %pm & %cm & H1 & H2)". iExists pm, cm. by iFrame.
    + iIntros "(%pm & %cm & (%e & %next & -> & He & H1) & H2)". iExists e, next. iFrame. done.
Qed.

Lemma tree_prefix l p : tree (KVTree l) p ⊣⊢ ∃ prev, prefix p l prev None.
Proof.
  cbn [tree]. unfold prefix. iSplit.
  - iIntros "(%first & %last & Hp & H)". iExists last, first. iFrame.
  - iIntros "(%prev & %first & Hp & H)". iExists first, prev. iFrame.
Qed.

Lemma prefix_app p l1 l2 prev cur :
  prefix p (l1 ++ l2) prev cur ⊣⊢ ∃ pm cm, prefix p l1 pm cm ∗ seg tree l2 pm cm prev cur.
Proof.
  unfold prefix. setoid_rewrite seg_app. iSplit.
  - iIntros "(%first & Hp & %pm & %cm & H1 & H2)". iExists pm, cm. iFrame.
  - iIntros "(%pm & %cm & (%first & Hp & H1) & H2)". iExists first. iFrame.
Qed.

Lemma tree_split l1 l2 p :
  tree (KVTree (l1 ++ l2)) p ⊣⊢ ∃ prev cur, prefix p l1 prev cur ∗ suffix l2 prev cur.
Proof.
  rewrite tree_prefix. setoid_rewrite prefix_app. unfold suffix. iSplit.
  - iIntros "(%prev & %pm & %cm & H1 & H2)". iExists pm, cm. iFrame.
  - iIntros "(%pm & %cm & H1 & %prev & H2)". iExists prev, pm, cm. iFrame.
Qed.

Lemma tree_at_elem pre x post p :
  tree (KVTree (pre ++ x :: post)) p ⊣⊢ ∃ e, at_elem p pre e x post.
Proof.
  rewrite tree_split. unfold at_elem, suffix. cbn [seg]. iSplit.
  - iIntros "(%prev & %cur & H1 & %last & %e & %next & -> & He & H2)". iExists e, prev, next. iFrame.
  - iIntros "(%e & %prev & %next & H1 & He & %last & H2)". iExists prev, (Some e). by iFrame.
Qed.

(** *** The same with the addresses of the elements *)
Record node := Node { n_addr : loc; n_key : ptr; n_elem : kvtree_elem }.

Fixpoint nodes (l : list node) (prev : slot) (cur : ptr) (prev' : slot) (cur' : ptr) : hProp :=
  match l with
  | [] => <affine> ⌜prev' = prev /\ cur' = cur⌝
  | n :: l =>
      ∃ next, <affine> ⌜cur = Some (n_addr n)⌝ ∗ element_at tree (n_addr n) (n_key n) prev next (n_elem n) ∗
              nodes l (ElemNext (n_addr n)) next prev' cur'
  end%I.

Definition prefix_at (p : loc) (l : list node) (prev : slot) (cur : ptr) : hProp :=
  (∃ first, p ↦ Head (Some first) ∗ nodes l (HeadFirst p) first prev cur)%I.

Definition suffix_at (l : list node) (prev : slot) (cur : ptr) : hProp :=
  (∃ last, nodes l prev cur last None)%I.

Definition list_at (p : loc) (l : list node) : hProp := (∃ prev, prefix_at p l prev None)%I.

Lemma seg_nodes l prev cur prev' cur' :
  seg tree l prev cur prev' cur' ⊣⊢ ∃ nl : list node, <affine> ⌜map n_elem nl = l⌝ ∗ nodes nl prev cur prev' cur'.
Proof.
  revert prev cur. induction l as [|x l IH]; intros prev cur; cbn [seg].
  - iSplit; [iIntros "%E"; iExists []; by iSplit|]. iIntros "(%nl & %E & H)".
    destruct nl; [iExact "H"|done].
  - setoid_rewrite IH. iSplit.
    + iIntros "(%e & %next & -> & (%kp & He) & %nl & <- & H)". iExists (Node e kp x :: nl). iSplitR; [done|].
      iExists next. by iFrame.
    + iIntros "(%nl & %E & H)". destruct nl as [|[e kp y] nl]; [done|]. injection E as -> <-.
      iDestruct "H" as "(%next & -> & He & H)". iExists e, next. iFrame. done.
Qed.

Lemma prefix_nodes p l prev cur :
  prefix p l prev cur ⊣⊢ ∃ nl : list node, <affine> ⌜map n_elem nl = l⌝ ∗ prefix_at p nl prev cur.
Proof.
  unfold prefix, prefix_at. setoid_rewrite seg_nodes. iSplit.
  - iIntros "(%first & Hp & %nl & E & H)". iExists nl. iFrame.
  - iIntros "(%nl & E & %first & Hp & H)". iExists first. iFrame.
Qed.

Lemma suffix_nodes l prev cur :
  suffix l prev cur ⊣⊢ ∃ nl : list node, <affine> ⌜map n_elem nl = l⌝ ∗ suffix_at nl prev cur.
Proof.
  unfold suffix, suffix_at. setoid_rewrite seg_nodes. iSplit.
  - iIntros "(%last & %nl & E & H)". iExists nl. iFrame.
  - iIntros "(%nl & E & %last & H)". iExists last, nl. iFrame.
Qed.

Lemma tree_nodes l p :
  tree (KVTree l) p ⊣⊢ ∃ nl : list node, <affine> ⌜map n_elem nl = l⌝ ∗ list_at p nl.
Proof.
  rewrite tree_prefix. unfold list_at. setoid_rewrite prefix_nodes. iSplit.
  - iIntros "(%prev & %nl & E & H)". iExists nl. iFrame.
  - iIntros "(%nl & E & %prev & H)". iExists prev, nl. iFrame.
Qed.

Lemma nodes_app l1 l2 prev cur prev' cur' :
  nodes (l1 ++ l2) prev cur prev' cur' ⊣⊢
  ∃ pm cm, nodes l1 prev cur pm cm ∗ nodes l2 pm cm prev' cur'.
Proof.
  revert prev cur. induction l1 as [|n l1 IH]; intros prev cur; cbn [app nodes].
  - iSplit.
    + iIntros "H". iExists prev, cur. by iFrame.
    + iIntros "(%pm & %cm & %E & H)". by destruct E as [-> ->].
  - setoid_rewrite IH. iSplit.
    + iIntros "(%next & -> & He & %pm & %cm & H1 & H2)". iExists pm, cm. by iFrame.
    + iIntros "(%pm & %cm & (%next & -> & He & H1) & H2)". iExists next. iFrame. done.
Qed.

Lemma list_at_app p l1 l2 :
  list_at p (l1 ++ l2) ⊣⊢ ∃ prev cur, prefix_at p l1 prev cur ∗ suffix_at l2 prev cur.
Proof.
  unfold list_at, prefix_at, suffix_at. setoid_rewrite nodes_app. iSplit.
  - iIntros "(%prev & %first & Hp & %pm & %cm & H1 & H2)". iExists pm, cm. iFrame.
  - iIntros "(%pm & %cm & (%first & Hp & H1) & %last & H2)". iExists last, first. iFrame.
Qed.

(** ** The list macros *)
Ltac wp_field H := iApply (wp_get_field with H); [done|]; iIntros H.
Ltac wp_store H := iApply (wp_set_field with H); iIntros H; cbn [set_key set_hash set_next set_prev f_key f_hash f_next f_prev].

Lemma wp_set_slot p l prev cur cur' (Q : unit -> hProp) :
  prefix_at p l prev cur -∗ (prefix_at p l prev cur' -∗ Q tt) -∗ wp (set_slot prev cur') Q.
Proof.
  iIntros "(%first & Hp & Hl) HQ". destruct l as [|n l _] using rev_ind.
  - iDestruct "Hl" as "%E". destruct E as [-> ->]. cbn [set_slot].
    iApply (wp_set_first with "Hp"). iIntros "Hp". iApply "HQ". iExists cur'. by iFrame.
  - rewrite nodes_app. cbn [nodes].
    iDestruct "Hl" as "(%pm & %cm & Hl & %next & -> & (%hp & He & Hx) & %E)".
    destruct E as [-> ->]. cbn [set_slot]. wp_store "He". iApply "HQ".
    iExists first. iFrame "Hp". rewrite nodes_app. iExists pm, (Some (n_addr n)). by iFrame.
Qed.

Lemma wp_set_prev_next l prev prev' cur (Q : unit -> hProp) :
  suffix_at l prev cur -∗ (suffix_at l prev' cur -∗ Q tt) -∗
  wp (match cur with Some n => set_field (set_prev prev') n | None => ret tt end) Q.
Proof.
  iIntros "Hs HQ". destruct l as [|n l]; iDestruct "Hs" as "(%last & Hs)"; cbn [nodes].
  - iDestruct "Hs" as "%E". destruct E as [_ <-]. iApply wp_ret. iApply "HQ".
    by iExists prev'.
  - iDestruct "Hs" as "(%next & -> & (%hp & He & Hx) & Hs)". wp_store "He".
    iApply "HQ". iExists last, next. by iFrame.
Qed.

Lemma wp_unlink_at p pre prev e kp x next post (Q : unit -> hProp) :
  prefix_at p pre prev (Some e) -∗ element_at tree e kp prev next x -∗ suffix_at post (ElemNext e) next -∗
  (element_at tree e kp prev next x -∗ prefix_at p pre prev next -∗ suffix_at post prev next -∗ Q tt) -∗
  wp (LIST_REMOVE e) Q.
Proof.
  iIntros "Hp (%hp & He & Hx) Hs HQ". unfold LIST_REMOVE.
  wp_seq. wp_field "He". wp_seq.
  iAssert (∀ Q', (e ↦ _ -∗ suffix_at post prev next -∗ Q' tt) -∗
     wp match next with
        | Some n => do! prev := get_field f_prev e in set_field (Memory.set_prev prev) n
        | None => ret tt
        end Q')%I with "[He Hs]" as "Hprev".
  { iIntros (Q') "HQ".
    iPoseProof (wp_set_prev_next _ _ prev with "Hs") as "Hn". destruct next as [n|].
    - wp_seq. wp_field "He". iApply "Hn". iIntros "Hs". iApply ("HQ" with "He Hs").
    - iApply "Hn". iIntros "Hs". iApply ("HQ" with "He Hs"). }
  iApply "Hprev". iIntros "He Hs". wp_seq. wp_field "He". wp_seq. wp_field "He".
  iApply (wp_set_slot with "Hp"). iIntros "Hp". iApply ("HQ" with "[He Hx] Hp Hs").
  iExists hp. by iFrame.
Qed.

Lemma wp_remove_at p pre e kp x post (Q : unit -> hProp) :
  list_at p (pre ++ Node e kp x :: post) -∗
  (∀ prev next, element_at tree e kp prev next x -∗ list_at p (pre ++ post) -∗ Q tt) -∗
  wp (LIST_REMOVE e) Q.
Proof.
  iIntros "Hl HQ". rewrite list_at_app. iDestruct "Hl" as "(%prev & %cur & Hp & %last & Hl)". cbn [nodes n_addr n_key n_elem].
  iDestruct "Hl" as "(%next & -> & He & Hs)".
  iApply (wp_unlink_at with "Hp He [Hs]"); [by iExists last|]. iIntros "He Hp Hs".
  iApply ("HQ" with "He"). rewrite list_at_app. iExists prev, next. iFrame.
Qed.

Lemma wp_list_unlink p pre prev e x next post (Q : unit -> hProp) :
  prefix p pre prev (Some e) -∗ element tree e prev next x -∗ suffix post (ElemNext e) next -∗
  (element tree e prev next x -∗ prefix p pre prev next -∗ suffix post prev next -∗ Q tt) -∗
  wp (LIST_REMOVE e) Q.
Proof.
  rewrite !prefix_nodes !suffix_nodes. iIntros "(%np & E & Hp) (%kp & He) (%ns & E' & Hs) HQ".
  iApply (wp_unlink_at with "Hp He Hs"). iIntros "He Hp Hs".
  iApply ("HQ" with "[He] [E Hp] [E' Hs]"); [by iExists kp|iExists np|iExists ns]; iFrame.
Qed.

Lemma wp_list_remove p pre e x post (Q : unit -> hProp) :
  at_elem p pre e x post -∗
  (∀ prev next, element tree e prev next x -∗ tree (KVTree (pre ++ post)) p -∗ Q tt) -∗
  wp (LIST_REMOVE e) Q.
Proof.
  iIntros "(%prev & %next & Hp & He & Hs) HQ". iApply (wp_list_unlink with "Hp He Hs").
  iIntros "He Hp Hs". iApply ("HQ" with "He"). rewrite tree_split. iExists prev, next. iFrame.
Qed.

(** The element that is inserted does not need its links. *)
Definition unlinked (e : loc) (x : kvtree_elem) (hp : ptr) : hProp :=
  (∃ kp n pr, e ↦ Element (Fields (Some kp) (Some hp) n pr) ∗ string kp (key x) ∗
              child_at (hash x) hp)%I.

Lemma wp_insert_head_at p l e x hp (Q : unit -> hProp) :
  unlinked e x hp -∗ list_at p l -∗ (∀ kp, list_at p (Node e kp x :: l) -∗ Q tt) -∗
  wp (LIST_INSERT_HEAD p e) Q.
Proof.
  iIntros "(%kp & %n & %pr & He & Hx) Ht HQ". unfold LIST_INSERT_HEAD.
  iDestruct "Ht" as "(%last & %first & Hp & Hl)". wp_seq.
  iApply (wp_get_first with "Hp"). iIntros "Hp". wp_seq. wp_store "He". wp_seq.
  iApply (wp_set_prev_next l (HeadFirst p) with "[Hl]"); [by iExists last|]. iIntros "(%last' & Hl)".
  wp_seq. iApply (wp_set_first with "Hp"). iIntros "Hp". wp_store "He". iApply "HQ".
  iExists last', (Some e). iFrame "Hp". iExists first. by iFrame.
Qed.

Lemma wp_list_insert_head t p e x hp (Q : unit -> hProp) :
  unlinked e x hp -∗ tree t p -∗
  (at_elem p [] e x (Kvtree.lh_first t) -∗ Q tt) -∗
  wp (LIST_INSERT_HEAD p e) Q.
Proof.
  destruct t as [l]. rewrite tree_nodes. iIntros "He (%nl & <- & Hl) HQ".
  iApply (wp_insert_head_at with "He Hl"). iIntros (kp) "(%last & %first & Hp & %next & -> & He & Hl)".
  iApply "HQ". iExists (HeadFirst p), next. iSplitL "Hp"; [|iSplitL "He"; [by iExists kp|]].
  - iExists (Some e). by iFrame.
  - rewrite suffix_nodes. iExists nl. iSplitR; [done|]. by iExists last.
Qed.

Lemma element_unlinked e prev next x : element tree e prev next x ⊢ ∃ hp, unlinked e x hp.
Proof. iIntros "(%kp & %hp & He & Hx)". iExists hp, kp. iFrame. Qed.

(** ** The number of blocks of a tree *)
Section weights.
Variable weight : kvtree -> nat.
Definition child_weight_with (h : option kvtree) : nat :=
  match h with Some t => weight t | None => 0 end.
Fixpoint elems_weight_with (l : list kvtree_elem) : nat :=
  match l with
  | [] => 0
  | x :: l => S (child_weight_with (hash x) + elems_weight_with l)
  end.
End weights.

Fixpoint weight (t : kvtree) : nat :=
  match t with KVTree l => S (elems_weight_with weight l) end.

Notation child_weight := (child_weight_with weight).
Notation elems_weight := (elems_weight_with weight).

Lemma child_blocks h p :
  match h with Some t => forall p, tree t p ⊢ blocks (weight t) | None => True end ->
  child_at h p ⊢ blocks (child_weight h).
Proof.
  intros Hh. destruct h as [t|], p as [p|]; cbn; [apply Hh|iIntros "[]"|iIntros "[]"|apply blocks_none].
Qed.

Lemma element_blocks e prev next x :
  (forall p, child_at (hash x) p ⊢ blocks (child_weight (hash x))) ->
  element tree e prev next x ⊢ blocks (1 + child_weight (hash x)).
Proof.
  intros Hx. unfold element. apply blocks_exist. intros kp. apply blocks_exist. intros hp.
  apply blocks_sep; [apply blocks_points_to|].
  apply (blocks_sep _ _ 0); [apply blocks_none|apply Hx].
Qed.

Lemma seg_blocks l prev cur prev' cur' :
  Forall (fun x => forall p, child_at (hash x) p ⊢ blocks (child_weight (hash x))) l ->
  seg tree l prev cur prev' cur' ⊢ blocks (elems_weight l).
Proof.
  intros Hl. revert prev cur. induction Hl as [|x l Hx Hl IH]; intros prev cur; cbn; [apply blocks_none|].
  apply blocks_exist. intros e. apply blocks_exist. intros next. apply blocks_pure. intros _.
  apply (blocks_sep _ _ (1 + child_weight (hash x))); [by apply element_blocks|apply IH].
Qed.

Lemma tree_blocks t p : tree t p ⊢ blocks (weight t).
Proof.
  revert p. induction t as [l Hl] using kvtree_rect'. intros p. cbn.
  apply blocks_exist. intros first. apply blocks_exist. intros last.
  apply (blocks_sep _ _ 1); [apply blocks_points_to|]. apply seg_blocks.
  exact (List.Forall_impl _ (fun x Hx p => child_blocks (hash x) p Hx) Hl).
Qed.

Lemma child_at_blocks h p : child_at h p ⊢ blocks (child_weight h).
Proof. apply child_blocks. destruct h; [|done]. apply tree_blocks. Qed.

Lemma suffix_blocks l prev cur : suffix l prev cur ⊢ blocks (elems_weight l).
Proof.
  apply blocks_exist. intros last. apply seg_blocks, Forall_true. intros x p. apply child_at_blocks.
Qed.

Lemma elems_weight_length l : (length l <= elems_weight l)%nat.
Proof. induction l; cbn; lia. Qed.

(** A loop over the elements of a list. *)
Lemma wp_suffix_fuel {A} l prev cur (f : nat -> code A) P Q :
  (forall n, (length l < n)%nat -> ⊢ suffix l prev cur -∗ P -∗ wp (f n) Q) ->
  suffix l prev cur -∗ P -∗ wp (with_fuel f) Q.
Proof.
  intros Hf. apply (wp_fuel_frame _ _ _ _ (elems_weight l)); [apply suffix_blocks|].
  intros n Hn. iApply Hf. pose proof (elems_weight_length l). lia.
Qed.

(** ** Freeing *)
Lemma wp_kvtree_free p s (Q : ptr -> hProp) : string p s -∗ Q None -∗ wp (kvtree_free p) Q.
Proof.
  iIntros "Hs HQ". unfold kvtree_free. wp_seq. iApply (wp_free_string with "Hs"). by iApply wp_ret.
Qed.

Lemma wp_kvtree_free_block l b (Q : ptr -> hProp) :
  l ↦ b -∗ Q None -∗ wp (kvtree_free (Some l)) Q.
Proof.
  iIntros "Hl HQ". unfold kvtree_free. wp_seq. iApply (wp_free with "Hl"). by iApply wp_ret.
Qed.

(** What [kvtree_delete] does to a hash of fewer than [n] blocks. *)
Definition deletes (n : nat) (delete : ptr -> code ptr) : Prop :=
  forall h hp Q, (child_weight h < n)%nat -> child_at h hp -∗ Q None -∗ wp (delete hp) Q.

Lemma wp_elem_delete_with n delete e x hp (Q : Z -> hProp) :
  deletes n delete -> (child_weight (hash x) < n)%nat ->
  unlinked e x hp -∗ Q KVTREE_SUCCESS -∗ wp (elem_delete_with delete (Some e)) Q.
Proof.
  iIntros (Hd Hn) "(%kp & %nx & %pr & He & Hk & Hx) HQ". cbn [elem_delete_with].
  wp_seq. wp_field "He". wp_seq. iApply (wp_kvtree_free with "Hk"). wp_seq. wp_store "He".
  wp_seq. wp_field "He". wp_seq. iApply (Hd with "Hx"); [done|]. wp_seq. wp_store "He".
  wp_seq. wp_store "He". wp_seq. iApply (wp_kvtree_free_block with "He"). by iApply wp_ret.
Qed.

Lemma wp_delete_loop n delete m l p (Q : unit -> hProp) :
  deletes n delete -> (elems_weight l <= n)%nat -> (elems_weight l < m)%nat ->
  tree (KVTree l) p -∗ (p ↦ Head (Some None) -∗ Q tt) -∗ wp (delete_loop delete m p) Q.
Proof.
  intros Hd. revert l. induction m as [|m IH]; intros l Hn Hm; [lia|]. iIntros "Ht HQ".
  cbn [delete_loop]. wp_seq. unfold LIST_EMPTY, LIST_FIRST. wp_seq. destruct l as [|x l].
  - iDestruct "Ht" as "(%first & %last & Hp & %E)". destruct E as [_ <-].
    iApply (wp_get_first with "Hp"). iIntros "Hp". iApply wp_ret. iApply wp_ret. by iApply "HQ".
  - rewrite (tree_at_elem []). cbn in Hn, Hm.
    iDestruct "Ht" as "(%e & %prev & %next & (%first & Hp & %E) & He & Hs)". destruct E as [-> <-].
    iApply (wp_get_first with "Hp"). iIntros "Hp". iApply wp_ret. wp_seq.
    iApply (wp_get_first with "Hp"). iIntros "Hp". wp_seq. iApply wp_deref. wp_seq.
    iApply (wp_list_remove p [] e x l with "[Hp He Hs]").
    { iExists (HeadFirst p), next. by iFrame. }
    iIntros (prev' next') "He Ht". wp_seq. rewrite element_unlinked.
    iDestruct "He" as "(%hp & He)".
    iApply (wp_elem_delete_with with "He"); [done|lia|]. cbn [app]. iApply (IH with "Ht HQ"); lia.
Qed.

Lemma delete_tree_deletes n : deletes n (delete_tree n).
Proof.
  induction n as [|n IH]; intros h hp Q Hn; [lia|]. iIntros "Hh HQ". cbn [delete_tree].
  destruct h as [[l]|], hp as [p|]; cbn [child_with]; try done.
  - cbn in Hn. wp_seq. iApply (wp_delete_loop n with "Hh"); [done|lia..|]. iIntros "Hp".
    by iApply (wp_kvtree_free_block with "Hp").
  - by iApply wp_ret.
Qed.

Lemma wp_kvtree_delete h hp (Q : ptr -> hProp) :
  child_at h hp -∗ Q None -∗ wp (kvtree_delete hp) Q.
Proof.
  apply (wp_fuel_frame _ _ _ _ (child_weight h)); [apply child_at_blocks|].
  intros n Hn. iIntros "Hh HQ". by iApply (delete_tree_deletes n with "Hh").
Qed.

Lemma wp_kvtree_elem_delete e x hp (Q : Z -> hProp) :
  unlinked e x hp -∗ Q KVTREE_SUCCESS -∗ wp (kvtree_elem_delete (Some e)) Q.
Proof.
  apply (wp_elem_delete_with (S (child_weight (hash x)))); [|lia]. intros h hp' Q' _. apply wp_kvtree_delete.
Qed.

(** ** Lookup *)
Lemma prefix_snoc p pre prev e next x :
  prefix p pre prev (Some e) -∗ element tree e prev next x -∗
  prefix p (pre ++ [x]) (ElemNext e) next.
Proof.
  iIntros "Hp He". rewrite prefix_app. iExists prev, (Some e). cbn [seg]. by iFrame.
Qed.

Lemma suffix_cons l prev cur x :
  suffix (x :: l) prev cur ⊢
  ∃ e next, <affine> ⌜cur = Some e⌝ ∗ element tree e prev next x ∗ suffix l (ElemNext e) next.
Proof.
  iIntros "(%last & %e & %next & -> & He & Hs)". iExists e, next. by iFrame.
Qed.

Lemma suffix_nil prev cur : suffix [] prev cur ⊢ <affine> ⌜cur = None⌝.
Proof. iIntros "(%last & %E)". by destruct E as [_ <-]. Qed.

Lemma prefix_tree p l prev : prefix p l prev None ⊢ tree (KVTree l) p.
Proof. rewrite tree_prefix. iIntros "H". by iExists prev. Qed.

(** The list from its head on. *)
Definition at_head (p : loc) (cur : ptr) : hProp := (p ↦ Head (Some cur))%I.

Lemma tree_first t p :
  tree t p ⊣⊢ ∃ cur, at_head p cur ∗ suffix (Kvtree.lh_first t) (HeadFirst p) cur.
Proof.
  destruct t as [l]. cbn. unfold at_head, suffix. iSplit.
  - iIntros "(%first & %last & Hp & Hl)". iExists first. iFrame.
  - iIntros "(%cur & Hp & %last & Hl)". iExists cur, last. iFrame.
Qed.

Lemma at_head_prefix p prev cur : prefix p [] prev cur ⊣⊢ <affine> ⌜prev = HeadFirst p⌝ ∗ at_head p cur.
Proof.
  unfold prefix, at_head. cbn. iSplit.
  - iIntros "(%first & Hp & %E)". destruct E as [-> ->]. by iFrame.
  - iIntros "[-> Hp]". iExists cur. by iFrame.
Qed.

Lemma wp_first p cur (Q : ptr -> hProp) :
  at_head p cur -∗ (at_head p cur -∗ Q cur) -∗ wp (LIST_FIRST p) Q.
Proof. iIntros "Hp HQ". by iApply (wp_get_first with "Hp"). Qed.

(** An element whose key has been read. *)
Lemma wp_elem_key {A} e prev next x (k : option cstring -> code A) (Q : A -> hProp) :
  element tree e prev next x -∗ (element tree e prev next x -∗ wp (k (key x)) Q) -∗
  wp (do! p := get_field f_key e in do! s := get_string p in k s) Q.
Proof.
  iIntros "(%kp & %hp & He & Hk & Hx) HQ". wp_seq. wp_field "He". wp_seq.
  iApply (wp_get_string with "Hk"). iIntros "Hk". iApply "HQ". iExists kp, hp. iFrame.
Qed.

Lemma wp_elem_next e prev next x (Q : ptr -> hProp) :
  element tree e prev next x -∗ (element tree e prev next x -∗ Q next) -∗ wp (LIST_NEXT e) Q.
Proof.
  iIntros "(%kp & %hp & He & Hx) HQ". unfold LIST_NEXT. wp_field "He". iApply "HQ".
  iExists kp, hp. iFrame.
Qed.
