(* ===== verification/HeapOps.v ===== *)
(** The operations on a kvtree in memory: what each of them does to the tree, and
    the pointer it returns.

    [pointer t p path r]: the tree [t] at [p], seen from the pointer [r] that a
    function of Kvtree describes as [path]: the hash at the end of the path is a
    tree of its own, which may be replaced. *)

From iris.proofmode Require Import proofmode.
From S2P Require Import Prelude CLib SepLogic Memory Heap Kvtree KvtreeSpec HeapSpec.

Notation hash_at := (child_with tree).

(** ** Lookup *)
Lemma wp_elem_get_loop n p pre l prev cur k (Q : ptr -> hProp) :
  (length l < n)%nat ->
  prefix p pre prev cur -∗ suffix l prev cur -∗
  match elem_get_loop k l with
  | [] => tree (KVTree (pre ++ l)) p -∗ Q None
  | x :: post =>
      ∀ e pre', ⌜pre ++ l = pre' ++ x :: post⌝ → at_elem p pre' e x post -∗ Q (Some e)
  end -∗
  wp (Heap.elem_get_loop n k cur) Q.
Proof.
  revert pre l prev cur. induction n as [|n IH]; intros pre l prev cur Hn; [lia|].
  iIntros "Hp Hs HQ". cbn [Heap.elem_get_loop]. destruct l as [|x l].
  - rewrite suffix_nil. iDestruct "Hs" as "->". rewrite app_nil_r. iApply wp_ret.
    iApply "HQ". by iApply prefix_tree.
  - rewrite suffix_cons. iDestruct "Hs" as "(%e & %next & -> & He & Hs)".
    iApply (wp_elem_key with "He"). iIntros "He". cbn [elem_get_loop]. unfold elem_matches.
    destruct (match key x with Some k' => strcmp k' k =? 0 | None => false end).
    + iApply wp_ret. iApply ("HQ" $! e pre with "[//]"). iExists prev, next. by iFrame.
    + wp_seq. iApply (wp_elem_next with "He"). iIntros "He".
      iPoseProof (prefix_snoc with "Hp He") as "Hp". cbn in Hn.
      iApply (IH with "Hp Hs"); [lia|]. by rewrite -app_assoc.
Qed.

(** What [kvtree_elem_get] has found. *)
Definition found (t : kvtree) (p : loc) (key : option cstring) (r : ptr) : hProp :=
  match kvtree_elem_get (Some t) key with
  | [] => <affine> ⌜r = None⌝ ∗ tree t p
  | x :: post =>
      ∃ e pre, <affine> ⌜r = Some e /\ lh_first t = pre ++ x :: post⌝ ∗ at_elem p pre e x post
  end%I.

Lemma wp_kvtree_elem_get t p key (Q : ptr -> hProp) :
  tree t p -∗ (∀ r, found t p key r -∗ Q r) -∗ wp (Heap.kvtree_elem_get (Some p) key) Q.
Proof.
  iIntros "Ht HQ". destruct key as [k|]; cbn [Heap.kvtree_elem_get].
  - rewrite tree_first. iDestruct "Ht" as "(%cur & Hp & Hs)". wp_seq.
    iApply (wp_first with "Hp"). iIntros "Hp". iCombine "Hp HQ" as "H".
    iApply (wp_suffix_fuel with "Hs H"). intros n Hn. iIntros "Hs [Hp HQ]".
    iApply (wp_elem_get_loop n p [] with "[Hp] Hs"); [done|by rewrite at_head_prefix; iFrame|].
    unfold found. cbn [kvtree_elem_get app]. destruct (elem_get_loop k (lh_first t)) as [|x post].
    + destruct t. iIntros "Ht". iApply "HQ". by iFrame.
    + iIntros (e pre E) "He". iApply "HQ". iExists e, pre. by iFrame.
  - iApply wp_ret. iApply "HQ". unfold found. cbn. by iFrame.
Qed.

(** [kvtree_elem_extract]: the element is taken out of the list. *)
Definition extracted (t : kvtree) (p : loc) (key : option cstring) (r : ptr) : hProp :=
  match kvtree_elem_extract (Some t) key with
  | (Some t', Some x) => ∃ e hp, <affine> ⌜r = Some e⌝ ∗ unlinked e x hp ∗ tree t' p
  | (Some t', None) => <affine> ⌜r = None⌝ ∗ tree t' p
  | _ => False
  end%I.

Lemma wp_kvtree_elem_extract t p key (Q : ptr -> hProp) :
  tree t p -∗ (∀ r, extracted t p key r -∗ Q r) -∗ wp (Heap.kvtree_elem_extract (Some p) key) Q.
Proof.
  iIntros "Ht HQ". unfold Heap.kvtree_elem_extract. wp_seq. iApply (wp_kvtree_elem_get with "Ht").
  iIntros (r) "Hr". wp_seq. unfold found, extracted, kvtree_elem_extract.
  destruct (kvtree_elem_get (Some t) key) as [|x post]; cbn [fmap option_fmap option_map].
  - iDestruct "Hr" as "[-> Ht]". iApply wp_ret. iApply wp_ret. iApply "HQ". by iFrame.
  - iDestruct "Hr" as "(%e & %pre & %E & He)". destruct E as [-> E].
    iApply (wp_list_remove with "He"). iIntros (prev next) "He Ht". rewrite element_unlinked.
    iDestruct "He" as "(%hp & He)". iApply wp_ret. iApply "HQ". iExists e, hp.
    destruct t as [l]. cbn [lh_first] in E. subst l. rewrite list_remove_app. by iFrame.
Qed.

(** ** Pointers into a tree *)
Definition focus (t : kvtree) (p : loc) (path : list cstring) (q : loc) : hProp :=
  (∃ c, <affine> ⌜kvtree_deref t path = Some c⌝ ∗ tree c q ∗
        ∀ c', tree c' q -∗ tree (kvtree_store t path c') p)%I.

Definition pointer (t : kvtree) (p : loc) (path : tree_ptr) (r : ptr) : hProp :=
  match path, r with
  | Some path, Some q => focus t p path q
  | None, None => tree t p
  | _, _ => False
  end%I.

(** The tree itself, when the pointer is not needed any more. *)
Lemma store_same t k c : kvtree_get (Some t) (Some k) = Some c -> kvtree_store t [k] c = t.
Proof.
  intros Hg. cbn. rewrite Hg. destruct t as [l]. cbn. f_equal. revert Hg. unfold kvtree_get. cbn.
  induction l as [|x l IH]; cbn; [done|]. destruct (elem_matches k x); intros Hg.
  - f_equal. destruct x. cbn in *. congruence.
  - by rewrite IH.
Qed.

Lemma store_deref t path c : kvtree_deref t path = Some c -> kvtree_store t path c = t.
Proof.
  revert t. induction path as [|k path IH]; intros t; cbn; [by intros [= ->]|].
  destruct (kvtree_get (Some t) (Some k)) as [d|] eqn:Eg; [|done]. intros Hd. rewrite IH; [|done].
  pose proof (store_same t k d Eg) as E. cbn in E. by rewrite Eg in E.
Qed.

Lemma pointer_tree t p path r : pointer t p path r ⊢ tree t p.
Proof.
  destruct path as [path|], r as [q|]; cbn [pointer]; [|by iIntros "[]"..|done].
  iIntros "(%c & %Hd & Hc & Hback)". iSpecialize ("Hback" with "Hc"). by rewrite store_deref.
Qed.

(** The hash of an element may be replaced by any other. *)
Lemma wp_at_elem_hash p pre e x post (Q : ptr -> hProp) :
  at_elem p pre e x post -∗
  (∀ hp, hash_at (hash x) hp -∗
         (∀ h, hash_at h hp -∗ tree (KVTree (pre ++ Elem (key x) h :: post)) p) -∗ Q hp) -∗
  wp (get_field f_hash e) Q.
Proof.
  iIntros "(%prev & %next & Hp & (%kp & %hp & He & Hk & Hx) & Hs) HQ". wp_field "He".
  iApply ("HQ" with "Hx"). iIntros (h) "Hx". rewrite tree_at_elem. iExists e, prev, next. iFrame.
Qed.

Lemma elems_store_split k c pre x post :
  elem_get_loop k (pre ++ x :: post) = x :: post ->
  elems_store k c (pre ++ x :: post) = pre ++ Elem (key x) (Some c) :: post.
Proof.
  induction pre as [|y pre IH]; cbn; destruct (elem_matches k _) eqn:Em; intros E.
  - done.
  - apply (f_equal length) in E. exfalso. clear -E Em. revert E.
    assert (length (elem_get_loop k post) <= length post)%nat; [|cbn; lia].
    clear. induction post as [|y post IH]; cbn; [done|]. destruct (elem_matches k y); cbn; lia.
  - apply (f_equal length) in E. cbn in E. rewrite length_app in E. cbn in E. lia.
  - by rewrite IH.
Qed.

Lemma get_key t key c : kvtree_get (Some t) key = Some c -> exists k, key = Some k.
Proof. destruct key; [by eexists|done]. Qed.

Lemma wp_kvtree_get t p key (Q : ptr -> hProp) :
  tree t p -∗ (∀ r, pointer t p (get_ptr (Some t) key) r -∗ Q r) -∗
  wp (Heap.kvtree_get (Some p) key) Q.
Proof.
  iIntros "Ht HQ". unfold Heap.kvtree_get. wp_seq. iApply (wp_kvtree_elem_get with "Ht").
  iIntros (r) "Hr". unfold found, get_ptr, kvtree_get.
  destruct key as [k|]; cycle 1; [|cbn [kvtree_elem_get]; destruct (elem_get_loop k (lh_first t)) as [|x post] eqn:Eg].
  - iDestruct "Hr" as "[-> Ht]". iApply wp_ret. by iApply "HQ".
  - iDestruct "Hr" as "[-> Ht]". iApply wp_ret. by iApply "HQ".
  - iDestruct "Hr" as "(%e & %pre & %E & He)". destruct E as [-> E].
    iApply (wp_at_elem_hash with "He"). iIntros (hp) "Hx Hback". iApply "HQ".
    assert (kvtree_get (Some t) (Some k) = hash x) as Eget.
    { unfold kvtree_get. cbn. by rewrite Eg. }
    destruct (hash x) as [c|] eqn:Ex, hp as [q|]; cbn [child_with pointer]; try done.
    + iExists c. cbn [kvtree_deref]. rewrite Eget. iSplitR; [done|]. iFrame "Hx".
      iIntros (c') "Hc". cbn [kvtree_store]. rewrite Eget E. rewrite E in Eg.
      rewrite elems_store_split; [|done]. by iApply ("Hback" $! (Some c') with "Hc").
    + iSpecialize ("Hback" $! None with "Hx"). rewrite -Ex. destruct t as [l], x. cbn in *. by subst.
Qed.

Lemma wp_kvtree_get_null key (Q : ptr -> hProp) : Q None ⊢ wp (Heap.kvtree_get None key) Q.
Proof. iIntros "HQ". unfold Heap.kvtree_get. wp_seq. iApply wp_ret. by iApply wp_ret. Qed.

(** ** Set *)
Lemma get_matches k l x post : elem_get_loop k l = x :: post -> elem_matches k x = true.
Proof.
  induction l as [|y l IH]; cbn; [done|]. destruct (elem_matches k y) eqn:Ey; [|done].
  by intros [= -> _].
Qed.

Lemma wp_insert t p e x hp k (Q : ptr -> hProp) :
  elem_matches k x = true ->
  unlinked e x hp -∗ tree t p -∗
  (∀ r, pointer (list_insert_head t x) p (match hash x with Some _ => Some [k] | None => None end) r -∗ Q r) -∗
  wp (do! _ := LIST_INSERT_HEAD p e in get_field f_hash e) Q.
Proof.
  iIntros (Hk) "He Ht HQ". wp_seq. iApply (wp_list_insert_head with "He Ht"). iIntros "He".
  iApply (wp_at_elem_hash with "He"). iIntros (hp') "Hx Hback". iApply "HQ".
  assert (kvtree_get (Some (list_insert_head t x)) (Some k) = hash x) as Eget.
  { unfold kvtree_get. cbn. by rewrite Hk. }
  destruct (hash x) as [c|] eqn:Ex, hp' as [q|]; cbn [child_with pointer]; try done.
  - iExists c. cbn [kvtree_deref]. rewrite Eget. iSplitR; [done|]. iFrame "Hx".
    iIntros (c') "Hc". cbn [kvtree_store]. rewrite Eget. cbn [list_insert_head lh_first elems_store].
    rewrite Hk. by iApply ("Hback" $! (Some c') with "Hc").
  - iSpecialize ("Hback" $! None with "Hx"). rewrite -Ex. by destruct x.
Qed.

(** A function that changes the tree and returns a pointer into it. *)
Definition returns (res : option kvtree * tree_ptr) (p : loc) (r : ptr) : hProp :=
  match res with
  | (Some t, path) => pointer t p path r
  | (None, _) => False
  end%I.

Section allocate.
Context {alloc : Allocator}.

Lemma wp_kvtree_elem_new (Q : loc -> hProp) :
  (∀ e, e ↦ Element (Fields (Some None) (Some None) None None) -∗ Q e) -∗ wp Heap.kvtree_elem_new Q.
Proof.
  iIntros "HQ". unfold Heap.kvtree_elem_new. wp_seq. iApply wp_malloc. iIntros (e) "He".
  wp_seq. wp_store "He". wp_seq. wp_store "He". iApply wp_ret. by iApply "HQ".
Qed.

Lemma wp_kvtree_new (Q : loc -> hProp) :
  (∀ p, tree kvtree_new p -∗ Q p) -∗ wp Heap.kvtree_new Q.
Proof.
  iIntros "HQ". unfold Heap.kvtree_new. wp_seq. iApply wp_malloc. iIntros (p) "Hp".
  wp_seq. iApply (wp_set_first with "Hp"). iIntros "Hp". iApply wp_ret. iApply "HQ".
  iExists None, (HeadFirst p). by iFrame.
Qed.

Lemma wp_kvtree_elem_init e f k h hp (Q : ptr -> hProp) :
  e ↦ Element f -∗ hash_at h hp -∗
  (unlinked e (Elem (Some (strdup k)) h) hp -∗ Q (Some e)) -∗
  wp (Heap.kvtree_elem_init (Some e) (Some k) hp) Q.
Proof.
  iIntros "He Hh HQ". destruct f as [fk fh fn fp]. cbn [Heap.kvtree_elem_init]. wp_seq. wp_seq.
  iApply wp_malloc. iIntros (s) "Hs". wp_store "He". wp_seq. wp_store "He". iApply wp_ret.
  iApply "HQ". iExists (Some s). by iFrame.
Qed.

Lemma wp_kvtree_set t p k h hp (Q : ptr -> hProp) :
  hash_at h hp -∗ tree t p -∗
  (∀ r, returns (kvtree_set (Some t) (Some k) h) p r -∗ Q r) -∗
  wp (Heap.kvtree_set (Some p) (Some k) hp) Q.
Proof.
  iIntros "Hh Ht HQ". cbn [Heap.kvtree_set]. wp_seq.
  iApply (wp_kvtree_elem_extract with "Ht"). iIntros (r) "Hr". wp_seq.
  unfold extracted, kvtree_set, kvtree_elem_extract. cbn [kvtree_elem_get].
  destruct (elem_get_loop k (lh_first t)) as [|x post] eqn:Eg; cbn [fmap option_fmap option_map].
  - iDestruct "Hr" as "[-> Ht]". wp_seq. iApply wp_kvtree_elem_new. iIntros (e) "He". wp_seq.
    iApply (wp_kvtree_elem_init with "He Hh"). iIntros "He". iApply wp_ret.
    iApply (wp_insert _ _ _ _ _ k with "He Ht").
    + unfold elem_matches. cbn. rewrite strcmp_eq0. apply bool_decide_eq_true, c_str_idem.
    + done.
  - iDestruct "Hr" as "(%e & %old & -> & (%kp & %n & %pr & He & Hk & Hold) & Ht)".
    apply get_matches in Eg. wp_seq. wp_field "He". wp_seq.
    iAssert (∀ Q', (∀ o, e ↦ Element (Fields (Some kp) o n pr) -∗ Q' tt) -∗
      wp match old with
         | Some _ => do! old := kvtree_delete old in set_field (set_hash old) e
         | None => ret tt
         end Q')%I with "[He Hold]" as "Hdel".
    { iIntros (Q') "HQ". destruct old as [o|].
      - wp_seq. iApply (wp_kvtree_delete with "Hold"). wp_store "He". by iApply "HQ".
      - destruct (hash x); cbn [child_with]; [done|]. iApply wp_ret. by iApply "HQ". }
    iApply "Hdel". iIntros (o) "He". wp_seq. wp_store "He". iApply wp_ret. destruct x as [k0 h0].
    iApply (wp_insert _ _ _ (Elem k0 h) hp k with "[He Hk Hh] Ht"); [done| |done].
    iExists kp, n, pr. iFrame.
Qed.

(** Without a hash or a key nothing is set. *)
Lemma wp_kvtree_set_null hash key hp (Q : ptr -> hProp) :
  hash = None \/ key = None -> Q None ⊢ wp (Heap.kvtree_set hash key hp) Q.
Proof. intros [-> | ->]; [|destruct hash]; apply wp_ret. Qed.

(** ** Extract and unset *)
Lemma wp_kvtree_extract t p key (Q : ptr -> hProp) :
  tree t p -∗
  (∀ r, match kvtree_extract (Some t) key with
        | (Some t', h) => tree t' p ∗ hash_at h r
        | _ => False
        end -∗ Q r) -∗
  wp (Heap.kvtree_extract (Some p) key) Q.
Proof.
  iIntros "Ht HQ". cbn [Heap.kvtree_extract]. wp_seq. iApply (wp_kvtree_elem_extract with "Ht").
  iIntros (r) "Hr". unfold extracted, kvtree_extract.
  destruct (kvtree_elem_extract (Some t) key) as [[t'|] [x|]]; try done.
  - iDestruct "Hr" as "(%e & %hp & -> & (%kp & %n & %pr & He & Hk & Hx) & Ht)".
    wp_seq. wp_field "He". wp_seq. wp_store "He". wp_seq.
    iApply (wp_kvtree_elem_delete e (Elem (Kvtree.key x) None) None with "[He Hk]").
    { iExists kp, n, pr. by iFrame. }
    iApply wp_ret. iApply "HQ". iFrame.
  - iDestruct "Hr" as "[-> Ht]". iApply wp_ret. iApply "HQ". by iFrame.
Qed.

Lemma wp_kvtree_unset t p key (Q : Z -> hProp) :
  tree t p -∗
  (match kvtree_unset (Some t) key with (Some t', r) => tree t' p -∗ Q r | _ => True end) -∗
  wp (Heap.kvtree_unset (Some p) key) Q.
Proof.
  iIntros "Ht HQ". cbn [Heap.kvtree_unset]. wp_seq. iApply (wp_kvtree_elem_extract with "Ht").
  iIntros (r) "Hr". wp_seq. unfold extracted, kvtree_unset.
  destruct (kvtree_elem_extract (Some t) key) as [[t'|] [x|]]; try done.
  - iDestruct "Hr" as "(%e & %hp & -> & He & Ht)". iApply (wp_kvtree_elem_delete with "He").
    iApply wp_ret. by iApply "HQ".
  - iDestruct "Hr" as "[-> Ht]". iApply wp_ret. iApply wp_ret. by iApply "HQ".
Qed.

(** [kvtree_unset_all]: [cur] is the first element that is left. *)
Lemma wp_unset_all_loop n p l cur (Q : Z -> hProp) :
  (length l < n)%nat ->
  at_head p cur -∗ suffix l (HeadFirst p) cur -∗ (tree kvtree_new p -∗ Q KVTREE_SUCCESS) -∗
  wp (Heap.unset_all_loop n (Some p) cur) Q.
Proof.
  revert l cur. induction n as [|n IH]; intros l cur Hn; [lia|]. iIntros "Hp Hs HQ".
  cbn [Heap.unset_all_loop]. destruct l as [|x l].
  - rewrite suffix_nil. iDestruct "Hs" as "->". iApply wp_ret. iApply "HQ".
    iExists None, (HeadFirst p). by iFrame.
  - rewrite suffix_cons. iDestruct "Hs" as "(%e & %next & -> & He & Hs)".
    wp_seq. iApply (wp_elem_next with "He"). iIntros "He". wp_seq. wp_seq. iApply wp_deref. wp_seq.
    iApply (wp_list_unlink p [] with "[Hp] He Hs"); [by rewrite at_head_prefix; iFrame|].
    rewrite at_head_prefix element_unlinked. iIntros "(%hp & He) [_ Hp] Hs". iApply wp_ret.
    wp_seq. iApply (wp_kvtree_elem_delete with "He"). iApply (IH with "Hp Hs HQ"). cbn in Hn. lia.
Qed.

Lemma wp_kvtree_unset_all t p (Q : Z -> hProp) :
  tree t p -∗ (tree kvtree_new p -∗ Q KVTREE_SUCCESS) -∗ wp (Heap.kvtree_unset_all (Some p)) Q.
Proof.
  iIntros "Ht HQ". unfold Heap.kvtree_unset_all. rewrite tree_first.
  iDestruct "Ht" as "(%cur & Hp & Hs)". wp_seq. iApply (wp_first with "Hp"). iIntros "Hp".
  iCombine "Hp HQ" as "H". iApply (wp_suffix_fuel with "Hs H"). intros n Hn. iIntros "Hs [Hp HQ]".
  by iApply (wp_unset_all_loop with "Hp Hs").
Qed.

(** ** Size *)
Lemma wp_size_loop n l prev cur c (Q : Z -> hProp) :
  (length l < n)%nat ->
  suffix l prev cur -∗ (suffix l prev cur -∗ Q (size_loop l c)) -∗ wp (Heap.size_loop n cur c) Q.
Proof.
  revert l prev cur c Q. induction n as [|n IH]; intros l prev cur c Q Hn; [lia|]. iIntros "Hs HQ".
  cbn [Heap.size_loop]. destruct l as [|x l].
  - iDestruct "Hs" as "(%last & %E)". destruct E as [-> <-]. iApply wp_ret. iApply "HQ". by iExists prev.
  - rewrite {1}suffix_cons. iDestruct "Hs" as "(%e & %next & -> & He & Hs)".
    wp_seq. iApply (wp_elem_next with "He"). iIntros "He". cbn in Hn.
    iApply (IH with "Hs"); [lia|]. iIntros "(%last & Hs)". iApply "HQ". iExists last, e, next.
    by iFrame.
Qed.

Lemma wp_kvtree_size t p (Q : Z -> hProp) :
  tree t p -∗ (tree t p -∗ Q (kvtree_size (Some t))) -∗ wp (Heap.kvtree_size (Some p)) Q.
Proof.
  iIntros "Ht HQ". cbn [Heap.kvtree_size]. rewrite {1}tree_first.
  iDestruct "Ht" as "(%cur & Hp & Hs)". wp_seq. iApply (wp_first with "Hp"). iIntros "Hp".
  iCombine "Hp HQ" as "H". iApply (wp_suffix_fuel with "Hs H"). intros n Hn. iIntros "Hs [Hp HQ]".
  iApply (wp_size_loop with "Hs"); [done|]. iIntros "Hs". iApply "HQ". rewrite tree_first.
  iExists cur. iFrame.
Qed.

(** ** Looking a key up and inserting an empty hash when it is missing *)
Lemma kvtree_set_some t k c :
  exists t', kvtree_set (Some t) (Some k) (Some c) = (Some t', Some [k]).
Proof.
  unfold kvtree_set, kvtree_elem_extract.
  destruct (kvtree_elem_get (Some t) (Some k)) as [|[k' h] post]; cbn; by eexists.
Qed.

Lemma get_or_new_some t k : exists t', get_or_new (Some t) (Some k) = (Some t', Some [k]).
Proof.
  unfold get_or_new, get_ptr. destruct (kvtree_get (Some t) (Some k)); [by eexists|].
  apply kvtree_set_some.
Qed.

Lemma wp_get_or_new {A} t p k (next : ptr -> code A) (Q : A -> hProp) :
  tree t p -∗
  (∀ t' q, ⌜get_or_new (Some t) (Some k) = (Some t', Some [k])⌝ → focus t' p [k] q -∗
           wp (next (Some q)) Q) -∗
  wp (do! r := Heap.kvtree_get (Some p) (Some k) in
      do! r := match r with
               | None => do! new := Heap.kvtree_new in Heap.kvtree_set (Some p) (Some k) (Some new)
               | Some _ => ret r
               end in
      next r) Q.
Proof.
  destruct (get_or_new_some t k) as [t' E]. iIntros "Ht HQ". wp_seq.
  iApply (wp_kvtree_get with "Ht"). iIntros (r) "Hr". wp_seq. revert E.
  unfold get_or_new, get_ptr. destruct (kvtree_get (Some t) (Some k)) as [c|], r as [q|]; cbn [pointer]; try done; intros E.
  - injection E as <-. iApply wp_ret. by iApply ("HQ" with "[//] Hr").
  - wp_seq. iApply wp_kvtree_new. iIntros (new) "Hn".
    iApply (wp_kvtree_set _ _ _ (Some kvtree_new) (Some new) with "Hn Hr"). rewrite E. iIntros (r) "Hr".
    cbn [returns pointer]. destruct r as [q|]; [|done]. by iApply ("HQ" with "[//] Hr").
Qed.

(** ** Merge *)
Definition keys_ok_opt (h : option kvtree) : bool :=
  match h with Some t => keys_ok t | None => true end.

Lemma keys_ok_first x l :
  keys_ok (KVTree (x :: l)) = true ->
  (exists k, key x = Some k) /\ keys_ok_opt (hash x) = true /\ keys_ok (KVTree l) = true.
Proof.
  cbn [keys_ok forallb]. intros [Hx Hl]%andb_prop. destruct x as [[k|] [c|]]; cbn in *; naive_solver.
Qed.

(** What [kvtree_merge] does with a second hash of fewer than [n] blocks. *)
Definition merges (n : nat) (merge : ptr -> ptr -> code Z) : Prop :=
  forall t1 p1 h2 hp2 t1' rc Q,
    (child_weight_with weight h2 < n)%nat -> keys_ok_opt h2 = true ->
    kvtree_merge (Some t1) h2 = (Some t1', rc) ->
    tree t1 p1 -∗ hash_at h2 hp2 -∗ (tree t1' p1 -∗ hash_at h2 hp2 -∗ Q rc) -∗
    wp (merge (Some p1) hp2) Q.

Lemma wp_merge_loop n merge m p1 t1 l prev cur rc t1' rc' (Q : Z -> hProp) :
  merges n merge -> (elems_weight_with weight l <= n)%nat -> (length l < m)%nat ->
  keys_ok (KVTree l) = true -> merge_loop l (Some t1) rc = (Some t1', rc') ->
  tree t1 p1 -∗ suffix l prev cur -∗ (tree t1' p1 -∗ suffix l prev cur -∗ Q rc') -∗
  wp (Heap.merge_loop merge m (Some p1) cur rc) Q.
Proof.
  intros Hmerge. revert t1 l prev cur rc Q. induction m as [|m IH]; intros t1 l prev cur rc Q Hn Hm Hk E; [lia|].
  iIntros "Ht Hs HQ". cbn [Heap.merge_loop]. destruct l as [|x l].
  - iDestruct "Hs" as "(%last & %E')". destruct E' as [-> <-]. cbn in E. injection E as -> ->.
    iApply wp_ret. iApply ("HQ" with "Ht"). by iExists prev.
  - apply keys_ok_first in Hk as ([k Ek] & Hx & Hk). cbn in Hn, Hm.
    rewrite {1}suffix_cons. iDestruct "Hs" as "(%e & %next & -> & He & Hs)".
    iApply (wp_elem_key with "He"). iIntros "He". rewrite Ek.
    iApply (wp_get_or_new with "Ht"). iIntros (t q Eg) "(%c & %Ec & Hc & Hback)". destruct x as [k' h2]. cbn in Ek. subst k'.
    iDestruct "He" as "(%kp & %hp & He & Hkey & Hx)". wp_seq. wp_field "He". wp_seq.
    cbn [merge_loop] in E. fold (get_or_new (Some t1) (Some k)) in E. rewrite Eg in E. cbn [at_ptr] in E. rewrite Ec in E.
    destruct (kvtree_merge_some c h2) as (c' & r & Em). rewrite Em in E.
    iApply (Hmerge with "Hc Hx"); [cbn in Hn |- *; lia|done|done|]. iIntros "Hc Hx". iSpecialize ("Hback" with "Hc").
    wp_seq. wp_field "He". iApply (IH with "Hback Hs"); [lia|lia|done|done|].
    iIntros "Ht (%last & Hs)". iApply ("HQ" with "Ht"). iExists last, e, next. iFrame. done.
Qed.

Lemma merge_tree_merges n : merges n (Heap.merge_tree n).
Proof.
  induction n as [|n IH]; intros t1 p1 h2 hp2 t1' rc Q Hn Hk E; [lia|]. iIntros "Ht Hh HQ".
  cbn [Heap.merge_tree]. destruct h2 as [[l]|], hp2 as [p2|]; cbn [child_with]; try done.
  - rewrite merge_loop_eq in E. change (S (elems_weight_with weight l) < S n)%nat in Hn.
    iDestruct (bi.equiv_entails_1_1 _ _ (tree_first _ _) with "Hh") as "(%cur & Hp & Hs)".
    cbn [lh_first]. wp_seq. iApply (wp_first with "Hp"). iIntros "Hp".
    pose proof (elems_weight_length l). iApply (wp_merge_loop with "Ht Hs"); [exact IH|lia|lia|done|done|].
    iIntros "Ht Hs". iApply ("HQ" with "Ht"). rewrite tree_first. iExists cur. iFrame.
  - cbn in E. injection E as -> ->. iApply wp_ret. by iApply ("HQ" with "Ht").
Qed.

Lemma wp_kvtree_merge t1 p1 h2 hp2 t1' rc (Q : Z -> hProp) :
  keys_ok_opt h2 = true -> kvtree_merge (Some t1) h2 = (Some t1', rc) ->
  tree t1 p1 -∗ hash_at h2 hp2 -∗ (tree t1' p1 -∗ hash_at h2 hp2 -∗ Q rc) -∗
  wp (Heap.kvtree_merge (Some p1) hp2) Q.
Proof.
  iIntros (Hk E) "Ht Hh HQ". iCombine "Ht HQ" as "H". unfold Heap.kvtree_merge.
  iApply (wp_fuel_frame _ _ _ _ (child_weight_with weight h2) with "Hh H"); [apply child_at_blocks|].
  intros n Hn. iIntros "Hh [Ht HQ]". by iApply (merge_tree_merges n with "Ht Hh").
Qed.

(** ** Pointers through pointers *)
Lemma get_loop_store k c l x post :
  elem_get_loop k l = x :: post ->
  elem_get_loop k (elems_store k c l) = Elem (Kvtree.key x) (Some c) :: post.
Proof.
  induction l as [|y l IH]; cbn; [done|]. destruct (elem_matches k y) eqn:Ey; cbn; [|by rewrite Ey].
  intros [= -> ->]. unfold elem_matches in *. cbn. by rewrite Ey.
Qed.

Lemma elems_store_store k c c' l : elems_store k c' (elems_store k c l) = elems_store k c' l.
Proof.
  induction l as [|y l IH]; cbn; [done|]. destruct (elem_matches k y) eqn:Ey; cbn.
  - unfold elem_matches in *. cbn. by rewrite Ey.
  - by rewrite Ey IH.
Qed.

Lemma get_store t k c c' :
  kvtree_get (Some t) (Some k) = Some c ->
  kvtree_get (Some (KVTree (elems_store k c' (lh_first t)))) (Some k) = Some c'.
Proof.
  unfold kvtree_get. cbn. destruct (elem_get_loop k (lh_first t)) as [|x post] eqn:E; [done|].
  by rewrite (get_loop_store _ _ _ _ _ E).
Qed.

Lemma store_below t k c c' path v :
  kvtree_get (Some t) (Some k) = Some c ->
  kvtree_deref (kvtree_store t [k] c') (k :: path) = kvtree_deref c' path /\
  kvtree_store (kvtree_store t [k] c') (k :: path) v = kvtree_store t [k] (kvtree_store c' path v).
Proof.
  intros Hg. cbn. rewrite Hg. cbn. pose proof (get_store t k c c' Hg) as Hg'. cbn in Hg'.
  by rewrite Hg' elems_store_store.
Qed.

Lemma focus_below t p k c c' q path r :
  kvtree_get (Some t) (Some k) = Some c ->
  focus c' q path r -∗ (∀ c, tree c q -∗ tree (kvtree_store t [k] c) p) -∗
  focus (kvtree_store t [k] c') p (k :: path) r.
Proof.
  iIntros (Hg) "(%d & %Hd & Hr & Hin) Hout".
  iExists d. rewrite (proj1 (store_below t k c c' path d Hg)). iSplitR; [done|]. iFrame "Hr".
  iIntros (v) "Hv". rewrite (proj2 (store_below t k c c' path v Hg)). iApply "Hout". by iApply "Hin".
Qed.

(** ** Key/value shortcuts *)
Lemma wp_kvtree_set_kv t p k v (Q : ptr -> hProp) :
  tree t p -∗ (∀ r, returns (kvtree_set_kv (Some t) (Some k) (Some v)) p r -∗ Q r) -∗
  wp (Heap.kvtree_set_kv (Some p) (Some k) (Some v)) Q.
Proof.
  iIntros "Ht HQ". cbn [Heap.kvtree_set_kv]. iApply (wp_get_or_new with "Ht").
  iIntros (t' q Eg) "(%c & %Hd & Hc & Hout)". iApply (wp_get_or_new with "Hc").
  iIntros (c' q' Eg') "Hf". iApply wp_ret. iApply "HQ".
  unfold kvtree_set_kv. fold (get_or_new (Some t) (Some k)). rewrite Eg. cbn [at_ptr].
  rewrite Hd. change (match kvtree_get (Some c) (Some v) with Some _ => _ | None => _ end)
    with (get_or_new (Some c) (Some v)). rewrite Eg'. cbn [returns ptr_app app pointer].
  iApply (focus_below with "Hf Hout"). cbn [kvtree_deref] in Hd. by destruct (kvtree_get (Some t') (Some k)).
Qed.

Lemma wp_kvtree_unset_null key (Q : Z -> hProp) : Q KVTREE_SUCCESS ⊢ wp (Heap.kvtree_unset None key) Q.
Proof. apply wp_ret. Qed.

Lemma kvtree_unset_some t key : exists t', kvtree_unset (Some t) key = (Some t', KVTREE_SUCCESS).
Proof.
  unfold kvtree_unset, kvtree_elem_extract. destruct (kvtree_elem_get (Some t) key); cbn; by eexists.
Qed.

Lemma wp_kvtree_unset_some t p key t' rc (Q : Z -> hProp) :
  kvtree_unset (Some t) key = (Some t', rc) ->
  tree t p -∗ (tree t' p -∗ Q rc) -∗ wp (Heap.kvtree_unset (Some p) key) Q.
Proof. iIntros (E) "Ht HQ". iApply (wp_kvtree_unset with "Ht"). by rewrite E. Qed.

Lemma wp_kvtree_unset_kv t p key val t' rc (Q : Z -> hProp) :
  kvtree_unset_kv (Some t) key val = (Some t', rc) ->
  tree t p -∗ (tree t' p -∗ Q rc) -∗ wp (Heap.kvtree_unset_kv (Some p) key val) Q.
Proof.
  iIntros (E) "Ht HQ". cbn [Heap.kvtree_unset_kv]. wp_seq. iApply (wp_kvtree_get with "Ht").
  iIntros (r) "Hr". unfold kvtree_unset_kv in E. wp_seq.
  destruct (get_ptr (Some t) key) as [path|] eqn:Eg, r as [q|]; cbn [pointer]; try done.
  - iDestruct "Hr" as "(%c & %Hd & Hc & Hback)". cbn [at_ptr] in E. rewrite Hd in E.
    destruct (kvtree_unset_some c val) as [c' Ec]. rewrite Ec in E.
    iApply (wp_kvtree_unset_some with "Hc"); [done|]. iIntros "Hc". wp_seq.
    iApply (wp_kvtree_size with "Hc"). iIntros "Hc". iSpecialize ("Hback" with "Hc").
    destruct (kvtree_size (Some c') =? 0).
    + by iApply (wp_kvtree_unset_some with "Hback").
    + injection E as -> ->. iApply wp_ret. by iApply "HQ".
  - iApply wp_ret. wp_seq. iApply wp_ret. cbn in E.
    by iApply (wp_kvtree_unset_some with "Hr").
Qed.
End allocate.


(** ** Reading *)
Lemma focus_same t p k c q path r :
  kvtree_get (Some t) (Some k) = Some c ->
  focus c q path r -∗ (∀ c, tree c q -∗ tree (kvtree_store t [k] c) p) -∗ focus t p (k :: path) r.
Proof.
  iIntros (Hg) "Hr Hout". iPoseProof (focus_below with "Hr Hout") as "Hf"; [done|].
  by rewrite store_same.
Qed.

(** What a path of one key leads to. *)
Lemma focus_get t p k q :
  focus t p [k] q ⊢
  ∃ c, <affine> ⌜kvtree_get (Some t) (Some k) = Some c⌝ ∗ tree c q ∗
       ∀ c', tree c' q -∗ tree (kvtree_store t [k] c') p.
Proof.
  iIntros "(%c & %Hd & H)". iExists c. iFrame. iPureIntro. cbn in Hd.
  by destruct (kvtree_get (Some t) (Some k)).
Qed.

Lemma wp_kvtree_get_kv t p k v (Q : ptr -> hProp) :
  tree t p -∗
  (∀ r, pointer t p (ptr_app (get_ptr (Some t) (Some k)) (get_ptr (kvtree_get (Some t) (Some k)) (Some v))) r -∗ Q r) -∗
  wp (Heap.kvtree_get_kv (Some p) (Some k) (Some v)) Q.
Proof.
  iIntros "Ht HQ". cbn [Heap.kvtree_get_kv]. wp_seq. iApply (wp_kvtree_get with "Ht").
  iIntros (r) "Hr". unfold get_ptr. destruct (kvtree_get (Some t) (Some k)) as [c|] eqn:Eg, r as [q|];
    cbn [pointer ptr_app]; try done; [|by iApply wp_ret; iApply "HQ"].
  rewrite focus_get Eg. iDestruct "Hr" as "(%c' & %E & Hc & Hout)". injection E as <-.
  wp_seq. iApply (wp_kvtree_get with "Hc"). iIntros (r) "Hr". unfold get_ptr.
  destruct (kvtree_get (Some c) (Some v)) as [d|] eqn:Ev, r as [q'|]; cbn [pointer ptr_app app]; try done;
    iApply wp_ret; iApply "HQ".
  - by iApply (focus_same with "Hr Hout").
  - iSpecialize ("Hout" with "Hr"). by rewrite store_same.
Qed.

(** The key of the first element, where it stands in the tree. *)
Definition key_in (t : kvtree) (p : loc) (s : option cstring) (r : ptr) : hProp :=
  (string r s ∗ (string r s -∗ tree t p))%I.

Lemma wp_first_key t p (k : ptr -> code ptr) (Q : ptr -> hProp) :
  (forall e, k e = Heap.kvtree_elem_key e) ->
  tree t p -∗
  (∀ r, key_in t p (kvtree_elem_key (kvtree_elem_first (Some t))) r -∗ Q r) -∗
  wp (do! e := Heap.kvtree_elem_first (Some p) in k e) Q.
Proof.
  iIntros (Hkey) "Ht HQ". wp_seq. destruct t as [[|x l]]; cbn [kvtree_elem_first kvtree_elem_key lh_first].
  - rewrite tree_first. iDestruct "Ht" as "(%cur & Hp & Hs)". iApply (wp_first with "Hp"). iIntros "Hp".
    iPoseProof (suffix_nil with "Hs") as "->". rewrite Hkey. iApply wp_ret. iApply "HQ". iSplitR; [done|].
    iIntros "_". iExists None, (HeadFirst p). by iFrame.
  - rewrite (tree_at_elem []). iDestruct "Ht" as "(%e & %prev & %next & Hp & (%kp & %hp & He & Hk & Hx) & Hs)".
    rewrite at_head_prefix. iDestruct "Hp" as "[-> Hp]". iApply (wp_first with "Hp"). iIntros "Hp".
    rewrite Hkey. wp_field "He". iApply "HQ". iFrame "Hk". iIntros "Hk". rewrite (tree_at_elem []).
    iExists e, (HeadFirst p), next. rewrite at_head_prefix. by iFrame.
Qed.

Lemma wp_kvtree_get_val t p k (Q : ptr -> hProp) :
  tree t p -∗ (∀ r, key_in t p (kvtree_get_val (Some t) (Some k)) r -∗ Q r) -∗
  wp (Heap.kvtree_get_val (Some p) (Some k)) Q.
Proof.
  iIntros "Ht HQ". unfold Heap.kvtree_get_val, kvtree_get_val. wp_seq.
  iApply (wp_kvtree_get with "Ht"). iIntros (r) "Hr". unfold get_ptr.
  destruct (kvtree_get (Some t) (Some k)) as [c|] eqn:Eg, r as [q|]; cbn [pointer]; try done.
  - rewrite focus_get Eg. iDestruct "Hr" as "(%c' & %E & Hc & Hout)". injection E as <-.
    wp_seq. iApply (wp_kvtree_size with "Hc"). iIntros "Hc". destruct (kvtree_size (Some c) =? 1).
    + iApply (wp_first_key with "Hc"); [done|]. iIntros (r) "[Hs Hc]". iApply "HQ". iFrame "Hs". iIntros "Hs".
      iSpecialize ("Hc" with "Hs"). iSpecialize ("Hout" with "Hc"). by rewrite store_same.
    + iApply wp_ret. iApply "HQ". iSplitR; [done|]. iIntros "_". iSpecialize ("Hout" with "Hc").
      by rewrite store_same.
  - iApply wp_ret. iApply "HQ". iSplitR; [done|]. by iIntros "_".
Qed.
