(* ===== verification/HeapPack.v ===== *)
(** Packing and unpacking on memory: [kvtree_pack_size], [kvtree_pack] and
    [kvtree_unpack] of [src/src/kvtree.c] work on the blocks of a tree and on a buffer,
    which is a block too.  A [char*] into the buffer is the block with an offset.

    Each function does what its counterpart of Pack does with the tree and the bytes of the
    buffer; packing leaves the tree as it is, and unpacking allocates the blocks of the new
    elements and nothing else. *)

From iris.proofmode Require Import proofmode.
From S2P Require Import Prelude CLib ByteOrder SepLogic Memory Heap Kvtree KvtreeSpec Pack HeapSpec HeapOps.

(** ** The functions *)
Section pack_size.
(** [kvtree_pack_size], for the hash of an element. *)
Variable pack_size : ptr -> code nat.

Definition elem_pack_size_with (elem : ptr) : code nat :=
  match elem with
  | Some e =>
      do! p := get_field f_key e in
      do! key := get_string p in
      let size := match key with Some k => (strlen k + 1)%nat | None => 1%nat end in
      do! hash := get_field f_hash e in
      do! n := pack_size hash in
      ret (size + n)%nat
  | None =>
      let size := 1%nat in
      do! n := pack_size None in
      ret (size + n)%nat
  end.

Fixpoint pack_size_loop (fuel : nat) (elem : ptr) (size : nat) : code nat :=
  match fuel with
  | O => no_fuel
  | S fuel =>
      match elem with
      | None => ret size
      | Some e =>
          do! n := elem_pack_size_with elem in
          do! next := LIST_NEXT e in
          pack_size_loop fuel next (size + n)%nat
      end
  end.
End pack_size.

Fixpoint tree_pack_size (fuel : nat) (hash : ptr) : code nat :=
  match fuel with
  | O => no_fuel
  | S fuel =>
      match hash with
      | Some h =>
          do! first := LIST_FIRST h in
          pack_size_loop (tree_pack_size fuel) fuel first 4
      | None => ret 4%nat
      end
  end.

Definition kvtree_pack_size (hash : ptr) : code nat :=
  with_fuel (fun fuel => tree_pack_size fuel hash).

Fixpoint count_loop (fuel : nat) (elem : ptr) (count : Z) : code Z :=
  match fuel with
  | O => no_fuel
  | S fuel =>
      match elem with
      | None => ret count
      | Some e =>
          do! next := LIST_NEXT e in
          count_loop fuel next (u32 (count + 1))
      end
  end.

Section pack.
Context `{Host}.

Section elements.
(** [kvtree_pack], for the hash of an element. *)
Variable pack : loc -> nat -> ptr -> code nat.

Definition elem_pack_with (buf : loc) (pos : nat) (elem : ptr) : code nat :=
  match elem with
  | Some e =>
      do! p := get_field f_key e in
      do! key := get_string p in
      do! size :=
        match key with
        | Some k => do! _ := copy_to buf pos (c_str k ++ [NUL]) in ret (strlen k + 1)%nat
        | None => do! _ := copy_to buf pos [NUL] in ret 1%nat
        end in
      do! hash := get_field f_hash e in
      do! n := pack buf (pos + size)%nat hash in
      ret (size + n)%nat
  | None =>
      do! _ := copy_to buf pos [NUL] in
      let size := 1%nat in
      do! n := pack buf (pos + size)%nat None in
      ret (size + n)%nat
  end.

Fixpoint pack_elems (fuel : nat) (buf : loc) (pos : nat) (elem : ptr) (size : nat) : code nat :=
  match fuel with
  | O => no_fuel
  | S fuel =>
      match elem with
      | None => ret size
      | Some e =>
          do! n := elem_pack_with buf (pos + size)%nat elem in
          do! next := LIST_NEXT e in
          pack_elems fuel buf pos next (size + n)%nat
      end
  end.
End elements.

Fixpoint tree_pack (fuel : nat) (buf : loc) (pos : nat) (hash : ptr) : code nat :=
  match fuel with
  | O => no_fuel
  | S fuel =>
      match hash with
      | Some h =>
          do! first := LIST_FIRST h in
          do! count := count_loop (S fuel) first 0 in
          do! _ := copy_to buf pos (pack_count count) in
          do! first := LIST_FIRST h in
          pack_elems (tree_pack fuel) fuel buf pos first 4
      | None =>
          do! _ := copy_to buf pos (pack_count 0) in
          ret 4%nat
      end
  end.

Definition kvtree_pack (buf : loc) (pos : nat) (hash : ptr) : code nat :=
  with_fuel (fun fuel => tree_pack fuel buf pos hash).

(** The fuel is that of Pack: every call takes a byte of the buffer at least. *)
Section unpack.
Context `{Allocator}.

Fixpoint tree_unpack (fuel : nat) (buf : loc) (pos : nat) (hash : loc) : code nat :=
  match fuel with
  | O => no_fuel
  | S fuel =>
      do! count := from_bytes buf (fun c => unpack_count c pos) in
      unpack_loop fuel buf pos count 0 4 hash
  end
with unpack_loop (fuel : nat) (buf : loc) (pos : nat) (count i : Z) (size : nat) (hash : loc)
    : code nat :=
  match fuel with
  | O => no_fuel
  | S fuel =>
      if u32 i <? count then
        do! elem := Heap.kvtree_elem_new in
        do! n := elem_unpack fuel buf (pos + size)%nat (Some elem) in
        do! _ := LIST_INSERT_HEAD hash elem in
        if i =? INT_MAX then undefined
        else unpack_loop fuel buf pos count (i + 1) (size + n)%nat hash
      else ret size
  end
with elem_unpack (fuel : nat) (buf : loc) (pos : nat) (elem : ptr) : code nat :=
  match fuel with
  | O => no_fuel
  | S fuel =>
      match elem with
      | None => ret 0%nat
      | Some _ =>
          do! key := from_bytes buf (fun c => mem_cstr c pos) in
          let size := (strlen key + 1)%nat in
          do! hash := Heap.kvtree_new in
          do! n := tree_unpack fuel buf (pos + size)%nat hash in
          do! _ := Heap.kvtree_elem_init elem (Some key) (Some hash) in
          ret (size + n)%nat
      end
  end.

Definition kvtree_unpack (buf : loc) (pos : nat) (hash : ptr) : code nat :=
  match hash with
  | None => ret 0%nat
  | Some h =>
      do! fuel := from_bytes buf (fun c => Ok (unpack_fuel c)) in
      tree_unpack fuel buf pos h
  end.
End unpack.
End pack.

(** ** The size *)
Notation child_weight := (child_weight_with weight).
Notation elems_weight := (elems_weight_with weight).

(** A loop over a list gives back each element as it was. *)
Lemma suffix_back e prev next x l :
  element tree e prev next x -∗ suffix l (ElemNext e) next -∗ suffix (x :: l) prev (Some e).
Proof. iIntros "He (%last & Hs)". iExists last, e, next. by iFrame. Qed.

Lemma suffix_none prev : ⊢ suffix [] prev None.
Proof. by iExists prev. Qed.

Definition sizes (n : nat) (pack_size : ptr -> code nat) : Prop :=
  forall h hp Q, (child_weight h < n)%nat ->
    child_at h hp -∗ (child_at h hp -∗ Q (Pack.kvtree_pack_size h)) -∗ wp (pack_size hp) Q.

Lemma wp_pack_size_loop n pack_size m l prev cur size (Q : nat -> hProp) :
  sizes n pack_size -> (elems_weight l <= n)%nat -> (length l < m)%nat ->
  suffix l prev cur -∗ (suffix l prev cur -∗ Q (Pack.pack_size_loop l size)) -∗
  wp (pack_size_loop pack_size m cur size) Q.
Proof.
  intros Hs. revert l prev cur size Q. induction m as [|m IH]; intros l prev cur size Q Hn Hm; [lia|].
  iIntros "Hs HQ". cbn [pack_size_loop]. destruct l as [|x l].
  - iDestruct (suffix_nil with "Hs") as "->". iApply wp_ret. iApply "HQ". iApply suffix_none.
  - cbn in Hn, Hm. rewrite {1}suffix_cons. iDestruct "Hs" as "(%e & %next & -> & He & Hs)".
    wp_seq. cbn [elem_pack_size_with]. iApply (wp_elem_key with "He"). iIntros "(%kp & %hp & He & Hk & Hx)".
    wp_seq. wp_field "He". wp_seq. iApply (Hs with "Hx"); [lia|]. iIntros "Hx". iApply wp_ret.
    wp_seq. unfold LIST_NEXT. wp_field "He". iApply (IH with "Hs"); [lia|lia|]. iIntros "Hs".
    assert (Pack.tree_elem_pack_size x
            = (match Kvtree.key x with Some k => strlen k + 1 | None => 1 end
               + Pack.kvtree_pack_size (hash x))%nat) as <- by (by destruct x as [? []]).
    iApply "HQ". iApply (suffix_back with "[He Hk Hx] Hs"). iExists kp, hp. iFrame.
Qed.

Lemma tree_pack_size_sizes n : sizes n (tree_pack_size n).
Proof.
  induction n as [|n IH]; intros h hp Q Hn; [lia|]. iIntros "Hh HQ". cbn [tree_pack_size].
  destruct h as [[l]|], hp as [p|]; cbn [child_with]; try done; [|by iApply wp_ret; iApply "HQ"].
  change (S (elems_weight l) < S n)%nat in Hn. rewrite {1}tree_first. iDestruct "Hh" as "(%cur & Hp & Hs)".
  wp_seq. iApply (wp_first with "Hp"). iIntros "Hp". cbn [lh_first].
  pose proof (elems_weight_length l). iApply (wp_pack_size_loop with "Hs"); [exact IH|lia|lia|].
  iIntros "Hs". iApply "HQ". rewrite tree_first. iExists cur. iFrame.
Qed.

Lemma wp_kvtree_pack_size h hp (Q : nat -> hProp) :
  child_at h hp -∗ (child_at h hp -∗ Q (Pack.kvtree_pack_size h)) -∗ wp (kvtree_pack_size hp) Q.
Proof.
  apply (wp_fuel_frame _ _ _ _ (child_weight h)); [apply child_at_blocks|].
  intros n Hn. iIntros "Hh HQ". by iApply (tree_pack_size_sizes n with "Hh").
Qed.

(** ** Packing *)
Section pack_triples.
Context `{Host}.

Lemma wp_count_loop n l prev cur c (Q : Z -> hProp) :
  (length l < n)%nat ->
  suffix l prev cur -∗ (suffix l prev cur -∗ Q (Pack.count_loop l c)) -∗ wp (count_loop n cur c) Q.
Proof.
  revert l prev cur c Q. induction n as [|n IH]; intros l prev cur c Q Hn; [lia|]. iIntros "Hs HQ".
  cbn [count_loop]. destruct l as [|x l].
  - iDestruct (suffix_nil with "Hs") as "->". iApply wp_ret. iApply "HQ". iApply suffix_none.
  - rewrite {1}suffix_cons. iDestruct "Hs" as "(%e & %next & -> & He & Hs)".
    wp_seq. iApply (wp_elem_next with "He"). iIntros "He". cbn in Hn.
    iApply (IH with "Hs"); [lia|]. iIntros "Hs". iApply "HQ". by iApply (suffix_back with "He").
Qed.

Definition packs (n : nat) (pack : loc -> nat -> ptr -> code nat) : Prop :=
  forall h hp buf c pos c' k Q, (child_weight h < n)%nat ->
    Pack.kvtree_pack c pos h = Ok (c', k) ->
    child_at h hp -∗ buf ↦ Bytes c -∗ (child_at h hp -∗ buf ↦ Bytes c' -∗ Q k) -∗
    wp (pack buf pos hp) Q.

Lemma wp_elem_pack_with n pack e prev next x buf c pos c' k (Q : nat -> hProp) :
  packs n pack -> (child_weight (hash x) < n)%nat -> Pack.tree_elem_pack c pos x = Ok (c', k) ->
  element tree e prev next x -∗ buf ↦ Bytes c -∗
  (element tree e prev next x -∗ buf ↦ Bytes c' -∗ Q k) -∗
  wp (elem_pack_with pack buf pos (Some e)) Q.
Proof.
  iIntros (Hp Hn E) "He Hb HQ". destruct x as [key h]. cbn [elem_pack_with hash] in *.
  assert (exists c1 size k1, (match key with
             | Some k => let* buf := mem_write c pos (c_str k ++ [NUL]) in Ok (buf, strlen k + 1)%nat
             | None => let* buf := mem_write c pos [NUL] in Ok (buf, 1)%nat
             end) = Ok (c1, size) /\
            Pack.kvtree_pack c1 (pos + size) h = Ok (c', k1) /\ k = (size + k1)%nat)
    as (c1 & size & k1 & Ek & Eh & ->).
  { cbn [Pack.tree_elem_pack] in E. apply obind_ok in E as ([c1 size] & Ek & E).
    apply obind_ok in E as ([c2 k1] & Eh & [= -> <-]). exists c1, size, k1.
    split_and!; [done| |done]. by destruct h. }
  iApply (wp_elem_key with "He"). iIntros "(%kp & %hp & He & Hk & Hx)". cbn [Kvtree.key].
  iAssert (∀ Q', (buf ↦ Bytes c1 -∗ Q' size) -∗
     wp match key with
        | Some k => do! _ := copy_to buf pos (c_str k ++ [NUL]) in ret (strlen k + 1)%nat
        | None => do! _ := copy_to buf pos [NUL] in ret 1%nat
        end Q')%I with "[Hb]" as "Hkey".
  { iIntros (Q') "HQ". destruct key as [key|]; apply obind_ok in Ek as (c2 & Ec & [= -> <-]);
      wp_seq; iApply (wp_copy_to with "Hb"); try done; iIntros "Hb"; iApply wp_ret; by iApply "HQ". }
  wp_seq. iApply "Hkey". iIntros "Hb". wp_seq. wp_field "He". wp_seq.
  iApply (Hp with "Hx Hb"); [done|done|]. iIntros "Hx Hb". iApply wp_ret. iApply ("HQ" with "[He Hk Hx] Hb").
  iExists kp, hp. iFrame.
Qed.

Lemma wp_pack_elems n pack m l prev cur buf c pos size c' k (Q : nat -> hProp) :
  packs n pack -> (elems_weight l <= n)%nat -> (length l < m)%nat ->
  pack_loop pos l c size = Ok (c', k) ->
  suffix l prev cur -∗ buf ↦ Bytes c -∗ (suffix l prev cur -∗ buf ↦ Bytes c' -∗ Q k) -∗
  wp (pack_elems pack m buf pos cur size) Q.
Proof.
  intros Hp. revert l prev cur c size Q. induction m as [|m IH]; intros l prev cur c size Q Hn Hm E; [lia|].
  iIntros "Hs Hb HQ". cbn [pack_elems]. destruct l as [|x l].
  - iDestruct (suffix_nil with "Hs") as "->". injection E as -> ->. iApply wp_ret.
    iApply ("HQ" with "[] Hb"). iApply suffix_none.
  - cbn in Hn, Hm. cbn [pack_loop] in E. apply obind_ok in E as ([c1 k1] & Ex & E).
    rewrite {1}suffix_cons. iDestruct "Hs" as "(%e & %next & -> & He & Hs)".
    wp_seq. iApply (wp_elem_pack_with with "He Hb"); [done|lia|done|]. iIntros "He Hb".
    wp_seq. iApply (wp_elem_next with "He"). iIntros "He".
    iApply (IH with "Hs Hb"); [lia|lia|done|]. iIntros "Hs Hb". iApply ("HQ" with "[He Hs] Hb").
    by iApply (suffix_back with "He").
Qed.

Lemma tree_pack_packs n : packs n (tree_pack n).
Proof.
  induction n as [|n IH]; intros h hp buf c pos c' k Q Hn E; [lia|]. iIntros "Hh Hb HQ".
  cbn [tree_pack]. destruct h as [[l]|], hp as [p|]; cbn [child_with]; try done.
  - change (S (elems_weight l) < S n)%nat in Hn. cbn [Pack.kvtree_pack] in E. rewrite tree_pack_eq in E.
    apply obind_ok in E as (c1 & Ec & E). pose proof (elems_weight_length l).
    rewrite {1}tree_first. iDestruct "Hh" as "(%cur & Hp & Hs)". cbn [lh_first].
    wp_seq. iApply (wp_first with "Hp"). iIntros "Hp". wp_seq.
    iApply (wp_count_loop with "Hs"); [lia|]. iIntros "Hs". wp_seq.
    iApply (wp_copy_to with "Hb"); [done|]. iIntros "Hb". wp_seq. iApply (wp_first with "Hp"). iIntros "Hp".
    iApply (wp_pack_elems with "Hs Hb"); [exact IH|lia|lia|done|]. iIntros "Hs Hb".
    iApply ("HQ" with "[Hp Hs] Hb"). rewrite tree_first. iExists cur. iFrame.
  - apply obind_ok in E as (c1 & Ec & [= -> <-]). wp_seq. iApply (wp_copy_to with "Hb"); [done|].
    iIntros "Hb". iApply wp_ret. by iApply ("HQ" with "Hh").
Qed.

Lemma wp_kvtree_pack h hp buf c pos c' k (Q : nat -> hProp) :
  Pack.kvtree_pack c pos h = Ok (c', k) ->
  child_at h hp -∗ buf ↦ Bytes c -∗ (child_at h hp -∗ buf ↦ Bytes c' -∗ Q k) -∗
  wp (kvtree_pack buf pos hp) Q.
Proof.
  iIntros (E) "Hh Hb HQ". iCombine "Hb HQ" as "HR". unfold kvtree_pack.
  iApply (wp_fuel_frame _ _ _ _ (child_weight h) with "Hh HR"); [apply child_at_blocks|].
  intros n Hn. iIntros "Hh [Hb HQ]". by iApply (tree_pack_packs n with "Hh Hb").
Qed.

(** ** Unpacking *)
Context {alloc : Allocator}.

Lemma unpack_correct n :
  (forall p t buf c pos k t' Q,
     Pack.tree_unpack n c pos t = Ok (k, t') ->
     tree t p -∗ buf ↦ Bytes c -∗ (tree t' p -∗ buf ↦ Bytes c -∗ Q k) -∗
     wp (tree_unpack n buf pos p) Q) /\
  (forall p t buf c pos count i size k t' Q,
     Pack.unpack_loop n c pos count i size t = Ok (k, t') ->
     tree t p -∗ buf ↦ Bytes c -∗ (tree t' p -∗ buf ↦ Bytes c -∗ Q k) -∗
     wp (unpack_loop n buf pos count i size p) Q) /\
  (forall e buf c pos k x Q,
     Pack.tree_elem_unpack n c pos kvtree_elem_new = Ok (k, x) ->
     e ↦ Element (Fields (Some None) (Some None) None None) -∗ buf ↦ Bytes c -∗
     (∀ hp, unlinked e x hp -∗ buf ↦ Bytes c -∗ Q k) -∗
     wp (elem_unpack n buf pos (Some e)) Q).
Proof.
  induction n as [|n (IHt & IHl & IHe)]; [by split_and!; intros|]. split_and!.
  - intros p t buf c pos k t' Q E. cbn [Pack.tree_unpack] in E.
    apply obind_ok in E as (count & Ec & E). iIntros "Ht Hb HQ". cbn [tree_unpack]. wp_seq.
    iApply (wp_from_bytes with "Hb"); [done|]. iIntros "Hb". by iApply (IHl with "Ht Hb").
  - intros p t buf c pos count i size k t' Q E. cbn [Pack.unpack_loop] in E.
    iIntros "Ht Hb HQ". cbn [unpack_loop]. destruct (u32 i <? count).
    + apply obind_ok in E as ([k1 x] & Ex & E). destruct (i =? INT_MAX) eqn:Ei; [done|].
      wp_seq. iApply wp_kvtree_elem_new. iIntros (e) "He". wp_seq.
      iApply (IHe with "He Hb"); [done|]. iIntros (hp) "He Hb". wp_seq.
      iApply (wp_list_insert_head with "He Ht"). iIntros "Ht".
      iApply (IHl p (list_insert_head t x) with "[Ht] Hb HQ"); [done|].
      rewrite (tree_at_elem []). by iExists e.
    + injection E as -> ->. iApply wp_ret. by iApply ("HQ" with "Ht").
  - intros e buf c pos k x Q E. cbn [Pack.tree_elem_unpack] in E.
    apply obind_ok in E as (key & Ek & E). apply obind_ok in E as ([k1 h] & Eh & [= <- <-]).
    iIntros "He Hb HQ". cbn [elem_unpack]. wp_seq. iApply (wp_from_bytes with "Hb"); [done|].
    iIntros "Hb". wp_seq. iApply wp_kvtree_new. iIntros (hp) "Hh". wp_seq.
    iApply (IHt with "Hh Hb"); [done|]. iIntros "Hh Hb". wp_seq.
    iApply (wp_kvtree_elem_init _ _ _ (Some h) (Some hp) with "He Hh"). iIntros "He". iApply wp_ret.
    iApply ("HQ" with "He Hb").
Qed.

Lemma wp_kvtree_unpack t p buf c pos k t' (Q : nat -> hProp) :
  Pack.kvtree_unpack c pos (Some t) = Ok (k, Some t') ->
  tree t p -∗ buf ↦ Bytes c -∗ (tree t' p -∗ buf ↦ Bytes c -∗ Q k) -∗
  wp (kvtree_unpack buf pos (Some p)) Q.
Proof.
  iIntros (E) "Ht Hb HQ". apply obind_ok in E as ([k1 t1] & E & [= -> ->]). cbn [kvtree_unpack].
  wp_seq. iApply (wp_from_bytes with "Hb"); [done|]. iIntros "Hb".
  by iApply (proj1 (unpack_correct _) with "Ht Hb").
Qed.
End pack_triples.
