(* ===== verification/HeapFile.v ===== *)
(** Reading and writing files on memory: [kvtree_write_persist], [kvtree_write_fd],
    [kvtree_write_file], [kvtree_read_fd] and [kvtree_read_file] of [src/src/kvtree.c]
    with the buffers they allocate and free.

    Such a function changes the state of the system (Io) and memory.  Each does what its
    counterpart of Persist does, whatever the system replies and whatever the file
    holds, and on every path, errors included, frees its buffers and its temporary
    hash. *)

From iris.proofmode Require Import proofmode.
From S2P Require Import Prelude CLib ByteOrder SepLogic Memory Heap Kvtree KvtreeSpec Pack Io Persist HeapSpec HeapOps HeapPack.

(** ** Code that also calls the system *)
Definition syscode (A : Type) : Type := os -> code (A * os).

Definition sys_ret {A} (a : A) : syscode A := fun s => ret (a, s).
Definition sys_bind {A B} (m : syscode A) (f : A -> syscode B) : syscode B :=
  fun s => do! (a, s) := m s in f a s.
Definition in_system {A} (m : io A) : syscode A := fun s => compute (m s).
Definition in_memory {A} (c : code A) : syscode A := fun s => do! a := c in ret (a, s).

Declare Scope syscode_scope.
Notation "'sys*' x ':=' m 'in' k" := (sys_bind (in_system m) (fun x => k))
  (at level 10, x pattern, m at level 100, k at level 200) : syscode_scope.
Notation "'mem*' x ':=' m 'in' k" := (sys_bind (in_memory m) (fun x => k))
  (at level 10, x pattern, m at level 100, k at level 200) : syscode_scope.
Notation "'both*' x ':=' m 'in' k" := (sys_bind m (fun x => k))
  (at level 10, x pattern, m at level 100, k at level 200) : syscode_scope.
#[global] Open Scope syscode_scope.

Section file.
Context `{Host} `{Zlib} {alloc : Allocator}.

Definition kvtree_persist_size (hash : ptr) : code nat :=
  do! pack_size := HeapPack.kvtree_pack_size hash in
  let size := (KVTREE_FILE_HASH_HEADER_SIZE + pack_size)%nat in
  ret (size + 4)%nat.

(** [KVTREE_MALLOC(size)]: a buffer, or NULL for no bytes. *)
Definition malloc_buffer (size : Z) : code ptr :=
  do! block := compute (kvtree_malloc size) in
  match block with
  | Some _ => do! l := malloc (Bytes (fresh_block (Z.to_nat size))) in ret (Some l)
  | None => ret None
  end.

(** A call of a pack function on the buffer; [size] is the local variable. *)
Definition pack_into (buf : loc)
    (f : option (list byte) -> Z -> option Z -> Z -> outcome (Z * option (list byte) * option Z))
    (buf_size size : nat) (val : Z) : code nat :=
  on_bytes buf (fun c => pack_local f c buf_size size val).

Definition kvtree_write_persist (ptr_buf ptr_size : bool) (hash : ptr)
    : code (Z * option (loc * nat)) :=
  match ptr_buf, hash with
  | false, _ | _, None => ret (KVTREE_FAILURE, None)
  | true, Some _ =>
      do! bufsize := kvtree_persist_size hash in
      do! block := malloc_buffer (Z.of_nat bufsize) in
      do! buf := deref block in
      let size := 0%nat in
      let filesize := bufsize in
      do! size := pack_into buf kvtree_pack_uint32_t filesize size (u32 KVTREE_FILE_MAGIC) in
      do! size := pack_into buf kvtree_pack_uint16_t filesize size (u16 KVTREE_FILE_TYPE_HASH) in
      do! size := pack_into buf kvtree_pack_uint16_t filesize size (u16 KVTREE_FILE_VERSION_HASH_1) in
      do! size := pack_into buf kvtree_pack_uint64_t filesize size (u64 (Z.of_nat filesize)) in
      let flags := 0 in
      let flags := Z.lor flags KVTREE_FILE_FLAGS_CRC32 in
      do! size := pack_into buf kvtree_pack_uint32_t filesize size (u32 flags) in
      do! n := HeapPack.kvtree_pack buf size hash in
      let size := (size + n)%nat in
      do! crc := from_bytes buf (fun c => Ok (crc_of c (Z.of_nat size))) in
      do! size := pack_into buf kvtree_pack_uint32_t filesize size (u32 crc) in
      if negb (size =? bufsize)%nat then compute Abort
      else if ptr_size then ret (KVTREE_SUCCESS, Some (buf, size))
      else undefined
  end.

(** [write] and [read] with an address in a buffer. *)
Definition write_from (file : cstring) (fd : Z) (buf : loc) (size : nat) : syscode Z :=
  mem* c := from_bytes buf Ok in
  sys* n := kvtree_write_attempt file fd c size in
  sys_ret n.

Definition read_into (file : cstring) (fd : Z) (buf : loc) (pos size : nat) : syscode Z :=
  mem* c := from_bytes buf Ok in
  sys* (n, rest) := kvtree_read_attempt file fd (drop pos c) size in
  mem* _ := on_bytes buf (fun c => Ok (take pos c ++ rest, tt)) in
  sys_ret n.

Definition kvtree_write_fd (file : option cstring) (fd : Z) (hash : ptr) : syscode Z :=
  match file, hash with
  | Some file, Some _ =>
      if fd <? 0 then sys_ret (-1)
      else
        mem* (_, out) := kvtree_write_persist true true hash in
        match out with
        | None => in_memory undefined
        | Some (buf, size) =>
            both* nwrite := write_from file fd buf size in
            mem* _ := kvtree_free (Some buf) in
            if negb (nwrite =? Z.of_nat size) then sys_ret (-1) else sys_ret nwrite
        end
  | _, _ => sys_ret (-1)
  end.

Definition kvtree_write_file (file : option cstring) (hash : ptr) : syscode Z :=
  match file, hash with
  | Some name, Some _ =>
      let rc := KVTREE_SUCCESS in
      sys* mode_file := kvtree_getmode true true false in
      sys* fd := kvtree_open name (Z.lor O_WRONLY (Z.lor O_CREAT O_TRUNC)) (Some mode_file) in
      if fd <? 0 then sys_ret KVTREE_FAILURE
      else
        both* nwrite := kvtree_write_fd file fd hash in
        let rc := if nwrite <? 0 then KVTREE_FAILURE else rc in
        sys* r := kvtree_close name fd in
        let rc := if negb (r =? KVTREE_SUCCESS) then KVTREE_FAILURE else rc in
        sys_ret rc
  | _, _ => sys_ret KVTREE_FAILURE
  end.

(** Free the buffer and return the error. *)
Definition fail_free (buf : ptr) : syscode Z :=
  mem* _ := kvtree_free buf in
  sys_ret (-1).

(** The header is an array on the stack. *)
Definition kvtree_read_fd (file : option cstring) (fd : Z) (hash : ptr) : syscode Z :=
  match file, hash with
  | Some file, Some _ =>
      if fd <? 0 then sys_ret (-1)
      else
        sys* (nread, header) := kvtree_read_attempt file fd
                                  (fresh_block KVTREE_FILE_HASH_HEADER_SIZE)
                                  KVTREE_FILE_HASH_HEADER_SIZE in
        if nread <? 0 then sys_ret (-1)
        else if nread =? 0 then sys_ret 0
        else if negb (nread =? Z.of_nat KVTREE_FILE_HASH_HEADER_SIZE) then sys_ret (-1)
        else
          mem* fields := compute (read_header header) in
          match fields with
          | None => sys_ret (-1)
          | Some (filesize, flags, size) =>
              mem* block := malloc_buffer filesize in
              mem* buf := deref block in
              mem* _ := copy_to buf 0 (take size header) in
              let remainder := filesize - Z.of_nat size in
              both* nread :=
                (if 0 <? remainder then read_into file fd buf size (Z.to_nat remainder)
                 else sys_ret remainder) in
              if nread <? 0 then fail_free block
              else if negb (nread =? remainder) then fail_free block
              else
                mem* ok := from_bytes buf (fun c => crc_ok c filesize flags) in
                if negb ok then fail_free block
                else
                  mem* tmp_hash := Heap.kvtree_new in
                  mem* _ := HeapPack.kvtree_unpack buf size (Some tmp_hash) in
                  mem* _ := Heap.kvtree_merge hash (Some tmp_hash) in
                  mem* _ := kvtree_delete (Some tmp_hash) in
                  mem* _ := kvtree_free block in
                  sys_ret (i64 filesize)
          end
  | _, _ => sys_ret (-1)
  end.

Definition kvtree_read_file (file : option cstring) (hash : ptr) : syscode Z :=
  match file, hash with
  | Some name, Some _ =>
      sys* r := kvtree_file_is_readable name in
      if negb (r =? KVTREE_SUCCESS) then sys_ret KVTREE_FAILURE
      else
        sys* fd := kvtree_open name O_RDONLY None in
        if fd <? 0 then sys_ret KVTREE_FAILURE
        else
          let rc := KVTREE_SUCCESS in
          both* nread := kvtree_read_fd file fd hash in
          let rc := if nread <? 0 then KVTREE_FAILURE else rc in
          sys* r := kvtree_close name fd in
          let rc := if negb (r =? KVTREE_SUCCESS) then KVTREE_FAILURE else rc in
          sys_ret rc
  | _, _ => sys_ret KVTREE_FAILURE
  end.
End file.

(** ** Rules *)
Section rules.
Context {A B : Type}.
Implicit Types Q : A * os -> hProp.

Lemma wp_sys_ret (a : A) s Q : Q (a, s) ⊢ wp (sys_ret a s) Q.
Proof. apply wp_ret. Qed.

Lemma wp_in_system (m : io B) (f : B -> syscode A) s b s' Q :
  m s = Ok (b, s') -> wp (f b s') Q ⊢ wp (sys_bind (in_system m) f s) Q.
Proof.
  iIntros (E) "H". unfold sys_bind, in_system. wp_seq. by iApply wp_compute.
Qed.

Lemma wp_in_memory (c : code B) (f : B -> syscode A) s Q :
  wp c (fun b => wp (f b s) Q) ⊢ wp (sys_bind (in_memory c) f s) Q.
Proof.
  iIntros "H". unfold sys_bind, in_memory. wp_seq. wp_seq. iApply (wp_wand with "H").
  iIntros (b) "H". by iApply wp_ret.
Qed.

Lemma wp_both (m : syscode B) (f : B -> syscode A) s Q :
  wp (m s) (fun r => wp (f r.1 r.2) Q) ⊢ wp (sys_bind m f s) Q.
Proof.
  iIntros "H". unfold sys_bind. wp_seq. iApply (wp_wand with "H"). by iIntros ([b s']) "H".
Qed.

(** A result of Io comes from a result of its first step. *)
Lemma io_bind_ok (m : io B) (f : B -> io A) s r :
  io_bind m f s = Ok r -> exists b s1, m s = Ok (b, s1) /\ f b s1 = Ok r.
Proof. unfold io_bind. intros ([b s1] & E & E')%obind_ok. by exists b, s1. Qed.

Lemma io_lift_ok (o : outcome B) (f : B -> io A) s r :
  io_bind (io_lift o) f s = Ok r -> exists b, o = Ok b /\ f b s = Ok r.
Proof.
  intros (b & s1 & E & E')%io_bind_ok. unfold io_lift in E.
  apply obind_ok in E as (b' & -> & [= -> ->]). by exists b.
Qed.
End rules.

(** ** Writing *)
Section write_triples.
Context `{Host} `{Zlib} {alloc : Allocator}.

Lemma wp_kvtree_persist_size h hp (Q : nat -> hProp) :
  child_at h hp -∗ (child_at h hp -∗ Q (Persist.kvtree_persist_size h)) -∗
  wp (kvtree_persist_size hp) Q.
Proof.
  iIntros "Hh HQ". unfold kvtree_persist_size. wp_seq. iApply (wp_kvtree_pack_size with "Hh").
  iIntros "Hh". iApply wp_ret. by iApply "HQ".
Qed.

Lemma wp_malloc_buffer size b (Q : ptr -> hProp) :
  kvtree_malloc size = Ok (Some b) ->
  (∀ l, l ↦ Bytes (fresh_block (Z.to_nat size)) -∗ Q (Some l)) -∗ wp (malloc_buffer size) Q.
Proof.
  iIntros (E) "HQ". unfold malloc_buffer. wp_seq. iApply wp_compute; [done|]. wp_seq.
  iApply wp_malloc. iIntros (l) "Hl". iApply wp_ret. by iApply "HQ".
Qed.

Lemma wp_kvtree_write_persist h hp out (Q : Z * option (loc * nat) -> hProp) :
  Persist.kvtree_write_persist true true h = Ok out ->
  child_at h hp -∗
  (match out with
   | (r, Some (c, size)) => ∀ buf, child_at h hp -∗ buf ↦ Bytes c -∗ Q (r, Some (buf, size))
   | (r, None) => child_at h hp -∗ Q (r, None)
   end) -∗
  wp (kvtree_write_persist true true hp) Q.
Proof.
  iIntros (E) "Hh HQ". unfold Persist.kvtree_write_persist, kvtree_write_persist in *.
  destruct h as [t|], hp as [p|]; try by iExFalso.
  2:{ injection E as <-. iApply wp_ret. by iApply "HQ". }
  set (h := Some t) in *. apply obind_ok in E as (block & Em & E). destruct block as [b|]; [|done].
  apply obind_ok in E as ([c1 n1] & E1 & E). apply obind_ok in E as ([c2 n2] & E2 & E).
  apply obind_ok in E as ([c3 n3] & E3 & E). apply obind_ok in E as ([c4 n4] & E4 & E).
  apply obind_ok in E as ([c5 n5] & E5 & E). apply obind_ok in E as ([c6 n6] & E6 & E).
  apply obind_ok in E as ([c7 n7] & E7 & E).
  wp_seq. iApply (wp_kvtree_persist_size h (Some p) with "Hh"). iIntros "Hh".
  wp_seq. iApply wp_malloc_buffer; [exact Em|]. iIntros (buf) "Hb". rewrite Nat2Z.id.
  wp_seq. iApply wp_deref. unfold pack_into.
  wp_seq. iApply (wp_on_bytes with "Hb"); [exact E1|]. iIntros "Hb".
  wp_seq. iApply (wp_on_bytes with "Hb"); [exact E2|]. iIntros "Hb".
  wp_seq. iApply (wp_on_bytes with "Hb"); [exact E3|]. iIntros "Hb".
  wp_seq. iApply (wp_on_bytes with "Hb"); [exact E4|]. iIntros "Hb".
  wp_seq. iApply (wp_on_bytes with "Hb"); [exact E5|]. iIntros "Hb".
  wp_seq. iApply (wp_kvtree_pack h (Some p) with "Hh Hb"); [exact E6|]. iIntros "Hh Hb".
  wp_seq. iApply (wp_from_bytes with "Hb"); [done|]. iIntros "Hb".
  wp_seq. iApply (wp_on_bytes with "Hb"); [exact E7|]. iIntros "Hb".
  destruct (negb (n7 =? Persist.kvtree_persist_size h)%nat); [done|]. injection E as <-.
  iApply wp_ret. by iApply ("HQ" with "Hh").
Qed.

Lemma wp_kvtree_write_fd file fd h hp s r s' (Q : Z * os -> hProp) :
  Persist.kvtree_write_fd file fd h s = Ok (r, s') ->
  child_at h hp -∗ (child_at h hp -∗ Q (r, s')) -∗ wp (kvtree_write_fd file fd hp s) Q.
Proof.
  iIntros (E) "Hh HQ". unfold Persist.kvtree_write_fd, kvtree_write_fd in *.
  destruct file as [file|]; [|injection E as <- <-; iApply wp_sys_ret; by iApply "HQ"].
  destruct h as [t|], hp as [p|]; try by iExFalso.
  2:{ injection E as <- <-. iApply wp_sys_ret. by iApply "HQ". }
  destruct (fd <? 0); [injection E as <- <-; iApply wp_sys_ret; by iApply "HQ"|].
  apply io_lift_ok in E as ([r1 out] & E1 & E). destruct out as [[c size]|]; [|done].
  apply io_bind_ok in E as (n & s1 & E2 & E).
  iApply wp_in_memory. iApply (wp_kvtree_write_persist _ (Some p) with "Hh"); [exact E1|]. iIntros (buf) "Hh Hb".
  iApply wp_both. unfold write_from. iApply wp_in_memory. iApply (wp_from_bytes with "Hb"); [done|].
  iIntros "Hb". iApply wp_in_system; [exact E2|]. iApply wp_sys_ret. cbn [fst snd].
  iApply wp_in_memory. iApply (wp_kvtree_free_block with "Hb").
  destruct (negb (n =? Z.of_nat size)); injection E as <- <-; iApply wp_sys_ret; by iApply "HQ".
Qed.

Lemma wp_kvtree_write_file file h hp s r s' (Q : Z * os -> hProp) :
  Persist.kvtree_write_file file h s = Ok (r, s') ->
  child_at h hp -∗ (child_at h hp -∗ Q (r, s')) -∗ wp (kvtree_write_file file hp s) Q.
Proof.
  iIntros (E) "Hh HQ". unfold Persist.kvtree_write_file, kvtree_write_file in *.
  destruct file as [file|]; [|injection E as <- <-; iApply wp_sys_ret; by iApply "HQ"].
  destruct h as [t|], hp as [p|]; try by iExFalso.
  2:{ injection E as <- <-. iApply wp_sys_ret. by iApply "HQ". }
  apply io_bind_ok in E as (mode & s1 & E1 & E). apply io_bind_ok in E as (fd & s2 & E2 & E).
  iApply wp_in_system; [exact E1|]. iApply wp_in_system; [exact E2|].
  destruct (fd <? 0); [injection E as <- <-; iApply wp_sys_ret; by iApply "HQ"|].
  apply io_bind_ok in E as (n & s3 & E3 & E). apply io_bind_ok in E as (rc & s4 & E4 & E).
  iApply wp_both. iApply (wp_kvtree_write_fd with "Hh"); [exact E3|]. iIntros "Hh". cbn [fst snd].
  iApply wp_in_system; [exact E4|]. injection E as <- <-. iApply wp_sys_ret. by iApply "HQ".
Qed.

(** ** Reading *)
Lemma wp_fail_free buf c s (Q : Z * os -> hProp) :
  buf ↦ Bytes c -∗ Q (-1, s) -∗ wp (fail_free (Some buf) s) Q.
Proof.
  iIntros "Hb HQ". iApply wp_in_memory. iApply (wp_kvtree_free_block with "Hb"). by iApply wp_sys_ret.
Qed.

(** The part of [kvtree_read_fd] after the second read. *)
Lemma wp_read_fd_end t p buf c filesize flags size s r h' s' (Q : Z * os -> hProp) :
  (lift* ok := crc_ok c filesize flags in
   if negb ok then io_ret (-1, Some t)
   else
     let tmp_hash := Kvtree.kvtree_new in
     lift* (_, tmp_hash) := Pack.kvtree_unpack c size (Some tmp_hash) in
     let '(hash, _) := Kvtree.kvtree_merge (Some t) tmp_hash in
     io_ret (i64 filesize, hash)) s = Ok ((r, h'), s') ->
  tree t p -∗ buf ↦ Bytes c -∗ (∀ t', ⌜h' = Some t'⌝ → tree t' p -∗ Q (r, s')) -∗
  wp ((mem* ok := from_bytes buf (fun c => crc_ok c filesize flags) in
       if negb ok then fail_free (Some buf)
       else
         mem* tmp_hash := Heap.kvtree_new in
         mem* _ := HeapPack.kvtree_unpack buf size (Some tmp_hash) in
         mem* _ := Heap.kvtree_merge (Some p) (Some tmp_hash) in
         mem* _ := kvtree_delete (Some tmp_hash) in
         mem* _ := kvtree_free (Some buf) in
         sys_ret (i64 filesize)) s) Q.
Proof.
  iIntros (E) "Ht Hb HQ". apply io_lift_ok in E as (ok & Eo & E).
  iApply wp_in_memory. iApply (wp_from_bytes with "Hb"); [exact Eo|]. iIntros "Hb".
  destruct ok; cbn [negb] in *.
  2:{ injection E as <- <- <-. iApply (wp_fail_free with "Hb"). by iApply ("HQ" with "[//] Ht"). }
  apply io_lift_ok in E as ([k tmp] & Eu & E).
  pose proof (unpack_stops_at c size) as Hk. rewrite Eu in Hk. destruct tmp as [tmp|]; [|done].
  destruct Hk as (_ & _ & Hk). destruct (kvtree_merge_some t (Some tmp)) as (t' & rc & Em).
  rewrite Em in E. injection E as <- <- <-.
  iApply wp_in_memory. iApply wp_kvtree_new. iIntros (q) "Hq". iApply wp_in_memory.
  iApply (wp_kvtree_unpack with "Hq Hb"); [exact Eu|]. iIntros "Hq Hb". iApply wp_in_memory.
  iApply (wp_kvtree_merge _ _ (Some tmp) (Some q) with "Ht Hq"); [done|exact Em|]. iIntros "Ht Hq".
  iApply wp_in_memory. iApply (wp_kvtree_delete (Some tmp) (Some q) with "Hq"). iApply wp_in_memory.
  iApply (wp_kvtree_free_block with "Hb"). iApply wp_sys_ret. by iApply ("HQ" with "[//] Ht").
Qed.

(** The second read: into the buffer behind the header. *)
Lemma wp_read_into file fd buf c pos size s n rest s' (Q : Z * os -> hProp) :
  kvtree_read_attempt file fd (drop pos c) size s = Ok ((n, rest), s') ->
  buf ↦ Bytes c -∗ (buf ↦ Bytes (take pos c ++ rest) -∗ Q (n, s')) -∗
  wp (read_into file fd buf pos size s) Q.
Proof.
  iIntros (E) "Hb HQ". unfold read_into. iApply wp_in_memory. iApply (wp_from_bytes with "Hb"); [done|].
  iIntros "Hb". iApply wp_in_system; [exact E|]. cbn beta iota. iApply wp_in_memory.
  iApply (wp_on_bytes with "Hb"); [done|]. iIntros "Hb". iApply wp_sys_ret. by iApply "HQ".
Qed.
(** A return of a reading function, with the tree as it is. *)
Ltac returns_here :=
  match goal with E : io_ret _ _ = Ok _ |- _ => injection E as <- <- <- end;
  iApply wp_sys_ret; by iApply ("HQ" with "[//] Ht").

(** The result says what the tree under [p] has become; the buffer and the temporary
    hash are gone on every path. *)
Lemma wp_kvtree_read_fd file fd t p s r h' s' (Q : Z * os -> hProp) :
  Persist.kvtree_read_fd file fd (Some t) s = Ok ((r, h'), s') ->
  tree t p -∗ (∀ t', ⌜h' = Some t'⌝ → tree t' p -∗ Q (r, s')) -∗
  wp (kvtree_read_fd file fd (Some p) s) Q.
Proof.
  iIntros (E) "Ht HQ". unfold Persist.kvtree_read_fd, kvtree_read_fd in *.
  destruct file as [file|].
  2: returns_here.
  destruct (fd <? 0); [returns_here|].
  apply io_bind_ok in E as ([n hd] & s1 & E1 & E). iApply wp_in_system; [exact E1|]. cbn beta iota.
  destruct (n <? 0); [returns_here|].
  destruct (n =? 0); [returns_here|].
  destruct (negb _); [returns_here|].
  apply io_lift_ok in E as (fields & Ef & E). iApply wp_in_memory. iApply wp_compute; [exact Ef|].
  destruct fields as [[[filesize flags] size]|].
  2: returns_here.
  apply io_lift_ok in E as ([b|] & Em & E); [|done]. apply io_lift_ok in E as (c & Ec & E).
  iApply wp_in_memory. iApply wp_malloc_buffer; [exact Em|]. iIntros (buf) "Hb".
  iApply wp_in_memory. iApply wp_deref. iApply wp_in_memory.
  iApply (wp_copy_to with "Hb"); [exact Ec|]. iIntros "Hb". iApply wp_both.
  set (rem := filesize - Z.of_nat size) in *. apply io_bind_ok in E as ([m c'] & s2 & E2 & E).
  iAssert (∀ Q' : Z * os -> hProp, (buf ↦ Bytes c' -∗ Q' (m, s2)) -∗
    wp ((if 0 <? rem then read_into file fd buf size (Z.to_nat rem) else sys_ret rem) s1) Q')%I
    with "[Hb]" as "Hread".
  { iIntros (Q') "HQ'". destruct (0 <? rem).
    - apply io_bind_ok in E2 as ([m' rest] & s3 & E3 & E4). injection E4 as <- <- <-.
      by iApply (wp_read_into with "Hb"); [exact E3|].
    - injection E2 as <- <- <-. iApply wp_sys_ret. by iApply "HQ'". }
  iApply "Hread". iIntros "Hb". cbn [fst snd].
  destruct (m <? 0).
  { injection E as <- <- <-. iApply (wp_fail_free with "Hb"). by iApply ("HQ" with "[//] Ht"). }
  destruct (negb (m =? rem)).
  { injection E as <- <- <-. iApply (wp_fail_free with "Hb"). by iApply ("HQ" with "[//] Ht"). }
  by iApply (wp_read_fd_end with "Ht Hb"); [exact E|].
Qed.

Lemma wp_kvtree_read_file file t p s r h' s' (Q : Z * os -> hProp) :
  Persist.kvtree_read_file file (Some t) s = Ok ((r, h'), s') ->
  tree t p -∗ (∀ t', ⌜h' = Some t'⌝ → tree t' p -∗ Q (r, s')) -∗
  wp (kvtree_read_file file (Some p) s) Q.
Proof.
  iIntros (E) "Ht HQ". unfold Persist.kvtree_read_file, kvtree_read_file in *.
  destruct file as [file|].
  2: returns_here.
  apply io_bind_ok in E as (ok & s1 & E1 & E). iApply wp_in_system; [exact E1|].
  destruct (negb _); [returns_here|].
  apply io_bind_ok in E as (fd & s2 & E2 & E). iApply wp_in_system; [exact E2|].
  destruct (fd <? 0); [returns_here|].
  apply io_bind_ok in E as ([n h2] & s3 & E3 & E). apply io_bind_ok in E as (rc & s4 & E4 & E).
  iApply wp_both. iApply (wp_kvtree_read_fd with "Ht"); [exact E3|]. iIntros (t2 ->) "Ht". cbn [fst snd].
  iApply wp_in_system; [exact E4|]. returns_here.
Qed.
End write_triples.
