(* ===== verification/HeapPrograms.v ===== *)
(** Programs that use kvtrees through pointers: what such a program leaves in
    memory.

    A program has variables that hold [kvtree*]s and calls the functions of the
    library on the hashes they point to, or on hashes further down, which it finds
    with [kvtree_get].  [run] executes the calls on memory (Heap), [run_trees] on
    trees (Kvtree).  A hash belongs to one variable, or to the tree it was put in:
    a variable is not overwritten before its tree is deleted or given away. *)

From iris.proofmode Require Import proofmode.
From S2P Require Import Prelude CLib SepLogic Memory Heap Kvtree KvtreeSpec KvtreeMap HeapSpec HeapOps.

Notation var := nat.

(** [path]: the keys from the variable's hash to the hash that is meant. *)
Inductive command :=
| New (x : var)                                                  (* x = kvtree_new() *)
| Delete (x : var)                                               (* kvtree_delete(&x) *)
| SetHash (x : var) (path : list cstring) (k : cstring) (y : var) (* kvtree_set(x.., k, y); y = NULL *)
| SetKv (x : var) (path : list cstring) (k v : cstring)
| Unset (x : var) (path : list cstring) (k : cstring)
| UnsetAll (x : var) (path : list cstring)
| UnsetKv (x : var) (path : list cstring) (k v : cstring)
| Extract (y x : var) (path : list cstring) (k : cstring)        (* y = kvtree_extract(x.., k) *)
| Merge (x : var) (path : list cstring) (y : var) (path' : list cstring)
| Size (x : var) (path : list cstring)
| GetVal (x : var) (path : list cstring) (k : cstring).

(** What a program gets to know. *)
Inductive answer := Number (n : Z) | Value (s : option cstring).

(** ** On memory *)
Fixpoint walk (hash : ptr) (path : list cstring) : code ptr :=
  match path with
  | [] => ret hash
  | k :: path =>
      do! hash := Heap.kvtree_get hash (Some k) in
      walk hash path
  end.

Section run.
Context {alloc : Allocator}.

Definition value (vars : list ptr) (x : var) : ptr := default None (vars !! x).

Definition exec (c : command) (vars : list ptr) : code (list ptr * list answer) :=
  match c with
  | New x =>
      do! h := Heap.kvtree_new in
      ret (<[x := Some h]> vars, [])
  | Delete x =>
      do! h := kvtree_delete (value vars x) in
      ret (<[x := h]> vars, [])
  | SetHash x path k y =>
      do! h := walk (value vars x) path in
      do! _ := Heap.kvtree_set h (Some k) (value vars y) in
      ret (<[y := None]> vars, [])
  | SetKv x path k v =>
      do! h := walk (value vars x) path in
      do! _ := Heap.kvtree_set_kv h (Some k) (Some v) in
      ret (vars, [])
  | Unset x path k =>
      do! h := walk (value vars x) path in
      do! rc := Heap.kvtree_unset h (Some k) in
      ret (vars, [Number rc])
  | UnsetAll x path =>
      do! h := walk (value vars x) path in
      do! rc := Heap.kvtree_unset_all h in
      ret (vars, [Number rc])
  | UnsetKv x path k v =>
      do! h := walk (value vars x) path in
      do! rc := Heap.kvtree_unset_kv h (Some k) (Some v) in
      ret (vars, [Number rc])
  | Extract y x path k =>
      do! h := walk (value vars x) path in
      do! r := Heap.kvtree_extract h (Some k) in
      ret (<[y := r]> vars, [])
  | Merge x path y path' =>
      do! h1 := walk (value vars x) path in
      do! h2 := walk (value vars y) path' in
      do! rc := Heap.kvtree_merge h1 h2 in
      ret (vars, [Number rc])
  | Size x path =>
      do! h := walk (value vars x) path in
      do! n := Heap.kvtree_size h in
      ret (vars, [Number n])
  | GetVal x path k =>
      do! h := walk (value vars x) path in
      do! r := Heap.kvtree_get_val h (Some k) in
      do! s := get_string r in
      ret (vars, [Value s])
  end.

Fixpoint run (cs : list command) (vars : list ptr) : code (list ptr * list answer) :=
  match cs with
  | [] => ret (vars, [])
  | c :: cs =>
      do! (vars, out) := exec c vars in
      do! (vars, outs) := run cs vars in
      ret (vars, out ++ outs)
  end.
End run.

(** ** On trees *)
Notation trees := (list (option kvtree)).

(** [f] on the hash at the end of the path from a variable's hash. *)
Definition on_hash {A} (f : option kvtree -> option kvtree * A) (x : var) (path : list cstring)
    (vars : trees) : option (trees * A) :=
  match vars !! x with
  | Some (Some t) =>
      match kvtree_deref t path with
      | Some c =>
          match f (Some c) with
          | (Some c', a) => Some (<[x := Some (kvtree_store t path c')]> vars, a)
          | (None, _) => None
          end
      | None => None
      end
  | _ => None
  end.

(** The hash at the end of a path, and the variables when it is changed. *)
Definition hash_of (x : var) (path : list cstring) (vars : trees) : option kvtree :=
  match vars !! x with
  | Some (Some t) => kvtree_deref t path
  | _ => None
  end.

Definition put (x : var) (path : list cstring) (c : kvtree) (vars : trees) : trees :=
  match vars !! x with
  | Some (Some t) => <[x := Some (kvtree_store t path c)]> vars
  | _ => vars
  end.

Lemma on_hash_put {A} (f : option kvtree -> option kvtree * A) x path vars vars' a :
  on_hash f x path vars = Some (vars', a) ->
  exists c c', hash_of x path vars = Some c /\ f (Some c) = (Some c', a) /\ vars' = put x path c' vars.
Proof.
  unfold on_hash, hash_of, put. intros E. repeat case_match; simplify_eq. by do 2 eexists.
Qed.

Lemma put_same x path vars c : hash_of x path vars = Some c -> put x path c vars = vars.
Proof.
  unfold hash_of, put. destruct (vars !! x) as [[t|]|] eqn:Ex; [|done..]. intros Ed.
  rewrite store_deref; [|done]. by apply list_insert_id.
Qed.

Lemma put_length x path vars c : length (put x path c vars) = length vars.
Proof. unfold put. repeat case_match; by rewrite ?length_insert. Qed.

Definition asked {A} (f : A -> answer) (r : option (trees * A)) : option (trees * list answer) :=
  (fun '(vars, a) => (vars, [f a])) <$> r.

Definition exec_trees (c : command) (vars : trees) : option (trees * list answer) :=
  match c with
  | New x =>
      match vars !! x with
      | Some None => Some (<[x := Some kvtree_new]> vars, [])
      | _ => None
      end
  | Delete x =>
      match vars !! x with
      | Some _ => Some (<[x := None]> vars, [])
      | None => None
      end
  | SetHash x path k y =>
      match vars !! y with
      | Some h =>
          (fun '(vars, _) => (vars, [])) <$>
          on_hash (fun c => kvtree_set c (Some k) h) x path (<[y := None]> vars)
      | None => None
      end
  | SetKv x path k v =>
      (fun '(vars, _) => (vars, [])) <$> on_hash (fun c => kvtree_set_kv c (Some k) (Some v)) x path vars
  | Unset x path k => asked Number (on_hash (fun c => kvtree_unset c (Some k)) x path vars)
  | UnsetAll x path => asked Number (on_hash kvtree_unset_all x path vars)
  | UnsetKv x path k v =>
      asked Number (on_hash (fun c => kvtree_unset_kv c (Some k) (Some v)) x path vars)
  | Extract y x path k =>
      match vars !! y, on_hash (fun c => kvtree_extract c (Some k)) x path vars with
      | Some None, Some (vars, h) => Some (<[y := h]> vars, [])
      | _, _ => None
      end
  | Merge x path y path' =>
      match vars !! y with
      | Some (Some t2) =>
          match kvtree_deref t2 path' with
          | Some h2 =>
              if keys_ok h2 then
                (fun '(vars, rc) => (<[y := Some t2]> vars, [Number rc])) <$>
                on_hash (fun c => kvtree_merge c (Some h2)) x path (<[y := None]> vars)
              else None
          | None => None
          end
      | _ => None
      end
  | Size x path => asked Number (on_hash (fun c => (c, kvtree_size c)) x path vars)
  | GetVal x path k => asked Value (on_hash (fun c => (c, kvtree_get_val c (Some k))) x path vars)
  end.

Fixpoint run_trees (cs : list command) (vars : trees) : option (trees * list answer) :=
  match cs with
  | [] => Some (vars, [])
  | c :: cs =>
      match exec_trees c vars with
      | Some (vars, out) =>
          match run_trees cs vars with
          | Some (vars, outs) => Some (vars, out ++ outs)
          | None => None
          end
      | None => None
      end
  end.

(** ** The memory of a program: the trees of its variables and nothing else. *)
Definition forest (vars : trees) (ptrs : list ptr) : hProp :=
  ([∗ list] h;p ∈ vars;ptrs, hash_at h p)%I.

Lemma forest_take vars ptrs y h :
  vars !! y = Some h ->
  forest vars ptrs ⊢
  ∃ p, <affine> ⌜ptrs !! y = Some p⌝ ∗ hash_at h p ∗ forest (<[y := None]> vars) (<[y := None]> ptrs).
Proof.
  iIntros (Hy) "H". unfold forest. iDestruct (big_sepL2_length with "H") as %Hl.
  destruct (ptrs !! y) as [p|] eqn:Ep.
  - iExists p. iSplitR; [done|]. rewrite (big_sepL2_insert_acc _ _ _ y); [|done..].
    iDestruct "H" as "[Hh H]". iFrame. by iApply ("H" $! None None).
  - apply lookup_lt_Some in Hy. apply lookup_ge_None in Ep. lia.
Qed.

Lemma forest_put vars ptrs y h p :
  vars !! y = Some None ->
  hash_at h p -∗ forest vars ptrs -∗ forest (<[y := h]> vars) (<[y := p]> ptrs).
Proof.
  iIntros (Hy) "Hh H". unfold forest. iDestruct (big_sepL2_length with "H") as %Hl.
  destruct (ptrs !! y) as [[q|]|] eqn:Ep.
  - rewrite (big_sepL2_insert_acc _ _ _ y); [|done..]. by iDestruct "H" as "[[] H]".
  - rewrite (big_sepL2_insert_acc _ _ _ y); [|done..]. iDestruct "H" as "[_ H]". by iApply "H".
  - apply lookup_lt_Some in Hy. apply lookup_ge_None in Ep. lia.
Qed.

Lemma wp_walk t p path c (Q : ptr -> hProp) :
  kvtree_deref t path = Some c ->
  tree t p -∗ (∀ q, tree c q -∗ (∀ c', tree c' q -∗ tree (kvtree_store t path c') p) -∗ Q (Some q)) -∗
  wp (walk (Some p) path) Q.
Proof.
  revert t p Q. induction path as [|k path IH]; intros t p Q Hd; iIntros "Ht HQ"; cbn [walk].
  - injection Hd as ->. iApply wp_ret. iApply ("HQ" with "Ht"). by iIntros (c') "Hc".
  - cbn [kvtree_deref] in Hd. destruct (kvtree_get (Some t) (Some k)) as [d|] eqn:Eg; [|done].
    wp_seq. iApply (wp_kvtree_get with "Ht"). iIntros (r) "Hr". unfold get_ptr. rewrite Eg.
    destruct r as [q|]; cbn [pointer]; [|done]. rewrite focus_get Eg.
    iDestruct "Hr" as "(%d' & %E & Hc & Hout)". injection E as <-.
    iApply (IH with "Hc"); [done|]. iIntros (q') "Hc Hin". iApply ("HQ" with "Hc").
    iIntros (c') "Hc". iSpecialize ("Hin" with "Hc"). iSpecialize ("Hout" with "Hin").
    cbn [kvtree_store]. by rewrite Eg.
Qed.

Section triples.
Context {alloc : Allocator}.

(** Finding the hash at the end of a path, whatever becomes of it. *)
Lemma wp_walk_put x path vars c ptrs (Q : ptr -> hProp) :
  hash_of x path vars = Some c ->
  forest vars ptrs -∗
  (∀ q, tree c q -∗ (∀ c', tree c' q -∗ forest (put x path c' vars) ptrs) -∗ Q (Some q)) -∗
  wp (walk (value ptrs x) path) Q.
Proof.
  unfold hash_of, put. destruct (vars !! x) as [[t|]|] eqn:Ex; [|done..]. intros Ed.
  iIntros "H HQ". rewrite forest_take; [|done]. iDestruct "H" as "(%p & %Ep & Ht & H)".
  unfold value. rewrite Ep. cbn [default]. destruct p as [p|]; cbn [child_with]; [|done].
  iApply (wp_walk with "Ht"); [done|]. iIntros (q) "Hc Hback".
  iApply ("HQ" with "Hc"). iIntros (c') "Hc". iSpecialize ("Hback" with "Hc").
  iPoseProof (forest_put _ _ x (Some (kvtree_store t path c')) (Some p) with "Hback H") as "H".
  { apply list_lookup_insert_eq, (lookup_lt_Some _ _ _ Ex). }
  by rewrite !list_insert_insert_eq (list_insert_id ptrs).
Qed.

(** Finding the hash at the end of a path, for a change of that hash. *)
Lemma wp_walk_hash {A} (f : option kvtree -> option kvtree * A) x path vars vars' a ptrs
    (Q : ptr -> hProp) :
  on_hash f x path vars = Some (vars', a) ->
  forest vars ptrs -∗
  (∀ q c c', ⌜f (Some c) = (Some c', a)⌝ → tree c q -∗ (tree c' q -∗ forest vars' ptrs) -∗
             Q (Some q)) -∗
  wp (walk (value ptrs x) path) Q.
Proof.
  intros (c & c' & Eh & Ef & ->)%on_hash_put. iIntros "H HQ". iApply (wp_walk_put with "H"); [done|].
  iIntros (q) "Hc Hback". iApply ("HQ" $! q c c' with "[//] Hc"). by iApply "Hback".
Qed.

(** A command that works on the hash at the end of a path. *)
Lemma wp_on_hash {A B} (f : option kvtree -> option kvtree * A) x path vars vars' a ptrs
    (next : ptr -> code B) (Q : B -> hProp) :
  on_hash f x path vars = Some (vars', a) ->
  forest vars ptrs -∗
  (∀ q c c', ⌜f (Some c) = (Some c', a)⌝ → tree c q -∗ (tree c' q -∗ forest vars' ptrs) -∗
             wp (next (Some q)) Q) -∗
  wp (do! h := walk (value ptrs x) path in next h) Q.
Proof. iIntros (E) "H HQ". wp_seq. by iApply (wp_walk_hash with "H"). Qed.

(** The commands, one by one. *)
Definition correct (c : command) : Prop :=
  forall vars vars' out ptrs (Q : list ptr * list answer -> hProp),
    exec_trees c vars = Some (vars', out) ->
    forest vars ptrs -∗ (∀ ptrs', forest vars' ptrs' -∗ Q (ptrs', out)) -∗ wp (exec c ptrs) Q.

Lemma new_correct x : correct (New x).
Proof.
  intros vars vars' out ptrs Q. cbn. destruct (vars !! x) as [[t|]|] eqn:Ex; [done| |done].
  intros [= <- <-]. iIntros "H HQ". wp_seq. iApply wp_kvtree_new. iIntros (p) "Hp". iApply wp_ret.
  iApply "HQ". by iApply (forest_put _ _ _ (Some kvtree_new) (Some p) with "Hp H").
Qed.

Lemma delete_correct x : correct (Delete x).
Proof.
  intros vars vars' out ptrs Q. cbn. destruct (vars !! x) as [h|] eqn:Ex; [|done]. intros [= <- <-].
  iIntros "H HQ". wp_seq. rewrite forest_take; [|done]. iDestruct "H" as "(%p & %Ep & Hh & H)".
  unfold value. rewrite Ep. iApply (wp_kvtree_delete with "Hh"). iApply wp_ret. by iApply "HQ".
Qed.

(** Start the proof about a command that works on the hash at the end of a path. *)
Ltac on_hash :=
  let E := fresh "E" in
  intros E;
  match type of E with context [on_hash ?f ?x ?p ?v] =>
    destruct (on_hash f x p v) as [[? ?]|] eqn:Eo; [|done]
  end;
  cbn in E; injection E as <- <-; iIntros "H HQ";
  iApply (wp_on_hash with "H"); [done|]; iIntros (q c c' Ef) "Hc Hback"; wp_seq.

Lemma set_kv_correct x path k v : correct (SetKv x path k v).
Proof.
  intros vars vars' out ptrs Q. cbn [exec exec_trees]. on_hash.
  iApply (wp_kvtree_set_kv with "Hc"). iIntros (r) "Hr". rewrite Ef. cbn [returns].
  iApply wp_ret. iApply "HQ". iApply "Hback". by iApply pointer_tree.
Qed.

Lemma unset_correct x path k : correct (Unset x path k).
Proof.
  intros vars vars' out ptrs Q. cbn [exec exec_trees]. unfold asked. on_hash.
  iApply (wp_kvtree_unset_some with "Hc"); [done|]. iIntros "Hc". iApply wp_ret. iApply "HQ".
  by iApply "Hback".
Qed.

Lemma unset_all_correct x path : correct (UnsetAll x path).
Proof.
  intros vars vars' out ptrs Q. cbn [exec exec_trees]. unfold asked. on_hash.
  rewrite unset_all_spec in Ef. injection Ef as <- <-.
  iApply (wp_kvtree_unset_all with "Hc"). iIntros "Hc". iApply wp_ret. iApply "HQ".
  by iApply "Hback".
Qed.

Lemma unset_kv_correct x path k v : correct (UnsetKv x path k v).
Proof.
  intros vars vars' out ptrs Q. cbn [exec exec_trees]. unfold asked. on_hash.
  iApply (wp_kvtree_unset_kv with "Hc"); [done|]. iIntros "Hc". iApply wp_ret. iApply "HQ".
  by iApply "Hback".
Qed.

Lemma size_correct x path : correct (Size x path).
Proof.
  intros vars vars' out ptrs Q. cbn [exec exec_trees]. unfold asked. on_hash.
  injection Ef as <- <-. iApply (wp_kvtree_size with "Hc"). iIntros "Hc". iApply wp_ret.
  iApply "HQ". by iApply "Hback".
Qed.

Lemma get_val_correct x path k : correct (GetVal x path k).
Proof.
  intros vars vars' out ptrs Q. cbn [exec exec_trees]. unfold asked. on_hash.
  injection Ef as <- <-. iApply (wp_kvtree_get_val with "Hc"). iIntros (r) "[Hs Hc]". wp_seq.
  iApply (wp_get_string with "Hs"). iIntros "Hs". iApply wp_ret. iApply "HQ". iApply "Hback".
  by iApply "Hc".
Qed.

(** A variable that has been emptied is not the one a command works on. *)
Lemma on_hash_other {A} (f : option kvtree -> option kvtree * A) x y path vars r h :
  vars !! y = Some h -> on_hash f x path (<[y := None]> vars) = Some r -> x <> y.
Proof.
  intros Hy Ho ->. unfold on_hash in Ho. rewrite list_lookup_insert_eq in Ho; [done|].
  by eapply lookup_lt_Some.
Qed.

Lemma value_other (ptrs : list ptr) x y p : x <> y -> value (<[y := p]> ptrs) x = value ptrs x.
Proof. intros Hxy. unfold value. by rewrite list_lookup_insert_ne. Qed.

Lemma set_hash_correct x path k y : correct (SetHash x path k y).
Proof.
  intros vars vars' out ptrs Q. cbn [exec exec_trees]. destruct (vars !! y) as [h|] eqn:Ey; [|done].
  intros E. destruct (on_hash _ x path _) as [[vs a]|] eqn:Eo; [|done]. injection E as <- <-.
  iIntros "H HQ". rewrite (forest_take _ _ y); [|done]. iDestruct "H" as "(%p & %Ep & Hh & H)".
  rewrite -(value_other ptrs x y None); [|by eapply on_hash_other].
  iApply (wp_on_hash with "H"); [done|]. iIntros (q c c' Ef) "Hc Hback". wp_seq.
  unfold value at 1. rewrite Ep. iApply (wp_kvtree_set with "Hh Hc"). iIntros (r) "Hr". rewrite Ef.
  iApply wp_ret. iApply "HQ". iApply "Hback". by iApply pointer_tree.
Qed.

Lemma extract_correct y x path k : correct (Extract y x path k).
Proof.
  intros vars vars' out ptrs Q. cbn [exec exec_trees]. destruct (vars !! y) as [[t|]|] eqn:Ey; [done| |done].
  intros E. destruct (on_hash _ x path _) as [[vs h]|] eqn:Eo; [|done]. injection E as <- <-.
  iIntros "H HQ". iApply (wp_on_hash with "H"); [done|]. iIntros (q c c' Ef) "Hc Hback". wp_seq.
  iApply (wp_kvtree_extract with "Hc"). rewrite Ef. iIntros (r) "[Hc Hh]". iApply wp_ret. iApply "HQ".
  iApply (forest_put with "Hh"); [|by iApply "Hback"].
  unfold on_hash in Eo. destruct (vars !! x) as [[t|]|] eqn:Ex; [|done..].
  destruct (kvtree_deref t path); [|done]. destruct (kvtree_extract _ _) as [[]]; [|done].
  injection Eo as <- _. rewrite list_lookup_insert_ne; [done|]. intros ->. congruence.
Qed.

Lemma merge_correct x path y path' : correct (Merge x path y path').
Proof.
  intros vars vars' out ptrs Q. cbn [exec exec_trees]. destruct (vars !! y) as [[t2|]|] eqn:Ey; [|done..].
  destruct (kvtree_deref t2 path') as [h2|] eqn:Ed; [|done]. destruct (keys_ok h2) eqn:Ek; [|done].
  intros E. destruct (on_hash _ x path _) as [[vs rc]|] eqn:Eo; [|done]. injection E as <- <-.
  iIntros "H HQ". rewrite (forest_take _ _ y); [|done]. iDestruct "H" as "(%p & %Ep & Ht2 & H)".
  pose proof (on_hash_other _ _ _ _ _ _ _ Ey Eo) as Hxy. rewrite -(value_other ptrs x y None); [|done].
  iApply (wp_on_hash with "H"); [done|]. iIntros (q c c' Ef) "Hc Hback". wp_seq.
  unfold value at 1. rewrite Ep. cbn [default]. destruct p as [p|]; cbn [child_with]; [|done].
  iApply (wp_walk with "Ht2"); [done|]. iIntros (q2) "Hh2 Hback2". wp_seq.
  iApply (wp_kvtree_merge _ _ (Some h2) (Some q2) with "Hc Hh2"); [done|done|].
  iIntros "Hc Hh2". iSpecialize ("Hback" with "Hc"). iSpecialize ("Hback2" with "Hh2").
  rewrite store_deref; [|done]. iApply wp_ret. iApply "HQ".
  iPoseProof (forest_put _ _ y (Some t2) (Some p) with "Hback2 Hback") as "H"; [|by rewrite list_insert_insert_eq (list_insert_id ptrs)].
  unfold on_hash in Eo. destruct (<[y := None]> vars !! x) as [[t|]|]; [|done..].
  destruct (kvtree_deref t path); [|done]. destruct (kvtree_merge _ _) as [[]]; [|done].
  injection Eo as <- _. rewrite list_lookup_insert_ne; [|done].
  by apply list_lookup_insert_eq, (lookup_lt_Some _ _ _ Ey).
Qed.

Lemma command_correct c : correct c.
Proof.
  destruct c; [apply new_correct|apply delete_correct|apply set_hash_correct|apply set_kv_correct
    |apply unset_correct|apply unset_all_correct|apply unset_kv_correct|apply extract_correct
    |apply merge_correct|apply size_correct|apply get_val_correct].
Qed.

Lemma wp_run cs vars vars' out ptrs (Q : list ptr * list answer -> hProp) :
  run_trees cs vars = Some (vars', out) ->
  forest vars ptrs -∗ (∀ ptrs', forest vars' ptrs' -∗ Q (ptrs', out)) -∗ wp (run cs ptrs) Q.
Proof.
  revert vars out ptrs Q. induction cs as [|c cs IH]; intros vars out ptrs Q; cbn [run run_trees].
  - intros [= -> <-]. iIntros "H HQ". iApply wp_ret. by iApply "HQ".
  - destruct (exec_trees c vars) as [[vars1 out1]|] eqn:Ec; [|done].
    destruct (run_trees cs vars1) as [[vars2 out2]|] eqn:Er; [|done]. intros [= -> <-].
    iIntros "H HQ". wp_seq. iApply (command_correct with "H"); [done|]. iIntros (ptrs1) "H".
    wp_seq. iApply (IH with "H"); [done|]. iIntros (ptrs2) "H". iApply wp_ret. by iApply "HQ".
Qed.
End triples.

(** ** Whole programs *)

(** An allocator that always finds a block. *)
#[export] Instance fresh_allocator : Allocator.
Proof. refine {| next_block m := fresh (dom m) |}. intros m. apply not_elem_of_dom, is_fresh. Defined.

Definition no_trees (n : nat) : trees := replicate n None.
Definition no_ptrs (n : nat) : list ptr := replicate n None.

Lemma forest_none n : holds (forest (no_trees n) (no_ptrs n)) ∅.
Proof.
  enough (⊢ forest (no_trees n) (no_ptrs n)) as [E] by (by apply E).
  unfold forest, no_trees, no_ptrs. induction n as [|n IH]; cbn; [done|]. by iSplitR.
Qed.

Lemma forest_all_none n ptrs m :
  holds (forest (no_trees n) ptrs) m -> ptrs = no_ptrs n /\ m = ∅.
Proof.
  enough (forest (no_trees n) ptrs ⊢ <affine> ⌜ptrs = no_ptrs n⌝) as [E].
  { intros H. apply E in H. by destruct H. }
  unfold forest, no_trees, no_ptrs. revert ptrs. induction n as [|n IH]; intros [|p ptrs]; cbn;
    [by iIntros "_"|by iIntros "[]"..|].
  rewrite IH. iIntros "[Hp ->]". by destruct p.
Qed.

Lemma run_trees_app cs cs' vars :
  run_trees (cs ++ cs') vars =
  match run_trees cs vars with
  | Some (vars, out) => (fun '(vars, out') => (vars, out ++ out')) <$> run_trees cs' vars
  | None => None
  end.
Proof.
  revert vars. induction cs as [|c cs IH]; intros vars; cbn.
  - by destruct (run_trees cs' vars) as [[]|].
  - destruct (exec_trees c vars) as [[vars1 out1]|]; [|done]. rewrite IH.
    destruct (run_trees cs vars1) as [[vars2 out2]|]; [|done].
    destruct (run_trees cs' vars2) as [[vars3 out3]|]; cbn; [|done]. by rewrite app_assoc.
Qed.

(** Deleting the trees of all variables. *)
Definition delete_all (n : nat) : list command := Delete <$> List.seq 0 n.

Lemma run_delete_all k vars :
  run_trees (Delete <$> List.seq k (length vars)) (replicate k None ++ vars)
  = Some (replicate (k + length vars) None, []).
Proof.
  revert k. induction vars as [|h vars IH]; intros k; cbn.
  - by rewrite app_nil_r Nat.add_0_r.
  - rewrite lookup_app_r; [|by rewrite length_replicate]. rewrite length_replicate Nat.sub_diag. cbn.
    rewrite insert_app_r_alt; [|by rewrite length_replicate]. rewrite length_replicate Nat.sub_diag. cbn.
    specialize (IH (S k)). rewrite replicate_S_end -app_assoc in IH. cbn in IH. rewrite IH. cbn.
    by rewrite Nat.add_succ_r.
Qed.

Lemma on_hash_length {A} (f : option kvtree -> option kvtree * A) x path vars vars' a :
  on_hash f x path vars = Some (vars', a) -> length vars' = length vars.
Proof.
  unfold on_hash. intros E. repeat case_match; simplify_eq. by rewrite length_insert.
Qed.

Lemma exec_trees_length c vars vars' out :
  exec_trees c vars = Some (vars', out) -> length vars' = length vars.
Proof.
  destruct c; cbn [exec_trees]; unfold asked; intros E; simplify_option_eq; repeat case_match;
    simplify_eq/=;
    repeat match goal with
           | H : _ <$> ?r = Some _ |- _ => destruct r as [[]|] eqn:?; simplify_eq/=
           | H : on_hash _ _ _ _ = Some _ |- _ => apply on_hash_length in H
           end;
    repeat rewrite -> length_insert in *; congruence.
Qed.

Lemma run_trees_length cs vars vars' out :
  run_trees cs vars = Some (vars', out) -> length vars' = length vars.
Proof.
  revert vars out. induction cs as [|c cs IH]; intros vars out; cbn; [by intros [= -> _]|].
  destruct (exec_trees c vars) as [[vars1 out1]|] eqn:Ec; [|done].
  destruct (run_trees cs vars1) as [[vars2 out2]|] eqn:Er; [|done]. intros [= -> _].
  by rewrite (IH _ _ Er) (exec_trees_length _ _ _ _ Ec).
Qed.

Section programs.
Context {alloc : Allocator}.

Lemma run_on_memory n cs vars out :
  run_trees cs (no_trees n) = Some (vars, out) ->
  exists ptrs m, run cs (no_ptrs n) ∅ = Ok ((ptrs, out), m) /\ holds (forest vars ptrs) m.
Proof.
  intros E. destruct (wp_adequate (forest (no_trees n) (no_ptrs n)) (run cs (no_ptrs n))
    (fun r => <affine> ⌜r.2 = out⌝ ∗ forest vars r.1)%I ∅) as ([ptrs out'] & m & Er & H).
  - iIntros "H". iApply (wp_run with "H"); [done|]. iIntros (ptrs) "H". by iFrame.
  - apply forest_none.
  - assert (<affine> ⌜out' = out⌝ ∗ forest vars ptrs ⊢ ⌜out' = out⌝ ∧ forest vars ptrs) as [Hs].
    { iIntros "[-> H]". by iSplit. }
    apply Hs in H as [Eo H]. change (out' = out) in Eo. subst out'. by exists ptrs, m.
Qed.

(** C3.  A program that gives every tree one owner runs on memory without an access
    to a block that is not allocated, answers every question as on trees, and
    leaves in memory the trees its variables hold, and nothing else: no
    block is lost, whatever addresses the allocator chooses.  ([run_trees] is
    defined when a variable is empty before it is assigned, the paths it uses
    exist, and the trees it merges in have keys.) *)
Theorem programs_on_memory n cs vars out :
  run_trees cs (no_trees n) = Some (vars, out) ->
  exists ptrs m, run cs (no_ptrs n) ∅ = Ok ((ptrs, out), m) /\ holds (forest vars ptrs) m.
Proof. apply run_on_memory. Qed.

(** C4.  When the program then calls [kvtree_delete] for each of its variables, no
    block is left. *)
Theorem programs_leak_nothing n cs vars out :
  run_trees cs (no_trees n) = Some (vars, out) ->
  run (cs ++ delete_all n) (no_ptrs n) ∅ = Ok ((no_ptrs n, out), ∅).
Proof.
  intros E. destruct (run_on_memory n (cs ++ delete_all n) (no_trees n) out) as (ptrs & m & Er & H).
  - rewrite run_trees_app E. apply run_trees_length in E.
    assert (length vars = n) as <- by (by rewrite E length_replicate).
    unfold delete_all. pose proof (run_delete_all 0 vars) as Ed. cbn in Ed. rewrite Ed. cbn.
    by rewrite app_nil_r.
  - apply forest_all_none in H as [-> ->]. done.
Qed.

(** [kvtree_delete] frees every block of the tree it is given, no other block,
    and none twice, whatever else is in memory; it returns, and its caller's
    pointer is NULL. *)
Lemma delete_frees_tree t p m m' :
  holds (tree t p) m -> m ##ₘ m' -> kvtree_delete (Some p) (m ∪ m') = Ok (None, m').
Proof.
  intros Ht Hd.
  assert (tree t p ⊢ wp (kvtree_delete (Some p)) (fun r => <affine> ⌜r = None⌝)%I) as [Hw].
  { iIntros "Ht". by iApply (wp_kvtree_delete (Some t) (Some p) with "Ht"). }
  destruct (Hw m Ht m' Hd) as (r & m1 & -> & _ & Hr).
  destruct Hr as [-> ->]. by rewrite left_id_L.
Qed.

Lemma new_runs m :
  Heap.kvtree_new m = Ok (next_block m, <[next_block m := Head (Some None)]> m).
Proof.
  unfold Heap.kvtree_new, malloc, LIST_INIT, set_first, read, write, seq, ret.
  cbn -[lookup insert next_block]. rewrite lookup_insert_eq.
  cbn -[lookup insert next_block]. rewrite lookup_insert_eq.
  cbn -[lookup insert next_block]. by rewrite insert_insert_eq.
Qed.

(** [kvtree_set_kv] with a NULL key returns NULL and allocates two hashes that
    no pointer leads to: they are lost. *)
Lemma set_kv_null_leaks p v m :
  exists a b, Heap.kvtree_set_kv (Some p) None (Some v) m =
    Ok (None, <[b := Head (Some None)]> (<[a := Head (Some None)]> m)) /\
    m !! a = None /\ m !! b = None /\ a <> b.
Proof.
  set (a := next_block m). set (m1 := <[a := Head (Some None)]> m). set (b := next_block m1).
  assert (m1 !! b = None) as Hb by apply next_block_free.
  apply lookup_insert_None in Hb as [Hb Hab].
  exists a, b. split_and!; [|apply next_block_free|done|done].
  cbn [Heap.kvtree_set_kv]. rewrite (seq_ok _ _ None m m); [|done].
  rewrite (seq_ok _ _ None m m1); [|by rewrite (seq_ok _ _ _ _ _ (new_runs m))].
  rewrite (seq_ok _ _ None m1 m1); [|done].
  rewrite (seq_ok _ _ None m1 (<[b := Head (Some None)]> m1)); [done|].
  by rewrite (seq_ok _ _ _ _ _ (new_runs m1)).
Qed.
End programs.

(** ** Examples *)
Definition name (c : byte) : cstring := [c].

Definition sample_program : list command :=
  [ New 0; New 1;
    SetKv 0 [] (name x41) (name x61); SetKv 1 [] (name x41) (name x62); SetKv 1 [] (name x42) (name x63);
    Merge 0 [] 1 []; Size 0 []; Size 0 [name x41];
    UnsetKv 0 [] (name x41) (name x61); GetVal 0 [] (name x41);
    SetHash 0 [] (name x42) 1; Unset 0 [name x42; name x42] (name x63);
    Extract 1 0 [] (name x41); UnsetAll 1 []; Size 1 [] ].

Lemma programs_on_memory_witness :
  exists vars out ptrs m,
    run_trees sample_program (no_trees 2) = Some (vars, out) /\
    out = [Number 0; Number 2; Number 2; Number 0; Value (Some (name x62)); Number 0; Number 0; Number 0] /\
    run sample_program (no_ptrs 2) ∅ = Ok ((ptrs, out), m) /\ holds (forest vars ptrs) m.
Proof.
  do 2 eexists. destruct (programs_on_memory 2 sample_program _ _ eq_refl) as (ptrs & m & E & H).
  exists ptrs, m. split; [vm_compute; reflexivity|]. split; [vm_compute; reflexivity|].
  split; [exact E|exact H].
Defined.

Lemma programs_leak_nothing_witness :
  exists out,
    run (sample_program ++ delete_all 2) (no_ptrs 2) ∅ = Ok ((no_ptrs 2, out), ∅) /\ length out = 8%nat.
Proof.
  eexists. split; [apply (programs_leak_nothing 2 sample_program _ _ eq_refl)|vm_compute; reflexivity].
Defined.

(** A tree with one element, whose hash is NULL, in three blocks. *)
Definition sample_key : cstring := name x41.
Definition sample_memory : memory :=
  {[1%positive := Head (Some (Some 2%positive))]} ∪
  ({[2%positive := Element (Fields (Some (Some 3%positive)) (Some None) (Some None) (Some (HeadFirst 1%positive)))]} ∪
   {[3%positive := String sample_key]}).

Lemma sample_memory_tree : holds (tree (KVTree [Elem (Some sample_key) None]) 1%positive) sample_memory.
Proof.
  enough (1%positive ↦ Head (Some (Some 2%positive)) ∗
    2%positive ↦ Element (Fields (Some (Some 3%positive)) (Some None) (Some None) (Some (HeadFirst 1%positive))) ∗
    3%positive ↦ String sample_key ⊢ tree (KVTree [Elem (Some sample_key) None]) 1%positive) as [E].
  - apply E. do 2 eexists. split; [reflexivity|]. split; [by apply map_disjoint_dom; set_solver|].
    split; [done|]. do 2 eexists. split; [reflexivity|]. split; [by apply map_disjoint_dom; set_solver|done].
  - iIntros "(Hp & He & Hk)". iExists (Some 2%positive), (ElemNext 2%positive). iFrame. cbn. by iFrame.
Qed.

Lemma delete_frees_sample :
  kvtree_delete (Some 1%positive) (sample_memory ∪ {[5%positive := Head (Some None)]})
  = Ok (None, {[5%positive := Head (Some None)]}).
Proof.
  apply (delete_frees_tree _ _ _ _ sample_memory_tree). by apply map_disjoint_singleton_r.
Defined.
