(* ===== verification/HeapSort.v ===== *)
(** Sorting on memory: [kvtree_sort], [kvtree_sort_int] and [kvtree_list_int] of
    [src/src/kvtree.c] with the array they allocate, the addresses of the elements in it
    and the elements that change their places in the list.

    In Sort an address is the position of an element.  Here it is where the element is:
    the theorems show that the sorts move the elements of the tree and lose none, follow
    no pointer outside of it, and free their array, or give it to the caller. *)

From iris.proofmode Require Import proofmode.
From stdpp Require Import sorting.
From S2P Require Import Prelude CLib ByteOrder SepLogic Memory Heap Kvtree KvtreeSpec KvtreeMap Sort HeapSpec HeapOps HeapPrograms.

(** ** The functions *)
Section sort.
Context `{Host} `{Qsort} `{Allocator}.

(** [KVTREE_MALLOC(count * size)]; NULL for no entries. *)
Definition alloc_array (count size : Z) : code ptr :=
  do! block := compute (kvtree_malloc (u64 (count * size))) in
  match block with
  | Some _ => do! l := malloc (Array (replicate (Z.to_nat count) NoEntry)) in ret (Some l)
  | None => ret None
  end.

(** The entries for an element. *)
Definition str_entry (elem : ptr) : code entry :=
  do! key := Heap.kvtree_elem_key elem in
  ret (StrEntry key elem).

Definition int_entry (elem : ptr) : code entry :=
  do! key := Heap.kvtree_elem_key_int elem in
  ret (IntEntry key elem).

Definition int_key (elem : ptr) : code entry :=
  do! key := Heap.kvtree_elem_key_int elem in
  ret (IntKey key).

(** The loop that fills the array; the number of entries filled. *)
Fixpoint fill_loop (entry_of : ptr -> code entry) (fuel : nat) (elem list : ptr) (index : nat)
    : code nat :=
  match fuel with
  | O => no_fuel
  | S fuel =>
      match elem with
      | None => ret index
      | Some _ =>
          do! x := entry_of elem in
          do! _ := store_entry list index x in
          do! elem := Heap.kvtree_elem_next elem in
          fill_loop entry_of fuel elem list (S index)
      end
  end.

(** What the comparison functions read of an entry. *)
Definition str_of (x : entry) : code cstring :=
  match x with
  | StrEntry key _ =>
      do! s := get_string key in
      match s with Some s => ret s | None => undefined end
  | _ => undefined
  end.

Definition int_of (x : entry) : code Z :=
  match x with IntEntry key _ | IntKey key => ret key | _ => undefined end.

Fixpoint keyed {K} (key_of : entry -> code K) (a : list entry) : code (list (K * entry)) :=
  match a with
  | [] => ret []
  | x :: a =>
      do! k := key_of x in
      do! l := keyed key_of a in
      ret ((k, x) :: l)
  end.

(** [qsort(list, count, size, fn)].  What [fn] reads does not change while the array is
    sorted; a single entry is compared with nothing. *)
Definition qsort_array {K} (key_of : entry -> code K) (fn : K -> K -> Z) (list : ptr) (count : Z)
    : code unit :=
  if count <=? 1 then ret tt
  else
    do! l := deref list in
    do! a := get_array l in
    do! ks := keyed key_of a in
    write l (Array (qsort (fun x y => fn x.1 y.1) ks).*2).

Definition addr_of (x : entry) : code loc :=
  match x with StrEntry _ addr | IntEntry _ addr => deref addr | _ => undefined end.

(** The loop over the sorted array, from its end. *)
Fixpoint move_loop (index : nat) (list hash : ptr) : code unit :=
  match index with
  | O => ret tt
  | S index =>
      do! x := load_entry list index in
      do! elem := addr_of x in
      do! _ := LIST_REMOVE elem in
      do! h := deref hash in
      do! _ := LIST_INSERT_HEAD h elem in
      move_loop index list hash
  end.

(** What [kvtree_sort] and [kvtree_sort_int] share: the entries, what [fn] reads of them
    and [fn] differ. *)
Definition sort_with {K} (entry_of : ptr -> code entry) (key_of : entry -> code K) (fn : K -> K -> Z)
    (hash : ptr) : code Z :=
  do! count := Heap.kvtree_size hash in
  do! list := alloc_array count 16 in
  do! elem := Heap.kvtree_elem_first hash in
  do! index := with_fuel (fun fuel => fill_loop entry_of fuel elem list 0) in
  do! _ := qsort_array key_of fn list count in
  do! _ := move_loop index list hash in
  do! _ := kvtree_free list in
  ret KVTREE_SUCCESS.

Definition str_fn (direction : Z) (a b : cstring) : Z :=
  if direction =? KVTREE_SORT_DESCENDING then kvtree_cmp_fn_str_desc (SortElem a 0) (SortElem b 0)
  else kvtree_cmp_fn_str_asc (SortElem a 0) (SortElem b 0).

Definition int_fn (direction : Z) (a b : Z) : Z :=
  if direction =? KVTREE_SORT_DESCENDING then kvtree_cmp_fn_int_desc (SortElem a 0) (SortElem b 0)
  else kvtree_cmp_fn_int_asc (SortElem a 0) (SortElem b 0).

Definition kvtree_sort (hash : ptr) (direction : Z) : code Z :=
  sort_with str_entry str_of (str_fn direction) hash.

Definition kvtree_sort_int (hash : ptr) (direction : Z) : code Z :=
  sort_with int_entry int_of (int_fn direction) hash.

(** The values of [*n] and [*v]. *)
Definition kvtree_list_int (hash : ptr) : code (Z * Z * ptr) :=
  do! count := Heap.kvtree_size hash in
  if count =? 0 then ret (KVTREE_SUCCESS, 0, None)
  else
    do! list := alloc_array count 4 in
    do! elem := Heap.kvtree_elem_first hash in
    do! count := with_fuel (fun fuel => fill_loop int_key fuel elem list 0) in
    do! _ := qsort_array int_of (int_fn KVTREE_SORT_ASCENDING) list (Z.of_nat count) in
    ret (KVTREE_SUCCESS, Z.of_nat count, list).
End sort.

(** ** Triples *)
Ltac wp_field H := iApply (wp_get_field with H); [done|]; iIntros H.

Section triples.
Context `{Host} `{Qsort} `{Allocator}.

(** The array at [p]; an array of no entries may be at NULL. *)
Definition array (p : ptr) (a : list entry) : hProp :=
  match p with
  | Some l => l ↦ Array a
  | None => <affine> ⌜a = []⌝
  end%I.

Lemma wp_array_load p a i x (Q : entry -> hProp) :
  a !! i = Some x -> array p a -∗ (array p a -∗ Q x) -∗ wp (load_entry p i) Q.
Proof.
  intros Hi. destruct p as [l|]; [by apply wp_load_entry|]. iIntros "-> HQ". done.
Qed.

Lemma wp_array_store p a i x (Q : unit -> hProp) :
  (i < length a)%nat -> array p a -∗ (array p (<[i := x]> a) -∗ Q tt) -∗
  wp (store_entry p i x) Q.
Proof.
  intros Hi. destruct p as [l|]; [by apply wp_store_entry|]. iIntros "-> HQ". cbn in Hi. lia.
Qed.

Lemma wp_malloc_array count size (Q : ptr -> hProp) :
  0 <= count -> 1 <= size -> count * size <= malloc_max ->
  (∀ p, array p (replicate (Z.to_nat count) NoEntry) -∗ Q p) -∗ wp (alloc_array count size) Q.
Proof.
  iIntros (Hc Hs Hm) "HQ". unfold alloc_array. wp_seq. pose proof malloc_max_range.
  unfold kvtree_malloc. rewrite u64_id; [|int_lia].
  destruct (Z.ltb_spec 0 (count * size)) as [Hp|Hp].
  - rewrite (proj2 (Z.leb_le _ _)); [|lia]. iApply wp_compute; [done|]. wp_seq. iApply wp_malloc.
    iIntros (l) "Hl". iApply wp_ret. by iApply "HQ".
  - iApply wp_compute; [done|]. iApply wp_ret. iApply "HQ". assert (count = 0) as -> by nia. done.
Qed.

Lemma wp_free_array p a (Q : ptr -> hProp) :
  array p a -∗ Q None -∗ wp (kvtree_free p) Q.
Proof.
  iIntros "Hl HQ". destruct p as [l|]; [by iApply (wp_kvtree_free_block with "Hl")|].
  iDestruct "Hl" as "_". unfold kvtree_free. wp_seq. iApply wp_free_null. by iApply wp_ret.
Qed.

(** *** The elements of a list *)
Lemma nodes_blocks l prev cur prev' cur' : nodes l prev cur prev' cur' ⊢ blocks (length l).
Proof.
  revert prev cur. induction l as [|n l IH]; intros prev cur; cbn [nodes]; [apply blocks_none|].
  apply blocks_exist. intros next. apply blocks_pure. intros _. apply (blocks_sep _ _ 1); [|apply IH].
  apply blocks_exist. intros hp. apply (blocks_sep _ _ 1 0); [apply blocks_points_to|apply blocks_none].
Qed.

Lemma suffix_at_cons n l prev cur :
  suffix_at (n :: l) prev cur ⊢
  <affine> ⌜cur = Some (n_addr n)⌝ ∗ ∃ next, element_at tree (n_addr n) (n_key n) prev next (n_elem n) ∗
    suffix_at l (ElemNext (n_addr n)) next.
Proof. iIntros "(%last & %next & -> & He & Hl)". iSplitR; [done|]. iExists next. by iFrame. Qed.

Lemma suffix_at_back n l prev next :
  element_at tree (n_addr n) (n_key n) prev next (n_elem n) -∗ suffix_at l (ElemNext (n_addr n)) next -∗
  suffix_at (n :: l) prev (Some (n_addr n)).
Proof. iIntros "He (%last & Hl)". iExists last, next. by iFrame. Qed.

Lemma suffix_at_nil prev cur : suffix_at [] prev cur ⊣⊢ <affine> ⌜cur = None⌝.
Proof.
  iSplit; [iIntros "(%last & %E)"; by destruct E as [_ <-]|]. iIntros "->". by iExists prev.
Qed.

Lemma holds_affine (φ : Prop) (P : hProp) m : holds (<affine> ⌜φ⌝ ∗ P)%I m -> φ /\ holds P m.
Proof.
  assert (<affine> ⌜φ⌝ ∗ P ⊢ ⌜φ⌝ ∧ P) as [E] by (iIntros "[% H]"; by iSplit). intros Hm. exact (E m Hm).
Qed.

Lemma list_at_first p l : list_at p l ⊣⊢ ∃ cur, at_head p cur ∗ suffix_at l (HeadFirst p) cur.
Proof.
  unfold list_at, prefix_at, suffix_at, at_head. iSplit.
  - iIntros "(%prev & %first & Hp & Hl)". iExists first. iFrame.
  - iIntros "(%cur & Hp & %last & Hl)". iExists last, cur. iFrame.
Qed.

Lemma wp_next n prev next (Q : ptr -> hProp) :
  element_at tree (n_addr n) (n_key n) prev next (n_elem n) -∗
  (element_at tree (n_addr n) (n_key n) prev next (n_elem n) -∗ Q next) -∗
  wp (Heap.kvtree_elem_next (Some (n_addr n))) Q.
Proof.
  iIntros "(%hp & He & Hx) HQ". unfold Heap.kvtree_elem_next, LIST_NEXT. wp_field "He".
  iApply "HQ". iExists hp. iFrame.
Qed.

(** *** Entries

    [entry_of] makes the entry [entry_at] of an element, in which [key_of] reads the key
    [key_at]; an element needs a key for that. *)
Section entries.
Context {K : Type} (entry_of : ptr -> code entry) (key_of : entry -> code K).
Context (entry_at : node -> entry) (key_at : kvtree_elem -> K).

Definition reads_entry : Prop := forall n prev next Q, Kvtree.key (n_elem n) <> None ->
  element_at tree (n_addr n) (n_key n) prev next (n_elem n) -∗
  (element_at tree (n_addr n) (n_key n) prev next (n_elem n) -∗ Q (entry_at n)) -∗
  wp (entry_of (Some (n_addr n))) Q.

Definition reads_key : Prop := forall n prev next Q, Kvtree.key (n_elem n) <> None ->
  element_at tree (n_addr n) (n_key n) prev next (n_elem n) -∗
  (element_at tree (n_addr n) (n_key n) prev next (n_elem n) -∗ Q (key_at (n_elem n))) -∗
  wp (key_of (entry_at n)) Q.

Definition keyed_nodes (l : list node) : Prop := Forall (fun n => Kvtree.key (n_elem n) <> None) l.

Lemma wp_fill_loop n l pre prev cur p (Q : nat -> hProp) :
  reads_entry -> keyed_nodes l -> (length l < n)%nat ->
  suffix_at l prev cur -∗ array p (pre ++ replicate (length l) NoEntry) -∗
  (suffix_at l prev cur -∗ array p (pre ++ map entry_at l) -∗ Q (length (pre ++ map entry_at l))) -∗
  wp (fill_loop entry_of n cur p (length pre)) Q.
Proof.
  intros Hread. revert l pre prev cur Q. induction n as [|n IH]; intros l pre prev cur Q Hl Hn; [lia|].
  iIntros "Hs Ha HQ". cbn [fill_loop]. destruct l as [|x l].
  - rewrite suffix_at_nil. iDestruct "Hs" as "->". cbn. rewrite app_nil_r. iApply wp_ret. by iApply ("HQ" with "[] Ha").
  - apply Forall_cons_iff in Hl as [Hx Hl]. cbn in Hn.
    rewrite {1}suffix_at_cons. iDestruct "Hs" as "(-> & %next & He & Hs)".
    wp_seq. iApply (Hread with "He"); [done|]. iIntros "He". wp_seq. iApply (wp_array_store with "Ha").
    { rewrite length_app. cbn. lia. }
    iIntros "Ha". wp_seq. iApply (wp_next with "He"). iIntros "He".
    rewrite insert_app_r_alt // Nat.sub_diag. cbn [map replicate length].
    rewrite -(Nat.add_1_r (length pre)) -(length_app pre [entry_at x]) !(cons_middle (entry_at x) pre).
    rewrite !app_assoc. iApply (IH with "Hs Ha"); [done|lia|]. iIntros "Hs Ha".
    iApply ("HQ" with "[He Hs] Ha"). iApply (suffix_at_back with "He Hs").
Qed.

(** What an entry is sorted by. *)
Definition keyed_at (n : node) : K * entry := (key_at (n_elem n), entry_at n).

Lemma wp_keyed l prev cur (Q : list (K * entry) -> hProp) :
  reads_key -> keyed_nodes l ->
  suffix_at l prev cur -∗ (suffix_at l prev cur -∗ Q (map keyed_at l)) -∗
  wp (keyed key_of (map entry_at l)) Q.
Proof.
  intros Hread. revert prev cur Q. induction l as [|x l IH]; intros prev cur Q Hl; iIntros "Hs HQ"; cbn [map keyed].
  - iApply wp_ret. by iApply "HQ".
  - apply Forall_cons_iff in Hl as [Hx Hl].
    rewrite {1}suffix_at_cons. iDestruct "Hs" as "(-> & %next & He & Hs)".
    wp_seq. iApply (Hread with "He"); [done|]. iIntros "He". wp_seq. iApply (IH with "Hs"); [done|].
    iIntros "Hs". iApply wp_ret. iApply "HQ". iApply (suffix_at_back with "He Hs").
Qed.

(** The sorted array: the same elements in an order that [fn] accepts. *)
Definition ordered (fn : K -> K -> Z) (l : list kvtree_elem) : Prop :=
  StronglySorted (fun x y => fn (key_at x) (key_at y) <= 0) l.

Lemma qsort_keyed fn l :
  consistent fn (map key_at (map n_elem l)) ->
  exists l', qsort (fun x y => fn x.1 y.1) (map keyed_at l) = map keyed_at l' /\
    Permutation l' l /\ ordered fn (map n_elem l').
Proof.
  intros [Hflip Htrans].
  assert (forall x, x ∈ map keyed_at l -> x.1 ∈ map key_at (map n_elem l)) as Hin.
  { intros x (n & -> & Hn)%list_elem_of_fmap_1. cbn. rewrite map_map.
    by apply (list_elem_of_fmap_2 (fun n => key_at (n_elem n))). }
  assert (consistent (fun x y : K * entry => fn x.1 y.1) (map keyed_at l)) as Hc.
  { split; [intros x y Hx Hy; apply Hflip; auto|].
    intros x y z Hx Hy Hz. unfold cmp_le. apply Htrans; auto. }
  destruct (Permutation_map_inv keyed_at l (qsort_perm _ _ Hc)) as (l' & E & HP).
  exists l'. split_and!; [done|by symmetry|]. pose proof (qsort_sorted _ _ Hc) as Hs. rewrite E in Hs.
  unfold ordered. clear -Hs. induction l' as [|n l' IH]; [constructor|]. cbn [List.map] in Hs |- *.
  apply StronglySorted_inv in Hs as [Hs Hn]. constructor; [by apply IH|].
  apply Forall_map. exact (proj1 (Forall_map _ _ _) Hn).
Qed.

Lemma wp_qsort_array fn l prev cur p count (Q : unit -> hProp) :
  reads_key -> keyed_nodes l -> count = Z.of_nat (length l) ->
  consistent fn (map key_at (map n_elem l)) ->
  suffix_at l prev cur -∗ array p (map entry_at l) -∗
  (∀ l', ⌜Permutation l' l /\ ordered fn (map n_elem l')⌝ → suffix_at l prev cur -∗
     array p (map entry_at l') -∗ Q tt) -∗
  wp (qsort_array key_of fn p count) Q.
Proof.
  iIntros (Hread Hl -> Hc) "Hs Ha HQ". unfold qsort_array.
  destruct (Z.leb_spec (Z.of_nat (length l)) 1) as [Hle|Hgt].
  - iApply wp_ret. iApply ("HQ" $! l with "[] Hs Ha"). iPureIntro. split; [done|].
    unfold ordered. destruct l as [|x [|y l]]; cbn in Hle; [constructor|repeat constructor|lia].
  - destruct p as [a|].
    2:{ iDestruct "Ha" as "%E". destruct l; [cbn in Hgt; lia|done]. }
    wp_seq. iApply wp_deref. wp_seq. iApply (wp_get_array with "Ha"). iIntros "Ha". wp_seq.
    iApply (wp_keyed with "Hs"); [done..|]. iIntros "Hs". iApply (wp_write with "Ha").
    destruct (qsort_keyed fn l Hc) as (l' & -> & HP). iIntros "Ha".
    rewrite -list_fmap_compose. iApply ("HQ" $! l' HP with "Hs Ha").
Qed.

(** *** Moving the elements *)
Definition has_addr : Prop := forall n, addr_of (entry_at n) = deref (Some (n_addr n)).

Lemma wp_move_loop index sorted done rest h p (Q : unit -> hProp) :
  has_addr -> (index <= length sorted)%nat -> Permutation rest (take index sorted) ->
  list_at h (done ++ rest) -∗ array p (map entry_at sorted) -∗
  (∀ l, ⌜map n_elem l = map n_elem (take index sorted ++ done)⌝ → list_at h l -∗
     array p (map entry_at sorted) -∗ Q tt) -∗
  wp (move_loop index p (Some h)) Q.
Proof.
  intros Haddr. revert done rest Q. induction index as [|i IH]; intros done rest Q Hi HP; iIntros "Hl Ha HQ".
  - symmetry in HP. apply Permutation_nil in HP as ->. rewrite app_nil_r. iApply wp_ret.
    by iApply ("HQ" with "[] Hl Ha").
  - destruct (lookup_lt_is_Some_2 sorted i) as [x Hx]; [lia|]. cbn [move_loop].
    rewrite (take_S_r _ _ _ Hx) in HP |- *.
    assert (x ∈ rest) as (r1 & r2 & ->)%list_elem_of_split.
    { rewrite HP elem_of_app. right. by left. }
    wp_seq. iApply (wp_array_load with "Ha"); [by rewrite list_lookup_fmap Hx|]. iIntros "Ha".
    wp_seq. rewrite Haddr. iApply wp_deref. wp_seq. destruct x as [e kp v]. cbn [n_addr].
    rewrite app_assoc. iApply (wp_remove_at with "Hl"). iIntros (prev next) "He Hl".
    wp_seq. iApply wp_deref. wp_seq. iDestruct "He" as "(%hp & He & Hx)".
    iApply (wp_insert_head_at _ _ e v hp with "[He Hx] Hl"); [by iExists kp, _, _; iFrame|].
    iIntros (kp') "Hl". rewrite -(app_assoc done) app_comm_cons. iApply (IH with "Hl Ha"); [lia| |].
    + apply (Permutation_cons_inv (a := Node e kp v)). by rewrite Permutation_middle HP Permutation_app_comm.
    + iIntros (l Hl) "Hl". iApply ("HQ" with "[%] Hl"). rewrite Hl -app_assoc. cbn.
      by rewrite !map_app.
Qed.

(** *** The functions *)
Definition keyed_elems (l : list kvtree_elem) : Prop := Forall (fun x => Kvtree.key x <> None) l.

Lemma keyed_nodes_elems l : keyed_elems (map n_elem l) <-> keyed_nodes l.
Proof. apply Forall_map. Qed.

(** Up to the filled array. *)
Lemma wp_filled {A} t p size (k : nat -> ptr -> code A) (Q : A -> hProp) :
  reads_entry -> keyed_elems (lh_first t) -> fits t size -> 1 <= size ->
  tree t p -∗
  (∀ l cur arr, ⌜map n_elem l = lh_first t⌝ → at_head p cur -∗ suffix_at l (HeadFirst p) cur -∗
     array arr (map entry_at l) -∗ wp (k (length l) arr) Q) -∗
  wp (do! arr := alloc_array (Z.of_nat (length (lh_first t))) size in
      do! elem := Heap.kvtree_elem_first (Some p) in
      do! index := with_fuel (fun fuel => fill_loop entry_of fuel elem arr 0) in
      k index arr) Q.
Proof.
  iIntros (Hread Hk [Hlen Hmal] Hsize) "Ht HQ". destruct t as [l0]. cbn [lh_first] in *.
  wp_seq. iApply wp_malloc_array; [lia..|]. iIntros (arr) "Ha". rewrite Nat2Z.id.
  rewrite tree_nodes. iDestruct "Ht" as "(%l & %El & Hl)". rewrite list_at_first.
  iDestruct "Hl" as "(%cur & Hp & Hs)". wp_seq. iApply (wp_first with "Hp"). iIntros "Hp". wp_seq.
  iCombine "Hp Ha HQ" as "H". rewrite -{1}El length_map. rewrite -El in Hk. apply keyed_nodes_elems in Hk. iRevert "H".
  iApply (wp_fuel_frame _ _ _ _ (length l) with "Hs"); [by apply blocks_exist; intros; apply nodes_blocks|].
  intros n Hn. iIntros "Hs (Hp & Ha & HQ)". iApply (wp_fill_loop n l [] with "Hs Ha"); [done..|].
  iIntros "Hs Ha". cbn [app]. rewrite length_map. by iApply ("HQ" with "[] Hp Hs").
Qed.

Lemma wp_sort_with fn t p (Q : Z -> hProp) :
  reads_entry -> reads_key -> has_addr -> keyed_elems (lh_first t) -> fits t 16 ->
  consistent fn (map key_at (lh_first t)) ->
  tree t p -∗
  (∀ l, ⌜Permutation l (lh_first t) /\ ordered fn l⌝ → tree (KVTree l) p -∗ Q KVTREE_SUCCESS) -∗
  wp (sort_with entry_of key_of fn (Some p)) Q.
Proof.
  iIntros (Hread Hkey Haddr Hk Hfits Hc) "Ht HQ". unfold sort_with. wp_seq.
  iApply (wp_kvtree_size with "Ht"). iIntros "Ht". rewrite size_spec; [|by destruct Hfits].
  iApply (wp_filled with "Ht"); [done..|]. iIntros (l cur arr El) "Hp Hs Ha". rewrite -El in Hk Hc |- *.
  rewrite length_map. wp_seq. iApply (wp_qsort_array with "Hs Ha"); [done|by apply keyed_nodes_elems|done..|].
  iIntros (l' [HP Ho]) "Hs Ha". wp_seq.
  iApply (wp_move_loop (length l) l' [] l with "[Hp Hs] Ha"); [done|by rewrite HP| | |].
  - rewrite take_ge; [done|by rewrite HP].
  - rewrite list_at_first. iExists cur. by iFrame.
  - iIntros (l2 El2) "Hl Ha". wp_seq. iApply (wp_free_array with "Ha"). iApply wp_ret.
    rewrite take_ge in El2; [|by rewrite HP]. rewrite app_nil_r in El2.
    iApply ("HQ" $! (map n_elem l2)); [|rewrite tree_nodes; iExists l2; by iFrame].
    iPureIntro. rewrite El2. split; [by rewrite HP|done].
Qed.
End entries.

Definition str_entry_at (n : node) : entry := StrEntry (n_key n) (Some (n_addr n)).
Definition int_entry_at (n : node) : entry := IntEntry (key_int (n_elem n)) (Some (n_addr n)).
Definition int_key_at (n : node) : entry := IntKey (key_int (n_elem n)).
Definition str_key (x : kvtree_elem) : cstring := default [] (Kvtree.key x).

Lemma str_reads_entry : reads_entry str_entry str_entry_at.
Proof.
  intros n prev next Q _. iIntros "(%hp & He & Hx) HQ". unfold str_entry. wp_seq.
  unfold Heap.kvtree_elem_key. wp_field "He". iApply wp_ret. iApply "HQ". iExists hp. iFrame.
Qed.

Lemma str_reads_key : reads_key str_of str_entry_at str_key.
Proof.
  intros n prev next Q Hn. iIntros "(%hp & He & Hk & Hx) HQ". cbn [str_of str_entry_at]. wp_seq.
  iApply (wp_get_string with "Hk"). iIntros "Hk". unfold str_key.
  destruct (Kvtree.key (n_elem n)) as [k|] eqn:E; [|done]. iApply wp_ret. iApply "HQ". iExists hp.
  rewrite E. iFrame.
Qed.

Lemma wp_key_int n prev next (Q : Z -> hProp) :
  Kvtree.key (n_elem n) <> None ->
  element_at tree (n_addr n) (n_key n) prev next (n_elem n) -∗
  (element_at tree (n_addr n) (n_key n) prev next (n_elem n) -∗ Q (key_int (n_elem n))) -∗
  wp (Heap.kvtree_elem_key_int (Some (n_addr n))) Q.
Proof.
  iIntros (Hn) "(%hp & He & Hk & Hx) HQ". cbn [Heap.kvtree_elem_key_int]. wp_seq. wp_field "He".
  wp_seq. iApply (wp_get_string with "Hk"). iIntros "Hk". unfold key_int.
  destruct (Kvtree.key (n_elem n)) as [k|] eqn:E; [|done]. iApply wp_ret. iApply "HQ". iExists hp.
  rewrite E. iFrame.
Qed.

Lemma int_reads_entry : reads_entry int_entry int_entry_at.
Proof.
  intros n prev next Q Hn. iIntros "He HQ". unfold int_entry. wp_seq. iApply (wp_key_int with "He"); [done|].
  iIntros "He". iApply wp_ret. by iApply "HQ".
Qed.

Lemma int_key_reads_entry : reads_entry int_key int_key_at.
Proof.
  intros n prev next Q Hn. iIntros "He HQ". unfold int_key. wp_seq. iApply (wp_key_int with "He"); [done|].
  iIntros "He". iApply wp_ret. by iApply "HQ".
Qed.

Lemma int_reads_key : reads_key int_of int_entry_at key_int.
Proof. intros n prev next Q _. iIntros "He HQ". iApply wp_ret. by iApply "HQ". Qed.

Lemma int_key_reads_key : reads_key int_of int_key_at key_int.
Proof. intros n prev next Q _. iIntros "He HQ". iApply wp_ret. by iApply "HQ". Qed.

Lemma wf_keyed t : wf t -> keyed_elems (lh_first t).
Proof.
  intros Hwf. apply list.Forall_forall. intros x Hx.
  destruct (key_of_wf t x Hwf Hx) as (k & -> & _). done.
Qed.

Lemma str_fn_consistent direction l : consistent (str_fn direction) l.
Proof.
  assert (consistent (fun a b => strcmp a b) l) as Ha.
  { split; unfold cmp_le; intros; [apply strcmp_flip|eauto using strcmp_trans]. }
  unfold str_fn. destruct (_ =? _); [|exact Ha].
  split; unfold cmp_le, kvtree_cmp_fn_str_desc; cbn; intros; [apply strcmp_flip|eauto using strcmp_trans].
Qed.

Lemma int_fn_consistent direction l : no_overflow l -> consistent (int_fn direction) l.
Proof.
  intros Hl. rewrite -(map_id l) in Hl.
  unfold int_fn. destruct (_ =? _); [by apply (int_desc_consistent id)|by apply (int_asc_consistent id)].
Qed.

(** The order of the strings of a tree is strict, so that there is one sorted list. *)
Lemma str_ordered_before t direction l :
  wf t -> Permutation l (lh_first t) -> ordered str_key (str_fn direction) l ->
  StronglySorted (key_before direction) l.
Proof.
  intros Hwf HP. destruct (wf_permutation t l Hwf HP) as [[Hn _]%wf_iff _].
  apply (StronglySorted_strict _ _ Kvtree.key); [|exact Hn]. intros x y Hx Hy Hne.
  rewrite HP in Hx. rewrite HP in Hy.
  destruct (strcmp_keys t x y Hwf Hx Hy Hne) as (kx & ky & Ex & Ey & Hxy & Hyx).
  unfold key_before, str_key, str_fn, kvtree_cmp_fn_str_desc, kvtree_cmp_fn_str_asc. rewrite Ex Ey.
  destruct (_ =? _); cbn; lia.
Qed.

Lemma key_before_unique direction l1 l2 :
  StronglySorted (key_before direction) l1 -> StronglySorted (key_before direction) l2 ->
  Permutation l1 l2 -> l1 = l2.
Proof.
  apply StronglySorted_unique_strong. intros x y _ _. unfold key_before.
  destruct (Kvtree.key x) as [kx|], (Kvtree.key y) as [ky|]; [|done..].
  pose proof (strcmp_flip kx ky). pose proof (strcmp_flip ky kx). destruct (_ =? _); lia.
Qed.

(** [kvtree_sort] leaves the tree that Sort computes. *)
Lemma wp_kvtree_sort t p direction (Q : Z -> hProp) :
  wf t -> fits t 16 ->
  tree t p -∗
  (∀ t', ⌜Sort.kvtree_sort (Some t) direction = Ok (Some t', KVTREE_SUCCESS)⌝ → tree t' p -∗
     Q KVTREE_SUCCESS) -∗
  wp (kvtree_sort (Some p) direction) Q.
Proof.
  iIntros (Hwf Hfits) "Ht HQ".
  iApply (wp_sort_with _ _ _ _ _ _ _ _ str_reads_entry str_reads_key with "Ht");
    [done|by apply wf_keyed|done|apply str_fn_consistent|].
  iIntros (l [HP Ho]) "Ht". iApply ("HQ" with "[] Ht"). iPureIntro.
  destruct (sort_spec t direction Hwf Hfits) as (l' & -> & HP' & Hs' & _).
  do 3 f_equal. f_equal. apply (key_before_unique direction); [done|by eapply str_ordered_before|by rewrite HP].
Qed.

Lemma int_ordered_before t direction l :
  no_overflow (map key_int (lh_first t)) -> Permutation l (lh_first t) ->
  ordered key_int (int_fn direction) l -> StronglySorted (int_before direction) l.
Proof.
  intros Hno HP. apply StronglySorted_in. intros x y Hx Hy Hle. rewrite HP in Hx. rewrite HP in Hy.
  apply (list_elem_of_fmap_2 key_int) in Hx, Hy. pose proof (Hno _ _ Hx Hy). pose proof (Hno _ _ Hy Hx).
  revert Hle. unfold int_before, int_fn, kvtree_cmp_fn_int_desc, kvtree_cmp_fn_int_asc.
  destruct (_ =? _); cbn [se_key]; rewrite i32_id; int_lia.
Qed.

(** [kvtree_sort_int]: the order of elements with the same integer is open. *)
Lemma wp_kvtree_sort_int t p direction (Q : Z -> hProp) :
  wf t -> fits t 16 -> no_overflow (map key_int (lh_first t)) ->
  tree t p -∗
  (∀ l, ⌜Permutation l (lh_first t) /\ StronglySorted (int_before direction) l⌝ →
     tree (KVTree l) p -∗ Q KVTREE_SUCCESS) -∗
  wp (kvtree_sort_int (Some p) direction) Q.
Proof.
  iIntros (Hwf Hfits Hno) "Ht HQ".
  iApply (wp_sort_with _ _ _ _ _ _ _ _ int_reads_entry int_reads_key with "Ht");
    [done|by apply wf_keyed|done|by apply int_fn_consistent|].
  iIntros (l [HP Ho]) "Ht". iApply ("HQ" with "[] Ht"). iPureIntro. split; [done|].
  by eapply int_ordered_before.
Qed.

(** [kvtree_list_int]: the caller owns the array; there is none for an empty tree. *)
Definition int_array (p : ptr) (v : list Z) : hProp :=
  match p with
  | Some l => l ↦ Array (map IntKey v)
  | None => <affine> ⌜v = []⌝
  end%I.

Lemma wp_kvtree_list_int t p (Q : Z * Z * ptr -> hProp) :
  wf t -> fits t 4 -> no_overflow (map key_int (lh_first t)) ->
  tree t p -∗
  (∀ arr v, ⌜Permutation v (map key_int (lh_first t)) /\ StronglySorted Z.le v⌝ → tree t p -∗
     int_array arr v -∗ Q (KVTREE_SUCCESS, Z.of_nat (length v), arr)) -∗
  wp (kvtree_list_int (Some p)) Q.
Proof.
  iIntros (Hwf Hfits Hno) "Ht HQ". unfold kvtree_list_int. wp_seq.
  iApply (wp_kvtree_size with "Ht"). iIntros "Ht". rewrite size_spec; [|by destruct Hfits].
  destruct (Z.eqb_spec (Z.of_nat (length (lh_first t))) 0) as [Hz|Hz].
  - iApply wp_ret. destruct t as [[|]]; [|cbn in Hz; lia].
    iApply ("HQ" $! None [] with "[] Ht"); [|done]. iPureIntro. split; [done|constructor].
  - iApply (wp_filled _ _ _ _ _ (fun count list =>
        do! _ := qsort_array int_of (int_fn KVTREE_SORT_ASCENDING) list (Z.of_nat count) in
        ret (KVTREE_SUCCESS, Z.of_nat count, list)) with "Ht");
      [exact int_key_reads_entry|by apply wf_keyed|done..|].
    iIntros (l cur arr El) "Hp Hs Ha". wp_seq.
    iApply (wp_qsort_array _ _ _ (int_fn KVTREE_SORT_ASCENDING) with "Hs Ha");
      [exact int_key_reads_key|by apply keyed_nodes_elems; rewrite El; apply wf_keyed|done
      |by apply int_fn_consistent; rewrite El|].
    iIntros (l' [HP Ho]) "Hs Ha". iApply wp_ret.
    replace (length l) with (length (map key_int (map n_elem l'))); [|by rewrite !length_map HP].
    apply (Permutation_map n_elem) in HP. rewrite El in HP.
    iApply ("HQ" $! arr (map key_int (map n_elem l')) with "[%] [Hp Hs] [Ha]").
    + split; [by rewrite HP|]. apply (StronglySorted_Forall2 _ (int_before KVTREE_SORT_ASCENDING)
        (fun k x => k = key_int x) _ (map n_elem l')).
      * intros x y x' y' -> -> Hle. exact Hle.
      * apply Forall2_fmap_l, Forall_Forall2_diag, Forall_true. done.
      * eapply int_ordered_before; [exact Hno|done|done].
    + destruct t as [l0]. rewrite tree_nodes. iExists l. iSplitR; [done|]. rewrite list_at_first.
      iExists cur. iFrame.
    + rewrite map_map. destruct arr; cbn [int_array array]; [by rewrite map_map|].
      iDestruct "Ha" as %E. by destruct l'.
Qed.


(** C21. Sorting a tree in memory by its keys succeeds and follows no pointer that does not
    belong to the tree: the memory then has a tree at the same address, with the same
    elements in strictly increasing order of the key strings (strictly decreasing with
    KVTREE_SORT_DESCENDING), the one that the sort of Sort computes, and beside it what
    was there before: the array is freed and nothing else has changed. *)
Theorem sort_on_memory t p (R : hProp) m direction :
  wf t -> fits t 16 -> holds (tree t p ∗ R) m ->
  exists l m', kvtree_sort (Some p) direction m = Ok (KVTREE_SUCCESS, m') /\
    holds (tree (KVTree l) p ∗ R) m' /\
    Permutation l (lh_first t) /\ StronglySorted (key_before direction) l /\
    Sort.kvtree_sort (Some t) direction = Ok (Some (KVTree l), KVTREE_SUCCESS).
Proof.
  intros Hwf Hfits Hm. destruct (sort_spec t direction Hwf Hfits) as (l & E & HP & Hs & _). exists l.
  destruct (wp_adequate (tree t p ∗ R)%I (kvtree_sort (Some p) direction)
    (fun rc => <affine> ⌜rc = KVTREE_SUCCESS⌝ ∗ tree (KVTree l) p ∗ R)%I m) as (rc & m' & Er & H'); [|done|].
  - iIntros "[Ht HR]". iApply (wp_kvtree_sort with "Ht"); [done..|]. iIntros (t') "%E' Ht".
    rewrite E in E'. injection E' as <-. by iFrame.
  - apply holds_affine in H' as [-> H']. by exists m'.
Qed.

(** The same for integer keys, whose order leaves equal keys open. *)
Theorem sort_int_on_memory t p (R : hProp) m direction :
  wf t -> fits t 16 -> no_overflow (map key_int (lh_first t)) -> holds (tree t p ∗ R) m ->
  exists l m', kvtree_sort_int (Some p) direction m = Ok (KVTREE_SUCCESS, m') /\
    holds (tree (KVTree l) p ∗ R) m' /\
    Permutation l (lh_first t) /\ StronglySorted (int_before direction) l.
Proof.
  intros Hwf Hfits Hno Hm.
  destruct (wp_adequate (tree t p ∗ R)%I (kvtree_sort_int (Some p) direction)
    (fun rc => ∃ l, <affine> ⌜rc = KVTREE_SUCCESS /\ Permutation l (lh_first t) /\
                              StronglySorted (int_before direction) l⌝ ∗ tree (KVTree l) p ∗ R)%I m)
    as (rc & m' & Er & l & H'); [|done|].
  - iIntros "[Ht HR]". iApply (wp_kvtree_sort_int with "Ht"); [done..|]. iIntros (l [HP Hs]) "Ht".
    iExists l. by iFrame.
  - apply holds_affine in H' as [(-> & HP & Hs) H']. by exists l, m'.
Qed.

(** [kvtree_list_int] leaves the tree and an array with the keys, which is the caller's. *)
Theorem list_int_on_memory t p (R : hProp) m :
  wf t -> fits t 4 -> no_overflow (map key_int (lh_first t)) -> holds (tree t p ∗ R) m ->
  exists arr v m', kvtree_list_int (Some p) m = Ok ((KVTREE_SUCCESS, Z.of_nat (length v), arr), m') /\
    holds (tree t p ∗ int_array arr v ∗ R) m' /\
    Permutation v (map key_int (lh_first t)) /\ StronglySorted Z.le v.
Proof.
  intros Hwf Hfits Hno Hm.
  destruct (wp_adequate (tree t p ∗ R)%I (kvtree_list_int (Some p))
    (fun r => ∃ arr v, <affine> ⌜r = (KVTREE_SUCCESS, Z.of_nat (length v), arr) /\
        Permutation v (map key_int (lh_first t)) /\ StronglySorted Z.le v⌝ ∗
      tree t p ∗ int_array arr v ∗ R)%I m) as (r & m' & Er & arr & v & H'); [|done|].
  - iIntros "[Ht HR]". iApply (wp_kvtree_list_int with "Ht"); [done..|]. iIntros (arr v [HP Hs]) "Ht Ha".
    iExists arr, v. by iFrame.
  - apply holds_affine in H' as [(-> & HP & Hs) H']. by exists arr, v, m'.
Qed.
End triples.

(** ** An example: keys "b" and "a", beside a block of somebody else *)
Section examples.
#[local] Existing Instance host_le.
#[local] Existing Instance InsertionSort.qsort_insertion.

Definition sort_elems : list kvtree_elem :=
  [Elem (Some (str "b")) None; Elem (Some (str "a")) None].

Definition sort_memory : memory :=
  <[1%positive := Head (Some (Some 2%positive))]> $
  <[2%positive := Element (Fields (Some (Some 3%positive)) (Some None) (Some (Some 4%positive)) (Some (HeadFirst 1)))]> $
  <[3%positive := String (str "b")]> $
  <[4%positive := Element (Fields (Some (Some 5%positive)) (Some None) (Some None) (Some (ElemNext 2)))]> $
  <[5%positive := String (str "a")]> $ <[6%positive := Bytes []]> ∅.

Lemma leaf e k s prev next :
  e ↦ Element (Fields (Some (Some k)) (Some None) (Some next) (Some prev)) -∗ k ↦ String s -∗
  element tree e prev next (Elem (Some s) None).
Proof. iIntros "He Hk". iExists (Some k), None. cbn. by iFrame. Qed.

Lemma sort_memory_tree : holds (tree (KVTree sort_elems) 1 ∗ 6%positive ↦ Bytes []) sort_memory.
Proof.
  enough (([∗ map] l ↦ b ∈ sort_memory, l ↦ b) ⊢ tree (KVTree sort_elems) 1 ∗ 6%positive ↦ Bytes []) as [E].
  { apply E, store_points_to. }
  unfold sort_memory. rewrite !big_sepM_insert //. iIntros "(H1 & H2 & H3 & H4 & H5 & H6 & _)".
  iFrame "H6". iExists (Some 2%positive), (ElemNext 4). iFrame "H1".
  iExists 2%positive, (Some 4%positive). iSplitR; [done|]. iSplitL "H2 H3"; [iApply (leaf with "H2 H3")|].
  iExists 4%positive, None. iSplitR; [done|]. iSplitL "H4 H5"; [iApply (leaf with "H4 H5")|]. done.
Qed.

Lemma sort_on_memory_witness :
  (exists m', kvtree_sort (Some 1%positive) KVTREE_SORT_ASCENDING sort_memory = Ok (KVTREE_SUCCESS, m')) /\
  exists l m', kvtree_sort (Some 1%positive) KVTREE_SORT_ASCENDING sort_memory = Ok (KVTREE_SUCCESS, m') /\
    holds (tree (KVTree l) 1 ∗ 6%positive ↦ Bytes []) m' /\
    Permutation l (lh_first (KVTree sort_elems)) /\ StronglySorted (key_before KVTREE_SORT_ASCENDING) l /\
    Sort.kvtree_sort (Some (KVTree sort_elems)) KVTREE_SORT_ASCENDING
      = Ok (Some (KVTree l), KVTREE_SUCCESS).
Proof.
  split; [eexists; vm_compute; reflexivity|].
  apply sort_on_memory; [wf_check| |exact sort_memory_tree].
  split; vm_compute; discriminate.
Defined.
End examples.
