(* ===== verification/FilePrograms.v ===== *)
(** Programs that also keep their trees in files: what such a program leaves in memory.

    A program makes the calls of HeapPrograms, and reads files into its hashes and
    writes its hashes to files (HeapFile).  [run_files] executes it on memory and a
    system (Io), [run_files_trees] on trees and a system (Persist).  The system may
    interrupt, shorten or fail every call.  The files may be missing or damaged in a way
    that [kvtree_read_fd] notices ([sound_file] of Persist); [header_only_overruns] shows
    what happens with others. *)

From iris.proofmode Require Import proofmode.
From S2P Require Import Prelude CLib ByteOrder SepLogic Memory Heap Kvtree KvtreeSpec KvtreeMap Pack Io Persist HeapSpec HeapOps HeapFile HeapPrograms.

Inductive file_command :=
| Call (c : command)
| WriteFile (x : var) (path : list cstring) (file : option cstring)  (* kvtree_write_file(file, x..) *)
| ReadFile (x : var) (path : list cstring) (file : option cstring).  (* kvtree_read_file(file, x..) *)

Section run.
Context `{Host} `{Zlib} {alloc : Allocator}.

(** ** On memory *)
Definition exec_file (c : file_command) (vars : list ptr) : syscode (list ptr * list answer) :=
  match c with
  | Call c => in_memory (exec c vars)
  | WriteFile x path file =>
      mem* h := walk (value vars x) path in
      both* rc := HeapFile.kvtree_write_file file h in
      sys_ret (vars, [Number rc])
  | ReadFile x path file =>
      mem* h := walk (value vars x) path in
      both* rc := HeapFile.kvtree_read_file file h in
      sys_ret (vars, [Number rc])
  end.

Fixpoint run_files (cs : list file_command) (vars : list ptr) : syscode (list ptr * list answer) :=
  match cs with
  | [] => sys_ret (vars, [])
  | c :: cs =>
      both* (vars, out) := exec_file c vars in
      both* (vars, outs) := run_files cs vars in
      sys_ret (vars, out ++ outs)
  end.

(** ** On trees *)

(** A program stops to be one we speak about when it breaks a rule: those of
    HeapPrograms, or that a hash it writes fits in a file.  It goes wrong when a call is
    undefined. *)
Inductive file_run :=
| Runs (vars : trees) (out : list answer) (s : os)
| Stops
| Wrong.

Definition fitsb (t : kvtree) : bool :=
  small t && (Z.of_nat (Persist.kvtree_persist_size (Some t)) <=? malloc_max).

Definition exec_file_trees (c : file_command) (vars : trees) (s : os) : file_run :=
  match c with
  | Call c =>
      match exec_trees c vars with
      | Some (vars, out) => Runs vars out s
      | None => Stops
      end
  | WriteFile x path file =>
      match hash_of x path vars with
      | Some c =>
          if fitsb c then
            match Persist.kvtree_write_file file (Some c) s with
            | Ok (rc, s) => Runs vars [Number rc] s
            | _ => Wrong
            end
          else Stops
      | None => Stops
      end
  | ReadFile x path file =>
      match hash_of x path vars with
      | Some c =>
          match Persist.kvtree_read_file file (Some c) s with
          | Ok ((rc, Some c), s) => Runs (put x path c vars) [Number rc] s
          | _ => Wrong
          end
      | None => Stops
      end
  end.

Fixpoint run_files_trees (cs : list file_command) (vars : trees) (s : os) : file_run :=
  match cs with
  | [] => Runs vars [] s
  | c :: cs =>
      match exec_file_trees c vars s with
      | Runs vars out s =>
          match run_files_trees cs vars s with
          | Runs vars outs s => Runs vars (out ++ outs) s
          | r => r
          end
      | r => r
      end
  end.

(** ** The commands *)
Lemma wp_exec_file c vars vars' out s s' ptrs (Q : (list ptr * list answer) * os -> hProp) :
  exec_file_trees c vars s = Runs vars' out s' ->
  forest vars ptrs -∗ (∀ ptrs', forest vars' ptrs' -∗ Q ((ptrs', out), s')) -∗
  wp (exec_file c ptrs s) Q.
Proof.
  destruct c as [c|x path file|x path file]; cbn [exec_file exec_file_trees]; intros E.
  - destruct (exec_trees c vars) as [[vs o]|] eqn:Ec; [|done]. injection E as <- <- <-.
    iIntros "H HQ". unfold in_memory. wp_seq. iApply (command_correct with "H"); [done|].
    iIntros (ptrs') "H". iApply wp_ret. by iApply "HQ".
  - destruct (hash_of x path vars) as [c|] eqn:Eh; [|done]. destruct (fitsb c); [|done].
    destruct (Persist.kvtree_write_file file (Some c) s) as [[rc s1]| | |] eqn:Ew; [|done..].
    injection E as <- <- <-. iIntros "H HQ". iApply wp_in_memory.
    iApply (wp_walk_put with "H"); [done|]. iIntros (q) "Hc Hback". iApply wp_both.
    iApply (wp_kvtree_write_file _ (Some c) (Some q) with "Hc"); [done|]. iIntros "Hc".
    iApply wp_sys_ret. iApply "HQ". iSpecialize ("Hback" with "Hc"). by rewrite put_same.
  - destruct (hash_of x path vars) as [c|] eqn:Eh; [|done].
    destruct (Persist.kvtree_read_file file (Some c) s) as [[[rc [c'|]] s1]| | |] eqn:Er; [|done..].
    injection E as <- <- <-. iIntros "H HQ". iApply wp_in_memory.
    iApply (wp_walk_put with "H"); [done|]. iIntros (q) "Hc Hback". iApply wp_both.
    iApply (wp_kvtree_read_file with "Hc"); [done|]. iIntros (t' [= <-]) "Hc".
    iApply wp_sys_ret. iApply "HQ". by iApply "Hback".
Qed.

Lemma wp_run_files cs vars vars' out s s' ptrs (Q : (list ptr * list answer) * os -> hProp) :
  run_files_trees cs vars s = Runs vars' out s' ->
  forest vars ptrs -∗ (∀ ptrs', forest vars' ptrs' -∗ Q ((ptrs', out), s')) -∗
  wp (run_files cs ptrs s) Q.
Proof.
  revert vars out s ptrs Q. induction cs as [|c cs IH]; intros vars out s ptrs Q; cbn [run_files run_files_trees].
  - intros [= -> <- ->]. iIntros "H HQ". iApply wp_sys_ret. by iApply "HQ".
  - destruct (exec_file_trees c vars s) as [vars1 out1 s1| |] eqn:Ec; [|done..].
    destruct (run_files_trees cs vars1 s1) as [vars2 out2 s2| |] eqn:Er; [|done..]. intros [= -> <- ->].
    iIntros "H HQ". iApply wp_both. iApply (wp_exec_file with "H"); [done|]. iIntros (ptrs1) "H".
    cbn [fst snd]. iApply wp_both. iApply (IH with "H"); [done|]. iIntros (ptrs2) "H".
    iApply wp_sys_ret. by iApply "HQ".
Qed.

(** ** Nothing goes wrong *)
Lemma fitsb_fits t : fitsb t = true -> fits t.
Proof. unfold fitsb, fits. intros [Hs Hm]%andb_prop. split; [done|lia]. Qed.

Lemma exec_file_trees_runs c vars s :
  os_ok s -> sound_files s -> exec_file_trees c vars s <> Stops ->
  exists vars' out s', exec_file_trees c vars s = Runs vars' out s' /\ os_ok s' /\ sound_files s'.
Proof.
  intros Hok Hs Hn. destruct c as [c|x path file|x path file]; cbn [exec_file_trees] in *.
  - destruct (exec_trees c vars) as [[vs o]|]; [|done]. by do 3 eexists.
  - destruct (hash_of x path vars) as [c|]; [|done]. destruct (fitsb c) eqn:Ef; [|done].
    destruct (write_file_sound file c s Hok Hs (fitsb_fits c Ef)) as (rc & s' & -> & Hok' & Hs').
    by do 3 eexists.
  - destruct (hash_of x path vars) as [c|]; [|done].
    destruct (read_file_sound file c s Hok Hs) as (rc & h & s' & -> & Hok' & Hf).
    do 3 eexists. split; [done|]. unfold sound_files. by rewrite Hf.
Qed.

Lemma run_files_trees_runs cs vars s :
  os_ok s -> sound_files s -> run_files_trees cs vars s <> Stops ->
  exists vars' out s', run_files_trees cs vars s = Runs vars' out s' /\ os_ok s' /\ sound_files s'.
Proof.
  revert vars s. induction cs as [|c cs IH]; intros vars s Hok Hs Hn; cbn [run_files_trees] in *;
    [by do 3 eexists|].
  destruct (exec_file_trees_runs c vars s Hok Hs) as (vars1 & out1 & s1 & E1 & Hok1 & Hs1).
  { intros E. by rewrite E in Hn. }
  rewrite E1 in Hn |- *.
  destruct (IH vars1 s1 Hok1 Hs1) as (vars2 & out2 & s2 & E2 & Hok2 & Hs2).
  { intros E. by rewrite E in Hn. }
  rewrite E2. by do 3 eexists.
Qed.

(** ** Whole programs *)
Lemma exec_file_trees_length c vars s vars' out s' :
  exec_file_trees c vars s = Runs vars' out s' -> length vars' = length vars.
Proof.
  destruct c as [c|x path file|x path file]; cbn; intros E; repeat case_match; simplify_eq;
    [by eapply exec_trees_length|done|apply put_length].
Qed.

Lemma run_files_trees_length cs vars s vars' out s' :
  run_files_trees cs vars s = Runs vars' out s' -> length vars' = length vars.
Proof.
  revert vars s out. induction cs as [|c cs IH]; intros vars s out; cbn; [by intros [= -> _ _]|].
  destruct (exec_file_trees c vars s) as [vars1 out1 s1| |] eqn:Ec; [|done..].
  destruct (run_files_trees cs vars1 s1) as [vars2 out2 s2| |] eqn:Er; [|done..]. intros [= -> _ ->].
  by rewrite (IH _ _ _ Er) (exec_file_trees_length _ _ _ _ _ _ Ec).
Qed.

Lemma run_files_trees_app cs cs' vars s :
  run_files_trees (cs ++ cs') vars s =
  match run_files_trees cs vars s with
  | Runs vars out s =>
      match run_files_trees cs' vars s with
      | Runs vars out' s => Runs vars (out ++ out') s
      | r => r
      end
  | r => r
  end.
Proof.
  revert vars s. induction cs as [|c cs IH]; intros vars s; cbn.
  - by destruct (run_files_trees cs' vars s).
  - destruct (exec_file_trees c vars s) as [vars1 out1 s1| |]; [|done..]. rewrite IH.
    destruct (run_files_trees cs vars1 s1) as [vars2 out2 s2| |]; [|done..].
    destruct (run_files_trees cs' vars2 s2) as [vars3 out3 s3| |]; [|done..]. by rewrite app_assoc.
Qed.

(** A program without files is a program of HeapPrograms. *)
Lemma run_files_trees_calls cs vars s :
  run_files_trees (Call <$> cs) vars s =
  match run_trees cs vars with Some (vars, out) => Runs vars out s | None => Stops end.
Proof.
  revert vars. induction cs as [|c cs IH]; intros vars; cbn; [done|].
  destruct (exec_trees c vars) as [[vars1 out1]|]; cbn; [|done]. rewrite IH.
  by destruct (run_trees cs vars1) as [[vars2 out2]|].
Qed.

(** A program of which no call is undefined, whatever the files hold. *)
Lemma run_files_on_memory n cs s vars out s' :
  run_files_trees cs (no_trees n) s = Runs vars out s' ->
  exists ptrs m, run_files cs (no_ptrs n) s ∅ = Ok (((ptrs, out), s'), m) /\ holds (forest vars ptrs) m.
Proof.
  intros E. destruct (wp_adequate (forest (no_trees n) (no_ptrs n)) (run_files cs (no_ptrs n) s)
    (fun r => <affine> ⌜r.1.2 = out /\ r.2 = s'⌝ ∗ forest vars r.1.1)%I ∅) as ([[ptrs out'] s2] & m & Er & H').
  - iIntros "H". iApply (wp_run_files with "H"); [done|]. iIntros (ptrs) "H". by iFrame.
  - apply forest_none.
  - assert (<affine> ⌜out' = out /\ s2 = s'⌝ ∗ forest vars ptrs ⊢ ⌜out' = out /\ s2 = s'⌝ ∧ forest vars ptrs) as [Hs].
    { iIntros "[%E2 H]". by iSplit. }
    apply Hs in H' as [[Eo Es] H']. change (out' = out) in Eo. change (s2 = s') in Es. subst.
    by exists ptrs, m.
Qed.

Lemma run_files_delete_all n cs s vars out s' :
  run_files_trees cs (no_trees n) s = Runs vars out s' ->
  run_files (cs ++ (Call <$> delete_all n)) (no_ptrs n) s ∅ = Ok (((no_ptrs n, out), s'), ∅).
Proof.
  intros E.
  destruct (run_files_on_memory n (cs ++ (Call <$> delete_all n)) s (no_trees n) out s')
    as (ptrs & m & Er & H').
  - rewrite run_files_trees_app E run_files_trees_calls. apply run_files_trees_length in E.
    assert (length vars = n) as <- by (by rewrite E length_replicate).
    unfold delete_all. pose proof (run_delete_all 0 vars) as Ed. cbn in Ed. rewrite Ed.
    by rewrite app_nil_r.
  - by apply forest_all_none in H' as [-> ->].
Qed.

(** C5. A program that keeps trees in files, run on memory and on any system.  Its files
    are missing, or short, or damaged in the header or where the crc32 shows it, or hold
    a packed hash (and no header that passes the checks promises more bytes than can be
    allocated), and the hashes it writes fit in a file.  Then none of its calls is
    undefined: it accesses no block that is not allocated, makes the same calls to the
    system and gets the same answers as on trees, its files stay as described, and it
    loses no block: after it has deleted its trees no block is left, even when reading a
    damaged file failed half way or a write was cut short. *)
Theorem file_programs_leak_nothing n cs s :
  os_ok s -> sound_files s -> run_files_trees cs (no_trees n) s <> Stops ->
  exists vars out s',
    run_files_trees cs (no_trees n) s = Runs vars out s' /\ sound_files s' /\
    (exists ptrs m, run_files cs (no_ptrs n) s ∅ = Ok (((ptrs, out), s'), m) /\
                    holds (forest vars ptrs) m) /\
    run_files (cs ++ (Call <$> delete_all n)) (no_ptrs n) s ∅ = Ok (((no_ptrs n, out), s'), ∅).
Proof.
  intros Hok Hs Hn. destruct (run_files_trees_runs cs _ s Hok Hs Hn) as (vars & out & s' & E & _ & Hs').
  exists vars, out, s'. split; [done|]. split; [done|].
  split; [by apply run_files_on_memory|by eapply run_files_delete_all].
Qed.
End run.

(** ** An example

    Hash 0 is saved and read into hash 1; then the program reads a file whose header
    promises more bytes than there are.  The system interrupts, shortens and fails
    some of the calls. *)
Definition sample_file_program : list file_command :=
  [ Call (New 0); Call (SetKv 0 [] (name x41) (name x61)); Call (SetKv 0 [] (name x41) (name x62));
    WriteFile 0 [name x41] (Some (str "f"));
    Call (New 1); Call (SetKv 1 [] (name x61) (name x63)); ReadFile 1 [] (Some (str "f"));
    Call (Size 1 []); ReadFile 1 [] (Some (str "g")); WriteFile 1 [] None; ReadFile 0 [] (Some (str "f")) ].

Definition cut_file : list byte := header_bytes 30 0 ++ str "ab".

Definition sample_system : os :=
  Os {[str "g" := cut_file]} {[str "g" := 384]} ∅ ∅ 3 18
     [Full; Short 3; Fails EINTR; Full; Full; Full; Full; Full; Short 7; Fails EAGAIN] EOTHER.

Definition sample_answers : list answer := [Number 0; Number 0; Number 2; Number 1; Number 1; Number 0].

Lemma sample_system_ok : os_ok sample_system.
Proof.
  split; [by vm_compute|]. intros k _. apply lookup_empty.
Qed.

Lemma sample_files_sound : @sound_files host_le zlib_sum sample_system.
Proof.
  apply map_Forall_singleton. right. right. split; [by vm_compute|]. left. by vm_compute.
Qed.

Lemma sample_file_program_runs :
  exists vars s',
    @run_files_trees host_le zlib_sum sample_file_program (no_trees 2) sample_system
      = Runs vars sample_answers s'.
Proof. do 2 eexists. vm_compute. reflexivity. Qed.

Lemma file_programs_leak_nothing_witness :
  exists vars s',
    @run_files_trees host_le zlib_sum sample_file_program (no_trees 2) sample_system
      = Runs vars sample_answers s' /\ @sound_files host_le zlib_sum s' /\
    (exists ptrs m,
       @run_files host_le zlib_sum _ sample_file_program (no_ptrs 2) sample_system ∅
         = Ok (((ptrs, sample_answers), s'), m) /\ holds (forest vars ptrs) m) /\
    @run_files host_le zlib_sum _ (sample_file_program ++ (Call <$> delete_all 2)) (no_ptrs 2)
      sample_system ∅ = Ok (((no_ptrs 2, sample_answers), s'), ∅).
Proof.
  destruct sample_file_program_runs as (vars & s' & E).
  destruct (@file_programs_leak_nothing host_le zlib_sum _ 2 sample_file_program sample_system
              sample_system_ok sample_files_sound) as (vars' & out & s2 & E' & Hs & H).
  - intros E2. rewrite E2 in E. discriminate.
  - rewrite E in E'. injection E' as <- <- <-. exists vars, s'.
    split; [exact E|]. split; [exact Hs|exact H].
Defined.

(** ** A file that is not sound

    A header without anything behind it, that says so and asks for no crc32 check,
    passes the checks of [kvtree_read_fd], and [kvtree_unpack], which does not know the
    size of its buffer, reads behind it. *)
Definition header_only : list byte := header_bytes 20 0.

Definition header_only_system : os := Os {[str "h" := header_only]} {[str "h" := 384]} ∅ ∅ 3 18 [] EOTHER.

Example header_only_overruns :
  @Persist.kvtree_read_file host_le zlib_sum (Some (str "h")) (Some Kvtree.kvtree_new) header_only_system
    = Undef /\
  @run_files host_le zlib_sum _ [Call (New 0); ReadFile 0 [] (Some (str "h"))] (no_ptrs 1)
    header_only_system ∅ = Undef.
Proof. split; vm_compute; reflexivity. Qed.
