(* ===== verification/QueueSpec.v ===== *)
(** The singly linked lists, tail queues, simple queues and circular queues of
    [src/src/queue.h]: what their macros promise, and that programs which use them
    compute with lists.

    kvtrees use the [LIST_*] macros (Queue, Heap); the header has five more sets of
    macros.  [Macros] is the interface of such a set, [Correct] what it promises: for
    each macro the specification in terms of the list of elements.  QueueSingle,
    QueueTail and QueueCircle define the macros and keep the promises; the theorem here
    is proved against the interface. *)

From iris.proofmode Require Import proofmode.
From S2P Require Import Prelude SepLogic.

Notation addr := positive.

(** The pointer variables: the fields of a head and those of an element.  Their names
    in the source have a prefix of their own in each set ([slh_first], [stqh_first],
    [sqh_first], [tqh_first], [cqh_first]). *)
Inductive place := First (head : addr) | Last (head : addr) | Next (elm : addr) | Prev (elm : addr).

(** What is stored in them: a [struct type*], the address of a [struct type*], or the
    address of a head as [void*]; [Junk] before the first assignment. *)
Inductive word := Elm (p : option addr) | PlaceAt (c : place) | HeadAt (head : addr) | Junk.

#[export] Instance place_eq_dec : EqDecision place.
Proof. solve_decision. Defined.

#[export] Instance place_countable : Countable place.
Proof.
  refine (inj_countable'
    (fun c => match c with First a => (0%nat, a) | Last a => (1%nat, a) | Next e => (2%nat, e) | Prev e => (3%nat, e) end)
    (fun x => match x.1 with 0%nat => First x.2 | 1%nat => Last x.2 | 2%nat => Next x.2 | _ => Prev x.2 end) _).
  by intros [].
Defined.

Notation store := (gmap place word).
Notation code := (code_on place word).
Notation hProp := (hprop place word).

Definition get_elm (c : place) : code (option addr) :=
  do! w := read c in
  match w with Elm p => ret p | _ => undefined end.

Definition get_place (c : place) : code place :=
  do! w := read c in
  match w with PlaceAt c => ret c | _ => undefined end.

(** [p->field]: the element [p] points to. *)
Definition elm_of (p : option addr) : code addr :=
  match p with Some e => ret e | None => undefined end.

(** ** Loops *)

(** [for (var = ...; var; var = next(var))], collecting the elements it visits. *)
Fixpoint visit (next : addr -> code (option addr)) (fuel : nat) (var : option addr)
    : code (list addr) :=
  match var with
  | None => ret []
  | Some e =>
      match fuel with
      | O => no_fuel
      | S fuel =>
          do! var := next e in
          do! rest := visit next fuel var in
          ret (e :: rest)
      end
  end.

Definition for_each (first : code (option addr)) (next : addr -> code (option addr))
    : code (list addr) :=
  do! var := first in
  with_fuel (fun fuel => visit next fuel var).

(** [while (curelm->next != elm) curelm = curelm->next] *)
Fixpoint find_before (elm : addr) (fuel : nat) (curelm : option addr) : code addr :=
  do! cur := elm_of curelm in
  do! next := get_elm (Next cur) in
  if decide (next = Some elm) then ret cur
  else
    match fuel with
    | O => no_fuel
    | S fuel => find_before elm fuel next
    end.

(** ** Operations on lists *)
Inductive op :=
| InsertHead (elm : addr)
| InsertTail (elm : addr)
| InsertAfter (listelm elm : addr)
| InsertBefore (listelm elm : addr)
| RemoveHead
| Remove (elm : addr).

Inductive query :=
| IsEmpty | AskFirst | AskLast
| AskNext (elm : addr) | AskPrev (elm : addr)
| LoopNext (elm : addr) | LoopPrev (elm : addr)      (* from the last on to the first, and back *)
| Foreach | ForeachReverse.

Inductive answer := Truth (b : bool) | Found (p : option addr) | Visited (l : list addr).

Fixpoint split_at (x : addr) (l : list addr) : option (list addr * list addr) :=
  match l with
  | [] => None
  | y :: l =>
      if decide (y = x) then Some ([], l)
      else (fun '(l1, l2) => (y :: l1, l2)) <$> split_at x l
  end.

Lemma split_at_spec x l l1 l2 : split_at x l = Some (l1, l2) -> l = l1 ++ x :: l2 /\ x ∉ l1.
Proof.
  revert l1. induction l as [|y l IH]; intros l1; cbn; [done|]. case_decide as Hy.
  - intros [= <- <-]. subst. split; [done|apply not_elem_of_nil].
  - destruct (split_at x l) as [[k1 k2]|]; [|done]. intros [= <- ->].
    destruct (IH k1 eq_refl) as [-> Hk]. split; [done|]. apply not_elem_of_cons. by split; [intros ->|].
Qed.

Definition apply (o : op) (l : list addr) : option (list addr) :=
  match o with
  | InsertHead e => Some (e :: l)
  | InsertTail e => Some (l ++ [e])
  | InsertAfter x e => (fun '(l1, l2) => l1 ++ x :: e :: l2) <$> split_at x l
  | InsertBefore x e => (fun '(l1, l2) => l1 ++ e :: x :: l2) <$> split_at x l
  | RemoveHead => match l with [] => None | _ :: l => Some l end
  | Remove e => (fun '(l1, l2) => l1 ++ l2) <$> split_at e l
  end.

(** The element that gets into the list, and the one that gets out. *)
Definition goes_in (o : op) : option addr :=
  match o with
  | InsertHead e | InsertTail e | InsertAfter _ e | InsertBefore _ e => Some e
  | RemoveHead | Remove _ => None
  end.

Definition gets_out (o : op) (l : list addr) : option addr :=
  match o with
  | RemoveHead => head l
  | Remove e => Some e
  | _ => None
  end.

Definition consult (q : query) (l : list addr) : option answer :=
  match q with
  | IsEmpty => Some (Truth (match l with [] => true | _ => false end))
  | AskFirst => Some (Found (head l))
  | AskLast => Some (Found (list.last l))
  | AskNext x => (fun '(l1, l2) => Found (head l2)) <$> split_at x l
  | AskPrev x => (fun '(l1, l2) => Found (list.last l1)) <$> split_at x l
  | LoopNext x => (fun '(l1, l2) => Found (head (l2 ++ l))) <$> split_at x l
  | LoopPrev x => (fun '(l1, l2) => Found (list.last (l ++ l1))) <$> split_at x l
  | Foreach => Some (Visited l)
  | ForeachReverse => Some (Visited (reverse l))
  end.

(** ** The interface *)

(** A set of macros: the fields of its heads and elements, what a head declared with
    [..._HEAD_INITIALIZER] has in them, and the macros; [None] is a macro the set does
    not have. *)
Class Macros := {
  has_last : bool;
  has_prev : bool;
  initializer : addr -> list (place * word);
  init : addr -> code unit;
  change : op -> option (addr -> code unit);
  look : query -> option (addr -> code answer)
}.

(** The answer of a macro that returns a value. *)
Definition answers {A} (f : A -> answer) (c : code A) : code answer := do! a := c in ret (f a).

Definition head_fields `{Macros} (a : addr) : list place := First a :: (if has_last then [Last a] else []).
Definition elem_fields `{Macros} (e : addr) : list place := Next e :: (if has_prev then [Prev e] else []).

(** Fields with any contents. *)
Definition any (c : place) : hProp := (∃ w, c ↦ w)%I.
Definition blank `{Macros} (a : addr) : hProp := ([∗ list] c ∈ head_fields a, any c)%I.
Definition unlinked `{Macros} (e : option addr) : hProp :=
  match e with Some e => [∗ list] c ∈ elem_fields e, any c | None => emp end%I.

(** [rep a l]: the head [a] has the elements [l]. *)
Class Correct (M : Macros) := {
  rep : addr -> list addr -> hProp;
  initializer_fields a : (initializer a).*1 = head_fields a;
  initializer_spec a : ([∗ list] f ∈ initializer a, f.1 ↦ f.2) ⊢ rep a [];
  init_spec a (Q : unit -> hProp) : blank a -∗ (rep a [] -∗ Q tt) -∗ wp (init a) Q;
  change_spec o f a l l' (Q : unit -> hProp) :
    change o = Some f -> apply o l = Some l' ->
    rep a l -∗ unlinked (goes_in o) -∗ (rep a l' -∗ unlinked (gets_out o l) -∗ Q tt) -∗
    wp (f a) Q;
  look_spec q f a l r (Q : answer -> hProp) :
    look q = Some f -> consult q l = Some r ->
    rep a l -∗ (rep a l -∗ Q r) -∗ wp (f a) Q
}.

(** ** Rules *)
Section rules.
Implicit Types Q : option addr -> hProp.

Lemma wp_get_elm c p Q : c ↦ Elm p -∗ (c ↦ Elm p -∗ Q p) -∗ wp (get_elm c) Q.
Proof.
  iIntros "Hc HQ". unfold get_elm. wp_seq. iApply (wp_read with "Hc"). iIntros "Hc".
  iApply wp_ret. by iApply "HQ".
Qed.

Lemma wp_get_place c d (Q : place -> hProp) : c ↦ PlaceAt d -∗ (c ↦ PlaceAt d -∗ Q d) -∗ wp (get_place c) Q.
Proof.
  iIntros "Hc HQ". unfold get_place. wp_seq. iApply (wp_read with "Hc"). iIntros "Hc".
  iApply wp_ret. by iApply "HQ".
Qed.

Lemma wp_elm_of e (Q : addr -> hProp) : Q e ⊢ wp (elm_of (Some e)) Q.
Proof. apply wp_ret. Qed.

(** Assigning to a field with any contents. *)
Lemma wp_assign c w (Q : unit -> hProp) : any c -∗ (c ↦ w -∗ Q tt) -∗ wp (write c w) Q.
Proof. iIntros "[%v Hc] HQ". by iApply (wp_write with "Hc"). Qed.

Lemma any_of c w : c ↦ w ⊢ any c.
Proof. iIntros "Hc". by iExists w. Qed.

Lemma wp_answers {A} (f : A -> answer) (c : code A) (Q : answer -> hProp) :
  wp c (fun a => Q (f a)) ⊢ wp (answers f c) Q.
Proof. iIntros "H". unfold answers. wp_seq. iApply (wp_wand with "H"). iIntros (a) "H". by iApply wp_ret. Qed.

(** A loop that steps from each element to the next visits the list; [R], the list
    in the store, bounds the number of steps. *)
Lemma wp_visit (R : hProp) (next : addr -> code (option addr)) k l fuel (Q : list addr -> hProp) :
  (length l <= fuel)%nat ->
  (forall l1 e l2 Q, k ++ l = l1 ++ e :: l2 -> R -∗ (R -∗ Q (head l2)) -∗ wp (next e) Q) ->
  R -∗ (R -∗ Q l) -∗ wp (visit next fuel (head l)) Q.
Proof.
  revert k fuel Q. induction l as [|e l IH]; intros k fuel Q Hf Hnext; iIntros "HR HQ"; cbn.
  - destruct fuel; cbn; iApply wp_ret; by iApply "HQ".
  - destruct fuel as [|fuel]; cbn in *; [lia|]. wp_seq.
    iApply (Hnext k e l with "HR"); [done|]. iIntros "HR". wp_seq.
    iApply (IH (k ++ [e]) with "HR"); [lia| |].
    + intros l1 e' l2 Q'. rewrite -app_assoc. apply Hnext.
    + iIntros "HR". iApply wp_ret. by iApply "HQ".
Qed.

Lemma wp_for_each (R : hProp) first next l (Q : list addr -> hProp) :
  (R ⊢ blocks (length l)) ->
  (forall Q, R -∗ (R -∗ Q (head l)) -∗ wp first Q) ->
  (forall l1 e l2 Q, l = l1 ++ e :: l2 -> R -∗ (R -∗ Q (head l2)) -∗ wp (next e) Q) ->
  R -∗ (R -∗ Q l) -∗ wp (for_each first next) Q.
Proof.
  iIntros (Hb Hfirst Hnext) "HR HQ". unfold for_each. wp_seq. iApply (Hfirst with "HR"). iIntros "HR".
  iApply (wp_fuel_frame R with "HR HQ"); [exact Hb|].
  iIntros (n Hn) "HR HQ". iApply (wp_visit R _ [] with "HR HQ"); [lia|exact Hnext].
Qed.
End rules.

(** Steps of code that reads and writes pointer variables it owns. *)
Ltac wp_load H := wp_seq; iApply (wp_get_elm with H); iIntros H; cbn beta.
Ltac wp_put H := iApply (wp_assign with H); iIntros H; cbn beta.

(** Start the proof about a macro: the lists around the element it works at. *)
Ltac at_element E :=
  match type of E with context [split_at ?x ?l] =>
    let Es := fresh "Es" in
    destruct (split_at x l) as [[l1 l2]|] eqn:Es; [|done]; cbn in E; injection E as <-;
    apply split_at_spec in Es as [-> Hnot]
  end.

(** ** Programs that use a set of macros *)
Inductive command := Init (a : addr) | Change (a : addr) (o : op) | Look (a : addr) (q : query).

(** On the store. *)
Definition exec `{Macros} (c : command) : code (list answer) :=
  match c with
  | Init a => do! _ := init a in ret []
  | Change a o =>
      match change o with
      | Some f => do! _ := f a in ret []
      | None => undefined
      end
  | Look a q =>
      match look q with
      | Some f => do! r := f a in ret [r]
      | None => undefined
      end
  end.

Fixpoint run `{Macros} (cs : list command) : code (list answer) :=
  match cs with
  | [] => ret []
  | c :: cs =>
      do! out := exec c in
      do! outs := run cs in
      ret (out ++ outs)
  end.

(** On lists.  The state has the list of each head, [None] before the head is
    initialised, and the elements that are in no list. *)
Record state := State { lists : gmap addr (option (list addr)); loose : gset addr }.

Definition adds (e : option addr) : gset addr := match e with Some e => {[e]} | None => ∅ end.

Definition exec_lists `{Macros} (c : command) (st : state) : option (state * list answer) :=
  match c with
  | Init a =>
      match lists st !! a with
      | Some None => Some (State (<[a := Some []]> (lists st)) (loose st), [])
      | _ => None
      end
  | Change a o =>
      match change o, lists st !! a with
      | Some _, Some (Some l) =>
          match apply o l with
          | Some l' =>
              if decide (adds (goes_in o) ⊆ loose st)
              then Some (State (<[a := Some l']> (lists st))
                           (adds (gets_out o l) ∪ loose st ∖ adds (goes_in o)), [])
              else None
          | None => None
          end
      | _, _ => None
      end
  | Look a q =>
      match look q, lists st !! a with
      | Some _, Some (Some l) => (fun r => (st, [r])) <$> consult q l
      | _, _ => None
      end
  end.

Fixpoint run_lists `{Macros} (cs : list command) (st : state) : option (state * list answer) :=
  match cs with
  | [] => Some (st, [])
  | c :: cs =>
      match exec_lists c st with
      | Some (st, out) =>
          match run_lists cs st with
          | Some (st, outs) => Some (st, out ++ outs)
          | None => None
          end
      | None => None
      end
  end.

(** The heads and elements of a program, before the first macro; the heads in [statics]
    are declared with an initializer. *)
Definition start (heads statics elms : list addr) : state :=
  State (list_to_map (((fun a => (a, None)) <$> heads) ++ ((fun a => (a, Some [])) <$> statics)))
        (list_to_set elms).

Definition start_store `{Macros} (heads statics elms : list addr) : store :=
  list_to_map (((fun c => (c, Junk)) <$> heads ≫= head_fields) ++ (statics ≫= initializer) ++
               ((fun c => (c, Junk)) <$> elms ≫= elem_fields)).

Section programs.
Context `{Correct}.

(** What the store of a program holds. *)
Definition queue (a : addr) (l : option (list addr)) : hProp :=
  match l with Some l => rep a l | None => blank a end.

Definition contents (st : state) : hProp :=
  (([∗ map] a ↦ l ∈ lists st, queue a l) ∗ ([∗ set] e ∈ loose st, unlinked (Some e)))%I.

Lemma unlinked_once e : unlinked (Some e) -∗ unlinked (Some e) -∗ False.
Proof.
  unfold unlinked, elem_fields. rewrite !big_sepL_cons.
  iIntros "[[%v H] _] [[%v' H'] _]". by iDestruct (points_to_once with "H H'") as "[]".
Qed.

Lemma take_loose e X :
  adds e ⊆ X ->
  ([∗ set] x ∈ X, unlinked (Some x)) ⊢ unlinked e ∗ [∗ set] x ∈ X ∖ adds e, unlinked (Some x).
Proof.
  intros HX. rewrite {1}(union_difference_L (adds e) X); [|done]. rewrite big_sepS_union; [|set_solver].
  iIntros "[He $]". destruct e as [e|]; cbn [adds unlinked]; [by rewrite big_sepS_singleton|by rewrite big_sepS_empty].
Qed.

Lemma put_loose e X :
  unlinked e -∗ ([∗ set] x ∈ X, unlinked (Some x)) -∗ [∗ set] x ∈ adds e ∪ X, unlinked (Some x).
Proof.
  iIntros "He HX". destruct e as [e|]; cbn [adds]; [|by rewrite left_id_L; iFrame; iApply "He"].
  destruct (decide (e ∈ X)) as [Hin|Hout].
  - iExFalso. rewrite big_sepS_delete; [|done]. iDestruct "HX" as "[He' _]".
    by iDestruct (unlinked_once with "He He'") as "[]".
  - rewrite big_sepS_insert; [|done]. by iFrame.
Qed.

(** The list of a head changes. *)
Lemma at_head st a q :
  lists st !! a = Some q ->
  ([∗ map] a ↦ l ∈ lists st, queue a l) ⊢
  queue a q ∗ (∀ q', queue a q' -∗ [∗ map] a ↦ l ∈ <[a := q']> (lists st), queue a l).
Proof. iIntros (Ha) "H". by iApply (big_sepM_insert_acc with "H"). Qed.

Lemma wp_exec_macro c st st' out (Q : list answer -> hProp) :
  exec_lists c st = Some (st', out) ->
  contents st -∗ (contents st' -∗ Q out) -∗ wp (exec c) Q.
Proof.
  destruct c as [a|a o|a q]; cbn [exec exec_lists]; intros E; iIntros "[Hm Hs] HQ".
  - destruct (lists st !! a) as [[l|]|] eqn:Ea; [done| |done]. injection E as <- <-. wp_seq.
    rewrite at_head; [|done]. iDestruct "Hm" as "[Ha Hm]". iApply (init_spec with "Ha"). iIntros "Ha".
    iApply wp_ret. iApply "HQ". unfold contents. cbn [lists loose]. iFrame "Hs".
    by iApply ("Hm" $! (Some [])).
  - destruct (change o) as [f|] eqn:Ef; [|done].
    destruct (lists st !! a) as [[l|]|] eqn:Ea; [|done..].
    destruct (apply o l) as [l'|] eqn:El; [|done]. case_decide as Hin; [|done]. injection E as <- <-.
    wp_seq. rewrite at_head; [|done]. iDestruct "Hm" as "[Ha Hm]". rewrite take_loose; [|done].
    iDestruct "Hs" as "[He Hs]". iApply (change_spec with "Ha He"); [done..|]. iIntros "Ha He".
    iApply wp_ret. iApply "HQ". unfold contents. cbn [lists loose].
    iDestruct (put_loose with "He Hs") as "$". by iApply ("Hm" $! (Some l')).
  - destruct (look q) as [f|] eqn:Ef; [|done].
    destruct (lists st !! a) as [[l|]|] eqn:Ea; [|done..].
    destruct (consult q l) as [r|] eqn:Er; [|done]. injection E as <- <-.
    wp_seq. rewrite at_head; [|done]. iDestruct "Hm" as "[Ha Hm]".
    iApply (look_spec with "Ha"); [done..|]. iIntros "Ha". iApply wp_ret. iApply "HQ". iFrame "Hs".
    iSpecialize ("Hm" $! (Some l) with "Ha"). by rewrite insert_id.
Qed.

Lemma wp_run_macros cs st st' out (Q : list answer -> hProp) :
  run_lists cs st = Some (st', out) ->
  contents st -∗ (contents st' -∗ Q out) -∗ wp (run cs) Q.
Proof.
  revert st out Q. induction cs as [|c cs IH]; intros st out Q; cbn [run run_lists].
  - intros [= -> <-]. iIntros "H HQ". iApply wp_ret. by iApply "HQ".
  - destruct (exec_lists c st) as [[st1 out1]|] eqn:Ec; [|done].
    destruct (run_lists cs st1) as [[st2 out2]|] eqn:Er; [|done]. intros [= -> <-].
    iIntros "H HQ". wp_seq. iApply (wp_exec_macro with "H"); [done|]. iIntros "H". wp_seq.
    iApply (IH with "H"); [done|]. iIntros "H". iApply wp_ret. by iApply "HQ".
Qed.

(** The fields of different heads and elements are different. *)
Lemma fields_distinct heads elms :
  NoDup heads -> NoDup elms -> NoDup ((heads ≫= head_fields) ++ (elms ≫= elem_fields)).
Proof.
  assert (forall (f : addr -> list place) l, NoDup l -> (forall x, NoDup (f x)) ->
            (forall x y c, c ∈ f x -> c ∈ f y -> x = y) -> NoDup (l ≫= f)) as Hbind.
  { intros f l Hl Hf Hinj. induction Hl as [|x l Hx Hl IH]; cbn; [constructor|].
    apply list.NoDup_app. split_and!; [done| |done]. intros c Hc (y & Hcy & Hy)%list_elem_of_bind.
    apply Hx. by rewrite (Hinj x y c). }
  intros Hh He. apply list.NoDup_app. split_and!.
  - apply Hbind; [done|intros x|intros x y c]; unfold head_fields; destruct has_last; repeat constructor; set_solver.
  - intros c (x & Hx & _)%list_elem_of_bind (y & Hy & _)%list_elem_of_bind. revert Hx Hy.
    unfold head_fields, elem_fields. destruct has_last, has_prev; set_solver.
  - apply Hbind; [done|intros x|intros x y c]; unfold elem_fields; destruct has_prev; repeat constructor; set_solver.
Qed.

Lemma initializers_fields l : (l ≫= initializer).*1 = l ≫= head_fields.
Proof. induction l as [|a l IH]; cbn; [done|]. by rewrite fmap_app initializer_fields IH. Qed.

Lemma start_contents heads statics elms :
  NoDup (heads ++ statics) -> NoDup elms ->
  holds (contents (start heads statics elms)) (start_store heads statics elms).
Proof.
  intros Hh He.
  enough (([∗ map] c ↦ w ∈ start_store heads statics elms, c ↦ w) ⊢ contents (start heads statics elms)) as [E]
    by apply E, store_points_to.
  unfold start_store, contents, start. cbn [lists loose].
  rewrite !big_sepM_list_to_map; [|by rewrite fmap_app -!list_fmap_compose !list_fmap_id|].
  2:{ rewrite !fmap_app -!list_fmap_compose !list_fmap_id initializers_fields.
      rewrite assoc -bind_app. by apply fields_distinct. }
  rewrite !big_sepL_app !big_sepL_fmap !big_sepL_bind big_sepS_list_to_set; [|done]. cbn [fst snd queue].
  assert (forall l : list place, ([∗ list] c ∈ l, c ↦ Junk) ⊢ [∗ list] c ∈ l, any c) as Hany.
  { intros l. apply big_sepL_mono. intros k c _. apply any_of. }
  rewrite -assoc. repeat apply bi.sep_mono; apply big_sepL_mono; intros k a _; [apply Hany|apply initializer_spec|apply Hany].
Qed.

(** A program, on the fields of its heads and elements, answers as on lists. *)
Lemma run_refines heads statics elms cs st out :
  NoDup (heads ++ statics) -> NoDup elms -> run_lists cs (start heads statics elms) = Some (st, out) ->
  exists m, run cs (start_store heads statics elms) = Ok (out, m).
Proof.
  intros Hh He E.
  destruct (wp_adequate (contents (start heads statics elms)) (run cs) (fun r => ⌜r = out⌝)%I
    (start_store heads statics elms)) as (r & m & Er & Hr).
  - iIntros "H". iApply (wp_run_macros with "H"); [done|]. by iIntros "H".
  - by apply start_contents.
  - exists m. change (r = out) in Hr. by subst r.
Qed.
End programs.
