(* ===== verification/QueueChain.v ===== *)
(** Chains of elements: what the singly linked lists and the tail queues have in common.

    [chain back c l]: the pointer variable [c] starts a chain of the elements [l], which
    ends with NULL.  [back c e] is what an element keeps about the place [c] that points
    to it: nothing when elements are singly linked, its address in a tail queue. *)

From iris.proofmode Require Import proofmode.
From S2P Require Import Prelude SepLogic QueueSpec.

Section chain.
Variable back : place -> addr -> hProp.

Fixpoint chain (c : place) (l : list addr) : hProp :=
  (c ↦ Elm (head l) ∗ match l with [] => emp | e :: l => back c e ∗ chain (Next e) l end)%I.

(** What is behind the first pointer. *)
Definition rest (c : place) (l : list addr) : hProp :=
  match l with [] => emp | e :: l => back c e ∗ chain (Next e) l end%I.

(** The pointers up to the end of [l], and the place of the next one. *)
Fixpoint segment (c : place) (l : list addr) : hProp :=
  match l with
  | [] => emp
  | e :: l => c ↦ Elm (Some e) ∗ back c e ∗ segment (Next e) l
  end%I.

Fixpoint end_of (c : place) (l : list addr) : place :=
  match l with [] => c | e :: l => end_of (Next e) l end.

Lemma chain_eq c l : chain c l ⊣⊢ c ↦ Elm (head l) ∗ rest c l.
Proof. by destruct l. Qed.

Lemma end_of_app c l1 l2 : end_of c (l1 ++ l2) = end_of (end_of c l1) l2.
Proof. revert c. by induction l1 as [|e l1 IH]; intros c; cbn. Qed.

Lemma end_of_snoc c l x : end_of c (l ++ [x]) = Next x.
Proof. by rewrite end_of_app. Qed.

Lemma end_of_middle c l1 x l2 : end_of c (l1 ++ x :: l2) = end_of (Next x) l2.
Proof. by rewrite end_of_app. Qed.

Lemma segment_app c l1 l2 : segment c (l1 ++ l2) ⊣⊢ segment c l1 ∗ segment (end_of c l1) l2.
Proof.
  revert c. induction l1 as [|e l1 IH]; intros c; cbn; [by rewrite left_id|]. by rewrite IH !assoc.
Qed.

Lemma chain_app c l1 l2 : chain c (l1 ++ l2) ⊣⊢ segment c l1 ∗ chain (end_of c l1) l2.
Proof.
  revert c. induction l1 as [|e l1 IH]; intros c; cbn; [by rewrite left_id|]. by rewrite IH !assoc.
Qed.

(** An element of the chain, and what follows it. *)
Lemma chain_at c l1 x l2 : chain c (l1 ++ x :: l2) ⊣⊢ segment c (l1 ++ [x]) ∗ chain (Next x) l2.
Proof. by rewrite cons_middle assoc chain_app end_of_snoc. Qed.

(** The last pointer is NULL. *)
Lemma chain_end c l : chain c l ⊣⊢ segment c l ∗ end_of c l ↦ Elm None.
Proof. rewrite -{1}(app_nil_r l) chain_app. cbn. by rewrite right_id. Qed.

Lemma chain_snoc c l e :
  chain c (l ++ [e]) ⊣⊢ segment c l ∗ end_of c l ↦ Elm (Some e) ∗ back (end_of c l) e ∗ Next e ↦ Elm None.
Proof. rewrite chain_app. cbn. by rewrite right_id. Qed.

Lemma chain_blocks c l : chain c l ⊢ blocks (length l).
Proof.
  revert c. induction l as [|e l IH]; intros c; cbn [chain length]; [apply blocks_none|].
  change (S (length l)) with (1 + (0 + length l))%nat.
  apply blocks_sep; [apply blocks_points_to|]. apply blocks_sep; [apply blocks_none|apply IH].
Qed.

(** *** Reading *)
Lemma wp_chain_first c l (Q : option addr -> hProp) :
  chain c l -∗ (chain c l -∗ Q (head l)) -∗ wp (get_elm c) Q.
Proof.
  rewrite chain_eq. iIntros "[Hc Hl] HQ". iApply (wp_get_elm with "Hc"). iIntros "Hc".
  iApply "HQ". iFrame.
Qed.

Lemma wp_chain_next c l1 x l2 (Q : option addr -> hProp) :
  chain c (l1 ++ x :: l2) -∗ (chain c (l1 ++ x :: l2) -∗ Q (head l2)) -∗ wp (get_elm (Next x)) Q.
Proof.
  rewrite chain_at. iIntros "[Hs Hc] HQ". iApply (wp_chain_first with "Hc"). iIntros "Hc". iApply "HQ". iFrame.
Qed.

(** The loop that looks for the element in front of [e]. *)
Lemma wp_find_before c e l k1 y k2 l2 fuel (Q : addr -> hProp) :
  l = k1 ++ y :: k2 ++ e :: l2 -> e ∉ k2 -> (length k2 <= fuel)%nat ->
  chain c l -∗ (∀ k x, ⌜l = k ++ x :: e :: l2⌝ → chain c l -∗ Q x) -∗
  wp (find_before e fuel (Some y)) Q.
Proof.
  revert k1 y fuel. induction k2 as [|z k2 IH]; intros k1 y fuel Hl He Hf; iIntros "Hc HQ".
  - rewrite Hl. destruct fuel; cbn [find_before]; wp_seq; iApply wp_elm_of; wp_seq;
      iApply (wp_chain_next _ k1 y with "Hc"); iIntros "Hc"; cbn [app head]; rewrite decide_True //;
      iApply wp_ret; by iApply ("HQ" with "[//] Hc").
  - destruct fuel as [|fuel]; cbn [length] in Hf; [lia|]. cbn [find_before]. wp_seq. iApply wp_elm_of. wp_seq.
    rewrite {1 2}Hl. iApply (wp_chain_next _ k1 y with "Hc"). iIntros "Hc". cbn [app head]. rewrite -Hl.
    rewrite decide_False; [|set_solver]. iApply (IH (k1 ++ [y]) z with "Hc HQ"); [|set_solver|lia].
    by rewrite Hl -app_assoc.
Qed.
End chain.
