(* ===== verification/QueueSingle.v ===== *)
(** The [SLIST_*], [STAILQ_*] and [SIMPLEQ_*] macros of [src/src/queue.h]: elements that
    point to the next one only.

    The head of an [SLIST] points to the first element.  That of an [STAILQ] also has
    the address of the last pointer, which is NULL, so that an element can be added
    behind it.  A [SIMPLEQ] is an [STAILQ] with other field names. *)

From iris.proofmode Require Import proofmode.
From S2P Require Import Prelude SepLogic QueueSpec QueueChain.

(** ** Singly linked lists *)
Definition SLIST_HEAD_INITIALIZER (head : addr) : list (place * word) :=
  [(First head, Elm None)].

Definition SLIST_INIT (head : addr) : code unit := write (First head) (Elm None).

Definition SLIST_INSERT_AFTER (slistelm elm : addr) : code unit :=
  do! next := get_elm (Next slistelm) in
  do! _ := write (Next elm) (Elm next) in
  write (Next slistelm) (Elm (Some elm)).

Definition SLIST_INSERT_HEAD (head elm : addr) : code unit :=
  do! first := get_elm (First head) in
  do! _ := write (Next elm) (Elm first) in
  write (First head) (Elm (Some elm)).

Definition SLIST_REMOVE_HEAD (head : addr) : code unit :=
  do! first := get_elm (First head) in
  do! first := elm_of first in
  do! next := get_elm (Next first) in
  write (First head) (Elm next).

Definition SLIST_REMOVE (head elm : addr) : code unit :=
  do! first := get_elm (First head) in
  if decide (first = Some elm) then SLIST_REMOVE_HEAD head
  else
    do! curelm := with_fuel (fun fuel => find_before elm fuel first) in
    do! next := get_elm (Next curelm) in
    do! next := elm_of next in
    do! next := get_elm (Next next) in
    write (Next curelm) (Elm next).

Definition SLIST_FIRST (head : addr) : code (option addr) := get_elm (First head).
Definition SLIST_NEXT (elm : addr) : code (option addr) := get_elm (Next elm).
Definition SLIST_EMPTY (head : addr) : code bool :=
  do! first := get_elm (First head) in
  ret (bool_decide (first = None)).

Definition SLIST_FOREACH (head : addr) : code (list addr) :=
  for_each (get_elm (First head)) (fun var => get_elm (Next var)).

Definition slist : Macros := {|
  has_last := false;
  has_prev := false;
  initializer := SLIST_HEAD_INITIALIZER;
  init := SLIST_INIT;
  change o :=
    match o with
    | InsertHead e => Some (fun a => SLIST_INSERT_HEAD a e)
    | InsertAfter x e => Some (fun _ => SLIST_INSERT_AFTER x e)
    | RemoveHead => Some SLIST_REMOVE_HEAD
    | Remove e => Some (fun a => SLIST_REMOVE a e)
    | _ => None
    end;
  look q :=
    match q with
    | IsEmpty => Some (fun a => answers Truth (SLIST_EMPTY a))
    | AskFirst => Some (fun a => answers Found (SLIST_FIRST a))
    | AskNext x => Some (fun _ => answers Found (SLIST_NEXT x))
    | Foreach => Some (fun a => answers Visited (SLIST_FOREACH a))
    | _ => None
    end
|}.

(** ** Singly linked tail queues *)
Definition STAILQ_HEAD_INITIALIZER (head : addr) : list (place * word) :=
  [(First head, Elm None); (Last head, PlaceAt (First head))].

Definition STAILQ_INIT (head : addr) : code unit :=
  do! _ := write (First head) (Elm None) in
  write (Last head) (PlaceAt (First head)).

Definition STAILQ_INSERT_HEAD (head elm : addr) : code unit :=
  do! first := get_elm (First head) in
  do! _ := write (Next elm) (Elm first) in
  do! _ := (if decide (first = None) then write (Last head) (PlaceAt (Next elm)) else ret tt) in
  write (First head) (Elm (Some elm)).

Definition STAILQ_INSERT_TAIL (head elm : addr) : code unit :=
  do! _ := write (Next elm) (Elm None) in
  do! last := get_place (Last head) in
  do! _ := write last (Elm (Some elm)) in
  write (Last head) (PlaceAt (Next elm)).

Definition STAILQ_INSERT_AFTER (head listelm elm : addr) : code unit :=
  do! next := get_elm (Next listelm) in
  do! _ := write (Next elm) (Elm next) in
  do! _ := (if decide (next = None) then write (Last head) (PlaceAt (Next elm)) else ret tt) in
  write (Next listelm) (Elm (Some elm)).

Definition STAILQ_REMOVE_HEAD (head : addr) : code unit :=
  do! first := get_elm (First head) in
  do! first := elm_of first in
  do! next := get_elm (Next first) in
  do! _ := write (First head) (Elm next) in
  if decide (next = None) then write (Last head) (PlaceAt (First head)) else ret tt.

Definition STAILQ_REMOVE (head elm : addr) : code unit :=
  do! first := get_elm (First head) in
  if decide (first = Some elm) then STAILQ_REMOVE_HEAD head
  else
    do! curelm := with_fuel (fun fuel => find_before elm fuel first) in
    do! next := get_elm (Next curelm) in
    do! next := elm_of next in
    do! next := get_elm (Next next) in
    do! _ := write (Next curelm) (Elm next) in
    if decide (next = None) then write (Last head) (PlaceAt (Next curelm)) else ret tt.

Definition STAILQ_FIRST (head : addr) : code (option addr) := get_elm (First head).
Definition STAILQ_NEXT (elm : addr) : code (option addr) := get_elm (Next elm).
Definition STAILQ_EMPTY (head : addr) : code bool :=
  do! first := get_elm (First head) in
  ret (bool_decide (first = None)).

Definition STAILQ_FOREACH (head : addr) : code (list addr) :=
  for_each (get_elm (First head)) (fun var => get_elm (Next var)).

Definition stailq : Macros := {|
  has_last := true;
  has_prev := false;
  initializer := STAILQ_HEAD_INITIALIZER;
  init := STAILQ_INIT;
  change o :=
    match o with
    | InsertHead e => Some (fun a => STAILQ_INSERT_HEAD a e)
    | InsertTail e => Some (fun a => STAILQ_INSERT_TAIL a e)
    | InsertAfter x e => Some (fun a => STAILQ_INSERT_AFTER a x e)
    | RemoveHead => Some STAILQ_REMOVE_HEAD
    | Remove e => Some (fun a => STAILQ_REMOVE a e)
    | InsertBefore _ _ => None
    end;
  look q :=
    match q with
    | IsEmpty => Some (fun a => answers Truth (STAILQ_EMPTY a))
    | AskFirst => Some (fun a => answers Found (STAILQ_FIRST a))
    | AskNext x => Some (fun _ => answers Found (STAILQ_NEXT x))
    | Foreach => Some (fun a => answers Visited (STAILQ_FOREACH a))
    | _ => None
    end
|}.

(** ** Simple queues *)
Definition SIMPLEQ_HEAD_INITIALIZER (head : addr) : list (place * word) :=
  [(First head, Elm None); (Last head, PlaceAt (First head))].

Definition SIMPLEQ_INIT (head : addr) : code unit :=
  do! _ := write (First head) (Elm None) in
  write (Last head) (PlaceAt (First head)).

Definition SIMPLEQ_INSERT_HEAD (head elm : addr) : code unit :=
  do! first := get_elm (First head) in
  do! _ := write (Next elm) (Elm first) in
  do! _ := (if decide (first = None) then write (Last head) (PlaceAt (Next elm)) else ret tt) in
  write (First head) (Elm (Some elm)).

Definition SIMPLEQ_INSERT_TAIL (head elm : addr) : code unit :=
  do! _ := write (Next elm) (Elm None) in
  do! last := get_place (Last head) in
  do! _ := write last (Elm (Some elm)) in
  write (Last head) (PlaceAt (Next elm)).

Definition SIMPLEQ_INSERT_AFTER (head listelm elm : addr) : code unit :=
  do! next := get_elm (Next listelm) in
  do! _ := write (Next elm) (Elm next) in
  do! _ := (if decide (next = None) then write (Last head) (PlaceAt (Next elm)) else ret tt) in
  write (Next listelm) (Elm (Some elm)).

Definition SIMPLEQ_REMOVE_HEAD (head : addr) : code unit :=
  do! first := get_elm (First head) in
  do! first := elm_of first in
  do! next := get_elm (Next first) in
  do! _ := write (First head) (Elm next) in
  if decide (next = None) then write (Last head) (PlaceAt (First head)) else ret tt.

Definition SIMPLEQ_REMOVE (head elm : addr) : code unit :=
  do! first := get_elm (First head) in
  if decide (first = Some elm) then SIMPLEQ_REMOVE_HEAD head
  else
    do! curelm := with_fuel (fun fuel => find_before elm fuel first) in
    do! next := get_elm (Next curelm) in
    do! next := elm_of next in
    do! next := get_elm (Next next) in
    do! _ := write (Next curelm) (Elm next) in
    if decide (next = None) then write (Last head) (PlaceAt (Next curelm)) else ret tt.

Definition SIMPLEQ_FIRST (head : addr) : code (option addr) := get_elm (First head).
Definition SIMPLEQ_NEXT (elm : addr) : code (option addr) := get_elm (Next elm).
Definition SIMPLEQ_EMPTY (head : addr) : code bool :=
  do! first := get_elm (First head) in
  ret (bool_decide (first = None)).

Definition SIMPLEQ_FOREACH (head : addr) : code (list addr) :=
  for_each (get_elm (First head)) (fun var => get_elm (Next var)).

Definition simpleq : Macros := {|
  has_last := true;
  has_prev := false;
  initializer := SIMPLEQ_HEAD_INITIALIZER;
  init := SIMPLEQ_INIT;
  change o :=
    match o with
    | InsertHead e => Some (fun a => SIMPLEQ_INSERT_HEAD a e)
    | InsertTail e => Some (fun a => SIMPLEQ_INSERT_TAIL a e)
    | InsertAfter x e => Some (fun a => SIMPLEQ_INSERT_AFTER a x e)
    | RemoveHead => Some SIMPLEQ_REMOVE_HEAD
    | Remove e => Some (fun a => SIMPLEQ_REMOVE a e)
    | InsertBefore _ _ => None
    end;
  look q :=
    match q with
    | IsEmpty => Some (fun a => answers Truth (SIMPLEQ_EMPTY a))
    | AskFirst => Some (fun a => answers Found (SIMPLEQ_FIRST a))
    | AskNext x => Some (fun _ => answers Found (SIMPLEQ_NEXT x))
    | Foreach => Some (fun a => answers Visited (SIMPLEQ_FOREACH a))
    | _ => None
    end
|}.

(** The two are the same macros. *)
Lemma simpleq_stailq : simpleq = stailq.
Proof. reflexivity. Qed.

(** ** The lists *)
Definition no_back (c : place) (e : addr) : hProp := emp%I.
Notation chain1 := (chain no_back).

Lemma rest_any c c' l : rest no_back c l ⊣⊢ rest no_back c' l.
Proof. by destruct l. Qed.

Lemma chain1_cons c e l :
  chain1 c (e :: l) ⊣⊢ c ↦ Elm (Some e) ∗ Next e ↦ Elm (head l) ∗ rest no_back c l.
Proof. cbn [chain head]. by rewrite (chain_eq _ (Next e)) left_id (rest_any (Next e) c). Qed.

(** What the access macros and the loop do on a chain, whatever is next to it. *)
Lemma wp_first_of (R : hProp) a l (Q : option addr -> hProp) :
  chain1 (First a) l ∗ R -∗ (chain1 (First a) l ∗ R -∗ Q (head l)) -∗ wp (get_elm (First a)) Q.
Proof. iIntros "[Hc HR] HQ". iApply (wp_chain_first with "Hc"). iIntros "Hc". iApply "HQ". iFrame. Qed.

Lemma wp_next_of (R : hProp) c l1 x l2 (Q : option addr -> hProp) :
  chain1 c (l1 ++ x :: l2) ∗ R -∗ (chain1 c (l1 ++ x :: l2) ∗ R -∗ Q (head l2)) -∗
  wp (get_elm (Next x)) Q.
Proof. iIntros "[Hc HR] HQ". iApply (wp_chain_next with "Hc"). iIntros "Hc". iApply "HQ". iFrame. Qed.

Lemma wp_empty_of (R : hProp) a l (Q : bool -> hProp) :
  chain1 (First a) l ∗ R -∗
  (chain1 (First a) l ∗ R -∗ Q (match l with [] => true | _ => false end)) -∗
  wp (do! first := get_elm (First a) in ret (bool_decide (first = None))) Q.
Proof.
  iIntros "H HQ". wp_seq. iApply (wp_first_of with "H"). iIntros "H". iApply wp_ret.
  destruct l; by iApply "HQ".
Qed.

Lemma wp_foreach_of (R : hProp) a l (Q : list addr -> hProp) :
  chain1 (First a) l ∗ R -∗ (chain1 (First a) l ∗ R -∗ Q l) -∗
  wp (for_each (get_elm (First a)) (fun var => get_elm (Next var))) Q.
Proof.
  apply wp_for_each.
  - rewrite -(Nat.add_0_r (length l)). apply blocks_sep; [apply chain_blocks|apply blocks_none].
  - intros Q'. apply wp_first_of.
  - intros l1 e l2 Q' ->. apply wp_next_of.
Qed.

(** The element in front of the one to be removed. *)
Lemma wp_find c y k e l (Q : addr -> hProp) :
  e ∉ k ->
  chain1 c (y :: k ++ e :: l) -∗
  (∀ k' x, ⌜y :: k = k' ++ [x]⌝ → chain1 c (k' ++ x :: e :: l) -∗ Q x) -∗
  wp (with_fuel (fun fuel => find_before e fuel (Some y))) Q.
Proof.
  iIntros (He) "Hc HQ". iApply (wp_fuel_frame with "Hc HQ"); [apply chain_blocks|].
  iIntros (n Hn) "Hc HQ". cbn in Hn. rewrite length_app in Hn.
  iApply (wp_find_before _ c e _ [] y k l with "Hc"); [done|done|lia|]. iIntros (k' x Hk) "Hc".
  rewrite Hk. iApply ("HQ" with "[] Hc"). iPureIntro.
  apply (app_inv_tail (e :: l)). by rewrite -app_assoc.
Qed.

(** *** [SLIST] *)
Section slist_correct.
#[local] Existing Instance slist.

Definition slist_rep (a : addr) (l : list addr) : hProp := (chain1 (First a) l ∗ emp)%I.

Lemma slist_remove_head_spec a e l (Q : unit -> hProp) :
  slist_rep a (e :: l) -∗ (slist_rep a l -∗ unlinked (Some e) -∗ Q tt) -∗ wp (SLIST_REMOVE_HEAD a) Q.
Proof.
  unfold slist_rep. rewrite chain1_cons. iIntros "[(Hf & He & Hr) _] HQ". unfold SLIST_REMOVE_HEAD.
  wp_load "Hf". wp_seq. iApply wp_elm_of. wp_load "He". iApply (wp_write with "Hf"). iIntros "Hf".
  rewrite any_of. iApply ("HQ" with "[Hf Hr]"); [|by iFrame "He"]. rewrite chain_eq. iFrame.
Qed.

Lemma slist_remove_spec a e l l' (Q : unit -> hProp) :
  apply (Remove e) l = Some l' ->
  slist_rep a l -∗ (slist_rep a l' -∗ unlinked (Some e) -∗ Q tt) -∗ wp (SLIST_REMOVE a e) Q.
Proof.
  cbn. intros E. at_element E. iIntros "H HQ". unfold SLIST_REMOVE. wp_seq.
  iApply (wp_first_of with "H"). iIntros "H". destruct l1 as [|y k]; cbn [app head].
  { rewrite decide_True //. by iApply (slist_remove_head_spec with "H"). }
  apply not_elem_of_cons in Hnot as [Hy Hk]. rewrite decide_False; [|congruence]. iDestruct "H" as "[Hc _]".
  wp_seq. iApply (wp_find with "Hc"); [done|]. iIntros (k' x Hx) "Hc".
  rewrite chain_at chain1_cons. iDestruct "Hc" as "(Hs & Hx & He & Hr)".
  wp_load "Hx". wp_seq. iApply wp_elm_of. wp_load "He". iApply (wp_write with "Hx"). iIntros "Hx".
  rewrite any_of. iApply ("HQ" with "[Hs Hx Hr]"); [|by iFrame "He"].
  unfold slist_rep. rewrite app_comm_cons Hx -app_assoc /= chain_at (chain_eq _ (Next x)). iFrame.
Qed.

Lemma slist_change_spec o f a l l' (Q : unit -> hProp) :
  change o = Some f -> apply o l = Some l' ->
  slist_rep a l -∗ unlinked (goes_in o) -∗ (slist_rep a l' -∗ unlinked (gets_out o l) -∗ Q tt) -∗
  wp (f a) Q.
Proof.
  intros Ef E. destruct o as [e|e|x e|x e| |e]; try done; injection Ef as <-; cbn [goes_in gets_out].
  - injection E as <-. iIntros "[Hc _] [He _] HQ". rewrite chain_eq. iDestruct "Hc" as "[Hf Hr]".
    unfold SLIST_INSERT_HEAD. wp_load "Hf". wp_seq. wp_put "He". iApply (wp_write with "Hf").
    iIntros "Hf". iApply ("HQ" with "[Hf He Hr]"); [|done]. unfold slist_rep. rewrite chain1_cons. iFrame.
  - cbn in E. at_element E. iIntros "[Hc _] [He _] HQ". rewrite chain_at (chain_eq _ (Next x)).
    iDestruct "Hc" as "(Hs & Hx & Hr)". unfold SLIST_INSERT_AFTER. wp_load "Hx". wp_seq. wp_put "He".
    iApply (wp_write with "Hx"). iIntros "Hx". iApply ("HQ" with "[Hs Hx He Hr]"); [|done].
    unfold slist_rep. rewrite chain_at chain1_cons. iFrame.
  - destruct l as [|e l]; [done|]. injection E as <-. iIntros "H _". by iApply slist_remove_head_spec.
  - iIntros "H _". by iApply slist_remove_spec.
Qed.

Lemma slist_look_spec q f a l r (Q : answer -> hProp) :
  look q = Some f -> consult q l = Some r -> slist_rep a l -∗ (slist_rep a l -∗ Q r) -∗ wp (f a) Q.
Proof.
  intros Ef E. destruct q as [| | |x|x|x|x| |]; try done; injection Ef as <-; iIntros "H HQ";
    iApply wp_answers; cbn in E.
  - injection E as <-. by iApply (wp_empty_of with "H").
  - injection E as <-. by iApply (wp_first_of with "H").
  - at_element E. by iApply (wp_next_of with "H").
  - injection E as <-. by iApply (wp_foreach_of with "H").
Qed.

#[export] Instance slist_ok : Correct slist.
Proof.
  refine {| rep := slist_rep; change_spec := slist_change_spec; look_spec := slist_look_spec |}; [done|..].
  { iIntros (a) "H". unfold slist_rep. cbn. by iFrame. }
  iIntros (a Q) "[Hf _] HQ". wp_put "Hf". iApply "HQ". unfold slist_rep. cbn. by iFrame.
Defined.
End slist_correct.

(** *** [STAILQ] *)
Section stailq_correct.
#[local] Existing Instance stailq.

(** The address of the last pointer of the chain. *)
Definition stailq_last (a : addr) (l : list addr) : hProp := (Last a ↦ PlaceAt (end_of (First a) l))%I.
Definition stailq_rep (a : addr) (l : list addr) : hProp := (chain1 (First a) l ∗ stailq_last a l)%I.

(** After a change in front of [l]: the last pointer is the new place [c] when nothing
    follows it, and the old one otherwise. *)
Lemma wp_set_last a c c' l1 l2 l (Q : unit -> hProp) :
  end_of (First a) l1 = end_of c l -> end_of (First a) l2 = end_of c' l ->
  stailq_last a l1 -∗ (stailq_last a l2 -∗ Q tt) -∗
  wp (if decide (head l = None) then write (Last a) (PlaceAt c') else ret tt) Q.
Proof.
  unfold stailq_last. iIntros (-> ->) "Hl HQ". destruct l as [|e l]; case_decide; try done.
  - by iApply (wp_write with "Hl").
  - iApply wp_ret. by iApply "HQ".
Qed.

Lemma stailq_remove_head_spec a e l (Q : unit -> hProp) :
  stailq_rep a (e :: l) -∗ (stailq_rep a l -∗ unlinked (Some e) -∗ Q tt) -∗ wp (STAILQ_REMOVE_HEAD a) Q.
Proof.
  unfold stailq_rep. rewrite chain1_cons. iIntros "[(Hf & He & Hr) Hl] HQ". unfold STAILQ_REMOVE_HEAD.
  wp_load "Hf". wp_seq. iApply wp_elm_of. wp_load "He". wp_seq. iApply (wp_write with "Hf"). iIntros "Hf".
  iApply (wp_set_last a _ _ _ l l with "Hl"); [done|done|]. iIntros "Hl". rewrite any_of.
  iApply ("HQ" with "[Hf Hr Hl]"); [|by iFrame "He"]. rewrite chain_eq. iFrame.
Qed.

Lemma stailq_remove_spec a e l l' (Q : unit -> hProp) :
  apply (Remove e) l = Some l' ->
  stailq_rep a l -∗ (stailq_rep a l' -∗ unlinked (Some e) -∗ Q tt) -∗ wp (STAILQ_REMOVE a e) Q.
Proof.
  cbn. intros E. at_element E. iIntros "H HQ". unfold STAILQ_REMOVE. wp_seq.
  iApply (wp_first_of with "H"). iIntros "H". destruct l1 as [|y k]; cbn [app head].
  { rewrite decide_True //. by iApply (stailq_remove_head_spec with "H"). }
  apply not_elem_of_cons in Hnot as [Hy Hk]. rewrite decide_False; [|congruence]. iDestruct "H" as "[Hc Hl]".
  wp_seq. iApply (wp_find with "Hc"); [done|]. iIntros (k' x Hx) "Hc".
  rewrite chain_at chain1_cons. iDestruct "Hc" as "(Hs & Hx & He & Hr)".
  wp_load "Hx". wp_seq. iApply wp_elm_of. wp_load "He". wp_seq. iApply (wp_write with "Hx"). iIntros "Hx".
  iApply (wp_set_last a (Next e) _ _ (k' ++ x :: l2) l2 with "Hl").
  - by rewrite app_comm_cons end_of_middle.
  - by rewrite end_of_middle.
  - iIntros "Hl". rewrite any_of. rewrite app_comm_cons Hx -app_assoc.
    iApply ("HQ" with "[Hs Hx Hr Hl]"); [|by iFrame "He"]. unfold stailq_rep.
    rewrite chain_at (chain_eq _ (Next x)). iFrame.
Qed.

Lemma stailq_change_spec o f a l l' (Q : unit -> hProp) :
  change o = Some f -> apply o l = Some l' ->
  stailq_rep a l -∗ unlinked (goes_in o) -∗ (stailq_rep a l' -∗ unlinked (gets_out o l) -∗ Q tt) -∗
  wp (f a) Q.
Proof.
  intros Ef E. destruct o as [e|e|x e|x e| |e]; try done; injection Ef as <-; cbn [goes_in gets_out].
  - injection E as <-. iIntros "[Hc Hl] [He _] HQ". rewrite chain_eq. iDestruct "Hc" as "[Hf Hr]".
    unfold STAILQ_INSERT_HEAD. wp_load "Hf". wp_seq. wp_put "He". wp_seq.
    iApply (wp_set_last a (First a) (Next e) _ (e :: l) l with "Hl"); [done|done|].
    iIntros "Hl". iApply (wp_write with "Hf"). iIntros "Hf". iApply ("HQ" with "[Hf He Hr Hl]"); [|done].
    unfold stailq_rep. rewrite chain1_cons. iFrame.
  - injection E as <-. iIntros "[Hc Hl] [He _] HQ". rewrite chain_end. iDestruct "Hc" as "[Hs Hend]".
    unfold STAILQ_INSERT_TAIL. wp_seq. wp_put "He". wp_seq. iApply (wp_get_place with "Hl"). iIntros "Hl".
    wp_seq. iApply (wp_write with "Hend"). iIntros "Hend". iApply (wp_write with "Hl"). iIntros "Hl".
    iApply ("HQ" with "[Hs Hend He Hl]"); [|done]. unfold stailq_rep, stailq_last.
    rewrite chain_snoc end_of_snoc. iFrame.
  - cbn in E. at_element E. iIntros "[Hc Hl] [He _] HQ". rewrite chain_at (chain_eq _ (Next x)).
    iDestruct "Hc" as "(Hs & Hx & Hr)". unfold STAILQ_INSERT_AFTER. wp_load "Hx". wp_seq. wp_put "He". wp_seq.
    iApply (wp_set_last a (Next x) (Next e) _ (l1 ++ x :: e :: l2) l2 with "Hl");
      [by rewrite end_of_middle..|]. iIntros "Hl".
    iApply (wp_write with "Hx"). iIntros "Hx". iApply ("HQ" with "[Hs Hx He Hr Hl]"); [|done].
    unfold stailq_rep. rewrite chain_at chain1_cons. iFrame.
  - destruct l as [|e l]; [done|]. injection E as <-. iIntros "H _". by iApply stailq_remove_head_spec.
  - iIntros "H _". by iApply stailq_remove_spec.
Qed.

Lemma stailq_look_spec q f a l r (Q : answer -> hProp) :
  look q = Some f -> consult q l = Some r -> stailq_rep a l -∗ (stailq_rep a l -∗ Q r) -∗ wp (f a) Q.
Proof.
  intros Ef E. destruct q as [| | |x|x|x|x| |]; try done; injection Ef as <-; iIntros "H HQ";
    iApply wp_answers; cbn in E.
  - injection E as <-. by iApply (wp_empty_of with "H").
  - injection E as <-. by iApply (wp_first_of with "H").
  - at_element E. by iApply (wp_next_of with "H").
  - injection E as <-. by iApply (wp_foreach_of with "H").
Qed.

#[export] Instance stailq_ok : Correct stailq.
Proof.
  refine {| rep := stailq_rep; change_spec := stailq_change_spec; look_spec := stailq_look_spec |}; [done|..].
  { iIntros (a) "(H & Hl & _)". unfold stailq_rep. cbn. by iFrame. }
  iIntros (a Q) "(Hf & Hl & _) HQ". cbn [init stailq]. unfold STAILQ_INIT. wp_seq. wp_put "Hf". wp_put "Hl".
  iApply "HQ". unfold stailq_rep. cbn. by iFrame.
Defined.
End stailq_correct.

(** *** [SIMPLEQ] *)
#[export] Instance simpleq_ok : Correct simpleq := stailq_ok.
