(* ===== verification/QueueTail.v ===== *)
(** The [TAILQ_*] macros of [src/src/queue.h]: doubly linked lists with a pointer to
    their end, which can be run through in both directions.

    An element has the address of the pointer variable that points to it, the head the
    address of the last one, which is NULL. *)

From iris.proofmode Require Import proofmode.
From S2P Require Import Prelude SepLogic QueueSpec QueueChain.

(** ** The macros *)
Definition TAILQ_HEAD_INITIALIZER (head : addr) : list (place * word) :=
  [(First head, Elm None); (Last head, PlaceAt (First head))].

Definition TAILQ_INIT (head : addr) : code unit :=
  do! _ := write (First head) (Elm None) in
  write (Last head) (PlaceAt (First head)).

Definition TAILQ_INSERT_HEAD (head elm : addr) : code unit :=
  do! first := get_elm (First head) in
  do! _ := write (Next elm) (Elm first) in
  do! _ := match first with
           | Some first => write (Prev first) (PlaceAt (Next elm))
           | None => write (Last head) (PlaceAt (Next elm))
           end in
  do! _ := write (First head) (Elm (Some elm)) in
  write (Prev elm) (PlaceAt (First head)).

Definition TAILQ_INSERT_TAIL (head elm : addr) : code unit :=
  do! _ := write (Next elm) (Elm None) in
  do! last := get_place (Last head) in
  do! _ := write (Prev elm) (PlaceAt last) in
  do! last := get_place (Last head) in
  do! _ := write last (Elm (Some elm)) in
  write (Last head) (PlaceAt (Next elm)).

Definition TAILQ_INSERT_AFTER (head listelm elm : addr) : code unit :=
  do! next := get_elm (Next listelm) in
  do! _ := write (Next elm) (Elm next) in
  do! _ := match next with
           | Some next => write (Prev next) (PlaceAt (Next elm))
           | None => write (Last head) (PlaceAt (Next elm))
           end in
  do! _ := write (Next listelm) (Elm (Some elm)) in
  write (Prev elm) (PlaceAt (Next listelm)).

Definition TAILQ_INSERT_BEFORE (listelm elm : addr) : code unit :=
  do! prev := get_place (Prev listelm) in
  do! _ := write (Prev elm) (PlaceAt prev) in
  do! _ := write (Next elm) (Elm (Some listelm)) in
  do! prev := get_place (Prev listelm) in
  do! _ := write prev (Elm (Some elm)) in
  write (Prev listelm) (PlaceAt (Next elm)).

Definition TAILQ_REMOVE (head elm : addr) : code unit :=
  do! next := get_elm (Next elm) in
  do! prev := get_place (Prev elm) in
  do! _ := match next with
           | Some next => write (Prev next) (PlaceAt prev)
           | None => write (Last head) (PlaceAt prev)
           end in
  do! next := get_elm (Next elm) in
  do! prev := get_place (Prev elm) in
  write prev (Elm next).

Definition TAILQ_FIRST (head : addr) : code (option addr) := get_elm (First head).
Definition TAILQ_NEXT (elm : addr) : code (option addr) := get_elm (Next elm).
Definition TAILQ_EMPTY (head : addr) : code bool :=
  do! first := get_elm (First head) in
  ret (bool_decide (first = None)).

(** [((struct headname * )c)->tqh_last]: an entry of an element has its two fields in
    the same places as a head, so that the second word after the address of either's
    first field is its back pointer. *)
Definition tqh_last (c : place) : code place :=
  match c with
  | First head => get_place (Last head)
  | Next elm => get_place (Prev elm)
  | _ => undefined
  end.

Definition TAILQ_LAST (head : addr) : code (option addr) :=
  do! last := get_place (Last head) in
  do! last := tqh_last last in
  get_elm last.

Definition TAILQ_PREV (elm : addr) : code (option addr) :=
  do! prev := get_place (Prev elm) in
  do! prev := tqh_last prev in
  get_elm prev.

Definition TAILQ_FOREACH (head : addr) : code (list addr) :=
  for_each (get_elm (First head)) (fun var => get_elm (Next var)).

Definition TAILQ_FOREACH_REVERSE (head : addr) : code (list addr) :=
  for_each
    (do! last := get_place (Last head) in do! last := tqh_last last in get_elm last)
    (fun var => do! prev := get_place (Prev var) in do! prev := tqh_last prev in get_elm prev).

Definition tailq : Macros := {|
  has_last := true;
  has_prev := true;
  initializer := TAILQ_HEAD_INITIALIZER;
  init := TAILQ_INIT;
  change o :=
    match o with
    | InsertHead e => Some (fun a => TAILQ_INSERT_HEAD a e)
    | InsertTail e => Some (fun a => TAILQ_INSERT_TAIL a e)
    | InsertAfter x e => Some (fun a => TAILQ_INSERT_AFTER a x e)
    | InsertBefore x e => Some (fun _ => TAILQ_INSERT_BEFORE x e)
    | Remove e => Some (fun a => TAILQ_REMOVE a e)
    | RemoveHead => None
    end;
  look q :=
    match q with
    | IsEmpty => Some (fun a => answers Truth (TAILQ_EMPTY a))
    | AskFirst => Some (fun a => answers Found (TAILQ_FIRST a))
    | AskLast => Some (fun a => answers Found (TAILQ_LAST a))
    | AskNext x => Some (fun _ => answers Found (TAILQ_NEXT x))
    | AskPrev x => Some (fun _ => answers Found (TAILQ_PREV x))
    | Foreach => Some (fun a => answers Visited (TAILQ_FOREACH a))
    | ForeachReverse => Some (fun a => answers Visited (TAILQ_FOREACH_REVERSE a))
    | LoopNext _ | LoopPrev _ => None
    end
|}.

(** ** The lists *)
Section tailq_correct.
#[local] Existing Instance tailq.

Definition back (c : place) (e : addr) : hProp := (Prev e ↦ PlaceAt c)%I.
Notation chain2 := (chain back).

Definition tailq_last (a : addr) (l : list addr) : hProp := (Last a ↦ PlaceAt (end_of (First a) l))%I.
Definition tailq_rep (a : addr) (l : list addr) : hProp := (chain2 (First a) l ∗ tailq_last a l)%I.

(** An element, the pointer to it and the pointer back. *)
Lemma chain2_at c l1 x l2 :
  chain2 c (l1 ++ x :: l2) ⊣⊢
  segment back c l1 ∗ end_of c l1 ↦ Elm (Some x) ∗ Prev x ↦ PlaceAt (end_of c l1) ∗ chain2 (Next x) l2.
Proof. by rewrite chain_app. Qed.

Lemma chain2_cons c e l :
  chain2 c (e :: l) ⊣⊢
  c ↦ Elm (Some e) ∗ Prev e ↦ PlaceAt c ∗ Next e ↦ Elm (head l) ∗ rest back (Next e) l.
Proof. cbn [chain head]. by rewrite (chain_eq _ (Next e)). Qed.

(** Elements [l] that followed the place [c] follow [c']: the first one, or the head when
    there is none, gets the new address. *)
Lemma wp_repoint a c c' l1 l2 l (Q : unit -> hProp) :
  end_of (First a) l1 = end_of c l -> end_of (First a) l2 = end_of c' l ->
  rest back c l -∗ tailq_last a l1 -∗ (rest back c' l -∗ tailq_last a l2 -∗ Q tt) -∗
  wp (match head l with
      | Some e => write (Prev e) (PlaceAt c')
      | None => write (Last a) (PlaceAt c')
      end) Q.
Proof.
  unfold tailq_last. iIntros (-> ->) "Hr Hl HQ". destruct l as [|e l].
  - iApply (wp_write with "Hl"). iIntros "Hl". iApply ("HQ" with "Hr Hl").
  - iDestruct "Hr" as "[He Hr]". iApply (wp_write with "He"). iIntros "He".
    iApply ("HQ" with "[He Hr] Hl"). by iFrame "He".
Qed.

Lemma tailq_remove_spec a e l l' (Q : unit -> hProp) :
  apply (Remove e) l = Some l' ->
  tailq_rep a l -∗ (tailq_rep a l' -∗ unlinked (Some e) -∗ Q tt) -∗ wp (TAILQ_REMOVE a e) Q.
Proof.
  cbn. intros E. at_element E. iIntros "[Hc Hl] HQ". unfold TAILQ_REMOVE.
  rewrite chain2_at chain_eq. iDestruct "Hc" as "(Hs & Hc & Hp & Hn & Hr)".
  wp_load "Hn". wp_seq. iApply (wp_get_place with "Hp"). iIntros "Hp". wp_seq.
  iApply (wp_repoint a _ _ _ (l1 ++ l2) with "Hr Hl"); [by rewrite end_of_middle|by rewrite end_of_app|].
  iIntros "Hr Hl". wp_load "Hn". wp_seq. iApply (wp_get_place with "Hp"). iIntros "Hp".
  iApply (wp_write with "Hc"). iIntros "Hc". rewrite (any_of (Next e)) (any_of (Prev e)).
  iApply ("HQ" with "[Hs Hc Hr Hl]"); [|by iFrame "Hn Hp"].
  unfold tailq_rep. rewrite chain_app chain_eq. iFrame.
Qed.

Lemma tailq_change_spec o f a l l' (Q : unit -> hProp) :
  change o = Some f -> apply o l = Some l' ->
  tailq_rep a l -∗ unlinked (goes_in o) -∗ (tailq_rep a l' -∗ unlinked (gets_out o l) -∗ Q tt) -∗
  wp (f a) Q.
Proof.
  intros Ef E. destruct o as [e|e|x e|x e| |e]; try done; injection Ef as <-; cbn [goes_in gets_out].
  - injection E as <-. iIntros "[Hc Hl] (Hn & Hp & _) HQ". rewrite chain_eq. iDestruct "Hc" as "[Hf Hr]".
    unfold TAILQ_INSERT_HEAD. wp_load "Hf". wp_seq. wp_put "Hn". wp_seq.
    iApply (wp_repoint a _ _ _ (e :: l) with "Hr Hl"); [done|done|]. iIntros "Hr Hl".
    wp_seq. iApply (wp_write with "Hf"). iIntros "Hf". wp_put "Hp".
    iApply ("HQ" with "[Hf Hn Hp Hr Hl]"); [|done]. unfold tailq_rep. rewrite chain2_cons. iFrame.
  - injection E as <-. iIntros "[Hc Hl] (Hn & Hp & _) HQ". rewrite chain_end. iDestruct "Hc" as "[Hs Hend]".
    unfold TAILQ_INSERT_TAIL. wp_seq. wp_put "Hn". wp_seq. iApply (wp_get_place with "Hl"). iIntros "Hl".
    wp_seq. wp_put "Hp". wp_seq. iApply (wp_get_place with "Hl"). iIntros "Hl".
    wp_seq. iApply (wp_write with "Hend"). iIntros "Hend". iApply (wp_write with "Hl"). iIntros "Hl".
    iApply ("HQ" with "[Hs Hend Hn Hp Hl]"); [|done]. unfold tailq_rep, tailq_last.
    rewrite chain_snoc end_of_snoc. iFrame.
  - cbn in E. at_element E. iIntros "[Hc Hl] (Hn & Hp & _) HQ". rewrite chain_at (chain_eq _ (Next x)).
    iDestruct "Hc" as "(Hs & Hx & Hr)". unfold TAILQ_INSERT_AFTER. wp_load "Hx". wp_seq. wp_put "Hn". wp_seq.
    iApply (wp_repoint a _ _ _ (l1 ++ x :: e :: l2) with "Hr Hl"); [by rewrite end_of_middle..|].
    iIntros "Hr Hl". wp_seq. iApply (wp_write with "Hx"). iIntros "Hx". wp_put "Hp".
    iApply ("HQ" with "[Hs Hx Hn Hp Hr Hl]"); [|done]. unfold tailq_rep. rewrite chain_at chain2_cons. iFrame.
  - cbn in E. at_element E. iIntros "[Hc Hl] (Hn & Hp & _) HQ". rewrite chain2_at.
    iDestruct "Hc" as "(Hs & Hc & Hx & Hr)". unfold TAILQ_INSERT_BEFORE.
    wp_seq. iApply (wp_get_place with "Hx"). iIntros "Hx". wp_seq. wp_put "Hp". wp_seq. wp_put "Hn".
    wp_seq. iApply (wp_get_place with "Hx"). iIntros "Hx". wp_seq. iApply (wp_write with "Hc"). iIntros "Hc".
    iApply (wp_write with "Hx"). iIntros "Hx". iApply ("HQ" with "[Hs Hc Hx Hn Hp Hr Hl]"); [|done].
    unfold tailq_rep, tailq_last. rewrite chain2_at. rewrite !end_of_middle. cbn [chain end_of head]. iFrame.
  - iIntros "H _". by iApply tailq_remove_spec.
Qed.

(** *** Backwards *)

(** The trick: from the place that follows [l1], to the last element of [l1]. *)
Lemma wp_tailq_before a l1 l2 (Q : option addr -> hProp) :
  tailq_rep a (l1 ++ l2) -∗ (tailq_rep a (l1 ++ l2) -∗ Q (list.last l1)) -∗
  wp (do! c := tqh_last (end_of (First a) l1) in get_elm c) Q.
Proof.
  iIntros "[Hc Hl] HQ". wp_seq. destruct l1 as [|e l1 _] using rev_ind; cbn [tqh_last end_of].
  - iApply (wp_get_place with "Hl"). iIntros "Hl". rewrite chain_end. iDestruct "Hc" as "[Hs Hend]".
    iApply (wp_get_elm with "Hend"). iIntros "Hend". iApply "HQ". unfold tailq_rep. rewrite chain_end. iFrame.
  - rewrite end_of_snoc -app_assoc. cbn [tqh_last app]. rewrite chain2_at.
    iDestruct "Hc" as "(Hs & Hc & Hp & Hr)". iApply (wp_get_place with "Hp"). iIntros "Hp".
    iApply (wp_get_elm with "Hc"). iIntros "Hc". rewrite last_snoc. iApply "HQ". unfold tailq_rep.
    rewrite chain2_at. iFrame.
Qed.

Lemma wp_tailq_last a l (Q : option addr -> hProp) :
  tailq_rep a l -∗ (tailq_rep a l -∗ Q (list.last l)) -∗ wp (TAILQ_LAST a) Q.
Proof.
  iIntros "[Hc Hl] HQ". unfold TAILQ_LAST. wp_seq. iApply (wp_get_place with "Hl"). iIntros "Hl".
  rewrite -{1 2 3}(app_nil_r l). iApply (wp_tailq_before a l [] with "[Hc Hl]"); [iFrame|].
  - unfold tailq_last. by rewrite app_nil_r.
  - by rewrite app_nil_r.
Qed.

Lemma wp_tailq_prev a l1 x l2 (Q : option addr -> hProp) :
  tailq_rep a (l1 ++ x :: l2) -∗ (tailq_rep a (l1 ++ x :: l2) -∗ Q (list.last l1)) -∗
  wp (TAILQ_PREV x) Q.
Proof.
  iIntros "[Hc Hl] HQ". unfold TAILQ_PREV. wp_seq. rewrite chain2_at.
  iDestruct "Hc" as "(Hs & Hc & Hp & Hr)". iApply (wp_get_place with "Hp"). iIntros "Hp".
  iApply (wp_tailq_before a l1 (x :: l2) with "[Hs Hc Hp Hr Hl] HQ"). unfold tailq_rep. rewrite chain2_at. iFrame.
Qed.

Lemma tailq_blocks a l : tailq_rep a l ⊢ blocks (length l).
Proof. rewrite -(Nat.add_0_r (length l)). apply blocks_sep; [apply chain_blocks|apply blocks_none]. Qed.

Lemma tailq_first a l (Q : option addr -> hProp) :
  tailq_rep a l -∗ (tailq_rep a l -∗ Q (head l)) -∗ wp (get_elm (First a)) Q.
Proof. iIntros "[Hc Hl] HQ". iApply (wp_chain_first with "Hc"). iIntros "Hc". iApply "HQ". iFrame. Qed.

Lemma tailq_next a l1 x l2 (Q : option addr -> hProp) :
  tailq_rep a (l1 ++ x :: l2) -∗ (tailq_rep a (l1 ++ x :: l2) -∗ Q (head l2)) -∗
  wp (get_elm (Next x)) Q.
Proof. iIntros "[Hc Hl] HQ". iApply (wp_chain_next with "Hc"). iIntros "Hc". iApply "HQ". iFrame. Qed.

Lemma tailq_foreach_reverse a l (Q : list addr -> hProp) :
  tailq_rep a l -∗ (tailq_rep a l -∗ Q (reverse l)) -∗ wp (TAILQ_FOREACH_REVERSE a) Q.
Proof.
  apply wp_for_each.
  - rewrite length_reverse. apply tailq_blocks.
  - intros Q'. rewrite head_reverse. apply wp_tailq_last.
  - intros l1 e l2 Q' Hl. assert (l = reverse l2 ++ e :: reverse l1) as ->.
    { by rewrite -(reverse_involutive l) Hl reverse_app reverse_cons -app_assoc. }
    rewrite -last_reverse. apply wp_tailq_prev.
Qed.

Lemma tailq_look_spec q f a l r (Q : answer -> hProp) :
  look q = Some f -> consult q l = Some r -> tailq_rep a l -∗ (tailq_rep a l -∗ Q r) -∗ wp (f a) Q.
Proof.
  intros Ef E. destruct q as [| | |x|x|x|x| |]; try done; injection Ef as <-; iIntros "H HQ";
    iApply wp_answers; cbn in E.
  - injection E as <-. unfold TAILQ_EMPTY. wp_seq. iApply (tailq_first with "H"). iIntros "H".
    iApply wp_ret. destruct l; by iApply "HQ".
  - injection E as <-. by iApply (tailq_first with "H").
  - injection E as <-. by iApply (wp_tailq_last with "H").
  - at_element E. by iApply (tailq_next with "H").
  - at_element E. by iApply (wp_tailq_prev with "H").
  - injection E as <-. iApply (wp_for_each with "H HQ"); [apply tailq_blocks|apply tailq_first|].
    intros l1 e l2 Q' ->. apply tailq_next.
  - injection E as <-. by iApply (tailq_foreach_reverse with "H").
Qed.

#[export] Instance tailq_ok : Correct tailq.
Proof.
  refine {| rep := tailq_rep; change_spec := tailq_change_spec; look_spec := tailq_look_spec |}; [done|..].
  { iIntros (a) "(H & Hl & _)". unfold tailq_rep. cbn. by iFrame. }
  iIntros (a Q) "(Hf & Hl & _) HQ". cbn [init tailq]. unfold TAILQ_INIT. wp_seq. wp_put "Hf". wp_put "Hl".
  iApply "HQ". unfold tailq_rep. cbn. by iFrame.
Defined.
End tailq_correct.
