(* ===== verification/QueueCircle.v ===== *)
(** The [CIRCLEQ_*] macros of [src/src/queue.h]: doubly linked rings.

    The head is a node of the ring like the elements: the pointers of the first element
    back and of the last element forward are the address of the head, as [void*]. *)

From iris.proofmode Require Import proofmode.
From S2P Require Import Prelude SepLogic QueueSpec.

(** ** Nodes *)
Inductive node := AtHead (head : addr) | AtElm (elm : addr).

#[export] Instance node_eq_dec : EqDecision node.
Proof. solve_decision. Defined.

Definition word_of (n : node) : word :=
  match n with AtHead a => HeadAt a | AtElm e => Elm (Some e) end.

Definition get_node (c : place) : code node :=
  do! w := read c in
  match w with
  | HeadAt a => ret (AtHead a)
  | Elm (Some e) => ret (AtElm e)
  | _ => undefined
  end.

(** [p->field] when [p] points to an element. *)
Definition elm_at (n : node) : code addr :=
  match n with AtElm e => ret e | AtHead _ => undefined end.

(** ** The macros *)
Definition CIRCLEQ_HEAD_INITIALIZER (head : addr) : list (place * word) :=
  [(First head, HeadAt head); (Last head, HeadAt head)].

Definition CIRCLEQ_INIT (head : addr) : code unit :=
  do! _ := write (First head) (HeadAt head) in
  write (Last head) (HeadAt head).

Definition CIRCLEQ_INSERT_AFTER (head listelm elm : addr) : code unit :=
  do! next := get_node (Next listelm) in
  do! _ := write (Next elm) (word_of next) in
  do! _ := write (Prev elm) (Elm (Some listelm)) in
  do! _ := (if decide (next = AtHead head) then write (Last head) (Elm (Some elm))
            else do! next := elm_at next in write (Prev next) (Elm (Some elm))) in
  write (Next listelm) (Elm (Some elm)).

Definition CIRCLEQ_INSERT_BEFORE (head listelm elm : addr) : code unit :=
  do! _ := write (Next elm) (Elm (Some listelm)) in
  do! prev := get_node (Prev listelm) in
  do! _ := write (Prev elm) (word_of prev) in
  do! _ := (if decide (prev = AtHead head) then write (First head) (Elm (Some elm))
            else do! prev := elm_at prev in write (Next prev) (Elm (Some elm))) in
  write (Prev listelm) (Elm (Some elm)).

Definition CIRCLEQ_INSERT_HEAD (head elm : addr) : code unit :=
  do! first := get_node (First head) in
  do! _ := write (Next elm) (word_of first) in
  do! _ := write (Prev elm) (HeadAt head) in
  do! last := get_node (Last head) in
  do! _ := (if decide (last = AtHead head) then write (Last head) (Elm (Some elm))
            else do! first := elm_at first in write (Prev first) (Elm (Some elm))) in
  write (First head) (Elm (Some elm)).

Definition CIRCLEQ_INSERT_TAIL (head elm : addr) : code unit :=
  do! _ := write (Next elm) (HeadAt head) in
  do! last := get_node (Last head) in
  do! _ := write (Prev elm) (word_of last) in
  do! first := get_node (First head) in
  do! _ := (if decide (first = AtHead head) then write (First head) (Elm (Some elm))
            else do! last := elm_at last in write (Next last) (Elm (Some elm))) in
  write (Last head) (Elm (Some elm)).

Definition CIRCLEQ_REMOVE (head elm : addr) : code unit :=
  do! next := get_node (Next elm) in
  do! prev := get_node (Prev elm) in
  do! _ := (if decide (next = AtHead head) then write (Last head) (word_of prev)
            else do! next := elm_at next in write (Prev next) (word_of prev)) in
  do! prev := get_node (Prev elm) in
  do! next := get_node (Next elm) in
  if decide (prev = AtHead head) then write (First head) (word_of next)
  else do! prev := elm_at prev in write (Next prev) (word_of next).

Definition CIRCLEQ_FIRST (head : addr) : code node := get_node (First head).
Definition CIRCLEQ_LAST (head : addr) : code node := get_node (Last head).
Definition CIRCLEQ_NEXT (elm : addr) : code node := get_node (Next elm).
Definition CIRCLEQ_PREV (elm : addr) : code node := get_node (Prev elm).
Definition CIRCLEQ_EMPTY (head : addr) : code bool :=
  do! first := get_node (First head) in
  ret (bool_decide (first = AtHead head)).

Definition CIRCLEQ_LOOP_NEXT (head elm : addr) : code node :=
  do! next := get_node (Next elm) in
  if decide (next = AtHead head) then get_node (First head) else get_node (Next elm).

Definition CIRCLEQ_LOOP_PREV (head elm : addr) : code node :=
  do! prev := get_node (Prev elm) in
  if decide (prev = AtHead head) then get_node (Last head) else get_node (Prev elm).

(** The loops run until the variable is the head. *)
Definition until (head : addr) (var : node) : code (option addr) :=
  if decide (var = AtHead head) then ret None
  else do! e := elm_at var in ret (Some e).

Definition CIRCLEQ_FOREACH (head : addr) : code (list addr) :=
  for_each (do! var := get_node (First head) in until head var)
    (fun var => do! var := get_node (Next var) in until head var).

Definition CIRCLEQ_FOREACH_REVERSE (head : addr) : code (list addr) :=
  for_each (do! var := get_node (Last head) in until head var)
    (fun var => do! var := get_node (Prev var) in until head var).

(** The element a macro finds; the head stands for none. *)
Definition found (n : node) : answer :=
  Found (match n with AtElm e => Some e | AtHead _ => None end).

Definition circleq : Macros := {|
  has_last := true;
  has_prev := true;
  initializer := CIRCLEQ_HEAD_INITIALIZER;
  init := CIRCLEQ_INIT;
  change o :=
    match o with
    | InsertHead e => Some (fun a => CIRCLEQ_INSERT_HEAD a e)
    | InsertTail e => Some (fun a => CIRCLEQ_INSERT_TAIL a e)
    | InsertAfter x e => Some (fun a => CIRCLEQ_INSERT_AFTER a x e)
    | InsertBefore x e => Some (fun a => CIRCLEQ_INSERT_BEFORE a x e)
    | Remove e => Some (fun a => CIRCLEQ_REMOVE a e)
    | RemoveHead => None
    end;
  look q :=
    Some (match q with
    | IsEmpty => fun a => answers Truth (CIRCLEQ_EMPTY a)
    | AskFirst => fun a => answers found (CIRCLEQ_FIRST a)
    | AskLast => fun a => answers found (CIRCLEQ_LAST a)
    | AskNext x => fun _ => answers found (CIRCLEQ_NEXT x)
    | AskPrev x => fun _ => answers found (CIRCLEQ_PREV x)
    | LoopNext x => fun a => answers found (CIRCLEQ_LOOP_NEXT a x)
    | LoopPrev x => fun a => answers found (CIRCLEQ_LOOP_PREV a x)
    | Foreach => fun a => answers Visited (CIRCLEQ_FOREACH a)
    | ForeachReverse => fun a => answers Visited (CIRCLEQ_FOREACH_REVERSE a)
    end)
|}.

(** ** Rings *)
Section circleq_correct.
#[local] Existing Instance circleq.

(** The pointer of a node forward, and the one back. *)
Definition forward (n : node) : place := match n with AtHead a => First a | AtElm e => Next e end.
Definition backward (n : node) : place := match n with AtHead a => Last a | AtElm e => Prev e end.

Definition link (n m : node) : hProp := (forward n ↦ word_of m ∗ backward m ↦ word_of n)%I.

(** From [n] over the elements [l] to [m]. *)
Fixpoint path (n : node) (l : list addr) (m : node) : hProp :=
  match l with
  | [] => link n m
  | e :: l => link n (AtElm e) ∗ path (AtElm e) l m
  end%I.

Definition circleq_rep (a : addr) (l : list addr) : hProp := path (AtHead a) l (AtHead a).

Definition front (l : list addr) (m : node) : node := match head l with Some e => AtElm e | None => m end.
Definition rear (n : node) (l : list addr) : node := match list.last l with Some e => AtElm e | None => n end.

Lemma path_app n l1 x l2 m : path n (l1 ++ x :: l2) m ⊣⊢ path n l1 (AtElm x) ∗ path (AtElm x) l2 m.
Proof. revert n. induction l1 as [|e l1 IH]; intros n; cbn; [done|]. by rewrite IH assoc. Qed.

(** The first link of a path, which can be replaced, and the last one. *)
Lemma path_front n l m :
  path n l m ⊢ link n (front l m) ∗ (∀ k n', path n' k (front l m) -∗ path n' (k ++ l) m).
Proof.
  destruct l as [|e l]; cbn; iIntros "H".
  - iFrame "H". iIntros (k n') "H". by rewrite app_nil_r.
  - iDestruct "H" as "[$ H]". iIntros (k n') "Hk". rewrite path_app. iFrame.
Qed.

Lemma path_rear n l m :
  path n l m ⊢ link (rear n l) m ∗ (∀ k m', path (rear n l) k m' -∗ path n (l ++ k) m').
Proof.
  destruct l as [|e l _] using rev_ind; unfold rear; [|rewrite last_snoc path_app]; cbn; iIntros "H".
  - iFrame "H". by iIntros (k m') "H".
  - iDestruct "H" as "[H $]". iIntros (k m') "Hk". rewrite -app_assoc path_app. iFrame.
Qed.

Lemma path_blocks n l m : path n l m ⊢ blocks (length l).
Proof.
  revert n. induction l as [|e l IH]; intros n; cbn [path length]; [apply blocks_none|].
  change (S (length l)) with ((1 + 0) + length l)%nat.
  apply blocks_sep; [apply blocks_sep; [apply blocks_points_to|apply blocks_none]|apply IH].
Qed.

(** *** Reading *)
Lemma wp_get_node c n (Q : node -> hProp) :
  c ↦ word_of n -∗ (c ↦ word_of n -∗ Q n) -∗ wp (get_node c) Q.
Proof.
  iIntros "Hc HQ". unfold get_node. wp_seq. iApply (wp_read with "Hc"). iIntros "Hc".
  destruct n; iApply wp_ret; by iApply "HQ".
Qed.

Lemma wp_forward n l m (Q : node -> hProp) :
  path n l m -∗ (path n l m -∗ Q (front l m)) -∗ wp (get_node (forward n)) Q.
Proof.
  rewrite {1}path_front. iIntros "[[Hf Hb] Hl] HQ". iApply (wp_get_node with "Hf"). iIntros "Hf".
  iApply "HQ". iApply ("Hl" $! [] n). iFrame.
Qed.

Lemma wp_backward n l m (Q : node -> hProp) :
  path n l m -∗ (path n l m -∗ Q (rear n l)) -∗ wp (get_node (backward m)) Q.
Proof.
  rewrite {1}path_rear. iIntros "[[Hf Hb] Hl] HQ". iApply (wp_get_node with "Hb"). iIntros "Hb".
  iApply "HQ". iSpecialize ("Hl" $! [] m with "[$Hf $Hb]"). by rewrite app_nil_r.
Qed.

Lemma wp_circle_next a l1 x l2 (Q : node -> hProp) :
  circleq_rep a (l1 ++ x :: l2) -∗
  (circleq_rep a (l1 ++ x :: l2) -∗ Q (front l2 (AtHead a))) -∗ wp (get_node (Next x)) Q.
Proof.
  unfold circleq_rep. rewrite path_app. iIntros "[H1 H2] HQ".
  iApply (wp_forward (AtElm x) with "H2"). iIntros "H2". iApply "HQ". iFrame.
Qed.

Lemma wp_circle_prev a l1 x l2 (Q : node -> hProp) :
  circleq_rep a (l1 ++ x :: l2) -∗
  (circleq_rep a (l1 ++ x :: l2) -∗ Q (rear (AtHead a) l1)) -∗ wp (get_node (Prev x)) Q.
Proof.
  unfold circleq_rep. rewrite path_app. iIntros "[H1 H2] HQ".
  iApply (wp_backward _ _ (AtElm x) with "H1"). iIntros "H1". iApply "HQ". iFrame.
Qed.

Lemma wp_circle_first a l (Q : node -> hProp) :
  circleq_rep a l -∗ (circleq_rep a l -∗ Q (front l (AtHead a))) -∗ wp (get_node (First a)) Q.
Proof. apply (wp_forward (AtHead a)). Qed.

Lemma wp_circle_last a l (Q : node -> hProp) :
  circleq_rep a l -∗ (circleq_rep a l -∗ Q (rear (AtHead a) l)) -∗ wp (get_node (Last a)) Q.
Proof. apply (wp_backward _ _ (AtHead a)). Qed.

(** *** Changing *)
Lemma front_head l a b : front l (AtHead a) = AtHead b -> b = a.
Proof. destruct l; cbn; congruence. Qed.

Lemma rear_head l a b : rear (AtHead a) l = AtHead b -> b = a.
Proof. unfold rear. destruct (list.last l); congruence. Qed.

Lemma front_elm l e a : front l (AtElm e) <> AtHead a.
Proof. by destruct l. Qed.

Lemma rear_elm l e a : rear (AtElm e) l <> AtHead a.
Proof. unfold rear. by destruct (list.last l). Qed.

(** The neighbours of a place in the ring get their new pointers. *)
Lemma wp_set_backward a n v w (Q : unit -> hProp) :
  (forall b, n = AtHead b -> b = a) ->
  backward n ↦ v -∗ (backward n ↦ w -∗ Q tt) -∗
  wp (if decide (n = AtHead a) then write (Last a) w else do! e := elm_at n in write (Prev e) w) Q.
Proof.
  iIntros (Hn) "Hb HQ". destruct n as [b|e]; cbn [backward].
  - rewrite (Hn b) //. case_decide; [|done]. by iApply (wp_write with "Hb").
  - case_decide; [done|]. wp_seq. iApply wp_ret. by iApply (wp_write with "Hb").
Qed.

Lemma wp_set_forward a n v w (Q : unit -> hProp) :
  (forall b, n = AtHead b -> b = a) ->
  forward n ↦ v -∗ (forward n ↦ w -∗ Q tt) -∗
  wp (if decide (n = AtHead a) then write (First a) w else do! e := elm_at n in write (Next e) w) Q.
Proof.
  iIntros (Hn) "Hf HQ". destruct n as [b|e]; cbn [forward].
  - rewrite (Hn b) //. case_decide; [|done]. by iApply (wp_write with "Hf").
  - case_decide; [done|]. wp_seq. iApply wp_ret. by iApply (wp_write with "Hf").
Qed.

Ltac wp_node H := wp_seq; iApply (wp_get_node with H); iIntros H; cbn beta.

Lemma circleq_insert_after_spec a l1 x l2 e (Q : unit -> hProp) :
  circleq_rep a (l1 ++ x :: l2) -∗ unlinked (Some e) -∗ (circleq_rep a (l1 ++ x :: e :: l2) -∗ Q tt) -∗
  wp (CIRCLEQ_INSERT_AFTER a x e) Q.
Proof.
  unfold circleq_rep. rewrite !path_app (path_front _ l2). cbn [path].
  iIntros "(H1 & (Hf & Hb) & H2) (Hn & Hp & _) HQ". unfold CIRCLEQ_INSERT_AFTER.
  wp_node "Hf". wp_seq. wp_put "Hn". wp_seq. wp_put "Hp". wp_seq.
  iApply (wp_set_backward with "Hb"); [apply front_head|]. iIntros "Hb". iApply (wp_write with "Hf"). iIntros "Hf".
  iApply "HQ". iFrame "H1 Hf Hp". iApply ("H2" $! [] (AtElm e)). iFrame.
Qed.

Lemma circleq_insert_before_spec a l1 x l2 e (Q : unit -> hProp) :
  circleq_rep a (l1 ++ x :: l2) -∗ unlinked (Some e) -∗ (circleq_rep a (l1 ++ e :: x :: l2) -∗ Q tt) -∗
  wp (CIRCLEQ_INSERT_BEFORE a x e) Q.
Proof.
  unfold circleq_rep. rewrite !path_app (path_rear _ l1). cbn [path].
  iIntros "(((Hf & Hb) & H1) & H2) (Hn & Hp & _) HQ". unfold CIRCLEQ_INSERT_BEFORE.
  wp_seq. wp_put "Hn". wp_node "Hb". wp_seq. wp_put "Hp". wp_seq.
  iApply (wp_set_forward with "Hf"); [apply rear_head|]. iIntros "Hf". iApply (wp_write with "Hb"). iIntros "Hb".
  iApply "HQ". iFrame "H2 Hb Hn". iSpecialize ("H1" $! [] (AtElm e) with "[$Hf $Hp]"). by rewrite app_nil_r.
Qed.

Lemma circleq_insert_head_spec a l e (Q : unit -> hProp) :
  circleq_rep a l -∗ unlinked (Some e) -∗ (circleq_rep a (e :: l) -∗ Q tt) -∗
  wp (CIRCLEQ_INSERT_HEAD a e) Q.
Proof.
  unfold circleq_rep. destruct l as [|y l]; cbn [path];
    [iIntros "(Hf & Hb) (Hn & Hp & _) HQ"|iIntros "((Hf & Hb) & H) (Hn & Hp & _) HQ"];
    unfold CIRCLEQ_INSERT_HEAD; wp_node "Hf"; wp_seq; wp_put "Hn"; wp_seq; wp_put "Hp"; wp_seq.
  - iApply (wp_get_node _ (AtHead a) with "Hb"). iIntros "Hb". rewrite decide_True //.
    wp_seq. iApply (wp_write with "Hb"). iIntros "Hb".
    iApply (wp_write with "Hf"). iIntros "Hf". iApply "HQ". iFrame.
  - iApply (wp_backward with "H"). iIntros "H". rewrite decide_False; [|apply rear_elm].
    wp_seq. wp_seq. iApply wp_ret. iApply (wp_write with "Hb"). iIntros "Hb".
    iApply (wp_write with "Hf"). iIntros "Hf". iApply "HQ". iFrame.
Qed.

Lemma circleq_insert_tail_spec a l e (Q : unit -> hProp) :
  circleq_rep a l -∗ unlinked (Some e) -∗ (circleq_rep a (l ++ [e]) -∗ Q tt) -∗
  wp (CIRCLEQ_INSERT_TAIL a e) Q.
Proof.
  unfold circleq_rep. rewrite path_app. destruct l as [|y l _] using rev_ind; [|rewrite !path_app]; cbn [path];
    [iIntros "(Hf & Hb) (Hn & Hp & _) HQ"|iIntros "(H & Hf & Hb) (Hn & Hp & _) HQ"];
    unfold CIRCLEQ_INSERT_TAIL; wp_seq; wp_put "Hn"; wp_node "Hb"; wp_seq; wp_put "Hp"; wp_seq.
  - iApply (wp_get_node _ (AtHead a) with "Hf"). iIntros "Hf". rewrite decide_True //.
    wp_seq. iApply (wp_write with "Hf"). iIntros "Hf".
    iApply (wp_write with "Hb"). iIntros "Hb". iApply "HQ". iFrame.
  - iApply (wp_forward with "H"). iIntros "H". rewrite decide_False; [|apply front_elm].
    wp_seq. wp_seq. iApply wp_ret. iApply (wp_write with "Hf"). iIntros "Hf".
    iApply (wp_write with "Hb"). iIntros "Hb". iApply "HQ". iFrame.
Qed.

Lemma circleq_remove_spec a l1 e l2 (Q : unit -> hProp) :
  circleq_rep a (l1 ++ e :: l2) -∗ (circleq_rep a (l1 ++ l2) -∗ unlinked (Some e) -∗ Q tt) -∗
  wp (CIRCLEQ_REMOVE a e) Q.
Proof.
  unfold circleq_rep. rewrite path_app (path_rear _ l1) (path_front _ l2).
  iIntros "(((Hr & Hp) & H1) & (Hn & Hf) & H2) HQ". unfold CIRCLEQ_REMOVE.
  wp_node "Hn". wp_node "Hp". wp_seq. iApply (wp_set_backward with "Hf"); [apply front_head|]. iIntros "Hf".
  wp_node "Hp". wp_node "Hn". iApply (wp_set_forward with "Hr"); [apply rear_head|]. iIntros "Hr".
  cbn [forward backward]. rewrite (any_of (Next e)) (any_of (Prev e)).
  iApply ("HQ" with "[Hr Hf H1 H2]"); [|by iFrame "Hn Hp"].
  iApply "H1". iApply ("H2" $! []). iFrame.
Qed.

Lemma circleq_change_spec o f a l l' (Q : unit -> hProp) :
  change o = Some f -> apply o l = Some l' ->
  circleq_rep a l -∗ unlinked (goes_in o) -∗ (circleq_rep a l' -∗ unlinked (gets_out o l) -∗ Q tt) -∗
  wp (f a) Q.
Proof.
  intros Ef E. iIntros "H He HQ".
  destruct o as [e|e|x e|x e| |e]; try done; injection Ef as <-; cbn [goes_in gets_out]; cbn in E;
    try at_element E; try injection E as <-.
  - iApply (circleq_insert_head_spec with "H He"). iIntros "H". by iApply ("HQ" with "H").
  - iApply (circleq_insert_tail_spec with "H He"). iIntros "H". by iApply ("HQ" with "H").
  - iApply (circleq_insert_after_spec with "H He"). iIntros "H". by iApply ("HQ" with "H").
  - iApply (circleq_insert_before_spec with "H He"). iIntros "H". by iApply ("HQ" with "H").
  - by iApply (circleq_remove_spec with "H").
Qed.

(** *** Looking *)
Lemma wp_until a l (Q : option addr -> hProp) : Q (head l) ⊢ wp (until a (front l (AtHead a))) Q.
Proof.
  unfold until. destruct l as [|e l]; case_decide; try done.
  - apply wp_ret.
  - iIntros "HQ". wp_seq. iApply wp_ret. by iApply wp_ret.
Qed.

Lemma rear_front a l : rear (AtHead a) l = front (reverse l) (AtHead a).
Proof. unfold rear, front. by rewrite head_reverse. Qed.

Lemma circleq_foreach a l (Q : list addr -> hProp) :
  circleq_rep a l -∗ (circleq_rep a l -∗ Q l) -∗ wp (CIRCLEQ_FOREACH a) Q.
Proof.
  apply wp_for_each; [apply path_blocks|..].
  - iIntros (Q') "H HQ". wp_seq. iApply (wp_circle_first with "H"). iIntros "H". iApply wp_until. by iApply "HQ".
  - iIntros (l1 e l2 Q' ->) "H HQ". wp_seq. iApply (wp_circle_next with "H"). iIntros "H". iApply wp_until. by iApply "HQ".
Qed.

Lemma circleq_foreach_reverse a l (Q : list addr -> hProp) :
  circleq_rep a l -∗ (circleq_rep a l -∗ Q (reverse l)) -∗ wp (CIRCLEQ_FOREACH_REVERSE a) Q.
Proof.
  apply wp_for_each; [rewrite length_reverse; apply path_blocks|..].
  - iIntros (Q') "H HQ". wp_seq. iApply (wp_circle_last with "H"). iIntros "H". rewrite rear_front.
    iApply wp_until. by iApply "HQ".
  - iIntros (l1 e l2 Q' Hl) "H HQ". assert (l = reverse l2 ++ e :: reverse l1) as ->.
    { by rewrite -(reverse_involutive l) Hl reverse_app reverse_cons -app_assoc. }
    wp_seq. iApply (wp_circle_prev with "H"). iIntros "H". rewrite rear_front reverse_involutive.
    iApply wp_until. by iApply "HQ".
Qed.

Lemma found_front l a : found (front l (AtHead a)) = Found (head l).
Proof. by destruct l. Qed.

Lemma found_rear l a : found (rear (AtHead a) l) = Found (list.last l).
Proof. unfold rear. by destruct (list.last l). Qed.

Lemma circleq_loop_next a l1 x l2 (Q : node -> hProp) :
  circleq_rep a (l1 ++ x :: l2) -∗
  (circleq_rep a (l1 ++ x :: l2) -∗ Q (front (l2 ++ l1 ++ x :: l2) (AtHead a))) -∗
  wp (CIRCLEQ_LOOP_NEXT a x) Q.
Proof.
  iIntros "H HQ". unfold CIRCLEQ_LOOP_NEXT. wp_seq. iApply (wp_circle_next with "H"). iIntros "H".
  destruct l2 as [|y l2]; case_decide; try done.
  - by iApply (wp_circle_first with "H").
  - by iApply (wp_circle_next with "H").
Qed.

Lemma circleq_loop_prev a l1 x l2 (Q : node -> hProp) :
  circleq_rep a (l1 ++ x :: l2) -∗
  (circleq_rep a (l1 ++ x :: l2) -∗ Q (rear (AtHead a) ((l1 ++ x :: l2) ++ l1))) -∗
  wp (CIRCLEQ_LOOP_PREV a x) Q.
Proof.
  iIntros "H HQ". unfold CIRCLEQ_LOOP_PREV. wp_seq. iApply (wp_circle_prev with "H"). iIntros "H".
  destruct l1 as [|y l1 _] using rev_ind; unfold rear; [rewrite app_nil_r|rewrite assoc !last_snoc].
  - case_decide; [|done]. by iApply (wp_circle_last with "H").
  - case_decide; [done|]. iApply (wp_circle_prev with "H"). unfold rear. by rewrite last_snoc.
Qed.

Lemma circleq_look_spec q f a l r (Q : answer -> hProp) :
  look q = Some f -> consult q l = Some r -> circleq_rep a l -∗ (circleq_rep a l -∗ Q r) -∗ wp (f a) Q.
Proof.
  intros [= <-] E. iIntros "H HQ".
  destruct q as [| | |x|x|x|x| |]; iApply wp_answers; cbn in E; try at_element E; try injection E as <-.
  - unfold CIRCLEQ_EMPTY. wp_seq. iApply (wp_circle_first with "H"). iIntros "H".
    iApply wp_ret. destruct l; cbn [front head]; case_bool_decide; try done; by iApply "HQ".
  - iApply (wp_circle_first with "H"). by rewrite found_front.
  - iApply (wp_circle_last with "H"). by rewrite found_rear.
  - iApply (wp_circle_next with "H"). by rewrite found_front.
  - iApply (wp_circle_prev with "H"). by rewrite found_rear.
  - iApply (circleq_loop_next with "H"). by rewrite found_front.
  - iApply (circleq_loop_prev with "H"). by rewrite found_rear.
  - by iApply (circleq_foreach with "H").
  - by iApply (circleq_foreach_reverse with "H").
Qed.

#[export] Instance circleq_ok : Correct circleq.
Proof.
  refine {| rep := circleq_rep; change_spec := circleq_change_spec; look_spec := circleq_look_spec |}; [done|..].
  { iIntros (a) "(H & Hl & _)". unfold circleq_rep. cbn. by iFrame. }
  iIntros (a Q) "(Hf & Hl & _) HQ". cbn [init circleq]. unfold CIRCLEQ_INIT. wp_seq. wp_put "Hf". wp_put "Hl".
  iApply "HQ". unfold circleq_rep. cbn. by iFrame.
Defined.
End circleq_correct.
