(* ===== verification/QueueKinds.v ===== *)
(** The five sets of macros of [src/src/queue.h] that kvtrees do not use, together:
    programs that use any of them compute with lists. *)

From S2P Require Import Prelude SepLogic QueueSpec QueueSingle QueueTail QueueCircle.

Inductive kind := SLIST | STAILQ | SIMPLEQ | TAILQ | CIRCLEQ.

Definition macros (k : kind) : Macros :=
  match k with
  | SLIST => slist
  | STAILQ => stailq
  | SIMPLEQ => simpleq
  | TAILQ => tailq
  | CIRCLEQ => circleq
  end.

Lemma macros_correct k : Correct (macros k).
Proof. destruct k; apply _. Defined.

(** C13. The [SLIST_*], [STAILQ_*], [SIMPLEQ_*], [TAILQ_*] and [CIRCLEQ_*] macros
    implement functional lists.  A program with any number of heads and elements that
    uses one set of macros as it is meant to be used (a head is initialised once, when it
    is declared or by a macro, an element is in one list at most, the element an operation works at is in the list)
    follows no pointer that was not set, every loop stops, and every answer, the
    elements a loop visits in either direction included, is that of the lists. *)
Theorem queue_macros_refine k heads statics elms cs st out :
  NoDup (heads ++ statics) -> NoDup elms ->
  @run_lists (macros k) cs (start heads statics elms) = Some (st, out) ->
  exists m, @run (macros k) cs (@start_store (macros k) heads statics elms) = Ok (out, m).
Proof. apply (@run_refines _ (macros_correct k)). Qed.

(** Two rings; an element moves from one to the other. *)
Definition sample_rings : list command :=
  [ Init 1; Change 1 (InsertTail 10); Change 1 (InsertHead 11); Change 1 (InsertAfter 11 12);
    Change 1 (InsertBefore 11 13); Look 1 Foreach; Look 1 ForeachReverse; Change 1 (Remove 12);
    Change 2 (InsertTail 12); Look 1 (LoopNext 10); Look 1 (AskPrev 13); Look 2 Foreach; Look 2 IsEmpty;
    Change 1 (Remove 10); Look 1 AskLast; Look 1 (LoopPrev 13) ]%positive.

Lemma queue_macros_refine_witness :
  exists m,
    @run (macros CIRCLEQ) sample_rings (@start_store (macros CIRCLEQ) [1] [2] [10; 11; 12; 13])%positive
    = Ok ([Visited [13; 11; 12; 10]; Visited [10; 12; 11; 13]; Found (Some 13); Found None;
           Visited [12]; Truth false; Found (Some 11); Found (Some 11)]%positive, m).
Proof.
  eapply (queue_macros_refine CIRCLEQ [1]%positive [2]%positive [10; 11; 12; 13]%positive).
  - by apply (bool_decide_unpack _).
  - by apply (bool_decide_unpack _).
  - vm_compute. reflexivity.
Defined.

(** The same program on a singly linked tail queue, where it applies. *)
Example stailq_runs :
  (fun r => r.1) <$>
  (match @run (macros STAILQ)
    [Init 1; Change 1 (InsertTail 10); Change 1 (InsertTail 11); Change 1 (InsertAfter 11 12);
     Change 1 (Remove 12); Change 1 (InsertTail 13); Change 1 RemoveHead; Look 1 Foreach]%positive
    (@start_store (macros STAILQ) [1] [] [10; 11; 12; 13])%positive with Ok r => Some r | _ => None end)
  = Some [Visited [11; 13]%positive].
Proof. vm_compute. reflexivity. Qed.
