(* ===== verification/TvDisplay.v ===== *)
(** Showing a hash in the TotalView debugger: [src/src/tv_data_display.c] and
    [TV_ttf_display_type] of [src/src/kvtree.c].

    The debugger calls [TV_ttf_pre_display_callback], then [TV_ttf_display_type],
    which calls [TV_ttf_add_row] for each element, and then reads the rows as a C
    string from a buffer of 16384 bytes.  A [char*] into the buffer is an offset; a
    function that writes into the buffer takes its contents, the offset and the
    room [len], and returns the number of characters, the new offset and room, and
    the new contents.  Writing outside of the buffer is undefined.  [fuel] bounds
    the number of steps of each loop. *)

From S2P Require Import Prelude CLib.

(** ** Results and codes *)
Inductive TV_ttf_format_result :=
  TV_ttf_format_ok | TV_ttf_format_ok_elide | TV_ttf_format_failed | TV_ttf_format_raw | TV_ttf_format_never.

Definition TV_ttf_is_format_result_ok (fr : TV_ttf_format_result) : Z :=
  match fr with
  | TV_ttf_format_ok | TV_ttf_format_ok_elide => 1
  | _ => 0
  end.

Definition TV_ttf_ec_ok : Z := 0.
Definition TV_ttf_ec_not_active : Z := 1.
Definition TV_ttf_ec_invalid_characters : Z := 2.
Definition TV_ttf_ec_buffer_exhausted : Z := 3.

Definition TV_ttf_type_ascii_string : cstring := str "$string".

Definition DATA_FORMAT_BUFFER_SIZE : nat := Z.to_nat 16384.
Definition TV_FORMAT_INACTIVE : Z := 0.
Definition TV_FORMAT_FIRST_CALL : Z := 1.
Definition TV_FORMAT_APPEND_CALL : Z := 2.

(** The variables of the file. *)
Record display := Display {
  TV_ttf_data_format_control : Z;
  TV_ttf_data_format_buffer : list byte;
  TV_ttf_data_buffer_ptr : nat
}.

Definition tab : byte := Init.Byte.x09.
Definition newline : byte := Init.Byte.x0a.

(** ** Characters *)
Fixpoint my_zeroit (n : nat) (cp : nat) (buffer : list byte) : outcome (list byte) :=
  match n with
  | O => Ok buffer
  | S n => let* buffer := mem_write buffer cp [NUL] in my_zeroit n (S cp) buffer
  end.

(** The inner loop: [*s] is one of the characters. *)
Fixpoint accepts (b : byte) (accept : cstring) : bool :=
  match accept with
  | [] => false
  | t :: accept => if Byte.eqb b t then true else accepts b accept
  end.

Fixpoint strpbrk_loop (s accept : cstring) : option cstring :=
  match s with
  | [] => None
  | b :: next => if accepts b accept then Some s else strpbrk_loop next accept
  end.

Definition my_strpbrk (str accept : cstring) : option cstring :=
  strpbrk_loop (c_str str) (c_str accept).

(** ** Writing rows *)
Notation writer := (list byte -> nat -> Z -> outcome (Z * nat * Z * list byte)).

(** Two writers one after the other; the sum of what they return. *)
Definition and_then (a b : writer) : writer := fun buffer cursor len =>
  let* (ret_val, cursor, len, buffer) := a buffer cursor len in
  let* (r, cursor, len, buffer) := b buffer cursor len in
  Ok (i32 (ret_val + r), cursor, len, buffer).

Section fuel.
Variable fuel : nat.

(** The string advances only when a character is written. *)
Fixpoint marshal_loop (fuel : nat) (s : cstring) (ret_val : Z) : writer := fun buffer cursor len =>
  match fuel with
  | O => NoFuel
  | S fuel =>
      match s with
      | [] => Ok (ret_val, cursor, len, buffer)
      | b :: next =>
          let ret_val := i32 (ret_val + 1) in
          if 1 <? len then
            let* buffer := mem_write buffer cursor [b] in
            marshal_loop fuel next ret_val buffer (S cursor) (len - 1)
          else marshal_loop fuel s ret_val buffer cursor len
      end
  end.

Definition marshal_string (s : cstring) : writer := fun buffer cursor len =>
  let* (ret_val, cursor, len, buffer) := marshal_loop fuel (c_str s) 0 buffer cursor len in
  let* buffer := if 0 <? len then mem_write buffer cursor [NUL] else Ok buffer in
  Ok (ret_val, cursor, len, buffer).

(** The array [digits] and the number of its bytes, with the NUL. *)
Definition tv_digits : cstring := str "0123456789abcdefghijklmnopqrstuvwxyz".
Definition base_bound : Z := 37.

Fixpoint marshal_unsigned_body (n : nat) (val base : Z) : writer := fun buffer cursor len =>
  match n with
  | O => NoFuel
  | S n =>
      if val <? base then
        match tv_digits !! Z.to_nat val with
        | Some d => marshal_string [d] buffer cursor len
        | None => Undef
        end
      else
        let q := val / base in
        let r := val - q * base in
        match tv_digits !! Z.to_nat r with
        | Some d => and_then (marshal_unsigned_body n q base) (marshal_string [d]) buffer cursor len
        | None => Undef
        end
  end.

(** What is left in [*nbuffer] and [*nlen] for a base that is too large is not
    used: the callers pass 16. *)
Definition marshal_unsigned (val base : Z) : writer := fun buffer cursor len =>
  let base := if base =? 0 then 10 else base in
  if base <? base_bound then marshal_unsigned_body fuel val base buffer cursor len
  else Undef.

Definition marshal_hex (hex_val : Z) : writer :=
  and_then (marshal_string (str "0x")) (marshal_unsigned hex_val 16).

Definition marshal_row (field_name type_name : cstring) (value : Z) : writer :=
  and_then (and_then (and_then (and_then (and_then
    (marshal_string field_name) (marshal_string [tab])) (marshal_string type_name))
    (marshal_string [tab])) (marshal_hex value)) (marshal_string [newline]).

(** ** The interface *)
Definition TV_ttf_add_row (field_name type_name : option cstring) (value : Z) (d : display)
    : outcome (Z * display) :=
  if TV_ttf_data_format_control d =? TV_FORMAT_INACTIVE then Ok (TV_ttf_ec_not_active, d)
  else
    match field_name with
    | None => Undef
    | Some field_name =>
        match my_strpbrk field_name [newline; tab] with
        | Some _ => Ok (TV_ttf_ec_invalid_characters, d)
        | None =>
            match type_name with
            | None => Undef
            | Some type_name =>
                match my_strpbrk type_name [newline; tab] with
                | Some _ => Ok (TV_ttf_ec_invalid_characters, d)
                | None =>
                    let* d :=
                      if TV_ttf_data_format_control d =? TV_FORMAT_FIRST_CALL then
                        let* buffer := my_zeroit DATA_FORMAT_BUFFER_SIZE 0 (TV_ttf_data_format_buffer d) in
                        Ok (Display TV_FORMAT_APPEND_CALL buffer 0)
                      else Ok d in
                    let remaining :=
                      Z.of_nat (TV_ttf_data_buffer_ptr d) + Z.of_nat DATA_FORMAT_BUFFER_SIZE - 0 in
                    let* (out, _, _, buffer) :=
                      marshal_row field_name type_name value
                        (TV_ttf_data_format_buffer d) (TV_ttf_data_buffer_ptr d) remaining in
                    let d := Display (TV_ttf_data_format_control d) buffer (TV_ttf_data_buffer_ptr d) in
                    if out <? 1 then Ok (TV_ttf_ec_buffer_exhausted, d)
                    else Ok (TV_ttf_ec_ok, Display (TV_ttf_data_format_control d) buffer
                                             (TV_ttf_data_buffer_ptr d + Z.to_nat out))
                end
            end
        end
    end.

Definition TV_ttf_pre_display_callback (d : display) : display :=
  Display TV_FORMAT_FIRST_CALL (TV_ttf_data_format_buffer d) (TV_ttf_data_buffer_ptr d).

Definition TV_ttf_post_display_callback (d : display) : display :=
  Display TV_FORMAT_INACTIVE (TV_ttf_data_format_buffer d) (TV_ttf_data_buffer_ptr d).
End fuel.

(** The arguments of a call of [TV_ttf_add_row]. *)
Record row := Row { field_name : option cstring; type_name : option cstring; value : Z }.

(** The calls of [TV_ttf_add_row] for some rows, and what they return. *)
Fixpoint add_rows (fuel : nat) (rows : list row) (d : display) : outcome (list Z * display) :=
  match rows with
  | [] => Ok ([], d)
  | Row f t v :: rows =>
      let* (rc, d) := TV_ttf_add_row fuel f t v d in
      let* (rcs, d) := add_rows fuel rows d in
      Ok (rc :: rcs, d)
  end.

(** ** What the writers do

    [m] writes [s] when there is room for it and a NUL; when the end of the buffer
    comes before the end of the room, it writes outside of the buffer. *)
Definition writes (m : writer) (s : cstring) : Prop :=
  forall w rest len,
    Z.of_nat (length s) <= INT_MAX ->
    ((length s < length rest)%nat -> Z.of_nat (length s) < len ->
     exists rest', m (w ++ rest) (length w) len =
       Ok (Z.of_nat (length s), length (w ++ s), len - Z.of_nat (length s), (w ++ s) ++ NUL :: rest') /\
       (length s + S (length rest') = length rest)%nat) /\
    ((length rest <= length s)%nat -> Z.of_nat (length rest) + 1 < len ->
     m (w ++ rest) (length w) len = Undef).

Lemma write_one w x rest b :
  mem_write (w ++ x :: rest) (length w) [b] = Ok ((w ++ [b]) ++ rest).
Proof. rewrite <- app_assoc. by apply (mem_write_split w [x] rest [b]). Qed.

Lemma write_past w b : mem_write (w ++ []) (length w) [b] = Undef.
Proof. unfold mem_write. rewrite decide_False; [done|]. rewrite app_nil_r. simpl. lia. Qed.

Lemma marshal_loop_writes n s r w rest len :
  (length s < n)%nat -> 0 <= r -> r + Z.of_nat (length s) <= INT_MAX ->
  Z.of_nat (length (take (S (length rest)) s)) < len ->
  marshal_loop n s r (w ++ rest) (length w) len =
  if decide (length s <= length rest)%nat then
    Ok (r + Z.of_nat (length s), length (w ++ s), len - Z.of_nat (length s),
        (w ++ s) ++ drop (length s) rest)
  else Undef.
Proof.
  revert s r w rest len. induction n as [|n IH]; intros s r w rest len Hn Hr Hi Hlen; [lia|].
  destruct s as [|b s]; cbn [marshal_loop].
  - rewrite decide_True by (simpl; lia). simpl. rewrite app_nil_r. do 3 f_equal; [|lia]. f_equal. lia.
  - cbn [length] in *. rewrite i32_id by (int_unfold; lia).
    rewrite (proj2 (Z.ltb_lt 1 len)) by (cbn [take length] in Hlen; lia).
    destruct rest as [|x rest].
    + rewrite write_past, decide_False by (simpl; lia). done.
    + rewrite write_one. cbn [obind length]. replace (S (length w)) with (length (w ++ [b])) by (rewrite length_app; simpl; lia).
      rewrite IH; [| lia | lia | lia | cbn [length take] in Hlen; lia].
      repeat case_decide; try lia; [|done]. rewrite <- !app_assoc. cbn [app drop]. do 3 f_equal; [|lia]. f_equal. lia.
Qed.

Lemma marshal_string_writes fuel s :
  (length (c_str s) < fuel)%nat -> writes (marshal_string fuel s) (c_str s).
Proof.
  intros Hf w rest len Hi. unfold marshal_string. split; intros Hr Hlen.
  - rewrite marshal_loop_writes by (rewrite ?length_take; lia). rewrite decide_True by lia. cbn [obind].
    rewrite (proj2 (Z.ltb_lt _ _)) by lia.
    destruct (drop (length (c_str s)) rest) as [|x rest'] eqn:Ed.
    { apply (f_equal length) in Ed. rewrite length_drop in Ed. simpl in Ed. lia. }
    rewrite write_one. cbn [obind]. exists rest'. split; [by rewrite <- app_assoc|].
    apply (f_equal length) in Ed. rewrite length_drop in Ed. simpl in Ed. lia.
  - rewrite marshal_loop_writes by (rewrite ?length_take; lia). case_decide; [|done]. cbn [obind].
    rewrite (proj2 (Z.ltb_lt _ _)) by lia.
    rewrite drop_ge by lia. by rewrite write_past.
Qed.

Lemma and_then_writes a b s t : writes a s -> writes b t -> writes (and_then a b) (s ++ t).
Proof.
  intros Ha Hb w rest len Hi. rewrite length_app in Hi |- *. unfold and_then. split; intros Hr Hlen.
  - destruct (Ha w rest len) as [(rest1 & -> & H1) _]; [lia..|]. cbn [obind].
    destruct (Hb (w ++ s) (NUL :: rest1) (len - Z.of_nat (length s))) as [(rest2 & -> & H2) _];
      [lia|simpl; lia|lia|]. cbn [obind].
    exists rest2. simpl in H2. split; [|lia]. rewrite i32_id by (int_unfold; lia).
    rewrite <- !app_assoc. do 3 f_equal; [|lia]. f_equal. lia.
  - destruct (decide (length rest <= length s)%nat) as [Hs|Hs].
    + by rewrite (proj2 (Ha w rest len ltac:(lia))) by lia.
    + destruct (Ha w rest len) as [(rest1 & -> & H1) _]; [lia..|]. cbn [obind].
      by rewrite (proj2 (Hb (w ++ s) (NUL :: rest1) (len - Z.of_nat (length s)) ltac:(lia))) by (simpl; lia).
Qed.

(** The digits are those of [printf]. *)
Lemma digits_app f base n acc : digits f base n acc = digits f base n [] ++ acc.
Proof.
  revert n acc. induction f as [|f IH]; intros n acc; cbn [digits]; [done|].
  destruct (n <? base); [done|]. rewrite IH, (IH _ [_]). by rewrite <- app_assoc.
Qed.

Lemma tv_digit r : 0 <= r < 16 -> tv_digits !! Z.to_nat r = Some (digit_byte r).
Proof.
  intros Hr. assert (exists k, Z.of_nat k = r /\ (k < 16)%nat) as (k & <- & Hk) by (exists (Z.to_nat r); lia).
  rewrite Nat2Z.id. do 16 (destruct k as [|k]; [done|]). lia.
Qed.

Lemma digit_string fuel r :
  (1 < fuel)%nat -> 0 <= r < 16 -> writes (marshal_string fuel [digit_byte r]) [digit_byte r].
Proof.
  intros Hf Hr. pose proof (marshal_string_writes fuel [digit_byte r]) as H.
  rewrite c_str_id in H; [by apply H|].
  pose proof (digits_nul_free 16 1 r [] ltac:(lia) ltac:(apply not_elem_of_nil)) as Hd. cbn in Hd.
  rewrite Z.mod_small in Hd by lia. by destruct (r <? 16).
Qed.

Lemma marshal_unsigned_body_writes fuel n f val :
  (1 < fuel)%nat -> (f <= n)%nat -> 0 <= val < 16 ^ Z.of_nat f -> (0 < f)%nat ->
  writes (marshal_unsigned_body fuel n val 16) (digits f 16 val []).
Proof.
  intros Hfuel. revert f val. induction n as [|n IH]; intros [|f] val Hn Hval Hf; [lia..|].
  cbn [digits]. intros w rest len Hi. cbn [marshal_unsigned_body]. destruct (Z.ltb_spec val 16) as [Hb|Hb].
  - rewrite tv_digit by lia. rewrite Z.mod_small in Hi |- * by lia.
    by apply (digit_string fuel val Hfuel (conj (proj1 Hval) Hb) w rest len).
  - replace (val - val / 16 * 16) with (val mod 16) by (rewrite Z.mod_eq; lia).
    pose proof (Z.mod_pos_bound val 16 ltac:(lia)) as Hm. rewrite tv_digit by done.
    rewrite digits_app in Hi |- *.
    apply (and_then_writes _ _ (digits f 16 (val / 16) []) _); [|by apply digit_string|done].
    rewrite Nat2Z.inj_succ, Z.pow_succ_r in Hval by lia. destruct f as [|f]; [simpl in Hval; lia|].
    apply IH; [lia| |lia]. split; [by apply Z.div_pos; lia|]. apply Z.div_lt_upper_bound; lia.
Qed.

(** ** Rows *)
Definition row_text (f t : cstring) (v : Z) : cstring :=
  ((((c_str f ++ [tab]) ++ c_str t) ++ [tab]) ++ str "0x" ++ print_unsigned 16 v) ++ [newline].

(** The row has names without tabs and newlines, and the loops have enough steps. *)
Record row_ok (fuel : nat) (f t : cstring) (v : Z) : Prop := {
  field_valid : my_strpbrk f [newline; tab] = None;
  type_valid : my_strpbrk t [newline; tab] = None;
  field_steps : (length (c_str f) < fuel)%nat;
  type_steps : (length (c_str t) < fuel)%nat;
  digit_steps : (64 <= fuel)%nat;
  address : is_u64 v;
  text_length : Z.of_nat (length (row_text f t v)) <= INT_MAX
}.

Lemma marshal_row_writes fuel f t v :
  row_ok fuel f t v -> writes (marshal_row fuel f t v) (row_text f t v).
Proof.
  intros [_ _ Hf Ht Hd Hv _]. unfold marshal_row, row_text, marshal_hex.
  assert (forall b, b <> NUL -> writes (marshal_string fuel [b]) [b]) as Hone.
  { intros b Hb. pose proof (marshal_string_writes fuel [b]) as H.
    rewrite c_str_id in H by (unfold nul_free; set_solver). apply H. simpl. lia. }
  repeat apply and_then_writes; try (apply Hone; done); try by apply marshal_string_writes.
  - apply (marshal_string_writes fuel (str "0x")). vm_compute. lia.
  - change (writes (marshal_unsigned_body fuel fuel v 16) (digits 64 16 v [])).
    apply marshal_unsigned_body_writes; [lia|done| |lia].
    split; [apply Hv|]. apply (print_unsigned_range 16); [lia|apply Hv].
Qed.

Lemma row_text_nul_free f t v : nul_free (row_text f t v).
Proof.
  unfold row_text, nul_free. rewrite !not_elem_of_app. split_and!; try apply c_str_nul_free;
    try (apply print_unsigned_nul_free; lia); by apply (bool_decide_eq_true_1 _).
Qed.

Lemma my_zeroit_zeroes n w rest :
  length rest = n -> my_zeroit n (length w) (w ++ rest) = Ok (w ++ replicate n NUL).
Proof.
  revert w rest. induction n as [|n IH]; intros w [|x rest]; simpl; try done. intros [= Hn].
  rewrite write_one. cbn [obind]. replace (S (length w)) with (length (w ++ [NUL])) by (rewrite length_app; simpl; lia).
  rewrite IH by done. by rewrite <- app_assoc.
Qed.

(** The rows [w] are in the buffer, and there is room behind them. *)
Definition shows (d : display) (w : cstring) : Prop :=
  TV_ttf_data_format_control d = TV_FORMAT_APPEND_CALL /\ TV_ttf_data_buffer_ptr d = length w /\
  length (TV_ttf_data_format_buffer d) = DATA_FORMAT_BUFFER_SIZE /\
  exists rest, TV_ttf_data_format_buffer d = w ++ NUL :: rest.

#[global] Opaque DATA_FORMAT_BUFFER_SIZE.

Lemma add_row_shows fuel f t v d w :
  row_ok fuel f t v -> shows d w ->
  ((length (w ++ row_text f t v) < DATA_FORMAT_BUFFER_SIZE)%nat ->
   exists d', TV_ttf_add_row fuel (Some f) (Some t) v d = Ok (TV_ttf_ec_ok, d') /\
              shows d' (w ++ row_text f t v)) /\
  ((DATA_FORMAT_BUFFER_SIZE <= length (w ++ row_text f t v))%nat -> w <> [] ->
   TV_ttf_add_row fuel (Some f) (Some t) v d = Undef).
Proof.
  intros Hok (Hc & Hp & Hl & rest & Hb). unfold TV_ttf_add_row. rewrite Hc.
  rewrite (field_valid _ _ _ _ Hok), (type_valid _ _ _ _ Hok).
  change (TV_FORMAT_APPEND_CALL =? TV_FORMAT_INACTIVE) with false.
  change (TV_FORMAT_APPEND_CALL =? TV_FORMAT_FIRST_CALL) with false. cbn [obind].
  rewrite Hp, Hb, Z.sub_0_r. rewrite Hb, length_app in Hl. cbn [length] in Hl. rewrite length_app.
  pose proof (marshal_row_writes _ _ _ _ Hok) as Hw.
  assert (1 <= length (row_text f t v))%nat as Hrow by (unfold row_text; rewrite length_app; simpl; lia).
  destruct (Hw w (NUL :: rest) (Z.of_nat (length w) + Z.of_nat DATA_FORMAT_BUFFER_SIZE)
    (text_length _ _ _ _ Hok)) as [Hfit Hover]. split; intros Hs.
  - destruct Hfit as (rest' & -> & Hr'); [simpl; lia|lia|]. cbn [obind]. simpl in Hr'.
    destruct (Z.ltb_spec (Z.of_nat (length (row_text f t v))) 1) as [Hz|_]; [lia|].
    eexists. split; [done|]. unfold shows. cbn. rewrite Nat2Z.id.
    split_and!; [done|by rewrite length_app|rewrite !length_app; simpl; lia|by eexists].
  - intros Hne. destruct w; [done|]. cbn [length] in *. by rewrite Hover by (simpl; lia).
Qed.

(** The first row clears the buffer. *)
Lemma first_row_shows fuel f t v d :
  length (TV_ttf_data_format_buffer d) = DATA_FORMAT_BUFFER_SIZE ->
  my_strpbrk f [newline; tab] = None -> my_strpbrk t [newline; tab] = None ->
  exists d', shows d' [] /\
    TV_ttf_add_row fuel (Some f) (Some t) v (TV_ttf_pre_display_callback d) =
    TV_ttf_add_row fuel (Some f) (Some t) v d'.
Proof.
  intros Hl Hf Ht.
  exists (Display TV_FORMAT_APPEND_CALL (replicate DATA_FORMAT_BUFFER_SIZE NUL) 0). split.
  - unfold shows. cbn. split_and!; [done..|by rewrite length_replicate|].
    exists (replicate (DATA_FORMAT_BUFFER_SIZE - 1) NUL).
    replace DATA_FORMAT_BUFFER_SIZE with (S (DATA_FORMAT_BUFFER_SIZE - 1)) at 1; [done|].
    assert (0 < DATA_FORMAT_BUFFER_SIZE)%nat; [|lia]. Transparent DATA_FORMAT_BUFFER_SIZE.
    unfold DATA_FORMAT_BUFFER_SIZE. lia.
  - Opaque DATA_FORMAT_BUFFER_SIZE. unfold TV_ttf_add_row. cbn -[my_zeroit marshal_row Z.ltb].
    rewrite Hf, Ht. cbn -[my_zeroit marshal_row Z.ltb].
    pose proof (my_zeroit_zeroes DATA_FORMAT_BUFFER_SIZE [] _ Hl) as Hz. cbn [app length] in Hz.
    by rewrite Hz.
Qed.

(** ** Several rows *)
Definition row_of (r : cstring * cstring * Z) : row :=
  let '(f, t, v) := r in Row (Some f) (Some t) v.
Definition text_of (r : cstring * cstring * Z) : cstring := let '(f, t, v) := r in row_text f t v.
Definition texts (rows : list (cstring * cstring * Z)) : cstring := concat (text_of <$> rows).
Definition ok (fuel : nat) (r : cstring * cstring * Z) : Prop :=
  let '(f, t, v) := r in row_ok fuel f t v.

Lemma add_rows_shows fuel rows d w :
  Forall (ok fuel) rows -> shows d w ->
  (length (w ++ texts rows) < DATA_FORMAT_BUFFER_SIZE)%nat ->
  exists d', add_rows fuel (row_of <$> rows) d = Ok (replicate (length rows) TV_ttf_ec_ok, d') /\
             shows d' (w ++ texts rows).
Proof.
  intros Hok. revert d w. induction Hok as [|[[f t] v] rows Hr Hok IH]; intros d w Hd Hl.
  - exists d. split; [done|]. unfold texts. cbn. by rewrite app_nil_r.
  - unfold texts in *. cbn [fmap list_fmap concat text_of] in *. rewrite app_assoc in Hl |- *.
    destruct (add_row_shows fuel f t v d w Hr Hd) as [(d1 & E1 & Hd1) _];
      [rewrite length_app in Hl; lia|].
    destruct (IH d1 _ Hd1 Hl) as (d2 & E2 & Hd2). exists d2. split; [|done].
    cbn [row_of add_rows]. rewrite E1. cbn [obind]. by rewrite E2.
Qed.

Lemma add_rows_app fuel rows rows' d :
  add_rows fuel (rows ++ rows') d =
  let* (rcs, d) := add_rows fuel rows d in
  let* (rcs', d) := add_rows fuel rows' d in
  Ok (rcs ++ rcs', d).
Proof.
  revert d. induction rows as [|[f t v] rows IH]; intros d; cbn.
  - by destruct (add_rows fuel rows' d) as [[]| | |].
  - destruct (TV_ttf_add_row fuel f t v d) as [[rc d1]| | |]; cbn; [|done..]. rewrite IH.
    destruct (add_rows fuel rows d1) as [[rcs d2]| | |]; cbn; [|done..].
    by destruct (add_rows fuel rows' d2) as [[rcs' d3]| | |].
Qed.

Lemma texts_nul_free rows : nul_free (texts rows).
Proof.
  unfold texts, nul_free. induction rows as [|[[f t] v] rows IH]; cbn; [apply not_elem_of_nil|].
  rewrite not_elem_of_app. split; [apply row_text_nul_free|done].
Qed.

(** From [TV_ttf_pre_display_callback] on. *)
Lemma display_shows fuel r rows d :
  length (TV_ttf_data_format_buffer d) = DATA_FORMAT_BUFFER_SIZE ->
  Forall (ok fuel) (r :: rows) -> (length (texts (r :: rows)) < DATA_FORMAT_BUFFER_SIZE)%nat ->
  exists d', add_rows fuel (row_of <$> (r :: rows)) (TV_ttf_pre_display_callback d)
    = Ok (replicate (length (r :: rows)) TV_ttf_ec_ok, d') /\ shows d' (texts (r :: rows)).
Proof.
  intros Hl Hok Hs. destruct r as [[f t] v]. pose proof (Forall_inv Hok) as Hr.
  destruct (first_row_shows fuel f t v d Hl (field_valid _ _ _ _ Hr) (type_valid _ _ _ _ Hr))
    as (d0 & Hd0 & E). destruct (add_rows_shows fuel ((f, t, v) :: rows) d0 [] Hok Hd0 Hs) as (d' & E' & Hd').
  exists d'. split; [|done]. rewrite <- E'. cbn [fmap list_fmap row_of add_rows]. by rewrite E.
Qed.

(** C39.  While the rows of a display fit the buffer, each call of [TV_ttf_add_row]
    succeeds and the debugger reads their text: name, type and address in hex,
    separated by tabs, a line for each row. *)
Theorem rows_displayed fuel rows d :
  length (TV_ttf_data_format_buffer d) = DATA_FORMAT_BUFFER_SIZE -> rows <> [] ->
  Forall (ok fuel) rows -> (length (texts rows) < DATA_FORMAT_BUFFER_SIZE)%nat ->
  exists d', add_rows fuel (row_of <$> rows) (TV_ttf_pre_display_callback d)
    = Ok (replicate (length rows) TV_ttf_ec_ok, d') /\
    c_str (TV_ttf_data_format_buffer d') = texts rows.
Proof.
  intros Hl Hne Hok Hs. destruct rows as [|r rows]; [done|].
  destruct (display_shows fuel r rows d Hl Hok Hs) as (d' & E & Hd'). exists d'. split; [done|].
  destruct Hd' as (_ & _ & _ & rest & ->). apply c_str_app_nul. apply texts_nul_free.
Qed.

(** C40.  The room is computed the wrong way round, as the part of the buffer that is
    used and its whole size: a row that does not fit behind others is not refused
    with [TV_ttf_ec_buffer_exhausted], it is written past the end of the buffer. *)
Theorem row_overruns fuel rows r d :
  length (TV_ttf_data_format_buffer d) = DATA_FORMAT_BUFFER_SIZE -> rows <> [] ->
  Forall (ok fuel) rows -> ok fuel r ->
  (length (texts rows) < DATA_FORMAT_BUFFER_SIZE)%nat ->
  (DATA_FORMAT_BUFFER_SIZE <= length (texts (rows ++ [r])))%nat ->
  add_rows fuel (row_of <$> rows ++ [r]) (TV_ttf_pre_display_callback d) = Undef.
Proof.
  intros Hl Hne Hok Hr Hs Hover. destruct rows as [|r0 rows]; [done|].
  destruct (display_shows fuel r0 rows d Hl Hok Hs) as (d' & E & Hd').
  rewrite fmap_app, add_rows_app, E. cbn [obind fmap list_fmap]. destruct r as [[f t] v].
  cbn [row_of add_rows]. rewrite (proj2 (add_row_shows fuel f t v d' _ Hr Hd')); [done| |].
  - unfold texts in Hover. rewrite fmap_app, concat_app in Hover. cbn in Hover. by rewrite app_nil_r in Hover.
  - destruct r0 as [[f0 t0] v0]. unfold texts. cbn. intros [H _]%app_eq_nil.
    unfold row_text in H. by apply app_eq_nil in H as [_ ?].
Qed.

(** A string that does not fit the room is never finished: the loop goes on without
    advancing it. *)
Lemma marshal_loop_hangs n s r w rest len :
  (len <= Z.of_nat (length s)) -> (len <= Z.of_nat (length rest)) -> s <> [] ->
  marshal_loop n s r (w ++ rest) (length w) len = NoFuel.
Proof.
  revert s r w rest len. induction n as [|n IH]; intros [|b s] r w rest len Hs Hr Hne; try done.
  cbn [marshal_loop]. destruct (Z.ltb_spec 1 len) as [H1|H1]; [|by apply IH].
  destruct rest as [|x rest]; [cbn in Hr; lia|]. rewrite write_one. cbn [obind].
  replace (S (length w)) with (length (w ++ [b])) by (rewrite length_app; simpl; lia).
  cbn [length] in Hs, Hr. apply IH; [lia|lia|]. intros ->. simpl in Hs. lia.
Qed.

(** So a first row whose name fills the buffer is never added. *)
Lemma first_row_hangs fuel f t v d :
  length (TV_ttf_data_format_buffer d) = DATA_FORMAT_BUFFER_SIZE ->
  my_strpbrk f [newline; tab] = None -> my_strpbrk t [newline; tab] = None ->
  (DATA_FORMAT_BUFFER_SIZE <= length (c_str f))%nat ->
  TV_ttf_add_row fuel (Some f) (Some t) v (TV_ttf_pre_display_callback d) = NoFuel.
Proof.
  intros Hl Hf Ht Hs. destruct (first_row_shows fuel f t v d Hl Hf Ht) as (d' & (Hc & Hp & Hl' & _) & ->).
  unfold TV_ttf_add_row. rewrite Hc, Hf, Ht.
  change (TV_FORMAT_APPEND_CALL =? TV_FORMAT_INACTIVE) with false.
  change (TV_FORMAT_APPEND_CALL =? TV_FORMAT_FIRST_CALL) with false. cbn [obind]. rewrite Hp.
  assert (0 < DATA_FORMAT_BUFFER_SIZE)%nat as Hpos.
  { Transparent DATA_FORMAT_BUFFER_SIZE. unfold DATA_FORMAT_BUFFER_SIZE. lia. }
  Opaque DATA_FORMAT_BUFFER_SIZE.
  unfold marshal_row, and_then, marshal_string at 1.
  rewrite (marshal_loop_hangs fuel (c_str f) 0 [] (TV_ttf_data_format_buffer d')); [done|simpl; lia..|].
  intros E. rewrite E in Hs. simpl in Hs. lia.
Qed.

(** ** Examples *)
Definition sample_rows : list (cstring * cstring * Z) :=
  [ (str "name", TV_ttf_type_ascii_string, 4096); (str "files", str "kvtree", 81985529216486895) ].

Definition long_row : cstring * cstring * Z :=
  (replicate (Z.to_nat 16350) Init.Byte.x61, str "kvtree", 0).

Definition empty_display : display :=
  Display TV_FORMAT_INACTIVE (replicate DATA_FORMAT_BUFFER_SIZE NUL) 0.

#[global] Transparent DATA_FORMAT_BUFFER_SIZE.

Lemma DATA_FORMAT_BUFFER_SIZE_eq : Z.of_nat DATA_FORMAT_BUFFER_SIZE = 16384.
Proof. by apply Z2Nat.id. Qed.

Definition okb (fuel : nat) (r : cstring * cstring * Z) : bool :=
  let '(f, t, v) := r in
  bool_decide (my_strpbrk f [newline; tab] = None) && bool_decide (my_strpbrk t [newline; tab] = None) &&
  (Z.of_nat (length (c_str f)) <? Z.of_nat fuel) && (Z.of_nat (length (c_str t)) <? Z.of_nat fuel) &&
  (64 <=? Z.of_nat fuel) && (0 <=? v) && (v <? 2 ^ 64) &&
  (Z.of_nat (length (row_text f t v)) <=? INT_MAX).

Lemma okb_ok fuel rows : forallb (okb fuel) rows = true -> Forall (ok fuel) rows.
Proof.
  induction rows as [|[[f t] v] rows IH]; intros H; constructor.
  - cbn [forallb okb] in H. rewrite !andb_true_iff, !bool_decide_eq_true in H.
    destruct H as [((((((( ? & ?) & ?) & ?) & ?) & ?) & ?) & ?) _]. unfold ok. split; try done; unfold is_u64; lia.
  - apply IH. cbn [forallb] in H. apply andb_true_iff in H. apply H.
Qed.

(** Steps for the examples. *)
Definition sample_fuel : nat := Z.to_nat 20000.

Lemma rows_displayed_witness :
  exists d', add_rows sample_fuel (row_of <$> sample_rows) (TV_ttf_pre_display_callback empty_display)
    = Ok ([0; 0], d') /\
    c_str (TV_ttf_data_format_buffer d') =
      str "name" ++ [tab] ++ str "$string" ++ [tab] ++ str "0x1000" ++ [newline] ++
      str "files" ++ [tab] ++ str "kvtree" ++ [tab] ++ str "0x123456789abcdef" ++ [newline].
Proof.
  apply (rows_displayed sample_fuel sample_rows empty_display).
  - apply length_replicate.
  - discriminate.
  - apply okb_ok. vm_compute. reflexivity.
  - apply Nat2Z.inj_lt, Z.ltb_lt. vm_compute. reflexivity.
Defined.

Lemma row_overruns_witness :
  add_rows sample_fuel (row_of <$> sample_rows ++ [long_row]) (TV_ttf_pre_display_callback empty_display) = Undef.
Proof.
  apply (row_overruns sample_fuel sample_rows long_row empty_display).
  - apply length_replicate.
  - discriminate.
  - apply okb_ok. vm_compute. reflexivity.
  - apply (Forall_inv (okb_ok sample_fuel [long_row] ltac:(vm_compute; reflexivity))).
  - apply Nat2Z.inj_lt, Z.ltb_lt. vm_compute. reflexivity.
  - apply Nat2Z.inj_le, Z.leb_le. vm_compute. reflexivity.
Defined.
