(* ===== verification/TvTree.v ===== *)
(** [TV_ttf_display_type] of [src/src/kvtree.c] on memory: the rows that the
    debugger shows for a hash.

    The function only reads memory, so that what a specification of Heap's
    functions says about a pointer holds in the memory it was read from
    ([observed]). *)

From iris.proofmode Require Import proofmode.
From S2P Require Import Prelude CLib SepLogic Memory Heap Kvtree KvtreeSpec HeapSpec HeapOps HeapPrograms TvDisplay.

(** The value of a pointer as a number. *)
Definition address_of (p : ptr) : Z := match p with Some l => Z.pos l | None => 0 end.

Definition value_label : cstring := str "value".
Definition kvtree_label : cstring := str "kvtree".

(** The row of one element: the arguments of the call of [TV_ttf_add_row]. *)
Definition display_elem (hash elem : ptr) : code row :=
  do! key := Heap.kvtree_elem_key elem in
  do! h := Heap.kvtree_elem_hash elem in
  match h with
  | Some _ =>
      do! size := Heap.kvtree_size h in
      if size =? 0 then
        ret (Row (Some value_label) (Some TV_ttf_type_ascii_string) (address_of key))
      else if size =? 1 then
        do! k := get_string key in
        do! value := Heap.kvtree_elem_get_first_val hash k in
        do! v := get_string value in
        do! h2 := Heap.kvtree_get h v in
        do! empty := match h2 with
                     | None => ret true
                     | Some _ => do! n := Heap.kvtree_size h2 in ret (n =? 0)
                     end in
        if empty : bool then ret (Row k (Some TV_ttf_type_ascii_string) (address_of value))
        else ret (Row k (Some kvtree_label) (address_of h))
      else
        do! k := get_string key in
        ret (Row k (Some kvtree_label) (address_of h))
  | None => ret (Row (Some value_label) (Some TV_ttf_type_ascii_string) (address_of key))
  end.

Fixpoint display_loop (fuel : nat) (hash elem : ptr) : code (list row) :=
  match fuel with
  | O => no_fuel
  | S fuel =>
      match elem with
      | None => ret []
      | Some _ =>
          do! r := display_elem hash elem in
          do! elem := Heap.kvtree_elem_next elem in
          do! rows := display_loop fuel hash elem in
          ret (r :: rows)
      end
  end.

(** The results of [TV_ttf_add_row] are not looked at. *)
Definition TV_ttf_display_type (fuel : nat) (hash : ptr) (m : memory) (d : display)
    : outcome (TV_ttf_format_result * display * memory) :=
  match hash with
  | None => Ok (TV_ttf_format_ok, d, m)
  | Some _ =>
      let* (elem, m) := Heap.kvtree_elem_first hash m in
      let* (rows, m) := with_fuel (fun fuel => display_loop fuel hash elem) m in
      let* (_, d) := add_rows fuel rows d in
      Ok (TV_ttf_format_ok, d, m)
  end.

(** ** Code that only reads *)
Definition reads {A} (c : code A) : Prop := forall m a m', c m = Ok (a, m') -> m' = m.

Lemma reads_ret {A} (a : A) : reads (ret a).
Proof. intros m a' m' E. by injection E as _ <-. Qed.

Lemma reads_seq {A B} (c : code A) (k : A -> code B) : reads c -> (forall a, reads (k a)) -> reads (seq c k).
Proof.
  intros Hc Hk m b m' E. unfold seq in E. destruct (c m) as [[a m1]| | |] eqn:Ec; try done.
  cbn in E. apply Hc in Ec as ->. by apply Hk in E.
Qed.

Lemma reads_with_fuel {A} (f : nat -> code A) : (forall n, reads (f n)) -> reads (with_fuel f).
Proof. intros Hf m a m' E. by eapply Hf. Qed.

Lemma reads_undefined {A} : reads (undefined : code A).
Proof. done. Qed.

Lemma reads_no_fuel {A} : reads (no_fuel : code A).
Proof. done. Qed.

Lemma reads_read l : reads (read l).
Proof. intros m a m'. unfold read. destruct (m !! l); [|done]. by intros [= _ <-]. Qed.

Create HintDb reads.
#[export] Hint Resolve reads_ret reads_undefined reads_no_fuel reads_read : reads.

(** Code that is put together from code that reads. *)
Ltac reads :=
  repeat first
    [ by eauto with reads
    | apply reads_seq; [|intros ?]
    | apply reads_with_fuel; intros ?
    | match goal with |- reads (match ?x with _ => _ end) => destruct x end
    | match goal with |- reads (if ?x then _ else _) => destruct x end ].

Lemma reads_get_field {A} (f : fields -> option A) e : reads (get_field f e).
Proof. unfold get_field. reads. Qed.

Lemma reads_get_first l : reads (get_first l).
Proof. unfold get_first. reads. Qed.

Lemma reads_get_string p : reads (get_string p).
Proof. destruct p; cbn [get_string]; reads. Qed.

#[export] Hint Resolve reads_get_field reads_get_first reads_get_string : reads.

Lemma reads_first h : reads (Heap.kvtree_elem_first h).
Proof. unfold Heap.kvtree_elem_first, LIST_FIRST. reads. Qed.

Lemma reads_next e : reads (Heap.kvtree_elem_next e).
Proof. unfold Heap.kvtree_elem_next, LIST_NEXT. reads. Qed.

Lemma reads_elem_get h key : reads (Heap.kvtree_elem_get h key).
Proof.
  unfold Heap.kvtree_elem_get, LIST_FIRST, LIST_NEXT.
  assert (forall n k e, reads (Heap.elem_get_loop n k e)) as Hl; [|reads].
  intros n k. induction n as [|n IH]; intros e; cbn [Heap.elem_get_loop]; [reads|]. unfold LIST_NEXT. reads.
Qed.

Lemma reads_get h key : reads (Heap.kvtree_get h key).
Proof. unfold Heap.kvtree_get. pose proof reads_elem_get. reads. Qed.

Lemma reads_size h : reads (Heap.kvtree_size h).
Proof.
  unfold Heap.kvtree_size, LIST_FIRST.
  assert (forall n e c, reads (Heap.size_loop n e c)) as Hl; [|reads].
  intros n. induction n as [|n IH]; intros e c; cbn [Heap.size_loop]; [reads|]. unfold LIST_NEXT. reads.
Qed.

Lemma reads_first_val h key : reads (Heap.kvtree_elem_get_first_val h key).
Proof.
  unfold Heap.kvtree_elem_get_first_val. pose proof reads_get. pose proof reads_first.
  unfold Heap.kvtree_elem_key. reads.
Qed.

#[export] Hint Resolve reads_first reads_next reads_get reads_size reads_first_val : reads.

(** ** Pointers read from a memory that stays as it is *)
Lemma observe {A} (c : code A) (P : hProp) (R : A -> hProp) m :
  reads c -> (P ⊢ wp c R) -> holds P m -> exists a, c m = Ok (a, m) /\ holds (R a) m.
Proof.
  intros Hc Hw HP. destruct (wp_adequate P c R m Hw HP) as (a & m' & E & HR).
  pose proof (Hc _ _ _ E) as ->. by exists a.
Qed.

Lemma observe_eq {A} (c : code A) (P : hProp) (a : A) m :
  reads c -> (P ⊢ wp c (fun b => ⌜b = a⌝)) -> holds P m -> c m = Ok (a, m).
Proof. intros Hc Hw HP. by destruct (observe c P _ m Hc Hw HP) as (b & E & ->). Qed.

Lemma holds_entails (P Q : hProp) m : (P ⊢ Q) -> holds P m -> holds Q m.
Proof. intros [H]. apply H. Qed.

(** In memory [m] the number [v] is the address of the string [s], or of the tree [c]. *)
Definition string_at (m : memory) (v : Z) (s : option cstring) : Prop :=
  match s with
  | Some s => exists l, v = Z.pos l /\ m !! l = Some (String s)
  | None => v = 0
  end.
Definition tree_at (m : memory) (v : Z) (c : kvtree) : Prop :=
  exists l, v = Z.pos l /\ holds (tree c l ∗ True) m.

Lemma string_string_at r s m : holds (string r s ∗ True) m -> string_at m (address_of r) s.
Proof.
  intros (m1 & m2 & -> & Hd & H1 & _). destruct r as [l|], s as [s|]; cbn in *; try done.
  exists l. split; [done|]. rewrite H1. by apply lookup_union_Some_l, lookup_singleton_eq.
Qed.

(** What the row of an element shows. *)
Definition row_shows (m : memory) (t : kvtree) (x : kvtree_elem) (r : row) : Prop :=
  let key_row := field_name r = Some value_label /\ type_name r = Some TV_ttf_type_ascii_string /\
                 string_at m (TvDisplay.value r) (key x) in
  match hash x with
  | None => key_row
  | Some c =>
      let tree_row := field_name r = key x /\ type_name r = Some kvtree_label /\
                      tree_at m (TvDisplay.value r) c in
      if kvtree_size (Some c) =? 0 then key_row
      else if kvtree_size (Some c) =? 1 then
        let v := kvtree_elem_get_first_val (Some t) (key x) in
        if match kvtree_get (Some c) v with None => true | Some h2 => kvtree_size (Some h2) =? 0 end
        then field_name r = key x /\ type_name r = Some TV_ttf_type_ascii_string /\
             string_at m (TvDisplay.value r) v
        else tree_row
      else tree_row
  end.

Lemma wp_kvtree_elem_get_first_val t p key (Q : ptr -> hProp) :
  tree t p -∗ (∀ r, key_in t p (kvtree_elem_get_first_val (Some t) key) r -∗ Q r) -∗
  wp (Heap.kvtree_elem_get_first_val (Some p) key) Q.
Proof.
  iIntros "Ht HQ". unfold Heap.kvtree_elem_get_first_val. wp_seq.
  iApply (wp_kvtree_get with "Ht"). iIntros (r) "Hr". unfold get_ptr.
  destruct (kvtree_get (Some t) key) as [c|] eqn:Eg, key as [k|], r as [q|]; cbn [pointer]; try done.
  - rewrite focus_get Eg. iDestruct "Hr" as "(%c' & %E & Hc & Hout)". injection E as <-.
    iApply (wp_first_key with "Hc"); [by intros []|]. iIntros (r) "[Hs Hc]". iApply "HQ".
    assert (kvtree_elem_get_first_val (Some t) (Some k) = kvtree_elem_key (kvtree_elem_first (Some c))) as ->.
    { unfold kvtree_elem_get_first_val. rewrite Eg. by destruct (kvtree_elem_first (Some c)). }
    iFrame "Hs". iIntros "Hs". iSpecialize ("Hc" with "Hs"). iSpecialize ("Hout" with "Hc").
    by rewrite store_same.
  - assert (kvtree_elem_get_first_val (Some t) (Some k) = None) as -> by (unfold kvtree_elem_get_first_val; by rewrite Eg).
    iApply wp_ret. iApply "HQ". iSplitR; [done|]. by iIntros "_".
  - iApply wp_ret. iApply "HQ". iSplitR; [done|]. by iIntros "_".
Qed.

(** The list at [p], opened at the element [e], whose fields are [kp] and [hp]. *)
Definition opened (p : loc) (pre : list kvtree_elem) (e : loc) (x : kvtree_elem)
    (post : list kvtree_elem) (kp hp : ptr) : hProp :=
  (∃ prev next, prefix p pre prev (Some e) ∗
     e ↦ Element (Fields (Some kp) (Some hp) (Some next) (Some prev)) ∗ string kp (key x) ∗
     hash_at (hash x) hp ∗ suffix post (ElemNext e) next)%I.

Section opened.
Variables (p : loc) (pre post : list kvtree_elem) (e : loc) (x : kvtree_elem) (kp hp : ptr) (m : memory).
Hypothesis Hopen : holds (opened p pre e x post kp hp ∗ True) m.

(** The key, the hash and the whole tree, each apart from the rest. *)
Lemma opened_key : opened p pre e x post kp hp ∗ True ⊢ string kp (key x) ∗ True.
Proof. iIntros "((%prev & %next & Hp & He & Hk & Hh & Hs) & _)". by iFrame "Hk". Qed.

Lemma opened_hash : opened p pre e x post kp hp ∗ True ⊢ hash_at (hash x) hp ∗ True.
Proof. iIntros "((%prev & %next & Hp & He & Hk & Hh & Hs) & _)". by iFrame "Hh". Qed.

Lemma opened_tree : opened p pre e x post kp hp ∗ True ⊢ tree (KVTree (pre ++ x :: post)) p ∗ True.
Proof.
  iIntros "((%prev & %next & Hp & He & Hk & Hh & Hs) & _)". iSplitL; [|done]. rewrite tree_at_elem.
  iExists e, prev, next. iFrame.
Qed.

Lemma read_key : Heap.kvtree_elem_key (Some e) m = Ok (kp, m).
Proof.
  refine (observe_eq _ (opened p pre e x post kp hp ∗ True)%I _ _ (reads_get_field f_key e) _ Hopen).
  iIntros "((%prev & %next & Hp & He & Hk & Hh & Hs) & HT)". wp_field "He". done.
Qed.

Lemma read_hash : Heap.kvtree_elem_hash (Some e) m = Ok (hp, m).
Proof.
  refine (observe_eq _ (opened p pre e x post kp hp ∗ True)%I _ _ (reads_get_field f_hash e) _ Hopen).
  iIntros "((%prev & %next & Hp & He & Hk & Hh & Hs) & HT)". wp_field "He". done.
Qed.
End opened.

Lemma read_string r s m : holds (string r s ∗ True) m -> get_string r m = Ok (s, m).
Proof.
  apply observe_eq; [apply reads_get_string|]. iIntros "[Hs HT]".
  iApply (wp_get_string with "Hs"). by iIntros "_".
Qed.

Lemma read_size c q m : holds (tree c q ∗ True) m -> Heap.kvtree_size (Some q) m = Ok (kvtree_size (Some c), m).
Proof.
  apply observe_eq; [apply reads_size|]. iIntros "[Ht HT]". iApply (wp_kvtree_size with "Ht").
  by iIntros "_".
Qed.

Lemma read_first_val t p key m :
  holds (tree t p ∗ True) m ->
  exists r, Heap.kvtree_elem_get_first_val (Some p) key m = Ok (r, m) /\ holds (string r (kvtree_elem_get_first_val (Some t) key) ∗ True) m.
Proof.
  apply observe; [apply reads_first_val|]. iIntros "[Ht HT]".
  iApply (wp_kvtree_elem_get_first_val with "Ht"). iIntros (r) "[Hs _]". by iFrame.
Qed.

(** Whether the hash of a key is missing or empty. *)
Lemma read_empty c q v m :
  holds (tree c q ∗ True) m ->
  exists r, Heap.kvtree_get (Some q) v m = Ok (r, m) /\
    (match r with
     | None => ret true
     | Some _ => do! n := Heap.kvtree_size r in ret (n =? 0)
     end) m
    = Ok (match kvtree_get (Some c) v with None => true | Some h2 => kvtree_size (Some h2) =? 0 end, m).
Proof.
  intros H. destruct (observe (Heap.kvtree_get (Some q) v) (tree c q ∗ True)%I
    (fun r => pointer c q (get_ptr (Some c) v) r ∗ True)%I m) as (r & E & Hr); [apply reads_get| |done|].
  { iIntros "[Ht HT]". iApply (wp_kvtree_get with "Ht"). iIntros (r) "Hr". by iFrame. }
  exists r. split; [done|]. unfold get_ptr in Hr. destruct v as [k|].
  - destruct (kvtree_get (Some c) (Some k)) as [h2|] eqn:Eg, r as [q2|]; cbn [pointer] in Hr; try done.
    + apply (holds_entails _ (tree h2 q2 ∗ True)%I) in Hr.
      * rewrite (seq_ok _ _ _ _ _ (read_size _ _ _ Hr)). done.
      * rewrite focus_get Eg. iIntros "[(%c' & %E' & Hc & _) _]". injection E' as <-. by iFrame.
    + by destruct Hr as (? & ? & _ & _ & [] & _).
    + by destruct Hr as (? & ? & _ & _ & [] & _).
  - cbn in Hr. destruct r as [q2|]; [by destruct Hr as (? & ? & _ & _ & [] & _)|done].
Qed.

(** ** The rows of a tree *)
Lemma display_elem_shows p pre e x post kp hp m :
  holds (opened p pre e x post kp hp ∗ True) m ->
  exists r, display_elem (Some p) (Some e) m = Ok (r, m) /\
            row_shows m (KVTree (pre ++ x :: post)) x r.
Proof.
  intros H. unfold display_elem, row_shows.
  rewrite (seq_ok _ _ _ _ _ (read_key _ _ _ _ _ _ _ _ H)) (seq_ok _ _ _ _ _ (read_hash _ _ _ _ _ _ _ _ H)).
  pose proof (holds_entails _ _ _ (opened_key _ _ _ _ _ _ _) H) as Hk.
  pose proof (holds_entails _ _ _ (opened_hash _ _ _ _ _ _ _) H) as Hh.
  pose proof (holds_entails _ _ _ (opened_tree _ _ _ _ _ _ _) H) as Ht.
  pose proof (string_string_at _ _ _ Hk) as Hkey.
  destruct (hash x) as [c|], hp as [q|]; cbn [child_with] in Hh;
    [|by destruct Hh as (? & ? & _ & _ & [] & _)..|by eexists].
  rewrite (seq_ok _ _ _ _ _ (read_size _ _ _ Hh)).
  destruct (kvtree_size (Some c) =? 0); [by eexists|]. destruct (kvtree_size (Some c) =? 1).
  - rewrite (seq_ok _ _ _ _ _ (read_string _ _ _ Hk)).
    destruct (read_first_val _ _ (key x) _ Ht) as (r & Er & Hr). rewrite (seq_ok _ _ _ _ _ Er).
    rewrite (seq_ok _ _ _ _ _ (read_string _ _ _ Hr)).
    destruct (read_empty _ _ (kvtree_elem_get_first_val (Some (KVTree (pre ++ x :: post))) (key x)) _ Hh)
      as (r2 & Eg & Ee).
    rewrite (seq_ok _ _ _ _ _ Eg) (seq_ok _ _ _ _ _ Ee).
    destruct (match kvtree_get (Some c) _ with Some _ => _ | None => _ end).
    + eexists. split; [done|]. split; [done|]. split; [done|]. by apply string_string_at.
    + eexists. split; [done|]. split; [done|]. split; [done|]. by exists q.
  - rewrite (seq_ok _ _ _ _ _ (read_string _ _ _ Hk)). eexists. split; [done|].
    split; [done|]. split; [done|]. by exists q.
Qed.

Lemma display_loop_shows n p pre l prev cur m :
  (length l < n)%nat -> holds (prefix p pre prev cur ∗ suffix l prev cur ∗ True) m ->
  exists rows, display_loop n (Some p) cur m = Ok (rows, m) /\
               Forall2 (row_shows m (KVTree (pre ++ l))) l rows.
Proof.
  revert pre l prev cur. induction n as [|n IH]; intros pre l prev cur Hn H; [lia|].
  cbn [display_loop]. destruct l as [|x l].
  - apply (holds_entails _ (<affine> ⌜cur = None⌝ ∗ True)%I) in H.
    + destruct H as (m1 & m2 & _ & _ & [_ ->] & _). exists []. by split.
    + rewrite suffix_nil. iIntros "(_ & -> & _)". by iSplitR.
  - apply (holds_entails _ (∃ e kp hp next, <affine> ⌜cur = Some e⌝ ∗ prefix p pre prev (Some e) ∗
      e ↦ Element (Fields (Some kp) (Some hp) (Some next) (Some prev)) ∗ string kp (key x) ∗
      hash_at (hash x) hp ∗ suffix l (ElemNext e) next ∗ True)%I) in H.
    2: { rewrite suffix_cons. iIntros "(Hp & (%e & %next & -> & (%kp & %hp & He & Hk & Hh) & Hs) & _)".
         iExists e, kp, hp, next. by iFrame. }
    destruct H as (e & kp & hp & next & H).
    assert (cur = Some e) as -> by (by destruct H as (? & ? & _ & _ & [_ ?] & _)).
    assert (holds (opened p pre e x l kp hp ∗ True) m) as Ho.
    { eapply holds_entails; [|exact H].
      iIntros "(_ & Hp & He & Hk & Hh & Hs & _)". iSplitL; [|done]. iExists prev, next. iFrame. }
    destruct (display_elem_shows _ _ _ _ _ _ _ _ Ho) as (r & Er & Hr). rewrite (seq_ok _ _ _ _ _ Er).
    assert (Heap.kvtree_elem_next (Some e) m = Ok (next, m)) as En.
    { refine (observe_eq _ _ _ _ (reads_get_field f_next e) _ H).
      iIntros "(_ & Hp & He & HT)". wp_field "He". done. }
    rewrite (seq_ok _ _ _ _ _ En). cbn in Hn.
    destruct (IH (pre ++ [x]) l (ElemNext e) next) as (rows & El & Hrows); [lia| |].
    { eapply holds_entails; [|exact H]. iIntros "(_ & Hp & He & Hk & Hh & Hs & _)". iFrame "Hs".
      iSplitL; [|done]. iApply (prefix_snoc with "Hp"). iExists kp, hp. iFrame. }
    rewrite -app_assoc in Hrows. rewrite (seq_ok _ _ _ _ _ El). exists (r :: rows). split; [done|].
    by constructor.
Qed.

(** [TV_ttf_display_type] of any tree: a call of [TV_ttf_add_row] for each element. *)
Lemma display_rows t p m fuel :
  holds (tree t p ∗ True) m ->
  exists rows, Forall2 (row_shows m t) (lh_first t) rows /\
    forall d, TV_ttf_display_type fuel (Some p) m d =
      let* (_, d) := add_rows fuel rows d in Ok (TV_ttf_format_ok, d, m).
Proof.
  intros H. destruct t as [l].
  assert (exists cur, holds (at_head p cur ∗ suffix l (HeadFirst p) cur ∗ True) m) as [cur Hcur].
  { apply (holds_entails _ (∃ cur, at_head p cur ∗ suffix l (HeadFirst p) cur ∗ True)%I) in H.
    - destruct H as [cur H]. by exists cur.
    - rewrite tree_first. iIntros "[(%cur & Hp & Hs) HT]". iExists cur. iFrame. }
  assert (Heap.kvtree_elem_first (Some p) m = Ok (cur, m)) as Ef.
  { refine (observe_eq _ _ _ _ (reads_first (Some p)) _ Hcur). iIntros "(Hp & Hs & HT)".
    iApply (wp_first with "Hp"). by iIntros "Hp". }
  destruct (display_loop_shows (S (base.size m)) p [] l (HeadFirst p) cur m) as (rows & E & Hrows).
  - apply (holds_entails _ (blocks (0 + (elems_weight_with weight l + 0)))) in Hcur.
    + cbn in Hcur. pose proof (elems_weight_length l). lia.
    + apply blocks_sep; [apply blocks_none|]. apply blocks_sep; [apply suffix_blocks|apply blocks_none].
  - eapply holds_entails; [|exact Hcur]. rewrite at_head_prefix. iIntros "(Hp & Hs & HT)". by iFrame.
  - exists rows. split; [done|]. intros d. cbn [TV_ttf_display_type]. rewrite Ef. cbn [obind].
    unfold with_fuel. rewrite E. done.
Qed.

(** ** Trees that fit the buffer *)

(** The name and the type of the row of an element. *)
Definition row_names (t : kvtree) (x : kvtree_elem) : cstring * cstring :=
  let k := default [] (key x) in
  match hash x with
  | None => (value_label, TV_ttf_type_ascii_string)
  | Some c =>
      if kvtree_size (Some c) =? 0 then (value_label, TV_ttf_type_ascii_string)
      else if kvtree_size (Some c) =? 1 then
        let v := kvtree_elem_get_first_val (Some t) (key x) in
        if match kvtree_get (Some c) v with None => true | Some h2 => kvtree_size (Some h2) =? 0 end
        then (k, TV_ttf_type_ascii_string)
        else (k, kvtree_label)
      else (k, kvtree_label)
  end.

(** The room a row takes: the names, two tabs, [0x], an address of up to 16 digits and
    a newline. *)
Definition row_room (t : kvtree) (x : kvtree_elem) : nat :=
  let '(f, ty) := row_names t x in (length (c_str f) + length (c_str ty) + 21)%nat.

(** The keys have neither tabs nor newlines, and the rows fit. *)
Definition displayable (t : kvtree) : bool :=
  forallb (fun x => match key x with
                    | Some k => bool_decide (my_strpbrk k [newline; tab] = None)
                    | None => false
                    end) (lh_first t) &&
  (Z.of_nat (sum_list (row_room t <$> lh_first t)) <? Z.of_nat DATA_FORMAT_BUFFER_SIZE).

(** Addresses are 64 bits wide. *)
Definition addresses_fit (m : memory) : Prop := forall l, is_Some (m !! l) -> Z.pos l < 2 ^ 64.

#[local] Opaque DATA_FORMAT_BUFFER_SIZE.

Lemma string_at_u64 m v s : addresses_fit m -> string_at m v s -> is_u64 v.
Proof.
  intros Hm. destruct s as [s|]; cbn; [|by intros ->]. intros (l & -> & Hl).
  pose proof (Hm l (mk_is_Some _ _ Hl)). unfold is_u64. lia.
Qed.

Lemma tree_at_u64 m v c : addresses_fit m -> tree_at m v c -> is_u64 v.
Proof.
  intros Hm (l & -> & H). destruct c as [cl].
  destruct H as (m1 & m2 & -> & Hd & (first & last & m3 & m4 & -> & _ & Hl & _) & _).
  cbn in Hl. subst m3. assert (Z.pos l < 2 ^ 64); [|unfold is_u64; lia]. apply Hm. eexists.
  apply lookup_union_Some_l, lookup_union_Some_l, lookup_singleton_eq.
Qed.

Lemma row_shows_names m t x r :
  addresses_fit m -> key x <> None -> row_shows m t x r ->
  field_name r = Some (row_names t x).1 /\ type_name r = Some (row_names t x).2 /\
  is_u64 (TvDisplay.value r).
Proof.
  intros Hm Hk. destruct (key x) as [k|] eqn:Ek; [clear Hk|done].
  unfold row_shows, row_names. rewrite Ek. cbn [default].
  pose proof (fun v s => string_at_u64 m v s Hm) as Hs. pose proof (fun v c => tree_at_u64 m v c Hm) as Ht.
  repeat case_match; cbn [fst snd]; intros (Hf & Hty & Hv); split_and!; eauto.
Qed.

Lemma row_text_room t x v :
  is_u64 v -> (length (row_text (row_names t x).1 (row_names t x).2 v) <= row_room t x)%nat.
Proof.
  intros Hv. unfold row_text, row_room. destruct (row_names t x) as [f ty]. cbn [fst snd].
  pose proof (print_unsigned_16_length v Hv). rewrite !length_app. cbn [length].
  change (length (str "0x")) with 2%nat. lia.
Qed.

(** The rows of a tree that fits are rows that [TV_ttf_add_row] accepts. *)
Lemma rows_ok m t l rows fuel :
  addresses_fit m ->
  Forall (fun x => exists k, key x = Some k /\ my_strpbrk k [newline; tab] = None) l ->
  (sum_list (row_room t <$> l) < DATA_FORMAT_BUFFER_SIZE)%nat -> (DATA_FORMAT_BUFFER_SIZE <= fuel)%nat ->
  Forall2 (row_shows m t) l rows ->
  exists rows', rows = row_of <$> rows' /\ Forall (ok fuel) rows' /\
                (length (texts rows') <= sum_list (row_room t <$> l))%nat.
Proof.
  intros Hm Hk Hl Hfuel HR. revert Hk Hl. induction HR as [|x r l rows Hx HR IH]; intros Hk Hl.
  { exists []. by split_and!. }
  apply Forall_cons_iff in Hk as [(k & Ek & Hpk) Hk]. cbn in Hl.
  destruct IH as (rows' & -> & Hok & Hlen); [done|lia|].
  destruct (row_shows_names m t x r Hm) as (Hf & Hty & Hv); [by rewrite Ek|done|].
  pose proof (row_text_room t x _ Hv) as Hroom.
  assert (my_strpbrk (row_names t x).1 [newline; tab] = None /\
          my_strpbrk (row_names t x).2 [newline; tab] = None) as [Hp1 Hp2].
  { unfold row_names. rewrite Ek. cbn [default]. by repeat case_match. }
  exists (((row_names t x).1, (row_names t x).2, TvDisplay.value r) :: rows'). split_and!.
  - cbn. f_equal. destruct r; cbn in *. by rewrite Hf Hty.
  - constructor; [|done]. pose proof DATA_FORMAT_BUFFER_SIZE_eq as Hsize.
    assert (row_room t x < DATA_FORMAT_BUFFER_SIZE)%nat as Hrx by lia.
    assert (length (c_str (row_names t x).1) < fuel /\ length (c_str (row_names t x).2) < fuel)%nat as [].
    { unfold row_room in Hrx. destruct (row_names t x). cbn. lia. }
    split; [done..|lia|lia|lia|done|unfold INT_MAX; lia].
  - unfold texts in *. cbn [fmap list_fmap concat text_of sum_list sum_list_with]. rewrite length_app.
    cbn [id]. lia.
Qed.

(** C38.  When the keys of a tree have neither tabs nor newlines and its rows fit the
    buffer, [TV_ttf_display_type] ends with success, changes no memory, and the debugger
    reads a row for each element: a key without anything below it as a value, a key
    with a single value as a pair, and any other key as a tree the debugger can
    follow; the address of the row is that of the string or hash it shows.
    (Addresses have 64 bits; the loops of the printing functions get as much fuel as the
    buffer has bytes.) *)
Theorem display_type_shows t p m d fuel :
  holds (tree t p ∗ True) m -> addresses_fit m -> displayable t = true ->
  length (TV_ttf_data_format_buffer d) = DATA_FORMAT_BUFFER_SIZE ->
  (DATA_FORMAT_BUFFER_SIZE <= fuel)%nat ->
  exists rows d', Forall2 (row_shows m t) (lh_first t) (row_of <$> rows) /\
    TV_ttf_display_type fuel (Some p) m (TV_ttf_pre_display_callback d) = Ok (TV_ttf_format_ok, d', m) /\
    (lh_first t <> [] -> c_str (TV_ttf_data_format_buffer d') = texts rows).
Proof.
  intros H Hm [Hk Hl]%andb_true_iff Hd Hfuel. apply Z.ltb_lt, Nat2Z.inj_lt in Hl.
  destruct (display_rows t p m fuel H) as (rows & HR & E).
  destruct (rows_ok m t (lh_first t) rows fuel Hm) as (rows' & -> & Hok & Hlen); [|done..|].
  { apply list.Forall_forall. intros x Hx. apply list_elem_of_In in Hx.
    pose proof (proj1 (forallb_forall _ _) Hk x Hx) as Hkx. cbn in Hkx. destruct (key x) as [k|]; [|done].
    exists k. split; [done|]. by apply bool_decide_eq_true in Hkx. }
  destruct rows' as [|r rows'].
  - exists [], (TV_ttf_pre_display_callback d). rewrite E. split; [done|]. split; [done|].
    intros Hne. by apply Forall2_nil_inv_r in HR.
  - destruct (display_shows fuel r rows' d Hd Hok) as (d' & Ed & Hd'); [lia|].
    exists (r :: rows'), d'. rewrite E Ed. split; [done|]. split; [done|]. intros _.
    destruct Hd' as (_ & _ & _ & rest & ->). apply c_str_app_nul. apply texts_nul_free.
Qed.

#[local] Transparent DATA_FORMAT_BUFFER_SIZE.

(** A tree that a program has made. *)
Definition display_program : list command :=
  [ New 0; SetKv 0 [] (name x41) (name x61); SetKv 0 [] (name x42) (name x62);
    SetKv 0 [] (name x42) (name x63); SetKv 0 [] (name x43) (name x64);
    SetKv 0 [name x43] (name x64) (name x65) ].

Lemma forest_single t ptrs m :
  holds (forest [Some t] ptrs) m -> exists p, ptrs = [Some p] /\ holds (tree t p ∗ True) m.
Proof.
  destruct ptrs as [|p [|q ptrs]]; [done| |by intros (? & ? & _ & _ & _ & [])].
  intros H. destruct p as [p|]; [|by destruct H as (? & ? & _ & _ & [] & _)].
  exists p. split; [done|]. eapply holds_entails; [|exact H]. unfold forest. cbn. iIntros "[Ht _]". by iFrame.
Qed.

(** The addresses of a memory that is small enough to look at. *)
Lemma addresses_fit_check (m : memory) :
  forallb (fun lb => Z.pos lb.1 <? 2 ^ 64) (map_to_list m) = true -> addresses_fit m.
Proof.
  intros H l [b Hb]. apply elem_of_map_to_list in Hb. apply list_elem_of_In in Hb.
  by apply (proj1 (forallb_forall _ _) H), Z.ltb_lt in Hb.
Qed.

Lemma display_type_shows_witness :
  exists t p m rows d', length (lh_first t) = 3%nat /\
    Forall2 (row_shows m t) (lh_first t) (row_of <$> rows) /\
    TV_ttf_display_type sample_fuel (Some p) m (TV_ttf_pre_display_callback empty_display)
      = Ok (TV_ttf_format_ok, d', m) /\
    (lh_first t <> [] -> c_str (TV_ttf_data_format_buffer d') = texts rows).
Proof.
  destruct (run_on_memory 1 display_program _ _ eq_refl) as (ptrs & m & E & H).
  apply forest_single in H as (p & _ & H). do 3 eexists.
  assert (addresses_fit m) as Hm.
  { vm_compute in E. injection E as _ <-. apply addresses_fit_check. vm_compute. reflexivity. }
  destruct (display_type_shows _ p m empty_display sample_fuel H Hm) as (rows & d' & HR & Ed & Es).
  - vm_compute. reflexivity.
  - apply length_replicate.
  - apply Nat2Z.inj_le, Z.leb_le. vm_compute. reflexivity.
  - exists rows, d'. split; [|split; [exact HR|split; [exact Ed|exact Es]]]. vm_compute. reflexivity.
Defined.
