(* ===== verification/Print.v ===== *)
(** Printing and logging a kvtree ([src/src/kvtree.c]: [kvtree_print],
    [kvtree_print_mode], [kvtree_log]) and the messages of [src/src/kvtree_err.c].

    What a function prints is the list of bytes it writes to its stream.  Each
    line is indented with the help of a block of [KVTREE_MAX_FILENAME] bytes on the
    stack, which the loops fill without looking at its size: the model makes every
    access, and a tree too deep for the block is undefined behaviour.

    - [lines], [text_of]: what the output means, a list of lines with their
      depths.  [tree_print_lines]: printing a tree gives its lines when they fit the
      block and is undefined otherwise.
    - [lines_inj]: the lines of a tree determine it. *)

From S2P Require Import Prelude CLib ByteOrder Kvtree KvtreeSpec KvtreeMap KvtreeMerge Pack.

Definition KVTREE_MAX_FILENAME : nat := 1024.
Definition KVTREE_PRINT_TREE : Z := 1.
Definition KVTREE_PRINT_KEYVAL : Z := 2.

Definition space : byte := Init.Byte.x20.
Definition newline : byte := Init.Byte.x0a.

Definition KVTREE_VERSION : cstring := str "1.5.0".

(** What [gethostname] says; it may fail. *)
Class Identity := {
  gethostname : option cstring;
  gethostname_fits h : gethostname = Some h -> nul_free h /\ (length h < 256)%nat
}.

Section print.
Context `{Host}.

(** ** Indentation *)

(** [for (i = 0; i < indent; i++) tmp[i] = ' '], [n] turns of it from [i] on. *)
Fixpoint indent_loop (n i : nat) (tmp : list byte) : outcome (list byte) :=
  match n with
  | O => Ok tmp
  | S n => let* tmp := mem_write tmp i [space] in indent_loop n (i + 1) tmp
  end.

Definition indentation (indent : Z) : outcome cstring :=
  let tmp := fresh_block KVTREE_MAX_FILENAME in
  let* tmp := indent_loop (Z.to_nat indent) 0 tmp in
  if indent <? 0 then Undef
  else let* tmp := mem_write tmp (Z.to_nat indent) [NUL] in mem_cstr tmp 0.

(** ** Printing *)
Fixpoint tree_print (hash : kvtree) (indent mode : Z) {struct hash} : outcome (list byte) :=
  match hash with
  | KVTree l =>
      let* _ := indentation indent in
      (fix loop (elem : cursor) : outcome (list byte) :=
         match elem with
         | [] => Ok []
         | e :: next =>
             let* out := tree_elem_print e (i32 (indent + 2)) mode in
             let* rest := loop next in Ok (out ++ rest)
         end) l
  end
with tree_elem_print (elem : kvtree_elem) (indent mode : Z) {struct elem} : outcome (list byte) :=
  match elem with
  | Elem key hash =>
      let print_mode :=
        match hash with
        | Some h => tree_print h indent mode
        | None => let* tmp := indentation indent in Ok (tmp ++ str "NULL LIST" ++ [newline])
        end in
      let* tmp := indentation indent in
      if mode =? KVTREE_PRINT_TREE then
        let out :=
          match key with
          | Some k => tmp ++ c_str k ++ [newline]
          | None => tmp ++ str "NULL KEY" ++ [newline]
          end in
        let* rest := print_mode in Ok (out ++ rest)
      else if mode =? KVTREE_PRINT_KEYVAL then
        match key with
        | Some k =>
            if kvtree_size hash =? 1 then
              match kvtree_elem_first hash with
              | [] => Undef
              | elem2 :: _ =>
                  if match Kvtree.hash elem2 with None => true | Some _ => false end
                     || (kvtree_size (Kvtree.hash elem2) =? 0)
                  then
                    match Kvtree.key elem2 with
                    | Some k2 => Ok (tmp ++ c_str k ++ str " = " ++ c_str k2 ++ [newline])
                    | None => Undef
                    end
                  else let* rest := print_mode in Ok ((tmp ++ c_str k ++ [newline]) ++ rest)
              end
            else let* rest := print_mode in Ok ((tmp ++ c_str k ++ [newline]) ++ rest)
        | None => let* rest := print_mode in Ok ((tmp ++ str "NULL KEY" ++ [newline]) ++ rest)
        end
      else Ok []
  end.

Definition kvtree_print_mode (hash : option kvtree) (indent mode : Z) : outcome (list byte * Z) :=
  match hash with
  | Some h => let* out := tree_print h indent mode in Ok (out, KVTREE_SUCCESS)
  | None =>
      let* tmp := indentation indent in
      Ok (tmp ++ str "NULL LIST" ++ [newline], KVTREE_SUCCESS)
  end.

Definition kvtree_elem_print (elem : option kvtree_elem) (indent mode : Z)
    : outcome (list byte * Z) :=
  match elem with
  | Some e => let* out := tree_elem_print e indent mode in Ok (out, KVTREE_SUCCESS)
  | None =>
      let* tmp := indentation indent in
      if (mode =? KVTREE_PRINT_TREE) || (mode =? KVTREE_PRINT_KEYVAL)
      then Ok (tmp ++ str "NULL ELEMENT" ++ [newline], KVTREE_SUCCESS)
      else Ok ([], KVTREE_SUCCESS)
  end.

Definition kvtree_print (hash : option kvtree) (indent : Z) : outcome (list byte * Z) :=
  kvtree_print_mode hash indent KVTREE_PRINT_TREE.

(** ** Messages *)
Section messages.
Context `{Identity}.

(** The [hostname] block: [gethostname] leaves it as it is when it fails. *)
Definition hostname : outcome cstring :=
  let hostname := fresh_block 256 in
  match gethostname with
  | Some h => let* hostname := mem_write hostname 0 (h ++ [NUL]) in mem_cstr hostname 0
  | None => mem_cstr hostname 0
  end.

(** [text] is what [fmt] and its arguments print. *)
Definition message (kind text : cstring) : outcome (list byte) :=
  let* h := hostname in
  Ok (str "KVTree " ++ c_str KVTREE_VERSION ++ kind ++ str ": " ++ h ++ str ": " ++ text ++ [newline]).

Definition kvtree_err (text : cstring) : outcome (list byte) := message (str " ERROR") text.
Definition kvtree_warn (text : cstring) : outcome (list byte) := message (str " WARNING") text.
Definition kvtree_dbg (level : Z) (text : cstring) : outcome (list byte) := message [] text.

(** It prints to [stderr] and the process exits with status [rc]. *)
Definition kvtree_abort (rc : Z) (text : cstring) : outcome (list byte * Z) :=
  let* out := message (str " ABORT") text in Ok (out, rc).

(** ** Logging *)
Fixpoint tree_log (hash : kvtree) (log_level indent : Z) {struct hash} : outcome (list byte) :=
  match hash with
  | KVTree l =>
      let* _ := indentation indent in
      (fix loop (elem : cursor) : outcome (list byte) :=
         match elem with
         | [] => Ok []
         | e :: next =>
             let* out := tree_elem_log e log_level (i32 (indent + 2)) in
             let* rest := loop next in Ok (out ++ rest)
         end) l
  end
with tree_elem_log (elem : kvtree_elem) (log_level indent : Z) {struct elem} : outcome (list byte) :=
  match elem with
  | Elem key hash =>
      let* tmp := indentation indent in
      let* out :=
        match key with
        | Some k => kvtree_dbg log_level (tmp ++ c_str k ++ [newline])
        | None => kvtree_dbg log_level (tmp ++ str "NULL KEY" ++ [newline])
        end in
      let* rest :=
        match hash with
        | Some h => tree_log h log_level indent
        | None =>
            let* tmp := indentation indent in
            kvtree_dbg log_level (tmp ++ str "NULL LIST" ++ [newline])
        end in
      Ok (out ++ rest)
  end.

Definition kvtree_log (hash : option kvtree) (log_level indent : Z) : outcome (list byte * Z) :=
  match hash with
  | Some h => let* out := tree_log h log_level indent in Ok (out, KVTREE_SUCCESS)
  | None =>
      let* tmp := indentation indent in
      let* out := kvtree_dbg log_level (tmp ++ str "NULL LIST" ++ [newline]) in
      Ok (out, KVTREE_SUCCESS)
  end.

Definition kvtree_elem_log (elem : option kvtree_elem) (log_level indent : Z)
    : outcome (list byte * Z) :=
  match elem with
  | Some e => let* out := tree_elem_log e log_level indent in Ok (out, KVTREE_SUCCESS)
  | None =>
      let* tmp := indentation indent in
      let* out := kvtree_dbg log_level (tmp ++ str "NULL ELEMENT" ++ [newline]) in
      Ok (out, KVTREE_SUCCESS)
  end.
End messages.
End print.

(** ** What the output means: lines of text, each at a column *)
Definition no_children (h : option kvtree) : bool :=
  match h with Some (KVTree (_ :: _)) => false | _ => true end.

(** A hash of one element without children is a value. *)
Definition value_of (h : option kvtree) : option cstring :=
  match h with
  | Some (KVTree [Elem (Some v) h2]) => if no_children h2 then Some v else None
  | _ => None
  end.

Definition key_text (k : option cstring) : cstring :=
  match k with Some k => c_str k | None => str "NULL KEY" end.

Definition pair_text (keyval : bool) (k : option cstring) (h : option kvtree) : option cstring :=
  match keyval, k, value_of h with
  | true, Some k, Some v => Some (c_str k ++ str " = " ++ c_str v)
  | _, _, _ => None
  end.

Fixpoint lines (keyval : bool) (col : nat) (t : kvtree) {struct t} : list (nat * cstring) :=
  match t with KVTree l => concat (map (elem_lines keyval (col + 2)) l) end
with elem_lines (keyval : bool) (col : nat) (e : kvtree_elem) {struct e} : list (nat * cstring) :=
  match e with
  | Elem k h =>
      match pair_text keyval k h with
      | Some text => [(col, text)]
      | None =>
          (col, key_text k) ::
          match h with Some t => lines keyval col t | None => [(col, str "NULL LIST")] end
      end
  end.

Definition lines_opt (keyval : bool) (col : nat) (h : option kvtree) : list (nat * cstring) :=
  match h with Some t => lines keyval col t | None => [(col, str "NULL LIST")] end.

Definition line_text (l : nat * cstring) : list byte := replicate l.1 space ++ l.2 ++ [newline].
Definition text_of (ls : list (nat * cstring)) : list byte := concat (map line_text ls).

Definition cols_fit (ls : list (nat * cstring)) : bool :=
  forallb (fun l => bool_decide (l.1 < KVTREE_MAX_FILENAME)%nat) ls.

(** What is printed for lines, each printed as [g]: they must all fit. *)
Definition shown (g : nat * cstring -> list byte) (ls : list (nat * cstring)) : outcome (list byte) :=
  if cols_fit ls then Ok (concat (map g ls)) else Undef.

Lemma shown_app g a b :
  (let* x := shown g a in let* y := shown g b in Ok (x ++ y)) = shown g (a ++ b).
Proof.
  unfold shown, cols_fit. rewrite forallb_app, map_app, concat_app.
  by destruct (forallb _ a), (forallb _ b).
Qed.

Lemma shown_cons g l b :
  shown g (l :: b) =
    if bool_decide (l.1 < KVTREE_MAX_FILENAME)%nat
    then let* y := shown g b in Ok (g l ++ y) else Undef.
Proof. unfold shown. cbn [cols_fit forallb]. fold (cols_fit b). by case_bool_decide; destruct (cols_fit b). Qed.

(** A loop that shows every element shows their lines. *)
Lemma shown_loop {A} g (f : A -> list (nat * cstring)) (one : A -> outcome (list byte)) l :
  Forall (fun e => one e = shown g (f e)) l ->
  (fix loop (l : list A) : outcome (list byte) :=
     match l with
     | [] => Ok []
     | e :: next => let* out := one e in let* rest := loop next in Ok (out ++ rest)
     end) l = shown g (concat (map f l)).
Proof.
  induction 1 as [|e l He _ IH]; [done|]. cbn [map concat]. rewrite <- shown_app, <- IH, He. done.
Qed.

Lemma lines_eq kv col l : lines kv col (KVTree l) = concat (map (elem_lines kv (col + 2)) l).
Proof. done. Qed.

Lemma elem_lines_eq kv col k h :
  elem_lines kv col (Elem k h) =
    match pair_text kv k h with
    | Some text => [(col, text)]
    | None => (col, key_text k) :: lines_opt kv col h
    end.
Proof. by destruct h. Qed.

Section printed.
Context `{Host}.

(** ** Indentation *)
Lemma indent_loop_spec n : forall i tmp,
  (i <= length tmp)%nat ->
  indent_loop n i tmp =
    if bool_decide (i + n <= length tmp)%nat
    then Ok (take i tmp ++ replicate n space ++ drop (i + n) tmp) else Undef.
Proof.
  induction n as [|n IH]; intros i tmp Hi; cbn [indent_loop].
  - rewrite bool_decide_true by lia. rewrite Nat.add_0_r. cbn [replicate app].
    by rewrite take_drop.
  - unfold mem_write. cbn [length]. case_decide as Hd; cbn [obind].
    2:{ by rewrite bool_decide_false by lia. }
    rewrite IH by (rewrite !length_app, length_take, length_drop; cbn [length]; lia).
    replace (length (take i tmp ++ [space] ++ drop (i + 1) tmp)) with (length tmp)
      by (rewrite !length_app, length_take, length_drop; cbn [length]; lia).
    replace (i + 1 + n)%nat with (i + S n)%nat by lia.
    case_bool_decide; [|done]. f_equal.
    rewrite (app_assoc (take i tmp)), take_app_length'
      by (rewrite length_app, length_take; cbn [length]; lia).
    rewrite drop_app_ge by (rewrite length_app, length_take; cbn [length]; lia).
    rewrite drop_drop, length_app, length_take. cbn [length].
    rewrite <- app_assoc. cbn [replicate app]. do 3 f_equal.
    f_equal. lia.
Qed.

Lemma nul_free_spaces n : nul_free (replicate n space).
Proof. unfold nul_free. intros [? _]%elem_of_replicate. discriminate. Qed.

Lemma indentation_spec n :
  indentation n =
    if (0 <=? n) && (n <? Z.of_nat KVTREE_MAX_FILENAME)
    then Ok (replicate (Z.to_nat n) space) else Undef.
Proof.
  unfold indentation. rewrite indent_loop_spec by (rewrite fresh_block_length; lia).
  rewrite fresh_block_length. destruct (Z.ltb_spec n 0) as [Hn|Hn].
  - rewrite (proj2 (Z.leb_gt _ _)) by lia. cbn [andb]. by case_bool_decide.
  - rewrite (proj2 (Z.leb_le _ _)) by lia. cbn [andb].
    destruct (Z.ltb_spec n (Z.of_nat KVTREE_MAX_FILENAME)) as [Hm|Hm].
    + rewrite bool_decide_true by lia. rewrite take_0. cbn [obind app Nat.add].
      unfold mem_write.
      assert (L : length (replicate (Z.to_nat n) space ++
                 drop (Z.to_nat n) (fresh_block KVTREE_MAX_FILENAME)) = KVTREE_MAX_FILENAME)
        by (rewrite length_app, length_replicate, length_drop, fresh_block_length; lia).
      rewrite L. cbn [length]. rewrite decide_True by lia. cbn [obind].
      rewrite take_app_length' by (by rewrite length_replicate).
      unfold mem_cstr. cbn [drop]. rewrite decide_True by set_solver.
      f_equal. cbn [app]. apply c_str_app_nul. apply nul_free_spaces.
    + case_bool_decide as Hb; cbn [obind]; [|done].
      unfold mem_write. rewrite decide_False; [done|].
      rewrite !length_app, length_take, length_replicate, length_drop, fresh_block_length.
      cbn [length]. lia.
Qed.
End printed.

(** ** Printing gives the lines that fit *)
Section spec.
Context `{Host}.

Definition print_rest (h : option kvtree) (indent mode : Z) : outcome (list byte) :=
  match h with
  | Some h => tree_print h indent mode
  | None => let* tmp := indentation indent in Ok (tmp ++ str "NULL LIST" ++ [newline])
  end.

(** The modes, as a boolean, and what the second one asks of the tree. *)
Definition mode_of (keyval : bool) : Z := if keyval then KVTREE_PRINT_KEYVAL else KVTREE_PRINT_TREE.

Definition printable (keyval : bool) (t : kvtree) : bool :=
  negb keyval || (small t && keys_ok t).
Definition printable_opt (keyval : bool) (h : option kvtree) : bool :=
  match h with Some t => printable keyval t | None => true end.

Lemma indentation_nat n :
  indentation (Z.of_nat n) =
    if bool_decide (n < KVTREE_MAX_FILENAME)%nat then Ok (replicate n space) else Undef.
Proof.
  rewrite indentation_spec, (proj2 (Z.leb_le _ _)), Nat2Z.id by lia. cbn [andb].
  case_bool_decide; [rewrite (proj2 (Z.ltb_lt _ _)) by lia|rewrite (proj2 (Z.ltb_ge _ _)) by lia]; done.
Qed.

Lemma printable_elems kv l :
  printable kv (KVTree l) = true -> Forall (fun e => printable_opt kv (hash e) = true) l.
Proof.
  unfold printable. destruct kv; cbn [negb orb].
  - rewrite small_eq. cbn [keys_ok]. intros [[_ Hs]%andb_true_iff Hk]%andb_true_iff.
    apply list.Forall_forall. intros e He%list_elem_of_In.
    rewrite forallb_forall in Hs, Hk. specialize (Hs e He). specialize (Hk e He).
    destruct e as [[k|] [t|]]; try done. cbn in *. by rewrite Hs, Hk.
  - intros _. apply list.Forall_forall. by intros [k [t|]] _.
Qed.

(** The test for a value in the code is [value_of]. *)
Lemma pair_case (k : cstring) h {A} (yes : cstring -> A) (undef no : A) :
  printable_opt true h = true ->
  (if kvtree_size h =? 1 then
     match kvtree_elem_first h with
     | [] => undef
     | elem2 :: _ =>
         if match hash elem2 with None => true | Some _ => false end || (kvtree_size (hash elem2) =? 0)
         then match key elem2 with Some k2 => yes k2 | None => undef end
         else no
     end
   else no) = match value_of h with Some v => yes v | None => no end.
Proof.
  destruct h as [[l]|]; [|done]. intros Hp. pose proof (printable_elems true l Hp) as Hl.
  cbn [printable_opt printable negb orb] in Hp. apply andb_true_iff in Hp as [Hs Hk].
  rewrite small_eq in Hs. apply andb_true_iff in Hs as [Hs _]. apply Z.leb_le in Hs.
  unfold kvtree_size at 1. cbn [lh_first kvtree_elem_first].
  rewrite size_loop_length, Z.add_0_l by lia.
  destruct l as [|[k2 h2] [|e3 l]]; cbn [length]; [done| |].
  2:{ rewrite (proj2 (Z.eqb_neq _ _)) by lia. by destruct k2. }
  cbn [Z.of_nat Pos.of_succ_nat Z.eqb Pos.eqb]. cbn [keys_ok forallb] in Hk.
  destruct k2 as [k2|]; [|by destruct h2]. cbn [hash key value_of].
  destruct h2 as [[l2]|]; [|done]. cbn [orb].
  inversion Hl as [|? ? Hp2 _]; subst. cbn [hash printable_opt printable negb orb] in Hp2.
  apply andb_true_iff in Hp2 as [Hs2 _]. rewrite small_eq in Hs2.
  apply andb_true_iff in Hs2 as [Hs2 _]. apply Z.leb_le in Hs2.
  unfold kvtree_size. cbn [lh_first]. rewrite size_loop_length, Z.add_0_l by lia.
  by destruct l2.
Qed.

Lemma tree_elem_print_eq kv k h n :
  printable_opt kv h = true ->
  tree_elem_print (Elem k h) n (mode_of kv) =
    let* tmp := indentation n in
    match pair_text kv k h with
    | Some text => Ok (tmp ++ text ++ [newline])
    | None =>
        let* rest := print_rest h n (mode_of kv) in
        Ok ((tmp ++ key_text k ++ [newline]) ++ rest)
    end.
Proof.
  intros Hp. cbn [tree_elem_print]. fold (print_rest h n (mode_of kv)).
  destruct (indentation n) as [tmp| | |]; [|done..]. cbn [obind].
  destruct kv; cbn [mode_of] in *.
  - cbn [Z.eqb Pos.eqb KVTREE_PRINT_KEYVAL KVTREE_PRINT_TREE].
    destruct k as [k|]; [|done]. rewrite pair_case by done. unfold pair_text.
    destruct (value_of h); [|done]. by rewrite <- !app_assoc.
  - cbn [Z.eqb Pos.eqb KVTREE_PRINT_TREE]. by destruct k.
Qed.

Lemma tree_print_lines kv t : forall n,
  printable kv t = true -> (n < KVTREE_MAX_FILENAME)%nat ->
  tree_print t (Z.of_nat n) (mode_of kv) = shown line_text (lines kv n t).
Proof.
  induction t as [l IH] using kvtree_rect'. intros n Hp Hn.
  apply printable_elems in Hp. cbn [tree_print].
  rewrite indentation_nat, bool_decide_true by done. cbn [obind].
  rewrite i32_id by (unfold KVTREE_MAX_FILENAME in Hn; int_lia).
  rewrite lines_eq. apply shown_loop. apply list.Forall_forall. intros [k h] He.
  eapply list.Forall_forall in IH; [|exact He]. eapply list.Forall_forall in Hp; [|exact He].
  cbn [hash] in *. replace (Z.of_nat n + 2) with (Z.of_nat (n + 2)) by lia.
  rewrite tree_elem_print_eq, elem_lines_eq, indentation_nat by done.
  destruct (pair_text kv k h) as [text|].
  { rewrite shown_cons. cbn [fst]. case_bool_decide; [|done]. cbn. by rewrite app_nil_r. }
  rewrite shown_cons. cbn [fst]. case_bool_decide as Hc; [|done]. cbn [obind].
  destruct h as [t|]; cbn [print_rest lines_opt].
  - by rewrite IH.
  - rewrite indentation_nat, bool_decide_true by done. rewrite shown_cons.
    rewrite bool_decide_true by done. cbn. by rewrite app_nil_r.
Qed.

(** ** Logging gives the same lines, each as a message *)
Context `{Identity}.

Definition log_line (h : cstring) (l : nat * cstring) : list byte :=
  str "KVTree " ++ c_str KVTREE_VERSION ++ str ": " ++ h ++ str ": " ++ line_text l ++ [newline].

Lemma dbg_line h lvl n s :
  hostname = Ok h ->
  kvtree_dbg lvl (replicate n space ++ s ++ [newline]) = Ok (log_line h (n, s)).
Proof. intros E. unfold kvtree_dbg, message. by rewrite E. Qed.

Lemma tree_log_lines h lvl t : forall n,
  hostname = Ok h -> (n < KVTREE_MAX_FILENAME)%nat ->
  tree_log t lvl (Z.of_nat n) = shown (log_line h) (lines false n t).
Proof.
  induction t as [l IH] using kvtree_rect'. intros n Hh Hn. cbn [tree_log].
  rewrite indentation_nat, bool_decide_true by done. cbn [obind].
  rewrite i32_id by (unfold KVTREE_MAX_FILENAME in Hn; int_lia).
  rewrite lines_eq. apply shown_loop. apply list.Forall_forall. intros [k c] He.
  eapply list.Forall_forall in IH; [|exact He].
  cbn [hash] in *. replace (Z.of_nat n + 2) with (Z.of_nat (n + 2)) by lia.
  cbn [tree_elem_log]. rewrite elem_lines_eq, indentation_nat. cbn [pair_text].
  rewrite shown_cons. cbn [fst]. case_bool_decide as Hc; [|done]. cbn [obind].
  replace (match k with Some k0 => _ | None => _ end) with (Ok (log_line h ((n + 2)%nat, key_text k)))
    by (destruct k; by rewrite (dbg_line h)).
  cbn [obind]. f_equal.
  destruct c as [t|]; cbn [lines_opt]; [by apply IH|].
  rewrite shown_cons, bool_decide_true by done. cbn [obind]. rewrite (dbg_line h) by done.
  cbn. by rewrite app_nil_r.
Qed.
End spec.

(** ** Lines and paths *)
Lemma elem_of_lines c s n l :
  (c, s) ∈ lines false n (KVTree l) <->
  exists k h, Elem k h ∈ l /\ ((c, s) = ((n + 2)%nat, key_text k) \/ (c, s) ∈ lines_opt false (n + 2) h).
Proof.
  rewrite lines_eq, list_elem_of_In, in_concat. split.
  - intros (x & ([k h] & <- & He)%in_map_iff & Hx). apply list_elem_of_In in He, Hx.
    exists k, h. split; [done|]. rewrite elem_lines_eq in Hx. cbn [pair_text] in Hx.
    by apply list.elem_of_cons in Hx.
  - intros (k & h & He & Hc). exists (elem_lines false (n + 2) (Elem k h)).
    split; [apply in_map_iff; eexists; split; [done|by apply list_elem_of_In]|].
    apply list_elem_of_In. rewrite elem_lines_eq. cbn [pair_text]. by apply list.elem_of_cons.
Qed.

(** A tree has a line at a column when it has a path as deep as that. *)
Lemma lines_paths t : forall n c,
  wf t ->
  (exists s, (c, s) ∈ lines false n t) <->
  exists p, p <> [] /\ has_path t p = true /\ c = (n + 2 * length p)%nat.
Proof.
  induction t as [l IH] using kvtree_rect'. intros n c Hwf.
  assert (Hl := proj2 (proj1 (wf_iff _) Hwf)). cbn [lh_first] in Hl.
  rewrite list.Forall_forall in IH, Hl. split.
  - intros [s (k & h & He & Hc)%elem_of_lines]. specialize (IH _ He). specialize (Hl _ He).
    apply wf_elem_iff in Hl as [Hk Hh]. destruct k as [k|]; [|done]. cbn [key hash] in *.
    assert (Hhd : forall p, has_path_opt h p = true -> has_path (KVTree l) (k :: p) = true).
    { intros p Hp. cbn [has_path lh_first]. apply existsb_exists. exists (Elem (Some k) h).
      split; [by apply list_elem_of_In|]. fold (has_path_opt h p). cbn [hash]. unfold elem_matches. cbn [key].
      fold (has_path_opt h p). by rewrite Hp, andb_true_r, strcmp_eq0, bool_decide_true. }
    destruct Hc as [[= -> _]|Hc].
    { exists [k]. split_and!; [done| |cbn; lia]. by apply Hhd, has_path_opt_nil. }
    destruct h as [t|]; cbn [lines_opt] in Hc.
    + destruct (proj1 (IH (n + 2)%nat c Hh) ltac:(by eexists)) as (p & Hp & Hpp & ->).
      exists (k :: p). split_and!; [done|by apply Hhd|cbn; lia].
    + apply list_elem_of_singleton in Hc. injection Hc as -> _.
      exists [k]. split_and!; [done| |cbn; lia]. by apply Hhd, has_path_opt_nil.
  - intros ([|k p] & Hp & Hpp & ->); [done|]. cbn [has_path lh_first] in Hpp.
    apply existsb_exists in Hpp as ([k' h] & He & [Hm Hpp]%andb_true_iff). apply list_elem_of_In in He.
    specialize (IH _ He). specialize (Hl _ He). apply wf_elem_iff in Hl as [Hk Hh]. cbn [key hash] in *.
    destruct p as [|k2 p].
    { exists (key_text k'). apply elem_of_lines. exists k', h. split; [done|].
      left. cbn [length]. by rewrite Nat.mul_1_r. }
    destruct h as [t|]; [|done].
    destruct (proj2 (IH (n + 2)%nat (n + 2 * length (k :: k2 :: p))%nat Hh)) as [s Hs].
    { exists (k2 :: p). split_and!; [done|done|cbn; lia]. }
    exists s. apply elem_of_lines. exists k', (Some t). split; [done|by right].
Qed.

Lemma fits_paths t n :
  wf t -> (forall p, has_path t p = true -> (n + 2 * length p < KVTREE_MAX_FILENAME)%nat) ->
  cols_fit (lines false n t) = true.
Proof.
  intros Hwf Hp. apply forallb_forall. intros [c s] Hc%list_elem_of_In.
  destruct (proj1 (lines_paths t n c Hwf) ltac:(by eexists)) as (p & _ & Hpp & ->).
  apply bool_decide_eq_true. by apply Hp.
Qed.

Lemma fits_deep t n p :
  wf t -> p <> [] -> has_path t p = true -> (KVTREE_MAX_FILENAME <= n + 2 * length p)%nat ->
  cols_fit (lines false n t) = false.
Proof.
  intros Hwf Hp Hpp Hd.
  destruct (proj2 (lines_paths t n _ Hwf) ltac:(by exists p)) as [s Hs].
  apply not_true_is_false. intros Hf. unfold cols_fit in Hf. rewrite forallb_forall in Hf.
  apply list_elem_of_In, Hf, bool_decide_eq_true in Hs. cbn [fst] in Hs. lia.
Qed.

(** ** The lines of a tree determine it

    [legible]: no NULL key and no NULL hash, and no key starts with a space or
    holds a newline. *)
Definition legible_key (k : cstring) : bool :=
  bool_decide (NUL ∉ k) && bool_decide (newline ∉ k) &&
  match k with c :: _ => negb (Byte.eqb c space) | [] => true end.

Fixpoint legible (t : kvtree) : bool :=
  match t with
  | KVTree l =>
      forallb (fun e => match e with
                        | Elem (Some k) (Some h) => legible_key k && legible h
                        | _ => false
                        end) l
  end.

Lemma line_text_inj c c' s s' r r' :
  legible_key s = true -> legible_key s' = true ->
  line_text (c, s) ++ r = line_text (c', s') ++ r' -> (c, s) = (c', s') /\ r = r'.
Proof.
  unfold line_text, legible_key. cbn [fst snd]. rewrite <- !app_assoc.
  intros [[_ Hs]%andb_true_iff Hsp]%andb_true_iff [[_ Hs']%andb_true_iff Hsp']%andb_true_iff.
  apply bool_decide_eq_true in Hs, Hs'.
  revert c'. induction c as [|c IH]; intros [|c'] E; cbn [replicate app] in E.
  - assert (s = s' /\ newline :: r = newline :: r') as [-> [= ->]]; [|done].
    clear Hsp Hsp'. revert s' Hs' E. induction s as [|x s IHs]; intros [|x' s'] Hs' E; cbn in E.
    + done.
    + injection E as <- E. set_solver.
    + injection E as -> E. set_solver.
    + injection E as <- E. destruct (IHs ltac:(set_solver) s' ltac:(set_solver) E) as [-> ->]. done.
  - destruct s as [|x s]; cbn in E; [discriminate|]. injection E as -> E. discriminate.
  - destruct s' as [|x s']; cbn in E; [discriminate|]. injection E as <- E. discriminate.
  - injection E as E. destruct (IH _ E) as [[= -> ->] ->]. done.
Qed.

Lemma text_of_inj ls : forall ls',
  Forall (fun l => legible_key l.2 = true) ls -> Forall (fun l => legible_key l.2 = true) ls' ->
  text_of ls = text_of ls' -> ls = ls'.
Proof.
  induction ls as [|[c s] ls IH]; intros [|[c' s'] ls'] Hl Hl' E; [done|..].
  - unfold text_of, line_text in E. cbn [map concat fst snd] in E.
    destruct (replicate c' space), s'; cbn in E; discriminate.
  - unfold text_of, line_text in E. cbn [map concat fst snd] in E.
    destruct (replicate c space), s; cbn in E; discriminate.
  - inversion Hl as [|? ? Hs Hl1]. inversion Hl' as [|? ? Hs' Hl1']. subst.
    apply line_text_inj in E as [-> E]; [|done..]. f_equal. by apply IH.
Qed.

Lemma legible_lines t : forall n,
  legible t = true -> Forall (fun l => legible_key l.2 = true) (lines false n t).
Proof.
  induction t as [l IH] using kvtree_rect'. intros n Hl. rewrite lines_eq.
  cbn [legible] in Hl. rewrite forallb_forall in Hl. apply Forall_concat, Forall_map.
  apply list.Forall_forall. intros [k h] He. eapply list.Forall_forall in IH; [|exact He].
  apply list_elem_of_In, Hl in He. destruct k as [k|], h as [h|]; try done.
  apply andb_true_iff in He as [Hk Hh]. rewrite elem_lines_eq. cbn [pair_text].
  constructor; [|by apply IH]. cbn [snd key_text]. rewrite c_str_id; [done|].
  unfold legible_key in Hk. rewrite !andb_true_iff, !bool_decide_eq_true in Hk. apply Hk.
Qed.

Definition low (n : nat) (r : list (nat * cstring)) : Prop :=
  match r with [] => True | l :: _ => (l.1 <= n)%nat end.

Lemma low_forest n l r :
  low n r -> low (n + 2) (concat (map (elem_lines false (n + 2)) l) ++ r).
Proof.
  intros Hr. destruct l as [|[k h] l]; cbn [map concat].
  - destruct r as [|x r]; [done|]. cbn in *. lia.
  - rewrite elem_lines_eq. cbn. lia.
Qed.

Definition legible_elem (e : kvtree_elem) : Prop :=
  exists k t, e = Elem (Some k) (Some t) /\ c_str k = k /\ legible t = true.

Lemma legible_elems l : legible (KVTree l) = true -> Forall legible_elem l.
Proof.
  cbn [legible]. rewrite forallb_forall. intros Hl. apply list.Forall_forall.
  intros [[k|] [t|]] He%list_elem_of_In; specialize (Hl _ He); try done.
  apply andb_true_iff in Hl as [Hk Ht]. exists k, t. split_and!; [done| |done].
  unfold legible_key in Hk. rewrite !andb_true_iff, !bool_decide_eq_true in Hk. apply c_str_id, Hk.
Qed.

Lemma elem_lines_legible n k t ls :
  c_str k = k ->
  concat (map (elem_lines false n) (Elem (Some k) (Some t) :: ls)) =
    (n, k) :: lines false n t ++ concat (map (elem_lines false n) ls).
Proof. intros E. cbn [map concat]. rewrite elem_lines_eq. cbn [pair_text key_text]. by rewrite E. Qed.

Lemma lines_inj t : forall n t' r r',
  legible t = true -> legible t' = true -> low n r -> low n r' ->
  lines false n t ++ r = lines false n t' ++ r' -> t = t' /\ r = r'.
Proof.
  induction t as [l IH] using kvtree_rect'. intros n [l'] r r' Hl Hl' Hr Hr'. rewrite !lines_eq.
  apply legible_elems in Hl, Hl'. intros E.
  assert (l = l' /\ r = r') as [-> ->]; [|done]. revert l' Hl' E.
  induction IH as [|e l He _ IHl]; inversion_clear Hl as [|? ? (k & t & Ee & Hk & Ht) Hl1];
    intros l' Hl'; inversion_clear Hl' as [|e' l1' (k' & t' & Ee' & Hk' & Ht') Hl1']; try subst e; try subst e';
    rewrite ?elem_lines_legible by done; cbn [map concat app].
  - done.
  - intros ->. cbn in Hr. lia.
  - intros <-. cbn in Hr'. lia.
  - rewrite <- !app_assoc. intros E. injection E as -> E. cbn [hash] in He.
    apply He in E as [-> E]; [|auto using low_forest..].
    by apply IHl in E as [-> ->].
Qed.

Section claims.
Context `{Host}.

Lemma print_mode_shown kv t :
  printable kv t = true -> cols_fit (lines kv 0 t) = true ->
  kvtree_print_mode (Some t) 0 (mode_of kv) = Ok (text_of (lines kv 0 t), KVTREE_SUCCESS).
Proof.
  intros Hp Hc. unfold kvtree_print_mode. change 0 with (Z.of_nat 0).
  rewrite tree_print_lines by (done || (unfold KVTREE_MAX_FILENAME; lia)).
  unfold shown. by rewrite Hc.
Qed.

Lemma kvtree_print_shown t n :
  (n < KVTREE_MAX_FILENAME)%nat ->
  kvtree_print (Some t) (Z.of_nat n) =
    let* out := shown line_text (lines false n t) in Ok (out, KVTREE_SUCCESS).
Proof. intros Hn. unfold kvtree_print, kvtree_print_mode. by rewrite (tree_print_lines false) by done. Qed.

Lemma indentation_outside n :
  n < 0 \/ Z.of_nat KVTREE_MAX_FILENAME <= n -> indentation n = Undef.
Proof.
  intros Hn. rewrite indentation_spec.
  case (Z.leb_spec 0 n), (Z.ltb_spec n (Z.of_nat KVTREE_MAX_FILENAME)); cbn; done || lia.
Qed.

Lemma print_outside t n :
  n < 0 \/ Z.of_nat KVTREE_MAX_FILENAME <= n -> kvtree_print (Some t) n = Undef.
Proof.
  intros Hn. unfold kvtree_print, kvtree_print_mode. destruct t as [l]. cbn [tree_print].
  by rewrite indentation_outside.
Qed.

(** What [kvtree_print] prints shows the whole tree: two trees without NULL
    keys and NULL hashes, whose keys hold no newline and do not start with a
    space, that print the same at an indentation are the same. *)
Theorem print_injective t t' n out rc rc' :
  legible t = true -> legible t' = true ->
  kvtree_print (Some t) n = Ok (out, rc) -> kvtree_print (Some t') n = Ok (out, rc') -> t = t'.
Proof.
  intros Ht Ht' E E'.
  destruct (decide (n < 0 \/ Z.of_nat KVTREE_MAX_FILENAME <= n)) as [Ho|Ho].
  { rewrite print_outside in E by done. discriminate. }
  replace n with (Z.of_nat (Z.to_nat n)) in E, E' by lia.
  rewrite kvtree_print_shown in E, E' by lia. unfold shown in E, E'.
  destruct (cols_fit _), (cols_fit _); try done. cbn [obind] in E, E'.
  injection E as E _. injection E' as E' _. rewrite <- E' in E.
  apply text_of_inj in E; [|by apply legible_lines..].
  apply (lines_inj t (Z.to_nat n) t' [] []); [done..|]. by rewrite E.
Qed.
Context `{Identity}.

Lemma kvtree_log_shown t h lvl n :
  hostname = Ok h -> (n < KVTREE_MAX_FILENAME)%nat ->
  kvtree_log (Some t) lvl (Z.of_nat n) =
    let* out := shown (log_line h) (lines false n t) in Ok (out, KVTREE_SUCCESS).
Proof. intros Hh Hn. unfold kvtree_log. by rewrite (tree_log_lines h). Qed.

Lemma log_outside t n lvl :
  n < 0 \/ Z.of_nat KVTREE_MAX_FILENAME <= n -> kvtree_log (Some t) lvl n = Undef.
Proof.
  intros Hn. unfold kvtree_log. destruct t as [l]. cbn [tree_log].
  by rewrite indentation_outside.
Qed.

(** C37. Printing and logging a tree at an indentation give one line for each
    element, its key two columns right of its parent's, in the order of the
    elements, when every path of the tree ends before column 1024; when one does
    not, or the indentation is negative, both write outside of the block that
    holds the indentation. *)
Theorem print_bounds t h lvl n :
  wf t -> hostname = Ok h ->
  ((forall p, has_path t p = true -> Z.of_nat n + 2 * Z.of_nat (length p) < 1024) ->
     kvtree_print (Some t) (Z.of_nat n) = Ok (text_of (lines false n t), KVTREE_SUCCESS) /\
     kvtree_log (Some t) lvl (Z.of_nat n)
       = Ok (concat (map (log_line h) (lines false n t)), KVTREE_SUCCESS)) /\
  (forall m, m < 0 \/ (exists p, has_path t p = true /\ 1024 <= m + 2 * Z.of_nat (length p)) ->
     kvtree_print (Some t) m = Undef /\ kvtree_log (Some t) lvl m = Undef).
Proof.
  intros Hwf Hh. split.
  - intros Hp. assert (Hn := Hp [] eq_refl). cbn [length] in Hn.
    rewrite kvtree_print_shown, (kvtree_log_shown t h) by (done || (unfold KVTREE_MAX_FILENAME; lia)).
    unfold shown. rewrite fits_paths; [done..|]. intros p Hpp%Hp. unfold KVTREE_MAX_FILENAME. lia.
  - intros m Hm. destruct (decide (m < 0 \/ Z.of_nat KVTREE_MAX_FILENAME <= m)) as [Ho|Ho];
      [by split; [apply print_outside|apply log_outside]|].
    destruct Hm as [Hm|(p & Hp & Hd)]; [lia|].
    replace m with (Z.of_nat (Z.to_nat m)) by lia.
    rewrite kvtree_print_shown, (kvtree_log_shown t h) by (done || lia).
    unfold shown. rewrite (fits_deep t _ p); [done..| |done|unfold KVTREE_MAX_FILENAME in *; lia].
    intros ->. cbn [length] in Hd. unfold KVTREE_MAX_FILENAME in Ho. lia.
Qed.

End claims.

(** ** Witnesses *)
Definition sample_identity : Identity.
Proof.
  refine {| gethostname := Some (str "node1") |}.
  intros h [= <-]. split; [|by vm_compute; lia]. by apply (bool_decide_eq_true _); vm_compute.
Defined.

Example print_sample :
  @kvtree_print_mode host_le (Some sample_hash) 0 KVTREE_PRINT_KEYVAL
    = Ok (text_of (lines true 0 sample_hash), KVTREE_SUCCESS).
Proof. vm_compute. reflexivity. Qed.

Lemma print_bounds_witness :
  wf sample_hash /\ @hostname host_le sample_identity = Ok (str "node1") /\
  ((forall p, has_path sample_hash p = true -> Z.of_nat 4 + 2 * Z.of_nat (length p) < 1024) ->
     @kvtree_print host_le (Some sample_hash) (Z.of_nat 4)
       = Ok (text_of (lines false 4 sample_hash), KVTREE_SUCCESS) /\
     @kvtree_log host_le sample_identity (Some sample_hash) 1 (Z.of_nat 4)
       = Ok (concat (map (log_line (str "node1")) (lines false 4 sample_hash)),
             KVTREE_SUCCESS)) /\
  (forall m, m < 0 \/ (exists p, has_path sample_hash p = true /\ 1024 <= m + 2 * Z.of_nat (length p)) ->
     @kvtree_print host_le (Some sample_hash) m = Undef /\
     @kvtree_log host_le sample_identity (Some sample_hash) 1 m = Undef).
Proof.
  assert (wf sample_hash) as Hwf by wf_check.
  assert (@hostname host_le sample_identity = Ok (str "node1")) as Hh by (vm_compute; reflexivity).
  split; [exact Hwf|]. split; [exact Hh|].
  exact (@print_bounds host_le sample_identity sample_hash (str "node1") 1 4 Hwf Hh).
Defined.

Lemma print_injective_witness :
  legible sample_hash = true /\
  exists out rc, @kvtree_print host_le (Some sample_hash) 0 = Ok (out, rc) /\
    forall t', legible t' = true -> @kvtree_print host_le (Some t') 0 = Ok (out, rc) -> sample_hash = t'.
Proof.
  assert (legible sample_hash = true) as Hl by (vm_compute; reflexivity).
  split; [exact Hl|].
  exists (text_of (lines false 0 sample_hash)), KVTREE_SUCCESS.
  assert (@kvtree_print host_le (Some sample_hash) 0
          = Ok (text_of (lines false 0 sample_hash), KVTREE_SUCCESS)) as E by (vm_compute; reflexivity).
  split; [exact E|]. intros t' Ht' E'.
  exact (@print_injective host_le sample_hash t' 0 _ _ _ Hl Ht' E E').
Defined.
