(* ===== verification/PrintTool.v ===== *)
(** The command line utility [kvtree_print], [src/src/kvtree_print.c]: reading
    the arguments, a file, and printing it.

    [getopt_long] is outside: class [Getopt] is its results on an argument list,
    with what is documented of operands and of an option with an argument.  What
    the program prints is the list of bytes on [stdout], less the library's own
    messages. *)

From S2P Require Import Prelude CLib ByteOrder Kvtree KvtreeSpec KvtreeMap KvtreeMerge Pack.
From S2P Require Import Io Persist Print.

(** ** The utility [kvtree_print] *)

(** What [getopt_long] returns for the options of the program, in order: [-m]
    with its argument, [-h], or an option it does not know, with
    [argv[optind-1]]. *)
Inductive opt := opt_m (optarg : cstring) | opt_h | opt_unknown (arg : cstring).

(** All its results up to the -1, and [optind] then.  An argument that does not
    start with a dash is no option. *)
Class Getopt := {
  getopt_long : list cstring -> list opt * nat;
  getopt_operands prog args :
    Forall (fun a => forall a', a <> minus :: a') args -> getopt_long (prog :: args) = ([], 1%nat);
  getopt_m_argument prog mode args :
    Forall (fun a => forall a', a <> minus :: a') args ->
    getopt_long (prog :: str "-m" :: mode :: args) = ([opt_m mode], 3%nat)
}.

Section utility.
Context `{Host} `{Zlib} `{Getopt}.

Definition quote : byte := Init.Byte.x22.

Definition print_usage : list byte :=
  [newline] ++ str "Usage: kvtree_print [options] <file>" ++ [newline] ++
  [newline] ++ str "  Options:" ++ [newline] ++
  str "    -m, --mode <mode>  Specify print format: " ++ [quote] ++ str "tree" ++ [quote] ++
  str " or " ++ [quote] ++ str "keyval" ++ [quote] ++ str " (default tree)" ++ [newline] ++
  str "    -h, --help         Print usage" ++ [newline] ++
  [newline].

Definition quoted (text arg : cstring) : list byte :=
  str "ERROR: " ++ text ++ str ": `" ++ c_str arg ++ str "'" ++ [newline].

(** The loop over the options: [usage], [mode], [rc] and what it prints. *)
Fixpoint options_loop (opts : list opt) (usage : bool) (mode : option cstring) (rc : Z)
    (out : list byte) : bool * option cstring * Z * list byte :=
  match opts with
  | [] => (usage, mode, rc, out)
  | opt_m optarg :: opts => options_loop opts usage (Some (strdup optarg)) rc out
  | opt_h :: opts => options_loop opts true mode rc out
  | opt_unknown arg :: opts =>
      options_loop opts true mode 1 (out ++ quoted (str "Unknown option") arg)
  end.

(** The exit status and what is printed (less the messages of the library). *)
Definition main (argv : list cstring) : io (Z * list byte) :=
  let '(opts, optind) := getopt_long argv in
  let '(usage, mode, rc, out) := options_loop opts false None 0 [] in
  let numargs := Z.of_nat (length argv) - Z.of_nat optind in
  let '(usage, rc, out) :=
    if negb usage && negb (numargs =? 1)
    then (true, 1, out ++ str "ERROR: Missing file name or too many files" ++ [newline])
    else (usage, rc, out) in
  let '(print_mode, usage, rc, out) :=
    match mode with
    | Some mode =>
        if strcmp mode (str "tree") =? 0 then (KVTREE_PRINT_TREE, usage, rc, out)
        else if strcmp mode (str "keyval") =? 0 then (KVTREE_PRINT_KEYVAL, usage, rc, out)
        else (KVTREE_PRINT_TREE, true, 1, out ++ quoted (str "Invalid mode name") mode)
    | None => (KVTREE_PRINT_TREE, usage, rc, out)
    end in
  if usage then io_ret (rc, out ++ print_usage)
  else
    let filename := default [] (argv !! optind) in
    let hash := Some kvtree_new in
    do* (r, hash) := kvtree_read_file (Some filename) hash in
    if r =? KVTREE_SUCCESS then
      lift* (text, _) := kvtree_print_mode hash 0 print_mode in io_ret (rc, out ++ text)
    else io_ret (1, out ++ quoted (str "Failed to read file") filename).

(** A file that holds a hash as [kvtree_write_file] leaves it is read back. *)
Lemma read_persisted file t s :
  os_ok s -> wf t -> no_null_hash t = true -> fits t ->
  files s !! file = Some (persisted (Some t)) ->
  exists rc h s', kvtree_read_file (Some file) (Some kvtree_new) s = Ok ((rc, h), s') /\
    files s' = files s /\
    (rc = KVTREE_SUCCESS -> h = Some t) /\ (calm (script s) -> rc = KVTREE_SUCCESS).
Proof.
  intros Hs Hwf Hnn [Hsm Hm] Hf.
  pose proof (parse_persisted t kvtree_new [] Hsm Hm) as Hp. rewrite app_nil_r in Hp.
  rewrite merge_new, unpacked_twice in Hp by auto with kvtree. simpl fst in Hp.
  destruct (read_file_spec file kvtree_new s _ _ _ Hs Hf Hp)
    as (rc & h & s' & Er & _ & Hfs & _ & _ & _ & Hr1 & _ & Hr2).
  exists rc, h, s'. split_and!; [done| |by intros [_ ->]%Hr1|].
  - done.
  - intros Hcalm. rewrite Hr2 by eauto with kvtree. by rewrite (proj2 (Z.leb_le _ _)) by lia.
Qed.

(** The command line: [kvtree_print file] or [kvtree_print -m keyval file]. *)
Definition command (prog : cstring) (kv : bool) (file : cstring) : list cstring :=
  if kv then [prog; str "-m"; str "keyval"; file] else [prog; file].

Lemma main_command prog kv file s :
  (forall a, file <> minus :: a) ->
  main (command prog kv file) s =
    io_bind (kvtree_read_file (Some file) (Some kvtree_new)) (fun '(r, hash) =>
      if r =? KVTREE_SUCCESS
      then io_bind (io_lift (kvtree_print_mode hash 0 (mode_of kv))) (fun '(text, _) => io_ret (0, text))
      else io_ret (1, quoted (str "Failed to read file") file)) s.
Proof.
  intros Hf. unfold main, command. destruct kv.
  - rewrite getopt_m_argument by (repeat constructor; done). reflexivity.
  - rewrite getopt_operands by (repeat constructor; done). reflexivity.
Qed.

(** The utility [kvtree_print] on a file as [kvtree_write_file] leaves it, in
    either mode and whatever the system replies: it changes no file and either
    prints the lines of the stored hash and exits with 0 or, when the file
    cannot be read, says so and exits with 1; if the system reports no error it
    prints the hash.  Without a file name it prints its usage and exits with 1. *)
Theorem print_utility prog kv file t s :
  os_ok s -> wf t -> no_null_hash t = true -> fits t ->
  cols_fit (lines kv 0 t) = true -> (forall a, file <> minus :: a) ->
  files s !! file = Some (persisted (Some t)) ->
  (exists rc out s',
    main (command prog kv file) s = Ok ((rc, out), s') /\ files s' = files s /\
    (rc = 0 /\ out = text_of (lines kv 0 t) \/
     rc = 1 /\ out = quoted (str "Failed to read file") file) /\
    (calm (script s) -> rc = 0)) /\
  main [prog] s =
    Ok ((1, (str "ERROR: Missing file name or too many files" ++ [newline]) ++ print_usage), s).
Proof.
  intros Hs Hwf Hnn Ht Hc Hf Hfile. split.
  2:{ unfold main. rewrite getopt_operands by constructor. reflexivity. }
  rewrite main_command by done.
  destruct (read_persisted file t s Hs Hwf Hnn Ht Hfile) as (rc & h & s' & Er & Hfs & Hh & Hcalm).
  unfold io_bind at 1. rewrite Er. cbn [obind]. case (Z.eqb_spec rc KVTREE_SUCCESS) as [E|E].
  - rewrite (Hh E).
    assert (Hp : printable kv t = true).
    { destruct Ht as [Hsm _]. unfold printable. by rewrite Hsm, wf_keys_ok, orb_true_r. }
    rewrite print_mode_shown by done.
    exists 0, (text_of (lines kv 0 t)), s'. split_and!; [done|done|by left|done].
  - exists 1, (quoted (str "Failed to read file") file), s'.
    split_and!; [done|done|by right|by intros ?%Hcalm].
Qed.
End utility.

(** ** Witnesses *)
(** A [getopt_long] that stops at the first operand. *)
Fixpoint options (args : list cstring) (optind : nat) : list opt * nat :=
  match args with
  | a :: rest =>
      if bool_decide (a = str "-m") then
        match rest with
        | mode :: rest => let '(os, n) := options rest (optind + 2) in (opt_m mode :: os, n)
        | [] => ([opt_unknown a], (optind + 1)%nat)
        end
      else if bool_decide (a = str "-h") then
        let '(os, n) := options rest (optind + 1) in (opt_h :: os, n)
      else match a with
           | c :: _ =>
               if Byte.eqb c minus then
                 let '(os, n) := options rest (optind + 1) in (opt_unknown a :: os, n)
               else ([], optind)
           | [] => ([], optind)
           end
  | [] => ([], optind)
  end.

Lemma options_operands args n :
  Forall (fun a => forall a', a <> minus :: a') args -> options args n = ([], n).
Proof.
  intros Ha. destruct args as [|a rest]; [done|]. inversion Ha as [|? ? Hd _]; subst.
  cbn [options]. rewrite !bool_decide_false by (intros ->; by eapply Hd).
  destruct a as [|c a]; [done|]. destruct (byte_eqb_spec c minus) as [->|]; [by destruct (Hd a)|done].
Qed.

Definition getopt_sample : Getopt.
Proof.
  refine {| getopt_long argv := options (tail argv) 1 |}.
  - intros prog args. apply options_operands.
  - intros prog mode args Ha. cbn [tail options].
    rewrite bool_decide_true by done. by rewrite options_operands.
Defined.

Definition printing_os : os :=
  Os (<[str "f" := @persisted zlib_sum (Some sample_hash)]> ∅) ∅ ∅ ∅ 3 18 [] EOTHER.

Lemma print_utility_witness :
  (exists rc out s',
    @main host_le zlib_sum getopt_sample (command (str "kvtree_print") true (str "f")) printing_os
      = Ok ((rc, out), s') /\ files s' = files printing_os /\
    (rc = 0 /\ out = text_of (lines true 0 sample_hash) \/
     rc = 1 /\ out = quoted (str "Failed to read file") (str "f")) /\
    (calm (script printing_os) -> rc = 0)) /\
  @main host_le zlib_sum getopt_sample [str "kvtree_print"] printing_os =
    Ok ((1, (str "ERROR: Missing file name or too many files" ++ [newline]) ++ print_usage), printing_os).
Proof.
  apply (@print_utility host_le zlib_sum getopt_sample).
  - split; [by vm_compute|]. intros n _. apply lookup_empty.
  - wf_check.
  - vm_compute. reflexivity.
  - split; [vm_compute; reflexivity|]. vm_compute. discriminate.
  - vm_compute. reflexivity.
  - intros a [=].
  - apply lookup_insert_eq.
Defined.
