(* ===== verification/Programs.v ===== *)
(** Programs that use the library: the sequences of calls, on any number of
    hashes and files, that a client can make.

    The state of a program is the hashes it owns, each under a name of its own, the
    names of those that may hold bytes of strangers, and the state of the system.  A
    call is a step; it works on a hash of the program or, through a pointer, on a hash
    inside of it.  A value passes from the program to the tree in [kvtree_set] and
    [kvtree_setf], and back in [kvtree_extract].  Between calls anything may happen to
    the files.

    [kvtree_unpack] takes over what the bytes say, and a buffer can name a key twice
    ([unpack_twice]).  A hash that was unpacked from bytes the program has not packed
    is [raw], and so is a hash that a raw one was put into, and one that was taken
    out of a raw one.  A message is received with [kvtree_unpack].

    The theorem: all other hashes are well-formed, so that the theorems of the
    other files apply to them, whatever the files contain.  The functions that change
    neither a hash nor a file, and the collective calls of MPI, are no steps. *)

From stdpp Require Import relations.
From S2P Require Import Prelude CLib ByteOrder Kvtree KvtreeSpec KvtreeMap KvtreeMerge Pack.
From S2P Require Import Io Persist LockFile Format Sort Util Paths Gather GatherSpec ScatterSpec.

Record program := Program { hashes : gmap nat kvtree; raw : gset nat; system : os }.

(** [y] gets what came from [x]; [y] is given up. *)
Definition raw_if (x y : nat) (r : gset nat) : gset nat :=
  if decide (x ∈ r) then {[y]} ∪ r else r.

Section programs.
Context `{Host} `{Zlib} `{LockConfig} `{Qsort} `{Libc} `{Directory} `{Regex}.

(** ** Calls on one hash *)

(** The other tree of a merge may be anything, such as what came out of a damaged
    buffer.  The premises are the ones without which a call is undefined.
    [kvtree_set_kv_int] and [kvtree_unset_kv_int] are the calls with a printed number;
    [util_set] stands for the eight setters. *)
Inductive call : kvtree -> kvtree -> Prop :=
| call_set_null t k t' p :
    kvtree_set (Some t) k None = (Some t', p) -> call t t'
| call_unset t k t' rc :
    kvtree_unset (Some t) k = (Some t', rc) -> call t t'
| call_unset_all t t' rc :
    kvtree_unset_all (Some t) = (Some t', rc) -> call t t'
| call_elem_extract t k t' e :
    kvtree_elem_extract (Some t) k = (Some t', e) -> call t t'
| call_elem_extract_by_addr t pre x post :
    lh_first t = pre ++ x :: post -> call t (kvtree_elem_extract_by_addr t (x :: post)).1
| call_set_kv t k v t' p :
    kvtree_set_kv (Some t) k v = (Some t', p) -> call t t'
| call_unset_kv t k v t' rc :
    kvtree_unset_kv (Some t) k v = (Some t', rc) -> call t t'
| call_merge t u t' rc :
    kvtree_merge (Some t) u = (Some t', rc) -> call t t'
| call_sort t direction t' rc :
    Sort.fits t 16 -> kvtree_sort (Some t) direction = Ok (Some t', rc) -> call t t'
| call_sort_int t direction t' rc :
    Sort.fits t 16 -> no_overflow (map key_int (lh_first t)) ->
    kvtree_sort_int (Some t) direction = Ok (Some t', rc) -> call t t'
| call_setf_null t fmt args t' p :
    kvtree_setf (Some t) None fmt args = Ok (Some t', p) -> call t t'
| call_util_set t k v t' rc :
    setting_ok v -> (strlen k < KVTREE_MAX_LINE)%nat ->
    util_set (Some t) k v = Ok (Some t', rc) -> call t t'.

(** Calls that also use the system: reading and writing files, with locks and without,
    and as parts. *)
Inductive file_call : kvtree -> os -> kvtree -> os -> Prop :=
| call_write_file t s file rc s' :
    kvtree_write_file file (Some t) s = Ok (rc, s') -> file_call t s t s'
| call_read_file t s file rc t' s' :
    kvtree_read_file file (Some t) s = Ok ((rc, Some t'), s') -> file_call t s t' s'
| call_write_with_lock t s file rc s' :
    kvtree_write_with_lock file (Some t) s = Ok (rc, s') -> file_call t s t s'
| call_read_with_lock t s file rc t' s' :
    kvtree_read_with_lock file (Some t) s = Ok ((rc, Some t'), s') -> file_call t s t' s'
| call_lock_open_read t s file fd rc fd' t' s' :
    kvtree_lock_open_read file fd (Some t) s = Ok ((rc, fd', Some t'), s') -> file_call t s t' s'
| call_write_close_unlock t s file fd rc fd' s' :
    kvtree_write_close_unlock file fd (Some t) s = Ok ((rc, fd'), s') -> file_call t s t s'
| call_write_to_gather t s env prefix ranks rc t' s' :
    Sort.fits t 16 -> no_overflow (map key_int (lh_first t)) ->
    kvtree_write_to_gather env prefix (Some t) ranks s = Ok ((rc, Some t'), s') -> file_call t s t' s'
| call_read_scatter_single t s prefix rc t' s' :
    kvtree_read_scatter_single prefix (Some t) s = Ok ((rc, Some t'), s') -> file_call t s t' s'.

(** ** Calls of a program *)
Inductive step : program -> program -> Prop :=
| step_new h r s x : step (Program h r s) (Program (<[x := kvtree_new]> h) (r ∖ {[x]}) s)
| step_delete h r s x : step (Program h r s) (Program (delete x h) r s)
| step_call h r s x t p c c' :
    h !! x = Some t -> kvtree_deref t p = Some c -> call c c' ->
    step (Program h r s) (Program (<[x := kvtree_store t p c']> h) r s)
| step_file_call h r s x t p c c' s' :
    h !! x = Some t -> kvtree_deref t p = Some c -> file_call c s c' s' ->
    step (Program h r s) (Program (<[x := kvtree_store t p c']> h) r s')
| step_set h r s x t p c k y v c' ptr :
    x <> y -> h !! x = Some t -> h !! y = Some v -> kvtree_deref t p = Some c ->
    kvtree_set (Some c) k (Some v) = (Some c', ptr) ->
    step (Program h r s) (Program (<[x := kvtree_store t p c']> (delete y h)) (raw_if y x r) s)
| step_setf h r s x t p c fmt args y v c' ptr :
    x <> y -> h !! x = Some t -> h !! y = Some v -> kvtree_deref t p = Some c ->
    kvtree_setf (Some c) (Some v) fmt args = Ok (Some c', ptr) ->
    step (Program h r s) (Program (<[x := kvtree_store t p c']> (delete y h)) (raw_if y x r) s)
| step_extract h r s x t p c k y v c' :
    x <> y -> h !! x = Some t -> kvtree_deref t p = Some c ->
    kvtree_extract (Some c) k = (Some c', Some v) ->
    step (Program h r s)
         (Program (<[x := kvtree_store t p c']> (<[y := v]> h)) (raw_if x y (r ∖ {[y]})) s)
| step_pack_unpack h r s x t y buf buf' n m pos u :
    h !! x = Some t -> x ∉ r -> small t = true -> kvtree_pack buf pos (Some t) = Ok (buf', n) ->
    kvtree_unpack buf' pos (Some kvtree_new) = Ok (m, Some u) ->
    step (Program h r s) (Program (<[y := u]> h) (r ∖ {[y]}) s)
| step_unpack h r s x t p c buf pos m c' :
    h !! x = Some t -> kvtree_deref t p = Some c ->
    kvtree_unpack buf pos (Some c) = Ok (m, Some c') ->
    step (Program h r s) (Program (<[x := kvtree_store t p c']> h) ({[x]} ∪ r) s)
| step_system h r s s' : step (Program h r s) (Program h r s').

(** ** Each call keeps a hash well-formed *)
Lemma set_wf t k v t' p : wf t -> wf_opt v -> kvtree_set (Some t) k v = (Some t', p) -> wf t'.
Proof.
  intros Hwf Hv E. destruct k as [k|]; [|by injection E as <- _].
  rewrite set_spec in E by done. injection E as <- _. by apply wf_insert_child.
Qed.

Lemma unset_wf t k t' rc : wf t -> kvtree_unset (Some t) k = (Some t', rc) -> wf t'.
Proof.
  intros Hwf E. destruct k as [k|]; [|by injection E as <- _].
  rewrite unset_spec in E by done. injection E as <- _. by apply wf_without.
Qed.

Lemma extract_wf t k t' v :
  wf t -> kvtree_extract (Some t) k = (Some t', Some v) -> wf t' /\ wf v.
Proof.
  intros Hwf E. destruct k as [k|]; [|done].
  rewrite kvtree_extract_spec in E by done. destruct (child t k) as [h|] eqn:Hc; [|done].
  injection E as <- E. cbn in E. subst h. split; [by apply wf_without|].
  by apply (wf_child t k (Some v)).
Qed.

Lemma merge_wf t u t' rc : wf t -> kvtree_merge (Some t) u = (Some t', rc) -> wf t'.
Proof.
  intros Hwf E. destruct u as [u|]; [|by injection E as <- _].
  destruct (merge_spec u t Hwf) as (t2 & E2 & Hwf2 & _). rewrite E in E2. by injection E2 as -> _.
Qed.

Lemma setf_wf t v fmt args t' p :
  wf t -> wf_opt v -> kvtree_setf (Some t) v fmt args = Ok (Some t', p) -> wf t'.
Proof.
  intros Hwf Hv E. unfold kvtree_setf in E.
  destruct (decide (tokens space (strdup fmt) = [])) as [Et|Et].
  { rewrite Et in E. cbn in E. by injection E as <- _. }
  rewrite (setf_loop_spec _ 0 _ t [] t) in E by done.
  destruct (keys_of _ _) as [ks| | |]; [|done..]. cbn [obind] in E. injection E as <- _.
  cbn [kvtree_store]. by apply wf_set_path.
Qed.

Lemma remove_wf t pre x post :
  wf t -> lh_first t = pre ++ x :: post -> wf (kvtree_elem_extract_by_addr t (x :: post)).1.
Proof.
  intros [Hn Hf]%wf_iff E. destruct t as [l]. cbn in E. subst l. cbn [kvtree_elem_extract_by_addr fst].
  rewrite list_remove_app. apply wf_iff. cbn [lh_first] in *. split.
  - rewrite map_app in Hn |- *. cbn in Hn. rewrite <- Permutation_middle in Hn.
    by apply list.NoDup_cons in Hn as [_ Hn].
  - rewrite <- Permutation_middle in Hf. by apply Forall_cons_iff in Hf as [_ Hf].
Qed.

Lemma wf_store_any q : forall t v, wf t -> wf v -> wf (kvtree_store t q v).
Proof.
  induction q as [|k q IH]; intros t v Ht Hv; cbn [kvtree_store]; [done|].
  destruct (kvtree_get (Some t) (Some k)) as [c|] eqn:Eg; [|done].
  assert (wf (kvtree_store t [k] (kvtree_store c q v))) as Hs.
  { apply (wf_store [k] t c); [done|cbn; by rewrite Eg|]. apply IH; [|done].
    apply (wf_deref [k] t c); [done|cbn; by rewrite Eg]. }
  cbn [kvtree_store] in Hs. by rewrite Eg in Hs.
Qed.

(** What a function does through a pointer. *)
Lemma at_ptr_wf {A} t p (f : option kvtree -> option kvtree * A) t' r :
  wf t -> (forall h c, wf_opt h -> (f h).1 = Some c -> wf c) ->
  at_ptr (Some t) p f = (Some t', r) -> wf t'.
Proof.
  intros Ht Hf E. unfold at_ptr in E. destruct p as [p|].
  - assert (wf_opt (kvtree_deref t p)) as Hd.
    { destruct (kvtree_deref t p) as [c|] eqn:Ed; [cbn; by eapply wf_deref|done]. }
    specialize (Hf (kvtree_deref t p)). destruct (f (kvtree_deref t p)) as [[c|] a]; injection E as <- _;
      [|done]. apply wf_store_any; [done|by apply Hf].
  - destruct (f None). by injection E as <- _.
Qed.

Lemma get_or_set_wf t k t' p :
  wf_opt t -> (match kvtree_get t k with
          | None => kvtree_set t k (Some kvtree_new)
          | Some _ => (t, get_ptr t k)
          end) = (Some t', p) -> wf t'.
Proof.
  intros Ht. destruct t as [t|]; [|by destruct k].
  destruct (kvtree_get (Some t) k); [by intros [= <- _]|]. by apply set_wf, wf_new.
Qed.

Lemma set_kv_wf t k v t' p : wf t -> kvtree_set_kv (Some t) k v = (Some t', p) -> wf t'.
Proof.
  intros Ht E. unfold kvtree_set_kv in E.
  match type of E with (let '(_, _) := ?x in _) = _ => destruct x as [t1 p1] eqn:E1 end.
  match type of E with (let '(_, _) := ?x in _) = _ => destruct x as [t2 p2] eqn:E2 end.
  injection E as -> _. destruct t1 as [t1|]; [|unfold at_ptr in E2; by destruct p1, (kvtree_get None v)].
  apply (at_ptr_wf t1 p1 _ t' p2 (get_or_set_wf (Some t) k t1 p1 Ht E1)) in E2; [done|].
  intros h c Hh Hc. destruct (match kvtree_get h v with None => _ | Some _ => _ end) as [h' p'] eqn:E3.
  cbn in Hc. subst h'. by eapply get_or_set_wf.
Qed.

Lemma unset_kv_wf t k v t' rc : wf t -> kvtree_unset_kv (Some t) k v = (Some t', rc) -> wf t'.
Proof.
  intros Ht E. unfold kvtree_unset_kv in E.
  destruct (at_ptr (Some t) _ _) as [t1 [rc1 size]] eqn:E1.
  assert (wf_opt t1) as Hw1.
  { destruct t1 as [t1|]; [|done]. apply (at_ptr_wf t _ _ t1 (rc1, size) Ht) in E1; [done|].
    intros h c Hh Hc. destruct (kvtree_unset h v) as [h' r] eqn:E2. cbn in Hc. subst h'.
    destruct h as [h|]; [|done]. by eapply unset_wf. }
  destruct (size =? 0); [|by injection E as -> _].
  destruct t1 as [t1|]; [by eapply unset_wf|done].
Qed.

Lemma call_wf t t' : wf t -> call t t' -> wf t'.
Proof.
  intros Hwf Hc. destruct Hc as [t k t' p E|t k t' rc E|t t' rc E|t k t' e E|t pre x post E|t k v t' p E|
    t k v t' rc E|t u t' rc E|t d t' rc Hf E|t d t' rc Hf Hno E|t fmt args t' p E|t k v t' rc Hv Hk E].
  - by apply (set_wf t k None t' p Hwf I).
  - by eapply unset_wf.
  - rewrite unset_all_spec in E. injection E as <- _. apply wf_new.
  - apply (unset_wf t k t' KVTREE_SUCCESS Hwf). unfold kvtree_unset. by rewrite E.
  - by apply (remove_wf t pre).
  - by eapply set_kv_wf.
  - by eapply unset_kv_wf.
  - by eapply merge_wf.
  - destruct (sort_spec t d Hwf Hf) as (l & E2 & _ & _ & Hwf2 & _). congruence.
  - destruct (sort_int_spec t d Hwf Hf Hno) as (l & E2 & _ & _ & Hwf2 & _). congruence.
  - by apply (setf_wf t None fmt args t' p Hwf I).
  - destruct (util_set_spec t k v Hwf Hv Hk) as (t2 & E2 & Hwf2 & _). congruence.
Qed.

(** Reading takes over nothing but the merge of a hash. *)
Definition returns {A} (m : io A) (P : A -> Prop) : Prop := forall s a s', m s = Ok (a, s') -> P a.

Lemma returns_ret {A} (a : A) (P : A -> Prop) : P a -> returns (io_ret a) P.
Proof. intros Ha s a' s' [= <- _]. done. Qed.

Lemma returns_bind {A B} (m : io A) (f : A -> io B) P :
  (forall a, returns (f a) P) -> returns (io_bind m f) P.
Proof.
  intros Hf s b s' E. unfold io_bind in E. destruct (m s) as [[a s1]| | |]; [|done..].
  by eapply Hf.
Qed.

Lemma read_fd_wf file fd t :
  wf t -> returns (kvtree_read_fd file fd (Some t)) (fun x => wf_opt x.2).
Proof.
  intros Hwf. unfold kvtree_read_fd.
  repeat match goal with
         | |- returns (match ?x with _ => _ end) _ => destruct x eqn:?
         | |- returns (if ?x then _ else _) _ => destruct x eqn:?
         | |- returns (io_bind _ _) _ => apply returns_bind; intros ?
         | |- returns (io_ret _) _ => apply returns_ret; cbn [snd]
         | |- returns (fun _ => Undef) _ => by intros s a s'
         | x : _ * _ |- _ => destruct x
         end; try done.
  all: match goal with E : kvtree_merge _ _ = (?h, _) |- _ => destruct h as [h|] end; try done;
    cbn; by eapply merge_wf.
Qed.

(** What the first part returns may matter. *)
Lemma returns_bind_of {A B} (m : io A) (f : A -> io B) (Q : A -> Prop) P :
  returns m Q -> (forall a, Q a -> returns (f a) P) -> returns (io_bind m f) P.
Proof.
  intros Hm Hf s b s' E. unfold io_bind in E. destruct (m s) as [[a s1]| | |] eqn:Em; [|done..].
  eapply Hf; [by eapply Hm|exact E].
Qed.

Lemma read_file_wf file t :
  wf t -> returns (kvtree_read_file file (Some t)) (fun x => wf_opt x.2).
Proof.
  intros Hwf. unfold kvtree_read_file. destruct file as [file|]; [|by apply returns_ret].
  apply returns_bind. intros r. destruct (negb _); [by apply returns_ret|].
  apply returns_bind. intros fd. destruct (fd <? 0); [by apply returns_ret|].
  eapply returns_bind_of; [by apply read_fd_wf|]. intros [n h] Hh.
  apply returns_bind. intros r'. by apply returns_ret.
Qed.

Lemma read_with_lock_wf file t :
  wf t -> returns (kvtree_read_with_lock file (Some t)) (fun x => wf_opt x.2).
Proof.
  intros Hwf. apply returns_bind. intros fd. destruct (0 <=? fd); [|by apply returns_ret].
  eapply returns_bind_of; [by apply read_fd_wf|]. intros [n h] Hh. cbv zeta.
  destruct (_ =? -1); apply returns_bind; intros r; [by apply returns_ret|].
  destruct (negb _); by apply returns_ret.
Qed.

Lemma lock_open_read_wf file fd t :
  wf t -> returns (kvtree_lock_open_read file fd (Some t)) (fun x => wf_opt x.2).
Proof.
  intros Hwf. unfold kvtree_lock_open_read. destruct fd as [fd|]; [|by apply returns_ret].
  destruct file as [file|]; [|by apply returns_ret].
  apply returns_bind. intros mode. apply returns_bind. intros fd'.
  destruct (0 <=? fd'); [|by apply returns_ret].
  eapply returns_bind_of; [by apply read_fd_wf|]. intros [n h] Hh. by apply returns_ret.
Qed.

(** The parts are cut from the sorted hash, which is all that remains of the old one. *)
Lemma write_to_gather_wf env prefix t ranks :
  wf t -> Sort.fits t 16 -> no_overflow (map key_int (lh_first t)) ->
  returns (kvtree_write_to_gather env prefix (Some t) ranks) (fun x => wf_opt x.2).
Proof.
  intros Hwf Hf Hno. destruct (sort_int_spec t KVTREE_SORT_ASCENDING Hwf Hf Hno)
    as (l & E & _ & _ & Hwf' & _).
  unfold kvtree_write_to_gather. cbv zeta.
  apply (returns_bind_of _ _ (fun x => wf_opt x.1)).
  { intros s a s' E'. unfold io_lift in E'. rewrite E in E'. by injection E' as <- _. }
  intros [data rc] Hd. destruct (kvtree_set_kv_int (Some kvtree_new) _ 1) as [fh p].
  apply returns_bind. intros [fh' rc']. destruct (kvtree_set_kv_int fh' _ ranks) as [fh2 p2].
  apply returns_bind. intros r. by apply returns_ret.
Qed.

(** What the parts hold is merged into the hash. *)
Lemma read_scatter_single_wf prefix t :
  wf t -> returns (kvtree_read_scatter_single prefix (Some t)) (fun x => wf_opt x.2).
Proof.
  intros Hwf. unfold kvtree_read_scatter_single. cbv zeta.
  apply returns_bind. intros [rc ft]. destruct (negb _); [by apply returns_ret|].
  destruct (kvtree_util_get_unsigned_long ft _) as [rc' expected].
  destruct (negb _); [by apply returns_ret|].
  destruct (regcomp _) as [regex|]; [|by apply returns_ret].
  apply returns_bind. intros [names|]; [|by apply returns_ret].
  apply returns_bind. intros [ft' actual]. destruct (kvtree_merge (Some t) ft') as [data r] eqn:Em.
  assert (wf_opt data) as Hd by (destruct data as [t'|]; [by eapply merge_wf|done]).
  destruct (bool_decide _); by apply returns_ret.
Qed.

Lemma file_call_wf t s t' s' : wf t -> file_call t s t' s' -> wf t'.
Proof.
  intros Hwf Hc. destruct Hc as [t s file rc s' E|t s file rc t' s' E|t s file rc s' E|
    t s file rc t' s' E|t s file fd rc fd' t' s' E|t s file fd rc fd' s' E|
    t s env prefix ranks rc t' s' Hf Hno E|t s prefix rc t' s' E]; try done.
  - by apply (read_file_wf _ _ Hwf) in E.
  - by apply (read_with_lock_wf _ _ Hwf) in E.
  - by apply (lock_open_read_wf _ _ _ Hwf) in E.
  - by apply (write_to_gather_wf _ _ _ _ Hwf Hf Hno) in E.
  - by apply (read_scatter_single_wf _ _ Hwf) in E.
Qed.

Lemma pack_unpack_wf t buf buf' n m pos u :
  wf t -> small t = true -> kvtree_pack buf pos (Some t) = Ok (buf', n) ->
  kvtree_unpack buf' pos (Some kvtree_new) = Ok (m, Some u) -> wf u.
Proof.
  intros Hwf Hs Hp Hu. rewrite (kvtree_pack_write (Some t) (tree_pack_write t)) in Hp.
  unfold write_all in Hp. apply obind_ok in Hp as (b & Hb & [= -> <-]).
  apply mem_write_Ok in Hb as [-> Hl]. cbn [encode_opt] in *.
  rewrite (kvtree_unpack_stream _ pos t (drop (pos + length (encode t)) buf)) in Hu; [|done|].
  - injection Hu as _ <-. by apply unpacked_wf.
  - by rewrite drop_app_length' by (rewrite length_take; lia).
Qed.

(** All hashes that are not raw. *)
Definition clean_wf (pr : program) : Prop :=
  map_Forall (fun x t => x ∉ raw pr -> wf t) (hashes pr).

Lemma raw_if_not x y z r : z ∉ raw_if x y r -> z ∉ r /\ (z = y -> x ∉ r).
Proof. unfold raw_if. case_decide; set_solver. Qed.

(** A call on a hash, or through a pointer into it, that keeps the part well-formed
    keeps the whole well-formed. *)
Lemma store_clean t p c c' :
  wf t -> kvtree_deref t p = Some c -> (wf c -> wf c') -> wf (kvtree_store t p c').
Proof. intros Ht Hd Hc. apply (wf_store p t c); [done..|]. apply Hc. by apply (wf_deref p t). Qed.

Lemma step_wf pr pr' : clean_wf pr -> step pr pr' -> clean_wf pr'.
Proof.
  unfold clean_wf. intros Hwf Hst.
  destruct Hst; cbn [hashes raw] in *; try done;
    intros z tz Hz Hr; try apply raw_if_not in Hr as [Hr Hy];
    try (apply lookup_insert_Some in Hz as [[<- <-]|[Hne Hz]]).
  all: try (by eapply Hwf; [eassumption|set_solver]).
  - apply wf_new.
  - apply lookup_delete_Some in Hz as [_ Hz]. by eapply Hwf.
  - eapply store_clean; [by eapply Hwf|eassumption|]. intros Hwc. by eapply call_wf.
  - eapply store_clean; [by eapply Hwf|eassumption|]. intros Hwc. by eapply file_call_wf.
  - eapply store_clean; [by eapply Hwf|eassumption|]. intros Hwc. eapply set_wf; [exact Hwc| |eassumption].
    eapply Hwf; [eassumption|]. by apply Hy.
  - apply lookup_delete_Some in Hz as [_ Hz]. by eapply Hwf.
  - eapply store_clean; [by eapply Hwf|eassumption|]. intros Hwc. eapply setf_wf; [exact Hwc| |eassumption].
    eapply Hwf; [eassumption|]. by apply Hy.
  - apply lookup_delete_Some in Hz as [_ Hz]. by eapply Hwf.
  - eapply store_clean; [eapply Hwf; [eassumption|set_solver]|eassumption|]. intros Hwc.
    match goal with E : kvtree_extract _ _ = _ |- _ => by apply (extract_wf _ _ _ _ Hwc) in E as [? _] end.
  - apply lookup_insert_Some in Hz as [[<- <-]|[Hny Hz]].
    + assert (wf c) as Hwc by (eapply wf_deref; [|eassumption]; eapply Hwf; [eassumption|set_solver]).
      match goal with E : kvtree_extract _ _ = _ |- _ => by apply (extract_wf _ _ _ _ Hwc) in E as [_ ?] end.
    + eapply Hwf; [eassumption|set_solver].
  - eapply pack_unpack_wf; [by eapply Hwf|eassumption..].
  - set_solver.
Qed.

(** C10. A program keeps its hashes well-formed: whatever calls it has made on its hashes
    and through pointers into them (setting, unsetting, extracting, merging, sorting,
    formatted paths, the setters, packing and unpacking, reading and writing of files
    with locks and without and as parts) and whatever the files it has read contain, at
    each level of each of its hashes the keys are strings and pairwise different, unless
    the hash was unpacked with [kvtree_unpack] from bytes the program did not pack itself,
    had such a hash put into it, or was taken out of one.  (A message is such bytes; the
    collective calls of MPI are not among the calls.) *)
Theorem programs_keep_wf s0 pr :
  rtc step (Program ∅ ∅ s0) pr -> map_Forall (fun x t => x ∉ raw pr -> wf t) (hashes pr).
Proof.
  apply (rtc_ind_r clean_wf).
  - apply map_Forall_empty.
  - intros pr1 pr2 _ Hst Hwf. by eapply step_wf.
Qed.
End programs.

(** ** Unpacking alone keeps no such promise

    A buffer that names a key twice gives a hash with the key twice; merging it,
    as [kvtree_read_fd] does, joins the two. *)
Definition twice_bytes : list byte :=
  be_split 4 2 ++ (str "a" ++ [NUL]) ++ be_split 4 0 ++ (str "a" ++ [NUL]) ++ be_split 4 0.

Definition twice : kvtree :=
  KVTree [Elem (Some (str "a")) (Some kvtree_new); Elem (Some (str "a")) (Some kvtree_new)].

Example unpack_twice :
  kvtree_unpack (H := host_le) twice_bytes 0 (Some kvtree_new) = Ok (16%nat, Some twice) /\
  wfb twice = false /\
  kvtree_merge (Some kvtree_new) (Some twice)
    = (Some (KVTree [Elem (Some (str "a")) (Some kvtree_new)]), KVTREE_SUCCESS).
Proof. vm_compute. done. Qed.

(** ** A program

    It builds [VERSION = 1] and [NODES = (N0 = ...)], reads a file into a hash with the
    file locked, unpacks bytes that name a key twice, and merges what it got into a
    hash of its own. *)
#[local] Existing Instance host_le.
#[local] Existing Instance zlib_sum.
#[local] Existing Instance lock_flock.
#[local] Existing Instance InsertionSort.qsort_insertion.
#[local] Existing Instance libc_sample.
#[local] Existing Instance dir_of_files.
#[local] Existing Instance regex_part.

Definition built : kvtree :=
  KVTree [Elem (Some (str "NODES")) (Some (KVTree [Elem (Some (str "N0")) None]));
          Elem (Some (str "VERSION")) (Some (KVTree [Elem (Some (str "1")) (Some kvtree_new)]))].

(** A hash comes back from a file with empty hashes for missing ones. *)
Definition read_back : kvtree :=
  KVTree [Elem (Some (str "NODES")) (Some (KVTree [Elem (Some (str "N0")) (Some kvtree_new)]));
          Elem (Some (str "VERSION")) (Some (KVTree [Elem (Some (str "1")) (Some kvtree_new)]))].

Definition merged : kvtree := KVTree [Elem (Some (str "a")) (Some kvtree_new)].

Lemma build_program :
  exists pr, rtc step (Program ∅ ∅ (empty_os [])) pr /\ hashes pr !! 0%nat = Some built /\
    hashes pr !! 2%nat = Some twice /\ hashes pr !! 3%nat = Some merged /\
    hashes pr !! 4%nat = Some read_back /\ raw pr = {[2%nat]}.
Proof.
  eexists. split.
  { eapply rtc_l; [apply (step_new _ _ _ 0)|]. eapply rtc_l; [apply (step_new _ _ _ 1)|].
    eapply rtc_l; [eapply (step_call _ _ _ 0 _ []);
      [reflexivity|reflexivity|
       eapply (call_set_kv _ (Some (str "VERSION")) (Some (str "1"))); vm_compute; reflexivity]|].
    eapply rtc_l; [eapply (step_set _ _ _ 0 _ [] _ (Some (str "NODES")) 1);
      [done|reflexivity|reflexivity|reflexivity|vm_compute; reflexivity]|].
    eapply rtc_l; [eapply (step_call _ _ _ 0 _ [str "NODES"]);
      [reflexivity|reflexivity|eapply (call_set_null _ (Some (str "N0"))); vm_compute; reflexivity]|].
    eapply rtc_l; [eapply (step_file_call _ _ _ 0 _ []);
      [reflexivity|reflexivity|eapply (call_write_file _ _ (Some (str "f"))); vm_compute; reflexivity]|].
    eapply rtc_l; [apply (step_new _ _ _ 4)|].
    eapply rtc_l; [eapply (step_file_call _ _ _ 4 _ []);
      [reflexivity|reflexivity|eapply (call_read_with_lock _ _ (Some (str "f"))); vm_compute; reflexivity]|].
    eapply rtc_l; [apply (step_new _ _ _ 2)|].
    eapply rtc_l; [eapply (step_unpack _ _ _ 2 _ [] _ twice_bytes 0);
      [reflexivity|reflexivity|vm_compute; reflexivity]|].
    eapply rtc_l; [apply (step_new _ _ _ 3)|].
    eapply rtc_l; [eapply (step_call _ _ _ 3 _ []);
      [reflexivity|reflexivity|eapply (call_merge _ (Some twice)); vm_compute; reflexivity]|].
    apply rtc_refl. }
  repeat split; vm_compute; reflexivity.
Qed.

Lemma programs_keep_wf_witness :
  exists pr, rtc step (Program ∅ ∅ (empty_os [])) pr /\
    hashes pr !! 0%nat = Some built /\ hashes pr !! 3%nat = Some merged /\ raw pr = {[2%nat]} /\
    map_Forall (fun x t => x ∉ raw pr -> wf t) (hashes pr).
Proof.
  destruct build_program as (pr & Hr & H0 & _ & H3 & _ & Hraw).
  exists pr. split; [exact Hr|]. split; [exact H0|]. split; [exact H3|]. split; [exact Hraw|].
  exact (programs_keep_wf (empty_os []) pr Hr).
Defined.
